(* ===== verification/_CoqProject ===== *)
-Q . S2P
Prelude.v
Text.v
Errors.v
City.v
Keys.v
Env.v
PckCert.v
V8Sort.v
Selection.v
Validate.v
Ocsp.v
Database.v
Fifo.v
FifoSpec.v
Records.v
Platforms.v
Registry.v
Collateral.v
Urls.v
Prog.v
Disconnect.v
Cache.v
Pcs.v
Pool.v
Refresh.v
RefreshRun.v
RefreshRunSpec.v
CacheSpec.v
ScheduledSpec.v
Routes.v
PcsSpec.v
RoutesSpec.v
SingleFlight.v
DisconnectSpec.v
Rely.v
ChainSpec.v
Cascade.v
Coalesce.v
Config.v
ConfigSpec.v
Metrics.v
MetricsSpec.v
Permits.v
PermitsSpec.v
IntelImport.v
ImportSpec.v
Boot.v
Server.v
ServerSpec.v
BootSpec.v
Loadgen.v
