(* ===== verification/Prelude.v ===== *)
(** * pccs-rs: a verification library

    pccs-rs is a caching server for attestation collateral: Intel SGX and TDX
    certificates, CRLs, TCB infos and enclave identities, AMD KDS documents,
    NVIDIA RIM files and OCSP responses.  It answers from a RocksDB store and,
    in LAZY mode, fills a miss from the vendors' services or from another
    PCCS.  This library models the implementation under src/src and proves
    what makes it correct.  This file is the root and the prelude: results,
    machine integers, list and option lemmas, tactics and hints.

    ** How the files correspond to the source

    - Text (Rust's [str], hexadecimal, decimal, UTF-8), Errors (error.rs),
      City (hash/city.rs, hash.rs), Keys (keys.rs);
    - Env: interfaces of third-party code (JSON values, base64, SHA-2, time,
      percent encoding), each a class with its laws, and concrete instances
      in [Concrete] for the witnesses;
    - PckCert, V8Sort, Selection (selection.rs): the TLV walker, the PCK
      certificate parser, the choice of the best certificate with V8's sort;
    - Validate (validate.rs), Ocsp (ocsp.rs), Urls (the URL canonicalisation
      of cache.rs);
    - Database (RocksDB and serde as interfaces, the store monad), Records,
      Fifo and FifoSpec, Platforms, Registry, Collateral (store.rs): typed
      records, the bounded read-through index, platform pools, the
      registration queue and appraisal policies, collateral upload;
    - Prog: asynchronous code as trees of atomic actions, key locks and calls,
      and Disconnect: what becomes of it when a client goes away;
      Cache, Pool, Refresh (cache.rs) are written in it, against the upstream
      client as the family [pcs_call]; Pcs (pcs.rs) implements that family
      over single HTTP exchanges, and Permits (pcs.rs) is what bounds those
      that are under way at one time;
    - RefreshRun (cache.rs): the sharing of one running refresh by its
      callers, and the bounded set of tasks of the scheduled run;
    - Routes (routes/, auth.rs, health.rs, lib.rs): handlers, tables, guards
      and middleware; [RoutesSpec.service] is the whole program, its upstream
      calls carried out over HTTP;
    - Config (config.rs), IntelImport (intel_import.rs), Metrics (metrics.rs);
    - Boot (main.rs; [Store::open] and [build_cache]): the sequence of a start
      and the cron loop; Server (server.rs): the accept loop and its shutdown;
    - CacheSpec, SingleFlight, PcsSpec, RoutesSpec, ConfigSpec, MetricsSpec,
      ImportSpec, RefreshRunSpec (the callers of a refresh), ScheduledSpec
      (the tasks of a scheduled one), DisconnectSpec (the whole service),
      PermitsSpec, BootSpec, ServerSpec: the theorems about the files they are
      named after; SingleFlight is about the read-through URLs of Cache;
    - ChainSpec (a node as the upstream of another) and Cascade (whole chains
      of nodes), with Rely: the judgement on programs and shared state that
      both use; Coalesce (concurrent requests for the documents of ChainSpec);
    - Loadgen (bin/loadgen.rs): the benchmark client.

    ** How the parts interact

    A request enters [Routes.app], which routes it, checks its token and runs
    its handler; a handler validates parameters (Validate) and runs a program
    of Cache, Pool or Refresh.  Those act on one shared state: the store (a
    [Database]) and the in-memory maps of the cache.  Store operations are
    single atomic actions of a program, because the source runs them under
    its own locks without suspending; between two actions any other request
    may act.  A per-key lock and the upstream calls are operations of their
    own.  [Pcs.over_http] replaces every upstream call by the exchanges that
    implement it.  The interfaces are classes whose laws are the documented
    behaviour of the code behind them; a store operation can always fail.

    ** What the theorems show

    - selection: the chosen certificate is admissible, best, and exists
      exactly when the pool has one; parsing reads back what Intel encodes;
    - store: get after put, coherence of pools and GET records under every
      publication, rejection of stale publications, the cap of the bounded
      kinds, atomic uploads, draining the queue, one default policy;
    - concurrency: one upstream request per key however requests interleave,
      freedom from deadlock and termination of any set of requests, both with
      clients that disconnect in the middle, mutual exclusion of refreshes
      and what becomes of one that is dropped, permits that are never lost;
    - security: where the service can connect to, who receives the
      subscription key and client credentials, which tokens open which
      guard, which hosts count as Intel's, which CRL URIs are accepted;
    - wire formats: canonical keys and URLs, query round trips, headers of
      every response, metric samples equal to the events they count;
    - several nodes: records that survive the way from one node to another;
      chains of nodes that serve, and keep, what the last of them has;
    - configuration and import: bounds of every effective configuration,
      conversion of a Node configuration, an import that is atomic, lossless
      and coherent;
    - start and stop: what opening a store makes of an index, the order of a
      start, which scheduled runs happen, which connections are served and
      when a shutdown is over.

    ** Bounds and fuel

    Every loop of the source is structural recursion here or has a measure
    written as fuel: string searches and trims take the string's length, the
    retry loop takes [max_attempts], the TLV walkers take the length of the
    input; each has a lemma that the fuel given never runs out.  Machine
    integers are [Z] with their wrap-around, saturation or checked failure
    written out (this file).

    ** Not modelled

    Third-party code behind the interfaces (RocksDB, serde, hyper, rustls,
    SQLite, X.509, SHA-2, clap, TOML, cron, axum_server's own accept loop);
    sockets and files beyond the outcomes of their calls; signals, log lines
    and the dispatch of the command line (main.rs); where in the programs a
    metric is recorded, but for those of the upstream client (Permits), and
    under which label a URL of unknown origin counts ([upstream_for_url]);
    the Allow header of a 405. *)

From stdpp Require Import base gmap strings list option.
From Stdlib Require Import ZArith Lia.

#[global] Set Default Proof Using "Type".

#[global] Arguments Nat.leb : simpl never.
#[global] Arguments Nat.ltb : simpl never.
#[global] Arguments Nat.div : simpl never.
#[global] Arguments Nat.modulo : simpl never.

Declare Scope rust_scope.
Delimit Scope rust_scope with rust.

(** ** Results

    [Result<A, E>] of the source.  The error type comes first so that
    [result E] is a monad and stdpp's [x ← c; k] is the [?] operator. *)

Inductive result (E A : Type) : Type :=
| Ok (a : A)
| Err (e : E).

Arguments Ok {E A} a.
Arguments Err {E A} e.

#[export] Instance result_ret E : MRet (result E) := λ A a, Ok a.

#[export] Instance result_bind E : MBind (result E) := λ A B f c,
  match c with Ok a => f a | Err e => Err e end.

#[export] Instance result_fmap E : FMap (result E) := λ A B f c,
  match c with Ok a => Ok (f a) | Err e => Err e end.

(** [Option::ok_or] *)
Definition ok_or {E A} (o : option A) (e : E) : result E A :=
  match o with Some a => Ok a | None => Err e end.

(** [Result::map_err] *)
Definition map_err {E F A} (c : result E A) (f : E → F) : result F A :=
  match c with Ok a => Ok a | Err e => Err (f e) end.

(** [Result::ok] *)
Definition to_option {E A} (c : result E A) : option A :=
  match c with Ok a => Some a | Err _ => None end.

Definition is_ok {E A} (c : result E A) : bool :=
  match c with Ok _ => true | Err _ => false end.

(** An early return: [if b { return Err(e) }]. *)
Definition err_when {E} (b : bool) (e : E) : result E unit :=
  if b then Err e else Ok ().

Notation "'check' b 'else' e ; k" :=
  (if (b : bool) then k else Err e)
  (at level 100, b at level 99, e at level 99, k at level 200,
   right associativity) : rust_scope.

#[export] Instance result_eq_dec E A `{EqDecision E, EqDecision A} :
  EqDecision (result E A).
Proof. solve_decision. Defined.

(** Monadic traversal of a list, stopping at the first error. *)
Fixpoint try_map {E A B} (f : A → result E B) (l : list A) : result E (list B) :=
  match l with
  | [] => Ok []
  | x :: l' => y ← f x; ys ← try_map f l'; Ok (y :: ys)
  end.

Fixpoint try_fold {E A B} (f : B → A → result E B) (acc : B) (l : list A) : result E B :=
  match l with
  | [] => Ok acc
  | x :: l' => acc' ← f acc x; try_fold f acc' l'
  end.

(** [for x in l { f(x)?; }] *)
Fixpoint try_each {E A} (f : A → result E unit) (l : list A) : result E unit :=
  match l with
  | [] => Ok ()
  | x :: l' => f x ≫= λ _, try_each f l'
  end.

(** ** Automation *)

Create HintDb pccs.
Create Rewrite HintDb pccs.

Ltac unfold_result :=
  unfold mbind, mret, fmap, result_bind, result_ret, result_fmap,
    ok_or, map_err, err_when in *.

(** Case analysis on every [match] scrutinee of the goal or of a hypothesis. *)
Ltac split_match :=
  match goal with
  | |- context [match ?x with _ => _ end] => destruct x eqn:?
  end.

Ltac split_match_in H :=
  match type of H with
  | context [match ?x with _ => _ end] => destruct x eqn:?
  end.

Ltac unfold_result_in H :=
  cbn in H;
  unfold mbind, mret, fmap, result_bind, result_ret, result_fmap,
    ok_or, map_err, err_when in H; cbn in H.

(** [inv_ok H] opens [H : c = Ok x]: every error branch of [c] is discarded. *)
Ltac inv_ok H :=
  unfold_result_in H;
  repeat (split_match_in H; try discriminate H); simplify_eq.

(** Boolean reflection of conjunctions, comparisons and string tests. *)
Ltac bool_to_prop :=
  repeat match goal with
  | H : _ && _ = true |- _ => apply andb_true_iff in H; destruct H
  | H : _ || _ = true |- _ => apply orb_true_iff in H
  | H : _ || _ = false |- _ => apply orb_false_iff in H; destruct H
  | H : negb _ = true |- _ => apply negb_true_iff in H
  | H : negb _ = false |- _ => apply negb_false_iff in H
  | H : (_ =? _)%Z = true |- _ => apply Z.eqb_eq in H
  | H : (_ =? _)%Z = false |- _ => apply Z.eqb_neq in H
  | H : (_ <? _)%Z = true |- _ => apply Z.ltb_lt in H
  | H : (_ <? _)%Z = false |- _ => apply Z.ltb_ge in H
  | H : (_ <=? _)%Z = true |- _ => apply Z.leb_le in H
  | H : (_ <=? _)%Z = false |- _ => apply Z.leb_gt in H
  | H : (_ =? _)%nat = true |- _ => apply Nat.eqb_eq in H
  | H : (_ =? _)%nat = false |- _ => apply Nat.eqb_neq in H
  | H : (_ <? _)%nat = true |- _ => apply Nat.ltb_lt in H
  | H : (_ <? _)%nat = false |- _ => apply Nat.ltb_ge in H
  | H : (_ <=? _)%nat = true |- _ => apply Nat.leb_le in H
  | H : (_ <=? _)%nat = false |- _ => apply Nat.leb_gt in H
  | H : String.eqb _ _ = true |- _ => apply String.eqb_eq in H
  | H : String.eqb _ _ = false |- _ => apply String.eqb_neq in H
  end.

(** ** Results: shared lemmas *)

Lemma try_map_ok {E A B} (f : A → result E B) l ys :
  try_map f l = Ok ys → Forall2 (λ x y, f x = Ok y) l ys.
Proof.
  revert ys. induction l as [|x l IH]; intros ys H; inv_ok H.
  - apply Forall2_nil_2.
  - apply Forall2_cons_2; auto.
Qed.

Lemma try_map_length {E A B} (f : A → result E B) l ys :
  try_map f l = Ok ys → length ys = length l.
Proof. intros H%try_map_ok%Forall2_length. done. Qed.

Lemma try_map_total {E A B} (f : A → result E B) l :
  (∀ x, x ∈ l → ∃ y, f x = Ok y) → ∃ ys, try_map f l = Ok ys.
Proof.
  induction l as [|x l IH]; intros H; [by exists []|].
  destruct (H x) as [y Hy]; [left|].
  destruct IH as [ys Hys]; [intros; apply H; by right|].
  exists (y :: ys). simpl. unfold_result. by rewrite Hy, Hys.
Qed.

Lemma try_map_seq {E B} (f : nat → result E B) k l :
  (∀ i b, l !! i = Some b → f (k + i) = Ok b) → try_map f (seq k (length l)) = Ok l.
Proof.
  revert k. induction l as [|b l IH]; intros k H; [done|].
  cbn [length seq try_map]. unfold_result.
  pose proof (H 0 b eq_refl) as H0. rewrite Nat.add_0_r in H0. rewrite H0, IH; [done|].
  intros i b' Hi. rewrite Nat.add_succ_comm. by apply H.
Qed.

Lemma try_fold_cons {E A B} (f : B → A → result E B) acc acc' x l :
  f acc x = Ok acc' → try_fold f acc (x :: l) = try_fold f acc' l.
Proof. intros H. simpl. unfold_result. by rewrite H. Qed.

(** Invariant rule for [for (i, x) in l.iter().enumerate() { .. }]. *)
Lemma try_fold_imap {E A B} (f : B → nat * A → result E B) (P : nat → B → Prop) l n acc :
  P n acc →
  (∀ k x acc, l !! k = Some x → P (n + k) acc →
     ∃ acc', f acc (n + k, x) = Ok acc' ∧ P (S (n + k)) acc') →
  ∃ acc', try_fold f acc (imap (λ i x, (n + i, x)) l) = Ok acc' ∧ P (n + length l) acc'.
Proof.
  revert n acc. induction l as [|x l IH]; intros n acc HP Hstep.
  - exists acc. simpl. by rewrite Nat.add_0_r.
  - destruct (Hstep 0 x acc eq_refl) as (acc1 & Hf & HP1); [by rewrite Nat.add_0_r|].
    rewrite Nat.add_0_r in Hf, HP1.
    destruct (IH (S n) acc1 HP1) as (acc2 & Hr & HP2).
    { intros k y a Hk Ha. destruct (Hstep (S k) y a Hk) as (a' & ? & ?);
        rewrite ?Nat.add_succ_r in *; eauto. }
    exists acc2. split; [|by cbn [length]; rewrite Nat.add_succ_r].
    cbn [imap]. rewrite Nat.add_0_r. erewrite try_fold_cons by done. rewrite <- Hr. f_equal.
    apply imap_ext. intros i y _. simpl. by rewrite Nat.add_succ_r.
Qed.

Lemma try_each_ok {E A} (f : A → result E unit) l :
  try_each f l = Ok () ↔ ∀ x, x ∈ l → f x = Ok ().
Proof.
  induction l as [|x l IH]; simpl; unfold_result.
  - split; [intros _ y Hy; by apply elem_of_nil in Hy | done].
  - destruct (f x) as [[]|e] eqn:Hx.
    + rewrite IH. split.
      * intros H y [->|Hy]%elem_of_cons; auto.
      * intros H y Hy. apply H. by right.
    + split; [done|]. intros H. specialize (H x (list_elem_of_here _ _)). congruence.
Qed.

(** ** Machine integers

    A w-bit unsigned integer is a [Z] in [0, 2^w); the wrap-around of each
    operation is written out. *)

Section integers.
Local Open Scope Z_scope.

Definition u8_max : Z := 255.
Definition u16_max : Z := 2 ^ 16 - 1.
Definition u32_max : Z := 2 ^ 32 - 1.
Definition u64_max : Z := 2 ^ 64 - 1.
Definition i64_min : Z := - 2 ^ 63.
Definition i64_max : Z := 2 ^ 63 - 1.

Definition wrap (w z : Z) : Z := z mod 2 ^ w.

Definition in_width (w z : Z) : Prop := 0 <= z < 2 ^ w.

Definition is_byte (b : Z) : Prop := in_width 8 b.

(** [u64::saturating_add], [saturating_sub], [saturating_mul] *)
Definition sat_add (a b : Z) : Z := Z.min (a + b) u64_max.
Definition sat_sub (a b : Z) : Z := Z.max (a - b) 0.
Definition sat_mul (a b : Z) : Z := Z.min (a * b) u64_max.

(** [u64::checked_add], [checked_mul] (also [usize] on a 64-bit target) *)
Definition checked_add (a b : Z) : option Z :=
  if a + b <=? u64_max then Some (a + b) else None.
Definition checked_mul (a b : Z) : option Z :=
  if a * b <=? u64_max then Some (a * b) else None.

(** [i64::try_from(u64)], [u64::try_from(i64)], [u32::try_from(u64)] *)
Definition i64_try_from (z : Z) : option Z := if z <=? i64_max then Some z else None.
Definition u64_try_from (z : Z) : option Z := if 0 <=? z then Some z else None.
Definition u32_try_from (z : Z) : option Z := if z <=? u32_max then Some z else None.

(** [i64::checked_add], [i64::saturating_add] *)
Definition i64_checked_add (a b : Z) : option Z :=
  let s := a + b in if (i64_min <=? s) && (s <=? i64_max) then Some s else None.
Definition i64_sat_add (a b : Z) : Z := Z.max i64_min (Z.min (a + b) i64_max).

Lemma wrap_range w z : 0 <= w → in_width w (wrap w z).
Proof. intros Hw. apply Z.mod_pos_bound, Z.pow_pos_nonneg; lia. Qed.

Lemma wrap_small w z : in_width w z → wrap w z = z.
Proof. intros H. by apply Z.mod_small. Qed.

Lemma wrap_wrap w z : 0 <= w → wrap w (wrap w z) = wrap w z.
Proof. intros Hw. by apply wrap_small, wrap_range. Qed.

Lemma in_width_testbit w z i : in_width w z → 0 <= w <= i → Z.testbit z i = false.
Proof.
  intros [H0 H1] Hi. destruct (Z.eq_dec z 0) as [->|Hz]; [apply Z.bits_0|].
  apply Z.bits_above_log2; [done|].
  apply Z.log2_lt_pow2 in H1; lia.
Qed.

Lemma in_width_of_testbit w z :
  0 <= w → 0 <= z → (∀ i, w <= i → Z.testbit z i = false) → in_width w z.
Proof.
  intros Hw Hz Hbits. split; [done|].
  destruct (Z.eq_dec z 0) as [->|Hne]; [apply Z.pow_pos_nonneg; lia|].
  apply Z.log2_lt_pow2; [lia|].
  destruct (Z.lt_ge_cases (Z.log2 z) w) as [|Hge]; [done|exfalso].
  specialize (Hbits _ Hge). rewrite Z.bit_log2 in Hbits; [done|lia].
Qed.

Lemma lxor_width w a b : 0 <= w → in_width w a → in_width w b → in_width w (Z.lxor a b).
Proof.
  intros Hw Ha Hb. apply in_width_of_testbit; [done| |].
  - apply Z.lxor_nonneg. unfold in_width in *. lia.
  - intros i Hi. rewrite Z.lxor_spec, !(in_width_testbit w) by (done || lia). done.
Qed.

Lemma lor_width w a b : 0 <= w → in_width w a → in_width w b → in_width w (Z.lor a b).
Proof.
  intros Hw Ha Hb. apply in_width_of_testbit; [done| |].
  - apply Z.lor_nonneg. unfold in_width in *. lia.
  - intros i Hi. rewrite Z.lor_spec, !(in_width_testbit w) by (done || lia). done.
Qed.

Lemma shiftr_width w a n : 0 <= n → in_width w a → in_width w (Z.shiftr a n).
Proof.
  intros Hn [H0 H1]. rewrite Z.shiftr_div_pow2 by done.
  assert (0 < 2 ^ n) by (apply Z.pow_pos_nonneg; lia).
  split; [by apply Z.div_pos|].
  apply Z.div_lt_upper_bound; nia.
Qed.
End integers.

#[export] Hint Resolve wrap_range lxor_width lor_width shiftr_width : pccs.
