(* ===== verification/Text.v ===== *)
(** * Text: Rust strings and byte slices

    A Rust [&str] or [String] is its UTF-8 encoding, a Rocq [string] of
    bytes ([ascii]); a byte slice that is parsed as binary data is a
    [list Z].  This file models the standard-library text functions the
    source uses, with the lemmas the components share. *)

From S2P Require Import Prelude.
From stdpp Require Import base strings list option pretty.
From Stdlib Require Import ZArith Lia.
From Stdlib Require Export Ascii String.

Abbreviation length := Datatypes.length.
#[global] Arguments String.append !_ _ : simpl nomatch.

Local Open Scope string_scope.
Local Open Scope list_scope.

(** ** Bytes and characters *)

Definition byte_of (c : ascii) : Z := Z.of_N (N_of_ascii c).
Definition chr (z : Z) : ascii := ascii_of_N (Z.to_N z).

(** [str::as_bytes] *)
Fixpoint bytes (s : string) : list Z :=
  match s with
  | EmptyString => []
  | String c s' => byte_of c :: bytes s'
  end.

Fixpoint of_bytes (l : list Z) : string :=
  match l with
  | [] => EmptyString
  | b :: l' => String (chr b) (of_bytes l')
  end.

Definition in_range (lo hi : Z) (c : ascii) : bool :=
  (lo <=? byte_of c)%Z && (byte_of c <=? hi)%Z.

(** [u8::is_ascii_digit], [is_ascii_alphanumeric], [is_ascii_hexdigit],
    [is_ascii_whitespace] *)
Definition is_digit (c : ascii) : bool := in_range 48 57 c.
Definition is_upper (c : ascii) : bool := in_range 65 90 c.
Definition is_lower (c : ascii) : bool := in_range 97 122 c.
Definition is_alnum (c : ascii) : bool := is_digit c || is_upper c || is_lower c.
Definition is_hexdigit (c : ascii) : bool :=
  is_digit c || in_range 65 70 c || in_range 97 102 c.
Definition is_ascii_ws (c : ascii) : bool :=
  existsb (Z.eqb (byte_of c)) [32; 9; 10; 12; 13]%Z.

Definition to_upper_c (c : ascii) : ascii :=
  if is_lower c then chr (byte_of c - 32) else c.
Definition to_lower_c (c : ascii) : ascii :=
  if is_upper c then chr (byte_of c + 32) else c.

Fixpoint str_map (f : ascii → ascii) (s : string) : string :=
  match s with
  | EmptyString => EmptyString
  | String c s' => String (f c) (str_map f s')
  end.

(** [str::to_ascii_uppercase], [to_ascii_lowercase] *)
Definition to_upper : string → string := str_map to_upper_c.
Definition to_lower : string → string := str_map to_lower_c.

(** [s.bytes().all(p)] *)
Fixpoint str_all (p : ascii → bool) (s : string) : bool :=
  match s with
  | EmptyString => true
  | String c s' => p c && str_all p s'
  end.

(** [str::eq_ignore_ascii_case] *)
Fixpoint eq_ic (s t : string) : bool :=
  match s, t with
  | EmptyString, EmptyString => true
  | String c s', String d t' => Ascii.eqb (to_lower_c c) (to_lower_c d) && eq_ic s' t'
  | _, _ => false
  end.

Definition is_empty (s : string) : bool :=
  match s with EmptyString => true | _ => false end.

(** ** Searching and splitting *)

Fixpoint strip_prefix (p s : string) : option string :=
  match p, s with
  | EmptyString, _ => Some s
  | String c p', String d s' => if Ascii.eqb c d then strip_prefix p' s' else None
  | String _ _, EmptyString => None
  end.

Definition starts_with (p s : string) : bool :=
  match strip_prefix p s with Some _ => true | None => false end.

Fixpoint str_rev_app (s acc : string) : string :=
  match s with
  | EmptyString => acc
  | String c s' => str_rev_app s' (String c acc)
  end.
Definition str_rev (s : string) : string := str_rev_app s EmptyString.

Definition strip_suffix (p s : string) : option string :=
  match strip_prefix (str_rev p) (str_rev s) with
  | Some r => Some (str_rev r)
  | None => None
  end.

Definition ends_with (p s : string) : bool :=
  match strip_suffix p s with Some _ => true | None => false end.

(** [str::split_once(c)] *)
Fixpoint split_once (c : ascii) (s : string) : option (string * string) :=
  match s with
  | EmptyString => None
  | String d s' =>
      if Ascii.eqb c d then Some (EmptyString, s')
      else match split_once c s' with
           | Some (l, r) => Some (String d l, r)
           | None => None
           end
  end.

(** [str::split(c).collect()]: never empty. *)
Fixpoint split (c : ascii) (s : string) : list string :=
  match s with
  | EmptyString => [EmptyString]
  | String d s' =>
      if Ascii.eqb c d then EmptyString :: split c s'
      else match split c s' with
           | [] => [String d EmptyString]
           | w :: ws => String d w :: ws
           end
  end.

(** [str::contains(char)] and [str::contains(&str)] *)
Definition contains_char (c : ascii) (s : string) : bool :=
  negb (str_all (λ d, negb (Ascii.eqb c d)) s).

Fixpoint contains (p s : string) : bool :=
  starts_with p s || match s with EmptyString => false | String _ s' => contains p s' end.

(** [str::split_once(&str)] *)
Fixpoint split_once_str (p s : string) : option (string * string) :=
  match strip_prefix p s with
  | Some r => Some (EmptyString, r)
  | None => match s with
            | EmptyString => None
            | String d s' =>
                match split_once_str p s' with
                | Some (l, r) => Some (String d l, r)
                | None => None
                end
            end
  end.

(** [str::split(&str).collect()] for a non-empty pattern *)
Fixpoint split_str_fuel (fuel : nat) (p s : string) : list string :=
  match fuel with
  | O => [s]
  | S n => match split_once_str p s with
           | Some (a, b) => a :: split_str_fuel n p b
           | None => [s]
           end
  end.
Definition split_str (p s : string) : list string := split_str_fuel (S (String.length s)) p s.

(** [s.chars().filter(p).collect()] *)
Fixpoint str_filter (p : ascii → bool) (s : string) : string :=
  match s with
  | EmptyString => EmptyString
  | String c s' => if p c then String c (str_filter p s') else str_filter p s'
  end.

(** [str::replace(p, r)], with fuel [String.length s] for non-empty [p] *)
Fixpoint replace_fuel (fuel : nat) (p r s : string) : string :=
  match fuel with
  | O => s
  | S n => match split_once_str p s with
           | Some (a, b) => a ++ r ++ replace_fuel n p r b
           | None => s
           end
  end%string.
Definition replace (p r s : string) : string := replace_fuel (S (String.length s)) p r s.

Definition str_join (sep : string) (l : list string) : string := String.concat sep l.

(** [str::trim]: the characters of [char::is_whitespace], in UTF-8 *)
Definition ws_chars : list string :=
  map of_bytes ([[9]; [10]; [11]; [12]; [13]; [32]; [194; 133]; [194; 160]; [225; 154; 128];
    [226; 128; 128]; [226; 128; 129]; [226; 128; 130]; [226; 128; 131]; [226; 128; 132];
    [226; 128; 133]; [226; 128; 134]; [226; 128; 135]; [226; 128; 136]; [226; 128; 137];
    [226; 128; 138]; [226; 128; 168]; [226; 128; 169]; [226; 128; 175]; [226; 129; 159];
    [227; 128; 128]])%Z.

(** The rest after the first pattern that is a prefix. *)
Fixpoint strip_any (pats : list string) (s : string) : option string :=
  match pats with
  | [] => None
  | p :: pats' => match strip_prefix p s with Some r => Some r | None => strip_any pats' s end
  end.

Fixpoint trim_fuel (fuel : nat) (pats : list string) (s : string) : string :=
  match fuel with
  | O => s
  | S n => match strip_any pats s with Some r => trim_fuel n pats r | None => s end
  end.

Definition trim_start (s : string) : string := trim_fuel (String.length s) ws_chars s.
Definition trim_end (s : string) : string :=
  str_rev (trim_fuel (String.length s) (map str_rev ws_chars) (str_rev s)).
Definition trim (s : string) : string := trim_end (trim_start s).

Fixpoint trim_start_matches (c : ascii) (s : string) : string :=
  match s with
  | EmptyString => EmptyString
  | String d s' => if Ascii.eqb c d then trim_start_matches c s' else s
  end.
(** [str::trim_end_matches(c)] *)
Definition trim_end_matches (c : ascii) (s : string) : string :=
  str_rev (trim_start_matches c (str_rev s)).

(** ** Numbers in text *)

Definition hex_digit_lower (n : Z) : ascii := if (n <? 10)%Z then chr (48 + n) else chr (87 + n).
Definition hex_digit_upper (n : Z) : ascii := if (n <? 10)%Z then chr (48 + n) else chr (55 + n).

(** [char::to_digit(16)] *)
Definition hex_val (c : ascii) : option Z :=
  if is_digit c then Some (byte_of c - 48)%Z
  else if in_range 97 102 c then Some (byte_of c - 87)%Z
  else if in_range 65 70 c then Some (byte_of c - 55)%Z
  else None.

(** [format!("{:0nx}", z)] for [0 <= z < 16^n] *)
Fixpoint hex_fixed (n : nat) (z : Z) : string :=
  match n with
  | O => EmptyString
  | S n' => (hex_fixed n' (z / 16) ++ String (hex_digit_lower (z mod 16)) EmptyString)%string
  end.

(** [format!("{:02X}", b)] for a byte, [hex::encode], [hex::encode_upper] *)
Definition hex2_upper (b : Z) : string :=
  String (hex_digit_upper (b / 16)) (String (hex_digit_upper (b mod 16)) EmptyString).
Definition hex2_lower (b : Z) : string :=
  String (hex_digit_lower (b / 16)) (String (hex_digit_lower (b mod 16)) EmptyString).
Definition hex_encode_upper (l : list Z) : string := String.concat "" (map hex2_upper l).
Definition hex_encode (l : list Z) : string := String.concat "" (map hex2_lower l).

(** [hex::decode]: odd length or a non-hex digit is an error. *)
Fixpoint hex_decode (s : string) : option (list Z) :=
  match s with
  | EmptyString => Some []
  | String a (String b s') =>
      x ← hex_val a; y ← hex_val b; r ← hex_decode s'; Some ((16 * x + y)%Z :: r)
  | String _ EmptyString => None
  end.

Fixpoint hex_acc (acc : Z) (s : string) : option Z :=
  match s with
  | EmptyString => Some acc
  | String c s' => d ← hex_val c; hex_acc (16 * acc + d)%Z s'
  end.

(** The leading [+] the integer parsers accept. *)
Definition strip_plus (s : string) : string :=
  match s with
  | String c s' => if Ascii.eqb c "+"%char then s' else s
  | EmptyString => s
  end.

(** [uN::from_str_radix(s, 16)] *)
Definition from_str_radix16 (max : Z) (s : string) : option Z :=
  if is_empty (strip_plus s) then None
  else n ← hex_acc 0 (strip_plus s); if (n <=? max)%Z then Some n else None.

Fixpoint dec_acc (acc : Z) (s : string) : option Z :=
  match s with
  | EmptyString => Some acc
  | String c s' => if is_digit c then dec_acc (10 * acc + (byte_of c - 48))%Z s' else None
  end.

(** [s.parse::<uN>()]: an optional [+], at least one digit, no overflow. *)
Definition parse_uint (max : Z) (s : string) : option Z :=
  if is_empty (strip_plus s) then None
  else n ← dec_acc 0 (strip_plus s); if (n <=? max)%Z then Some n else None.

(** [u64::to_string] *)
Definition to_dec (z : Z) : string := pretty (Z.to_N z).

(** ** UTF-8

    [std::str::from_utf8] and [String::from_utf8_lossy] over bytes.  A
    sequence is described by the range of its second byte and the number of
    continuation bytes. *)

Definition cont_range (lead : Z) : option (Z * Z * nat) :=
  (if (lead <? 128) then Some (0, 0, 0%nat)
   else if (194 <=? lead) && (lead <=? 223) then Some (128, 191, 1%nat)
   else if (lead =? 224) then Some (160, 191, 2%nat)
   else if (lead =? 237) then Some (128, 159, 2%nat)
   else if (225 <=? lead) && (lead <=? 239) then Some (128, 191, 2%nat)
   else if (lead =? 240) then Some (144, 191, 3%nat)
   else if (241 <=? lead) && (lead <=? 243) then Some (128, 191, 3%nat)
   else if (lead =? 244) then Some (128, 143, 3%nat)
   else None)%Z.

(** How many leading bytes of [l] continue the sequence: the first one must
    lie in [lo, hi], the others in [128, 191]. *)
Fixpoint cont_take (n : nat) (lo hi : Z) (l : list Z) : nat :=
  match n, l with
  | S n', b :: l' =>
      if ((lo <=? b) && (b <=? hi))%Z then S (cont_take n' 128 191 l') else O
  | _, _ => O
  end.

Definition replacement : list Z := [239; 191; 189]%Z.

Fixpoint utf8_lossy_fuel (fuel : nat) (l : list Z) : list Z :=
  match fuel, l with
  | S f, b :: l' =>
      match cont_range b with
      | None => replacement ++ utf8_lossy_fuel f l'
      | Some (lo, hi, n) =>
          let k := cont_take n lo hi l' in
          if (k =? n)%nat then b :: take n l' ++ utf8_lossy_fuel f (drop n l')
          else replacement ++ utf8_lossy_fuel f (drop k l')
      end
  | _, _ => []
  end.
Definition utf8_lossy (l : list Z) : list Z := utf8_lossy_fuel (length l) l.

Fixpoint utf8_valid_fuel (fuel : nat) (l : list Z) : bool :=
  match fuel, l with
  | S f, b :: l' =>
      match cont_range b with
      | None => false
      | Some (lo, hi, n) =>
          (cont_take n lo hi l' =? n)%nat && utf8_valid_fuel f (drop n l')
      end
  | _, _ => true
  end.
Definition utf8_valid (l : list Z) : bool := utf8_valid_fuel (length l) l.

(** ** Lemmas: characters *)

Ltac each_char c := destruct c as [[] [] [] [] [] [] [] []]; vm_compute; try done.

Lemma byte_of_range c : is_byte (byte_of c).
Proof. each_char c. Qed.

Lemma chr_byte_of c : chr (byte_of c) = c.
Proof. unfold chr, byte_of. rewrite N2Z.id. apply ascii_N_embedding. Qed.

Lemma byte_of_chr b : is_byte b → byte_of (chr b) = b.
Proof.
  intros [H0 H1]. change (2 ^ 8)%Z with 256%Z in H1. unfold byte_of, chr.
  rewrite N_ascii_embedding by lia. lia.
Qed.

Lemma byte_of_inj c d : byte_of c = byte_of d → c = d.
Proof. intros H. by rewrite <- (chr_byte_of c), H, chr_byte_of. Qed.

Lemma lower_upper_c c : to_lower_c (to_upper_c c) = to_lower_c c.
Proof. each_char c. Qed.
Lemma upper_lower_c c : to_upper_c (to_lower_c c) = to_upper_c c.
Proof. each_char c. Qed.
Lemma upper_upper_c c : to_upper_c (to_upper_c c) = to_upper_c c.
Proof. each_char c. Qed.
Lemma lower_lower_c c : to_lower_c (to_lower_c c) = to_lower_c c.
Proof. each_char c. Qed.
Lemma hexdigit_upper_c c : is_hexdigit (to_upper_c c) = is_hexdigit c.
Proof. each_char c. Qed.
Lemma hex_val_upper_c c : hex_val (to_upper_c c) = hex_val c.
Proof. each_char c. Qed.
Lemma hex_val_lower_c c : hex_val (to_lower_c c) = hex_val c.
Proof. each_char c. Qed.
Lemma hex_val_is_hexdigit c : is_hexdigit c = true ↔ is_Some (hex_val c).
Proof. each_char c; split; intros H; try done; solve [eexists; reflexivity | by destruct H]. Qed.
Lemma hex_val_range c v : hex_val c = Some v → (0 <= v < 16)%Z.
Proof. each_char c; intros [= <-]; done. Qed.
Lemma digit_hexdigit c : is_digit c = true → is_hexdigit c = true.
Proof. unfold is_hexdigit. by intros ->. Qed.

(** ** Lemmas: strings *)

Lemma str_length_app s t : String.length (s ++ t)%string = String.length s + String.length t.
Proof. induction s; simpl; auto. Qed.

Lemma str_map_length f s : String.length (str_map f s) = String.length s.
Proof. induction s; simpl; auto. Qed.
Lemma to_upper_length s : String.length (to_upper s) = String.length s.
Proof. apply str_map_length. Qed.
Lemma to_lower_length s : String.length (to_lower s) = String.length s.
Proof. apply str_map_length. Qed.

Lemma str_map_compose f g s : str_map f (str_map g s) = str_map (f ∘ g) s.
Proof. induction s; simpl; congruence. Qed.
Lemma str_map_ext f g s : (∀ c, f c = g c) → str_map f s = str_map g s.
Proof. intros H. induction s; simpl; congruence. Qed.
Lemma str_map_app f s t : str_map f (s ++ t)%string = (str_map f s ++ str_map f t)%string.
Proof. induction s; simpl; [done|]. by rewrite IHs. Qed.

Lemma lower_upper s : to_lower (to_upper s) = to_lower s.
Proof. unfold to_lower, to_upper. rewrite str_map_compose. apply str_map_ext, lower_upper_c. Qed.
Lemma upper_lower s : to_upper (to_lower s) = to_upper s.
Proof. unfold to_lower, to_upper. rewrite str_map_compose. apply str_map_ext, upper_lower_c. Qed.
Lemma upper_upper s : to_upper (to_upper s) = to_upper s.
Proof. unfold to_upper. rewrite str_map_compose. apply str_map_ext, upper_upper_c. Qed.
Lemma lower_lower s : to_lower (to_lower s) = to_lower s.
Proof. unfold to_lower. rewrite str_map_compose. apply str_map_ext, lower_lower_c. Qed.
#[export] Hint Rewrite lower_upper upper_lower upper_upper lower_lower
  to_upper_length to_lower_length : pccs.

Lemma str_all_map p f s : str_all p (str_map f s) = str_all (p ∘ f) s.
Proof. induction s; simpl; congruence. Qed.
Lemma str_all_ext p q s : (∀ c, p c = q c) → str_all p s = str_all q s.
Proof. intros H. induction s; simpl; [done|]. by rewrite H, IHs. Qed.
Lemma str_all_app p s t : str_all p (s ++ t)%string = str_all p s && str_all p t.
Proof. induction s; simpl; [done|]. rewrite IHs. by rewrite andb_assoc. Qed.

Lemma hex_all_upper s : str_all is_hexdigit (to_upper s) = str_all is_hexdigit s.
Proof. unfold to_upper. rewrite str_all_map. apply str_all_ext, hexdigit_upper_c. Qed.

(** [eq_ignore_ascii_case] is equality of the lower-cased strings: an
    equivalence relation, and the equivalence the store's keys respect. *)
Lemma eq_ic_spec s t : eq_ic s t = true ↔ to_lower s = to_lower t.
Proof.
  revert t. induction s as [|c s IH]; intros [|d t]; simpl; try done.
  rewrite andb_true_iff, Ascii.eqb_eq, IH.
  change (to_lower (String c s)) with (String (to_lower_c c) (to_lower s)).
  change (to_lower (String d t)) with (String (to_lower_c d) (to_lower t)).
  split; [intros [-> ->]; done | intros [=]; done].
Qed.

Definition same_text (s t : string) : Prop := to_lower s = to_lower t.

#[export] Instance same_text_equiv : Equivalence same_text.
Proof. split; unfold same_text; red; congruence. Qed.

#[export] Instance eq_ic_proper : Proper (same_text ==> same_text ==> eq) eq_ic.
Proof.
  intros s s' Hs t t' Ht. unfold same_text in *. apply eq_true_iff_eq.
  rewrite !eq_ic_spec. by rewrite Hs, Ht.
Qed.

#[export] Instance to_upper_proper : Proper (same_text ==> eq) to_upper.
Proof. intros s t H. rewrite <- (upper_lower s), <- (upper_lower t). by rewrite H. Qed.

Lemma eq_ic_refl s : eq_ic s s = true.
Proof. by apply eq_ic_spec. Qed.
Lemma eq_ic_sym s t : eq_ic s t = eq_ic t s.
Proof. apply eq_true_iff_eq. rewrite !eq_ic_spec. split; congruence. Qed.
Lemma eq_ic_trans s t u : eq_ic s t = true → eq_ic t u = true → eq_ic s u = true.
Proof. rewrite !eq_ic_spec. congruence. Qed.
Lemma eq_ic_upper_l s t : eq_ic (to_upper s) t = eq_ic s t.
Proof. apply eq_true_iff_eq. rewrite !eq_ic_spec. by rewrite lower_upper. Qed.
Lemma eq_ic_upper_r s t : eq_ic s (to_upper t) = eq_ic s t.
Proof. apply eq_true_iff_eq. rewrite !eq_ic_spec. by rewrite lower_upper. Qed.
#[export] Hint Rewrite eq_ic_refl eq_ic_upper_l eq_ic_upper_r : pccs.
#[export] Hint Resolve eq_ic_refl : pccs.

Lemma strip_prefix_spec p s r : strip_prefix p s = Some r ↔ s = (p ++ r)%string.
Proof.
  revert s. induction p as [|c p IH]; intros s; simpl.
  - split; [by intros [= ->] | by intros ->].
  - destruct s as [|d s]; [done|]. destruct (Ascii.eqb_spec c d) as [->|Hne].
    + rewrite IH. split; [by intros -> | by intros [= ->]].
    + split; [done|]. by intros [= ->].
Qed.

Lemma starts_with_spec p s : starts_with p s = true ↔ ∃ r, s = (p ++ r)%string.
Proof.
  unfold starts_with. destruct (strip_prefix p s) as [r|] eqn:H.
  - split; [|done]. intros _. exists r. by apply strip_prefix_spec.
  - split; [done|]. intros [r Hr]. apply strip_prefix_spec in Hr. congruence.
Qed.

Lemma str_app_assoc s t u : (s ++ (t ++ u))%string = ((s ++ t) ++ u)%string.
Proof. induction s; simpl; congruence. Qed.

Lemma str_app_inj_l p s t : (p ++ s)%string = (p ++ t)%string → s = t.
Proof. induction p; simpl; [done|]. intros [=]; auto. Qed.

Lemma str_app_nil_r s : (s ++ "")%string = s.
Proof. induction s; simpl; congruence. Qed.

Lemma str_app_inj s s' t t' :
  String.length s = String.length s' →
  (s ++ t)%string = (s' ++ t')%string → s = s' ∧ t = t'.
Proof.
  revert s'. induction s as [|c s IH]; intros [|d s'] Hl H; simpl in *; try lia; [done|].
  injection H as -> H. injection Hl as Hl. by destruct (IH _ Hl H) as [-> ->].
Qed.

Lemma str_rev_app_spec s acc : str_rev_app s acc = (str_rev s ++ acc)%string.
Proof.
  unfold str_rev. revert acc. induction s as [|c s IH]; intros acc; simpl; [done|].
  rewrite IH, (IH (String c "")). by rewrite <- str_app_assoc.
Qed.

Lemma str_rev_cons c s : str_rev (String c s) = (str_rev s ++ String c "")%string.
Proof. unfold str_rev. simpl. by rewrite str_rev_app_spec. Qed.

Lemma str_rev_append s t : str_rev (s ++ t)%string = (str_rev t ++ str_rev s)%string.
Proof.
  induction s as [|c s IH]; simpl; [by rewrite str_app_nil_r|].
  rewrite !str_rev_cons, IH. by rewrite <- str_app_assoc.
Qed.

Lemma str_rev_involutive s : str_rev (str_rev s) = s.
Proof.
  induction s as [|c s IH]; [done|]. rewrite str_rev_cons, str_rev_append, IH. done.
Qed.

Lemma strip_suffix_spec p s r : strip_suffix p s = Some r ↔ s = (r ++ p)%string.
Proof.
  unfold strip_suffix. destruct (strip_prefix (str_rev p) (str_rev s)) as [q|] eqn:H.
  - apply strip_prefix_spec in H. apply (f_equal str_rev) in H.
    rewrite str_rev_append, !str_rev_involutive in H. split.
    + by intros [= <-].
    + intros ->. f_equal. apply (f_equal str_rev) in H.
      rewrite !str_rev_append, str_rev_involutive in H. apply str_app_inj_l in H.
      by rewrite <- H, str_rev_involutive.
  - split; [done|]. intros ->. rewrite str_rev_append in H.
    assert (strip_prefix (str_rev p) (str_rev p ++ str_rev r) = Some (str_rev r))
      by (by apply strip_prefix_spec). congruence.
Qed.

Lemma split_once_spec c s l r :
  split_once c s = Some (l, r) ↔
  s = (l ++ String c r)%string ∧ contains_char c l = false.
Proof.
  unfold contains_char. revert l. induction s as [|d s IH]; intros l; simpl.
  - split; [done|]. intros [H _]. by destruct l.
  - destruct (Ascii.eqb_spec c d) as [->|Hne].
    + split; [by intros [= <- <-]|].
      destruct l as [|e l]; simpl; [by intros [[= ->] _]|].
      intros [[= <- ->] H]. rewrite Ascii.eqb_refl in H. done.
    + destruct (split_once c s) as [[l' r']|] eqn:Hs.
      * split.
        -- intros [= <- <-]. destruct (proj1 (IH l') eq_refl) as [-> Hl]. split; [done|].
           simpl. destruct (Ascii.eqb_spec c d); [done|]. simpl. done.
        -- destruct l as [|e l]; simpl; [intros [[= -> ->] _]; done|].
           intros [[= <- ->] H]. destruct (Ascii.eqb_spec c d); [done|]. simpl in H.
           assert (Some (l', r') = Some (l, r)) as [= -> ->]; [|done].
           by apply IH.
      * split; [done|]. destruct l as [|e l]; simpl; [intros [[= -> ->] _]; done|].
        intros [[= <- ->] H]. destruct (Ascii.eqb_spec c d); [done|]. simpl in H.
        assert (None = Some (l, r)); [|done]. by apply IH.
Qed.

Lemma split_not_nil c s : split c s ≠ [].
Proof. destruct s as [|d s]; simpl; [done|]. by repeat case_match. Qed.

Lemma split_join c s : str_join (String c "") (split c s) = s.
Proof.
  induction s as [|d s IH]; [done|]. pose proof (split_not_nil c s) as Hnil. simpl.
  destruct (Ascii.eqb_spec c d) as [->|Hne].
  - destruct (split d s) as [|w ws]; [done|]. unfold str_join in *. simpl in *. by rewrite IH.
  - destruct (split c s) as [|w [|w' ws]]; [done| |];
      unfold str_join in *; simpl in *; by rewrite IH.
Qed.

Lemma bytes_app s t : bytes (s ++ t)%string = bytes s ++ bytes t.
Proof. induction s; simpl; congruence. Qed.
Lemma bytes_length s : length (bytes s) = String.length s.
Proof. induction s; simpl; auto. Qed.
Lemma of_bytes_bytes s : of_bytes (bytes s) = s.
Proof. induction s; simpl; [done|]. by rewrite chr_byte_of, IHs. Qed.
Lemma bytes_of_bytes l : Forall is_byte l → bytes (of_bytes l) = l.
Proof. induction 1; simpl; [done|]. by rewrite byte_of_chr, IHForall. Qed.
Lemma bytes_range s : Forall is_byte (bytes s).
Proof. induction s; simpl; constructor; auto using byte_of_range. Qed.
Lemma of_bytes_length l : String.length (of_bytes l) = length l.
Proof. induction l; simpl; auto. Qed.
#[export] Hint Resolve bytes_range byte_of_range : pccs.

(** ** Lemmas: hexadecimal text *)

Lemma hex_fixed_length n z : String.length (hex_fixed n z) = n.
Proof. revert z. induction n; intros z; simpl; [done|]. rewrite str_length_app, IHn. simpl. lia. Qed.

Lemma nibble_cases (P : Z → Prop) n :
  (0 <= n < 16)%Z → Forall P [0;1;2;3;4;5;6;7;8;9;10;11;12;13;14;15]%Z → P n.
Proof.
  intros Hn HP. rewrite Forall_forall in HP. apply HP.
  assert (n = 0 ∨ n = 1 ∨ n = 2 ∨ n = 3 ∨ n = 4 ∨ n = 5 ∨ n = 6 ∨ n = 7 ∨ n = 8 ∨ n = 9
    ∨ n = 10 ∨ n = 11 ∨ n = 12 ∨ n = 13 ∨ n = 14 ∨ n = 15)%Z as H by lia.
  rewrite !elem_of_cons. intuition.
Qed.

Lemma hex_digit_lower_val n :
  (0 <= n < 16)%Z → hex_val (hex_digit_lower n) = Some n ∧
  to_lower_c (hex_digit_lower n) = hex_digit_lower n ∧
  is_hexdigit (hex_digit_lower n) = true.
Proof. intros Hn. pattern n. apply nibble_cases; [done|]. by repeat constructor. Qed.

Lemma hex_digit_upper_val n :
  (0 <= n < 16)%Z → hex_val (hex_digit_upper n) = Some n ∧
  to_upper_c (hex_digit_upper n) = hex_digit_upper n ∧
  is_hexdigit (hex_digit_upper n) = true.
Proof. intros Hn. pattern n. apply nibble_cases; [done|]. by repeat constructor. Qed.

Lemma hex_fixed_lower n z : to_lower (hex_fixed n z) = hex_fixed n z.
Proof.
  revert z. induction n as [|n IH]; intros z; [done|]. simpl.
  unfold to_lower in *. rewrite str_map_app, IH. simpl.
  by destruct (hex_digit_lower_val (z mod 16)) as (_ & -> & _); [apply Z.mod_pos_bound|].
Qed.

Lemma hex_fixed_hexdigits n z : str_all is_hexdigit (hex_fixed n z) = true.
Proof.
  revert z. induction n as [|n IH]; intros z; [done|]. simpl.
  rewrite str_all_app, IH. simpl.
  by destruct (hex_digit_lower_val (z mod 16)) as (_ & _ & ->); [apply Z.mod_pos_bound|].
Qed.

Lemma hex_fixed_inj n z z' :
  (0 <= z < 16 ^ Z.of_nat n)%Z → (0 <= z' < 16 ^ Z.of_nat n)%Z →
  hex_fixed n z = hex_fixed n z' → z = z'.
Proof.
  revert z z'. induction n as [|n IH]; intros z z' Hz Hz' H.
  { change (16 ^ Z.of_nat 0)%Z with 1%Z in *. lia. }
  rewrite Nat2Z.inj_succ, Z.pow_succ_r in * by lia. simpl in H.
  apply str_app_inj in H as [Hd Hm]; [|by rewrite !hex_fixed_length].
  injection Hm as Hm. apply (f_equal hex_val) in Hm.
  destruct (hex_digit_lower_val (z mod 16)) as (E1 & _); [by apply Z.mod_pos_bound|].
  destruct (hex_digit_lower_val (z' mod 16)) as (E2 & _); [by apply Z.mod_pos_bound|].
  rewrite E1, E2 in Hm. injection Hm as Hm.
  apply IH in Hd; [|Z.to_euclidean_division_equations; lia..].
  rewrite (Z.div_mod z 16), (Z.div_mod z' 16) by lia. congruence.
Qed.

Lemma concat_nil_cons s l : String.concat "" (s :: l) = (s ++ String.concat "" l)%string.
Proof. destruct l; simpl; [by rewrite str_app_nil_r|done]. Qed.

Lemma hex_encode_upper_cons b l :
  hex_encode_upper (b :: l) = (hex2_upper b ++ hex_encode_upper l)%string.
Proof. unfold hex_encode_upper. simpl map. apply concat_nil_cons. Qed.

Lemma hex_encode_cons b l : hex_encode (b :: l) = (hex2_lower b ++ hex_encode l)%string.
Proof. unfold hex_encode. simpl map. apply concat_nil_cons. Qed.

Lemma nibbles b : is_byte b → (0 <= b / 16 < 16)%Z ∧ (0 <= b mod 16 < 16)%Z.
Proof.
  intros [H0 H1]. change (2 ^ 8)%Z with 256%Z in H1.
  Z.to_euclidean_division_equations; lia.
Qed.

Lemma hex_decode_encode_upper l :
  Forall is_byte l → hex_decode (hex_encode_upper l) = Some l.
Proof.
  induction 1 as [|b l Hb _ IH]; [done|].
  rewrite hex_encode_upper_cons. unfold hex2_upper. simpl.
  destruct (nibbles b Hb) as [H1 H2].
  destruct (hex_digit_upper_val _ H1) as [-> _], (hex_digit_upper_val _ H2) as [-> _].
  simpl. rewrite IH. simpl. do 2 f_equal. rewrite (Z.div_mod b 16) at 3 by lia. lia.
Qed.

Lemma hex_decode_encode l : Forall is_byte l → hex_decode (hex_encode l) = Some l.
Proof.
  induction 1 as [|b l Hb _ IH]; [done|].
  rewrite hex_encode_cons. unfold hex2_lower. simpl.
  destruct (nibbles b Hb) as [H1 H2].
  destruct (hex_digit_lower_val _ H1) as [-> _], (hex_digit_lower_val _ H2) as [-> _].
  simpl. rewrite IH. simpl. do 2 f_equal. rewrite (Z.div_mod b 16) at 3 by lia. lia.
Qed.

Lemma hex_encode_upper_length l : String.length (hex_encode_upper l) = 2 * length l.
Proof. induction l; [done|]. rewrite hex_encode_upper_cons. simpl. lia. Qed.

Lemma hex_encode_upper_app l m :
  hex_encode_upper (l ++ m) = (hex_encode_upper l ++ hex_encode_upper m)%string.
Proof.
  induction l as [|b l IH]; [done|]. cbn [app]. rewrite !hex_encode_upper_cons, IH.
  apply str_app_assoc.
Qed.

Lemma hex_encode_upper_hexdigits l :
  Forall is_byte l → str_all is_hexdigit (hex_encode_upper l) = true.
Proof.
  induction 1 as [|b l Hb _ IH]; [done|]. rewrite hex_encode_upper_cons, str_all_app, IH.
  destruct (nibbles b Hb) as [H1 H2]. simpl.
  by destruct (hex_digit_upper_val _ H1) as (_ & _ & ->), (hex_digit_upper_val _ H2) as (_ & _ & ->).
Qed.

Lemma hex_encode_upper_upper l :
  Forall is_byte l → to_upper (hex_encode_upper l) = hex_encode_upper l.
Proof.
  unfold to_upper. induction 1 as [|b l Hb _ IH]; [done|].
  rewrite hex_encode_upper_cons, str_map_app, IH.
  destruct (nibbles b Hb) as [H1 H2]. unfold hex2_upper. simpl.
  by destruct (hex_digit_upper_val _ H1) as (_ & -> & _), (hex_digit_upper_val _ H2) as (_ & -> & _).
Qed.

(** Reading a byte pair by pair. *)
Lemma hex_acc_byte acc b s :
  is_byte b → hex_acc acc (hex2_upper b ++ s)%string = hex_acc (256 * acc + b)%Z s.
Proof.
  intros Hb. destruct (nibbles b Hb) as [H1 H2]. unfold hex2_upper. simpl.
  destruct (hex_digit_upper_val _ H1) as [-> _], (hex_digit_upper_val _ H2) as [-> _]. simpl.
  f_equal. rewrite (Z.div_mod b 16) at 3 by lia. lia.
Qed.

Lemma strip_plus_hex s : str_all is_hexdigit s = true → strip_plus s = s.
Proof.
  destruct s as [|c s]; [done|]. simpl. intros [Hc _]%andb_true_iff.
  destruct (Ascii.eqb c "+") eqn:E; [|done]. apply Ascii.eqb_eq in E. by subst.
Qed.

(** ** Lemmas: UTF-8 *)

Lemma utf8_lossy_valid_fuel f l :
  length l <= f → utf8_valid_fuel f l = true → utf8_lossy_fuel f l = l.
Proof.
  revert l. induction f as [|f IH]; intros [|b l] Hl H; simpl in *; try done; try lia.
  destruct (cont_range b) as [[[lo hi] n]|]; [|done].
  apply andb_true_iff in H as [Hk Hv]. rewrite Hk.
  rewrite IH; [by rewrite take_drop| |done]. rewrite length_drop. lia.
Qed.

(** [from_utf8_lossy] is the identity on valid UTF-8. *)
Lemma utf8_lossy_valid l : utf8_valid l = true → utf8_lossy l = l.
Proof. by apply utf8_lossy_valid_fuel. Qed.

Lemma ascii_utf8_valid l : Forall (λ b, 0 <= b < 128)%Z l → utf8_valid l = true.
Proof.
  unfold utf8_valid. induction 1 as [|b l Hb _ IH]; [done|]. simpl.
  unfold cont_range. destruct (Z.ltb_spec b 128); [|lia]. simpl. by rewrite drop_0.
Qed.
