(* ===== verification/Errors.v ===== *)
(** * Errors: PCCS status codes and the error type (src/src/error.rs)

    Every handler of the service answers with one of these constants; the
    HTTP status and the message are what the client sees.  [PccsJson] and
    [PccsBytes], the body extractors, are modelled by the outcome of the
    receive step they wrap. *)

From stdpp Require Import base strings.
From Stdlib Require Import ZArith.
From S2P Require Import Prelude Text.

Local Open Scope Z_scope.

Record PccsError := { status : Z; message : string }.

#[export] Instance PccsError_eq_dec : EqDecision PccsError.
Proof. solve_decision. Defined.

(** [PccsError::new] *)
Definition new_error (status : Z) (message : string) : PccsError :=
  {| status := status; message := message |}.

(** The result type of the service. *)
Abbreviation res := (result PccsError).

Definition SUCCESS : Z * string := (200, "Operation successful.").
Definition INVALID_REQ : PccsError := new_error 400 "Invalid request parameters.".
Definition UNAUTHORIZED : PccsError := new_error 401 "Authentication failed.".
Definition NO_CACHE_DATA : PccsError := new_error 404 "No cache data for this platform.".
Definition CONTENT_TOO_LARGE : PccsError := new_error 413 "Content too large.".
Definition REQUEST_TIMEOUT : PccsError := new_error 408 "Request Timeout".
Definition integrity_error : PccsError :=
  new_error 460 "The integrity of the data can't be verified.".
Definition platform_unknown : PccsError :=
  new_error 461 "The platform was not found in the cache.".
Definition certs_unavailable : PccsError :=
  new_error 462 "Certificates are not available for certain TCBs.".
Definition PCS_V3_REACHED_EOL : PccsError :=
  new_error 410 "The Intel PCS API version 3 reached planned EOL. Accordingly, collateral from this API version cannot be retrieved any longer.".
Definition INTERNAL_ERROR : PccsError := new_error 500 "Internal server error occurred.".
Definition SERVICE_UNAVAILABLE : PccsError :=
  new_error 503 "Server is currently unable to process the request.".
Definition PCS_ACCESS_FAILURE : PccsError :=
  new_error 502 "Unable to retrieve the collateral from the Intel SGX PCS.".
Definition AMD_KDS_ACCESS_FAILURE : PccsError :=
  new_error 502 "Unable to retrieve the collateral from the AMD KDS.".
Definition NVIDIA_RIM_ACCESS_FAILURE : PccsError :=
  new_error 502 "Unable to retrieve the collateral from the NVIDIA RIM service.".
Definition NVIDIA_NRAS_ACCESS_FAILURE : PccsError :=
  new_error 502 "Unable to retrieve the attestation result from the NVIDIA NRAS.".
Definition NVIDIA_OCSP_ACCESS_FAILURE : PccsError :=
  new_error 502 "Unable to retrieve the OCSP response from the NVIDIA OCSP service.".

(** What reading and decoding a request body can end in: axum's extractor
    yields a value or a rejection carrying a status, unless the read budget
    of [RequestTimeoutSeconds] runs out first. *)
Inductive body_read (A : Type) : Type :=
| ReadTimedOut
| ReadRejected (rejection_status : Z)
| ReadOk (value : A).
Arguments ReadTimedOut {A}.
Arguments ReadRejected {A} _.
Arguments ReadOk {A} _.

(** [PccsJson::from_request] *)
Definition pccs_json {A} (read : body_read A) : res A :=
  match read with
  | ReadTimedOut => Err REQUEST_TIMEOUT
  | ReadOk value => Ok value
  | ReadRejected st =>
      if st =? 413 then Err CONTENT_TOO_LARGE else Err INVALID_REQ
  end.

(** [PccsBytes::from_request] *)
Definition pccs_bytes (read : body_read string) : res string :=
  match read with
  | ReadTimedOut => Err REQUEST_TIMEOUT
  | ReadOk body => Ok body
  | ReadRejected st =>
      if st =? 413 then Err CONTENT_TOO_LARGE else Err INVALID_REQ
  end.
