(* ===== verification/City.v ===== *)
(** * City: the CityHash128 digest of the store keys (src/src/hash/city.rs)

    [u64] words are [Z] with their wrap-around written out; a slice or an
    array conversion that would panic is [None].  The loops take fuel, and
    [city_hash_128_total] shows that neither a panic nor the end of the
    fuel is ever reached. *)

From stdpp Require Import base list option.
From Stdlib Require Import ZArith Lia.
From S2P Require Import Prelude Text.

Local Open Scope Z_scope.

Definition K0 : Z := 0xc3a5c85c97cb3127.
Definition K1 : Z := 0xb492b66fbe98f273.
Definition K2 : Z := 0x9ae16a3b2f90404f.
Definition K_MUL : Z := 0x9ddfea08eb382d69.

(** [wrapping_mul], [wrapping_add], [<<], [>>], [rotate_right] on [u64] *)
Definition wmul (a b : Z) : Z := wrap 64 (a * b).
Definition wadd (a b : Z) : Z := wrap 64 (a + b).
Definition shl (a n : Z) : Z := wrap 64 (Z.shiftl a n).
Definition rotr (a n : Z) : Z := Z.lor (Z.shiftr a n) (wrap 64 (Z.shiftl a (64 - n))).

(** [&s[i..]] *)
Definition slice_from (s : list Z) (i : nat) : option (list Z) :=
  if (i <=? length s)%nat then Some (drop i s) else None.

(** [uN::from_le_bytes] *)
Fixpoint le_bytes (l : list Z) : Z :=
  match l with
  | [] => 0
  | b :: l' => b + 256 * le_bytes l'
  end.

Definition fetch64 (s : list Z) : option Z :=
  if (8 <=? length s)%nat then Some (le_bytes (take 8 s)) else None.

Definition fetch32 (s : list Z) : option Z :=
  if (4 <=? length s)%nat then Some (le_bytes (take 4 s)) else None.

(** [fetch64(&s[i..])] *)
Definition fetch64_at (s : list Z) (i : nat) : option Z := slice_from s i ≫= fetch64.

Definition shift_mix (val : Z) : Z := Z.lxor val (Z.shiftr val 47).

Definition hash_len16_mul (u v mul : Z) : Z :=
  let a := wmul (Z.lxor u v) mul in
  let a := Z.lxor a (Z.shiftr a 47) in
  let b := wmul (Z.lxor v a) mul in
  let b := Z.lxor b (Z.shiftr b 47) in
  wmul b mul.

Definition hash_len16 (u v : Z) : Z :=
  let a := wmul (Z.lxor u v) K_MUL in
  let a := Z.lxor a (Z.shiftr a 47) in
  let b := wmul (Z.lxor v a) K_MUL in
  let b := Z.lxor b (Z.shiftr b 47) in
  wmul b K_MUL.

Definition hash_len0to16 (s : list Z) : option Z :=
  let len := Z.of_nat (length s) in
  if (8 <=? length s)%nat then
    let mul := wadd K2 (wmul len 2) in
    a0 ← fetch64 s;
    let a := wadd a0 K2 in
    b ← fetch64_at s (length s - 8);
    let c := wadd (wmul (rotr b 37) mul) a in
    let d := wmul (wadd (rotr a 25) b) mul in
    Some (hash_len16_mul c d mul)
  else if (4 <=? length s)%nat then
    let mul := wadd K2 (wmul len 2) in
    a ← fetch32 s;
    b ← slice_from s (length s - 4) ≫= fetch32;
    Some (hash_len16_mul (wadd len (shl a 3)) b mul)
  else if negb (length s =? 0)%nat then
    a ← s !! 0%nat;
    b ← s !! (length s / 2)%nat;
    c ← s !! (length s - 1)%nat;
    let y := wrap 32 (a + wrap 32 (Z.shiftl b 8)) in
    let z := wrap 32 (wrap 32 len + wrap 32 (Z.shiftl c 2)) in
    Some (wmul (shift_mix (Z.lxor (wmul y K2) (wmul z K0))) K2)
  else Some K2.

Definition weak_hash_len32_with_seeds (w x y z a b : Z) : Z * Z :=
  let a := wadd a w in
  let b := rotr (wadd (wadd b a) z) 21 in
  let c := a in
  let a := wadd (wadd a x) y in
  let b := wadd b (rotr a 44) in
  (wadd a z, wadd b c).

Definition weak_hash32 (s : list Z) (a b : Z) : option (Z * Z) :=
  w ← fetch64 s;
  x ← fetch64_at s 8;
  y ← fetch64_at s 16;
  z ← fetch64_at s 24;
  Some (weak_hash_len32_with_seeds w x y z a b).

(** [((high as u128) << 64) | (low as u128)] *)
Definition pack (low high : Z) : Z := Z.lor (Z.shiftl high 64) low.

(** The [while remaining > 16] loop of [city_murmur]. *)
Fixpoint murmur_loop (fuel : nat) (s : list Z) (i remaining : nat) (a b c d : Z)
    : option (Z * Z * Z * Z) :=
  match fuel with
  | O => None
  | S fuel' =>
      if (16 <? remaining)%nat then
        u ← fetch64_at s i;
        let a := Z.lxor a (wmul (shift_mix (wmul u K1)) K1) in
        let a := wmul a K1 in
        let b := Z.lxor b a in
        v ← fetch64_at s (i + 8);
        let c := Z.lxor c (wmul (shift_mix (wmul v K1)) K1) in
        let c := wmul c K1 in
        let d := Z.lxor d c in
        murmur_loop fuel' s (i + 16) (remaining - 16) a b c d
      else Some (a, b, c, d)
  end.

Definition city_murmur (s : list Z) (seed_low seed_high : Z) : option Z :=
  let a := seed_low in
  let b := seed_high in
  r ← (if (length s <=? 16)%nat then
         let a := wmul (shift_mix (wmul a K1)) K1 in
         h ← hash_len0to16 s;
         let c := wadd (wmul b K1) h in
         e ← (if (8 <=? length s)%nat then fetch64 s else Some c);
         let d := shift_mix (wadd a e) in
         Some (a, b, c, d)
       else
         u ← fetch64_at s (length s - 8);
         let c := hash_len16 (wadd u K1) a in
         v ← fetch64_at s (length s - 16);
         let d := hash_len16 (wadd b (Z.of_nat (length s))) (wadd c v) in
         let a := wadd a d in
         murmur_loop (S (length s)) s 0 (length s) a b c d);
  let '(a, b, c, d) := r in
  let a := hash_len16 a c in
  let b := hash_len16 d b in
  Some (pack (Z.lxor a b) (hash_len16 b a)).

(** The loop state of [city_hash128_with_seed]. *)
Record city_state := {
  st_x : Z; st_y : Z; st_z : Z;
  st_v0 : Z; st_v1 : Z; st_w0 : Z; st_w1 : Z
}.

(** One of the two 64-byte rounds of the main loop; the final
    [core::mem::swap(&mut z, &mut x)] is in the record. *)
Definition city_round (s : list Z) (st : city_state) : option city_state :=
  f8 ← fetch64_at s 8;
  let x := wmul (rotr (wadd (wadd (wadd (st_x st) (st_y st)) (st_v0 st)) f8) 37) K1 in
  f48 ← fetch64_at s 48;
  let y := wmul (rotr (wadd (wadd (st_y st) (st_v1 st)) f48) 42) K1 in
  let x := Z.lxor x (st_w1 st) in
  f40 ← fetch64_at s 40;
  let y := wadd (wadd y (st_v0 st)) f40 in
  let z := wmul (rotr (wadd (st_z st) (st_w0 st)) 33) K1 in
  v ← weak_hash32 s (wmul (st_v1 st) K1) (wadd x (st_w0 st));
  s32 ← slice_from s 32;
  f16 ← fetch64_at s 16;
  w ← weak_hash32 s32 (wadd z (st_w1 st)) (wadd y f16);
  Some {| st_x := z; st_y := y; st_z := x;
          st_v0 := fst v; st_v1 := snd v; st_w0 := fst w; st_w1 := snd w |}.

(** [while remaining >= 128] *)
Fixpoint city_loop (fuel : nat) (s : list Z) (remaining : nat) (st : city_state)
    : option (city_state * nat) :=
  match fuel with
  | O => None
  | S fuel' =>
      if (128 <=? remaining)%nat then
        st1 ← city_round s st;
        s1 ← slice_from s 64;
        st2 ← city_round s1 st1;
        s2 ← slice_from s1 64;
        city_loop fuel' s2 (remaining - 128) st2
      else Some (st, remaining)
  end.

(** [while tail_done < remaining] *)
Fixpoint tail_loop (fuel : nat) (orig : list Z) (tail_done remaining : nat)
    (st : city_state) : option city_state :=
  match fuel with
  | O => None
  | S fuel' =>
      if (tail_done <? remaining)%nat then
        let tail_done := (tail_done + 32)%nat in
        let y := wadd (wmul (rotr (wadd (st_x st) (st_y st)) 42) K0) (st_v1 st) in
        (* [orig.len() - tail_done] is a [usize] subtraction *)
        if (length orig <? tail_done)%nat then None else
        let base := (length orig - tail_done)%nat in
        f16 ← fetch64_at orig (base + 16);
        let w0 := wadd (st_w0 st) f16 in
        let x := wadd (wmul (st_x st) K0) w0 in
        f0 ← fetch64_at orig base;
        let z := wadd (wadd (st_z st) (st_w1 st)) f0 in
        let w1 := wadd (st_w1 st) (st_v0 st) in
        sb ← slice_from orig base;
        v ← weak_hash32 sb (wadd (st_v0 st) z) (st_v1 st);
        tail_loop fuel' orig tail_done remaining
          {| st_x := x; st_y := y; st_z := z;
             st_v0 := wmul (fst v) K0; st_v1 := snd v; st_w0 := w0; st_w1 := w1 |}
      else Some st
  end.

Definition city_hash128_with_seed (s : list Z) (seed_low seed_high : Z) : option Z :=
  if (length s <? 128)%nat then city_murmur s seed_low seed_high
  else
    let x := seed_low in
    let y := seed_high in
    let z := wmul (Z.of_nat (length s)) K1 in
    f0 ← fetch64 s;
    let v0 := wadd (wmul (rotr (Z.lxor y K1) 49) K1) f0 in
    f8 ← fetch64_at s 8;
    let v1 := wadd (wmul (rotr v0 42) K1) f8 in
    let w0 := wadd (wmul (rotr (wadd y z) 35) K1) x in
    f88 ← fetch64_at s 88;
    let w1 := wmul (rotr (wadd x f88) 53) K1 in
    r ← city_loop (S (length s)) s (length s)
          {| st_x := x; st_y := y; st_z := z;
             st_v0 := v0; st_v1 := v1; st_w0 := w0; st_w1 := w1 |};
    let '(st, remaining) := r in
    let x := wadd (st_x st) (wmul (rotr (wadd (st_v0 st) (st_z st)) 49) K0) in
    let y := wadd (wmul (st_y st) K0) (rotr (st_w1 st) 37) in
    let z := wadd (wmul (st_z st) K0) (rotr (st_w0 st) 27) in
    st' ← tail_loop (S remaining) s 0 remaining
            {| st_x := x; st_y := y; st_z := z;
               st_v0 := wmul (st_v0 st) K0; st_v1 := st_v1 st;
               st_w0 := wmul (st_w0 st) 9; st_w1 := st_w1 st |};
    let x := hash_len16 (st_x st') (st_v0 st') in
    let y := hash_len16 (wadd (st_y st') (st_z st')) (st_w0 st') in
    Some (pack (wadd (hash_len16 (wadd x (st_v1 st')) (st_w1 st')) y)
               (hash_len16 (wadd x (st_w1 st')) (wadd y (st_v1 st')))).

Definition city_hash_128 (data : list Z) : option Z :=
  if (16 <=? length data)%nat then
    s ← slice_from data 16;
    lo ← fetch64 data;
    hi ← fetch64_at data 8;
    city_hash128_with_seed s lo (wadd hi K0)
  else city_hash128_with_seed data K0 K1.

(** [hash::hash128] and [hash::hash128_hex].  The default is never used:
    see [hash128_spec]. *)
Definition hash128 (data : list Z) : Z := default 0 (city_hash_128 data).
Definition hash128_hex (data : list Z) : string := hex_fixed 32 (hash128 data).

(** ** Bounds *)

Abbreviation u64 := (in_width 64).

Lemma u64_K0 : u64 K0. Proof. split; vm_compute; congruence. Qed.
Lemma u64_K1 : u64 K1. Proof. split; vm_compute; congruence. Qed.
Lemma u64_K2 : u64 K2. Proof. split; vm_compute; congruence. Qed.

Lemma wmul_u64 a b : u64 (wmul a b).
Proof. by apply wrap_range. Qed.
Lemma wadd_u64 a b : u64 (wadd a b).
Proof. by apply wrap_range. Qed.
Lemma rotr_u64 a n : 0 <= n → u64 a → u64 (rotr a n).
Proof. intros. apply lor_width; [done|by apply shiftr_width|by apply wrap_range]. Qed.

Lemma le_bytes_width l :
  Forall is_byte l → in_width (8 * Z.of_nat (length l)) (le_bytes l).
Proof.
  induction 1 as [|b l [H0 H1] _ IH]; [done|]. simpl le_bytes.
  unfold in_width in *. change (2 ^ 8) with 256 in H1.
  replace (8 * Z.of_nat (length (b :: l))) with (8 + 8 * Z.of_nat (length l))
    by (simpl length; lia).
  rewrite Z.pow_add_r by lia. change (2 ^ 8) with 256. lia.
Qed.

Lemma shift_mix_u64 a : u64 a → u64 (shift_mix a).
Proof. intros. apply lxor_width; [done|done|]. by apply shiftr_width. Qed.

Lemma hash_len16_mul_u64 u v m : u64 (hash_len16_mul u v m).
Proof. apply wmul_u64. Qed.
Lemma hash_len16_u64 u v : u64 (hash_len16 u v).
Proof. apply wmul_u64. Qed.

Lemma pack_u128 low high : u64 low → u64 high → in_width 128 (pack low high).
Proof.
  intros Hl Hh. unfold pack. apply lor_width; [done| |].
  - destruct Hh as [H0 H1]. rewrite Z.shiftl_mul_pow2 by done.
    change (2 ^ 64) with 18446744073709551616 in *.
    unfold in_width. change (2 ^ 128) with 340282366920938463463374607431768211456. lia.
  - destruct Hl as [H0 H1]. unfold in_width. change (2 ^ 64) with 18446744073709551616 in H1.
    change (2 ^ 128) with 340282366920938463463374607431768211456. lia.
Qed.

#[export] Hint Resolve wmul_u64 wadd_u64 rotr_u64 shift_mix_u64 hash_len16_u64
  hash_len16_mul_u64 u64_K0 u64_K1 u64_K2 : pccs.
#[export] Hint Extern 1 (0 <= _) => lia : pccs.

(** ** Totality of the reads *)

Lemma fetch64_total s : (8 <= length s)%nat → Forall is_byte s → ∃ z, fetch64 s = Some z ∧ u64 z.
Proof.
  intros Hl Hb. unfold fetch64. rewrite (proj2 (Nat.leb_le _ _)) by done.
  eexists; split; [done|].
  pose proof (le_bytes_width (take 8 s) (Forall_take _ _ _ Hb)) as H.
  rewrite length_take_le in H by done. done.
Qed.

Lemma fetch32_total s : (4 <= length s)%nat → ∃ z, fetch32 s = Some z.
Proof. intros Hl. unfold fetch32. rewrite (proj2 (Nat.leb_le _ _)) by done. eauto. Qed.

Lemma slice_from_total s i : (i <= length s)%nat → slice_from s i = Some (drop i s).
Proof. intros. unfold slice_from. by rewrite (proj2 (Nat.leb_le _ _)). Qed.

Lemma fetch64_at_total s i :
  (i + 8 <= length s)%nat → Forall is_byte s → ∃ z, fetch64_at s i = Some z ∧ u64 z.
Proof.
  intros Hl Hb. unfold fetch64_at. rewrite slice_from_total by lia. simpl.
  apply fetch64_total; [rewrite length_drop; lia | by apply Forall_drop].
Qed.

(** Discharges the reads of a definition one after the other. *)
Ltac read_step :=
  match goal with
  | |- context [fetch64_at ?s ?i] =>
      let z := fresh "z" in let E := fresh "E" in let U := fresh "U" in
      destruct (fetch64_at_total s i) as (z & E & U); [lia|by auto with pccs|rewrite E; simpl]
  | |- context [fetch64 ?s] =>
      let z := fresh "z" in let E := fresh "E" in let U := fresh "U" in
      destruct (fetch64_total s) as (z & E & U); [lia|by auto with pccs|rewrite E; simpl]
  end.

Lemma hash_len0to16_total s : Forall is_byte s → ∃ h, hash_len0to16 s = Some h ∧ u64 h.
Proof.
  intros Hb. unfold hash_len0to16. cbv zeta.
  destruct (Nat.leb_spec 8 (length s)).
  { repeat read_step. eauto with pccs. }
  destruct (Nat.leb_spec 4 (length s)).
  { destruct (fetch32_total s) as [a ->]; [lia|]. simpl.
    rewrite slice_from_total by lia. simpl.
    destruct (fetch32_total (drop (length s - 4) s)) as [b ->]; [rewrite length_drop; lia|].
    simpl. eauto with pccs. }
  destruct (Nat.eqb_spec (length s) 0); cbn [negb]; [eauto with pccs|].
  assert (Hdiv : (length s / 2 < length s)%nat) by (apply Nat.div_lt; lia).
  destruct (lookup_lt_is_Some_2 s 0) as [a Ha]; [lia|].
  destruct (lookup_lt_is_Some_2 s (length s / 2)) as [b Hb']; [lia|].
  destruct (lookup_lt_is_Some_2 s (length s - 1)) as [c Hc]; [lia|].
  rewrite Ha, Hb', Hc. simpl. eauto with pccs.
Qed.

Lemma weak_hash32_total s a b :
  (32 <= length s)%nat → Forall is_byte s →
  ∃ v, weak_hash32 s a b = Some v ∧ u64 (fst v) ∧ u64 (snd v).
Proof. intros Hl Hb. unfold weak_hash32. repeat read_step. eexists; split; [done|]. simpl; auto with pccs. Qed.

Lemma murmur_loop_total fuel s i remaining a b c d :
  Forall is_byte s → (remaining < fuel)%nat → (i + remaining <= length s)%nat →
  u64 b → u64 d →
  ∃ a' b' c' d', murmur_loop fuel s i remaining a b c d = Some (a', b', c', d') ∧
    u64 b' ∧ u64 d'.
Proof.
  intros Hb. revert i remaining a b c d.
  induction fuel as [|fuel IH]; intros i remaining a b c d Hf Hl Ub Ud; [lia|]. cbn [murmur_loop].
  destruct (Nat.ltb_spec 16 remaining); [|by eauto 10].
  repeat read_step. apply IH; [lia|lia| |]; apply lxor_width; auto with pccs; lia.
Qed.

#[local] Arguments murmur_loop : simpl never.

Lemma city_murmur_total s lo hi :
  Forall is_byte s → u64 hi → ∃ h, city_murmur s lo hi = Some h ∧ in_width 128 h.
Proof.
  intros Hb Uh. unfold city_murmur. cbv zeta.
  destruct (Nat.leb_spec (length s) 16).
  - destruct (hash_len0to16_total s Hb) as (h & -> & Hh). simpl.
    destruct (Nat.leb_spec 8 (length s)); simpl; [read_step|];
      (eexists; split; [done|]; apply pack_u128; auto with pccs;
       apply lxor_width; auto with pccs; lia).
  - repeat read_step.
    match goal with |- context [murmur_loop ?f ?s ?i ?r ?a ?b ?c ?d] =>
      destruct (murmur_loop_total f s i r a b c d) as (a' & b' & c' & d' & E' & Ub & Ud)
    end; [done|lia|lia|done|auto with pccs|]. rewrite E'. simpl.
    eexists; split; [done|]. apply pack_u128; [apply lxor_width|]; auto with pccs; lia.
Qed.

Lemma city_round_total s st :
  (64 <= length s)%nat → Forall is_byte s → ∃ st', city_round s st = Some st'.
Proof.
  intros Hl Hb. unfold city_round. cbv zeta.
  repeat read_step.
  edestruct (weak_hash32_total s) as (v & -> & _); [lia|done|]. simpl.
  rewrite slice_from_total by lia. simpl.
  edestruct (weak_hash32_total (drop 32 s)) as (w & -> & _);
    [rewrite length_drop; lia|by apply Forall_drop|]. simpl. eauto.
Qed.

Lemma city_loop_total fuel s remaining st :
  Forall is_byte s → (remaining < fuel)%nat → length s = remaining →
  ∃ st' r, city_loop fuel s remaining st = Some (st', r) ∧ (r < 128)%nat ∧ (r <= length s)%nat.
Proof.
  revert s remaining st. induction fuel as [|fuel IH]; intros s remaining st Hb Hf Hl; [lia|].
  cbn [city_loop]. destruct (Nat.leb_spec 128 remaining); [|by eauto with lia].
  destruct (city_round_total s st) as [st1 ->]; [lia|done|]. simpl.
  rewrite slice_from_total by lia. simpl.
  destruct (city_round_total (drop 64 s) st1) as [st2 ->];
    [rewrite length_drop; lia|by apply Forall_drop|]. simpl.
  rewrite slice_from_total by (rewrite length_drop; lia). simpl. rewrite drop_drop.
  destruct (IH (drop (64 + 64) s) (remaining - 128)%nat st2) as (st' & r & -> & ? & Hr);
    [by apply Forall_drop|lia|rewrite length_drop; lia|].
  rewrite length_drop in Hr. exists st', r. split_and!; [done|done|lia].
Qed.

Lemma tail_loop_total fuel orig done remaining st :
  Forall is_byte orig → (128 <= length orig)%nat → (remaining < 128)%nat →
  (∃ k, done = 32 * k)%nat → (1 <= fuel)%nat → (remaining <= done + 32 * (fuel - 1))%nat →
  ∃ st', tail_loop fuel orig done remaining st = Some st'.
Proof.
  intros Hb Hl Hr. revert done st.
  induction fuel as [|fuel IH]; intros dn st [k Hk] H1 Hf; cbn [tail_loop]; [lia|].
  destruct (Nat.ltb_spec dn remaining); [|by eauto]. cbv zeta.
  destruct (Nat.ltb_spec (length orig) (dn + 32)); [lia|].
  repeat read_step. rewrite slice_from_total by lia. simpl.
  edestruct (weak_hash32_total (drop (length orig - (dn + 32)) orig)) as (v & -> & _);
    [rewrite length_drop; lia|by apply Forall_drop|]. simpl.
  apply IH; [exists (S k); lia | lia..].
Qed.

#[local] Arguments city_loop : simpl never.
#[local] Arguments tail_loop : simpl never.

Lemma city_hash128_with_seed_total s lo hi :
  Forall is_byte s → u64 hi →
  ∃ h, city_hash128_with_seed s lo hi = Some h ∧ in_width 128 h.
Proof.
  intros Hb Uh. unfold city_hash128_with_seed.
  destruct (Nat.ltb_spec (length s) 128); [by apply city_murmur_total|]. cbv zeta.
  repeat read_step.
  edestruct (city_loop_total (S (length s)) s (length s)) as (st & r & -> & ? & ?);
    [done|lia|done|]. simpl.
  edestruct (tail_loop_total (S r) s 0 r) as [st' E']; [done|lia|done|by exists 0%nat|lia..|].
  rewrite E'. simpl. eexists; split; [done|]. apply pack_u128; auto with pccs.
Qed.

(** the digest never panics and never runs out of fuel: on every byte
    string [city_hash_128] returns, and its result is a [u128]. *)
Theorem city_hash_128_total data :
  Forall is_byte data → ∃ h, city_hash_128 data = Some h ∧ in_width 128 h.
Proof.
  intros Hb. unfold city_hash_128.
  destruct (Nat.leb_spec 16 (length data)).
  - rewrite slice_from_total by done. simpl. repeat read_step.
    apply city_hash128_with_seed_total; [by apply Forall_drop|auto with pccs].
  - apply city_hash128_with_seed_total; auto with pccs.
Qed.

Lemma hash128_width data : Forall is_byte data → in_width 128 (hash128 data).
Proof. intros Hb. unfold hash128. by destruct (city_hash_128_total data Hb) as (h & -> & ?). Qed.

(** [hash128] is the digest itself: the default of its definition is unused. *)
Lemma hash128_spec data : Forall is_byte data → city_hash_128 data = Some (hash128 data).
Proof. intros Hb. unfold hash128. by destruct (city_hash_128_total data Hb) as (h & -> & ?). Qed.

Definition first_bytes (n : nat) : list Z := map Z.of_nat (seq 0 n).

(** the digest agrees with the published CityHash128 vectors that the
    source pins in its tests; they cover the empty input, the short-string
    paths, the 16-byte-block loop and the 128-byte main loop with its tail. *)
Theorem city_hash_128_vectors :
  city_hash_128 [] = Some 0x3cb540c392e51e293df09dfc64c09a2b ∧
  city_hash_128 (bytes "hello") = Some 0x65148f580b45f3476f72e4abb491a74a ∧
  city_hash_128 (first_bytes 5) = Some 0xe3cb1f3f3ab9643bef3668c150012eec ∧
  city_hash_128 (first_bytes 100) = Some 0x4af6eac6b81177e082940c1b36354e6f ∧
  city_hash_128 (first_bytes 128) = Some 0xd7e962fbe3832fa2987f34a745925167 ∧
  city_hash_128 (first_bytes 200) = Some 0x5ecd9df9c773c308041b130aac352f97 ∧
  hash128_hex (bytes "hello") = "65148f580b45f3476f72e4abb491a74a"%string.
Proof. vm_compute. auto 10. Qed.
