(* ===== verification/Keys.v ===== *)
(** * Keys: the RocksDB key of every record (src/src/keys.rs)

    A key is a plaintext type prefix followed by the CityHash128 digest of
    the lower-cased canonical fields joined by ['/'].  Exceptions: the
    [nvidia-ocsp/] keys carry a SHA-256 hex computed by the OCSP parser, and
    the read-through keys hash the upstream URL as it is. *)

From stdpp Require Import base list strings.
From Stdlib Require Import ZArith Lia.
From S2P Require Import Prelude Text City.

Local Open Scope string_scope.

Definition PCKCERT : string := "pckcert/".
Definition TCB : string := "tcb/".
Definition IDENTITY : string := "identity/".
Definition PCKCRL : string := "pckcrl/".
Definition ROOTCACRL : string := "rootcacrl".
Definition CRL : string := "crl/".
Definition AMD_KDS : string := "amd-kds/".
Definition NVIDIA_RIM : string := "nvidia-rim/".
Definition NVIDIA_OCSP : string := "nvidia-ocsp/".
Definition FIFO_ORDER : string := "fifo/".
Definition FIFO_POS : string := "fifo-pos/".
Definition FIFO_COUNT : string := "fifo-count/".
Definition APPRAISAL : string := "appraisal/".
Definition PREG : string := "preg/".
Definition PLATFORM : string := "platform/".

Definition join_lower (parts : list string) : string := str_join "/" (map to_lower parts).

Definition make (prefix : string) (parts : list string) : string :=
  prefix ++ hash128_hex (bytes (join_lower parts)).

Definition pckcert (qeid pceid cpusvn pcesvn : string) : string :=
  make PCKCERT [qeid; pceid; cpusvn; pcesvn].
Definition tcb (prod : string) (version : Z) (fmspc update : string) : string :=
  make TCB [prod; to_dec version; fmspc; update].
Definition identity (name : string) (version : Z) (update : string) : string :=
  make IDENTITY [name; to_dec version; update].
Definition pckcrl (ca : string) : string := make PCKCRL [ca].
Definition rootcacrl : string := ROOTCACRL.
Definition crl (uri : string) : string := make CRL [uri].
Definition amd_kds (url : string) : string := AMD_KDS ++ hash128_hex (bytes url).
Definition nvidia_rim (url : string) : string := NVIDIA_RIM ++ hash128_hex (bytes url).
Definition nvidia_ocsp (cache_key : string) : string := NVIDIA_OCSP ++ cache_key.
Definition appraisal (fmspc : string) : string := make APPRAISAL [fmspc].
Definition preg (qeid pceid cpusvn pcesvn : string) : string :=
  make PREG [qeid; pceid; cpusvn; pcesvn].
Definition platform (qeid pceid : string) : string := make PLATFORM [qeid; pceid].

Definition prod_name (prod_type : Z) : string :=
  if (prod_type =? 1)%Z then "tdx" else "sgx".

Definition identity_name (enclave_id : Z) : string :=
  if (enclave_id =? 2)%Z then "qve" else if (enclave_id =? 3)%Z then "tdqe" else "qe".

(** Every prefix a stored key can start with. *)
Definition all_prefixes : list string :=
  [PCKCERT; TCB; IDENTITY; PCKCRL; ROOTCACRL; CRL; AMD_KDS; NVIDIA_RIM; NVIDIA_OCSP;
   FIFO_ORDER; FIFO_POS; FIFO_COUNT; APPRAISAL; PREG; PLATFORM].

(** ** Canonical fields *)

Lemma join_lower_proper ps qs :
  Forall2 same_text ps qs → join_lower ps = join_lower qs.
Proof.
  intros H. unfold join_lower. f_equal.
  induction H as [|p q ps qs Hpq _ IH]; simpl; [done|]. by rewrite Hpq, IH.
Qed.

#[export] Instance make_proper : Proper (eq ==> Forall2 same_text ==> eq) make.
Proof. intros p _ <- ps qs H. unfold make. by rewrite (join_lower_proper _ _ H). Qed.

Lemma to_upper_same s : same_text (to_upper s) s.
Proof. apply lower_upper. Qed.

(** Upper-casing the arguments does not change a key. *)
Lemma pckcert_upper q p c s :
  pckcert (to_upper q) (to_upper p) (to_upper c) (to_upper s) = pckcert q p c s.
Proof. apply make_proper; [done|]. repeat constructor; apply to_upper_same. Qed.

Lemma pckcert_ic q p c s q' p' c' s' :
  same_text q q' → same_text p p' → same_text c c' → same_text s s' →
  pckcert q p c s = pckcert q' p' c' s'.
Proof. intros. apply make_proper; [done|]. by repeat constructor. Qed.

Lemma preg_ic q p c s q' p' c' s' :
  same_text q q' → same_text p p' → same_text c c' → same_text s s' →
  preg q p c s = preg q' p' c' s'.
Proof. intros. apply make_proper; [done|]. by repeat constructor. Qed.

Lemma platform_ic q p q' p' :
  same_text q q' → same_text p p' → platform q p = platform q' p'.
Proof. intros. apply make_proper; [done|]. by repeat constructor. Qed.

Lemma hash128_hex_length d : String.length (hash128_hex d) = 32.
Proof. apply hex_fixed_length. Qed.

Lemma hash128_hex_inj d d' :
  Forall is_byte d → Forall is_byte d' →
  hash128_hex d = hash128_hex d' → hash128 d = hash128 d'.
Proof. intros Hd Hd'. apply hex_fixed_inj; by apply (hash128_width _). Qed.

(** Equal keys of one kind have canonical fields of equal digest. *)
Lemma make_digest p ps qs :
  make p ps = make p qs →
  hash128 (bytes (join_lower ps)) = hash128 (bytes (join_lower qs)).
Proof. intros H%str_app_inj_l. apply hash128_hex_inj; auto with pccs. Qed.

(** ** Field separation *)

Lemma contains_char_app c s t :
  contains_char c (s ++ t) = contains_char c s || contains_char c t.
Proof. unfold contains_char. by rewrite str_all_app, negb_andb. Qed.

Lemma contains_char_cons c d s :
  contains_char c (String d s) = Ascii.eqb c d || contains_char c s.
Proof. unfold contains_char. simpl. by rewrite negb_andb, negb_involutive. Qed.

Lemma to_lower_no_slash s :
  contains_char "/" s = false → contains_char "/" (to_lower s) = false.
Proof.
  unfold contains_char, to_lower. rewrite str_all_map.
  intros H. erewrite str_all_ext; [exact H|].
  intros c. unfold compose. each_char c.
Qed.

(** A separator-free last field determines where it starts. *)
Lemma last_field_inj c s t s' t' :
  contains_char c t = false → contains_char c t' = false →
  s ++ String c t = s' ++ String c t' → s = s' ∧ t = t'.
Proof.
  intros Ht Ht'. revert s'. induction s as [|d s IH]; intros [|d' s']; simpl.
  - by intros [= ->].
  - intros [= <- ->]. rewrite contains_char_app, contains_char_cons in Ht.
    rewrite Ascii.eqb_refl, orb_true_r in Ht. done.
  - intros [= -> <-]. rewrite contains_char_app, contains_char_cons in Ht'.
    rewrite Ascii.eqb_refl, orb_true_r in Ht'. done.
  - intros [= -> H]. by destruct (IH _ H) as [-> ->].
Qed.

Lemma join_lower_4 q p c s :
  join_lower [q; p; c; s] =
  (to_lower q ++ String "/" (to_lower p)) ++ String "/" (to_lower c) ++
    String "/" (to_lower s).
Proof. unfold join_lower, str_join. simpl. rewrite <- !str_app_assoc. done. Qed.

Lemma canonical_4_inj q p c s q' p' c' s' :
  contains_char "/" p = false → contains_char "/" c = false → contains_char "/" s = false →
  contains_char "/" p' = false → contains_char "/" c' = false → contains_char "/" s' = false →
  join_lower [q; p; c; s] = join_lower [q'; p'; c'; s'] →
  same_text q q' ∧ same_text p p' ∧ same_text c c' ∧ same_text s s'.
Proof.
  intros Hp Hc Hs Hp' Hc' Hs' H. rewrite !join_lower_4, !str_app_assoc in H.
  apply last_field_inj in H as [H Es]; [|by apply to_lower_no_slash..].
  apply last_field_inj in H as [H Ec]; [|by apply to_lower_no_slash..].
  apply last_field_inj in H as [Eq Ep]; [|by apply to_lower_no_slash..]. done.
Qed.

(** a [pckcert/] key identifies its request up to letter case: if two
    requests with separator-free pceid, cpusvn and pcesvn (what the validator
    lets through; the qeid is free text and may contain a slash) have the
    same key, they name the same platform and raw TCB up to case, or their
    canonical fields are a CityHash128 collision. *)
Theorem pckcert_key_identifies q p c s q' p' c' s' :
  contains_char "/" p = false → contains_char "/" c = false → contains_char "/" s = false →
  contains_char "/" p' = false → contains_char "/" c' = false → contains_char "/" s' = false →
  pckcert q p c s = pckcert q' p' c' s' →
  (same_text q q' ∧ same_text p p' ∧ same_text c c' ∧ same_text s s') ∨
  (join_lower [q; p; c; s] ≠ join_lower [q'; p'; c'; s'] ∧
   hash128 (bytes (join_lower [q; p; c; s])) = hash128 (bytes (join_lower [q'; p'; c'; s']))).
Proof.
  intros Hp Hc Hs Hp' Hc' Hs' H. apply make_digest in H.
  destruct (decide (join_lower [q; p; c; s] = join_lower [q'; p'; c'; s'])) as [E|]; [left|by right].
  by apply canonical_4_inj in E.
Qed.

Lemma pckcert_key_identifies_witness :
  pckcert "Aa" "0001" "0F" "0a00" = pckcert "aA" "0001" "0f" "0A00" ∧
  ((same_text "Aa" "aA" ∧ same_text "0001" "0001" ∧ same_text "0F" "0f" ∧
    same_text "0a00" "0A00") ∨
   (join_lower ["Aa"; "0001"; "0F"; "0a00"] ≠ join_lower ["aA"; "0001"; "0f"; "0A00"] ∧
    hash128 (bytes (join_lower ["Aa"; "0001"; "0F"; "0a00"])) =
    hash128 (bytes (join_lower ["aA"; "0001"; "0f"; "0A00"])))).
Proof.
  split; [vm_compute; reflexivity|].
  apply pckcert_key_identifies; vm_compute; reflexivity.
Defined.

(** ** Kinds do not mix *)

Definition prefix_free (l : list string) : bool :=
  forallb (λ p, forallb (λ q, String.eqb p q || negb (starts_with p q)) l) l.

Lemma prefixes_free : prefix_free all_prefixes = true.
Proof. vm_compute. reflexivity. Qed.

Lemma starts_with_app p r : starts_with p (p ++ r) = true.
Proof. apply starts_with_spec. eauto. Qed.

Lemma starts_with_both p q s :
  starts_with p s = true → starts_with q s = true →
  starts_with p q = true ∨ starts_with q p = true.
Proof.
  rewrite !starts_with_spec. intros [r ->] [r' H].
  revert q H. induction p as [|c p IH]; intros [|d q] H; simpl in *.
  - left. by exists "".
  - left. by exists (String d q).
  - right. by exists (String c p).
  - injection H as -> H. destruct (IH q H) as [[x ->]|[x ->]]; eauto.
Qed.

(** Two different kinds never share a key, whatever the digests are. *)
Lemma kind_disjoint p q s :
  p ∈ all_prefixes → q ∈ all_prefixes →
  starts_with p s = true → starts_with q s = true → p = q.
Proof.
  intros Hp Hq Hs Ht. pose proof prefixes_free as H. unfold prefix_free in H.
  rewrite forallb_forall in H.
  assert (Hone : ∀ a b, a ∈ all_prefixes → b ∈ all_prefixes → starts_with a b = true → a = b).
  { intros a b Ha Hb Hab. specialize (H a). rewrite <- list_elem_of_In in H.
    specialize (H Ha). rewrite forallb_forall in H. specialize (H b).
    rewrite <- list_elem_of_In in H. specialize (H Hb).
    apply orb_true_iff in H as [H|H]; [by apply String.eqb_eq in H|].
    rewrite Hab in H. done. }
  destruct (starts_with_both p q s Hs Ht) as [|]; [|symmetry]; by apply Hone.
Qed.

(** Digest keys are ASCII, so a scan returns them as they are. *)
Lemma hexdigit_byte c : is_hexdigit c = true → (byte_of c < 128)%Z.
Proof. by each_char c. Qed.

Lemma hex_bytes_ascii s : str_all is_hexdigit s = true → Forall (λ b, 0 <= b < 128)%Z (bytes s).
Proof.
  induction s as [|c s IH]; [constructor|]. cbn. intros [Hc Hs]%andb_true_iff.
  constructor; [|by apply IH]. split; [apply byte_of_range|by apply hexdigit_byte].
Qed.

Lemma bytes_str_app s t : bytes (s ++ t)%string = (bytes s ++ bytes t)%list.
Proof. induction s as [|c s IH]; [done|]. cbn. by rewrite IH. Qed.

Lemma preg_ascii q p c e : Forall (λ b, 0 <= b < 128)%Z (bytes (preg q p c e)).
Proof.
  unfold preg, make. rewrite bytes_str_app. apply Forall_app; split.
  - by repeat constructor.
  - apply hex_bytes_ascii, hex_fixed_hexdigits.
Qed.

(** The digest is only ever evaluated, never unfolded in a proof. *)
#[global] Opaque hash128_hex.
