(* ===== verification/Env.v ===== *)
(** * Env: the third-party code the service calls, as interfaces

    [base64], the SHA-2 crate, [chrono] and [serde_json] are not under
    [src/].  Each is a class the models are parameterised by; the laws are
    the documented facts the proofs use.  The module [Concrete] gives each
    class an instance, used only to evaluate definitions and witnesses. *)

From stdpp Require Import base list strings option.
From Stdlib Require Import ZArith Lia.
From S2P Require Import Prelude Text.

Local Open Scope Z_scope.

(** ** base64: the [STANDARD] and [URL_SAFE_NO_PAD] engines *)
Class Base64 := {
  b64_std_decode : string → option (list Z);
  b64_url_decode : string → option (list Z)
}.

(** ** sha2: digests as byte lists *)
Class Sha2 := {
  sha256 : list Z → list Z;
  sha384 : list Z → list Z;
  sha512 : list Z → list Z
}.

Class Sha2Laws `{Sha2} := {
  sha256_bytes l : Forall is_byte (sha256 l);
  sha384_bytes l : Forall is_byte (sha384 l);
  sha512_bytes l : Forall is_byte (sha512 l);
  sha512_length l : length (sha512 l) = 64%nat
}.

(** ** percent_encoding: [utf8_percent_encode] with a set of ASCII characters
    to escape; other ASCII stands for itself, every other byte is escaped *)
Class PercentEncoding := { utf8_percent_encode : (ascii → bool) → string → string }.

Class PercentEncodingLaws `{PercentEncoding} := {
  percent_encode_nil set : utf8_percent_encode set EmptyString = EmptyString;
  percent_encode_cons set c s :
    utf8_percent_encode set (String c s) =
      if set c || (128 <=? byte_of c) then
        (String "%" (hex2_upper (byte_of c)) ++ utf8_percent_encode set s)%string
      else String c (utf8_percent_encode set s)
}.

(** ** chrono: the two parsers of [ocsp.rs], as Unix seconds *)
Class Chrono := {
  parse_naive : string → string → option Z;   (* format, value *)
  parse_offset : string → string → option Z
}.

(** ** serde_json: the accessors of [Value] the source uses *)
Class Json (V : Type) := {
  jnull : V;
  jget : V → string → option V;
  as_str : V → option string;
  as_i64 : V → option Z;
  as_u64 : V → option Z;
  as_bool : V → option bool;
  as_array : V → option (list V);
  is_object : V → bool;
  is_null : V → bool;
  json_parse : string → option V;
  json_print : V → string;
  (** [json!] of a string and of an object *)
  json_string : string → V;
  json_object : list (string * V) → V
}.

Class JsonLaws (V : Type) `{Json V} := {
  as_u64_range v n : as_u64 v = Some n → 0 <= n <= u64_max;
  as_i64_range v n : as_i64 v = Some n → i64_min <= n <= i64_max;
  is_null_no_str v : is_null v = true → as_str v = None;
  is_object_no_null v : is_object v = true → is_null v = false
}.

Section json_helpers.
Context {V : Type} `{Json V}.

(** [v.get(k).and_then(|x| x.as_str())] and its siblings *)
Definition get_str (v : V) (k : string) : option string := jget v k ≫= as_str.
Definition get_u64 (v : V) (k : string) : option Z := jget v k ≫= as_u64.
Definition get_i64 (v : V) (k : string) : option Z := jget v k ≫= as_i64.
Definition get_bool (v : V) (k : string) : option bool := jget v k ≫= as_bool.
Definition get_array (v : V) (k : string) : option (list V) := jget v k ≫= as_array.
(** [v.get(k).filter(|x| x.is_object())] *)
Definition get_object (v : V) (k : string) : option V :=
  o ← jget v k; if is_object o then Some o else None.
(** [v.pointer("/a/b")] for keys without ['/'] and ['~'] in an object *)
Definition pointer2 (v : V) (a b : string) : option V := x ← jget v a; jget x b.
End json_helpers.

(** ** Concrete instances *)

Module Concrete.

(** *** A real base64 decoder *)
Definition std_val (c : ascii) : option Z :=
  if is_upper c then Some (byte_of c - 65)
  else if is_lower c then Some (byte_of c - 71)
  else if is_digit c then Some (byte_of c + 4)
  else if Ascii.eqb c "+" then Some 62
  else if Ascii.eqb c "/" then Some 63
  else None.
Definition url_val (c : ascii) : option Z :=
  if Ascii.eqb c "-" then Some 62
  else if Ascii.eqb c "_" then Some 63
  else if Ascii.eqb c "+" || Ascii.eqb c "/" then None
  else std_val c.

Fixpoint b64_groups (val : ascii → option Z) (s : string) : option (list Z) :=
  match s with
  | EmptyString => Some []
  | String a (String b EmptyString) =>
      x ← val a; y ← val b;
      if y mod 16 =? 0 then Some [x * 4 + y / 16] else None
  | String a (String b (String c EmptyString)) =>
      x ← val a; y ← val b; z ← val c;
      if z mod 4 =? 0 then Some [x * 4 + y / 16; (y mod 16) * 16 + z / 4] else None
  | String a (String b (String c (String d r))) =>
      x ← val a; y ← val b; z ← val c; w ← val d;
      t ← b64_groups val r;
      Some (x * 4 + y / 16 :: (y mod 16) * 16 + z / 4 :: (z mod 4) * 64 + w :: t)
  | _ => None
  end.

(** Padding is mandatory for [STANDARD] and forbidden for
    [URL_SAFE_NO_PAD]. *)
Definition std_decode (s : string) : option (list Z) :=
  if (String.length s mod 4 =? 0)%nat then
    let body := match strip_suffix "==" s with
                | Some r => r
                | None => default s (strip_suffix "=" s)
                end in
    b64_groups std_val body
  else None.

#[export] Instance base64 : Base64 := {|
  b64_std_decode := std_decode;
  b64_url_decode := b64_groups url_val
|}.

(** *** Stand-in digests: the length and the sum of the input, padded *)
Definition toy_digest (n : nat) (l : list Z) : list Z :=
  take n (map (λ b, b mod 256) (Z.of_nat (length l) :: fold_left Z.add l 0 :: l)
          ++ replicate n 0).

#[export] Instance sha2 : Sha2 := {|
  sha256 := toy_digest 32; sha384 := toy_digest 48; sha512 := toy_digest 64
|}.

Lemma toy_digest_bytes n l : Forall is_byte (toy_digest n l).
Proof.
  apply Forall_take, Forall_app; split.
  - apply Forall_fmap, Forall_true. intros z. by apply Z.mod_pos_bound.
  - apply Forall_replicate. done.
Qed.

#[export] Instance sha2_laws : Sha2Laws.
Proof.
  split; try (intros; apply toy_digest_bytes).
  intros l. unfold sha512, sha2, toy_digest. rewrite length_take, length_app, length_replicate. lia.
Qed.

(** *** Percent encoding *)
Fixpoint percent_encoder (set : ascii → bool) (s : string) : string :=
  match s with
  | EmptyString => EmptyString
  | String c s' =>
      if set c || (128 <=? byte_of c) then
        (String "%" (hex2_upper (byte_of c)) ++ percent_encoder set s')%string
      else String c (percent_encoder set s')
  end.
#[export] Instance percent_encoding : PercentEncoding := {| utf8_percent_encode := percent_encoder |}.
#[export] Instance percent_encoding_laws : PercentEncodingLaws.
Proof. by split. Qed.

(** *** JSON values *)
#[local] Set Warnings "-register-all".
Inductive jvalue : Type :=
| JNull
| JBool (b : bool)
| JInt (n : Z)
| JFloat
| JStr (s : string)
| JArr (l : list jvalue)
| JObj (l : list (string * jvalue)).

Fixpoint obj_get (l : list (string * jvalue)) (k : string) : option jvalue :=
  match l with
  | [] => None
  | (k', v) :: l' => if String.eqb k k' then Some v else obj_get l' k
  end.

#[export] Instance json : Json jvalue := {|
  jnull := JNull;
  jget v k := match v with JObj l => obj_get l k | _ => None end;
  as_str v := match v with JStr s => Some s | _ => None end;
  as_i64 v := match v with
              | JInt n => if (i64_min <=? n) && (n <=? i64_max) then Some n else None
              | _ => None end;
  as_u64 v := match v with
              | JInt n => if (0 <=? n) && (n <=? u64_max) then Some n else None
              | _ => None end;
  as_bool v := match v with JBool b => Some b | _ => None end;
  as_array v := match v with JArr l => Some l | _ => None end;
  is_object v := match v with JObj _ => true | _ => false end;
  is_null v := match v with JNull => true | _ => false end;
  json_parse s := if String.eqb s "null" then Some JNull else None;
  json_print v := match v with JNull => "null" | _ => "" end;
  json_string := JStr;
  json_object := JObj
|}.

#[export] Instance json_laws : JsonLaws jvalue.
Proof.
  split.
  - intros v n H. destruct v; simplify_eq/=. case_match; simplify_eq. bool_to_prop. lia.
  - intros v n H. destruct v; simplify_eq/=. case_match; simplify_eq. bool_to_prop. lia.
  - by intros [].
  - by intros [].
Qed.

(** *** A clock parser: [YYYYMMDDHHMMSSZ] as days and seconds *)
Definition dec_of (s : string) (i n : nat) : option Z :=
  parse_uint u64_max (String.substring i n s).

Definition days_before_year (y : Z) : Z :=
  365 * (y - 1970) + (y - 1969) / 4 - (y - 1901) / 100 + (y - 1601) / 400.
Definition is_leap (y : Z) : bool :=
  (y mod 4 =? 0) && (negb (y mod 100 =? 0) || (y mod 400 =? 0)).
Definition days_before_month (y m : Z) : Z :=
  nth (Z.to_nat (m - 1)) [0; 31; 59; 90; 120; 151; 181; 212; 243; 273; 304; 334] 0 +
  (if is_leap y && (2 <? m) then 1 else 0).

Definition parse_utc (s : string) : option Z :=
  if (String.length s =? 15)%nat && ends_with "Z" s then
    y ← dec_of s 0 4; mo ← dec_of s 4 2; d ← dec_of s 6 2;
    h ← dec_of s 8 2; mi ← dec_of s 10 2; se ← dec_of s 12 2;
    if (1 <=? mo) && (mo <=? 12) && (1 <=? d) && (d <=? 31) && (h <? 24) && (mi <? 60) && (se <? 60)
    then Some (86400 * (days_before_year y + days_before_month y mo + (d - 1)) +
               3600 * h + 60 * mi + se)
    else None
  else None.

#[export] Instance chrono : Chrono := {|
  parse_naive fmt s := if String.eqb fmt "%Y%m%d%H%M%SZ" then parse_utc s else None;
  parse_offset _ _ := None
|}.
End Concrete.
