(* ===== verification/PckCert.v ===== *)
(** * PckCert: reading the SGX extension of a PCK certificate
    (src/src/selection.rs, first half)

    The TLV walker [tlvs] is total and lenient: it stops at the first byte
    it does not understand.  [parse_pck_cert] finds the SGX extension and
    collects the fields selection needs.  An error of the source is a
    [String] that only reaches the log; here it is a constructor of
    [sel_error]. *)

From Stdlib Require Import ZArith Lia.
From stdpp Require Import base list strings option.
From S2P Require Import Prelude Text Env.

Local Open Scope Z_scope.

(** ** Errors of selection.rs *)
Inductive sel_error : Type :=
| InvalidCpusvnLength
| InvalidCpusvnFormat
| InvalidPcesvnFormat
| ParsingFailed
| SgxExtensionNotFound
| InvalidSgxTcbExtension
| InvalidSgxExtension
| NoCertificateFound
| TcbTypeDifferent
| PceidMissing
| PceidDifferent
| EmptyTcbLevels
| LevelMissingComponents
| LevelInvalidPcesvn
| InvalidTcbLevels
| FmspcMissing
| CertVersionDifferent
| CertPceidDifferent
| CertFmspcDifferent
| PpidsDifferent
| TcbTypeNotInteger
| Panicked.  (* not an error of the source: an index out of bounds *)

#[export] Instance sel_error_eq_dec : EqDecision sel_error.
Proof. solve_decision. Defined.

(** ** The TLV walker *)

(** Big-endian value of a byte string: [v = (v << 8) | b]. *)
Definition be_value (l : list Z) : Z :=
  fold_left (λ v b, Z.lor (Z.shiftl v 8) b) l 0.

(** The length octets of one TLV: [Some (len, hdr)], or [None] for an
    indefinite, oversized or truncated length. *)
Definition tlv_header (first : Z) (rest : list Z) : option (Z * Z) :=
  if first <? 0x80 then Some (first, 2)
  else
    let n := Z.land first 0x7F in
    if (n =? 0) || (4 <? n) || (Z.of_nat (length rest) <? n) then None
    else Some (be_value (take (Z.to_nat n) rest), 2 + n).

(** [tlvs(buf)]: the index [i] of the source is the position of the suffix
    the recursion is at; every step consumes at least two bytes, so
    [length buf] is enough fuel. *)
Fixpoint tlvs_fuel (fuel : nat) (buf : list Z) : list (Z * list Z) :=
  match fuel, buf with
  | S fuel', tag :: first :: rest =>
      if Z.land tag 0x1F =? 0x1F then []
      else match tlv_header first rest with
           | None => []
           | Some (len, hdr) =>
               if Z.of_nat (length buf) <? hdr + len then []
               else (tag, take (Z.to_nat len) (drop (Z.to_nat hdr) buf))
                      :: tlvs_fuel fuel' (drop (Z.to_nat (hdr + len)) buf)
           end
  | _, _ => []
  end.

Definition tlvs (buf : list Z) : list (Z * list Z) := tlvs_fuel (length buf) buf.

Definition is_constructed (tag : Z) : bool := negb (Z.land tag 0x20 =? 0).

Definition SGX_EXT_OID : list Z := [0x2A; 0x86; 0x48; 0x86; 0xF8; 0x4D; 0x01; 0x0D; 0x01].

Definition sub_oid (last : Z) : list Z := SGX_EXT_OID ++ [last].

(** The extension test on one element: SEQUENCE whose first child is the
    OID and whose last child is an OCTET STRING. *)
Definition extension_value (tag : Z) (content oid : list Z) : option (list Z) :=
  if tag =? 0x30 then
    let kids := tlvs content in
    match kids, list.last kids with
    | (0x06, o) :: _ :: _, Some (0x04, value) => if decide (o = oid) then Some value else None
    | _, _ => None
    end
  else None.

(** The loop over the elements of one level; [rec] is the recursive call. *)
Fixpoint search_items (rec : list Z → option (list Z)) (oid : list Z)
    (items : list (Z * list Z)) : option (list Z) :=
  match items with
  | [] => None
  | (tag, content) :: items' =>
      match extension_value tag content oid with
      | Some value => Some value
      | None =>
          match (if is_constructed tag then rec content else None) with
          | Some found => Some found
          | None => search_items rec oid items'
          end
      end
  end.

(** [find_extension]: depth-first search.  The contents of an element are
    strictly shorter than the buffer, so [S (length buf)] is enough fuel
    ([find_extension_fuel_irrel]). *)
Fixpoint find_extension_fuel (fuel : nat) (buf oid : list Z) : option (list Z) :=
  match fuel with
  | O => None
  | S fuel' => search_items (λ content, find_extension_fuel fuel' content oid) oid (tlvs buf)
  end.

Definition find_extension (buf oid : list Z) : option (list Z) :=
  find_extension_fuel (S (length buf)) buf oid.

(** A DER INTEGER as [u32]. *)
Definition der_int (l : list Z) : option Z :=
  match l with
  | [] => None
  | b0 :: _ =>
      if (5 <? Z.of_nat (length l)) || negb (Z.land b0 0x80 =? 0) then None
      else u32_try_from (be_value l)
  end.

(** [.into_iter().find(|(t, _)| *t == tag)] *)
Fixpoint find_tag (tag : Z) (items : list (Z * list Z)) : option (list Z) :=
  match items with
  | [] => None
  | (t, c) :: items' => if t =? tag then Some c else find_tag tag items'
  end.

(** Fields Node's [X509] exposes for PCK cert selection. *)
Record PckCertInfo := {
  version : Z;
  fmspc : string;
  pce_id : string;
  ppid : string;
  cpusvn : string;
  pcesvn : Z;
  ca : string
}.

#[export] Instance PckCertInfo_eq_dec : EqDecision PckCertInfo.
Proof. solve_decision. Defined.

(** The fields collected while walking the SGX extension. *)
Record sgx_fields := {
  f_fmspc : string; f_pce_id : string; f_ppid : string;
  f_cpusvn : string; f_pcesvn : option Z
}.

Definition no_sgx_fields : sgx_fields :=
  {| f_fmspc := ""; f_pce_id := ""; f_ppid := ""; f_cpusvn := ""; f_pcesvn := None |}.

(** [field(idx)] of the TCB sequence: the second child of item [idx]. *)
Definition tcb_field (items : list (Z * list Z)) (idx : nat) : option (Z * list Z) :=
  item ← items !! idx; tlvs (snd item) !! 1%nat.

(** The [if oid == sub_oid(..)] chain: what an entry contributes. *)
Definition sgx_field (acc : sgx_fields) (oid value : list Z) : result sel_error sgx_fields :=
  if decide (oid = sub_oid 0x04) then
    Ok {| f_fmspc := hex_encode_upper value; f_pce_id := f_pce_id acc; f_ppid := f_ppid acc;
          f_cpusvn := f_cpusvn acc; f_pcesvn := f_pcesvn acc |}
  else if decide (oid = sub_oid 0x03) then
    Ok {| f_fmspc := f_fmspc acc; f_pce_id := hex_encode_upper value; f_ppid := f_ppid acc;
          f_cpusvn := f_cpusvn acc; f_pcesvn := f_pcesvn acc |}
  else if decide (oid = sub_oid 0x01) then
    Ok {| f_fmspc := f_fmspc acc; f_pce_id := f_pce_id acc; f_ppid := hex_encode_upper value;
          f_cpusvn := f_cpusvn acc; f_pcesvn := f_pcesvn acc |}
  else if decide (oid = sub_oid 0x02) then
    let items := tlvs value in
    if (length items <? 18)%nat then Err InvalidSgxTcbExtension
    else
      Ok {| f_fmspc := f_fmspc acc; f_pce_id := f_pce_id acc; f_ppid := f_ppid acc;
            f_pcesvn := f ← tcb_field items 16; der_int (snd f);
            f_cpusvn := default "" (f ← tcb_field items 17;
                                    Some (hex_encode_upper (snd f))) |}
  else Ok acc.

(** One iteration of the loop over [sgx_items]. *)
Definition sgx_item (acc : sgx_fields) (item : Z * list Z) : result sel_error sgx_fields :=
  let '(tag, content) := item in
  if negb (tag =? 0x30) then Ok acc
  else match tlvs content with
       | (0x06, oid) :: (_, value) :: _ => sgx_field acc oid value
       | _ => Ok acc
       end.

Section parse.
Context `{Base64}.

Definition BEGIN_CERT : string := "-----BEGIN CERTIFICATE-----".
Definition END_CERT : string := "-----END CERTIFICATE-----".

Definition pem_to_der (pem : string) : option (list Z) :=
  body ← split_str BEGIN_CERT pem !! 1%nat;
  block ← head (split_str END_CERT body);
  b64_std_decode (str_filter (λ c, negb (is_ascii_ws c)) block).

(** The CA type from the issuer Name. *)
Definition issuer_ca (issuer : list Z) : string :=
  let text := of_bytes (utf8_lossy issuer) in
  if contains "Platform" text then "PLATFORM"
  else if contains "Processor" text then "PROCESSOR"
  else "".

(** The optional [0] version element: the version and where the issuer
    is.  [raw + 1] wraps at 32 bits in a release build. *)
Definition version_and_issuer (tbs_kids : list (Z * list Z)) : result sel_error (Z * nat) :=
  match tbs_kids with
  | (0xA0, v) :: _ =>
      raw ← ok_or (b ← find_tag 0x02 (tlvs v); der_int b) ParsingFailed;
      Ok (wrap 32 (raw + 1), 3%nat)
  | _ => Ok (1, 2%nat)
  end.

Definition parse_pck_cert (pem : string) : result sel_error PckCertInfo :=
  der ← ok_or (pem_to_der pem) ParsingFailed;
  cert ← ok_or (find_tag 0x30 (tlvs der)) ParsingFailed;
  tbs ← ok_or (find_tag 0x30 (tlvs cert)) ParsingFailed;
  let tbs_kids := tlvs tbs in
  vi ← version_and_issuer tbs_kids;
  let '(version, issuer_index) := vi in
  let ca := default "" (k ← tbs_kids !! issuer_index; Some (issuer_ca (snd k))) in
  sgx ← ok_or (find_extension der SGX_EXT_OID) SgxExtensionNotFound;
  let sgx_items := match tlvs sgx with
                   | [(0x30, inner)] => tlvs inner
                   | other => other
                   end in
  f ← try_fold sgx_item no_sgx_fields sgx_items;
  pcesvn ← ok_or (f_pcesvn f) InvalidSgxTcbExtension;
  if is_empty (f_cpusvn f) || is_empty (f_fmspc f) || is_empty (f_pce_id f)
  then Err InvalidSgxExtension
  else Ok {| version := version; fmspc := f_fmspc f; pce_id := f_pce_id f; ppid := f_ppid f;
             cpusvn := f_cpusvn f; pcesvn := pcesvn; ca := ca |}.
End parse.


(** ** Big-endian values *)

Lemma lor_shift_byte v b : 0 <= v → is_byte b → Z.lor (Z.shiftl v 8) b = 256 * v + b.
Proof.
  intros Hv Hb. pose proof (Z.add_lor_land (Z.shiftl v 8) b) as Hl.
  enough (Z.land (Z.shiftl v 8) b = 0) as E
    by (pose proof (Z.shiftl_mul_pow2 v 8 ltac:(lia)); lia).
  apply Z.bits_inj'. intros i Hi. rewrite Z.land_spec, Z.bits_0.
  destruct (Z.lt_ge_cases i 8).
  - by rewrite Z.shiftl_spec_low.
  - rewrite (in_width_testbit 8 b) by (done || lia). apply andb_false_r.
Qed.

Lemma be_value_acc l v :
  0 <= v → Forall is_byte l →
  fold_left (λ v b, Z.lor (Z.shiftl v 8) b) l v = 256 ^ Z.of_nat (length l) * v + be_value l.
Proof.
  unfold be_value. intros Hv Hl. revert v Hv. induction Hl as [|b l Hb Hl IH]; intros v Hv.
  - simpl. lia.
  - cbn [fold_left]. rewrite !lor_shift_byte by (done || lia).
    unfold is_byte, in_width in Hb.
    rewrite IH, (IH (256 * 0 + b)) by lia.
    cbn [Datatypes.length]. rewrite Nat2Z.inj_succ, Z.pow_succ_r by lia. ring.
Qed.

Lemma be_value_cons b l :
  Forall is_byte (b :: l) → be_value (b :: l) = 256 ^ Z.of_nat (length l) * b + be_value l.
Proof.
  intros [Hb Hl]%list.Forall_cons. unfold be_value at 1. cbn [fold_left].
  change (Z.shiftl 0 8) with 0. rewrite Z.lor_0_l.
  destruct Hb. by apply be_value_acc.
Qed.

Lemma be_value_bounds l : Forall is_byte l → 0 <= be_value l < 256 ^ Z.of_nat (length l).
Proof.
  induction l as [|b l IH]; intros H; [done|].
  rewrite be_value_cons by done. apply list.Forall_cons in H as [[? Hb] Hl].
  specialize (IH Hl). cbn [Datatypes.length]. rewrite Nat2Z.inj_succ, Z.pow_succ_r by lia.
  change (2 ^ 8) with 256 in Hb. nia.
Qed.

(** The big-endian digits of a number: the inverse of [be_value]. *)
Fixpoint be_bytes (n : nat) (v : Z) : list Z :=
  match n with
  | O => []
  | S n' => v / 256 ^ Z.of_nat n' :: be_bytes n' (v mod 256 ^ Z.of_nat n')
  end.

Lemma be_bytes_length n v : length (be_bytes n v) = n.
Proof. revert v. induction n; intros; simpl; auto. Qed.

Lemma be_bytes_value n v :
  0 <= v < 256 ^ Z.of_nat n → Forall is_byte (be_bytes n v) ∧ be_value (be_bytes n v) = v.
Proof.
  revert v. induction n as [|n IH]; intros v Hv.
  - split; [constructor|]. cbn in *. lia.
  - cbn [be_bytes]. rewrite Nat2Z.inj_succ, Z.pow_succ_r in Hv by lia.
    assert (Hp : 0 < 256 ^ Z.of_nat n) by (apply Z.pow_pos_nonneg; lia).
    destruct (IH (v mod 256 ^ Z.of_nat n)) as [HF HV]; [by apply Z.mod_pos_bound|].
    assert (Hd : is_byte (v / 256 ^ Z.of_nat n)).
    { split; [apply Z.div_pos; lia|]. apply Z.div_lt_upper_bound; [done|]. lia. }
    split; [by apply list.Forall_cons|].
    rewrite be_value_cons, HV, be_bytes_length by (by apply list.Forall_cons).
    rewrite (Z.div_mod v (256 ^ Z.of_nat n)) at 3 by lia. lia.
Qed.

Lemma der_int_range l v : der_int l = Some v → Forall is_byte l → 0 <= v <= u32_max.
Proof.
  intros H Hl. destruct l as [|b l]; [done|]. cbn [der_int] in H.
  destruct (_ || _); [done|]. unfold u32_try_from in H.
  destruct (_ <=? _) eqn:E; simplify_eq. bool_to_prop.
  pose proof (be_value_bounds _ Hl). lia.
Qed.

(** [der_int] on the DER content octets of a [u32]. *)
Lemma der_int_be_bytes n v :
  (1 <= n <= 5)%nat → 0 <= v <= u32_max → 2 * v < 256 ^ Z.of_nat n →
  der_int (be_bytes n v) = Some v.
Proof.
  intros Hn Hv Hs.
  destruct (be_bytes_value n v) as [HF HV]; [lia|].
  destruct n as [|n]; [lia|].
  assert (Hp : 0 < 256 ^ Z.of_nat n) by (apply Z.pow_pos_nonneg; lia).
  unfold der_int. destruct (be_bytes (S n) v) as [|b l] eqn:E; [done|].
  assert (length (b :: l) = S n) as -> by (by rewrite <- E, be_bytes_length).
  rewrite (proj2 (Z.ltb_ge _ _)) by lia. cbn [orb].
  cbn [be_bytes] in E. injection E as Eb El.
  rewrite Nat2Z.inj_succ, Z.pow_succ_r in Hs by lia.
  assert (b < 128) by (subst b; apply Z.div_lt_upper_bound; lia).
  apply list.Forall_cons in HF as [[Hb0 _] _].
  assert (Z.land b 128 = 0) as ->.
  { apply Z.bits_inj'. intros i Hi. rewrite Z.land_spec, Z.bits_0.
    destruct (Z.lt_ge_cases i 7).
    - change 128 with (2 ^ 7). rewrite Z.pow2_bits_false by lia. apply andb_false_r.
    - rewrite (in_width_testbit 7 b); [done| |lia]. split; [done|]. lia. }
  cbn [negb Z.eqb]. rewrite HV. unfold u32_try_from.
  by rewrite (proj2 (Z.leb_le _ _)) by lia.
Qed.

(** ** The walker *)

Lemma tlv_header_bounds first rest len hdr :
  is_byte first → Forall is_byte rest → tlv_header first rest = Some (len, hdr) →
  0 <= len ∧ 2 <= hdr <= 2 + Z.of_nat (length rest).
Proof.
  intros Hf Hr H. unfold tlv_header in H. cbv zeta in H.
  destruct Hf as [Hf _].
  destruct (first <? 128); simplify_eq; [lia|].
  destruct (_ || _) eqn:E; simplify_eq. bool_to_prop.
  pose proof (be_value_bounds (take (Z.to_nat (Z.land first 127)) rest) ltac:(by apply Forall_take)).
  assert (0 <= Z.land first 127) by (apply Z.land_nonneg; lia). lia.
Qed.

(** Enough fuel is enough: the result does not depend on it. *)
Lemma tlvs_fuel_irrel n m buf :
  Forall is_byte buf → (length buf <= n)%nat → (length buf <= m)%nat →
  tlvs_fuel n buf = tlvs_fuel m buf.
Proof.
  revert m buf. induction n as [|n IH]; intros m buf HF Hn Hm.
  - destruct buf; [|simpl in Hn; lia]. by destruct m.
  - destruct m as [|m]; [destruct buf; [done|simpl in Hm; lia]|].
    destruct buf as [|tag [|first rest]]; [done..|]. cbn [tlvs_fuel].
    destruct (_ =? 31); [done|].
    apply list.Forall_cons in HF as [Ht HF'].
    pose proof (proj1 (list.Forall_cons _ _ _) HF') as [Hf Hr].
    destruct (tlv_header first rest) as [[len hdr]|] eqn:Hh; [|done].
    pose proof (tlv_header_bounds _ _ _ _ Hf Hr Hh).
    destruct (_ <? _); [done|]. f_equal.
    apply IH; [by apply Forall_drop, list.Forall_cons; split| |];
      rewrite length_drop; cbn [Datatypes.length] in *; lia.
Qed.

(** One step of the walker. *)
Lemma tlvs_unfold tag first rest :
  Forall is_byte (tag :: first :: rest) →
  tlvs (tag :: first :: rest) =
    if Z.land tag 0x1F =? 0x1F then []
    else match tlv_header first rest with
         | None => []
         | Some (len, hdr) =>
             if Z.of_nat (length (tag :: first :: rest)) <? hdr + len then []
             else (tag, take (Z.to_nat len) (drop (Z.to_nat hdr) (tag :: first :: rest)))
                    :: tlvs (drop (Z.to_nat (hdr + len)) (tag :: first :: rest))
         end.
Proof.
  intros HF. unfold tlvs at 1. generalize (eq_refl (length (tag :: first :: rest))).
  generalize (length (tag :: first :: rest)) at 1 3. intros [|n] Hn; [done|].
  cbn [tlvs_fuel].
  destruct (_ =? 31); [done|].
  pose proof (proj1 (list.Forall_cons _ _ _) HF) as [Ht HF'].
  pose proof (proj1 (list.Forall_cons _ _ _) HF') as [Hf Hr].
  destruct (tlv_header first rest) as [[len hdr]|] eqn:Hh; [|done].
  pose proof (tlv_header_bounds _ _ _ _ Hf Hr Hh).
  destruct (_ <? _); [done|]. f_equal.
  apply tlvs_fuel_irrel; [by apply Forall_drop|..]; rewrite length_drop;
    cbn [Datatypes.length] in *; lia.
Qed.

(** Induction along the walker: [P] on the rest gives [P] on the buffer. *)
Lemma tlvs_ind (P : list Z → list (Z * list Z) → Prop) :
  (∀ buf, Forall is_byte buf → P buf []) →
  (∀ buf tag len hdr,
     Forall is_byte buf → 0 <= len → 2 <= hdr → hdr + len <= Z.of_nat (length buf) →
     Z.land tag 0x1F ≠ 0x1F →
     P (drop (Z.to_nat (hdr + len)) buf) (tlvs (drop (Z.to_nat (hdr + len)) buf)) →
     P buf ((tag, take (Z.to_nat len) (drop (Z.to_nat hdr) buf))
              :: tlvs (drop (Z.to_nat (hdr + len)) buf))) →
  ∀ buf, Forall is_byte buf → P buf (tlvs buf).
Proof.
  intros Hnil Hcons buf. remember (length buf) as n eqn:Hn.
  revert buf Hn. induction (lt_wf n) as [n _ IH]. intros buf -> HF.
  destruct buf as [|tag [|first rest]]; [by apply Hnil..|].
  rewrite tlvs_unfold by done.
  destruct (_ =? 31) eqn:E; [by apply Hnil|]. apply Z.eqb_neq in E.
  pose proof (proj1 (list.Forall_cons _ _ _) HF) as [Ht HF'].
  pose proof (proj1 (list.Forall_cons _ _ _) HF') as [Hf Hr].
  destruct (tlv_header first rest) as [[len hdr]|] eqn:Hh; [|by apply Hnil].
  pose proof (tlv_header_bounds _ _ _ _ Hf Hr Hh).
  destruct (_ <? _) eqn:El; [by apply Hnil|]. apply Z.ltb_ge in El.
  apply Hcons; [done|lia|lia|lia|done|].
  eapply IH; [|done|by apply Forall_drop].
  rewrite length_drop; cbn [Datatypes.length] in *; lia.
Qed.

(** Every element the walker yields is a proper part of the buffer. *)
Lemma tlvs_items buf :
  Forall is_byte buf →
  Forall (λ it, (length it.2 + 2 <= length buf)%nat ∧ Forall is_byte it.2) (tlvs buf).
Proof.
  apply (tlvs_ind (λ buf l, Forall (λ it, (length it.2 + 2 <= length buf)%nat ∧
    Forall is_byte it.2) l)).
  - by constructor.
  - intros buf' tag len hdr HF Hl Hh Hle _ IH. apply list.Forall_cons; split.
    + cbn [snd]. split; [|by apply Forall_take, Forall_drop].
      rewrite length_take, length_drop. lia.
    + eapply list.Forall_impl; [exact IH|]. intros it [H1 H2]. split; [|done].
      rewrite length_drop in H1. lia.
Qed.

Lemma tlvs_item buf tag content :
  Forall is_byte buf → (tag, content) ∈ tlvs buf →
  (length content + 2 <= length buf)%nat ∧ Forall is_byte content.
Proof. intros HF. apply (proj1 (list.Forall_forall _ _) (tlvs_items _ HF)). Qed.

(** ** The DER encoder: the inverse of the walker

    [enc_tlv] is the specification's encoder: minimal definite lengths. *)

(** The number of length octets after the first, for a long-form length. *)
Definition len_octets (len : Z) : nat :=
  if len <? 2 ^ 8 then 1 else if len <? 2 ^ 16 then 2 else if len <? 2 ^ 24 then 3
  else if len <? 2 ^ 32 then 4 else if len <? 2 ^ 40 then 5 else if len <? 2 ^ 48 then 6
  else if len <? 2 ^ 56 then 7 else 8.

Definition enc_len (len : Z) : list Z :=
  if len <? 128 then [len]
  else (128 + Z.of_nat (len_octets len)) :: be_bytes (len_octets len) len.

Definition enc_tlv (tag : Z) (content : list Z) : list Z :=
  tag :: enc_len (Z.of_nat (length content)) ++ content.

Definition enc_tlvs (items : list (Z * list Z)) : list Z :=
  mjoin (map (λ it, enc_tlv it.1 it.2) items).

Lemma len_octets_spec len :
  0 <= len < 2 ^ 64 →
  (1 <= len_octets len <= 8)%nat ∧ len < 256 ^ Z.of_nat (len_octets len) ∧
  (len < 256 ∨ 256 ^ (Z.of_nat (len_octets len) - 1) <= len) ∧
  (len < 2 ^ 32 → (len_octets len <= 4)%nat).
Proof.
  intros H. unfold len_octets.
  repeat match goal with
  | |- context [if (len <? ?x) then _ else _] => destruct (Z.ltb_spec len x)
  end; lia.
Qed.

Lemma len_octets_bound len :
  0 <= len < 2 ^ 32 → (1 <= len_octets len <= 4)%nat ∧ len < 256 ^ Z.of_nat (len_octets len).
Proof. intros H. destruct (len_octets_spec len) as (? & ? & _ & ?); lia. Qed.

Lemma enc_len_bytes len : 0 <= len < 2 ^ 32 → Forall is_byte (enc_len len).
Proof.
  intros H. unfold enc_len. destruct (len <? 128) eqn:E; bool_to_prop.
  - apply list.Forall_cons; split; [split; lia|done].
  - destruct (len_octets_bound _ H). apply list.Forall_cons; split; [split; lia|].
    apply be_bytes_value. lia.
Qed.

Lemma enc_tlv_bytes tag content :
  is_byte tag → Forall is_byte content → Z.of_nat (length content) < 2 ^ 32 →
  Forall is_byte (enc_tlv tag content).
Proof.
  intros Ht Hc Hl. apply list.Forall_cons; split; [done|].
  apply Forall_app; split; [|done]. apply enc_len_bytes. lia.
Qed.

(** An element the walker can read: a single-byte tag, contents of bytes,
    at most four length octets. *)
Definition wf_item (it : Z * list Z) : Prop :=
  is_byte it.1 ∧ Z.land it.1 0x1F ≠ 0x1F ∧ Forall is_byte it.2 ∧
  Z.of_nat (length it.2) < 2 ^ 32.

Lemma land_127 n : 0 <= n < 128 → Z.land (128 + n) 127 = n.
Proof.
  intros Hn. change 127 with (Z.ones 7). rewrite Z.land_ones by lia.
  replace (128 + n) with (n + 1 * 2 ^ 7) by lia. rewrite Z.mod_add by lia.
  apply Z.mod_small. lia.
Qed.

(** The length octets are read back. *)
Lemma tlv_header_enc len rest first more :
  0 <= len < 2 ^ 32 → enc_len len = first :: more →
  tlv_header first (more ++ rest) = Some (len, 1 + Z.of_nat (length (enc_len len))).
Proof.
  intros Hlen E. unfold tlv_header, enc_len in *.
  destruct (len <? 128) eqn:E1; bool_to_prop; simplify_eq.
  - by rewrite (proj2 (Z.ltb_lt _ _)) by lia.
  - destruct (len_octets_bound _ Hlen) as [Hn Hb].
    rewrite (proj2 (Z.ltb_ge _ _)) by lia. cbv zeta. rewrite land_127 by lia.
    rewrite length_app, be_bytes_length.
    rewrite (proj2 (Z.eqb_neq _ _)), (proj2 (Z.ltb_ge _ _)), (proj2 (Z.ltb_ge _ _)) by lia.
    cbn [orb]. rewrite Nat2Z.id, take_app_length' by (by rewrite be_bytes_length).
    cbn [Datatypes.length]. rewrite be_bytes_length.
    destruct (be_bytes_value (len_octets len) len) as [_ ->]; [lia|]. do 2 f_equal. lia.
Qed.

(** One encoded element in front of any bytes is read back. *)
Lemma tlvs_enc_app tag content rest :
  wf_item (tag, content) → Forall is_byte rest →
  tlvs (enc_tlv tag content ++ rest) = (tag, content) :: tlvs rest.
Proof.
  intros (Ht & Htag & Hc & Hl) Hr. cbn [fst snd] in *.
  pose proof (enc_tlv_bytes _ _ Ht Hc Hl) as HF. unfold enc_tlv in *.
  set (len := Z.of_nat (length content)) in *.
  assert (Hne : enc_len len ≠ []) by (unfold enc_len; by destruct (_ <? _)).
  destruct (enc_len len) as [|first more] eqn:E; [done|].
  rewrite <- !app_comm_cons, tlvs_unfold.
  2:{ rewrite !app_comm_cons. apply Forall_app; by split. }
  rewrite (proj2 (Z.eqb_neq _ _) Htag).
  rewrite <- app_assoc, (tlv_header_enc len) by (done || lia). rewrite E.
  cbn [Datatypes.length]. rewrite !length_app.
  rewrite (proj2 (Z.ltb_ge _ _)) by lia.
  assert (Z.to_nat (1 + Z.of_nat (S (length more))) = length (tag :: first :: more)) as ->
    by (cbn [Datatypes.length]; lia).
  assert (Z.to_nat (1 + Z.of_nat (S (length more)) + len) =
          length ((tag :: first :: more) ++ content)) as ->
    by (rewrite length_app; cbn [Datatypes.length]; lia).
  rewrite app_assoc, !app_comm_cons, drop_app_length. rewrite <- app_assoc, drop_app_length.
  subst len. by rewrite Nat2Z.id, take_app_length.
Qed.

Lemma enc_tlvs_bytes items : Forall wf_item items → Forall is_byte (enc_tlvs items).
Proof.
  induction 1 as [|[t c] l (Ht & _ & Hc & Hl) _ IH]; [by constructor|].
  cbn. apply (Forall_app _ (_ :: _ ++ _)). split; [by apply enc_tlv_bytes|done].
Qed.

(** Round trip of the walker on a well-formed sequence of elements. *)
Lemma tlvs_enc items : Forall wf_item items → tlvs (enc_tlvs items) = items.
Proof.
  induction 1 as [|[t c] l H Hl IH]; [done|].
  cbn [enc_tlvs mjoin list_join map fst snd]. rewrite tlvs_enc_app; [|done|by apply enc_tlvs_bytes].
  f_equal. exact IH.
Qed.

Lemma tlvs_enc1 tag content : wf_item (tag, content) → tlvs (enc_tlv tag content) = [(tag, content)].
Proof.
  intros H. rewrite <- (app_nil_r (enc_tlv tag content)), tlvs_enc_app by (done || constructor).
  done.
Qed.

(** ** The extension search *)

Lemma search_items_ext rec1 rec2 oid items :
  (∀ it, it ∈ items → rec1 it.2 = rec2 it.2) →
  search_items rec1 oid items = search_items rec2 oid items.
Proof.
  induction items as [|[t c] items IH]; intros H; [done|]. cbn [search_items].
  pose proof (H (t, c) (list_elem_of_here _ _)) as Hc. cbn [snd] in Hc. rewrite Hc.
  rewrite IH; [done|]. intros it Hit. apply H. by right.
Qed.

Lemma find_extension_fuel_irrel n m buf oid :
  Forall is_byte buf → (length buf < n)%nat → (length buf < m)%nat →
  find_extension_fuel n buf oid = find_extension_fuel m buf oid.
Proof.
  revert m buf. induction n as [|n IH]; intros m buf HF Hn Hm; [lia|].
  destruct m as [|m]; [lia|]. cbn [find_extension_fuel].
  apply search_items_ext. intros [t c] Hit.
  destruct (tlvs_item _ _ _ HF Hit) as [Hlen HFc]. cbn [snd]. apply IH; [done|lia..].
Qed.

(** The recursive equation of the source. *)
Lemma find_extension_unfold buf oid :
  Forall is_byte buf →
  find_extension buf oid = search_items (λ content, find_extension content oid) oid (tlvs buf).
Proof.
  intros HF. unfold find_extension at 1. cbn [find_extension_fuel].
  apply search_items_ext. intros [t c] Hit.
  destruct (tlvs_item _ _ _ HF Hit) as [Hlen HFc]. cbn [snd].
  apply find_extension_fuel_irrel; [done|lia..].
Qed.

(** Where the extension [oid] sits in nested DER: at this level, or inside a
    constructed element. *)
Inductive extension_in (oid : list Z) : list Z → list Z → Prop :=
| ext_here buf tag content value :
    (tag, content) ∈ tlvs buf → extension_value tag content oid = Some value →
    extension_in oid buf value
| ext_inside buf tag content value :
    (tag, content) ∈ tlvs buf → is_constructed tag = true →
    extension_in oid content value → extension_in oid buf value.

Lemma search_items_sound rec oid items value :
  search_items rec oid items = Some value →
  ∃ tag content, (tag, content) ∈ items ∧
    (extension_value tag content oid = Some value ∨
     is_constructed tag = true ∧ rec content = Some value).
Proof.
  induction items as [|[t c] items IH]; intros H; [done|]. cbn [search_items] in H.
  destruct (extension_value t c oid) as [v|] eqn:E1; simplify_eq.
  { exists t, c. split; [left|by left]. }
  destruct (if is_constructed t then rec c else None) as [v|] eqn:E2; simplify_eq.
  - exists t, c. split; [left|right]. by destruct (is_constructed t).
  - destruct (IH H) as (t' & c' & Hin & Hv). exists t', c'. split; [by right|done].
Qed.

Lemma search_items_none rec oid items :
  search_items rec oid items = None →
  ∀ tag content, (tag, content) ∈ items →
    extension_value tag content oid = None ∧
    (is_constructed tag = true → rec content = None).
Proof.
  induction items as [|[t c] items IH]; intros H tag content Hin;
    [by apply not_elem_of_nil in Hin|].
  cbn [search_items] in H.
  destruct (extension_value t c oid) as [v|] eqn:E1; [done|].
  destruct (if is_constructed t then rec c else None) as [v|] eqn:E2; [done|].
  apply elem_of_cons in Hin as [Heq|Hin]; [|by apply IH].
  simplify_eq. split; [done|]. intros Hc. by rewrite Hc in E2.
Qed.

(** What the search returns is an extension of the certificate. *)
Lemma find_extension_sound buf oid value :
  Forall is_byte buf → find_extension buf oid = Some value → extension_in oid buf value.
Proof.
  remember (length buf) as n eqn:Hn. revert buf value Hn.
  induction (lt_wf n) as [n _ IH]. intros buf value -> HF H.
  rewrite find_extension_unfold in H by done.
  destruct (search_items_sound _ _ _ _ H) as (t & c & Hin & [Hv|[Hc Hv]]).
  - by eapply ext_here.
  - destruct (tlvs_item _ _ _ HF Hin) as [Hlen HFc].
    eapply ext_inside; [done..|]. eapply IH; [|done..]. lia.
Qed.

(** An extension at any depth is found: the search fails only when there is
    none. *)
Lemma find_extension_complete buf oid :
  Forall is_byte buf → find_extension buf oid = None → ∀ value, ¬ extension_in oid buf value.
Proof.
  intros HF H value Hin. revert HF H.
  induction Hin as [buf tag content value Hin Hv|buf tag content value Hin Hc _ IH];
    intros HF H; rewrite find_extension_unfold in H by done;
    destruct (search_items_none _ _ _ H _ _ Hin) as [H1 H2].
  - congruence.
  - apply IH; [by apply (tlvs_item _ _ _ HF Hin)|by apply H2].
Qed.

(** the search for the SGX extension is exact: it returns an extension
    with the OID iff the certificate holds one at some depth. *)
Theorem find_extension_exact buf oid :
  Forall is_byte buf →
  (∀ value, find_extension buf oid = Some value → extension_in oid buf value) ∧
  ((∃ value, extension_in oid buf value) → is_Some (find_extension buf oid)).
Proof.
  intros HF. split; [intros value; by apply find_extension_sound|].
  intros [value Hv]. destruct (find_extension buf oid) eqn:E; [by eexists|].
  by apply (find_extension_complete _ _ HF E) in Hv.
Qed.

(** ** The SGX extension as Intel encodes it *)

(** One [SEQUENCE { OID, value }]. *)
Definition oid_entry (oid : list Z) (tag : Z) (value : list Z) : Z * list Z :=
  (0x30, enc_tlvs [(0x06, oid); (tag, value)]).

Record sgx_ext := {
  x_ppid : list Z; x_svns : list Z; x_pcesvn : Z; x_pcesvn_octets : nat;
  x_cpusvn : list Z; x_pceid : list Z; x_fmspc : list Z
}.

Definition tcb_entries (e : sgx_ext) : list (Z * list Z) :=
  imap (λ i svn, oid_entry (sub_oid 0x02 ++ [Z.of_nat i + 1]) 0x02 [svn]) (x_svns e) ++
  [ oid_entry (sub_oid 0x02 ++ [17]) 0x02 (be_bytes (x_pcesvn_octets e) (x_pcesvn e));
    oid_entry (sub_oid 0x02 ++ [18]) 0x04 (x_cpusvn e) ].

Definition sgx_entries (e : sgx_ext) : list (Z * list Z) :=
  [ oid_entry (sub_oid 0x01) 0x04 (x_ppid e);
    oid_entry (sub_oid 0x02) 0x30 (enc_tlvs (tcb_entries e));
    oid_entry (sub_oid 0x03) 0x04 (x_pceid e);
    oid_entry (sub_oid 0x04) 0x04 (x_fmspc e);
    oid_entry (sub_oid 0x05) 0x0A [0] ].

Definition enc_sgx (e : sgx_ext) : list Z := enc_tlv 0x30 (enc_tlvs (sgx_entries e)).

(** Field sizes: byte strings of at most 64 bytes, sixteen component SVNs, a
    [u32] PCESVN in its DER width. *)
Definition short_bytes (l : list Z) : Prop := Forall is_byte l ∧ (length l <= 64)%nat.

Record wf_sgx (e : sgx_ext) : Prop := {
  wf_ppid : short_bytes (x_ppid e);
  wf_svns : Forall is_byte (x_svns e);
  wf_svn_count : length (x_svns e) = 16%nat;
  wf_octets : (1 <= x_pcesvn_octets e <= 5)%nat;
  wf_pcesvn : 0 <= x_pcesvn e <= u32_max;
  wf_positive : 2 * x_pcesvn e < 256 ^ Z.of_nat (x_pcesvn_octets e);
  wf_cpusvn : short_bytes (x_cpusvn e);
  wf_pceid : short_bytes (x_pceid e);
  wf_fmspc : short_bytes (x_fmspc e)
}.

Lemma enc_len_length len : (length (enc_len len) <= 9)%nat.
Proof.
  unfold enc_len, len_octets. repeat case_match; cbn [Datatypes.length];
    rewrite ?be_bytes_length; lia.
Qed.

Lemma enc_tlv_length tag c : (length (enc_tlv tag c) <= length c + 10)%nat.
Proof.
  unfold enc_tlv. cbn [Datatypes.length]. rewrite length_app.
  pose proof (enc_len_length (Z.of_nat (length c))). lia.
Qed.

Lemma enc_tlvs_length k items :
  Forall (λ it, (length it.2 <= k)%nat) items →
  (length (enc_tlvs items) <= length items * (k + 10))%nat.
Proof.
  induction 1 as [|[t c] l Hc _ IH]; [simpl; lia|].
  change (enc_tlvs ((t, c) :: l)) with (enc_tlv t c ++ enc_tlvs l).
  rewrite length_app. pose proof (enc_tlv_length t c). cbn [Datatypes.length snd] in *. lia.
Qed.

(** A small element with an ordinary tag. *)
Lemma wf_item_small tag c :
  is_byte tag → Z.land tag 0x1F ≠ 0x1F → Forall is_byte c → (length c <= 4096)%nat →
  wf_item (tag, c).
Proof. intros. split; [done|]. split; [done|]. split; [done|]. cbn [snd]. lia. Qed.

Lemma oid_entry_wf oid tag v :
  is_byte tag → Z.land tag 0x1F ≠ 0x1F →
  Forall is_byte oid → (length oid <= 64)%nat → Forall is_byte v → (length v <= 3000)%nat →
  Forall wf_item [(0x06, oid); (tag, v)] ∧
  wf_item (oid_entry oid tag v) ∧ (length (snd (oid_entry oid tag v)) <= length v + 84)%nat.
Proof.
  intros. assert (HF : Forall wf_item [(0x06, oid); (tag, v)]).
  { apply list.Forall_cons; split; [|apply list.Forall_singleton];
      (apply wf_item_small; [| |done|lia]); try done; by split. }
  assert (Hl : (length (snd (oid_entry oid tag v)) <= length v + 84)%nat).
  { cbn [oid_entry snd enc_tlvs mjoin list_join map fst]. rewrite !length_app.
    pose proof (enc_tlv_length 0x06 oid). pose proof (enc_tlv_length tag v). cbn [Datatypes.length]. lia. }
  split; [done|]. split; [|done].
  apply wf_item_small; [done..|by apply enc_tlvs_bytes|]. cbn [oid_entry snd] in Hl. lia.
Qed.

(** What the reader of one entry sees. *)
Lemma oid_entry_read oid tag v :
  is_byte tag → Z.land tag 0x1F ≠ 0x1F →
  Forall is_byte oid → (length oid <= 64)%nat → Forall is_byte v → (length v <= 3000)%nat →
  tlvs (snd (oid_entry oid tag v)) = [(0x06, oid); (tag, v)].
Proof. intros. apply tlvs_enc. by apply oid_entry_wf. Qed.

Lemma oid_bytes l : forallb (λ b, (0 <=? b) && (b <? 256)) l = true → Forall is_byte l.
Proof.
  intros H. apply list.Forall_forall. intros b Hb. apply list_elem_of_In in Hb.
  apply (proj1 (forallb_forall _ _) H) in Hb. bool_to_prop. split; lia.
Qed.

Lemma tcb_entries_wf e :
  wf_sgx e →
  Forall (λ it, wf_item it ∧ (length it.2 <= 148)%nat) (tcb_entries e) ∧
  length (tcb_entries e) = 18%nat.
Proof.
  intros [_ Hs Hn Ho Hp Hpos [Hc Hcl] _ _]. unfold tcb_entries. split.
  - apply Forall_app; split.
    + apply list.Forall_forall. intros it (i & svn & -> & Hi)%elem_of_lookup_imap_1.
      pose proof (lookup_lt_Some _ _ _ Hi).
      assert (is_byte svn) by (eapply list.Forall_forall; [exact Hs|by eapply list_elem_of_lookup_2]).
      destruct (oid_entry_wf (sub_oid 2 ++ [Z.of_nat i + 1]) 2 [svn]) as (_ & ? & ?); try done.
      { apply Forall_app; split; [by apply oid_bytes|]. apply list.Forall_singleton. split; lia. }
      { simpl. lia. } { by apply list.Forall_singleton. } { simpl. lia. }
      split; [done|]. cbn [Datatypes.length] in *. lia.
    + destruct (be_bytes_value (x_pcesvn_octets e) (x_pcesvn e)) as [Hb _]; [lia|].
      destruct (oid_entry_wf (sub_oid 2 ++ [17]) 2 (be_bytes (x_pcesvn_octets e) (x_pcesvn e)))
        as (_ & ? & Hl1); try done; [by apply oid_bytes|simpl; lia|rewrite be_bytes_length; lia|].
      destruct (oid_entry_wf (sub_oid 2 ++ [18]) 4 (x_cpusvn e))
        as (_ & ? & Hl2); try done; [by apply oid_bytes|simpl; lia|lia|].
      rewrite be_bytes_length in Hl1.
      apply list.Forall_cons; split; [split; [done|lia]|].
      apply list.Forall_singleton. split; [done|lia].
  - rewrite length_app, length_imap, Hn. done.
Qed.

(** The reader of the TCB sequence recovers PCESVN and CPUSVN. *)
Lemma tcb_entries_read e :
  wf_sgx e →
  Forall is_byte (enc_tlvs (tcb_entries e)) ∧ (length (enc_tlvs (tcb_entries e)) <= 3000)%nat ∧
  tlvs (enc_tlvs (tcb_entries e)) = tcb_entries e ∧
  tcb_field (tcb_entries e) 16 = Some (0x02, be_bytes (x_pcesvn_octets e) (x_pcesvn e)) ∧
  tcb_field (tcb_entries e) 17 = Some (0x04, x_cpusvn e).
Proof.
  intros H. destruct (tcb_entries_wf e H) as [HF Hn].
  assert (HF1 : Forall wf_item (tcb_entries e)) by (eapply list.Forall_impl; [exact HF|by intros ? []]).
  assert (HF2 : Forall (λ it, (length it.2 <= 148)%nat) (tcb_entries e))
    by (eapply list.Forall_impl; [exact HF|by intros ? []]).
  split_and!; [by apply enc_tlvs_bytes| |by apply tlvs_enc| |].
  { apply enc_tlvs_length in HF2. rewrite Hn in HF2. lia. }
  all: destruct H as [_ Hs Hl Ho Hp Hpos [Hc Hcl] _ _]; unfold tcb_field, tcb_entries;
    rewrite lookup_app_r by (rewrite length_imap; lia); rewrite length_imap, Hl;
    cbn [mbind option_bind lookup list_lookup Nat.sub];
    rewrite oid_entry_read; try done; try (by apply oid_bytes); try (simpl; lia); try lia.
  - apply be_bytes_value. lia.
  - rewrite be_bytes_length. lia.
Qed.

Definition fields_of (e : sgx_ext) : sgx_fields :=
  {| f_fmspc := hex_encode_upper (x_fmspc e); f_pce_id := hex_encode_upper (x_pceid e);
     f_ppid := hex_encode_upper (x_ppid e); f_cpusvn := hex_encode_upper (x_cpusvn e);
     f_pcesvn := Some (x_pcesvn e) |}.

Lemma sgx_entries_wf e :
  wf_sgx e → Forall (λ it, wf_item it ∧ (length it.2 <= 3084)%nat) (sgx_entries e).
Proof.
  intros H. destruct (tcb_entries_read e H) as (Ht & Htl & _).
  destruct H as [[? ?] _ _ _ _ _ _ [? ?] [? ?]].
  repeat (apply list.Forall_cons; split); [..|by constructor].
  all: match goal with |- wf_item (oid_entry ?o ?t ?v) ∧ _ =>
      destruct (oid_entry_wf o t v) as (_ & ? & ?) end;
    try done; try (by apply oid_bytes); try (simpl; lia); try lia; split; try done;
    try lia; cbn [Datatypes.length] in *; lia.
Qed.

Lemma sgx_item_entry acc oid tag v :
  is_byte tag → Z.land tag 0x1F ≠ 0x1F →
  Forall is_byte oid → (length oid <= 64)%nat → Forall is_byte v → (length v <= 3000)%nat →
  sgx_item acc (oid_entry oid tag v) = sgx_field acc oid v.
Proof.
  intros. unfold sgx_item. rewrite (surjective_pairing (oid_entry oid tag v)).
  change (fst (oid_entry oid tag v)) with 0x30. cbn [Z.eqb Pos.eqb negb].
  by rewrite oid_entry_read.
Qed.

Lemma sgx_field_tcb acc e :
  wf_sgx e →
  sgx_field acc (sub_oid 0x02) (enc_tlvs (tcb_entries e)) =
    Ok {| f_fmspc := f_fmspc acc; f_pce_id := f_pce_id acc; f_ppid := f_ppid acc;
          f_pcesvn := Some (x_pcesvn e); f_cpusvn := hex_encode_upper (x_cpusvn e) |}.
Proof.
  intros H. destruct (tcb_entries_read e H) as (_ & _ & Hr & Hf1 & Hf2).
  destruct (tcb_entries_wf e H) as [_ Hn].
  unfold sgx_field. rewrite 3!decide_False, decide_True by done. cbv zeta.
  rewrite Hr, Hn, Hf1, Hf2. cbn [mbind option_bind snd default].
  by rewrite der_int_be_bytes by apply H.
Qed.

Lemma sgx_fold e :
  wf_sgx e → try_fold sgx_item no_sgx_fields (sgx_entries e) = Ok (fields_of e).
Proof.
  intros H. destruct (tcb_entries_read e H) as (Ht & Htl & _).
  pose proof H as [[? ?] _ _ ? ? ? _ [? ?] [? ?]].
  assert (Hstep : ∀ acc oid tag v acc', is_byte tag → Z.land tag 0x1F ≠ 0x1F →
    Forall is_byte oid → (length oid <= 64)%nat → Forall is_byte v → (length v <= 3000)%nat →
    sgx_field acc oid v = Ok acc' → sgx_item acc (oid_entry oid tag v) = Ok acc')
    by (intros; by rewrite sgx_item_entry).
  unfold sgx_entries.
  erewrite try_fold_cons.
  2:{ apply Hstep; try done; [by apply oid_bytes|simpl; lia|lia]. }
  erewrite try_fold_cons.
  2:{ apply Hstep; try done; [by apply oid_bytes|simpl; lia|]. by apply sgx_field_tcb. }
  erewrite try_fold_cons.
  2:{ apply Hstep; try done; [by apply oid_bytes|simpl; lia|lia]. }
  erewrite try_fold_cons.
  2:{ apply Hstep; try done; [by apply oid_bytes|simpl; lia|lia]. }
  erewrite try_fold_cons.
  2:{ apply Hstep; try done; [by apply oid_bytes|simpl; lia|by apply oid_bytes|simpl; lia]. }
  done.
Qed.

(** ** [parse_pck_cert] *)

Lemma enc_sgx_read e :
  wf_sgx e →
  tlvs (enc_sgx e) = [(0x30, enc_tlvs (sgx_entries e))] ∧
  tlvs (enc_tlvs (sgx_entries e)) = sgx_entries e.
Proof.
  intros H. pose proof (sgx_entries_wf e H) as HF.
  assert (HF1 : Forall wf_item (sgx_entries e)) by (eapply list.Forall_impl; [exact HF|by intros ? []]).
  assert (HF2 : Forall (λ it, (length it.2 <= 3084)%nat) (sgx_entries e))
    by (eapply list.Forall_impl; [exact HF|by intros ? []]).
  split; [|by apply tlvs_enc]. apply tlvs_enc1.
  split_and!; [done..|by apply enc_tlvs_bytes|].
  apply enc_tlvs_length in HF2. cbn [snd sgx_entries Datatypes.length] in *. lia.
Qed.

Lemma hex_encode_upper_nonempty l : l ≠ [] → is_empty (hex_encode_upper l) = false.
Proof. destruct l; [done|]. by rewrite hex_encode_upper_cons. Qed.

(** C37: a certificate whose SGX extension is laid out as Intel lays it out is
    read back field by field: the PPID, CPUSVN, PCEID and FMSPC are the
    upper-case hex of their octets, the PCESVN is its integer (not clamped to
    a byte), the version is one more than its DER value. *)
Theorem parse_pck_cert_roundtrip `{Base64} (pem : string) (der cert tbs v : list Z)
    (raw : Z) (kid1 kid2 : Z * list Z) (issuer : list Z) (more : list (Z * list Z)) (e : sgx_ext) :
  pem_to_der pem = Some der →
  find_tag 0x30 (tlvs der) = Some cert →
  find_tag 0x30 (tlvs cert) = Some tbs →
  tlvs tbs = (0xA0, v) :: kid1 :: kid2 :: (0x30, issuer) :: more →
  tlvs v = [(0x02, [raw])] → 0 <= raw < 128 →
  find_extension der SGX_EXT_OID = Some (enc_sgx e) →
  wf_sgx e → x_cpusvn e ≠ [] → x_fmspc e ≠ [] → x_pceid e ≠ [] →
  parse_pck_cert pem =
    Ok {| version := raw + 1; fmspc := hex_encode_upper (x_fmspc e);
          pce_id := hex_encode_upper (x_pceid e); ppid := hex_encode_upper (x_ppid e);
          cpusvn := hex_encode_upper (x_cpusvn e); pcesvn := x_pcesvn e;
          ca := issuer_ca issuer |}.
Proof.
  intros Hpem Hcert Htbs Hkids Hv Hraw Hext Hwf H1 H2 H3. unfold parse_pck_cert. unfold_result.
  rewrite Hpem, Hcert, Htbs. cbv zeta. rewrite Hkids. cbn [version_and_issuer].
  rewrite Hv. cbn [find_tag Z.eqb Pos.eqb mbind option_bind ok_or].
  assert (der_int [raw] = Some raw) as ->.
  { replace [raw] with (be_bytes 1 raw) by (cbn; by rewrite Z.div_1_r).
    apply (der_int_be_bytes 1 raw); [lia|unfold u32_max; lia|simpl; lia]. }
  cbn [lookup list_lookup mbind option_bind default snd].
  rewrite Hext. destruct (enc_sgx_read e Hwf) as [-> ->].
  rewrite sgx_fold by done. cbn [f_pcesvn f_cpusvn f_fmspc f_pce_id f_ppid fields_of ok_or].
  rewrite !hex_encode_upper_nonempty by done. cbn [orb].
  cbn [mbind result_bind]. rewrite wrap_small by (split; lia). done.
Qed.

Import Concrete.

(** The repository's fixture [tests/fixtures/pck-synthetic.pem]. *)
Definition synthetic_pem : string :=
"-----BEGIN CERTIFICATE-----
MIICPDCCAjOgAwIBAgIBATAKBggqhkjOPQQDAjAkMSIwIAYDVQQDDBlJbnRlbCBT
R1ggUENLIFBsYXRmb3JtIENBMAAwJDEiMCAGA1UEAwwZSW50ZWwgU0dYIFBDSyBD
ZXJ0aWZpY2F0ZTAAo4IByzCCAccwggHDBgkqhkiG+E0BDQEEggG0MIIBsDAeBgoq
hkiG+E0BDQEBBBARERERERERERERERERERERMBAGCiqGSIb4TQENAQMEAkREMBQG
CiqGSIb4TQENAQQEBhI0VniQqzCCAWQGCiqGSIb4TQENAQIwggFUMBAGCyqGSIb4
TQENAQIBAgEiMBAGCyqGSIb4TQENAQICAgEiMBAGCyqGSIb4TQENAQIDAgEiMBAG
CyqGSIb4TQENAQIEAgEiMBAGCyqGSIb4TQENAQIFAgEiMBAGCyqGSIb4TQENAQIG
AgEiMBAGCyqGSIb4TQENAQIHAgEiMBAGCyqGSIb4TQENAQIIAgEiMBAGCyqGSIb4
TQENAQIJAgEiMBAGCyqGSIb4TQENAQIKAgEiMBAGCyqGSIb4TQENAQILAgEiMBAG
CyqGSIb4TQENAQIMAgEiMBAGCyqGSIb4TQENAQINAgEiMBAGCyqGSIb4TQENAQIO
AgEiMBAGCyqGSIb4TQENAQIPAgEiMBAGCyqGSIb4TQENAQIQAgEiMBEGCyqGSIb4
TQENAQIRAgIzMzAfBgsqhkiG+E0BDQECEgQQIiIiIiIiIiIiIiIiIiIiIjAAAwEA
-----END CERTIFICATE-----
".

(** The same certificate with the extension's entries in Intel's order. *)
Definition intel_order_pem : string :=
"-----BEGIN CERTIFICATE-----
MIICTTCCAkSgAwIBAgIBATAKBggqhkjOPQQDAjAkMSIwIAYDVQQDDBlJbnRlbCBT
R1ggUENLIFBsYXRmb3JtIENBMAAwJDEiMCAGA1UEAwwZSW50ZWwgU0dYIFBDSyBD
ZXJ0aWZpY2F0ZTAAo4IB3DCCAdgwggHUBgkqhkiG+E0BDQEEggHFMIIBwTAeBgoq
hkiG+E0BDQEBBBARERERERERERERERERERERMIIBZAYKKoZIhvhNAQ0BAjCCAVQw
EAYLKoZIhvhNAQ0BAgECASIwEAYLKoZIhvhNAQ0BAgICASIwEAYLKoZIhvhNAQ0B
AgMCASIwEAYLKoZIhvhNAQ0BAgQCASIwEAYLKoZIhvhNAQ0BAgUCASIwEAYLKoZI
hvhNAQ0BAgYCASIwEAYLKoZIhvhNAQ0BAgcCASIwEAYLKoZIhvhNAQ0BAggCASIw
EAYLKoZIhvhNAQ0BAgkCASIwEAYLKoZIhvhNAQ0BAgoCASIwEAYLKoZIhvhNAQ0B
AgsCASIwEAYLKoZIhvhNAQ0BAgwCASIwEAYLKoZIhvhNAQ0BAg0CASIwEAYLKoZI
hvhNAQ0BAg4CASIwEAYLKoZIhvhNAQ0BAg8CASIwEAYLKoZIhvhNAQ0BAhACASIw
EQYLKoZIhvhNAQ0BAhECAjMzMB8GCyqGSIb4TQENAQISBBAiIiIiIiIiIiIiIiIi
IiIiMBAGCiqGSIb4TQENAQMEAkREMBQGCiqGSIb4TQENAQQEBhI0VniQqzAPBgoq
hkiG+E0BDQEFCgEAMAADAQA=
-----END CERTIFICATE-----
".

Definition synthetic_ext : sgx_ext :=
  {| x_ppid := replicate 16 0x11; x_svns := replicate 16 0x22; x_pcesvn := 0x3333;
     x_pcesvn_octets := 2; x_cpusvn := replicate 16 0x22; x_pceid := [0x44; 0x44];
     x_fmspc := [0x12; 0x34; 0x56; 0x78; 0x90; 0xAB] |}.

Definition synthetic_info : PckCertInfo :=
  {| version := 3; fmspc := "1234567890AB"; pce_id := "4444";
     ppid := "11111111111111111111111111111111";
     cpusvn := "22222222222222222222222222222222"; pcesvn := 0x3333; ca := "PLATFORM" |}.

Example parse_synthetic : parse_pck_cert synthetic_pem = Ok synthetic_info.
Proof. vm_compute. reflexivity. Qed.

Lemma synthetic_ext_wf : wf_sgx synthetic_ext.
Proof.
  split; try (split; [apply oid_bytes; reflexivity|vm_compute; lia]);
    try (apply oid_bytes; reflexivity); try reflexivity; cbn; unfold u32_max; lia.
Qed.

Definition item_at (l : list (Z * list Z)) (i : nat) : Z * list Z := default (0, []) (l !! i).
Definition intel_der : list Z := default [] (pem_to_der intel_order_pem).
Definition intel_tbs : list Z := snd (item_at (tlvs (snd (item_at (tlvs intel_der) 0))) 0).

Lemma parse_pck_cert_roundtrip_witness :
  parse_pck_cert intel_order_pem = Ok synthetic_info.
Proof.
  refine (parse_pck_cert_roundtrip intel_order_pem intel_der (snd (item_at (tlvs intel_der) 0))
            intel_tbs (snd (item_at (tlvs intel_tbs) 0)) 2 (item_at (tlvs intel_tbs) 1)
            (item_at (tlvs intel_tbs) 2) (snd (item_at (tlvs intel_tbs) 3))
            (drop 4 (tlvs intel_tbs)) synthetic_ext
            _ _ _ _ _ _ _ synthetic_ext_wf _ _ _);
    try (vm_compute; reflexivity); try discriminate; lia.
Defined.

Lemma find_extension_exact_witness :
  (∀ value, find_extension intel_der SGX_EXT_OID = Some value →
     extension_in SGX_EXT_OID intel_der value) ∧
  ((∃ value, extension_in SGX_EXT_OID intel_der value) →
     is_Some (find_extension intel_der SGX_EXT_OID)).
Proof. apply find_extension_exact, oid_bytes. vm_compute. reflexivity. Defined.
