(* ===== verification/V8Sort.v ===== *)
(** * V8Sort: the run detection and binary insertion sort of
    [selection::v8_sort_desc] (src/src/selection.rs)

    The routine is polymorphic in the elements and in the comparator, as in
    the source only the comparator knows what a bucket is.  An index out of
    bounds would panic: [None].  Nothing is assumed about the comparator but
    antisymmetry of its sign; it need not be transitive. *)

From Stdlib Require Import ZArith Lia Sorting.Sorted Relations.
From stdpp Require Import base list option.
From S2P Require Import Prelude.

Local Open Scope Z_scope.

Section v8.
Context {A : Type} (cmp : A → A → Z).

(** [while run < len && p(buckets[run], buckets[run - 1]) { run += 1 }]:
    how many elements of [rest] extend the run that ends in [prev]. *)
Fixpoint extend_run (p : A → A → bool) (prev : A) (rest : list A) : nat :=
  match rest with
  | [] => 0
  | x :: rest' => if p x prev then S (extend_run p x rest') else 0
  end.

(** V8 [countAndMakeRunAscending]: the length of the initial run and the
    array with that run made ascending. *)
Definition make_run_ascending (l : list A) : nat * list A :=
  match l with
  | a :: b :: rest =>
      if cmp b a <? 0 then
        let run := (2 + extend_run (λ x y, (cmp x y <? 0)%Z) b rest)%nat in
        (run, reverse (take run l) ++ drop run l)
      else ((1 + extend_run (λ x y, (0 <=? cmp x y)%Z) a (b :: rest))%nat, l)
  | _ => (length l, l)
  end.

(** The binary search of one insertion; [right - left] strictly decreases,
    so [S start] is enough fuel ([search_total]). *)
Fixpoint search (fuel : nat) (l : list A) (pivot : A) (left right : nat) : option nat :=
  match fuel with
  | O => None
  | S fuel' =>
      if (left <? right)%nat then
        let mid := (left + (right - left) / 2)%nat in
        x ← l !! mid;
        if cmp pivot x <? 0 then search fuel' l pivot left mid
        else search fuel' l pivot (mid + 1)%nat right
      else Some left
  end.

(** [buckets[left..=start].rotate_right(1)] *)
Definition rotate_right1 (l : list A) (left start : nat) : option (list A) :=
  pivot ← l !! start;
  Some (take left l ++ pivot :: drop left (take start l) ++ drop (S start) l).

Definition insert_at (l : list A) (start : nat) : option (list A) :=
  pivot ← l !! start;
  left ← search (S start) l pivot 0 start;
  rotate_right1 l left start.

(** [for start in run..len] *)
Fixpoint insert_from (n : nat) (start : nat) (l : list A) : option (list A) :=
  match n with
  | O => Some l
  | S n' => l' ← insert_at l start; insert_from n' (S start) l'
  end.

Definition v8_sort_desc (l : list A) : option (list A) :=
  if (length l <? 2)%nat then Some l
  else
    let '(run, l') := make_run_ascending l in
    insert_from (length l - run) run l'.

(** ** What the routine guarantees

    [ok x y]: [y] may follow [x], i.e. the pair is not inverted. *)
Definition ok (x y : A) : Prop := 0 <= cmp y x.

Context (cmp_antisym : ∀ x y, cmp x y < 0 → 0 <= cmp y x).

(** *** The initial run *)

Lemma extend_run_le p prev rest : (extend_run p prev rest <= length rest)%nat.
Proof.
  revert prev. induction rest as [|x rest IH]; intros prev; simpl; [lia|].
  destruct (p x prev); [|lia]. specialize (IH x). lia.
Qed.

Lemma extend_run_sorted p (R : A → A → Prop) prev rest :
  (∀ x y, p x y = true → R y x) →
  Sorted R (prev :: take (extend_run p prev rest) rest).
Proof.
  intros Hp. revert prev. induction rest as [|x rest IH]; intros prev; simpl.
  - repeat constructor.
  - destruct (p x prev) eqn:E; [|repeat constructor].
    constructor; [apply IH|]. constructor. by apply Hp.
Qed.

Lemma sorted_snoc (R : A → A → Prop) l x :
  Sorted R l → (∀ y, list.last l = Some y → R y x) → Sorted R (l ++ [x]).
Proof.
  induction l as [|a l IH]; intros Hs Hl; [repeat constructor|].
  inversion_clear Hs as [|? ? Hs' Hhd]. simpl. constructor.
  - apply IH; [done|]. intros y Hy. apply Hl. by destruct l.
  - destruct l as [|b l]; simpl; constructor; [by apply Hl|]. by inversion Hhd.
Qed.

Lemma sorted_reverse (R : A → A → Prop) l : Sorted R l → Sorted (flip R) (reverse l).
Proof.
  induction 1 as [|a l Hs IH Hhd]; [constructor|].
  rewrite reverse_cons. apply sorted_snoc; [done|].
  intros y Hy. rewrite last_reverse in Hy. destruct Hhd; simplify_eq/=. done.
Qed.

Lemma make_run_spec l run l' :
  (2 <= length l)%nat → make_run_ascending l = (run, l') →
  (1 <= run <= length l)%nat ∧ l' ≡ₚ l ∧ length l' = length l ∧ Sorted ok (take run l').
Proof using cmp_antisym.
  intros Hl H. destruct l as [|a [|b rest]]; simpl in Hl; [lia..|].
  unfold make_run_ascending in H. cbv zeta in H. destruct (cmp b a <? 0) eqn:E.
  - pose proof (extend_run_le (λ x y, (cmp x y <? 0)%Z) b rest).
    set (k := extend_run _ b rest) in *. apply pair_equal_spec in H as [<- <-].
    set (l := a :: b :: rest) in *.
    assert (Hlen : length (take (2 + k) l) = (2 + k)%nat)
      by (rewrite length_take; subst l; simpl; lia).
    split_and!; [lia|simpl; lia| | |].
    + by rewrite reverse_Permutation, take_drop.
    + rewrite length_app, length_reverse, <- length_app, take_drop. done.
    + rewrite take_app_length' by (by rewrite length_reverse, Hlen).
      change (take (2 + k) l) with (a :: b :: take k rest).
      apply sorted_reverse. unfold ok, flip.
      assert (HS : Sorted (λ x y, cmp y x < 0) (a :: b :: take k rest)).
      { constructor; [|constructor; by apply Z.ltb_lt].
        apply extend_run_sorted. intros x y Hxy. by apply Z.ltb_lt. }
      clear -HS cmp_antisym. induction HS as [|x xs _ IH Hd]; [constructor|].
      constructor; [done|]. destruct Hd; constructor. by apply cmp_antisym.
  - pose proof (extend_run_le (λ x y, (0 <=? cmp x y)%Z) a (b :: rest)).
    apply pair_equal_spec in H as [<- <-].
    split_and!; [lia|simpl in *; lia|done|done|].
    change (take (1 + ?n) (a :: b :: rest)) with (a :: take n (b :: rest)).
    apply (extend_run_sorted (λ x y, (0 <=? cmp x y)%Z)). intros x y Hxy. by apply Z.leb_le.
Qed.

(** *** One insertion *)

(** The search ends, between its bounds, at a place where the pivot fits:
    not inverted with its left neighbour and strictly before its right
    one.  No transitivity is needed: both neighbours were compared. *)
Lemma search_total fuel l pivot left right :
  (right - left < fuel)%nat → (left <= right <= length l)%nat →
  (∀ y, (0 < left)%nat → l !! (left - 1)%nat = Some y → 0 <= cmp pivot y) →
  (∀ y, l !! right = Some y → (right < length l)%nat → cmp pivot y < 0 ∨ y = pivot) →
  ∃ k, search fuel l pivot left right = Some k ∧ (left <= k <= right)%nat ∧
    (∀ y, (0 < k)%nat → l !! (k - 1)%nat = Some y → 0 <= cmp pivot y) ∧
    (∀ y, l !! k = Some y → cmp pivot y < 0 ∨ y = pivot).
Proof.
  revert left right. induction fuel as [|fuel IH]; intros left right Hf Hb Hl Hr; [lia|].
  cbn [search]. destruct (left <? right)%nat eqn:E; bool_to_prop.
  - cbv zeta. set (mid := (left + (right - left) / 2)%nat).
    assert (Hmid : (left <= mid < right)%nat).
    { subst mid. pose proof (Nat.div_lt (right - left) 2). lia. }
    destruct (lookup_lt_is_Some_2 l mid) as [x Hx]; [lia|]. rewrite Hx. cbn [mbind option_bind].
    destruct (cmp pivot x <? 0) eqn:Ec; bool_to_prop.
    + destruct (IH left mid) as (k & ? & ? & ? & ?); [lia|lia|done| |].
      { intros y Hy _. simplify_eq. by left. }
      exists k. split_and!; [done|lia|lia|done|done].
    + destruct (IH (mid + 1)%nat right) as (k & ? & ? & ? & ?); [lia|lia| |done|].
      { intros y _. rewrite Nat.add_sub. intros Hy. by simplify_eq. }
      exists k. split_and!; [done|lia|lia|done|done].
  - assert (left = right) as -> by lia. exists right.
    split_and!; [done|lia|lia|done|].
    intros y Hy. apply Hr; [done|]. by apply lookup_lt_Some in Hy.
Qed.

Lemma rotate_right1_take l left start pivot :
  l !! start = Some pivot → (left <= start)%nat →
  ∃ l', rotate_right1 l left start = Some l' ∧ l' ≡ₚ l ∧ length l' = length l ∧
    take (S start) l' = take left l ++ pivot :: drop left (take start l).
Proof.
  intros Hp Hle. pose proof (lookup_lt_Some _ _ _ Hp).
  unfold rotate_right1. rewrite Hp. cbn [mbind option_bind].
  eexists. split; [done|].
  assert (HP : take left l ++ pivot :: drop left (take start l) ++ drop (S start) l ≡ₚ l).
  { rewrite <- (take_drop_middle l start pivot Hp) at 4.
    rewrite <- (take_drop left (take start l)) at 2.
    rewrite take_take, Nat.min_l by lia. rewrite <- app_assoc.
    f_equiv. apply Permutation_middle. }
  split; [done|]. split; [by rewrite HP|].
  rewrite !app_comm_cons, app_assoc. rewrite take_app_length'; [done|].
  rewrite length_app, length_take. cbn [Datatypes.length]. rewrite length_drop, length_take. lia.
Qed.

Lemma sorted_insert (R : A → A → Prop) l1 l2 p :
  Sorted R (l1 ++ l2) →
  (∀ y, list.last l1 = Some y → R y p) → (∀ y, head l2 = Some y → R p y) →
  Sorted R (l1 ++ p :: l2).
Proof.
  induction l1 as [|a l1 IH]; intros Hs H1 H2.
  - simpl in *. constructor; [done|]. destruct l2; constructor. by apply H2.
  - simpl in *. inversion_clear Hs as [|? ? Hs' Hhd]. constructor.
    + apply IH; [done| |done]. intros y Hy. apply H1. by destruct l1.
    + destruct l1 as [|b l1]; simpl in *; constructor; [by apply H1|]. by inversion Hhd.
Qed.

Lemma ok_of_lt x y : cmp x y < 0 ∨ y = x → ok x y.
Proof using cmp_antisym.
  intros [H| ->]; [by apply cmp_antisym|]. unfold ok.
  destruct (Z.lt_ge_cases (cmp x x) 0) as [H|H]; [by apply cmp_antisym|done].
Qed.

Lemma insert_at_spec l start :
  (start < length l)%nat → Sorted ok (take start l) →
  ∃ l', insert_at l start = Some l' ∧ l' ≡ₚ l ∧ length l' = length l ∧
    Sorted ok (take (S start) l').
Proof using cmp_antisym.
  intros Hlt Hs. destruct (lookup_lt_is_Some_2 l start Hlt) as [pivot Hp].
  unfold insert_at. rewrite Hp. cbn [mbind option_bind].
  destruct (search_total (S start) l pivot 0 start) as (k & -> & Hk & Hleft & Hright);
    [lia|lia|lia|intros y Hy _; right; congruence|].
  cbn [mbind option_bind].
  destruct (rotate_right1_take l k start pivot Hp) as (l' & -> & HP & Hlen & Ht); [lia|].
  exists l'. split_and!; [done..|]. rewrite Ht.
  apply sorted_insert.
  - assert (take k l = take k (take start l)) as -> by (rewrite take_take; f_equal; lia).
    by rewrite take_drop.
  - intros y Hy. rewrite last_lookup, length_take, Nat.min_l in Hy by lia.
    destruct k as [|k]; [done|]. apply lookup_take_Some in Hy as [Hy _].
    apply Hleft; [lia|]. by rewrite Nat.sub_succ, Nat.sub_0_r.
  - intros y Hy. rewrite head_lookup, lookup_drop, Nat.add_0_r in Hy.
    apply lookup_take_Some in Hy as [Hy _]. by apply ok_of_lt, Hright.
Qed.

Lemma insert_from_spec n start l :
  (start + n = length l)%nat → Sorted ok (take start l) →
  ∃ l', insert_from n start l = Some l' ∧ l' ≡ₚ l ∧ Sorted ok l'.
Proof using cmp_antisym.
  revert start l. induction n as [|n IH]; intros start l Hn Hs.
  - exists l. split_and!; [done..|]. rewrite firstn_all2 in Hs by lia. done.
  - cbn [insert_from]. destruct (insert_at_spec l start) as (l1 & -> & HP & Hlen & Hs1); [lia|done|].
    cbn [mbind option_bind]. destruct (IH (S start) l1) as (l2 & -> & HP2 & Hs2); [lia|done|].
    exists l2. split_and!; [done|by rewrite HP2|done].
Qed.

(** The routine never panics, permutes its input, and leaves no inverted
    adjacent pair, whatever the comparator. *)
Lemma v8_sort_desc_spec l :
  ∃ l', v8_sort_desc l = Some l' ∧ l' ≡ₚ l ∧ Sorted ok l'.
Proof using cmp_antisym.
  unfold v8_sort_desc. destruct (length l <? 2)%nat eqn:E; bool_to_prop.
  - exists l. split_and!; [done..|]. destruct l as [|a [|b l]]; simpl in E; [..|lia];
      repeat constructor.
  - destruct (make_run_ascending l) as [run l1] eqn:Hr.
    destruct (make_run_spec l run l1) as (Hrun & HP & Hlen & Hs); [done..|].
    destruct (insert_from_spec (length l - run) run l1) as (l2 & -> & HP2 & Hs2);
      [lia|done|].
    exists l2. split_and!; [done|by rewrite HP2|done].
Qed.

Lemma v8_sort_desc_Some l l' : v8_sort_desc l = Some l' → l' ≡ₚ l ∧ Sorted ok l'.
Proof using cmp_antisym.
  intros H. destruct (v8_sort_desc_spec l) as (l2 & H2 & ?). by simplify_eq.
Qed.
End v8.

(** With a comparator that is transitive on the elements of the list, local
    order is global order. *)
Lemma sorted_strongly {A} (R : A → A → Prop) (P : A → Prop) (l : list A) :
  (∀ x y z, P x → P y → P z → R x y → R y z → R x z) → Forall P l →
  Sorted R l → StronglySorted R l.
Proof.
  intros Ht HP Hs. revert HP. induction Hs as [|a l Hs IH Hd]; intros HP; [constructor|].
  apply list.Forall_cons in HP as [Ha HPl]. specialize (IH HPl).
  constructor; [done|]. destruct Hd as [|b l Hab]; [constructor|].
  apply list.Forall_cons in HPl as [Hb HPl]. inversion_clear IH as [|? ? _ Hbl].
  constructor; [done|]. apply list.Forall_forall. intros z Hz.
  eapply Ht; [exact Ha|exact Hb| |exact Hab|].
  - by eapply list.Forall_forall in HPl.
  - by eapply list.Forall_forall in Hbl.
Qed.
