(* ===== verification/Selection.v ===== *)
(** * Selection: choosing the best PCK certificate
    (src/src/selection.rs, second half)

    TCB comparison, the buckets per TCB level, their V8 sort order, the
    placement of the certificates and the final choice.  A slice index out
    of bounds would panic; it is the error [Panicked], which
    [select_best_never_panics] shows unreachable. *)

From Stdlib Require Import ZArith Lia Sorting.Sorted.
From stdpp Require Import base list strings option sorting.
From S2P Require Import Prelude Text Env PckCert V8Sort.

Local Open Scope Z_scope.

(** ** [Tcb] *)

Record Tcb := {
  tcb_cpusvn : string;
  tcb_pcesvn : Z;
  components : list Z          (* [u32; 17] *)
}.

#[export] Instance Tcb_eq_dec : EqDecision Tcb.
Proof. solve_decision. Defined.

Inductive TcbNonComparable : Type := NonComparable.

Definition CPUSVN_HEX_LEN : nat := 16 * 2.

(** [Tcb::new] *)
Definition Tcb_new (cpusvn : string) (pcesvn : Z) : result sel_error Tcb :=
  if negb (String.length cpusvn =? CPUSVN_HEX_LEN)%nat then Err InvalidCpusvnLength
  else if negb (str_all is_hexdigit cpusvn) then Err InvalidCpusvnFormat
  else
    comps ← try_map (λ i, ok_or (from_str_radix16 u8_max (String.substring (i * 2) 2 cpusvn))
                              InvalidCpusvnFormat) (seq 0 16);
    Ok {| tcb_cpusvn := to_upper cpusvn; tcb_pcesvn := pcesvn; components := comps ++ [pcesvn] |}.

(** [le_hex.as_bytes().chunks(2).rev()] concatenated *)
Fixpoint rev_pairs (s : string) : string :=
  match s with
  | String a (String b s') => (rev_pairs s' ++ String a (String b EmptyString))%string
  | _ => s
  end.

Definition little_endian_hex_to_int (le_hex : string) : option Z :=
  if is_empty le_hex || negb (String.length le_hex mod 2 =? 0)%nat || (8 <? String.length le_hex)%nat
  then None
  else if negb (str_all is_hexdigit le_hex) then None
  else from_str_radix16 u32_max (rev_pairs le_hex).

(** [Tcb::from_hex] *)
Definition Tcb_from_hex (cpusvn pcesvn_le_hex : string) : result sel_error Tcb :=
  pcesvn ← ok_or (little_endian_hex_to_int pcesvn_le_hex) InvalidPcesvnFormat;
  Tcb_new cpusvn pcesvn.

(** One iteration of the loop of [Tcb::compare]: [(left_lower, right_lower)]. *)
Definition compare_step (flags : bool * bool) (xy : Z * Z) : bool * bool :=
  let '(left_lower, right_lower) := flags in
  let '(x, y) := xy in
  if x <? y then (true, right_lower)
  else if y <? x then (left_lower, true)
  else (left_lower, right_lower).

(** [Tcb::compare] *)
Definition compare (self other : Tcb) : result TcbNonComparable Z :=
  match fold_left compare_step (zip (components self) (components other)) (false, false) with
  | (true, true) => Err NonComparable
  | (true, false) => Ok (-1)
  | (false, true) => Ok 1
  | (false, false) => Ok 0
  end.

(** The guard [Ok(n) if n >= 0] of the selection loops. *)
Definition at_least (self other : Tcb) : bool :=
  match compare self other with Ok n => 0 <=? n | Err _ => false end.

(** ** Parsed certificates and buckets *)

Definition PCK_CERT_VERSION : Z := 3.

Record ParsedCert := { tcbm : string; cert : string; info : PckCertInfo; tcb : Tcb }.

Record Bucket := { b_tcb : option Tcb; b_certs : list nat }.

(** The comparator of [v8_sort_desc]. *)
Definition bucket_cmp (x y : Bucket) : Z :=
  match b_tcb x, b_tcb y with
  | Some xt, Some yt => match compare yt xt with Ok n => n | Err _ => 0 end
  | _, _ => 0
  end.

(** ** The insertion of one certificate *)

(** [find_insert_index]: [-1] when no certificate of the bucket is at most
    [c]; a non-comparable one does not advance the index. *)
Fixpoint find_insert_from (index : Z) (slots : list nat) (parsed : list ParsedCert)
    (c : ParsedCert) : result sel_error Z :=
  match slots with
  | [] => Ok (-1)
  | slot :: slots' =>
      other ← ok_or (parsed !! slot) Panicked;
      match compare (tcb c) (tcb other) with
      | Ok n => if 0 <=? n then Ok index else find_insert_from (index + 1) slots' parsed c
      | Err _ => find_insert_from index slots' parsed c
      end
  end.

Definition find_insert_index (bucket_certs : list nat) (parsed : list ParsedCert)
    (c : ParsedCert) : result sel_error Z :=
  find_insert_from 0 bucket_certs parsed c.

(** [Vec::insert] panics past the end. *)
Definition vec_insert {A} (index : Z) (x : A) (l : list A) : result sel_error (list A) :=
  if (Z.of_nat (length l) <? index) then Err Panicked
  else Ok (take (Z.to_nat index) l ++ x :: drop (Z.to_nat index) l).

(** The inner loop over the buckets: [was_added] and the updated buckets. *)
Fixpoint place_in_buckets (parsed : list ParsedCert) (i : nat) (c : ParsedCert)
    (buckets : list Bucket) : result sel_error (bool * list Bucket) :=
  match buckets with
  | [] => Ok (false, [])
  | b :: bs =>
      if (match b_tcb b with Some btcb => at_least (tcb c) btcb | None => false end) then
        index ← find_insert_index (b_certs b) parsed c;
        certs ← (if index =? -1 then Ok (b_certs b ++ [i]) else vec_insert index i (b_certs b));
        Ok (true, {| b_tcb := b_tcb b; b_certs := certs |} :: bs)
      else
        '(added, bs') ← place_in_buckets parsed i c bs;
        Ok (added, b :: bs')
  end.

(** One iteration of the outer loop. *)
Definition place_cert (parsed : list ParsedCert) (st : list Bucket * list nat)
    (ic : nat * ParsedCert) : result sel_error (list Bucket * list nat) :=
  let '(buckets, not_matching) := st in
  '(was_added, buckets') ← place_in_buckets parsed (fst ic) (snd ic) buckets;
  Ok (buckets', if (was_added : bool) then not_matching else not_matching ++ [fst ic]).

Definition place_all (parsed : list ParsedCert) (buckets : list Bucket) :
    result sel_error (list Bucket * list nat) :=
  try_fold (place_cert parsed) (buckets, []) (imap pair parsed).

(** Node [selectBestPckCertFromTcbBuckets], the loop over one bucket. *)
Fixpoint select_from_slots (raw : Tcb) (parsed : list ParsedCert) (slots : list nat) :
    result sel_error (option ParsedCert) :=
  match slots with
  | [] => Ok None
  | slot :: slots' =>
      c ← ok_or (parsed !! slot) Panicked;
      if at_least raw (tcb c) then Ok (Some c) else select_from_slots raw parsed slots'
  end.

Fixpoint select_from_buckets (raw : Tcb) (parsed : list ParsedCert) (buckets : list Bucket) :
    result sel_error (option ParsedCert) :=
  match buckets with
  | [] => Ok None
  | b :: bs =>
      r ← select_from_slots raw parsed (b_certs b);
      match r with Some c => Ok (Some c) | None => select_from_buckets raw parsed bs end
  end.

(** ** The functions over the TCB info JSON *)

Section json.
Context {V : Type} `{Json V} `{Base64}.

Definition parse_pck_certs (certs : list (string * string)) : result sel_error (list ParsedCert) :=
  try_map (λ tc, info ← parse_pck_cert (snd tc);
                 tcb ← Tcb_new (cpusvn info) (pcesvn info);
                 Ok {| tcbm := to_upper (fst tc); cert := snd tc; info := info; tcb := tcb |})
          certs.

(** An SVN of at most one byte. *)
Definition svn_of (v : option V) : option Z :=
  svn ← v ≫= as_u64; if 255 <? svn then None else Some svn.

(** [format!("sgxtcbcomp{i:02}svn")] *)
Definition comp_key (i : nat) : string :=
  ("sgxtcbcomp" ++ (if (i <? 10)%nat then "0" else "") ++ to_dec (Z.of_nat i) ++ "svn")%string.

Definition level_cpusvn (tcb : V) : option string :=
  match get_array tcb "sgxtcbcomponents" with
  | Some comps =>
      if negb (length comps =? 16)%nat then None
      else hex_encode_upper <$> mapM (λ c, svn_of (jget c "svn")) comps
  | None => hex_encode_upper <$> mapM (λ i, svn_of (jget tcb (comp_key i))) (seq 1 16)
  end.

Definition check_level (level : V) : result sel_error unit :=
  tcb ← ok_or (jget level "tcb") LevelMissingComponents;
  match level_cpusvn tcb with
  | None => Err LevelMissingComponents
  | Some _ =>
      match get_u64 tcb "pcesvn" with Some _ => Ok () | None => Err LevelInvalidPcesvn end
  end.

(** One iteration of the loop over the certificates; the state is [ppid]. *)
Definition check_cert (pce_id' fmspc' : string) (ppid' : option string) (c : ParsedCert) :
    result sel_error (option string) :=
  if negb (version (info c) =? PCK_CERT_VERSION) then Err CertVersionDifferent
  else if negb (String.eqb (pce_id (info c)) (to_upper pce_id')) then Err CertPceidDifferent
  else if negb (String.eqb (fmspc (info c)) fmspc') then Err CertFmspcDifferent
  else match ppid' with
       | None => Ok (Some (ppid (info c)))
       | Some p => if String.eqb p (ppid (info c)) then Ok (Some p) else Err PpidsDifferent
       end.

Definition validate_platform_metadata (pce_id' : string) (certs : list ParsedCert)
    (tcb_info : V) : result sel_error unit :=
  info_pceid ← ok_or (get_str tcb_info "pceId") PceidMissing;
  if negb (eq_ic info_pceid pce_id') then Err PceidDifferent
  else
    levels ← ok_or (a ← get_array tcb_info "tcbLevels";
                    match a with [] => None | _ => Some a end) EmptyTcbLevels;
    _ ← try_each check_level levels;
    fmspc' ← ok_or (get_str tcb_info "fmspc") FmspcMissing;
    _ ← try_fold (check_cert pce_id' (to_upper fmspc')) None certs;
    Ok ().

Definition validate_input (pce_id' : string) (certs : list ParsedCert) (tcb_info : V) :
    result sel_error unit :=
  if negb (bool_decide (get_i64 tcb_info "tcbType" = Some 0)) then Err TcbTypeDifferent
  else validate_platform_metadata pce_id' certs tcb_info.

Definition level_bucket (level : V) : result sel_error Bucket :=
  tcb ← ok_or (jget level "tcb") InvalidTcbLevels;
  cpusvn ← ok_or (level_cpusvn tcb) InvalidTcbLevels;
  raw_pcesvn ← ok_or (get_u64 tcb "pcesvn") InvalidTcbLevels;
  pcesvn ← ok_or (u32_try_from raw_pcesvn) InvalidTcbLevels;
  t ← Tcb_new cpusvn pcesvn;
  Ok {| b_tcb := Some t; b_certs := [] |}.

Definition create_buckets (tcb_info : V) : result sel_error (list Bucket) :=
  levels ← ok_or (get_array tcb_info "tcbLevels") EmptyTcbLevels;
  buckets ← try_map level_bucket levels;
  ok_or (v8_sort_desc bucket_cmp buckets) Panicked.

Definition validate_pck_cert_pool (pce_id' : string) (certs : list (string * string))
    (tcb_info : V) : result sel_error unit :=
  match certs with
  | [] => Err NoCertificateFound
  | _ =>
      parsed ← parse_pck_certs certs;
      _ ← validate_input pce_id' parsed tcb_info;
      _ ← create_buckets tcb_info;
      Ok ()
  end.

Definition validate_tdx_pck_cert_pool (pce_id' : string) (certs : list (string * string))
    (tcb_info : V) : result sel_error unit :=
  match certs with
  | [] => Err NoCertificateFound
  | _ =>
      let bad_type := match jget tcb_info "tcbType" with
                      | Some typ => bool_decide (as_i64 typ = None) && bool_decide (as_u64 typ = None)
                      | None => false
                      end in
      if bad_type then Err TcbTypeNotInteger
      else parsed ← parse_pck_certs certs;
           validate_platform_metadata pce_id' parsed tcb_info
  end.

Definition select_best_pck_cert (raw_cpusvn raw_pcesvn pce_id' : string)
    (certs : list (string * string)) (tcb_info : V) : result sel_error (string * string) :=
  match certs with
  | [] => Err NoCertificateFound
  | _ =>
      parsed ← parse_pck_certs certs;
      _ ← validate_input pce_id' parsed tcb_info;
      buckets ← create_buckets tcb_info;
      '(buckets, not_matching) ← place_all parsed buckets;
      let buckets := buckets ++ [{| b_tcb := None; b_certs := not_matching |}] in
      raw ← Tcb_from_hex raw_cpusvn raw_pcesvn;
      r ← select_from_buckets raw parsed buckets;
      match r with
      | Some c => Ok (tcbm c, cert c)
      | None => Err NoCertificateFound
      end
  end.
End json.

(** ** The order on TCBs *)

Definition wf_tcb (t : Tcb) : Prop := length (components t) = 17%nat.

(** [t] is at most [u] in every component. *)
Definition tcb_le (t u : Tcb) : Prop := Forall2 Z.le (components t) (components u).

Definition comparable (t u : Tcb) : Prop := tcb_le t u ∨ tcb_le u t.

Lemma compare_fold l a b :
  fold_left compare_step l (a, b) =
  (a || existsb (λ xy, xy.1 <? xy.2) l, b || existsb (λ xy, xy.2 <? xy.1) l).
Proof.
  revert a b. induction l as [|[x y] l IH]; intros a b; cbn [fold_left existsb fst snd].
  - by rewrite !orb_false_r.
  - unfold compare_step at 2. destruct (x <? y) eqn:E1, (y <? x) eqn:E2; bool_to_prop;
      try lia; rewrite IH, ?orb_true_r; cbn [orb]; try done.
Qed.

Lemma existsb_flip (l1 l2 : list Z) :
  existsb (λ xy, xy.1 <? xy.2) (zip l2 l1) = existsb (λ xy, xy.2 <? xy.1) (zip l1 l2).
Proof.
  revert l2. induction l1 as [|x l1 IH]; intros [|y l2]; cbn; try done. by rewrite IH.
Qed.

Lemma existsb_le (l1 l2 : list Z) :
  length l1 = length l2 →
  existsb (λ xy, xy.2 <? xy.1) (zip l1 l2) = false ↔ Forall2 Z.le l1 l2.
Proof.
  revert l2. induction l1 as [|x l1 IH]; intros [|y l2] Hl; cbn in *; try lia.
  - split; [constructor|done].
  - rewrite orb_false_iff, IH, Z.ltb_ge by lia. split.
    + intros []; by constructor.
    + by inversion 1.
Qed.

(** The two flags decide the two directions of the order. *)
Lemma compare_flags a b :
  wf_tcb a → wf_tcb b →
  ∃ l r, compare a b = match l, r with
                       | true, true => Err NonComparable
                       | true, false => Ok (-1)
                       | false, true => Ok 1
                       | false, false => Ok 0
                       end
    ∧ (l = false ↔ tcb_le b a) ∧ (r = false ↔ tcb_le a b).
Proof.
  intros Ha Hb. unfold compare. rewrite compare_fold. cbn [orb].
  eexists _, _. split; [done|].
  rewrite existsb_flip. unfold tcb_le. rewrite !existsb_le by congruence. done.
Qed.

Lemma tcb_le_refl t : tcb_le t t.
Proof. unfold tcb_le. induction (components t); constructor; auto; lia. Qed.

Lemma tcb_le_trans t u v : tcb_le t u → tcb_le u v → tcb_le t v.
Proof.
  unfold tcb_le. intros H. revert v. set (l := components t) in *. set (m := components u) in *.
  clearbody l m. intros v. generalize (components v). clear v.
  induction H; intros n Hn; inversion Hn; constructor; [lia|auto].
Qed.

Lemma tcb_le_antisym t u : tcb_le t u → tcb_le u t → components t = components u.
Proof.
  unfold tcb_le. induction 1 as [|x y l m Hxy _ IH]; intros Hn; inversion Hn; [done|].
  subst. f_equal; [lia|auto].
Qed.

#[export] Instance tcb_le_preorder : PreOrder tcb_le.
Proof. split; [exact tcb_le_refl|exact tcb_le_trans]. Qed.

Lemma at_least_spec a b : wf_tcb a → wf_tcb b → at_least a b = true ↔ tcb_le b a.
Proof.
  intros Ha Hb. unfold at_least.
  destruct (compare_flags a b Ha Hb) as (l & r & -> & Hl & Hr). rewrite <- Hl.
  by destruct l, r.
Qed.

Lemma at_least_false a b :
  wf_tcb a → wf_tcb b → at_least a b = false ↔ ¬ tcb_le b a.
Proof. intros Ha Hb. rewrite <- at_least_spec by done. by rewrite not_true_iff_false. Qed.

(** Reversing the arguments reverses the sign. *)
Lemma compare_swap a b :
  compare b a = match compare a b with Ok n => Ok (- n) | Err e => Err e end.
Proof.
  unfold compare. rewrite !compare_fold. cbn [orb].
  rewrite <- !existsb_flip, (existsb_flip (components a)). rewrite <- existsb_flip.
  by destruct (existsb _ _), (existsb _ _).
Qed.

(** [Tcb::compare] is the component-wise order on TCBs of seventeen
    components: 0 exactly for equal components, -1 and 1 exactly for strict
    domination, an error exactly when neither dominates; swapping the
    arguments negates the answer. *)
Theorem compare_order (a b : Tcb) :
  wf_tcb a → wf_tcb b →
  (compare a b = Ok 0 ↔ components a = components b) ∧
  (compare a b = Ok (-1) ↔ tcb_le a b ∧ components a ≠ components b) ∧
  (compare a b = Ok 1 ↔ tcb_le b a ∧ components a ≠ components b) ∧
  (compare a b = Err NonComparable ↔ ¬ comparable a b) ∧
  compare b a = match compare a b with Ok n => Ok (- n) | Err e => Err e end.
Proof.
  intros Ha Hb. split_and!; [..|apply compare_swap];
    destruct (compare_flags a b Ha Hb) as (l & r & -> & Hl & Hr).
  all: assert (Heq : components a = components b ↔ l = false ∧ r = false)
    by (rewrite Hl, Hr; split;
        [intros E; split; unfold tcb_le; rewrite E; apply tcb_le_refl
        |intros []; by apply tcb_le_antisym]).
  all: unfold comparable; rewrite ?Heq, <- ?Hl, <- ?Hr; destruct l, r; clear; intuition congruence.
Qed.

(** ** Constructors of [Tcb] *)

Lemma Tcb_new_wf s p t :
  Tcb_new s p = Ok t →
  wf_tcb t ∧ tcb_pcesvn t = p ∧ tcb_cpusvn t = to_upper s ∧ ∃ comps, components t = comps ++ [p].
Proof.
  unfold Tcb_new. destruct (negb _); [done|]. destruct (negb _); [done|].
  destruct (try_map _ _) as [comps|] eqn:E; [|done]. intros H. cbn [mbind result_bind] in H.
  simplify_eq. split_and!; [|done..|by eexists].
  unfold wf_tcb. cbn [components]. rewrite length_app, (try_map_length _ _ _ E). done.
Qed.

Lemma Tcb_from_hex_wf s p t : Tcb_from_hex s p = Ok t → wf_tcb t.
Proof. unfold Tcb_from_hex. intros H. inv_ok H. by eapply Tcb_new_wf. Qed.

(** *** Round trips with hexadecimal text *)

Lemma hex_acc_bytes acc l :
  0 <= acc → Forall is_byte l →
  hex_acc acc (hex_encode_upper l) = Some (256 ^ Z.of_nat (length l) * acc + be_value l).
Proof.
  intros Ha Hl. revert acc Ha. induction l as [|b l IH]; intros acc Ha.
  - cbn. f_equal. lia.
  - rewrite hex_encode_upper_cons. pose proof Hl as [Hb Hl']%list.Forall_cons.
    pose proof Hb as [Hb0 _]. rewrite hex_acc_byte, IH, be_value_cons by (done || lia).
    cbn [Datatypes.length]. rewrite Nat2Z.inj_succ, Z.pow_succ_r by lia. f_equal. ring.
Qed.

Lemma from_str_radix16_bytes max l :
  l ≠ [] → Forall is_byte l → be_value l <= max →
  from_str_radix16 max (hex_encode_upper l) = Some (be_value l).
Proof.
  intros Hne Hl Hm. unfold from_str_radix16.
  rewrite strip_plus_hex by (by apply hex_encode_upper_hexdigits).
  rewrite hex_encode_upper_nonempty by done. rewrite hex_acc_bytes by done.
  rewrite Z.mul_0_r, Z.add_0_l. cbn [mbind option_bind].
  by rewrite (proj2 (Z.leb_le _ _)).
Qed.

Lemma substring_hex i l b :
  l !! i = Some b → String.substring (i * 2) 2 (hex_encode_upper l) = hex2_upper b.
Proof.
  revert i. induction l as [|b' l IH]; intros [|i] Hi; simplify_eq/=; rewrite hex_encode_upper_cons.
  - by destruct (hex_encode_upper l).
  - by apply IH.
Qed.

(** [Tcb::new] on the hex of sixteen bytes stores those bytes. *)
Lemma Tcb_new_hex l p :
  Forall is_byte l → length l = 16%nat →
  Tcb_new (hex_encode_upper l) p =
    Ok {| tcb_cpusvn := hex_encode_upper l; tcb_pcesvn := p; components := l ++ [p] |}.
Proof.
  intros Hl Hn. unfold Tcb_new.
  rewrite hex_encode_upper_length, Hn, hex_encode_upper_hexdigits by done.
  change (2 * 16 =? CPUSVN_HEX_LEN)%nat with true. cbn [negb]. rewrite <- Hn, try_map_seq.
  - cbn [mbind result_bind]. by rewrite hex_encode_upper_upper.
  - intros i b Hi. rewrite Nat.add_0_l, (substring_hex _ _ _ Hi).
    assert (Hb : is_byte b) by (by eapply list.Forall_lookup_1 in Hl).
    pose proof Hb as [Hb0 Hb1].
    assert (Hv : be_value [b] = b) by (rewrite be_value_cons by (by apply list.Forall_singleton); cbn; lia).
    change (hex2_upper b) with (hex_encode_upper [b]).
    rewrite from_str_radix16_bytes, Hv; [done|done|by apply list.Forall_singleton|].
    rewrite Hv. unfold u8_max. lia.
Qed.

Lemma rev_pairs_hex l : rev_pairs (hex_encode_upper l) = hex_encode_upper (rev l).
Proof.
  induction l as [|b l IH]; [done|]. rewrite hex_encode_upper_cons. cbn [rev].
  rewrite hex_encode_upper_app, <- IH. by rewrite hex_encode_upper_cons, str_app_nil_r.
Qed.

(** [littleEndianHexStringToInteger] on the hex of one to four bytes is
    their little-endian value, which always fits a [u32] (a PCESVN is not
    clamped to a byte). *)
Theorem little_endian_hex_value (l : list Z) :
  Forall is_byte l → (1 <= length l <= 4)%nat →
  little_endian_hex_to_int (hex_encode_upper l) = Some (be_value (rev l)) ∧
  0 <= be_value (rev l) <= u32_max.
Proof.
  intros Hl Hn. assert (Hr : Forall is_byte (rev l)) by (by apply Forall_rev).
  assert (Hb : 0 <= be_value (rev l) <= u32_max).
  { pose proof (be_value_bounds _ Hr) as Hb. rewrite length_rev in Hb.
    assert (256 ^ Z.of_nat (length l) <= 256 ^ 4) by (apply Z.pow_le_mono_r; lia).
    unfold u32_max. lia. }
  split; [|done]. unfold little_endian_hex_to_int.
  rewrite hex_encode_upper_length, hex_encode_upper_hexdigits, rev_pairs_hex by done.
  rewrite hex_encode_upper_nonempty by (intros ->; simpl in Hn; lia).
  rewrite (Nat.mul_comm 2), Nat.Div0.mod_mul, (proj2 (Nat.ltb_ge _ _)) by lia. cbn [orb negb Nat.eqb].
  apply from_str_radix16_bytes; [|done|lia].
  intros E. apply (f_equal (@length Z)) in E. rewrite length_rev in E. simpl in E. lia.
Qed.

Lemma little_endian_hex_value_witness :
  little_endian_hex_to_int "0D00" = Some 13 ∧ 0 <= be_value [0; 13] <= u32_max.
Proof.
  apply (little_endian_hex_value [13; 0]); [apply oid_bytes; reflexivity|simpl; lia].
Defined.

(** ** Placement

    [first_match c ts] is the first bucket [c] reaches. *)

Fixpoint first_match (c : ParsedCert) (ts : list (option Tcb)) : option nat :=
  match ts with
  | [] => None
  | t :: ts' =>
      if (match t with Some btcb => at_least (tcb c) btcb | None => false end) then Some 0%nat
      else S <$> first_match c ts'
  end.

Lemma first_match_Some c ts j :
  first_match c ts = Some j →
  (∃ t, ts !! j = Some (Some t) ∧ at_least (tcb c) t = true) ∧
  ∀ j' t, (j' < j)%nat → ts !! j' = Some (Some t) → at_least (tcb c) t = false.
Proof.
  revert j. induction ts as [|t ts IH]; intros j Hm; cbn [first_match] in Hm; [done|].
  destruct (match t with Some btcb => at_least (tcb c) btcb | None => false end) eqn:E.
  - simplify_eq. destruct t as [t|]; [|done]. split; [by exists t|lia].
  - apply fmap_Some in Hm as (j0 & Hm & ->). destruct (IH _ Hm) as [Ht Hlt].
    split; [done|]. intros [|j'] t' Hj Ht'; cbn in Ht'; [by simplify_eq|].
    eapply Hlt; [|done]. lia.
Qed.

Lemma first_match_None c ts j t :
  first_match c ts = None → ts !! j = Some (Some t) → at_least (tcb c) t = false.
Proof.
  revert j. induction ts as [|t' ts IH]; intros j Hm Hj; cbn [first_match] in Hm; [done|].
  destruct (match t' with Some btcb => at_least (tcb c) btcb | None => false end) eqn:E; [done|].
  destruct j as [|j]; cbn in Hj; [by simplify_eq|].
  apply fmap_None in Hm. by eapply IH.
Qed.

Section placement.
Context (parsed : list ParsedCert).

Definition in_range (slots : list nat) : Prop := Forall (λ s, (s < length parsed)%nat) slots.

(** [dominates s s']: the certificate in slot [s] is at least the one in
    slot [s']. *)
Definition dominates (s s' : nat) : Prop :=
  ∀ c c', parsed !! s = Some c → parsed !! s' = Some c' → tcb_le (tcb c') (tcb c).

Lemma in_range_lookup slot slots :
  in_range (slot :: slots) → (∃ c, parsed !! slot = Some c) ∧ in_range slots.
Proof. intros [Hs Hr]%list.Forall_cons. split; [by apply lookup_lt_is_Some_2|done]. Qed.

Lemma find_insert_from_range slots index c :
  in_range slots → 0 <= index →
  ∃ k, find_insert_from index slots parsed c = Ok k ∧
    (k = -1 ∨ index <= k < index + Z.of_nat (length slots)).
Proof.
  revert index. induction slots as [|slot slots IH]; intros index Hr Hi; cbn [find_insert_from].
  - exists (-1). split; [done|by left].
  - apply in_range_lookup in Hr as [[o ->] Hr]. cbn [ok_or mbind result_bind].
    destruct (compare (tcb c) (tcb o)) as [n|e].
    + destruct (0 <=? n).
      * exists index. split; [done|right]. cbn [Datatypes.length]. lia.
      * destruct (IH (index + 1) Hr) as (k & -> & Hk); [lia|]. exists k.
        split; [done|]. cbn [Datatypes.length]. lia.
    + destruct (IH index Hr Hi) as (k & -> & Hk). exists k.
      split; [done|]. cbn [Datatypes.length]. lia.
Qed.

(** The certificate lands somewhere in the bucket. *)
Definition insert_slot (i : nat) (c : ParsedCert) (slots : list nat) : result sel_error (list nat) :=
  index ← find_insert_index slots parsed c;
  if index =? -1 then Ok (slots ++ [i]) else vec_insert index i slots.

Lemma insert_slot_total i c slots :
  in_range slots →
  ∃ l1 l2, slots = l1 ++ l2 ∧ insert_slot i c slots = Ok (l1 ++ i :: l2).
Proof.
  intros Hr. unfold insert_slot, find_insert_index.
  destruct (find_insert_from_range slots 0 c Hr) as (k & -> & Hk); [lia|].
  cbn [mbind result_bind]. destruct (k =? -1) eqn:E; bool_to_prop.
  - exists slots, []. by rewrite app_nil_r.
  - exists (take (Z.to_nat k) slots), (drop (Z.to_nat k) slots).
    split; [by rewrite take_drop|]. unfold vec_insert.
    by rewrite (proj2 (Z.ltb_ge _ _)) by lia.
Qed.

Lemma place_in_buckets_match i c bs :
  Forall (λ b, in_range (b_certs b)) bs →
  match first_match c (map b_tcb bs) with
  | None => place_in_buckets parsed i c bs = Ok (false, bs)
  | Some j => ∃ b certs, bs !! j = Some b ∧ insert_slot i c (b_certs b) = Ok certs ∧
      place_in_buckets parsed i c bs =
        Ok (true, <[j := {| b_tcb := b_tcb b; b_certs := certs |}]> bs)
  end.
Proof.
  induction 1 as [|b bs Hb Hbs IH]; [done|]. cbn [map first_match place_in_buckets].
  destruct (match b_tcb b with Some btcb => at_least (tcb c) btcb | None => false end).
  - exists b. destruct (insert_slot_total i c (b_certs b) Hb) as (l1 & l2 & _ & Hi).
    exists (l1 ++ i :: l2). split_and!; [done..|].
    unfold insert_slot in Hi. destruct (find_insert_index _ _ _) as [index|]; [|done].
    cbn [mbind result_bind] in *. by rewrite Hi.
  - destruct (first_match c (map b_tcb bs)) as [j|]; cbn [fmap option_fmap option_map].
    + destruct IH as (b' & certs & Hj & Hi & ->). by exists b', certs.
    + by rewrite IH.
Qed.

(** *** The invariant of the outer loop, after the first [k] certificates:
    every slot is stored exactly once, in the first bucket it reaches, or
    in the list of the unmatched. *)
Record placed (ts : list (option Tcb)) (k : nat) (st : list Bucket * list nat) : Prop := {
  pl_levels : map b_tcb st.1 = ts;
  pl_slots : mjoin (map b_certs st.1) ++ st.2 ≡ₚ seq 0 k;
  pl_first : ∀ j b s c, st.1 !! j = Some b → s ∈ b_certs b → parsed !! s = Some c →
               first_match c ts = Some j;
  pl_unmatched : ∀ s c, s ∈ st.2 → parsed !! s = Some c → first_match c ts = None
}.

Lemma slots_insert (bs : list Bucket) j b b' :
  bs !! j = Some b → ∀ i l1 l2, b_certs b = l1 ++ l2 → b_certs b' = l1 ++ i :: l2 →
  mjoin (map b_certs (<[j := b']> bs)) ≡ₚ i :: mjoin (map b_certs bs).
Proof.
  revert j. induction bs as [|b0 bs IH]; intros [|j] Hj i l1 l2 H1 H2; simplify_eq/=.
  - rewrite H1, H2. rewrite <- !app_assoc, <- app_comm_cons. symmetry. apply Permutation_middle.
  - rewrite (IH j Hj i l1 l2 H1 H2). symmetry. apply Permutation_middle.
Qed.

Lemma placed_in_range ts k st :
  placed ts k st → (k <= length parsed)%nat → Forall (λ b, in_range (b_certs b)) st.1.
Proof.
  intros Hp Hk. apply list.Forall_forall. intros b Hb.
  apply list.Forall_forall. intros s Hs.
  assert (s ∈ seq 0 k) as Hin.
  { rewrite <- (pl_slots _ _ _ Hp). apply elem_of_app. left. apply list_elem_of_join.
    exists (b_certs b). split; [done|]. apply list_elem_of_In, in_map, list_elem_of_In, Hb. }
  apply elem_of_seq in Hin. lia.
Qed.

Lemma place_cert_placed ts k st c :
  placed ts k st → parsed !! k = Some c →
  ∃ st', place_cert parsed st (k, c) = Ok st' ∧ placed ts (S k) st' ∧
    match first_match c ts with
    | None => st' = (st.1, st.2 ++ [k])
    | Some j => ∃ b certs, st.1 !! j = Some b ∧ insert_slot k c (b_certs b) = Ok certs ∧
        st' = (<[j := {| b_tcb := b_tcb b; b_certs := certs |}]> st.1, st.2)
    end.
Proof.
  intros Hp Hc. pose proof (lookup_lt_Some _ _ _ Hc) as Hlt.
  pose proof (placed_in_range _ _ _ Hp ltac:(lia)) as Hr.
  destruct st as [bs nm]. destruct Hp as [Hlv Hsl Hf Hu]. cbn [fst snd] in *.
  pose proof (place_in_buckets_match k c bs Hr) as HM. rewrite Hlv in HM.
  unfold place_cert. cbn [fst snd].
  destruct (first_match c ts) as [j|] eqn:Efm.
  - destruct HM as (b & certs & Hj & Hi & ->). cbn [mbind result_bind].
    eexists. split; [done|]. split; [|by exists b, certs].
    assert (Hb : in_range (b_certs b)) by (by eapply list.Forall_lookup_1 in Hr).
    destruct (insert_slot_total k c (b_certs b) Hb) as (l1 & l2 & Hsplit & Hi').
    rewrite Hi in Hi'. injection Hi' as ->. set (b' := {| b_tcb := _; b_certs := _ |}).
    split; cbn [fst snd].
    + rewrite <- Hlv. rewrite list_fmap_insert. apply list_insert_id.
      subst b'. cbn. by rewrite list_lookup_fmap, Hj.
    + rewrite (slots_insert bs j b b' Hj k l1 l2 Hsplit eq_refl).
      rewrite seq_S, Nat.add_0_l, <- Hsl. cbn. by rewrite Permutation_cons_append.
    + intros j' b0 s c0 Hj' Hs Hc0. apply list_lookup_insert_Some in Hj' as [(<- & <- & _)|[_ Hj']].
      * subst b'. cbn [b_certs] in Hs.
        apply elem_of_app in Hs as [Hs|[->|Hs]%elem_of_cons].
        -- eapply Hf; [done| |done]. rewrite Hsplit. apply elem_of_app. by left.
        -- by simplify_eq.
        -- eapply Hf; [done| |done]. rewrite Hsplit. apply elem_of_app. by right.
      * by eapply Hf.
    + exact Hu.
  - rewrite HM. cbn [mbind result_bind]. eexists. split; [done|]. split; [|done].
    split; cbn [fst snd]; [done| |done|].
    + by rewrite app_assoc, Hsl, seq_S.
    + intros s c0 [Hs| ->%list_elem_of_singleton]%elem_of_app Hc0; [by eapply Hu|by simplify_eq].
Qed.

Lemma placed_start bs :
  Forall (λ b, b_certs b = []) bs → placed (map b_tcb bs) 0 (bs, []).
Proof.
  intros He. split; cbn [fst snd].
  - done.
  - rewrite app_nil_r. induction He as [|b bs Hb _ IH]; [done|]. cbn. by rewrite Hb.
  - intros j b s c Hj Hs. eapply list.Forall_lookup_1 in He; [|done]. rewrite He in Hs.
    by apply not_elem_of_nil in Hs.
  - intros s c Hs. by apply not_elem_of_nil in Hs.
Qed.

(** The loop places every certificate; it never indexes out of bounds. *)
Lemma place_all_placed bs :
  Forall (λ b, b_certs b = []) bs →
  ∃ st, place_all parsed bs = Ok st ∧ placed (map b_tcb bs) (length parsed) st.
Proof.
  intros He. apply (try_fold_imap (place_cert parsed) (placed (map b_tcb bs)) parsed 0 (bs, [])).
  - by apply placed_start.
  - intros k c st Hk Hp. destruct (place_cert_placed _ _ _ _ Hp Hk) as (st' & ? & ? & _). eauto.
Qed.

(** *** The choice: the first admissible slot of the buckets in order *)

Lemma select_from_slots_app raw l1 l2 :
  select_from_slots raw parsed (l1 ++ l2) =
  (r ← select_from_slots raw parsed l1;
   match r with Some c => Ok (Some c) | None => select_from_slots raw parsed l2 end).
Proof.
  induction l1 as [|s l1 IH]; [done|].
  cbn [app select_from_slots]. destruct (parsed !! s) as [c|]; [|done].
  cbn [ok_or mbind result_bind] in *. by destruct (at_least raw (tcb c)).
Qed.

Lemma select_from_buckets_slots raw bs :
  select_from_buckets raw parsed bs = select_from_slots raw parsed (mjoin (map b_certs bs)).
Proof.
  induction bs as [|b bs IH]; [done|]. cbn [select_from_buckets map mjoin list_join].
  rewrite select_from_slots_app. destruct (select_from_slots raw parsed (b_certs b)) as [[c|]|];
    [done|exact IH|done].
Qed.

Lemma select_from_slots_spec raw slots :
  in_range slots →
  (∃ l1 s l2 c, slots = l1 ++ s :: l2 ∧ parsed !! s = Some c ∧ at_least raw (tcb c) = true ∧
     (∀ s' c', s' ∈ l1 → parsed !! s' = Some c' → at_least raw (tcb c') = false) ∧
     select_from_slots raw parsed slots = Ok (Some c)) ∨
  ((∀ s c, s ∈ slots → parsed !! s = Some c → at_least raw (tcb c) = false) ∧
     select_from_slots raw parsed slots = Ok None).
Proof.
  induction slots as [|s slots IH]; intros Hr.
  - right. split; [|done]. intros s c Hs. by apply not_elem_of_nil in Hs.
  - apply in_range_lookup in Hr as [[c Hc] Hr]. cbn [select_from_slots]. rewrite Hc.
    cbn [ok_or mbind result_bind]. destruct (at_least raw (tcb c)) eqn:Ea.
    { left. exists [], s, slots, c. split_and!; [done..| |done].
      intros s' c' Hs. by apply not_elem_of_nil in Hs. }
    destruct (IH Hr) as [(l1 & s1 & l2 & c1 & -> & Hc1 & Ha1 & Hbefore & Hsel)|[Hall Hsel]].
    + left. exists (s :: l1), s1, l2, c1. split_and!; [done..| |done].
      intros s' c' [->|Hs']%elem_of_cons Hc'; [by simplify_eq|by eapply Hbefore].
    + right. split; [|done]. intros s' c' [->|Hs']%elem_of_cons Hc'; [by simplify_eq|by eapply Hall].
Qed.

(** All slots, in the order the choice visits them. *)
Definition visit_order (st : list Bucket * list nat) : list nat := mjoin (map b_certs st.1) ++ st.2.

Lemma placed_visit ts st :
  placed ts (length parsed) st →
  visit_order st ≡ₚ seq 0 (length parsed) ∧ in_range (visit_order st).
Proof.
  intros Hp. pose proof (pl_slots _ _ _ Hp) as HP. split; [done|].
  apply list.Forall_forall. intros s Hs. unfold visit_order in Hs. rewrite HP in Hs.
  apply elem_of_seq in Hs. lia.
Qed.

Lemma visit_all ts st s c :
  placed ts (length parsed) st → parsed !! s = Some c → s ∈ visit_order st.
Proof.
  intros Hp Hs. destruct (placed_visit _ _ Hp) as [HP _]. rewrite HP.
  apply elem_of_seq. apply lookup_lt_Some in Hs. lia.
Qed.

(** Order inside one bucket, when the certificates are comparable. *)
Context (wf_parsed : ∀ s c, parsed !! s = Some c → wf_tcb (tcb c)).

Definition comparable_certs : Prop :=
  ∀ s s' c c', parsed !! s = Some c → parsed !! s' = Some c' → comparable (tcb c) (tcb c').

Lemma find_insert_from_split slots index c :
  in_range slots →
  (∀ s o, s ∈ slots → parsed !! s = Some o →
     wf_tcb (tcb o) ∧ wf_tcb (tcb c) ∧ comparable (tcb c) (tcb o)) →
  ∃ l1 l2, slots = l1 ++ l2 ∧
    (∀ s o, s ∈ l1 → parsed !! s = Some o → at_least (tcb c) (tcb o) = false) ∧
    match l2 with
    | [] => find_insert_from index slots parsed c = Ok (-1)
    | s :: _ => find_insert_from index slots parsed c = Ok (index + Z.of_nat (length l1)) ∧
        ∀ o, parsed !! s = Some o → at_least (tcb c) (tcb o) = true
    end.
Proof.
  revert index. induction slots as [|slot slots IH]; intros index Hr Hcmp; cbn [find_insert_from].
  - exists [], []. split_and!; [done| |done]. intros s o Hs. by apply not_elem_of_nil in Hs.
  - apply in_range_lookup in Hr as [[o Ho] Hr]. rewrite Ho. cbn [ok_or mbind result_bind].
    destruct (Hcmp slot o (list_elem_of_here _ _) Ho) as (Hwo & Hwc & Hc).
    destruct (at_least (tcb c) (tcb o)) eqn:Eal.
    + exists [], (slot :: slots). unfold at_least in Eal.
      destruct (compare (tcb c) (tcb o)) as [n|] eqn:Ec; [|done]. rewrite Eal.
      split_and!; [done| |by rewrite Z.add_0_r|].
      * intros s o' Hs. by apply not_elem_of_nil in Hs.
      * intros o' Ho'. simplify_eq. unfold at_least. by rewrite Ec.
    + destruct (IH (index + 1) Hr) as (l1 & l2 & -> & H1 & H2);
        [intros; apply (Hcmp s); [by right|done]|].
      exists (slot :: l1), l2. split; [done|]. split.
      * intros s o' [->|Hs]%elem_of_cons Ho'; [by simplify_eq|by eapply H1].
      * unfold at_least in Eal.
        destruct (compare (tcb c) (tcb o)) as [n|[]] eqn:Ec.
        -- rewrite Eal. destruct l2; [done|]. destruct H2 as [-> H2]. split; [|done].
           f_equal. cbn [Datatypes.length]. lia.
        -- destruct (compare_flags _ _ Hwc Hwo) as (l & r & E & Hl & Hrr). rewrite Ec in E.
           destruct l, r; try done. destruct Hc as [Hc|Hc]; [by apply Hrr in Hc|by apply Hl in Hc].
Qed.

Lemma insert_slot_sorted i c slots certs :
  in_range slots → parsed !! i = Some c → comparable_certs →
  StronglySorted dominates slots → insert_slot i c slots = Ok certs →
  StronglySorted dominates certs.
Proof using wf_parsed.
  intros Hr Hi Hcmp Hs Hins.
  destruct (find_insert_from_split slots 0 c Hr) as (l1 & l2 & -> & H1 & H2).
  { intros s o _ Ho. split_and!; eauto. }
  assert (certs = l1 ++ i :: l2) as ->.
  { unfold insert_slot, find_insert_index in Hins. destruct l2 as [|s l2].
    - rewrite H2 in Hins. cbn in Hins. rewrite app_nil_r in Hins. congruence.
    - destruct H2 as [H2 _]. rewrite H2 in Hins. cbn [mbind result_bind] in Hins.
      rewrite (proj2 (Z.eqb_neq _ _)) in Hins by lia. unfold vec_insert in Hins.
      rewrite (proj2 (Z.ltb_ge _ _)) in Hins by (rewrite length_app; lia).
      rewrite Z.add_0_l, Nat2Z.id, take_app_length, drop_app_length in Hins. congruence. }
  assert (Hbelow : ∀ s, s ∈ l2 → dominates i s).
  { destruct l2 as [|s0 l2]; [intros s Hin; by apply not_elem_of_nil in Hin|]. destruct H2 as [_ H2].
    apply StronglySorted_app_1_r in Hs. apply StronglySorted_inv in Hs as [_ Hs0].
    assert (Hi0 : ∀ o0, parsed !! s0 = Some o0 → tcb_le (tcb o0) (tcb c)).
    { intros o0 Ho0. apply at_least_spec; eauto. }
    apply Forall_app in Hr as [_ Hr]. apply in_range_lookup in Hr as [[o0 Ho0] _].
    intros s Hin c1 o Hc1 Ho. simplify_eq. apply elem_of_cons in Hin as [->|Hin]; [by eapply Hi0|].
    rewrite list.Forall_forall in Hs0. etransitivity; [exact (Hs0 s Hin _ _ Ho0 Ho)|]. eauto. }
  apply StronglySorted_app_2.
  - intros x y Hx [->|Hy]%elem_of_cons.
    + intros o c1 Ho Hc1. simplify_eq. destruct (Hcmp i x c o Hi Ho) as [Hle|Hle]; [done|].
      specialize (H1 x o Hx Ho). apply at_least_false in H1; eauto. done.
    + by eapply StronglySorted_app_1_elem_of.
  - by eapply StronglySorted_app_1_l.
  - constructor; [by eapply StronglySorted_app_1_r|]. apply list.Forall_forall. done.
Qed.

(** Each bucket is sorted once all certificates are placed. *)
Lemma place_all_sorted bs st :
  Forall (λ b, b_certs b = []) bs → comparable_certs → place_all parsed bs = Ok st →
  Forall (λ b, StronglySorted dominates (b_certs b)) st.1.
Proof using wf_parsed.
  intros He Hcmp Hst.
  destruct (try_fold_imap (place_cert parsed)
    (λ k st, placed (map b_tcb bs) k st ∧ Forall (λ b, StronglySorted dominates (b_certs b)) st.1)
    parsed 0 (bs, [])) as (st' & Hst' & _ & Hs).
  - split; [by apply placed_start|]. eapply list.Forall_impl; [exact He|].
    intros b Hb. cbn in Hb. rewrite Hb. constructor.
  - intros k c st1 Hk [Hp Hs].
    destruct (place_cert_placed _ _ _ _ Hp Hk) as (st2 & Hst2 & Hp2 & Hshape).
    exists st2. split; [done|]. split; [done|].
    destruct (first_match c (map b_tcb bs)) as [j|]; [|by subst].
    destruct Hshape as (b & certs & Hj & Hi & ->). cbn [fst].
    apply Forall_insert; [done|]. cbn [b_certs].
    pose proof (lookup_lt_Some _ _ _ Hk).
    assert (Hr : in_range (b_certs b)).
    { pose proof (placed_in_range _ _ _ Hp ltac:(lia)) as HR. by eapply list.Forall_lookup_1 in HR. }
    eapply insert_slot_sorted; [exact Hr|exact Hk|done| |exact Hi].
    by eapply list.Forall_lookup_1 in Hs.
  - unfold place_all in Hst. change (imap (λ i x, ((0 + i)%nat, x)) parsed) with (imap pair parsed) in Hst'.
    rewrite Hst in Hst'. by simplify_eq.
Qed.

(** A slot of an earlier bucket dominates every slot of a later one and
    every unmatched one, when certificates and levels are comparable: the
    later certificate misses the level the earlier one reaches. *)
Lemma earlier_dominates ts st j b s s' :
  placed ts (length parsed) st →
  (∀ t, Some t ∈ ts → wf_tcb t) →
  (∀ t i c, Some t ∈ ts → parsed !! i = Some c → comparable (tcb c) t) →
  st.1 !! j = Some b → s ∈ b_certs b →
  (∀ c', parsed !! s' = Some c' → ∀ j', first_match c' ts = Some j' → (j < j')%nat) →
  dominates s s'.
Proof using wf_parsed.
  intros Hp Hwf Hcmp Hj Hs Hlater c c' Hc Hc'.
  pose proof (pl_first _ _ _ Hp j b s c Hj Hs Hc) as Hfm.
  destruct (first_match_Some _ _ _ Hfm) as [(t & Ht & Hge) _].
  assert (Hin : Some t ∈ ts) by (by eapply list_elem_of_lookup_2).
  apply at_least_spec in Hge; [|by eauto..].
  assert (Hmiss : at_least (tcb c') t = false).
  { destruct (first_match c' ts) as [j'|] eqn:E.
    - destruct (first_match_Some _ _ _ E) as [_ Hbefore]. eapply Hbefore; [|exact Ht]. by eapply Hlater.
    - by eapply first_match_None. }
  apply at_least_false in Hmiss; [|by eauto..].
  destruct (Hcmp t s' c' Hin Hc') as [Hle|Hle]; [by etransitivity|done].
Qed.

Lemma matched_slot st (l : list Bucket) pre s :
  st = pre ++ l → s ∈ mjoin (map b_certs l) →
  ∃ j b, (length pre <= j)%nat ∧ st !! j = Some b ∧ s ∈ b_certs b.
Proof.
  intros -> (certs & Hs & Hin)%list_elem_of_join.
  apply list_elem_of_fmap in Hin as (b & -> & Hb). apply list_elem_of_lookup_1 in Hb as [i Hi].
  exists (length pre + i)%nat, b. split; [lia|].
  split; [|done]. rewrite lookup_app_r by lia. by replace (length pre + i - length pre)%nat with i by lia.
Qed.

(** The matched part of the visiting order is descending. *)
Lemma matched_sorted ts st :
  placed ts (length parsed) st →
  (∀ t, Some t ∈ ts → wf_tcb t) →
  (∀ t i c, Some t ∈ ts → parsed !! i = Some c → comparable (tcb c) t) →
  Forall (λ b, StronglySorted dominates (b_certs b)) st.1 →
  StronglySorted dominates (mjoin (map b_certs st.1)) ∧
  ∀ s s', s ∈ mjoin (map b_certs st.1) → s' ∈ st.2 → dominates s s'.
Proof using wf_parsed.
  intros Hp Hwf Hcmp Hs. split.
  - assert (Hgen : ∀ l pre, st.1 = pre ++ l → StronglySorted dominates (mjoin (map b_certs l)));
      [|by apply (Hgen _ [])].
    induction l as [|b l IH]; intros pre E; [constructor|].
    change (mjoin (map b_certs (b :: l))) with (b_certs b ++ mjoin (map b_certs l)).
    assert (Hb : st.1 !! length pre = Some b) by (rewrite E; by apply list_lookup_middle).
    apply StronglySorted_app_2.
    + intros x y Hx Hy. eapply earlier_dominates; [done..|]. intros c' Hc' j' Hj'.
      destruct (matched_slot st.1 l (pre ++ [b]) y) as (j & b' & Hj & Hb' & Hy');
        [by rewrite <- app_assoc|done|].
      rewrite (pl_first _ _ _ Hp j b' y c' Hb' Hy' Hc') in Hj'. simplify_eq.
      rewrite length_app in Hj. simpl in Hj. lia.
    + by eapply list.Forall_lookup_1 in Hs.
    + apply (IH (pre ++ [b])). by rewrite <- app_assoc.
  - intros s s' Hin Hin'. destruct (matched_slot st.1 st.1 [] s) as (j & b & _ & Hb & Hsb); [done..|].
    eapply earlier_dominates; [done..|]. intros c' Hc' j' Hj'.
    by rewrite (pl_unmatched _ _ _ Hp s' c' Hin' Hc') in Hj'.
Qed.

Lemma first_match_reaches c ts t :
  Some t ∈ ts → at_least (tcb c) t = true → first_match c ts ≠ None.
Proof.
  intros [j Hj]%list_elem_of_lookup_1 Hge Hn. by rewrite (first_match_None _ _ _ _ Hn Hj) in Hge.
Qed.
End placement.

(** ** Panic freedom, as a predicate closed under the combinators *)

Definition no_panic {A} (c : result sel_error A) : Prop := c ≠ Err Panicked.

Lemma no_panic_ok {A} (a : A) : no_panic (Ok a).
Proof. done. Qed.
Lemma no_panic_err {A} e : e ≠ Panicked → no_panic (A := A) (Err e).
Proof. unfold no_panic. congruence. Qed.
Lemma no_panic_ok_or {A} (o : option A) e : e ≠ Panicked → no_panic (ok_or o e).
Proof. destruct o; [done|apply no_panic_err]. Qed.
Lemma no_panic_bind {A B} (c : result sel_error A) (k : A → result sel_error B) :
  no_panic c → (∀ a, c = Ok a → no_panic (k a)) → no_panic (c ≫= k).
Proof. destruct c as [a|e]; intros Hc Hk; [by apply Hk|]. unfold no_panic in *. cbn. congruence. Qed.
Lemma no_panic_try_map {A B} (f : A → result sel_error B) l :
  (∀ x, no_panic (f x)) → no_panic (try_map f l).
Proof.
  intros Hf. induction l; [apply no_panic_ok|]. cbn [try_map].
  apply no_panic_bind; [done|]. intros. apply no_panic_bind; [done|]. intros. apply no_panic_ok.
Qed.
Lemma no_panic_try_fold {A B} (f : B → A → result sel_error B) l acc :
  (∀ acc x, no_panic (f acc x)) → no_panic (try_fold f acc l).
Proof.
  intros Hf. revert acc. induction l; intros acc; [apply no_panic_ok|]. cbn [try_fold].
  apply no_panic_bind; [done|]. intros. done.
Qed.
Lemma no_panic_try_each {A} (f : A → result sel_error unit) l :
  (∀ x, no_panic (f x)) → no_panic (try_each f l).
Proof.
  intros Hf. induction l; [apply no_panic_ok|]. cbn [try_each]. by apply no_panic_bind.
Qed.

Create HintDb panic_free.
#[export] Hint Resolve no_panic_ok no_panic_err no_panic_ok_or no_panic_try_map
  no_panic_try_fold no_panic_try_each : panic_free.
#[export] Hint Extern 1 (_ ≠ Panicked) => discriminate : panic_free.

Ltac panic_free :=
  repeat first
    [ match goal with |- ∀ _, _ => intro end
    | solve [eauto with panic_free]
    | apply no_panic_bind
    | match goal with |- no_panic (match ?x with _ => _ end) => destruct x end ].

Lemma Tcb_new_no_panic s p : no_panic (Tcb_new s p).
Proof. unfold Tcb_new. panic_free. Qed.
Lemma Tcb_from_hex_no_panic s p : no_panic (Tcb_from_hex s p).
Proof. unfold Tcb_from_hex. panic_free. apply Tcb_new_no_panic. Qed.
Lemma sgx_item_no_panic acc it : no_panic (sgx_item acc it).
Proof. unfold sgx_item, sgx_field. destruct it as [t c]. cbv zeta. panic_free. Qed.
Lemma parse_pck_cert_no_panic `{Base64} pem : no_panic (parse_pck_cert pem).
Proof.
  unfold parse_pck_cert. cbv zeta. panic_free;
    [unfold version_and_issuer; panic_free|].
  apply no_panic_try_fold, sgx_item_no_panic.
Qed.
#[export] Hint Resolve Tcb_new_no_panic Tcb_from_hex_no_panic parse_pck_cert_no_panic : panic_free.

Lemma parse_pck_certs_no_panic `{Base64} certs : no_panic (parse_pck_certs certs).
Proof. unfold parse_pck_certs. apply no_panic_try_map. panic_free. Qed.

(** ** The buckets *)

Lemma bucket_cmp_antisym x y : bucket_cmp x y < 0 → 0 <= bucket_cmp y x.
Proof.
  unfold bucket_cmp. destruct (b_tcb x) as [xt|], (b_tcb y) as [yt|]; try lia.
  rewrite (compare_swap yt xt). destruct (compare yt xt); lia.
Qed.

(** A bucket as [create_buckets] builds it: a level, no certificate yet. *)
Definition fresh_bucket (b : Bucket) : Prop :=
  b_certs b = [] ∧ ∃ t, b_tcb b = Some t ∧ wf_tcb t.

Section json_theorems.
Context {V : Type} `{Json V} `{Base64}.

Lemma level_bucket_fresh (level : V) b : level_bucket level = Ok b → fresh_bucket b.
Proof.
  unfold level_bucket. intros Hb. inv_ok Hb. split; [done|]. cbn [b_tcb].
  eexists. split; [done|]. by eapply Tcb_new_wf.
Qed.

Lemma create_buckets_inv (tcb_info : V) bs :
  create_buckets tcb_info = Ok bs →
  ∃ levels raw, get_array tcb_info "tcbLevels" = Some levels ∧
    try_map level_bucket levels = Ok raw ∧ v8_sort_desc bucket_cmp raw = Some bs ∧
    bs ≡ₚ raw ∧ Sorted (ok bucket_cmp) bs ∧ Forall fresh_bucket bs.
Proof.
  unfold create_buckets. destruct (get_array tcb_info "tcbLevels") as [levels|]; [|done].
  cbn [ok_or mbind result_bind]. destruct (try_map level_bucket levels) as [raw|] eqn:Hm; [|done].
  destruct (v8_sort_desc bucket_cmp raw) as [bs'|] eqn:Hs; cbn [mbind result_bind]; rewrite Hs;
    [|done]. intros Hb.
  injection Hb as ->. exists levels, raw.
  destruct (v8_sort_desc_Some bucket_cmp bucket_cmp_antisym raw bs Hs) as [HP Hsorted].
  split_and!; [done..|]. rewrite HP. apply try_map_ok in Hm.
  apply list.Forall_forall. intros b Hb. apply list_elem_of_lookup_1 in Hb as [i Hi].
  eapply Forall2_lookup_r in Hm as (level & _ & Hl); [|exact Hi].
  by eapply level_bucket_fresh.
Qed.

Lemma create_buckets_no_panic (tcb_info : V) : no_panic (create_buckets tcb_info).
Proof.
  unfold create_buckets. panic_free.
  - apply no_panic_try_map. intros level. unfold level_bucket. panic_free.
  - destruct (v8_sort_desc_spec bucket_cmp bucket_cmp_antisym a0) as (l & -> & _). done.
Qed.

Lemma fresh_levels bs t : Forall fresh_bucket bs → Some t ∈ map b_tcb bs → wf_tcb t.
Proof.
  intros HF Ht. apply list_elem_of_fmap in Ht as (b & Hb & Hin).
  rewrite list.Forall_forall in HF. destruct (HF b Hin) as (_ & t' & Ht' & Hwf).
  congruence.
Qed.

Lemma fresh_empty bs : Forall fresh_bucket bs → Forall (λ b, b_certs b = []) bs.
Proof. intros HF. eapply list.Forall_impl; [exact HF|]. by intros b []. Qed.

Lemma parse_pck_certs_wf certs parsed :
  parse_pck_certs certs = Ok parsed →
  Forall2 (λ tc c, parse_pck_cert (snd tc) = Ok (info c) ∧
                   Tcb_new (cpusvn (info c)) (pcesvn (info c)) = Ok (tcb c) ∧
                   tcbm c = to_upper (fst tc) ∧ cert c = snd tc) certs parsed ∧
  ∀ s c, parsed !! s = Some c → wf_tcb (tcb c).
Proof.
  intros Hm%try_map_ok.
  assert (HF : Forall2 (λ tc c, parse_pck_cert (snd tc) = Ok (info c) ∧
                   Tcb_new (cpusvn (info c)) (pcesvn (info c)) = Ok (tcb c) ∧
                   tcbm c = to_upper (fst tc) ∧ cert c = snd tc) certs parsed).
  { eapply Forall2_impl; [exact Hm|]. intros [tcbm pem] c Hc. cbn [fst snd] in *. by inv_ok Hc. }
  split; [done|]. intros s c Hs.
  eapply Forall2_lookup_r in HF as (tc & _ & _ & Hn & _); [|exact Hs].
  by eapply Tcb_new_wf.
Qed.
End json_theorems.

(** ** The selection *)

Section selection.
Context {V : Type} `{Json V} `{Base64}.

Lemma validate_input_no_panic pce certs (tcb_info : V) :
  no_panic (validate_input pce certs tcb_info).
Proof.
  unfold validate_input, validate_platform_metadata. panic_free.
  - apply no_panic_try_each. intros level. unfold check_level. panic_free.
  - apply no_panic_try_fold. intros acc c. unfold check_cert. panic_free.
Qed.

Lemma select_from_buckets_ok raw parsed ts st :
  placed parsed ts (length parsed) st →
  ∃ r, select_from_buckets raw parsed (st.1 ++ [{| b_tcb := None; b_certs := st.2 |}]) = Ok r ∧
    select_from_slots raw parsed (visit_order st) = Ok r.
Proof.
  intros Hp. destruct (placed_visit _ _ _ Hp) as [_ Hr].
  rewrite select_from_buckets_slots.
  assert (mjoin (map b_certs (st.1 ++ [{| b_tcb := None; b_certs := st.2 |}])) = visit_order st)
    as ->.
  { unfold visit_order. rewrite map_app, join_app. cbn. by rewrite app_nil_r. }
  destruct (select_from_slots_spec parsed raw _ Hr)
    as [(l1 & s & l2 & c & _ & _ & _ & _ & ->)|[_ ->]]; eauto.
Qed.

(** The selection, once its stages have succeeded: what is returned is the
    first admissible certificate in visiting order. *)
Lemma select_best_unfold raw_cpusvn raw_pcesvn pce certs (tcb_info : V) parsed bs raw :
  parse_pck_certs certs = Ok parsed → certs ≠ [] →
  validate_input pce parsed tcb_info = Ok () →
  create_buckets tcb_info = Ok bs →
  Tcb_from_hex raw_cpusvn raw_pcesvn = Ok raw →
  ∃ st r, place_all parsed bs = Ok st ∧
    placed parsed (map b_tcb bs) (length parsed) st ∧
    select_from_slots raw parsed (visit_order st) = Ok r ∧
    select_best_pck_cert raw_cpusvn raw_pcesvn pce certs tcb_info =
      match r with Some c => Ok (tcbm c, cert c) | None => Err NoCertificateFound end.
Proof.
  intros Hparse Hne Hval Hbs Hraw.
  destruct (create_buckets_inv _ _ Hbs) as (_ & _ & _ & _ & _ & _ & _ & Hfresh).
  destruct (place_all_placed parsed bs (fresh_empty _ Hfresh)) as (st & Hst & Hp).
  destruct (select_from_buckets_ok raw _ _ _ Hp) as (r & Hsel & Hslots).
  exists st, r. split_and!; [done..|].
  unfold select_best_pck_cert. destruct certs as [|tc certs]; [done|].
  rewrite Hparse. cbn [mbind result_bind]. rewrite Hval. cbn [mbind result_bind].
  rewrite Hbs. cbn [mbind result_bind]. rewrite Hst. cbn [mbind result_bind].
  destruct st as [bs' nm]. rewrite Hraw. cbn [mbind result_bind]. cbv zeta.
  cbn [fst snd] in Hsel. by rewrite Hsel.
Qed.

(** the selection never panics: no input makes it index out of bounds,
    insert past the end of a bucket or fail inside the sort. *)
Theorem select_best_never_panics raw_cpusvn raw_pcesvn pce certs (tcb_info : V) :
  select_best_pck_cert raw_cpusvn raw_pcesvn pce certs tcb_info ≠ Err Panicked.
Proof.
  destruct certs as [|tc certs]; [done|].
  destruct (parse_pck_certs (tc :: certs)) as [parsed|e] eqn:Hparse.
  2:{ unfold select_best_pck_cert. rewrite Hparse.
      pose proof (parse_pck_certs_no_panic (tc :: certs)) as Hn. rewrite Hparse in Hn.
      unfold no_panic in Hn. cbn. congruence. }
  destruct (validate_input pce parsed tcb_info) as [[]|e] eqn:Hval.
  2:{ unfold select_best_pck_cert. rewrite Hparse. cbn [mbind result_bind]. rewrite Hval.
      pose proof (validate_input_no_panic pce parsed tcb_info) as Hn. rewrite Hval in Hn.
      unfold no_panic in Hn. cbn. congruence. }
  destruct (create_buckets tcb_info) as [bs|e] eqn:Hbs.
  2:{ unfold select_best_pck_cert. rewrite Hparse. cbn [mbind result_bind]. rewrite Hval.
      cbn [mbind result_bind]. rewrite Hbs.
      pose proof (create_buckets_no_panic tcb_info) as Hn. rewrite Hbs in Hn.
      unfold no_panic in Hn. cbn. congruence. }
  destruct (Tcb_from_hex raw_cpusvn raw_pcesvn) as [raw|e] eqn:Hraw.
  - destruct (select_best_unfold raw_cpusvn raw_pcesvn pce (tc :: certs) tcb_info parsed bs raw)
      as (st & r & _ & _ & _ & ->); try done. by destruct r.
  - destruct (create_buckets_inv _ _ Hbs) as (_ & _ & _ & _ & _ & _ & _ & Hfresh).
    destruct (place_all_placed parsed bs (fresh_empty _ Hfresh)) as ([bs' nm] & Hst & _).
    unfold select_best_pck_cert. rewrite Hparse. cbn [mbind result_bind]. rewrite Hval.
    cbn [mbind result_bind]. rewrite Hbs. cbn [mbind result_bind]. rewrite Hst.
    cbn [mbind result_bind]. rewrite Hraw.
    pose proof (Tcb_from_hex_no_panic raw_cpusvn raw_pcesvn) as Hn. rewrite Hraw in Hn.
    unfold no_panic in Hn. cbn. congruence.
Qed.

(** C1: the selection is exact.  Once the certificates parse, the platform
    metadata is consistent, the levels are well formed and the raw TCB is
    valid hex, it returns a certificate of the pool whose TCB the raw TCB
    dominates, and it fails (with "no certificate found") exactly when the
    pool has none. *)
Theorem select_best_exact raw_cpusvn raw_pcesvn pce certs (tcb_info : V) parsed bs raw :
  parse_pck_certs certs = Ok parsed → certs ≠ [] →
  validate_input pce parsed tcb_info = Ok () →
  create_buckets tcb_info = Ok bs →
  Tcb_from_hex raw_cpusvn raw_pcesvn = Ok raw →
  (∃ c, c ∈ parsed ∧ tcb_le (tcb c) raw ∧
     select_best_pck_cert raw_cpusvn raw_pcesvn pce certs tcb_info = Ok (tcbm c, cert c)) ∨
  ((∀ c, c ∈ parsed → ¬ tcb_le (tcb c) raw) ∧
     select_best_pck_cert raw_cpusvn raw_pcesvn pce certs tcb_info = Err NoCertificateFound).
Proof.
  intros Hparse Hne Hval Hbs Hraw.
  destruct (select_best_unfold raw_cpusvn raw_pcesvn pce certs tcb_info parsed bs raw)
    as (st & r & _ & Hp & Hsel & ->); try done.
  destruct (parse_pck_certs_wf _ _ Hparse) as [_ Hwf]. apply Tcb_from_hex_wf in Hraw.
  destruct (placed_visit _ _ _ Hp) as [_ Hr].
  destruct (select_from_slots_spec parsed raw _ Hr)
    as [(l1 & s & l2 & c & _ & Hc & Ha & _ & Hsel')|[Hall Hsel']]; rewrite Hsel in Hsel';
    injection Hsel' as ->.
  - left. exists c. split; [by eapply list_elem_of_lookup_2|]. split; [|done].
    apply at_least_spec; eauto.
  - right. split; [|done]. intros c Hc Hle. apply list_elem_of_lookup_1 in Hc as [s Hc].
    apply at_least_spec in Hle; eauto.
    rewrite (Hall s c) in Hle; [done| |done]. by eapply visit_all.
Qed.

(** C2: the selection is optimal when the TCBs involved are comparable: if
    the chosen certificate reaches at least one TCB level, no admissible
    certificate of the pool has a higher TCB. *)
Theorem select_best_optimal raw_cpusvn raw_pcesvn pce certs (tcb_info : V) parsed bs raw :
  parse_pck_certs certs = Ok parsed → certs ≠ [] →
  validate_input pce parsed tcb_info = Ok () →
  create_buckets tcb_info = Ok bs →
  Tcb_from_hex raw_cpusvn raw_pcesvn = Ok raw →
  comparable_certs parsed →
  (∀ b t s c, b ∈ bs → b_tcb b = Some t → parsed !! s = Some c → comparable (tcb c) t) →
  (∃ c, c ∈ parsed ∧ tcb_le (tcb c) raw ∧ ∃ b t, b ∈ bs ∧ b_tcb b = Some t ∧ tcb_le t (tcb c)) →
  ∃ best, best ∈ parsed ∧ tcb_le (tcb best) raw ∧
    (∀ c, c ∈ parsed → tcb_le (tcb c) raw → tcb_le (tcb c) (tcb best)) ∧
    select_best_pck_cert raw_cpusvn raw_pcesvn pce certs tcb_info = Ok (tcbm best, cert best).
Proof.
  intros Hparse Hne Hval Hbs Hraw Hcc Hcl (c0 & Hc0 & Hle0 & b0 & t0 & Hb0 & Ht0 & Hge0).
  destruct (select_best_unfold raw_cpusvn raw_pcesvn pce certs tcb_info parsed bs raw)
    as (st & r & Hst & Hp & Hsel & ->); try done.
  destruct (parse_pck_certs_wf _ _ Hparse) as [_ Hwf]. apply Tcb_from_hex_wf in Hraw.
  destruct (create_buckets_inv _ _ Hbs) as (_ & _ & _ & _ & _ & _ & _ & Hfresh).
  assert (Hlev : ∀ t, Some t ∈ map b_tcb bs → ∃ b, b ∈ bs ∧ b_tcb b = Some t).
  { intros t (b & Hb & Hin)%list_elem_of_fmap. eauto. }
  pose proof (place_all_sorted parsed Hwf _ _ (fresh_empty _ Hfresh) Hcc Hst) as Hsorted.
  destruct (matched_sorted parsed Hwf _ _ Hp) as [HM HN]; [by eauto using fresh_levels| |done|].
  { intros t i c (b & Hb & Ht)%Hlev Hc. eauto. }
  destruct (placed_visit _ _ _ Hp) as [_ Hr]. unfold visit_order in *.
  apply list_elem_of_lookup_1 in Hc0 as [s0 Hs0].
  assert (Ht0' : Some t0 ∈ map b_tcb bs) by (apply list_elem_of_fmap; by exists b0).
  assert (Hin0 : s0 ∈ mjoin (map b_certs st.1)).
  { pose proof (visit_all _ _ _ _ _ Hp Hs0) as Hv.
    apply elem_of_app in Hv as [Hv|Hv]; [done|exfalso].
    apply (first_match_reaches c0 _ _ Ht0'); [|by eapply pl_unmatched].
    apply at_least_spec; eauto using fresh_levels. }
  destruct (select_from_slots_spec parsed raw (mjoin (map b_certs st.1)))
    as [(l1 & s & l2 & c & E & Hc & Ha & Hbefore & Hsel')|[Hall _]];
    [by apply Forall_app in Hr as [? _]| |].
  2:{ apply at_least_spec in Hle0; eauto. rewrite (Hall s0 c0 Hin0 Hs0) in Hle0. done. }
  rewrite select_from_slots_app, Hsel' in Hsel. injection Hsel as <-.
  exists c. split; [by eapply list_elem_of_lookup_2|]. split; [apply at_least_spec; eauto|].
  split; [|done]. intros c' [s' Hc']%list_elem_of_lookup_1 Hle'.
  assert (Hsin : s ∈ mjoin (map b_certs st.1)) by (rewrite E; apply elem_of_app; right; left).
  pose proof (visit_all _ _ _ _ _ Hp Hc') as [Hv|Hv]%elem_of_app; [|by eapply (HN s s')].
  rewrite E in Hv, HM. apply elem_of_app in Hv as [Hv|[->|Hv]%elem_of_cons].
  - apply at_least_spec in Hle'; eauto. by rewrite (Hbefore s' c' Hv Hc') in Hle'.
  - by simplify_eq.
  - apply StronglySorted_app_1_r, StronglySorted_inv in HM as [_ HM].
    rewrite list.Forall_forall in HM. by eapply (HM s').
Qed.
End selection.

(** ** Order of the buckets *)

Lemma ok_bucket x y xt yt :
  b_tcb x = Some xt → b_tcb y = Some yt → wf_tcb xt → wf_tcb yt →
  ok bucket_cmp x y ↔ (tcb_le yt xt ∨ ¬ comparable xt yt).
Proof.
  intros Hx Hy Hwx Hwy. unfold ok, bucket_cmp. rewrite Hx, Hy. unfold comparable.
  destruct (compare_flags xt yt Hwx Hwy) as (l & r & -> & Hl & Hr).
  destruct l, r; intuition (try lia; try congruence).
Qed.

(** the buckets are the TCB levels of the TCB info, none lost and none
    duplicated, and V8's sort leaves no adjacent pair in the wrong order even
    though the comparator is not transitive; when the levels are pairwise
    comparable the whole list is descending. *)
Theorem create_buckets_ordered {V : Type} `{Json V} (tcb_info : V) (levels : list V)
    (raw : list Bucket) :
  get_array tcb_info "tcbLevels" = Some levels →
  try_map level_bucket levels = Ok raw →
  ∃ bs, create_buckets tcb_info = Ok bs ∧ bs ≡ₚ raw ∧
    (∀ i x y t u, bs !! i = Some x → bs !! S i = Some y → b_tcb x = Some t → b_tcb y = Some u →
       tcb_le u t ∨ ¬ comparable t u) ∧
    ((∀ x y t u, x ∈ raw → y ∈ raw → b_tcb x = Some t → b_tcb y = Some u → comparable t u) →
     ∀ i j x y t u, (i < j)%nat → bs !! i = Some x → bs !! j = Some y →
       b_tcb x = Some t → b_tcb y = Some u → tcb_le u t).
Proof.
  intros Hl Hm.
  destruct (v8_sort_desc_spec bucket_cmp bucket_cmp_antisym raw) as (bs & Hs & _).
  assert (Hc : create_buckets tcb_info = Ok bs).
  { unfold create_buckets. rewrite Hl. cbn [ok_or mbind result_bind]. rewrite Hm.
    cbn [mbind result_bind]. by rewrite Hs. }
  destruct (create_buckets_inv _ _ Hc) as (levels' & raw' & E1 & E2 & E3 & HP & Hsorted & Hfresh).
  rewrite Hl in E1. injection E1 as <-. rewrite Hm in E2. injection E2 as <-.
  exists bs. split; [done|]. split; [done|].
  assert (Hwf : ∀ i x t, bs !! i = Some x → b_tcb x = Some t → wf_tcb t).
  { intros i x t Hx Ht. apply (fresh_levels bs); [done|]. apply list_elem_of_fmap.
    exists x. split; [done|]. by eapply list_elem_of_lookup_2. }
  split.
  - intros i x y t u Hx Hy Ht Hu. rewrite <- (ok_bucket x y); eauto.
    clear -Hsorted Hx Hy. revert i Hx Hy. induction Hsorted as [|a l Hs IH Hd]; intros i Hx Hy; [done|].
    destruct i as [|i]; [|by eapply IH]. cbn in *. destruct Hd; simplify_eq/=. done.
  - intros Hcmp.
    assert (Hle : ∀ x y t u, x ∈ bs → y ∈ bs → b_tcb x = Some t → b_tcb y = Some u →
      ok bucket_cmp x y ↔ tcb_le u t).
    { intros x y t u Hx Hy Ht Hu. pose proof Hx as [i Hi]%list_elem_of_lookup_1.
      pose proof Hy as [j Hj]%list_elem_of_lookup_1. rewrite ok_bucket; [|by eauto..].
      rewrite HP in Hx, Hy. specialize (Hcmp x y t u Hx Hy Ht Hu). tauto. }
    assert (HSS : StronglySorted (ok bucket_cmp) bs).
    { apply (sorted_strongly _ (λ b, b ∈ bs ∧ fresh_bucket b)); [|..|done].
      - intros x y z [Hx (_ & xt & Ext & _)] [Hy (_ & yt & Eyt & _)] [Hz (_ & zt & Ezt & _)].
        rewrite (Hle x y xt yt), (Hle y z yt zt), (Hle x z xt zt) by done.
        intros. by etransitivity.
      - apply list.Forall_forall. intros b Hb. split; [done|].
        by eapply list.Forall_forall in Hfresh. }
    intros i j x y t u Hij Hx Hy Ht Hu.
    rewrite <- (Hle x y); [|by eauto using list_elem_of_lookup_2..].
    clear -HSS Hij Hx Hy. revert i j Hij Hx Hy.
    induction HSS as [|a l _ IH Hd]; intros i j Hij Hx Hy; [done|].
    destruct i as [|i], j as [|j]; cbn in Hx, Hy; [lia| |lia|].
    + simplify_eq. rewrite list.Forall_forall in Hd. apply Hd. by eapply list_elem_of_lookup_2.
    + eapply (IH i j); [lia|done..].
Qed.

(** ** Concrete runs *)

Import Concrete.

Definition json_level (comps : list Z) (p : Z) : jvalue :=
  JObj [("tcb", JObj [("sgxtcbcomponents", JArr (map (λ n, JObj [("svn", JInt n)]) comps));
                      ("pcesvn", JInt p)])].

Definition sample_tcb_info : jvalue :=
  JObj [("tcbType", JInt 0); ("pceId", JStr "4444"); ("fmspc", JStr "1234567890ab");
        ("tcbLevels", JArr [json_level (replicate 16 1) 2; json_level (replicate 16 0x22) 0x3333])].

Definition sample_certs : list (string * string) :=
  [("22222222222222222222222222222222aaaa", intel_order_pem); ("second", synthetic_pem)].

Definition sample_tcb : Tcb :=
  {| tcb_cpusvn := "22222222222222222222222222222222"; tcb_pcesvn := 0x3333;
     components := replicate 16 0x22 ++ [0x3333] |}.

Definition low_tcb : Tcb :=
  {| tcb_cpusvn := "01010101010101010101010101010101"; tcb_pcesvn := 2;
     components := replicate 16 1 ++ [2] |}.

Definition sample_parsed : list ParsedCert :=
  [ {| tcbm := "22222222222222222222222222222222AAAA"; cert := intel_order_pem;
       info := synthetic_info; tcb := sample_tcb |};
    {| tcbm := "SECOND"; cert := synthetic_pem; info := synthetic_info; tcb := sample_tcb |} ].

Definition sample_buckets : list Bucket :=
  [{| b_tcb := Some sample_tcb; b_certs := [] |}; {| b_tcb := Some low_tcb; b_certs := [] |}].

Lemma sample_parse : parse_pck_certs sample_certs = Ok sample_parsed.
Proof. vm_compute. reflexivity. Qed.
Lemma sample_validate : validate_input "4444" sample_parsed sample_tcb_info = Ok ().
Proof. vm_compute. reflexivity. Qed.
Lemma sample_create : create_buckets sample_tcb_info = Ok sample_buckets.
Proof. vm_compute. reflexivity. Qed.
Lemma sample_raw :
  Tcb_from_hex "22222222222222222222222222222222" "3333" = Ok sample_tcb.
Proof. vm_compute. reflexivity. Qed.

Lemma sample_parsed_tcb s c : sample_parsed !! s = Some c → tcb c = sample_tcb.
Proof.
  destruct s as [|[|s]]; intros Hs; [injection Hs as <-; reflexivity..|]. by destruct s.
Qed.

Lemma sample_cmp s s' c c' :
  sample_parsed !! s = Some c → sample_parsed !! s' = Some c' → comparable (tcb c) (tcb c').
Proof.
  intros Hs Hs'.
  rewrite (sample_parsed_tcb _ _ Hs), (sample_parsed_tcb _ _ Hs'). left. apply tcb_le_refl.
Qed.

Lemma low_below_sample : tcb_le low_tcb sample_tcb.
Proof. unfold tcb_le. vm_compute. repeat constructor; discriminate. Qed.

Lemma compare_order_witness :
  compare low_tcb sample_tcb = Ok (-1) ∧ compare sample_tcb low_tcb = Ok (- -1).
Proof.
  destruct (compare_order low_tcb sample_tcb) as (_ & H & _ & _ & Hs); [reflexivity..|].
  assert (E : compare low_tcb sample_tcb = Ok (-1))
    by (apply H; split; [exact low_below_sample|discriminate]).
  split; [exact E|]. rewrite E in Hs. exact Hs.
Defined.

Lemma create_buckets_ordered_witness :
  ∃ bs, create_buckets sample_tcb_info = Ok bs ∧
    bs ≡ₚ [{| b_tcb := Some low_tcb; b_certs := [] |}; {| b_tcb := Some sample_tcb; b_certs := [] |}].
Proof.
  destruct (create_buckets_ordered sample_tcb_info
    [json_level (replicate 16 1) 2; json_level (replicate 16 0x22) 0x3333]
    [{| b_tcb := Some low_tcb; b_certs := [] |}; {| b_tcb := Some sample_tcb; b_certs := [] |}])
    as (bs & H1 & H2 & _); [reflexivity|vm_compute; reflexivity|].
  exists bs. split; [exact H1|exact H2].
Defined.

Lemma select_best_exact_witness :
  select_best_pck_cert "22222222222222222222222222222222" "3333" "4444" sample_certs sample_tcb_info
    ≠ Err NoCertificateFound.
Proof.
  destruct (select_best_exact "22222222222222222222222222222222" "3333" "4444" sample_certs
    sample_tcb_info sample_parsed sample_buckets sample_tcb sample_parse ltac:(discriminate)
    sample_validate sample_create sample_raw) as [(c & _ & _ & ->)|[H _]]; [discriminate|].
  exfalso. eapply H; [apply list_elem_of_here|]. apply tcb_le_refl.
Defined.

Lemma select_best_optimal_witness :
  ∃ best, best ∈ sample_parsed ∧
    select_best_pck_cert "22222222222222222222222222222222" "3333" "4444" sample_certs
      sample_tcb_info = Ok (tcbm best, cert best).
Proof.
  destruct (select_best_optimal "22222222222222222222222222222222" "3333" "4444" sample_certs
    sample_tcb_info sample_parsed sample_buckets sample_tcb sample_parse ltac:(discriminate)
    sample_validate sample_create sample_raw sample_cmp) as (best & H1 & _ & _ & H2).
  - intros b t s c Hb Ht Hs.
    rewrite (sample_parsed_tcb _ _ Hs).
    apply elem_of_cons in Hb as [->|Hb]; [cbn in Ht; injection Ht as <-; left; apply tcb_le_refl|].
    apply list_elem_of_singleton in Hb as ->. cbn in Ht. injection Ht as <-.
    right. exact low_below_sample.
  - eexists. split; [apply list_elem_of_here|]. split; [apply tcb_le_refl|].
    eexists _, _. split; [apply list_elem_of_here|]. split; [reflexivity|]. apply tcb_le_refl.
  - exists best. split; [exact H1|exact H2].
Defined.
