(* ===== verification/Validate.v ===== *)
(** * Validate: request parameters and body schemas (src/src/validate.rs)

    Every function of the module, in its order.  The log messages of the
    source are dropped: each rejection is the value [INVALID_REQ]. *)

From Stdlib Require Import ZArith Lia.
From stdpp Require Import base list strings option gmap.
From S2P Require Import Prelude Text Errors Env.

Local Open Scope Z_scope.
Local Open Scope rust_scope.

(** ** Hex fields *)

Definition is_hex (value : string) (expected_len : nat) : bool :=
  (String.length value =? expected_len)%nat && str_all is_hexdigit value.

Definition is_hex_or_empty (value : string) (expected_len : nat) : bool :=
  is_empty value || is_hex value expected_len.

(** ** Query strings *)

(** The value of [%ab], when [c] is [%] and both digits are hex. *)
Definition pct_value (c a b : ascii) : option Z :=
  if Ascii.eqb c "%" then hi ← hex_val a; lo ← hex_val b; Some (hi * 16 + lo) else None.

(** The loop of [percent_decode] over the bytes. *)
Fixpoint percent_bytes (s : string) : list Z :=
  match s with
  | EmptyString => []
  | String c s' =>
      match s' with
      | String a (String b r) =>
          match pct_value c a b with
          | Some v => v :: percent_bytes r
          | None => byte_of c :: percent_bytes s'
          end
      | _ => byte_of c :: percent_bytes s'
      end
  end.

Definition percent_decode (s : string) : string := of_bytes (utf8_lossy (percent_bytes s)).

Definition query_decode (s : string) : string := percent_decode (replace "+" " " s).

(** One pair of the query: the raw key and value. *)
Definition query_pair (pair : string) : string * string :=
  match split_once "=" pair with Some kv => kv | None => (pair, EmptyString) end.

(** [out.entry(key).or_insert_with(..)] *)
Definition insert_first (out : gmap string string) (pair : string) : gmap string string :=
  if is_empty pair then out
  else
    let '(raw_key, raw_value) := query_pair pair in
    let key := query_decode raw_key in
    match out !! key with
    | Some _ => out
    | None => <[key := query_decode raw_value]> out
    end.

Definition query_params (query : option string) : res (gmap string string) :=
  match query with
  | None => Ok ∅
  | Some q =>
      if is_empty q then Ok ∅
      else Ok (fold_left insert_first (split "&" q) ∅)
  end.

(** ** Scalar parameters *)

(** [value.filter(|s| !s.is_empty())] *)
Definition non_empty (value : option string) : option string :=
  v ← value; if is_empty v then None else Some v.

Definition require_hex (value : option string) (expected_len : nat) : res string :=
  match non_empty value with
  | None => Err INVALID_REQ
  | Some v => if negb (is_hex v expected_len) then Err INVALID_REQ else Ok (to_upper v)
  end.

Definition fmspc (value : option string) : res string := require_hex value 12.
Definition cpusvn (value : option string) : res string := require_hex value 32.
Definition pcesvn (value : option string) : res string := require_hex value 4.
Definition pceid (value : option string) : res string := require_hex value 4.

Definition encrypted_ppid (value : option string) : res (option string) :=
  match value with
  | None => Ok None
  | Some v => Some <$> require_hex (Some v) 768
  end.

Definition QEID_MAX : nat := 260.

Definition qeid (value : option string) : res string :=
  match non_empty value with
  | None => Err INVALID_REQ
  | Some v => if (QEID_MAX <? String.length v)%nat then Err INVALID_REQ else Ok (to_upper v)
  end.

Inductive UpdateType : Type := Standard | Early | All.

Definition UpdateType_as_str (u : UpdateType) : string :=
  match u with Standard => "STANDARD" | Early => "EARLY" | All => "ALL" end.

Definition update_type (value : option string) (can_be_all : bool) : res UpdateType :=
  let raw := to_upper (default "STANDARD" value) in
  if String.eqb raw "STANDARD" then Ok Standard
  else if String.eqb raw "EARLY" then Ok Early
  else if String.eqb raw "ALL" && can_be_all then Ok All
  else Err INVALID_REQ.

Definition pck_ca (value : option string) : res string :=
  let ca := to_upper (default EmptyString value) in
  if negb (String.eqb ca "PROCESSOR") && negb (String.eqb ca "PLATFORM") then Err INVALID_REQ
  else Ok ca.

(** ** The API version in a URL *)

(** The run of digits at the front of [s] and what follows it. *)
Fixpoint digit_run (s : string) : string * string :=
  match s with
  | String c s' =>
      if is_digit c then let '(d, r) := digit_run s' in (String c d, r) else (EmptyString, s)
  | EmptyString => (EmptyString, EmptyString)
  end.

(** The test at one index: [/v], a digit other than [0], the rest of the
    digits, [/]; the digits as a [u32] equal to 3 or 4. *)
Definition version_at (s : string) : option Z :=
  match s with
  | String c0 (String c1 (String c2 (String _ _) as digits_on)) =>
      if Ascii.eqb c0 "/" && Ascii.eqb c1 "v" && is_digit c2 && negb (Ascii.eqb c2 "0") then
        let '(digits, rest) := digit_run digits_on in
        match rest with
        | String e _ =>
            if Ascii.eqb e "/" then
              ver ← parse_uint u32_max digits;
              if (ver =? 3) || (ver =? 4) then Some ver else None
            else None
        | EmptyString => None
        end
      else None
  | _ => None
  end.

Fixpoint api_version_from_url (url : string) : res Z :=
  match version_at url with
  | Some ver => Ok ver
  | None => match url with
            | EmptyString => Err INVALID_REQ
            | String _ url' => api_version_from_url url'
            end
  end.

(** ** CRL URIs *)

Definition is_label_char (c : ascii) : bool := is_alnum c || Ascii.eqb c "-".

Definition ROOT_CRL_HOST : string := "certificates.trustedservices.intel.com".

Definition is_root_host (host : string) : bool :=
  String.eqb host "certprx.adsdcsp.com" ||
  match strip_suffix ROOT_CRL_HOST host with
  | Some prefix => str_all is_label_char prefix
  | None => false
  end.

Definition is_root_crl_uri (uri : string) : bool :=
  match strip_prefix "https://" uri with
  | None => false
  | Some rest =>
      match split_once "/" rest with
      | None => false
      | Some (host, path) =>
          is_root_host host && starts_with "IntelSGXRootCA." path &&
          (String.length "IntelSGXRootCA." <? String.length path)%nat
      end
  end.

Definition API_HOST : string := "api.trustedservices.intel.com".

Definition is_intermediate_host (host : string) : bool :=
  if String.eqb host API_HOST || ends_with (String "." API_HOST) host then
    let prefix := default EmptyString (strip_suffix API_HOST host) in
    let prefix := default prefix (strip_suffix "." prefix) in
    str_all is_label_char prefix
  else match strip_suffix ".az.sgxprod.adsdcsp.com" host with
  | Some label => negb (is_empty label) && str_all is_label_char label
  | None =>
      match strip_suffix ".az.sgxnp.adsdcsp.com" host with
      | Some label => negb (is_empty label) && str_all is_label_char label
      | None => false
      end
  end.

Definition is_intermediate_crl_uri (uri : string) : bool :=
  match strip_prefix "https://" uri with
  | None => false
  | Some rest =>
  match split_once "/" rest with
  | None => false
  | Some (host, path_q) =>
  if negb (is_intermediate_host host) then false
  else match split_once "?" path_q with
  | None => false
  | Some (path, query) =>
  if is_empty query then false
  else match strip_prefix "sgx/certification/v" path with
  | None => false
  | Some ver_and_rest =>
  match split_once "/" ver_and_rest with
  | None => false
  | Some (ver, tail) =>
      if negb (String.eqb tail "pckcrl") then false
      else match ver with
           | EmptyString => false
           | String c _ => negb (Ascii.eqb c "0") && str_all is_digit ver
           end
  end end end end end.

Definition is_valid_crl_uri (uri : string) : bool :=
  if is_empty uri || (2048 <? String.length uri)%nat then false
  else is_root_crl_uri uri || is_intermediate_crl_uri uri.

(** ** The [source] of GET /platforms *)

Inductive PlatformsSource : Type :=
| Reg
| RegNa
| Fmspc (fmspcs : list string).

Definition platforms_source (source : option string) : res PlatformsSource :=
  match source with
  | None => Ok Reg
  | Some s =>
      if is_empty s || String.eqb s "reg" then Ok Reg
      else if String.eqb s "reg_na" then Ok RegNa
      else if (String.length s <? 2)%nat || negb (starts_with "[" s) || negb (ends_with "]" s)
      then Err INVALID_REQ
      else
        let inner := trim (String.substring 1 (String.length s - 2) s) in
        if is_empty inner then Ok (Fmspc [])
        else Fmspc <$> try_map (λ part, fmspc (Some (trim part))) (split "," inner)
  end.

(** ** Body schemas *)

Record PlatformReg := {
  reg_qe_id : string; reg_pce_id : string; reg_cpu_svn : string;
  reg_pce_svn : string; reg_enc_ppid : string; reg_platform_manifest : string
}.

Record AppraisalPolicyReg := {
  ap_is_default : bool; ap_fmspc : string; ap_policy : string; ap_policy_type : Z
}.

Definition CLASS_ID_SGX : string := "3123ec35-8d38-4ea5-87a5-d6c48b567570".
Definition CLASS_ID_TDX_10 : string := "9eec018b-7481-4b1c-8e1a-9f7c0c8c777f".
Definition CLASS_ID_TDX_15 : string := "f708b97f-0fb2-4e6b-8b03-8a5bcd1221d3".
Definition CLASS_ID_TDQE : string := "3769258c-75e6-4bc7-8d72-d2b0e224cad2".

Section schemas.
Context {V : Type} `{Json V} `{Base64}.

Definition reject : PccsError := INVALID_REQ.

Definition opt_str (v : V) (key : string) : res (option string) :=
  match jget v key with
  | None => Ok None
  | Some x =>
      if is_null x then Ok None
      else match as_str x with Some s => Ok (Some s) | None => Err reject end
  end.

Definition req_str (v : V) (key : string) : res string :=
  o ← opt_str v key; ok_or o reject.

Definition has (v : V) (key : string) : bool := bool_decide (is_Some (jget v key)).

(** [qe_id.is_empty() || qe_id.len() > 260] *)
Definition bad_qe_id (qe_id : string) : bool :=
  is_empty qe_id || (260 <? String.length qe_id)%nat.

Definition platform_reg (body : V) : res PlatformReg :=
  check is_object body else reject;
  qe_id ← req_str body "qe_id";
  check negb (bad_qe_id qe_id) else reject;
  pce_id ← req_str body "pce_id";
  check is_hex pce_id 4 else reject;
  cpu_svn ← default EmptyString <$> opt_str body "cpu_svn";
  pce_svn ← default EmptyString <$> opt_str body "pce_svn";
  enc_ppid ← default EmptyString <$> opt_str body "enc_ppid";
  check negb (has body "cpu_svn" && negb (is_hex cpu_svn 32)) else reject;
  check negb (has body "pce_svn" && negb (is_hex pce_svn 4)) else reject;
  check negb (has body "enc_ppid" && negb (is_hex enc_ppid 768)) else reject;
  manifest ← default EmptyString <$> opt_str body "platform_manifest";
  if is_empty manifest then
    check negb (is_empty cpu_svn || is_empty pce_svn || is_empty enc_ppid) else reject;
    Ok {| reg_qe_id := to_upper qe_id; reg_pce_id := to_upper pce_id;
          reg_cpu_svn := to_upper cpu_svn; reg_pce_svn := to_upper pce_svn;
          reg_enc_ppid := to_upper enc_ppid; reg_platform_manifest := EmptyString |}
  else
    Ok {| reg_qe_id := to_upper qe_id; reg_pce_id := to_upper pce_id;
          reg_cpu_svn := EmptyString; reg_pce_svn := EmptyString;
          reg_enc_ppid := EmptyString; reg_platform_manifest := manifest |}.

(** *** [platform_collateral] *)

(** [if let Some(v) = opt_str(p, key)? { if !is_hex_or_empty(v, len) { .. } }] *)
Definition opt_hex (v : V) (kl : string * nat) : res unit :=
  o ← opt_str v (fst kl);
  match o with
  | Some s => check is_hex_or_empty s (snd kl) else reject; Ok ()
  | None => Ok ()
  end.

Definition ignore_str (v : V) (key : string) : res unit := o ← opt_str v key; Ok ().

Definition check_platform (p : V) : res unit :=
  check is_object p else reject;
  qe_id ← req_str p "qe_id";
  check negb (bad_qe_id qe_id) else reject;
  pce_id ← req_str p "pce_id";
  check is_hex pce_id 4 else reject;
  _ ← try_each (opt_hex p) [("cpu_svn", 32%nat); ("pce_svn", 4%nat); ("enc_ppid", 768%nat)];
  ignore_str p "platform_manifest".

Definition is_obj_at (v : V) (key : string) : bool :=
  match jget v key with Some t => is_object t | None => false end.

Definition check_cert_entry (c : V) : res unit :=
  check is_object c else reject;
  check is_obj_at c "tcb" else reject;
  tcbm ← req_str c "tcbm";
  check is_hex tcbm 36 else reject;
  cert ← req_str c "cert";
  check negb (is_empty cert) else reject;
  Ok ().

Definition check_pck_certs (pc : V) : res unit :=
  check is_object pc else reject;
  qe_id ← req_str pc "qe_id";
  check negb (bad_qe_id qe_id) else reject;
  pce_id ← req_str pc "pce_id";
  check is_hex pce_id 4 else reject;
  enc_ppid ← req_str pc "enc_ppid";
  check is_hex_or_empty enc_ppid 768 else reject;
  _ ← ignore_str pc "platform_manifest";
  certs ← ok_or (get_array pc "certs") reject;
  try_each check_cert_entry certs.

Definition check_tcb_field (t : V) (field : string) : res unit :=
  match jget t field with
  | None => Ok ()
  | Some info =>
      check is_object info else reject;
      check is_obj_at info "tcbInfo" else reject;
      _ ← req_str info "signature";
      Ok ()
  end.

Definition check_tcbinfo (tcb_fields : list string) (t : V) : res unit :=
  check is_object t else reject;
  _ ← req_str t "fmspc";
  try_each (check_tcb_field t) tcb_fields.

Definition tcb_fields (version : Z) : list string :=
  if version <? 4 then ["tcbinfo"] else ["sgx_tcbinfo"; "tdx_tcbinfo"].

Definition platform_collateral (body : V) (version : Z) : res unit :=
  check is_object body else reject;
  platforms ← ok_or (get_array body "platforms") reject;
  _ ← try_each check_platform platforms;
  collaterals ← ok_or (get_object body "collaterals") reject;
  check negb ((4 <=? version) &&
              negb (bool_decide (get_u64 collaterals "version" = Some 4))) else reject;
  pck_certs ← ok_or (get_array collaterals "pck_certs") reject;
  _ ← try_each check_pck_certs pck_certs;
  tcbinfos ← ok_or (get_array collaterals "tcbinfos") reject;
  _ ← try_each (check_tcbinfo (tcb_fields version)) tcbinfos;
  _ ← match jget collaterals "pckcacrl" with
      | None => Ok ()
      | Some crl =>
          check is_object crl else reject;
          try_each (ignore_str crl) ["processorCrl"; "platformCrl"]
      end;
  _ ← ignore_str collaterals "rootcacrl";
  _ ← ignore_str collaterals "rootcacrl_cdp";
  certificates ← ok_or (get_object collaterals "certificates") reject;
  issuer_chains ← ok_or (get_object certificates "SGX-PCK-Certificate-Issuer-Chain") reject;
  _ ← try_each (ignore_str issuer_chains) ["PROCESSOR"; "PLATFORM"];
  try_each (ignore_str certificates)
    ["SGX-TCB-Info-Issuer-Chain"; "TCB-Info-Issuer-Chain"; "SGX-Enclave-Identity-Issuer-Chain"].

(** *** Appraisal policies *)

Definition base64url_decode (s : string) : option (list Z) :=
  b64_url_decode (trim_end_matches "=" s).

(** The loop over [policy_array]. *)
Fixpoint policy_type_loop (array : list V) : res Z :=
  match array with
  | [] => Err reject
  | policy :: rest =>
      class_id ← ok_or (e ← jget policy "environment"; v ← jget e "class_id"; as_str v) reject;
      let class_id := to_lower class_id in
      if String.eqb class_id CLASS_ID_SGX then Ok 0
      else if String.eqb class_id CLASS_ID_TDX_10 then Ok 1
      else if String.eqb class_id CLASS_ID_TDX_15 then Ok 2
      else if String.eqb class_id CLASS_ID_TDQE then policy_type_loop rest
      else Err reject
  end.

Definition policy_type_by_class_id (payload : V) : res Z :=
  raw ← ok_or (get_str payload "policy_payload") reject;
  policy_payload ← ok_or (json_parse raw) reject;
  array ← ok_or (get_array policy_payload "policy_array") reject;
  policy_type_loop array.

Definition appraisal_policy (body : V) : res AppraisalPolicyReg :=
  check is_object body else reject;
  is_default ← ok_or (get_bool body "is_default") reject;
  fmspc_raw ← req_str body "fmspc";
  check is_hex fmspc_raw 12 else reject;
  policy ← req_str body "policy";
  check negb (is_empty policy) else reject;
  check contains_char "." policy else reject;
  let segment := default EmptyString (split "." policy !! 1%nat) in
  decoded ← ok_or (base64url_decode segment) reject;
  payload ← ok_or (json_parse (of_bytes decoded)) reject;
  policy_type ← policy_type_by_class_id payload;
  Ok {| ap_is_default := is_default; ap_fmspc := to_upper fmspc_raw; ap_policy := policy;
        ap_policy_type := policy_type |}.
End schemas.

(** ** Hex parameters *)

Lemma is_hex_upper s n : is_hex (to_upper s) n = is_hex s n.
Proof. unfold is_hex. by rewrite to_upper_length, hex_all_upper. Qed.

Lemma require_hex_inv value n r :
  require_hex value n = Ok r →
  ∃ s, value = Some s ∧ s ≠ EmptyString ∧ is_hex s n = true ∧ r = to_upper s.
Proof.
  unfold require_hex, non_empty. destruct value as [s|]; cbn [mbind option_bind]; [|done].
  destruct (is_empty s) eqn:E; [done|]. destruct (is_hex s n) eqn:Eh; [|done].
  intros Hr. injection Hr as <-. exists s. split_and!; [done|by intros ->|done|done].
Qed.

Lemma to_upper_not_empty s : s ≠ EmptyString → is_empty (to_upper s) = false.
Proof. by destruct s. Qed.

(** Idempotence and canonical form of the hex parameters. *)
Lemma require_hex_canonical value n r :
  require_hex value n = Ok r →
  String.length r = n ∧ str_all is_hexdigit r = true ∧ to_upper r = r ∧
  require_hex (Some r) n = Ok r.
Proof.
  intros (s & -> & Hne & Hh & ->)%require_hex_inv. pose proof Hh as Hh'.
  unfold is_hex in Hh. bool_to_prop.
  rewrite to_upper_length, hex_all_upper, upper_upper. split_and!; [done..|].
  unfold require_hex, non_empty. cbn [mbind option_bind].
  rewrite to_upper_not_empty, is_hex_upper, Hh', upper_upper by done. done.
Qed.

(** Two spellings that differ in case give the same parameter. *)
Lemma require_hex_case s t n :
  to_upper s = to_upper t → require_hex (Some s) n = require_hex (Some t) n.
Proof.
  intros E. unfold require_hex, non_empty. cbn [mbind option_bind].
  assert (is_empty s = is_empty t) as -> by (destruct s, t; simpl in E; congruence || done).
  destruct (is_empty t); [done|].
  by rewrite <- (is_hex_upper s), <- (is_hex_upper t), E.
Qed.

(** ** Percent decoding *)

(** An encoder of query components: the characters in [keep] stand for
    themselves, every other byte is escaped. *)
Fixpoint pct_encode (keep : ascii → bool) (s : string) : string :=
  match s with
  | EmptyString => EmptyString
  | String c s' =>
      if keep c then String c (pct_encode keep s')
      else (String "%" (hex2_upper (byte_of c)) ++ pct_encode keep s')%string
  end.

Lemma pct_value_other c a b : Ascii.eqb c "%" = false → pct_value c a b = None.
Proof. intros E. unfold pct_value. by rewrite E. Qed.

Lemma percent_bytes_other c s :
  Ascii.eqb c "%" = false → percent_bytes (String c s) = byte_of c :: percent_bytes s.
Proof.
  intros E. cbn [percent_bytes]. destruct s as [|a [|b r]]; [done..|].
  by rewrite pct_value_other.
Qed.

Lemma split_once_str_none p c s :
  str_all (λ d, negb (Ascii.eqb c d)) s = true → split_once_str (String c p) s = None.
Proof.
  induction s as [|d s IH]; [done|]. cbn [str_all]. intros [Hd Hs]%andb_true_iff.
  cbn [split_once_str strip_prefix]. apply negb_true_iff in Hd. rewrite Hd. by rewrite IH.
Qed.

Lemma replace_none p c r s :
  str_all (λ d, negb (Ascii.eqb c d)) s = true → replace (String c p) r s = s.
Proof. intros Hs. unfold replace. cbn [replace_fuel]. by rewrite split_once_str_none. Qed.

Section encoder.
Context (keep : ascii → bool) (Hpct : keep "%"%char = false) (Hplus : keep "+"%char = false).

Lemma keep_not c d : keep d = true → keep c = false → Ascii.eqb c d = false.
Proof using Hpct Hplus. intros Hd Hc. destruct (Ascii.eqb c d) eqn:E; [|done]. apply Ascii.eqb_eq in E. congruence. Qed.

Lemma percent_bytes_encode s : percent_bytes (pct_encode keep s) = bytes s.
Proof using Hpct Hplus.
  induction s as [|c s IH]; [done|]. cbn [pct_encode bytes]. destruct (keep c) eqn:E.
  - rewrite percent_bytes_other, IH; [done|]. rewrite Ascii.eqb_sym. by apply keep_not.
  - unfold hex2_upper. cbn [String.append percent_bytes]. unfold pct_value.
    destruct (nibbles (byte_of c) (byte_of_range c)) as [H1 H2].
    destruct (hex_digit_upper_val _ H1) as [E1 _], (hex_digit_upper_val _ H2) as [E2 _].
    rewrite E1, E2. cbn [mbind option_bind Ascii.eqb Bool.eqb]. rewrite IH. f_equal.
    rewrite (Z.div_mod (byte_of c) 16) at 3 by lia. lia.
Qed.

(** Decoding inverts encoding on text. *)
Lemma percent_decode_encode s :
  utf8_valid (bytes s) = true → percent_decode (pct_encode keep s) = s.
Proof using Hpct Hplus.
  intros Hv. unfold percent_decode. rewrite percent_bytes_encode, utf8_lossy_valid by done.
  apply of_bytes_bytes.
Qed.

(** The encoder leaves no separator. *)
Lemma pct_encode_safe c s :
  keep c = false → is_alnum c = false → Ascii.eqb c "%" = false →
  str_all (λ d, negb (Ascii.eqb c d)) (pct_encode keep s) = true.
Proof using Hpct Hplus.
  intros Hk Hc Hp.
  assert (Hhex : ∀ d, is_hexdigit d = true → negb (Ascii.eqb c d) = true).
  { intros d Hd. destruct (Ascii.eqb c d) eqn:E; [|done]. apply Ascii.eqb_eq in E. subst d.
    exfalso. clear -Hc Hd. revert Hc Hd. each_char c. }
  induction s as [|d s IH]; [done|]. cbn [pct_encode]. destruct (keep d) eqn:E.
  - cbn [str_all]. by rewrite keep_not, IH.
  - unfold hex2_upper. cbn [String.append str_all]. rewrite IH.
    destruct (nibbles (byte_of d) (byte_of_range d)) as [H1 H2].
    destruct (hex_digit_upper_val _ H1) as (_ & _ & E1), (hex_digit_upper_val _ H2) as (_ & _ & E2).
    by rewrite Hp, !Hhex.
Qed.

(** It leaves no [+] either, so the query decoder inverts it too. *)
Lemma query_decode_encode s :
  utf8_valid (bytes s) = true → query_decode (pct_encode keep s) = s.
Proof using Hpct Hplus.
  intros Hv. unfold query_decode. rewrite replace_none by (by apply pct_encode_safe).
  by apply percent_decode_encode.
Qed.
End encoder.

(** ** Query strings: the first occurrence wins *)

(** The value of the first pair whose decoded name is [k]. *)
Fixpoint first_value (l : list (string * string)) (k : string) : option string :=
  match l with
  | [] => None
  | (k', v) :: l' => if decide (k' = k) then Some v else first_value l' k
  end.

(** The pairs of a query, decoded. *)
Definition decoded_pairs (pairs : list string) : list (string * string) :=
  map (λ p, let '(k, v) := query_pair p in (query_decode k, query_decode v))
      (filter (λ p, is_empty p = false) pairs).

Lemma insert_first_lookup pairs (m : gmap string string) k :
  fold_left insert_first pairs m !! k =
    match m !! k with Some v => Some v | None => first_value (decoded_pairs pairs) k end.
Proof.
  revert m. induction pairs as [|p pairs IH]; intros m.
  { cbn. by destruct (m !! k). }
  cbn [fold_left]. rewrite IH. unfold insert_first, decoded_pairs. rewrite filter_cons.
  destruct (is_empty p) eqn:Ee.
  { rewrite decide_False by done. done. }
  rewrite decide_True by done. cbn [map]. destruct (query_pair p) as [rk rv]. cbn [first_value].
  destruct (m !! query_decode rk) as [w|] eqn:Ew.
  - destruct (decide (query_decode rk = k)) as [<-|]; [by rewrite Ew|done].
  - destruct (decide (query_decode rk = k)) as [<-|Hne].
    + by rewrite lookup_insert_eq, Ew.
    + by rewrite lookup_insert_ne.
Qed.

(** A query string as a client writes it. *)
Definition query_string (keep : ascii → bool) (l : list (string * string)) : string :=
  str_join "&" (map (λ kv, (pct_encode keep kv.1 ++ "=" ++ pct_encode keep kv.2)%string) l).

Definition free_of (c : ascii) (s : string) : Prop :=
  str_all (λ d, negb (Ascii.eqb c d)) s = true.

Lemma free_of_app c s t : free_of c s → free_of c t → free_of c (s ++ t)%string.
Proof. unfold free_of. intros Hs Ht. by rewrite str_all_app, Hs, Ht. Qed.

Lemma split_free c s : free_of c s → split c s = [s].
Proof.
  unfold free_of. induction s as [|d s IH]; [done|]. cbn [str_all split].
  intros [Hd Hs]%andb_true_iff. apply negb_true_iff in Hd. by rewrite Hd, IH.
Qed.

Lemma split_app c s t :
  free_of c s → split c (s ++ String c t)%string = s :: split c t.
Proof.
  unfold free_of. induction s as [|d s IH]; cbn [str_all String.append split].
  - intros _. by rewrite Ascii.eqb_refl.
  - intros [Hd Hs]%andb_true_iff. apply negb_true_iff in Hd. by rewrite Hd, IH.
Qed.

(** Joining then splitting, for parts without the separator. *)
Lemma join_split c l :
  l ≠ [] → Forall (free_of c) l → split c (str_join (String c EmptyString) l) = l.
Proof.
  intros Hne HF. induction HF as [|s l Hs HF IH]; [done|].
  destruct l as [|s' l]; [by apply split_free|].
  change (str_join (String c EmptyString) (s :: s' :: l))
    with (s ++ String c (str_join (String c EmptyString) (s' :: l)))%string.
  rewrite split_app by done. by rewrite IH.
Qed.

Lemma split_once_free c s t :
  free_of c s → split_once c (s ++ String c t)%string = Some (s, t).
Proof.
  unfold free_of. induction s as [|d s IH]; cbn [str_all String.append split_once].
  - intros _. by rewrite Ascii.eqb_refl.
  - intros [Hd Hs]%andb_true_iff. apply negb_true_iff in Hd. by rewrite Hd, IH.
Qed.

(** The map [query_params] reads off a written query. *)
Lemma query_params_written keep (l : list (string * string)) :
  keep "%"%char = false → keep "+"%char = false → keep "&"%char = false → keep "="%char = false →
  l ≠ [] →
  Forall (λ kv, utf8_valid (bytes kv.1) = true ∧ utf8_valid (bytes kv.2) = true) l →
  ∃ m, query_params (Some (query_string keep l)) = Ok m ∧ ∀ k, m !! k = first_value l k.
Proof.
  intros Kp Kq Ka Ke Hne HF.
  assert (Hsplit : split "&" (query_string keep l) =
    map (λ kv, (pct_encode keep kv.1 ++ "=" ++ pct_encode keep kv.2)%string) l).
  { apply join_split; [by destruct l|]. apply Forall_fmap, Forall_true. intros kv. unfold compose.
    apply free_of_app; [by apply pct_encode_safe|].
    change (free_of "&" (String "=" (pct_encode keep kv.2))). by apply pct_encode_safe. }
  unfold query_params. destruct (is_empty (query_string keep l)) eqn:Ee.
  { destruct l as [|kv l]; [done|]. exfalso. revert Ee. unfold query_string. cbn [map].
    destruct (map _ l); cbn; by destruct (pct_encode keep kv.1). }
  eexists. split; [done|]. intros k. rewrite insert_first_lookup, lookup_empty, Hsplit.
  clear -HF Kp Kq Ke. unfold decoded_pairs.
  induction HF as [|[k' v'] l [Hk Hv] _ IH]; [done|].
  cbn [map fst snd] in *. rewrite filter_cons, decide_True by (by destruct (pct_encode keep k')).
  cbn [map first_value]. unfold query_pair at 1.
  change ("=" ++ pct_encode keep v')%string with (String "=" (pct_encode keep v')).
  rewrite (split_once_free "=") by (by apply pct_encode_safe).
  rewrite !query_decode_encode by done. destruct (decide (k' = k)); [done|exact IH].
Qed.

(** ** The API version *)

Lemma digit_run_spec s d r : digit_run s = (d, r) → s = (d ++ r)%string ∧ str_all is_digit d = true.
Proof.
  revert d r. induction s as [|c s IH]; intros d r; cbn [digit_run]; [by intros [= <- <-]|].
  destruct (is_digit c) eqn:E; [|by intros [= <- <-]].
  destruct (digit_run s) as [d' r'] eqn:Ed. intros [= <- <-].
  destruct (IH _ _ eq_refl) as [-> Hd]. split; [done|]. cbn. by rewrite E, Hd.
Qed.

Lemma digit_value c : is_digit c = true → 0 <= byte_of c - 48 <= 9.
Proof. unfold is_digit, Text.in_range. intros Hc. bool_to_prop. lia. Qed.

Lemma dec_acc_le acc s n : 0 <= acc → dec_acc acc s = Some n → acc <= n.
Proof.
  revert acc. induction s as [|c s IH]; intros acc Ha; cbn [dec_acc]; [by intros [= <-]|].
  destruct (is_digit c) eqn:E; [|done]. apply digit_value in E. intros Hn%IH; lia.
Qed.

(** A number without leading zero that is below ten is one digit. *)
Lemma parse_small c s n :
  is_digit c = true → Ascii.eqb c "0" = false → str_all is_digit s = true → 
  parse_uint u32_max (String c s) = Some n → n <= 9 → s = EmptyString ∧ byte_of c = 48 + n.
Proof.
  intros Hc Hz Hs Hp Hn. unfold parse_uint in Hp.
  assert (strip_plus (String c s) = String c s) as E.
  { apply strip_plus_hex. cbn [str_all]. rewrite (digit_hexdigit c Hc). cbn [andb].
    clear -Hs. induction s as [|d s IH]; [done|]. cbn [str_all] in *.
    apply andb_true_iff in Hs as [Hd Hs]. by rewrite (digit_hexdigit d Hd), IH. }
  rewrite E in Hp. cbn [is_empty dec_acc] in Hp. rewrite Hc in Hp.
  pose proof (digit_value c Hc).
  assert (byte_of c <> 48).
  { intros E48. assert (c = "0"%char) as -> by (by apply byte_of_inj). done. }
  destruct s as [|d s].
  - cbn in Hp. case_match; [|done]. injection Hp as <-. split; [done|lia].
  - cbn [dec_acc] in Hp. apply andb_true_iff in Hs as [Hd _]. rewrite Hd in Hp.
    pose proof (digit_value d Hd).
    destruct (dec_acc _ s) as [m|] eqn:Em; [|done]. apply dec_acc_le in Em; [|lia].
    cbn [mbind option_bind] in Hp. case_match; [|done]. injection Hp as <-. lia.
Qed.

(** The version test is the search for one of two literals. *)
Lemma version_at_spec s v :
  version_at s = Some v ↔
  (v = 3 ∧ starts_with "/v3/" s = true) ∨ (v = 4 ∧ starts_with "/v4/" s = true).
Proof.
  split.
  - unfold version_at. intros Hs.
    destruct s as [|c0 [|c1 [|c2 [|c3 t]]]]; try done.
    destruct (Ascii.eqb c0 "/" && Ascii.eqb c1 "v" && is_digit c2 && negb (Ascii.eqb c2 "0")) eqn:E;
      [|done].
    destruct (digit_run (String c2 (String c3 t))) as [d r] eqn:Ed.
    destruct (digit_run_spec _ _ _ Ed) as [Heq Hd].
    destruct r as [|e r]; [done|]. destruct (Ascii.eqb e "/") eqn:Ee; [|done].
    destruct (parse_uint u32_max d) as [n|] eqn:Ep; [|done]. cbn [mbind option_bind] in Hs.
    destruct ((n =? 3) || (n =? 4)) eqn:En; [|done]. injection Hs as ->.
    apply orb_true_iff in En. rewrite !Z.eqb_eq in En. apply Ascii.eqb_eq in Ee as ->.
    apply andb_true_iff in E as [[[H0 H1]%andb_true_iff H2]%andb_true_iff H3].
    apply Ascii.eqb_eq in H0 as ->, H1 as ->. apply negb_true_iff in H3.
    destruct d as [|d0 d]; cbn [String.append] in Heq.
    { injection Heq as -> _. done. }
    injection Heq as -> Heq. cbn [str_all] in Hd. apply andb_true_iff in Hd as [Hd0 Hd].
    destruct (parse_small d0 d v) as [-> Hb]; [done..| |]; [destruct En; lia|].
    cbn [String.append] in Heq. injection Heq as -> ->.
    destruct En as [->| ->]; [left|right]; (split; [done|]).
    + assert (d0 = "3"%char) as -> by (by apply byte_of_inj). done.
    + assert (d0 = "4"%char) as -> by (by apply byte_of_inj). done.
  - intros [[-> Hs]|[-> Hs]]; apply starts_with_spec in Hs as [r ->]; done.
Qed.

(** [api_version_from_url] is the search for ["/v3/"] or ["/v4/"]: it
    answers 3 or 4 only for a URL that has that segment, and rejects exactly
    the URLs that have neither (so [/v04/], [/v5/] or [/v33/] never select a
    version). *)
Theorem api_version_exact (url : string) :
  match api_version_from_url url with
  | Ok v => (v = 3 ∧ contains "/v3/" url = true) ∨ (v = 4 ∧ contains "/v4/" url = true)
  | Err e => e = INVALID_REQ ∧ contains "/v3/" url = false ∧ contains "/v4/" url = false
  end.
Proof.
  induction url as [|c url IH]; [done|]. cbn [api_version_from_url].
  destruct (version_at (String c url)) as [v|] eqn:Ev.
  - apply version_at_spec in Ev as [[-> Hs]|[-> Hs]]; [left|right]; (split; [done|]);
      cbn [contains]; by rewrite Hs.
  - assert (Hn : starts_with "/v3/" (String c url) = false ∧ starts_with "/v4/" (String c url) = false).
    { split; apply not_true_iff_false; intros Hs; revert Ev.
      - by rewrite (proj2 (version_at_spec _ 3)) by auto.
      - by rewrite (proj2 (version_at_spec _ 4)) by auto. }
    destruct Hn as [H3 H4]. cbn [contains]. rewrite H3, H4. cbn [orb].
    exact IH.
Qed.

(** ** CRL URIs *)

(** Characters that can occur in a plain host name: no ['/'], [':'], ['@'],
    ['?'], ['#'] or ['%'], so the host is the whole authority. *)
Definition is_host_char (c : ascii) : bool := is_label_char c || Ascii.eqb c ".".

(** The hosts Intel serves CRLs from. *)
Definition trusted_host (host : string) : Prop :=
  ∃ prefix suffix, host = (prefix ++ suffix)%string ∧
    str_all is_label_char prefix = true ∧
    suffix ∈ ["certprx.adsdcsp.com"; "certificates.trustedservices.intel.com";
              "api.trustedservices.intel.com"; ".api.trustedservices.intel.com";
              ".az.sgxprod.adsdcsp.com"; ".az.sgxnp.adsdcsp.com"]%string.

Lemma label_host s : str_all is_label_char s = true → str_all is_host_char s = true.
Proof.
  induction s as [|c s IH]; [done|]. cbn [str_all]. intros [Hc Hs]%andb_true_iff.
  rewrite IH by done. unfold is_host_char. by rewrite Hc.
Qed.

Lemma trusted_host_plain host : trusted_host host → str_all is_host_char host = true.
Proof.
  intros (p & s & -> & Hp & Hs). rewrite str_all_app, label_host by done. cbn [andb].
  repeat (apply elem_of_cons in Hs as [->|Hs]; [done|]). by apply not_elem_of_nil in Hs.
Qed.

Lemma root_host_trusted host : is_root_host host = true → trusted_host host.
Proof.
  unfold is_root_host. intros [->%String.eqb_eq|Hh]%orb_true_iff.
  - exists EmptyString, "certprx.adsdcsp.com"%string. split_and!; [done..|]. by apply list_elem_of_here.
  - destruct (strip_suffix ROOT_CRL_HOST host) as [p|] eqn:E; [|done].
    apply strip_suffix_spec in E. exists p, ROOT_CRL_HOST. split_and!; [done..|].
    right. by apply list_elem_of_here.
Qed.

Lemma intermediate_host_trusted host : is_intermediate_host host = true → trusted_host host.
Proof.
  unfold is_intermediate_host. cbv zeta.
  destruct (String.eqb host API_HOST || ends_with (String "." API_HOST) host) eqn:Ea.
  - apply orb_true_iff in Ea as [->%String.eqb_eq|He].
    + intros _. exists EmptyString, API_HOST. split_and!; [done..|]. do 2 right. by apply list_elem_of_here.
    + unfold ends_with in He. destruct (strip_suffix (String "." API_HOST) host) as [p|] eqn:Es; [|done].
      apply strip_suffix_spec in Es.
      assert (host = ((p ++ ".") ++ API_HOST)%string) as Eh
        by (by rewrite Es, <- str_app_assoc).
      rewrite (proj2 (strip_suffix_spec API_HOST host (p ++ ".")%string) Eh). cbn [from_option id].
      rewrite (proj2 (strip_suffix_spec "." (p ++ ".")%string p) eq_refl). cbn [from_option id].
      intros Hp. exists p, (String "." API_HOST). split_and!; [done..|].
      do 3 right. by apply list_elem_of_here.
  - destruct (strip_suffix ".az.sgxprod.adsdcsp.com" host) as [p|] eqn:E1.
    { intros [_ Hp]%andb_true_iff. apply strip_suffix_spec in E1.
      exists p, ".az.sgxprod.adsdcsp.com"%string. split_and!; [done..|]. do 4 right. by apply list_elem_of_here. }
    destruct (strip_suffix ".az.sgxnp.adsdcsp.com" host) as [p|] eqn:E2; [|done].
    intros [_ Hp]%andb_true_iff. apply strip_suffix_spec in E2.
    exists p, ".az.sgxnp.adsdcsp.com"%string. split_and!; [done..|]. do 5 right. by apply list_elem_of_here.
Qed.

Lemma crl_uri_host uri :
  is_root_crl_uri uri = true ∨ is_intermediate_crl_uri uri = true →
  ∃ host path, uri = ("https://" ++ host ++ "/" ++ path)%string ∧ trusted_host host.
Proof.
  unfold is_root_crl_uri, is_intermediate_crl_uri.
  destruct (strip_prefix "https://" uri) as [rest|] eqn:Ep; [|by intros []].
  apply strip_prefix_spec in Ep.
  destruct (split_once "/" rest) as [[host path]|] eqn:Es; [|by intros []].
  apply split_once_spec in Es as [Er _]. subst rest. intros Hh.
  exists host, path. split; [done|]. destruct Hh as [Hh|Hh].
  - apply andb_true_iff in Hh as [[Hh _]%andb_true_iff _]. by apply root_host_trusted.
  - destruct (is_intermediate_host host) eqn:Ei; [|done]. by apply intermediate_host_trusted.
Qed.

(** C33: a URI that passes [is_valid_crl_uri] can only make the service
    contact an Intel host over TLS: it is [https://host/...] where the
    authority is exactly a host of the allow list with an optional label
    prefix, so no user info, port or encoded delimiter can redirect it. *)
Theorem crl_uri_only_trusted_hosts (uri : string) :
  is_valid_crl_uri uri = true →
  (String.length uri <= 2048)%nat ∧
  ∃ host path, uri = ("https://" ++ host ++ "/" ++ path)%string ∧
    trusted_host host ∧ str_all is_host_char host = true.
Proof.
  unfold is_valid_crl_uri.
  destruct (is_empty uri || (2048 <? String.length uri)%nat) eqn:E; [done|].
  intros Hv. bool_to_prop. split; [done|].
  destruct (crl_uri_host uri Hv) as (host & path & -> & Hh).
  exists host, path. split_and!; [done..|]. by apply trusted_host_plain.
Qed.

Lemma crl_uri_only_trusted_hosts_witness :
  ∃ host path, "https://certificates.trustedservices.intel.com/IntelSGXRootCA.der"%string =
    ("https://" ++ host ++ "/" ++ path)%string ∧
    trusted_host host ∧ str_all is_host_char host = true.
Proof.
  exact (proj2 (crl_uri_only_trusted_hosts
    "https://certificates.trustedservices.intel.com/IntelSGXRootCA.der" eq_refl)).
Defined.

(** ** Bodies *)

(** A registration in the form the store and the upstream client expect:
    upper-case identifiers of the right width, and either a manifest alone or
    the three hex fields alone. *)
Definition hex_field (n : nat) (s : string) : Prop := is_hex s n = true ∧ to_upper s = s.

Record normal_reg (r : PlatformReg) : Prop := {
  nr_qe_id : (1 <= String.length (reg_qe_id r) <= 260)%nat ∧ to_upper (reg_qe_id r) = reg_qe_id r;
  nr_pce_id : hex_field 4 (reg_pce_id r);
  nr_payload :
    (reg_platform_manifest r = EmptyString ∧ hex_field 32 (reg_cpu_svn r) ∧
     hex_field 4 (reg_pce_svn r) ∧ hex_field 768 (reg_enc_ppid r)) ∨
    (reg_platform_manifest r ≠ EmptyString ∧ reg_cpu_svn r = EmptyString ∧
     reg_pce_svn r = EmptyString ∧ reg_enc_ppid r = EmptyString)
}.

Lemma hex_field_upper n s : is_hex s n = true → hex_field n (to_upper s).
Proof. intros Hs. split; [by rewrite is_hex_upper|apply upper_upper]. Qed.

Section body_theorems.
Context {V : Type} `{Json V} `{Base64}.

Lemma bad_qe_id_false s : bad_qe_id s = false → (1 <= String.length s <= 260)%nat.
Proof.
  unfold bad_qe_id. intros [He Hl]%orb_false_iff. bool_to_prop.
  destruct s; [done|]. simpl in *. lia.
Qed.

Lemma opt_str_absent (v : V) key s :
  opt_str v key = Ok (Some s) → has v key = true.
Proof.
  unfold opt_str, has. intros Hs. apply bool_decide_eq_true. by destruct (jget v key).
Qed.

(** A field that passed [has && !is_hex] and is not empty is hex. *)
Lemma present_hex (v : V) key o n :
  opt_str v key = Ok o →
  negb (has v key && negb (is_hex (default EmptyString o) n)) = true →
  is_empty (default EmptyString o) = false → is_hex (default EmptyString o) n = true.
Proof.
  intros Ho Hc He. destruct o as [s|]; [|done]. rewrite (opt_str_absent _ _ _ Ho) in Hc.
  cbn [andb] in Hc. by rewrite negb_involutive in Hc.
Qed.

(** a registration body is either rejected or normalised: identifiers
    are upper case with the right widths, and the result holds either a
    manifest and no SVN fields or all three SVN fields and no manifest. *)
Theorem platform_reg_normal (body : V) (r : PlatformReg) :
  platform_reg body = Ok r → normal_reg r.
Proof.
  unfold platform_reg.
  destruct (is_object body); [|done].
  destruct (req_str body "qe_id") as [qe|]; [|done]. cbn [mbind result_bind].
  destruct (bad_qe_id qe) eqn:Eq; [done|]. cbn [negb].
  destruct (req_str body "pce_id") as [pce|]; [|done]. cbn [mbind result_bind].
  destruct (is_hex pce 4) eqn:Ep; [|done].
  destruct (opt_str body "cpu_svn") as [cpu|] eqn:Ec; [|done]. cbn [fmap result_fmap mbind result_bind].
  destruct (opt_str body "pce_svn") as [psvn|] eqn:Es; [|done]. cbn [fmap result_fmap mbind result_bind].
  destruct (opt_str body "enc_ppid") as [ppid|] eqn:Ee; [|done]. cbn [fmap result_fmap mbind result_bind].
  destruct (negb (has body "cpu_svn" && _)) eqn:C1; [|done].
  destruct (negb (has body "pce_svn" && _)) eqn:C2; [|done].
  destruct (negb (has body "enc_ppid" && _)) eqn:C3; [|done].
  destruct (opt_str body "platform_manifest") as [m|] eqn:Em; [|done]. cbn [fmap result_fmap mbind result_bind].
  apply bad_qe_id_false in Eq.
  destruct (is_empty (default EmptyString m)) eqn:Eem.
  - destruct (negb (_ || _)) eqn:Ene; [|done]. intros [= <-].
    apply negb_true_iff, orb_false_iff in Ene as [[E1 E2]%orb_false_iff E3].
    split; cbn; [by rewrite to_upper_length, upper_upper|by apply hex_field_upper|].
    left. split_and!; [done|..]; apply hex_field_upper; by eapply present_hex.
  - intros [= <-]. split; cbn; [by rewrite to_upper_length, upper_upper|by apply hex_field_upper|].
    right. split_and!; [|done..]. by destruct (default EmptyString m).
Qed.

(** A cert entry as the store consumes it. *)
Definition good_cert_entry (c : V) : Prop :=
  ∃ tcbm cert, req_str c "tcbm" = Ok tcbm ∧ is_hex tcbm 36 = true ∧
    req_str c "cert" = Ok cert ∧ cert ≠ EmptyString ∧ is_obj_at c "tcb" = true.

Lemma check_cert_entry_ok c : check_cert_entry c = Ok () → good_cert_entry c.
Proof.
  unfold check_cert_entry. destruct (is_object c); [|done].
  destruct (is_obj_at c "tcb") eqn:Et; [|done].
  destruct (req_str c "tcbm") as [tcbm|] eqn:E1; [|done]. cbn [mbind result_bind].
  destruct (is_hex tcbm 36) eqn:E2; [|done].
  destruct (req_str c "cert") as [cert|] eqn:E3; [|done]. cbn [mbind result_bind].
  destruct (is_empty cert) eqn:E4; [done|]. intros _.
  exists tcbm, cert. split_and!; [done..| |done]. by intros ->.
Qed.

Definition good_pck_certs (pc : V) : Prop :=
  ∃ qe_id pce_id enc_ppid certs,
    req_str pc "qe_id" = Ok qe_id ∧ (1 <= String.length qe_id <= 260)%nat ∧
    req_str pc "pce_id" = Ok pce_id ∧ is_hex pce_id 4 = true ∧
    req_str pc "enc_ppid" = Ok enc_ppid ∧ is_hex_or_empty enc_ppid 768 = true ∧
    get_array pc "certs" = Some certs ∧ ∀ c, c ∈ certs → good_cert_entry c.

Lemma check_pck_certs_ok pc : check_pck_certs pc = Ok () → good_pck_certs pc.
Proof.
  unfold check_pck_certs. destruct (is_object pc); [|done].
  destruct (req_str pc "qe_id") as [qe|] eqn:E1; [|done]. cbn [mbind result_bind].
  destruct (bad_qe_id qe) eqn:E2; [done|]. cbn [negb].
  destruct (req_str pc "pce_id") as [pce|] eqn:E3; [|done]. cbn [mbind result_bind].
  destruct (is_hex pce 4) eqn:E4; [|done].
  destruct (req_str pc "enc_ppid") as [ppid|] eqn:E5; [|done]. cbn [mbind result_bind].
  destruct (is_hex_or_empty ppid 768) eqn:E6; [|done].
  destruct (ignore_str pc "platform_manifest") as [[]|]; [|done]. cbn [mbind result_bind].
  destruct (get_array pc "certs") as [certs|] eqn:E7; [|done]. cbn [ok_or mbind result_bind].
  intros Hall. exists qe, pce, ppid, certs. split_and!; [done|by apply bad_qe_id_false..|done|done|done|done|done|].
  intros c Hc. apply check_cert_entry_ok. by eapply try_each_ok in Hall.
Qed.

(** a collateral body that passes the schema has everything the writer
    of the cache relies on: the [collaterals] object (version 4 for the v4
    API), and for every platform of [pck_certs] a bounded [qe_id], a four
    digit [pce_id], a hex or empty [enc_ppid] and certificates with a 36
    digit [tcbm] and a non-empty body. *)
Theorem platform_collateral_sound (body : V) (version : Z) :
  platform_collateral body version = Ok () →
  ∃ collaterals pck_certs tcbinfos,
    get_object body "collaterals" = Some collaterals ∧
    (4 <= version → get_u64 collaterals "version" = Some 4) ∧
    get_array collaterals "pck_certs" = Some pck_certs ∧
    (∀ pc, pc ∈ pck_certs → good_pck_certs pc) ∧
    get_array collaterals "tcbinfos" = Some tcbinfos ∧
    (∀ t, t ∈ tcbinfos → ∃ f, req_str t "fmspc" = Ok f).
Proof.
  unfold platform_collateral. destruct (is_object body); [|done].
  destruct (get_array body "platforms") as [platforms|]; [|done]. cbn [ok_or mbind result_bind].
  destruct (try_each check_platform platforms) as [[]|]; [|done]. cbn [mbind result_bind].
  destruct (get_object body "collaterals") as [coll|]; [|done]. cbn [ok_or mbind result_bind].
  destruct (negb (_ && _)) eqn:Ev; [|done].
  destruct (get_array coll "pck_certs") as [pcs|] eqn:Ep; [|done]. cbn [ok_or mbind result_bind].
  destruct (try_each check_pck_certs pcs) as [[]|] eqn:Epc; [|done]. cbn [mbind result_bind].
  destruct (get_array coll "tcbinfos") as [ts|] eqn:Et; [|done]. cbn [ok_or mbind result_bind].
  destruct (try_each (check_tcbinfo (tcb_fields version)) ts) as [[]|] eqn:Etc; [|done].
  intros _. exists coll, pcs, ts. split_and!; [done| |done| |done|].
  - intros Hv. rewrite (proj2 (Z.leb_le _ _) Hv) in Ev. cbn [andb] in Ev.
    rewrite negb_involutive in Ev. by apply bool_decide_eq_true in Ev.
  - intros pc Hpc. apply check_pck_certs_ok. by eapply try_each_ok in Epc.
  - intros t Ht. pose proof (proj1 (try_each_ok _ _) Etc t Ht) as Hc. unfold check_tcbinfo in Hc.
    destruct (is_object t); [|done]. destruct (req_str t "fmspc"); [by eexists|done].
Qed.

(** a policy is accepted only with one of the three policy types, and
    the type is that of the first entry that is not a TDQE entry. *)
Theorem policy_type_first (array : list V) (t : Z) :
  policy_type_loop array = Ok t →
  ∃ tdqe policy rest id,
    array = tdqe ++ policy :: rest ∧
    Forall (λ p, ∃ s, (e ← jget p "environment"; v ← jget e "class_id"; as_str v) = Some s ∧
                      to_lower s = CLASS_ID_TDQE) tdqe ∧
    (e ← jget policy "environment"; v ← jget e "class_id"; as_str v) = Some id ∧
    ((t = 0 ∧ to_lower id = CLASS_ID_SGX) ∨ (t = 1 ∧ to_lower id = CLASS_ID_TDX_10) ∨
     (t = 2 ∧ to_lower id = CLASS_ID_TDX_15)).
Proof.
  induction array as [|policy rest IH]; [done|]. cbn [policy_type_loop].
  destruct (e ← jget policy "environment"; v ← jget e "class_id"; as_str v) as [id|] eqn:Ei; [|done].
  cbn [ok_or mbind result_bind].
  destruct (String.eqb (to_lower id) CLASS_ID_SGX) eqn:E1.
  { intros [= <-]. exists [], policy, rest, id. bool_to_prop. split_and!; [done|constructor|done|by left]. }
  destruct (String.eqb (to_lower id) CLASS_ID_TDX_10) eqn:E2.
  { intros [= <-]. exists [], policy, rest, id. bool_to_prop.
    split_and!; [done|constructor|done|right; by left]. }
  destruct (String.eqb (to_lower id) CLASS_ID_TDX_15) eqn:E3.
  { intros [= <-]. exists [], policy, rest, id. bool_to_prop.
    split_and!; [done|constructor|done|right; by right]. }
  destruct (String.eqb (to_lower id) CLASS_ID_TDQE) eqn:E4; [|done].
  intros (tdqe & p & r & i & -> & HF & Hi & Ht)%IH.
  exists (policy :: tdqe), p, r, i. split_and!; [done| |done|done].
  constructor; [|done]. exists id. split; [done|]. by apply String.eqb_eq.
Qed.
End body_theorems.

(** GET /platforms: every FMSPC of the list is twelve upper-case digits. *)
Lemma platforms_source_fmspcs source l :
  platforms_source source = Ok (Fmspc l) → Forall (λ f, String.length f = 12%nat ∧ hex_field 12 f) l.
Proof.
  unfold platforms_source. destruct source as [s|]; [|done]. cbv zeta.
  destruct (_ || _); [done|]. destruct (String.eqb s "reg_na"); [done|].
  destruct (_ || _); [done|]. destruct (is_empty _); [by intros [= <-]|].
  destruct (try_map _ _) as [fs|] eqn:E; [|done]. intros [= <-].
  apply try_map_ok in E. apply list.Forall_forall. intros f [i Hi]%list_elem_of_lookup_1.
  eapply Forall2_lookup_r in E as (part & _ & Hf); [|exact Hi].
  destruct (require_hex_canonical _ _ _ Hf) as (Hl & Hh & Hu & _).
  split; [done|]. split; [|done]. unfold is_hex. by rewrite Hl, Hh.
Qed.

(** ** Concrete runs *)

Import Concrete.

Definition sample_reg : jvalue :=
  JObj [("qe_id", JStr "ab01"); ("pce_id", JStr "00aa"); ("platform_manifest", JStr "m")].

Lemma platform_reg_normal_witness :
  normal_reg {| reg_qe_id := "AB01"; reg_pce_id := "00AA"; reg_cpu_svn := ""; reg_pce_svn := "";
                reg_enc_ppid := ""; reg_platform_manifest := "m" |}.
Proof. apply (platform_reg_normal sample_reg). vm_compute. reflexivity. Defined.

Definition sample_collateral : jvalue :=
  JObj [("platforms", JArr []);
        ("collaterals",
          JObj [("version", JInt 4);
                ("pck_certs", JArr [JObj [("qe_id", JStr "ab"); ("pce_id", JStr "0000");
                   ("enc_ppid", JStr ""); ("certs", JArr [JObj [("tcb", JObj []);
                     ("tcbm", JStr "000000000000000000000000000000000000"); ("cert", JStr "c")]])]]);
                ("tcbinfos", JArr [JObj [("fmspc", JStr "f")]]);
                ("certificates", JObj [("SGX-PCK-Certificate-Issuer-Chain", JObj [])])])].

Lemma platform_collateral_sound_witness :
  ∃ collaterals pck_certs, get_object sample_collateral "collaterals" = Some collaterals ∧
    get_array collaterals "pck_certs" = Some pck_certs ∧
    (∀ pc, pc ∈ pck_certs → good_pck_certs pc).
Proof.
  destruct (platform_collateral_sound sample_collateral 4) as (c & p & t & H1 & _ & H2 & H3 & _);
    [vm_compute; reflexivity|].
  exists c, p. split; [exact H1|]. split; [exact H2|exact H3].
Defined.

Definition sample_policies : list jvalue :=
  [JObj [("environment", JObj [("class_id", JStr "3769258C-75e6-4bc7-8d72-d2b0e224cad2")])];
   JObj [("environment", JObj [("class_id", JStr CLASS_ID_TDX_10)])]].

Lemma policy_type_first_witness :
  ∃ tdqe policy rest, sample_policies = tdqe ++ policy :: rest ∧
    policy_type_loop sample_policies = Ok 1.
Proof.
  destruct (policy_type_first sample_policies 1) as (a & p & r & _ & H & _);
    [vm_compute; reflexivity|].
  exists a, p, r. split; [exact H|vm_compute; reflexivity].
Defined.
