(* ===== verification/Ocsp.v ===== *)
(** * Ocsp: the NVIDIA OCSP request key and response expiry (src/src/ocsp.rs)

    The source threads a [&mut &[u8]] cursor through its parsers; here a
    parser is a function from the remaining bytes to a value and the bytes
    left, with the error monad of the service.  Every error of the module is
    [INVALID_REQ]; the loops recurse with the length of their input as fuel
    and would return [INTERNAL_ERROR] without it, which
    [parse_request_error] and [response_validity_error] exclude. *)

From Stdlib Require Import ZArith Lia.
From stdpp Require Import base list strings option.
From S2P Require Import Prelude Text Errors Env PckCert.

Local Open Scope Z_scope.
Local Open Scope rust_scope.

(** ** Cursor parsers *)

Definition parser (A : Type) : Type := list Z → res (A * list Z).

#[export] Instance parser_ret : MRet parser := λ A a input, Ok (a, input).
#[export] Instance parser_bind : MBind parser := λ A B f p input,
  match p input with Ok (a, rest) => f a rest | Err e => Err e end.

Definition fail {A} (e : PccsError) : parser A := λ _, Err e.
(** A computation that does not touch the cursor. *)
Definition lift {A} (c : res A) : parser A := λ input, a ← c; Ok (a, input).

(** [if !fields.is_empty() { return Err(INVALID_REQ) }] *)
Definition at_end : parser unit := λ input,
  match input with [] => Ok ((), []) | _ => Err INVALID_REQ end.

(** [if !fields.is_empty() { p }] *)
Definition when_more (p : parser unit) : parser unit := λ input,
  match input with [] => Ok ((), []) | _ => p input end.

Definition peek_tag (input : list Z) : option Z := head input.

(** [if peek_tag(fields) == Some(tag) { p }], with the value of [p] *)
Definition when_tag {A} (tag : Z) (p : parser A) : parser (option A) := λ input,
  if bool_decide (peek_tag input = Some tag)
  then '(a, rest) ← p input; Ok (Some a, rest) else Ok (None, input).

(** Run a parser on a field's contents; what it leaves is ignored, unless it
    ends in [at_end]. *)
Definition within {A} (p : parser A) (input : list Z) : res A := '(a, _) ← p input; Ok a.

(** [while !input.is_empty() { .. p .. }], collecting the results. *)
Fixpoint many {A} (fuel : nat) (p : parser A) (input : list Z) : res (list A) :=
  match input with
  | [] => Ok []
  | _ =>
      match fuel with
      | O => Err INTERNAL_ERROR
      | S fuel' => '(a, rest) ← p input; l ← many fuel' p rest; Ok (a :: l)
      end
  end.

(** ** TLVs *)

Record Tlv := { tag : Z; value : list Z; raw : list Z }.

(** The long-form length, with the checked arithmetic of the source. *)
Definition long_len (l : list Z) : option Z :=
  fold_left (λ acc b, v ← acc; m ← checked_mul v 256; checked_add m b) l (Some 0).

Definition tlv_lengths (original : list Z) (first_len : Z) : res (Z * Z) :=
  if Z.land first_len 0x80 =? 0 then Ok (2, first_len)
  else
    let count := Z.land first_len 0x7f in
    if (count =? 0) || (8 <? count) || (Z.of_nat (length original) <? 2 + count)
    then Err INVALID_REQ
    else if bool_decide (original !! 2%nat = Some 0) then Err INVALID_REQ
    else
      value_len ← ok_or (long_len (take (Z.to_nat count) (drop 2 original))) INVALID_REQ;
      if value_len <? 128 then Err INVALID_REQ else Ok (2 + count, value_len).

Definition take_tlv : parser Tlv := λ original,
  match original with
  | tag :: first_len :: _ =>
      if Z.land tag 0x1f =? 0x1f then Err INVALID_REQ
      else
        '(header_len, value_len) ← tlv_lengths original first_len;
        total_len ← ok_or (checked_add header_len value_len) INVALID_REQ;
        if Z.of_nat (length original) <? total_len then Err INVALID_REQ
        else
          let raw := take (Z.to_nat total_len) original in
          Ok ({| tag := tag; value := drop (Z.to_nat header_len) raw; raw := raw |},
              drop (Z.to_nat total_len) original)
  | _ => Err INVALID_REQ
  end.

Definition take_expected (expected_tag : Z) : parser Tlv :=
  t ← take_tlv; if negb (tag t =? expected_tag) then fail INVALID_REQ else mret t.

Definition parse_single (input : list Z) (expected_tag : Z) : res Tlv :=
  within (t ← take_expected expected_tag; _ ← at_end; mret t) input.

(** ** Requests *)

(** One iteration of [validate_extensions]. *)
Definition extension : parser unit :=
  ext ← take_expected 0x30;
  lift (within (_ ← take_expected 0x06;
                _ ← when_tag 0x01 (take_expected 0x01);
                _ ← take_expected 0x04;
                at_end) (value ext)).

Definition validate_extensions (extensions : list Z) : res unit :=
  _ ← many (length extensions) extension extensions; Ok ().

(** One iteration of [validate_request_list]. *)
Definition single_request : parser unit :=
  request ← take_expected 0x30;
  lift (within (_ ← take_expected 0x30;
                _ ← when_more (_ ← take_expected 0xa0; mret ());
                at_end) (value request)).

Definition validate_request_list (request_list : list Z) : res unit :=
  match request_list with
  | [] => Err INVALID_REQ
  | _ => _ ← many (length request_list) single_request request_list; Ok ()
  end.

Section ocsp.
Context `{Sha2} `{Chrono}.

Record OcspRequest := { cache_key : string }.

(** The part of the loop body after [requestList] was found. *)
Definition finish_request (field : Tlv) : parser OcspRequest :=
  _ ← lift (validate_request_list (value field));
  _ ← when_more (extensions ← take_expected 0xa2;
                 lift (e ← parse_single (value extensions) 0x30;
                       validate_extensions (value e)));
  _ ← at_end;
  mret {| cache_key := hex_encode (sha256 (raw field)) |}.

(** The loop over the fields of TBSRequest. *)
Fixpoint tbs_loop (fuel : nat) (fields : list Z) : res OcspRequest :=
  match fields with
  | [] => Err INVALID_REQ
  | _ =>
      match fuel with
      | O => Err INTERNAL_ERROR
      | S fuel' =>
          '(field, rest) ← take_tlv fields;
          if (tag field =? 0xa0) || (tag field =? 0xa1) then tbs_loop fuel' rest
          else if tag field =? 0x30 then within (finish_request field) rest
          else Err INVALID_REQ
      end
  end.

Definition parse_request (request : list Z) : res OcspRequest :=
  outer ← parse_single request 0x30;
  tbs ← within (take_expected 0x30) (value outer);
  tbs_loop (length (value tbs)) (value tbs).

(** ** Responses *)

Record ResponseValidity := {
  this_update : Z;
  next_update : option Z;
  unknown : bool
}.

Definition CERT_STATUS_UNKNOWN : Z := 0x82.

Definition OID_OCSP_BASIC : list Z := [0x2b; 0x06; 0x01; 0x05; 0x05; 0x07; 0x30; 0x01; 0x01].

Definition parse_generalized_time (l : list Z) : res Z :=
  if negb (utf8_valid l) then Err INVALID_REQ
  else
    let s := of_bytes l in
    match parse_naive "%Y%m%d%H%M%SZ" s with
    | Some t => Ok t
    | None =>
    match parse_naive "%Y%m%d%H%M%S%.fZ" s with
    | Some t => Ok t
    | None =>
    match parse_offset "%Y%m%d%H%M%S%z" s with
    | Some t => Ok t
    | None => ok_or (parse_offset "%Y%m%d%H%M%S%.f%z" s) INVALID_REQ
    end end end.

(** One iteration over the single responses. *)
Definition single_response : parser ResponseValidity :=
  single ← take_expected 0x30;
  lift (within (
    _ ← take_expected 0x30;
    cert_status ← take_tlv;
    _ ← (if negb (Z.land (tag cert_status) 0xc0 =? 0x80) then fail INVALID_REQ else mret ());
    this ← take_expected 0x18;
    this_update ← lift (parse_generalized_time (value this));
    next ← when_tag 0xa0
             (explicit ← take_expected 0xa0;
              lift (v ← parse_single (value explicit) 0x18;
                    parse_generalized_time (value v)));
    _ ← when_more (_ ← take_expected 0xa1; mret ());
    _ ← at_end;
    mret {| this_update := this_update; next_update := next;
            unknown := tag cert_status =? CERT_STATUS_UNKNOWN |}) (value single)).

Definition response_validity (response : list Z) : res (list ResponseValidity) :=
  outer ← parse_single response 0x30;
  response_bytes ← within (
    status ← take_expected 0x0a;
    _ ← (if negb (bool_decide (value status = [0])) then fail INVALID_REQ else mret ());
    take_expected 0xa0) (value outer);
  response_bytes ← parse_single (value response_bytes) 0x30;
  basic_der ← within (
    response_type ← take_expected 0x06;
    _ ← (if negb (bool_decide (value response_type = OID_OCSP_BASIC)) then fail INVALID_REQ
         else mret ());
    take_expected 0x04) (value response_bytes);
  basic ← parse_single (value basic_der) 0x30;
  response_data ← within (
    response_data ← take_expected 0x30;
    _ ← take_expected 0x30;
    _ ← take_expected 0x03;
    _ ← when_more (certs ← take_expected 0xa0;
                   _ ← lift (parse_single (value certs) 0x30); mret ());
    _ ← at_end;
    mret response_data) (value basic);
  responses ← within (
    _ ← when_tag 0xa0 (take_expected 0xa0);
    responder_id ← take_tlv;
    _ ← (let id_tag := Z.land (tag responder_id) 0x1f in
         if negb (Z.land (tag responder_id) 0xc0 =? 0x80) || negb ((id_tag =? 1) || (id_tag =? 2))
         then fail INVALID_REQ else mret ());
    _ ← take_expected 0x18;
    take_expected 0x30) (value response_data);
  validity ← many (length (value responses)) single_response (value responses);
  match validity with [] => Err INVALID_REQ | _ => Ok validity end.

(** One iteration of the expiry loop; the state is [expires_at]. *)
Definition expiry_step (now default_ttl : Z) (expires_at : Z) (item : ResponseValidity) : res Z :=
  if unknown item then Err INVALID_REQ
  else if now <? this_update item then Err INVALID_REQ
  else
    let signed_expiry := match next_update item with
                         | Some t => t
                         | None => i64_sat_add (this_update item) default_ttl
                         end in
    Ok (Z.min expires_at signed_expiry).

Definition response_cache_expiry (response : list Z) (now max_ttl_seconds default_ttl_seconds : Z) :
    res Z :=
  validity ← response_validity response;
  default_ttl ← ok_or (i64_try_from default_ttl_seconds) INTERNAL_ERROR;
  max_ttl ← ok_or (i64_try_from max_ttl_seconds) INTERNAL_ERROR;
  expires_at ← ok_or (i64_checked_add now max_ttl) INTERNAL_ERROR;
  expires_at ← try_fold (expiry_step now default_ttl) expires_at validity;
  if expires_at <=? now then Err INVALID_REQ
  else ok_or (u64_try_from expires_at) INTERNAL_ERROR.
End ocsp.

(** ** Lengths *)

Lemma byte_forall (p : Z → bool) b :
  forallb p (map Z.of_nat (seq 0 256)) = true → is_byte b → p b = true.
Proof.
  intros Hp [H0 H1]. apply (proj1 (forallb_forall _ _) Hp).
  apply in_map_iff. exists (Z.to_nat b). split; [lia|]. apply in_seq. lia.
Qed.

Lemma land_128 b :
  is_byte b → (Z.land b 128 =? 0) = (b <? 128) ∧ Z.land b 127 = (if b <? 128 then b else b - 128).
Proof.
  intros Hb.
  assert (H : Bool.eqb (Z.land b 128 =? 0) (b <? 128) &&
              (Z.land b 127 =? (if b <? 128 then b else b - 128)) = true)
    by (apply (byte_forall (λ b, Bool.eqb (Z.land b 128 =? 0) (b <? 128) &&
          (Z.land b 127 =? (if b <? 128 then b else b - 128)))); [vm_compute; reflexivity|done]).
  apply andb_true_iff in H as [H1 H2]. split; [by apply eqb_prop|by apply Z.eqb_eq].
Qed.

Lemma long_len_step v b :
  0 <= b → v * 256 + b <= u64_max →
  (v ← Some v; m ← checked_mul v 256; checked_add m b) = Some (v * 256 + b).
Proof.
  intros Hb Hm. cbn [mbind option_bind]. unfold checked_mul, checked_add.
  rewrite (proj2 (Z.leb_le _ _)) by lia. cbn [mbind option_bind].
  by rewrite (proj2 (Z.leb_le _ _)) by lia.
Qed.

Lemma long_len_fold l v :
  0 <= v → Forall is_byte l → v * 256 ^ Z.of_nat (length l) + be_value l <= u64_max →
  fold_left (λ acc b, v ← acc; m ← checked_mul v 256; checked_add m b) l (Some v) =
    Some (v * 256 ^ Z.of_nat (length l) + be_value l).
Proof.
  intros Hv Hl. revert v Hv. induction Hl as [|b l Hb Hl IH]; intros v Hv Hmax.
  - cbn. f_equal. lia.
  - cbn [fold_left]. rewrite be_value_cons in * by (by apply list.Forall_cons).
    cbn [Datatypes.length] in *. rewrite Nat2Z.inj_succ, Z.pow_succ_r in * by lia.
    pose proof (be_value_bounds l Hl) as Hbl. destruct Hb as [Hb0 Hb1]. change (2 ^ 8) with 256 in Hb1.
    assert (Hle : v * 256 + b <= u64_max) by nia.
    rewrite long_len_step by lia. rewrite IH by nia. f_equal. ring.
Qed.

Lemma long_len_value l :
  Forall is_byte l → (length l <= 8)%nat → long_len l = Some (be_value l).
Proof.
  intros Hl Hn. unfold long_len. pose proof (be_value_bounds l Hl).
  assert (256 ^ Z.of_nat (length l) <= 256 ^ 8) by (apply Z.pow_le_mono_r; lia).
  rewrite long_len_fold; [done|lia|done|]. unfold u64_max. lia.
Qed.

Lemma be_bytes_of_value l : Forall is_byte l → be_bytes (length l) (be_value l) = l.
Proof.
  induction 1 as [|b l Hb Hl IH]; [done|]. cbn [Datatypes.length be_bytes].
  rewrite be_value_cons by (by apply list.Forall_cons).
  pose proof (be_value_bounds l Hl) as [H0 H1].
  set (p := 256 ^ Z.of_nat (length l)) in *. destruct Hb as [Hb0 _].
  rewrite (Z.mul_comm p b), Z.div_add_l, Z.div_small, Z.add_0_r by lia.
  rewrite Z.add_comm, Z.mod_add, Z.mod_small by lia. by rewrite IH.
Qed.

(** The number of octets is determined by the value. *)
Lemma len_octets_unique n len :
  (1 <= n <= 8)%nat → 128 <= len < 256 ^ Z.of_nat n → 256 ^ (Z.of_nat n - 1) <= len →
  len_octets len = n.
Proof.
  intros Hn Hlen Hge. unfold len_octets.
  assert (n = 1 ∨ n = 2 ∨ n = 3 ∨ n = 4 ∨ n = 5 ∨ n = 6 ∨ n = 7 ∨ n = 8)%nat as Hc by lia.
  repeat match goal with
  | |- context [if (len <? ?x) then _ else _] => destruct (Z.ltb_spec len x)
  end; repeat (destruct Hc as [->|Hc]; [cbn in *; lia|]); subst; cbn in *; lia.
Qed.

(** ** [take_tlv] is exactly DER *)

Lemma drop_two {A} (a b : A) l : drop 2 (a :: b :: l) = l.
Proof. done. Qed.

Lemma len_octets_head len :
  128 <= len < 2 ^ 64 →
  ∃ b l, be_bytes (len_octets len) len = b :: l ∧ b ≠ 0.
Proof.
  intros Hlen. destruct (len_octets_spec len) as (Hn & Hlt & Hge & _); [lia|].
  destruct (len_octets len) as [|n] eqn:En; [lia|]. cbn [be_bytes]. do 2 eexists. split; [done|].
  assert (Hp : 0 < 256 ^ Z.of_nat n) by (apply Z.pow_pos_nonneg; lia).
  assert (256 ^ Z.of_nat n <= len).
  { destruct Hge as [Hge|Hge].
    - unfold len_octets in En. rewrite (proj2 (Z.ltb_lt _ _)) in En by lia. injection En as <-.
      cbn. lia.
    - by replace (Z.of_nat (S n) - 1) with (Z.of_nat n) in Hge by lia. }
  pose proof (Z.div_str_pos len (256 ^ Z.of_nat n)). lia.
Qed.

Lemma tlv_lengths_enc t len first more x :
  0 <= len < 2 ^ 64 → enc_len len = first :: more →
  tlv_lengths (t :: first :: more ++ x) first = Ok (1 + Z.of_nat (length (enc_len len)), len).
Proof.
  intros Hlen E. unfold enc_len in E |- *. unfold tlv_lengths.
  destruct (Z.ltb_spec len 128) as [Hs|Hl]; injection E as <- <-.
  - destruct (land_128 len) as [-> _]; [split; lia|]. by rewrite (proj2 (Z.ltb_lt _ _)).
  - destruct (len_octets_spec len Hlen) as (Hn & Hlt & _ & _).
    destruct (be_bytes_value (len_octets len) len) as [HF HV]; [lia|].
    destruct (land_128 (128 + Z.of_nat (len_octets len))) as [-> ->]; [split; lia|].
    rewrite (proj2 (Z.ltb_ge _ _)) by lia.
    replace (128 + Z.of_nat (len_octets len) - 128) with (Z.of_nat (len_octets len)) by lia.
    cbv zeta. cbn [Datatypes.length]. rewrite length_app, be_bytes_length.
    rewrite (proj2 (Z.eqb_neq _ _)), !(proj2 (Z.ltb_ge _ _)) by lia. cbn [orb].
    destruct (len_octets_head len) as (b & l & Eb & Hb0); [lia|].
    rewrite bool_decide_eq_false_2 by (cbn; rewrite Eb; cbn; congruence).
    rewrite drop_two, Nat2Z.id, take_app_length' by (by rewrite be_bytes_length).
    rewrite long_len_value by (done || rewrite be_bytes_length; lia). cbn [ok_or mbind result_bind].
    rewrite HV, (proj2 (Z.ltb_ge _ _)) by lia. do 2 f_equal. lia.
Qed.

Lemma tlv_lengths_canonical t first l h v :
  Forall is_byte (t :: first :: l) → tlv_lengths (t :: first :: l) first = Ok (h, v) →
  ∃ more l', l = more ++ l' ∧ enc_len v = first :: more ∧ h = 2 + Z.of_nat (length more) ∧
    0 <= v < 2 ^ 64.
Proof.
  intros HF H. apply list.Forall_cons in HF as [_ [Hf Hl]%list.Forall_cons].
  unfold tlv_lengths in H. destruct (land_128 first Hf) as [E1 E2]. rewrite E1, E2 in H.
  destruct (Z.ltb_spec first 128) as [Hs|Hs].
  - injection H as <- <-. exists [], l. destruct Hf as [Hf0 _].
    split_and!; [done| |done|lia|lia]. unfold enc_len. by rewrite (proj2 (Z.ltb_lt _ _)).
  - cbv zeta in H. destruct (_ || _) eqn:Eb; [done|].
    apply orb_false_iff in Eb as [[Ec0 Ec8]%orb_false_iff Elen]. bool_to_prop.
    set (n := Z.to_nat (first - 128)) in *. cbn [Datatypes.length] in *. rewrite drop_two in H.
    assert (Hn : (1 <= n <= 8)%nat) by lia.
    assert (Hlen : length (take n l) = n) by (rewrite length_take; lia).
    assert (HFt : Forall is_byte (take n l)) by (by apply Forall_take).
    destruct (bool_decide _) eqn:Ez; [done|]. apply bool_decide_eq_false in Ez.
    rewrite long_len_value in H by (done || lia). cbn [ok_or mbind result_bind] in H.
    destruct (Z.ltb_spec (be_value (take n l)) 128) as [|Hv]; [done|]. injection H as <- <-.
    pose proof (be_value_bounds _ HFt) as Hb. rewrite Hlen in Hb.
    assert (256 ^ Z.of_nat n <= 256 ^ 8) by (apply Z.pow_le_mono_r; lia).
    assert (Hge : 256 ^ (Z.of_nat n - 1) <= be_value (take n l)).
    { destruct (take n l) as [|b r] eqn:Et; [simpl in Hlen; lia|].
      rewrite be_value_cons by done. apply list.Forall_cons in HFt as [[Hb0 _] HFr].
      pose proof (be_value_bounds _ HFr) as Hbr. cbn [Datatypes.length] in Hlen.
      replace (Z.of_nat n - 1) with (Z.of_nat (length r)) by lia.
      assert (0 < 256 ^ Z.of_nat (length r)) by (apply Z.pow_pos_nonneg; lia).
      assert (b ≠ 0).
      { intros ->. apply Ez. cbn. destruct l as [|b' l']; [by rewrite firstn_nil in Et|].
        destruct n as [|n']; [lia|]. rewrite firstn_cons in Et. cbn. congruence. }
      nia. }
    exists (take n l), (drop n l). split; [by rewrite take_drop|].
    assert (En : len_octets (be_value (take n l)) = n) by (apply len_octets_unique; lia).
    split_and!; [|rewrite Hlen; lia|lia|lia].
    unfold enc_len. rewrite (proj2 (Z.ltb_ge _ _)) by lia. rewrite En.
    f_equal; [lia|]. rewrite <- Hlen at 1. by apply be_bytes_of_value.
Qed.

Definition der_item (t : Z) (v : list Z) : Prop :=
  is_byte t ∧ Z.land t 0x1f ≠ 0x1f ∧ Forall is_byte v ∧ Z.of_nat (length v) < 2 ^ 63.

(** A DER element in front of anything is taken off, with its raw bytes. *)
Lemma take_tlv_enc t v rest :
  der_item t v →
  take_tlv (enc_tlv t v ++ rest) = Ok ({| tag := t; value := v; raw := enc_tlv t v |}, rest).
Proof.
  intros (Ht & Htag & Hv & Hl). unfold enc_tlv.
  set (len := Z.of_nat (length v)) in *.
  assert (Hne : enc_len len ≠ []) by (unfold enc_len; by destruct (_ <? _)).
  pose proof (enc_len_length len) as Hel.
  destruct (enc_len len) as [|first more] eqn:E; [done|].
  cbn [app]. unfold take_tlv. rewrite (proj2 (Z.eqb_neq _ _) Htag).
  rewrite <- app_assoc, (tlv_lengths_enc t len) by (done || lia).
  cbn [mbind result_bind]. rewrite E. unfold checked_add.
  cbn [Datatypes.length] in *.
  rewrite (proj2 (Z.leb_le _ _)) by (unfold u64_max; lia). cbn [ok_or mbind result_bind].
  rewrite !length_app, (proj2 (Z.ltb_ge _ _)) by lia. cbv zeta.
  replace (Z.to_nat (1 + Z.of_nat (S (length more)) + len))
    with (length (t :: first :: more ++ v)) by (cbn [Datatypes.length]; rewrite length_app; lia).
  rewrite app_assoc, !app_comm_cons, take_app_length, drop_app_length.
  replace (Z.to_nat (1 + Z.of_nat (S (length more)))) with (length (t :: first :: more))
    by (cbn [Datatypes.length]; lia).
  by rewrite drop_app_length.
Qed.

(** What [take_tlv] accepts is DER: the raw bytes are the unique encoding of
    tag and contents, followed by the rest. *)
Lemma take_tlv_canonical input t rest :
  Forall is_byte input → take_tlv input = Ok (t, rest) →
  input = raw t ++ rest ∧ raw t = enc_tlv (tag t) (value t) ∧
  is_byte (tag t) ∧ Forall is_byte (value t) ∧ Forall is_byte rest ∧
  (length (value t) + 2 <= length (raw t))%nat.
Proof.
  intros HF H. unfold take_tlv in H. destruct input as [|tg [|first l]]; [done..|].
  destruct (_ =? 31); [done|].
  destruct (tlv_lengths (tg :: first :: l) first) as [[h v]|] eqn:El; [|done]. cbn [mbind result_bind] in H.
  destruct (tlv_lengths_canonical _ _ _ _ _ HF El) as (more & l' & -> & Eenc & -> & Hv).
  unfold checked_add in H. destruct (_ <=? u64_max) eqn:Eo; [|done]. cbn [ok_or mbind result_bind] in H.
  destruct (Z.ltb_spec (Z.of_nat (length (tg :: first :: more ++ l'))) (2 + Z.of_nat (length more) + v))
    as [|Hle]; [done|]. injection H as <- <-. cbn [tag value raw].
  cbn [Datatypes.length] in Hle. rewrite length_app in Hle.
  set (c := take (Z.to_nat v) l').
  assert (Hc : length c = Z.to_nat v) by (subst c; rewrite length_take; lia).
  assert (Hraw : take (Z.to_nat (2 + Z.of_nat (length more) + v)) (tg :: first :: more ++ l') =
                 (tg :: first :: more) ++ c).
  { rewrite !app_comm_cons. rewrite take_app_ge by (cbn [Datatypes.length]; lia).
    f_equal. subst c. f_equal. cbn [Datatypes.length]. lia. }
  rewrite Hraw.
  assert (Hdrop : drop (Z.to_nat (2 + Z.of_nat (length more))) ((tg :: first :: more) ++ c) = c).
  { replace (Z.to_nat (2 + Z.of_nat (length more))) with (length (tg :: first :: more))
      by (cbn [Datatypes.length]; lia). apply drop_app_length. }
  rewrite Hdrop. split_and!.
  - rewrite <- Hraw. by rewrite take_drop.
  - unfold enc_tlv. rewrite Hc, Z2Nat.id, Eenc by lia. done.
  - by apply list.Forall_cons in HF as [? _].
  - subst c. apply Forall_take. rewrite !app_comm_cons in HF. by apply Forall_app in HF as [_ ?].
  - by apply Forall_drop.
  - rewrite length_app. cbn [Datatypes.length]. lia.
Qed.

(** ** A small Hoare logic for the cursor parsers

    [parses k Q p]: on bytes, [p] consumes at least [k] of them and returns a
    value in [Q], or fails with [INVALID_REQ]. *)

Definition parses {A} (k : nat) (Q : A → Prop) (p : parser A) : Prop :=
  ∀ input, Forall is_byte input →
    match p input with
    | Ok (a, rest) => Q a ∧ Forall is_byte rest ∧ (length rest + k <= length input)%nat
    | Err e => e = INVALID_REQ
    end.

Definition computes {A} (Q : A → Prop) (c : res A) : Prop :=
  match c with Ok a => Q a | Err e => e = INVALID_REQ end.

Definition tlv_ok (t : Tlv) : Prop := Forall is_byte (value t).

Definition anything {A} (_ : A) : Prop := True.

Lemma parses_ret {A} (Q : A → Prop) a : Q a → parses 0 Q (mret a).
Proof. intros Ha input HF. cbn. split_and!; [done..|lia]. Qed.

Lemma parses_fail {A} (Q : A → Prop) : parses 0 Q (fail INVALID_REQ).
Proof. done. Qed.

Lemma parses_bind {A B} k1 k2 (Q : A → Prop) (R : B → Prop) (p : parser A) (f : A → parser B) :
  parses k1 Q p → (∀ a, Q a → parses k2 R (f a)) → parses (k1 + k2) R (p ≫= f).
Proof.
  intros Hp Hf input HF. specialize (Hp input HF). unfold mbind, parser_bind.
  destruct (p input) as [[a rest]|e]; [|done]. destruct Hp as (Ha & HFr & Hl).
  specialize (Hf a Ha rest HFr). destruct (f a rest) as [[b rest']|e]; [|done].
  destruct Hf as (? & ? & ?). split_and!; [done..|lia].
Qed.

Lemma parses_weaken {A} k k' (Q : A → Prop) (p : parser A) :
  (k' <= k)%nat → parses k Q p → parses k' Q p.
Proof.
  intros Hk Hp input HF. specialize (Hp input HF). destruct (p input) as [[a rest]|e]; [|done].
  destruct Hp as (? & ? & ?). split_and!; [done..|lia].
Qed.

Lemma parses_any {A} k (Q : A → Prop) (p : parser A) : parses k Q p → parses k anything p.
Proof.
  intros Hp input HF. specialize (Hp input HF). destruct (p input) as [[a rest]|e]; [|done].
  by destruct Hp as (_ & ? & ?).
Qed.

(** The bind rule when the amount consumed does not matter. *)
Lemma parses_bind0 {A B} (Q : A → Prop) (R : B → Prop) (p : parser A) (f : A → parser B) :
  parses 0 Q p → (∀ a, Q a → parses 0 R (f a)) → parses 0 R (p ≫= f).
Proof. apply (parses_bind 0 0). Qed.

Lemma parses_lift {A} (Q : A → Prop) (c : res A) : computes Q c → parses 0 Q (lift c).
Proof. intros Hc input HF. unfold lift. destruct c; [|done]. cbn. split_and!; [done..|lia]. Qed.

Lemma parses_at_end : parses 0 anything at_end.
Proof. intros [|b l] HF; [|done]. cbn. split_and!; [done..|lia]. Qed.

Lemma parses_when_more (p : parser unit) : parses 0 anything p → parses 0 anything (when_more p).
Proof. intros Hp [|b l] HF; [cbn; split_and!; [done..|lia]|]. by apply Hp. Qed.

Lemma parses_when_tag {A} t (p : parser A) : parses 0 anything p → parses 0 anything (when_tag t p).
Proof.
  intros Hp input HF. unfold when_tag. destruct (bool_decide _).
  - specialize (Hp input HF). cbn [mbind result_bind].
    destruct (p input) as [[a rest]|e]; [|done]. destruct Hp as (? & ? & ?). by split_and!.
  - split_and!; [done..|lia].
Qed.

Lemma tlv_lengths_error original first :
  match tlv_lengths original first with Err e => e = INVALID_REQ | Ok _ => True end.
Proof.
  unfold tlv_lengths. cbv zeta. destruct (_ =? 0); [done|]. destruct (_ || _); [done|].
  destruct (bool_decide _); [done|]. destruct (long_len _); [|done].
  cbn [ok_or mbind result_bind]. by destruct (_ <? _).
Qed.

Lemma parses_take_tlv : parses 2 tlv_ok take_tlv.
Proof.
  intros input HF. destruct (take_tlv input) as [[t rest]|e] eqn:E.
  - destruct (take_tlv_canonical _ _ _ HF E) as (Hi & _ & _ & Hv & Hr & Hl).
    split_and!; [done..|]. rewrite Hi, length_app. lia.
  - unfold take_tlv in E. destruct input as [|a [|b l]]; [congruence..|].
    destruct (_ =? 31); [congruence|]. pose proof (tlv_lengths_error (a :: b :: l) b) as Hl.
    destruct (tlv_lengths (a :: b :: l) b) as [[h v]|e']; [|cbn in *; congruence].
    cbn [mbind result_bind] in E. destruct (checked_add h v); [|cbn in E; congruence].
    cbn [ok_or mbind result_bind] in E. destruct (_ <? _); [congruence|done].
Qed.

Lemma parses_take_expected t : parses 2 tlv_ok (take_expected t).
Proof.
  apply (parses_bind 2 0 tlv_ok); [exact parses_take_tlv|].
  intros a Ha. destruct (negb _); [apply parses_fail|by apply parses_ret].
Qed.

Lemma parses_take_expected0 t : parses 0 tlv_ok (take_expected t).
Proof. eapply parses_weaken; [|apply parses_take_expected]. lia. Qed.
Lemma parses_take_tlv0 : parses 0 tlv_ok take_tlv.
Proof. eapply parses_weaken; [|apply parses_take_tlv]. lia. Qed.

Lemma computes_within {A} k (Q : A → Prop) (p : parser A) input :
  parses k Q p → Forall is_byte input → computes Q (within p input).
Proof.
  intros Hp HF. specialize (Hp input HF). unfold within, computes. cbn [mbind result_bind].
  destruct (p input) as [[a rest]|e]; [|done]. by destruct Hp.
Qed.

Lemma computes_bind {A B} (Q : A → Prop) (R : B → Prop) (c : res A) (f : A → res B) :
  computes Q c → (∀ a, Q a → computes R (f a)) → computes R (c ≫= f).
Proof. intros Hc Hf. destruct c as [a|e]; [by apply Hf|done]. Qed.

Lemma computes_ok_or {A} (o : option A) : computes anything (ok_or o INVALID_REQ).
Proof. by destruct o. Qed.

(** The fuel of [many] is never exhausted when each step consumes. *)
Lemma computes_many {A} k (p : parser A) fuel input :
  (1 <= k)%nat → parses k anything p → Forall is_byte input → (length input <= fuel)%nat →
  computes anything (many fuel p input).
Proof.
  intros Hk Hp. revert input. induction fuel as [|fuel IH]; intros input HF Hl.
  - destruct input; [done|simpl in Hl; lia].
  - destruct input as [|b l]; [done|]. cbn [many]. specialize (Hp (b :: l) HF).
    destruct (p (b :: l)) as [[a rest]|e]; [|done].
    destruct Hp as (_ & HFr & Hlr). specialize (IH rest HFr). cbn [Datatypes.length] in *.
    change (computes anything (l ← many fuel p rest; Ok (a :: l))).
    eapply computes_bind; [apply IH; lia|]. by intros.
Qed.

Lemma computes_parse_single input t : Forall is_byte input → computes tlv_ok (parse_single input t).
Proof.
  intros HF. eapply (computes_within 0); [|done].
  eapply parses_bind0; [apply parses_take_expected0|]. intros a Ha.
  eapply parses_bind0; [apply parses_at_end|]. intros _ _. by apply parses_ret.
Qed.

Create HintDb der.
#[export] Hint Resolve parses_take_expected0 parses_take_tlv0 parses_at_end parses_fail : der.
#[export] Hint Unfold anything tlv_ok : der.

(** Run the rules: one [parses_bind0] per statement of the source. *)
Ltac der_parse :=
  repeat first
    [ progress intros
    | done
    | match goal with
      | |- parses 0 ?Q (take_expected _) =>
          first [eapply parses_take_expected0 | eapply parses_any, parses_take_expected0]
      | |- parses 0 _ take_tlv => apply parses_take_tlv0
      | |- parses 0 _ at_end => apply parses_at_end
      | |- parses 0 _ (fail _) => first [apply (parses_fail anything) | apply parses_fail]
      | |- parses 0 _ (mret _) => 
          first [apply (parses_ret tlv_ok); assumption | apply (parses_ret anything); exact I
                | apply parses_ret]
      | |- parses 0 _ (lift _) => apply parses_lift
      | |- parses 0 _ (when_more _) => apply parses_when_more
      | |- parses 0 _ (when_tag _ _) => apply parses_when_tag
      | |- parses 0 _ (_ ≫= _) => eapply parses_bind0
      | |- parses 0 _ (if ?b then _ else _) => destruct b
      | |- computes _ (within _ _) => eapply (computes_within 0)
      | |- computes _ (parse_single _ _) => apply computes_parse_single
      | |- computes _ (_ ≫= _) => eapply computes_bind
      | |- computes _ (if ?b then _ else _) => destruct b
      | |- computes _ (ok_or _ _) => apply computes_ok_or
      end ].

(** ** Error discipline *)

Lemma parses_extension : parses 2 anything extension.
Proof.
  apply (parses_bind 2 0 tlv_ok); [apply parses_take_expected|]. der_parse.
Qed.

Lemma parses_single_request : parses 2 anything single_request.
Proof.
  apply (parses_bind 2 0 tlv_ok); [apply parses_take_expected|]. der_parse.
Qed.

Lemma computes_validate_extensions l : Forall is_byte l → computes anything (validate_extensions l).
Proof.
  intros HF. eapply computes_bind; [eapply (computes_many 2); [lia|apply parses_extension|done|done]|done].
Qed.

Lemma computes_validate_request_list l :
  Forall is_byte l → computes anything (validate_request_list l).
Proof.
  intros HF. unfold validate_request_list. destruct l as [|b l]; [done|].
  eapply computes_bind; [eapply (computes_many 2); [lia|apply parses_single_request|done|done]|done].
Qed.

Section error_discipline.
Context `{Sha2} `{Chrono}.

Lemma parses_finish_request t : tlv_ok t → parses 0 anything (finish_request t).
Proof.
  intros Ht. unfold finish_request. der_parse;
    [by apply computes_validate_request_list|by apply computes_validate_extensions].
Qed.

Lemma computes_tbs_loop fuel l :
  Forall is_byte l → (length l <= fuel)%nat → computes anything (tbs_loop fuel l).
Proof.
  revert l. induction fuel as [|fuel IH]; intros l HF Hl.
  - destruct l; [done|simpl in Hl; lia].
  - destruct l as [|b l]; [done|]. cbn [tbs_loop]. pose proof (parses_take_tlv (b :: l) HF) as Hp.
    destruct (take_tlv (b :: l)) as [[t rest]|e]; [|done]. destruct Hp as (Ht & HFr & Hlr).
    cbn [mbind result_bind]. destruct (_ || _); [apply IH; [done|]; lia|].
    destruct (_ =? _); [|done]. eapply computes_within; [by apply parses_finish_request|done].
Qed.

(** any byte string offered as an OCSP request is parsed to a key or
    rejected with 400: the parser terminates and never reports an internal
    error. *)
Theorem parse_request_error (request : list Z) (e : PccsError) :
  Forall is_byte request → parse_request request = Err e → e = INVALID_REQ.
Proof.
  intros HF He. assert (Hc : computes anything (parse_request request)).
  { unfold parse_request. eapply computes_bind; [by apply computes_parse_single|].
    intros outer Ho. eapply computes_bind; [eapply computes_within; [apply parses_take_expected|done]|].
    intros tbs Ht. by apply computes_tbs_loop. }
  by rewrite He in Hc.
Qed.

Lemma computes_generalized_time l : computes anything (parse_generalized_time l).
Proof.
  unfold parse_generalized_time. destruct (negb _); [done|]. cbv zeta.
  repeat (case_match; [done|]). apply computes_ok_or.
Qed.

Lemma parses_single_response : parses 2 anything single_response.
Proof.
  apply (parses_bind 2 0 tlv_ok); [apply parses_take_expected|]. intros single Hs.
  der_parse; apply computes_generalized_time.
Qed.

Lemma response_validity_error response :
  Forall is_byte response → computes anything (response_validity response).
Proof.
  intros HF. unfold response_validity. der_parse.
  eapply (computes_many 2); [lia|apply parses_single_response|done|done].
Qed.

(** A response that does not parse is a 400, never an internal error. *)
Lemma response_validity_rejects response e :
  Forall is_byte response → response_validity response = Err e → e = INVALID_REQ.
Proof. intros HF He. pose proof (response_validity_error response HF) as Hc. by rewrite He in Hc. Qed.
End error_discipline.

(** ** The cache key *)

(** The cursor after an expected element. *)
Lemma take_expected_enc t v rest :
  der_item t v →
  take_expected t (enc_tlv t v ++ rest) = Ok ({| tag := t; value := v; raw := enc_tlv t v |}, rest).
Proof.
  intros Hi. unfold take_expected, mbind, parser_bind. rewrite take_tlv_enc by done. cbn [tag].
  by rewrite Z.eqb_refl.
Qed.

Lemma parse_single_enc t v :
  der_item t v → parse_single (enc_tlv t v) t = Ok {| tag := t; value := v; raw := enc_tlv t v |}.
Proof.
  intros Hi. unfold parse_single, within, mbind, parser_bind.
  rewrite <- (app_nil_r (enc_tlv t v)) at 1. by rewrite take_expected_enc.
Qed.

(** The optional [requestExtensions] as a client encodes them. *)
Definition enc_extensions (exts : option (list Z)) : list Z :=
  match exts with
  | None => []
  | Some e => enc_tlv 0xa2 (enc_tlv 0x30 e)
  end.

Definition small (l : list Z) : Prop := Forall is_byte l ∧ Z.of_nat (length l) < 2 ^ 60.

Lemma small_item t l : is_byte t → Z.land t 0x1f ≠ 0x1f → small l → der_item t l.
Proof. intros ? ? [? ?]. split_and!; [done..|lia]. Qed.

Lemma enc_tlv_any_bytes t l : is_byte t → Forall is_byte l → Z.of_nat (length l) < 2 ^ 64 →
  Forall is_byte (enc_tlv t l).
Proof.
  intros Ht Hl Hn. apply list.Forall_cons; split; [done|]. apply Forall_app; split; [|done].
  unfold enc_len. destruct (Z.ltb_spec (Z.of_nat (length l)) 128).
  - apply list.Forall_singleton. split; lia.
  - destruct (len_octets_spec (Z.of_nat (length l))) as (? & ? & _); [lia|].
    apply list.Forall_cons; split; [split; lia|]. apply be_bytes_value. lia.
Qed.

Lemma enc_tlvs_length_ge items : (length items <= length (enc_tlvs items))%nat.
Proof.
  induction items as [|[t v] l IH]; [cbn; lia|].
  change (enc_tlvs ((t, v) :: l)) with (enc_tlv t v ++ enc_tlvs l).
  rewrite length_app. unfold enc_tlv. cbn [Datatypes.length]. lia.
Qed.

Section cache_key.
Context `{Sha2} `{Chrono}.

Lemma tbs_loop_options fuel (opts : list (Z * list Z)) rest :
  (length opts <= fuel)%nat →
  Forall (λ it, (it.1 = 0xa0 ∨ it.1 = 0xa1) ∧ small it.2) opts →
  tbs_loop fuel (enc_tlvs opts ++ rest) = tbs_loop (fuel - length opts) rest.
Proof.
  intros Hf HF. revert fuel Hf. induction HF as [|[t v] opts [Ht Hv] _ IH]; intros fuel Hf.
  - by rewrite Nat.sub_0_r.
  - change (enc_tlvs ((t, v) :: opts)) with (enc_tlv t v ++ enc_tlvs opts).
    cbn [Datatypes.length] in *. destruct fuel as [|fuel]; [lia|]. cbn [fst snd] in *.
    assert (Hi : der_item t v) by (apply small_item; [| |done]; destruct Ht as [->| ->]; done).
    rewrite <- app_assoc.
    destruct (enc_tlv t v ++ enc_tlvs opts ++ rest) as [|b l] eqn:E; [done|].
    cbn [tbs_loop]. rewrite <- E, take_tlv_enc by done. cbn [mbind result_bind tag].
    assert ((t =? 0xa0) || (t =? 0xa1) = true) as -> by (destruct Ht as [->| ->]; done).
    by rewrite IH by lia.
Qed.

Lemma finish_request_enc (field : Tlv) exts :
  validate_request_list (value field) = Ok () →
  match exts with Some e => small e ∧ small (enc_tlv 0x30 e) ∧ validate_extensions e = Ok ()
                | None => True end →
  finish_request field (enc_extensions exts) =
    Ok ({| cache_key := hex_encode (sha256 (raw field)) |}, []).
Proof.
  intros Hval Hexts. unfold finish_request, lift, mbind, parser_bind, result_bind.
  rewrite Hval. destruct exts as [e|]; [|done]. destruct Hexts as (He & He' & Hv).
  cbn [enc_extensions]. unfold when_more.
  destruct (enc_tlv 0xa2 (enc_tlv 0x30 e)) as [|b l] eqn:E; [done|].
  rewrite <- E, <- (app_nil_r (enc_tlv 0xa2 _)).
  rewrite take_expected_enc by (by apply small_item). cbn [value].
  rewrite parse_single_enc by (by apply small_item). cbn [value]. by rewrite Hv.
Qed.

(** the cache key is the SHA-256 of the DER [requestList] alone: the
    version, the requestor name, the extensions (in particular the nonce)
    and the optional signature do not change it, whatever they are. *)
Theorem parse_request_key (opts : list (Z * list Z)) (request_list sig : list Z)
    (exts : option (list Z)) :
  Forall (λ it, (it.1 = 0xa0 ∨ it.1 = 0xa1) ∧ small it.2) opts →
  small request_list → validate_request_list request_list = Ok () →
  match exts with Some e => small e ∧ small (enc_tlv 0x30 e) ∧ validate_extensions e = Ok ()
                | None => True end →
  let tbs := enc_tlvs opts ++ enc_tlv 0x30 request_list ++ enc_extensions exts in
  small tbs → small (enc_tlv 0x30 tbs ++ sig) →
  parse_request (enc_tlv 0x30 (enc_tlv 0x30 tbs ++ sig)) =
    Ok {| cache_key := hex_encode (sha256 (enc_tlv 0x30 request_list)) |}.
Proof.
  intros Hopts Hlist Hval Hexts tbs Htbs Hsig.
  assert (H30 : ∀ l, small l → der_item 0x30 l) by (intros; by apply small_item).
  assert (Ha2 : ∀ l, small l → der_item 0xa2 l) by (intros; by apply small_item).
  unfold parse_request. rewrite parse_single_enc by auto. cbn [mbind result_bind value].
  unfold within at 1. rewrite take_expected_enc by auto. cbn [mbind result_bind value].
  subst tbs. pose proof (enc_tlvs_length_ge opts).
  rewrite tbs_loop_options by (done || rewrite length_app; lia).
  destruct (length (enc_tlvs opts ++ enc_tlv 0x30 request_list ++ enc_extensions exts)
            - length opts)%nat as [|fuel] eqn:Ef.
  { exfalso. revert Ef. rewrite !length_app. unfold enc_tlv. cbn [Datatypes.length]. lia. }
  destruct (enc_tlv 0x30 request_list ++ enc_extensions exts) as [|b l] eqn:E; [done|].
  cbn [tbs_loop]. rewrite <- E, take_tlv_enc by auto. cbn [mbind result_bind tag].
  change ((0x30 =? 0xa0) || (0x30 =? 0xa1)) with false. change (0x30 =? 0x30) with true.
  cbn iota. unfold within. by rewrite finish_request_enc.
Qed.
End cache_key.

(** ** Expiry *)

(** The time until which an item may be served. *)
Definition signed_expiry (default_ttl : Z) (item : ResponseValidity) : Z :=
  match next_update item with
  | Some t => t
  | None => i64_sat_add (this_update item) default_ttl
  end.

(** A status that may be stored at [now]. *)
Definition storable (now : Z) (item : ResponseValidity) : Prop :=
  unknown item = false ∧ this_update item <= now.

Lemma expiry_fold now ttl items e0 :
  match try_fold (expiry_step now ttl) e0 items with
  | Ok e => Forall (storable now) items ∧
            e = foldr (λ i m, Z.min (signed_expiry ttl i) m) e0 items
  | Err err => err = INVALID_REQ ∧ ¬ Forall (storable now) items
  end.
Proof.
  revert e0. induction items as [|i items IH]; intros e0; cbn [try_fold foldr].
  - split; [constructor|done].
  - destruct (expiry_step now ttl e0 i) as [e1|err] eqn:Es; cbn [mbind result_bind].
    + unfold expiry_step in Es. destruct (unknown i) eqn:Eu; [done|].
      destruct (Z.ltb_spec now (this_update i)); [done|]. injection Es as <-.
      specialize (IH (Z.min e0 (signed_expiry ttl i))). unfold signed_expiry in IH |- *.
      destruct (try_fold _ _ items) as [e|err]; destruct IH as [IH1 IH2].
      * split; [by apply list.Forall_cons|]. rewrite IH2. clear. revert e0.
        induction items as [|j items IHj]; intros e0; cbn [foldr]; [lia|]. rewrite IHj. lia.
      * split; [done|]. intros HF. apply list.Forall_cons in HF as [_ ?]. done.
    + unfold expiry_step in Es. split.
      * destruct (unknown i); [congruence|]. destruct (_ <? _); congruence.
      * intros HF. apply list.Forall_cons in HF as [[Hu Ht] _]. rewrite Hu in Es.
        rewrite (proj2 (Z.ltb_ge _ _)) in Es by done. done.
Qed.

Lemma foldr_min_le ttl items e0 i :
  i ∈ items → foldr (λ i m, Z.min (signed_expiry ttl i) m) e0 items <= signed_expiry ttl i.
Proof.
  induction items as [|j items IH]; intros Hi; [by apply not_elem_of_nil in Hi|]. cbn [foldr].
  apply elem_of_cons in Hi as [->|Hi]; [lia|]. specialize (IH Hi). lia.
Qed.

Lemma foldr_min_base ttl items e0 :
  foldr (λ i m, Z.min (signed_expiry ttl i) m) e0 items <= e0.
Proof. induction items; cbn [foldr]; lia. Qed.

Section expiry.
Context `{Chrono}.

(** C35: the cache deadline of an OCSP response is safe and tight.  It is
    accepted only when every single response is known and not from the
    future; the deadline is strictly in the future, at most [max_ttl] away,
    never past any signed [nextUpdate] (or [thisUpdate + default_ttl]
    without one), and is one of these bounds.  A response with an unknown
    status, or already expired, is rejected with 400. *)
Theorem response_cache_expiry_bounds (response : list Z) (items : list ResponseValidity)
    (now max_ttl default_ttl : Z) :
  response_validity response = Ok items →
  0 <= max_ttl <= i64_max → 0 <= default_ttl <= i64_max →
  0 <= now → now + max_ttl <= i64_max →
  match response_cache_expiry response now max_ttl default_ttl with
  | Ok e => Forall (storable now) items ∧ now < e <= now + max_ttl ∧
      (∀ i, i ∈ items → e <= signed_expiry default_ttl i) ∧
      (e = now + max_ttl ∨ ∃ i, i ∈ items ∧ e = signed_expiry default_ttl i)
  | Err err => err = INVALID_REQ ∧
      (¬ Forall (storable now) items ∨ max_ttl = 0 ∨
       ∃ i, i ∈ items ∧ signed_expiry default_ttl i <= now)
  end.
Proof.
  intros Hv Hm Hd Hn Hs. unfold response_cache_expiry. rewrite Hv. cbn [mbind result_bind].
  unfold i64_try_from. rewrite !(proj2 (Z.leb_le _ _)) by lia. cbn [ok_or mbind result_bind].
  unfold i64_checked_add. cbv zeta.
  rewrite !(proj2 (Z.leb_le _ _)) by (unfold i64_min; lia). cbn [andb ok_or mbind result_bind].
  pose proof (expiry_fold now default_ttl items (now + max_ttl)) as Hf.
  destruct (try_fold _ _ items) as [e|err]; cbn [mbind result_bind].
  2:{ destruct Hf as [-> Hns]. split; [done|by left]. }
  destruct Hf as [HF He]. pose proof (foldr_min_base default_ttl items (now + max_ttl)).
  assert (Hone : e = now + max_ttl ∨ ∃ i, i ∈ items ∧ e = signed_expiry default_ttl i).
  { rewrite He. clear. induction items as [|i items IH]; [by left|]. cbn [foldr].
    destruct (Z.min_spec (signed_expiry default_ttl i)
      (foldr (λ i m, Z.min (signed_expiry default_ttl i) m) (now + max_ttl) items)) as [[_ ->]|[_ ->]].
    - right. exists i. split; [left|done].
    - destruct IH as [->|(j & Hj & ->)]; [by left|right]. exists j. split; [by right|done]. }
  destruct (Z.leb_spec e now).
  - split; [done|]. destruct Hone as [->|(i & Hi & ->)]; [right; left; lia|].
    right; right. eauto.
  - unfold u64_try_from. rewrite (proj2 (Z.leb_le _ _)) by lia. cbn [ok_or].
    split; [done|]. split; [lia|]. split; [|done].
    intros i Hi. rewrite He. by apply foldr_min_le.
Qed.
End expiry.

(** ** Concrete runs *)

Import Concrete.

Lemma parse_request_error_witness :
  parse_request [0x30; 0x80] = Err INVALID_REQ ∧ INVALID_REQ = INVALID_REQ.
Proof.
  split; [reflexivity|].
  exact (parse_request_error [0x30; 0x80] INVALID_REQ ltac:(apply oid_bytes; reflexivity) eq_refl).
Defined.

Definition sample_list : list Z := enc_tlv 0x30 (enc_tlv 0x30 [1; 2; 3]).
Definition sample_nonce : list Z := enc_tlv 0x30 (enc_tlv 0x06 [42] ++ enc_tlv 0x04 [9; 9; 9]).

Lemma small_bytes l :
  forallb (λ b, (0 <=? b) && (b <? 256)) l = true → (length l <= 4096)%nat → small l.
Proof. intros Hb Hl. split; [by apply oid_bytes|lia]. Qed.

Ltac solve_small := apply small_bytes; [reflexivity|vm_compute; lia].

Lemma parse_request_key_witness :
  parse_request (enc_tlv 0x30 (enc_tlv 0x30
    (enc_tlvs [(0xa0, [0])] ++ enc_tlv 0x30 sample_list ++ enc_extensions (Some sample_nonce)) ++ [])) =
  Ok {| cache_key := hex_encode (sha256 (enc_tlv 0x30 sample_list)) |}.
Proof.
  apply parse_request_key.
  - apply list.Forall_singleton. split; [by left|solve_small].
  - solve_small.
  - reflexivity.
  - split; [solve_small|]. split; [solve_small|reflexivity].
  - solve_small.
  - solve_small.
Defined.

Definition time_bytes (s : string) : list Z := bytes s.

Definition sample_single : list Z :=
  enc_tlv 0x30 (enc_tlv 0x30 [] ++ enc_tlv 0x80 [] ++
    enc_tlv 0x18 (time_bytes "20240101000000Z") ++
    enc_tlv 0xa0 (enc_tlv 0x18 (time_bytes "20240102000000Z"))).

Definition sample_response : list Z :=
  enc_tlv 0x30 (enc_tlv 0x0a [0] ++ enc_tlv 0xa0 (enc_tlv 0x30
    (enc_tlv 0x06 OID_OCSP_BASIC ++ enc_tlv 0x04 (enc_tlv 0x30
      (enc_tlv 0x30 (enc_tlv 0xa1 [] ++ enc_tlv 0x18 (time_bytes "20240101000000Z") ++
                     enc_tlv 0x30 sample_single) ++
       enc_tlv 0x30 [] ++ enc_tlv 0x03 [0]))))).

Definition sample_items : list ResponseValidity :=
  [{| this_update := 1704067200; next_update := Some 1704153600; unknown := false |}].

Lemma sample_validity : response_validity sample_response = Ok sample_items.
Proof. vm_compute. reflexivity. Qed.

Lemma sample_expiry : response_cache_expiry sample_response 1704067200 604800 3600 = Ok 1704153600.
Proof. vm_compute. reflexivity. Qed.

Lemma response_cache_expiry_bounds_witness :
  response_cache_expiry sample_response 1704067200 604800 3600 = Ok 1704153600 ∧
  1704067200 < 1704153600 <= 1704067200 + 604800.
Proof.
  assert (H := response_cache_expiry_bounds sample_response sample_items 1704067200 604800 3600
    sample_validity).
  rewrite sample_expiry in H. split; [exact sample_expiry|].
  refine (proj1 (proj2 (H _ _ _ _))); unfold i64_max; lia.
Defined.
