(* ===== verification/Database.v ===== *)
(** * Database: RocksDB and serde as interfaces, and the store monad

    RocksDB is not under [src/]: it is the class [Database], whose laws are
    the documented facts that a read returns the last committed value, a
    write batch is applied atomically or not at all, and an iterator yields
    the entries from its start key on in byte order.  Any operation may fail.
    [serde_json] on the stored record types is the class [Serde], with the
    round trip of derived implementations as its law.

    The functions of src/src/store.rs run in the monad [M]: the state
    survives an error, so what a failing operation already wrote is visible. *)

From Stdlib Require Import ZArith Lia Sorting.Sorted.
From stdpp Require Import base list strings option gmap sorting.
From S2P Require Import Prelude Text Errors.

Local Open Scope Z_scope.

(** ** Byte order on keys *)

Fixpoint key_le (s t : string) : bool :=
  match s, t with
  | EmptyString, _ => true
  | String _ _, EmptyString => false
  | String a s', String b t' =>
      (byte_of a <? byte_of b) || ((byte_of a =? byte_of b) && key_le s' t')
  end.

Definition key_lt (s t : string) : Prop := key_le s t = true ∧ s ≠ t.

Lemma key_le_refl s : key_le s s = true.
Proof. induction s as [|c s IH]; [done|]. cbn. by rewrite Z.ltb_irrefl, Z.eqb_refl, IH. Qed.

Lemma key_le_trans s t u : key_le s t = true → key_le t u = true → key_le s u = true.
Proof.
  revert t u. induction s as [|a s IH]; intros [|b t] [|c u]; cbn; try done.
  intros Hst Htu. apply orb_true_iff in Hst as [Hst|[Hst Hs]%andb_true_iff],
    Htu as [Htu|[Htu Ht]%andb_true_iff]; bool_to_prop; apply orb_true_iff.
  - left. apply Z.ltb_lt. lia.
  - left. apply Z.ltb_lt. lia.
  - left. apply Z.ltb_lt. lia.
  - right. apply andb_true_iff. split; [apply Z.eqb_eq; lia|eauto].
Qed.

Lemma key_le_total s t : key_le s t = true ∨ key_le t s = true.
Proof.
  revert t. induction s as [|a s IH]; intros [|b t]; cbn; auto.
  destruct (Z.lt_trichotomy (byte_of a) (byte_of b)) as [Hl|[He|Hg]].
  - left. by rewrite (proj2 (Z.ltb_lt _ _) Hl).
  - rewrite He, Z.eqb_refl, Z.ltb_irrefl. cbn. apply IH.
  - right. by rewrite (proj2 (Z.ltb_lt _ _) Hg).
Qed.

Lemma key_le_antisym s t : key_le s t = true → key_le t s = true → s = t.
Proof.
  revert t. induction s as [|a s IH]; intros [|b t]; cbn; try done.
  intros Hst Hts. apply orb_true_iff in Hst as [Hst|[Hst Hs]%andb_true_iff],
    Hts as [Hts|[Hts Ht]%andb_true_iff]; bool_to_prop; try lia.
  f_equal; [by apply byte_of_inj|auto].
Qed.

(** A common prefix does not matter. *)
Lemma key_le_app p s t : key_le (p ++ s)%string (p ++ t)%string = key_le s t.
Proof. induction p as [|c p IH]; [done|]. cbn. by rewrite Z.ltb_irrefl, Z.eqb_refl. Qed.

(** ** Batches *)

Inductive batch_op : Type :=
| BPut (k v : string)
| BDelete (k : string).

Definition batch : Type := list batch_op.

Definition apply_op (m : gmap string string) (o : batch_op) : gmap string string :=
  match o with BPut k v => <[k := v]> m | BDelete k => delete k m end.

Definition apply_batch (b : batch) (m : gmap string string) : gmap string string :=
  fold_left apply_op b m.

(** The last operation on a key decides. *)
Fixpoint batch_lookup (b : batch) (k : string) : option (option string) :=
  match b with
  | [] => None
  | o :: b' =>
      match batch_lookup b' k with
      | Some r => Some r
      | None => match o with
                | BPut k' v => if decide (k' = k) then Some (Some v) else None
                | BDelete k' => if decide (k' = k) then Some None else None
                end
      end
  end.

Lemma apply_batch_lookup b m k :
  apply_batch b m !! k = match batch_lookup b k with Some r => r | None => m !! k end.
Proof.
  revert m. induction b as [|o b IH]; intros m; [done|]. unfold apply_batch. cbn [fold_left].
  change (fold_left apply_op b (apply_op m o)) with (apply_batch b (apply_op m o)).
  rewrite IH. cbn [batch_lookup]. destruct (batch_lookup b k); [done|].
  destruct o as [k' v|k']; cbn; destruct (decide (k' = k)) as [->|Hne].
  - by rewrite lookup_insert_eq.
  - by rewrite lookup_insert_ne.
  - by rewrite lookup_delete_eq.
  - by rewrite lookup_delete_ne.
Qed.

Lemma batch_lookup_app b b' k :
  batch_lookup (b ++ b') k =
    match batch_lookup b' k with Some r => Some r | None => batch_lookup b k end.
Proof.
  induction b as [|o b IH]; cbn [app batch_lookup]; [by destruct (batch_lookup b' k)|].
  rewrite IH. by destruct (batch_lookup b' k).
Qed.

Lemma batch_lookup_deletes ks k :
  batch_lookup (map BDelete ks) k = if decide (k ∈ ks) then Some None else None.
Proof.
  induction ks as [|k' ks IH]; cbn [map batch_lookup].
  { by rewrite decide_False by apply not_elem_of_nil. }
  rewrite IH. destruct (decide (k ∈ ks)) as [Hin|Hnin].
  { rewrite decide_True; [done|]. by right. }
  destruct (decide (k' = k)) as [->|Hne].
  - rewrite decide_True; [done|]. left.
  - rewrite decide_False; [done|]. by intros [->|?]%elem_of_cons.
Qed.

Lemma apply_batch_app b b' m : apply_batch (b ++ b') m = apply_batch b' (apply_batch b m).
Proof. apply fold_left_app. Qed.

(** ** The database *)

Class Database (D : Type) := {
  db_get : D → string → result unit (option string);
  db_write : D → batch → result unit D;
  (** Items from a start key on; an [Err] item is an iterator error. *)
  db_iter : D → string → list (result unit (string * string))
}.

(** The entries from [start] on, in key order. *)
Definition entries_after (m : gmap string string) (start : string) (l : list (string * string)) :
    Prop :=
  StronglySorted (λ x y, key_lt x.1 y.1) l ∧
  ∀ k v, (k, v) ∈ l ↔ m !! k = Some v ∧ key_le start k = true.

Class DatabaseLaws (D : Type) `{Database D} := {
  content : D → gmap string string;
  db_get_ok d k v : db_get d k = Ok v → v = content d !! k;
  db_write_ok d b d' : db_write d b = Ok d' → content d' = apply_batch b (content d);
  (** An iterator yields the entries in order; an error can cut it short. *)
  db_iter_ok d start :
    ∃ full, entries_after (content d) start full ∧
      (db_iter d start = map Ok full ∨
       ∃ l more e rest, full = l ++ more ∧ db_iter d start = map Ok l ++ Err e :: rest)
}.

(** ** serde_json on stored records *)

Class Serde (A : Type) := {
  to_vec : A → option string;
  from_slice : string → option A
}.

Class SerdeLaws (A : Type) `{Serde A} := {
  serde_roundtrip a s : to_vec a = Some s → from_slice s = Some a
}.

(** ** The store *)

Record Store (D : Type) := mkStore {
  db : D;
  (** the [u64] inside [fifo_lock]: the last index timestamp handed out *)
  fifo_last : Z;
  readthrough_max_entries : Z
}.
Arguments mkStore {D} _ _ _.
Arguments db {D} _.
Arguments fifo_last {D} _.
Arguments readthrough_max_entries {D} _.

Definition M (D A : Type) : Type := Store D → Store D * res A.

#[export] Instance M_ret D : MRet (M D) := λ A a s, (s, Ok a).
#[export] Instance M_bind D : MBind (M D) := λ A B f c s,
  match c s with (s', Ok a) => f a s' | (s', Err e) => (s', Err e) end.

Section store.
Context {D : Type} `{Database D}.

Definition set_db (s : Store D) (d : D) : Store D :=
  mkStore d (fifo_last s) (readthrough_max_entries s).
Definition set_last (s : Store D) (last : Z) : Store D :=
  mkStore (db s) last (readthrough_max_entries s).

(** A fallible computation that leaves the store alone. *)
Definition pure {A} (c : res A) : M D A := λ s, (s, c).
Definition read {A} (f : Store D → A) : M D A := λ s, (s, Ok (f s)).
Definition inspect {A} (f : Store D → res A) : M D A := λ s, (s, f s).
Definition modify (f : Store D → Store D) : M D unit := λ s, (f s, Ok ()).
Definition throw {A} (e : PccsError) : M D A := λ s, (s, Err e).

(** [let _ = c;]: the result is discarded. *)
Definition ignore_result {A} (c : M D A) : M D unit := λ s, (fst (c s), Ok ()).

Fixpoint each {A} (f : A → M D unit) (l : list A) : M D unit :=
  match l with
  | [] => mret ()
  | x :: l' => f x ≫= λ _, each f l'
  end.

(** [Store::write_batch]; a write that fails changes nothing. *)
Definition write_batch (b : batch) : M D unit := λ s,
  match db_write (db s) b with
  | Ok d => (set_db s d, Ok ())
  | Err _ => (s, Err INTERNAL_ERROR)
  end.

(** [db.get(k).ok().flatten()] *)
Definition get_raw (s : Store D) (k : string) : option string :=
  match db_get (db s) k with Ok v => v | Err _ => None end.

(** [Store::get_json], [Store::read_json] (the latter also records a
    metric, which no other code reads) *)
Definition get_json {A} `{Serde A} (s : Store D) (k : string) : option A :=
  v ← get_raw s k; from_slice v.
Definition read_json {A} `{Serde A} (s : Store D) (k : string) : option A := get_json s k.

(** [Store::put_json] *)
Definition put_json {A} `{Serde A} (k : string) (a : A) : M D unit :=
  bytes ← pure (ok_or (to_vec a) INTERNAL_ERROR);
  write_batch [BPut k bytes].

(** [Store::scan_prefix]: stops at an iterator error and at the first key
    without the prefix. *)
Fixpoint scan_items (prefix : string) (items : list (result unit (string * string))) :
    list (string * string) :=
  match items with
  | Ok (k, v) :: items' =>
      if starts_with prefix k then (of_bytes (utf8_lossy (bytes k)), v) :: scan_items prefix items'
      else []
  | _ => []
  end.

Definition scan_prefix (s : Store D) (prefix : string) : list (string * string) :=
  scan_items prefix (db_iter (db s) prefix).
End store.

(** ** Concrete instance: a finite map that never fails *)

Module MapDb.
#[export] Instance key_le_dec : RelDecision (λ x y : string * string, key_le x.1 y.1 = true).
Proof. intros x y. apply _. Defined.

Definition entries_from (m : gmap string string) (start : string) : list (string * string) :=
  merge_sort (λ x y, key_le x.1 y.1 = true)
    (filter (λ kv, key_le start kv.1 = true) (map_to_list m)).

#[export] Instance database : Database (gmap string string) := {|
  db_get m k := Ok (m !! k);
  db_write m b := Ok (apply_batch b m);
  db_iter m start := map Ok (entries_from m start)
|}.

Lemma entries_from_elem m start k v :
  (k, v) ∈ entries_from m start ↔ m !! k = Some v ∧ key_le start k = true.
Proof.
  unfold entries_from. rewrite merge_sort_Permutation, list_elem_of_filter, elem_of_map_to_list.
  cbn. tauto.
Qed.

Lemma entries_from_sorted m start :
  StronglySorted (λ x y, key_lt x.1 y.1) (entries_from m start).
Proof.
  assert (HS : StronglySorted (λ x y : string * string, key_le x.1 y.1 = true) (entries_from m start)).
  { apply StronglySorted_merge_sort.
    - intros x y z. apply key_le_trans.
    - intros x y. apply key_le_total. }
  assert (HN : NoDup (entries_from m start).*1).
  { unfold entries_from. rewrite merge_sort_Permutation.
    apply (sublist_NoDup _ (map_to_list m).*1); [apply NoDup_fst_map_to_list|].
    apply fmap_sublist, sublist_filter. }
  induction HS as [|x l HS IH HF]; [constructor|]. cbn in HN. apply NoDup_cons in HN as [Hx HN].
  constructor; [by apply IH|]. rewrite list.Forall_forall in HF |- *. intros y Hy.
  split; [by apply HF|]. intros E. apply Hx. rewrite E. apply list_elem_of_fmap. eauto.
Qed.

#[export] Instance database_laws : DatabaseLaws (gmap string string).
Proof.
  refine {| content := id |}.
  - by intros d k v [= <-].
  - by intros d b d' [= <-].
  - intros d start. exists (entries_from d start). split; [|by left].
    split; [apply entries_from_sorted|]. intros k v. apply entries_from_elem.
Defined.
End MapDb.
