(* ===== verification/Fifo.v ===== *)
(** * Fifo: the bounded read-through kinds (src/src/store.rs)

    AMD KDS, NVIDIA RIM and NVIDIA OCSP records are kept within
    [readthrough_max_entries] per kind.  Next to each record live an order
    row [fifo/<kind><8-byte time><key>], a position row [fifo-pos/<key>] and
    one count row [fifo-count/<kind>] per kind.  [put_bounded], [delete_key],
    [sweep_prefix] and the startup indexing change them in one batch each. *)

From Stdlib Require Import ZArith Lia Sorting.Sorted.
From stdpp Require Import base list strings option gmap sorting.
From S2P Require Import Prelude Text Errors Keys PckCert Database.

Local Open Scope Z_scope.

Definition BOUNDED_KINDS : list string := [AMD_KDS; NVIDIA_RIM; NVIDIA_OCSP].

(** [u64::to_be_bytes] *)
Definition be64 (t : Z) : string := of_bytes (be_bytes 8 t).

Definition fifo_order_prefix (kind : string) : string := (FIFO_ORDER ++ kind)%string.

Definition fifo_order_key (kind : string) (written_at : Z) (entry_key : string) : string :=
  (fifo_order_prefix kind ++ be64 written_at ++ entry_key)%string.

Definition fifo_pos_key (entry_key : string) : string := (FIFO_POS ++ entry_key)%string.

Definition fifo_count_key (kind : string) : string := (FIFO_COUNT ++ kind)%string.

Definition be_u64 (s : string) : option Z :=
  if (String.length s =? 8)%nat then Some (be_value (bytes s)) else None.

(** [s.get(n..)] *)
Definition str_from (n : nat) (s : string) : option string :=
  if (n <=? String.length s)%nat then Some (String.substring n (String.length s - n) s) else None.

Section fifo.
Context {D : Type} `{Database D}.

(** [Store::readthrough_count] *)
Definition readthrough_count (s : Store D) (kind : string) : Z :=
  default 0 (v ← get_raw s (fifo_count_key kind); be_u64 v).

(** [Store::set_readthrough_max_entries] *)
Definition set_readthrough_max_entries (s : Store D) (max : Z) : Store D :=
  mkStore (db s) (fifo_last s) (Z.max max 1).

(** The eviction loop of [put_bounded]: the deletes and the new count. *)
Fixpoint evict (prefix entry : string) (excess count : Z)
    (items : list (result unit (string * string))) : res (batch * Z) :=
  match items with
  | [] => Ok ([], count)
  | Err _ :: _ => Err INTERNAL_ERROR
  | Ok (order_key, _) :: items' =>
      if (excess =? 0) || negb (starts_with prefix order_key) then Ok ([], count)
      else match str_from (String.length prefix + 8) order_key with
      | None => evict prefix entry excess count items'
      | Some victim =>
          if String.eqb victim entry then evict prefix entry excess count items'
          else
            '(b, count') ← evict prefix entry (excess - 1) (count - 1) items';
            Ok (BDelete victim :: BDelete (fifo_pos_key victim) :: BDelete order_key :: b, count')
      end
  end.

(** The batch of [put_bounded] and the new count, from the row the entry
    already has. *)
Definition bounded_batch (s : Store D) (kind entry bytes : string) (written_at : Z)
    (old_pos : option string) : res batch :=
  let count := readthrough_count s kind in
  let replaced := match old_pos with
                  | Some old => match be_u64 old with
                                | Some t => [BDelete (fifo_order_key kind t entry)]
                                | None => []
                                end
                  | None => []
                  end in
  let count := match old_pos with Some _ => count | None => wrap 64 (count + 1) end in
  let puts := [BPut entry bytes; BPut (fifo_pos_key entry) (be64 written_at);
               BPut (fifo_order_key kind written_at entry) EmptyString] in
  let max := readthrough_max_entries s in
  let prefix := fifo_order_prefix kind in
  '(evictions, count) ← (if max <? count
                         then evict prefix entry (count - max) count (db_iter (db s) prefix)
                         else Ok ([], count));
  Ok (replaced ++ puts ++ evictions ++ [BPut (fifo_count_key kind) (be64 count)]).

(** [Store::put_bounded]; [now] is the wall clock in microseconds. *)
Definition put_bounded {A} `{Serde A} (now : Z) (kind entry : string) (val : A) : M D unit :=
  bytes ← pure (ok_or (to_vec val) INTERNAL_ERROR);
  last ← read fifo_last;
  let written_at := Z.max now (sat_add last 1) in
  _ ← modify (λ s, set_last s written_at);
  old_pos ← inspect (λ s, map_err (db_get (db s) (fifo_pos_key entry)) (λ _, INTERNAL_ERROR));
  b ← inspect (λ s, bounded_batch s kind entry bytes written_at old_pos);
  write_batch b.

(** [Store::unindex]: the deletes to queue, and whether there was a row. *)
Definition unindex (s : Store D) (kind entry : string) : batch * bool :=
  match get_raw s (fifo_pos_key entry) with
  | None => ([], false)
  | Some pos =>
      (match be_u64 pos with
       | Some written_at => [BDelete (fifo_order_key kind written_at entry)]
       | None => []
       end ++ [BDelete (fifo_pos_key entry)], true)
  end.

(** [Store::delete_key] *)
Definition delete_key (key : string) : M D unit :=
  match List.find (λ kind, starts_with kind key) BOUNDED_KINDS with
  | None => write_batch [BDelete key]
  | Some kind => λ s,
      let '(b, had_row) := unindex s kind key in
      write_batch (BDelete key :: b ++
        (if had_row then
           [BPut (fifo_count_key kind) (be64 (sat_sub (readthrough_count s kind) 1))]
         else [])) s
  end.

(** The loop of [Store::sweep_prefix]: the batch, [swept], [unindexed]. *)
Fixpoint sweep_items {A} `{Serde A} (s : Store D) (kind : option string) (prefix : string)
    (expired : A → bool) (items : list (result unit (string * string))) :
    res (batch * Z * Z) :=
  match items with
  | [] => Ok ([], 0, 0)
  | Err _ :: _ => Err INTERNAL_ERROR
  | Ok (k, v) :: items' =>
      if negb (starts_with prefix k) then Ok ([], 0, 0)
      else if match from_slice v with Some rec => expired rec | None => false end then
        let '(rows, had_row) := match kind with
                                | Some kind => unindex s kind k
                                | None => ([], false)
                                end in
        '(b, swept, unindexed) ← sweep_items s kind prefix expired items';
        Ok (BDelete k :: rows ++ b, swept + 1, if had_row then unindexed + 1 else unindexed)
      else sweep_items s kind prefix expired items'
  end.

(** [Store::sweep_prefix] *)
Definition sweep_prefix {A} `{Serde A} (prefix : string) (expired : A → bool) : M D Z := λ s,
  let kind := List.find (λ kind, String.eqb kind prefix) BOUNDED_KINDS in
  match sweep_items s kind prefix expired (db_iter (db s) prefix) with
  | Err e => (s, Err e)
  | Ok (b, swept, unindexed) =>
      if 0 <? swept then
        let count_row := match kind with
                         | Some kind =>
                             if 0 <? unindexed then
                               [BPut (fifo_count_key kind)
                                     (be64 (sat_sub (readthrough_count s kind) unindexed))]
                             else []
                         | None => []
                         end in
        match write_batch (b ++ count_row) s with
        | (s', Ok _) => (s', Ok swept)
        | (s', Err e) => (s', Err e)
        end
      else (s, Ok swept)
  end.

(** *** Startup indexing *)

(** The [Stamp] the indexing deserializes: its [fetched_at]. *)
Record Stamp := { stamp_fetched_at : Z }.

(** [Vec<(u64, Vec<u8>)>::sort] *)
Definition stamp_le (x y : Z * string) : Prop :=
  x.1 < y.1 ∨ (x.1 = y.1 ∧ key_le x.2 y.2 = true).

#[export] Instance stamp_le_dec : RelDecision stamp_le.
Proof. intros x y. apply _. Defined.

Definition index_rows (kind : string) (entries : list (Z * string)) : batch :=
  mjoin (imap (λ i e,
    let written_at := sat_add (sat_mul e.1 1000000) (Z.of_nat i) in
    [BPut (fifo_order_key kind written_at e.2) EmptyString;
     BPut (fifo_pos_key e.2) (be64 written_at)]) entries).

(** One iteration of [Store::index_unindexed_entries]. *)
Definition index_kind `{Serde Stamp} (kind : string) (s : Store D) : Store D * result unit unit :=
  match db_get (db s) (fifo_count_key kind) with
  | Err e => (s, Err e)
  | Ok (Some _) => (s, Ok ())
  | Ok None =>
      let entries := map (λ kv, (match from_slice kv.2 with
                                 | Some st => stamp_fetched_at st
                                 | None => 0
                                 end, kv.1)) (scan_prefix s kind) in
      match entries with
      | [] => (s, Ok ())
      | _ =>
          let entries := merge_sort stamp_le entries in
          match db_write (db s) (index_rows kind entries ++
                  [BPut (fifo_count_key kind) (be64 (Z.of_nat (length entries)))]) with
          | Ok d => (set_db s d, Ok ())
          | Err e => (s, Err e)
          end
      end
  end.

Fixpoint index_kinds `{Serde Stamp} (kinds : list string) (s : Store D) :
    Store D * result unit unit :=
  match kinds with
  | [] => (s, Ok ())
  | kind :: kinds' =>
      match index_kind kind s with
      | (s', Ok _) => index_kinds kinds' s'
      | (s', Err e) => (s', Err e)
      end
  end.

Definition index_unindexed_entries `{Serde Stamp} : Store D → Store D * result unit unit :=
  index_kinds BOUNDED_KINDS.
End fifo.

(** ** Row keys *)

Lemma be64_length t : String.length (be64 t) = 8%nat.
Proof. unfold be64. by rewrite of_bytes_length, be_bytes_length. Qed.

Lemma u64_digits t : 0 <= t <= u64_max → Forall is_byte (be_bytes 8 t) ∧ be_value (be_bytes 8 t) = t.
Proof. intros Ht. apply be_bytes_value. unfold u64_max in Ht. change (256 ^ Z.of_nat 8) with (2 ^ 64). lia. Qed.

Lemma be_u64_be64 t : 0 <= t <= u64_max → be_u64 (be64 t) = Some t.
Proof.
  intros Ht. destruct (u64_digits t Ht) as [HF HV]. unfold be_u64. rewrite be64_length. cbn [Nat.eqb].
  unfold be64. by rewrite bytes_of_bytes, HV.
Qed.

Lemma be64_inj t t' : 0 <= t <= u64_max → 0 <= t' <= u64_max → be64 t = be64 t' → t = t'.
Proof. intros Ht Ht' E. apply (f_equal be_u64) in E. rewrite !be_u64_be64 in E by done. congruence. Qed.

Lemma order_key_inj kind t k t' k' :
  0 <= t <= u64_max → 0 <= t' <= u64_max →
  fifo_order_key kind t k = fifo_order_key kind t' k' → t = t' ∧ k = k'.
Proof.
  intros Ht Ht' E. unfold fifo_order_key in E. apply str_app_inj_l in E.
  apply str_app_inj in E as [E ->]; [|by rewrite !be64_length]. split; [by apply be64_inj|done].
Qed.

Lemma str_from_app p s : str_from (String.length p) (p ++ s)%string = Some s.
Proof.
  unfold str_from. rewrite str_length_app, (proj2 (Nat.leb_le _ _)) by lia. f_equal.
  replace (String.length p + String.length s - String.length p)%nat with (String.length s) by lia.
  induction p as [|c p IH]; [|exact IH]. cbn [String.length String.append].
  induction s as [|c s IH]; [done|]. cbn. by rewrite IH.
Qed.

Lemma order_key_victim kind t k :
  str_from (String.length (fifo_order_prefix kind) + 8) (fifo_order_key kind t k) = Some k.
Proof.
  unfold fifo_order_key. rewrite str_app_assoc.
  rewrite <- (be64_length t), <- str_length_app. apply str_from_app.
Qed.

(** Big-endian fixed-width times compare as bytes. *)
Lemma key_le_digits n t t' s s' :
  0 <= t < 256 ^ Z.of_nat n → 0 <= t' < 256 ^ Z.of_nat n →
  key_le (of_bytes (be_bytes n t) ++ s)%string (of_bytes (be_bytes n t') ++ s')%string =
    (t <? t') || ((t =? t') && key_le s s').
Proof.
  revert t t'. induction n as [|n IH]; intros t t' Ht Ht'.
  { assert (t = 0) as -> by (cbn in Ht; lia). assert (t' = 0) as -> by (cbn in Ht'; lia). done. }
  cbn [be_bytes of_bytes String.append key_le].
  rewrite Nat2Z.inj_succ, Z.pow_succ_r in Ht, Ht' by lia.
  set (p := 256 ^ Z.of_nat n) in *. assert (Hp : 0 < p) by (apply Z.pow_pos_nonneg; lia).
  assert (Hb : ∀ x, 0 <= x < 256 * p → is_byte (x / p)).
  { intros x Hx. split; [apply Z.div_pos; lia|]. apply Z.div_lt_upper_bound; lia. }
  rewrite !byte_of_chr by auto.
  rewrite IH by (by apply Z.mod_pos_bound).
  pose proof (Z.div_mod t p) as D1. pose proof (Z.div_mod t' p) as D2.
  pose proof (Z.mod_pos_bound t p Hp). pose proof (Z.mod_pos_bound t' p Hp).
  destruct (Z.ltb_spec (t / p) (t' / p)), (Z.eqb_spec (t / p) (t' / p)),
    (Z.ltb_spec (t mod p) (t' mod p)), (Z.eqb_spec (t mod p) (t' mod p)),
    (Z.ltb_spec t t'), (Z.eqb_spec t t'); cbn; try done; exfalso; nia.
Qed.

(** Order rows sort by time, then by key. *)
Lemma order_key_le kind t k t' k' :
  0 <= t <= u64_max → 0 <= t' <= u64_max →
  key_le (fifo_order_key kind t k) (fifo_order_key kind t' k') =
    (t <? t') || ((t =? t') && key_le k k').
Proof.
  intros Ht Ht'. unfold fifo_order_key, be64. rewrite key_le_app.
  unfold u64_max in *. apply key_le_digits; change (256 ^ Z.of_nat 8) with (2 ^ 64); lia.
Qed.

(** ** The rows of a kind come first in an iteration *)

Lemma prefix_first p k k' :
  starts_with p k = true → key_le p k' = true → starts_with p k' = false → key_le k k' = true.
Proof.
  unfold starts_with. revert k k'. induction p as [|c p IH]; intros k k' Hk Hle Hk'; [done|].
  destruct k as [|a k]; [done|]. cbn [strip_prefix] in Hk. destruct (Ascii.eqb c a) eqn:Ea; [|done].
  apply Ascii.eqb_eq in Ea as <-. destruct k' as [|b k']; [done|]. cbn [key_le strip_prefix] in *.
  destruct (Ascii.eqb c b) eqn:Eb.
  - apply Ascii.eqb_eq in Eb as <-. rewrite Z.ltb_irrefl, Z.eqb_refl in *. cbn in *. by apply IH.
  - apply orb_true_iff in Hle as [Hle|[Hle _]%andb_true_iff]; [by rewrite Hle|].
    apply Z.eqb_eq, byte_of_inj in Hle as ->. by rewrite Ascii.eqb_refl in Eb.
Qed.

Lemma key_le_prefix p s : key_le p (p ++ s)%string = true.
Proof. induction p as [|c p IH]; [done|]. cbn. by rewrite Z.ltb_irrefl, Z.eqb_refl, IH. Qed.

Lemma entries_split m p full :
  entries_after m p full →
  ∃ rows rest, full = rows ++ rest ∧
    Forall (λ kv, starts_with p kv.1 = true) rows ∧ Forall (λ kv, starts_with p kv.1 = false) rest.
Proof.
  intros [HS Hmem].
  assert (Hle : Forall (λ kv, key_le p kv.1 = true) full).
  { apply list.Forall_forall. intros [k v] Hin. by apply Hmem in Hin as [_ ?]. }
  clear Hmem. induction HS as [|x l HS IH HF]; [by exists [], []|].
  apply list.Forall_cons in Hle as [Hx Hle]. destruct (IH Hle) as (rows & rest & -> & Hr & Hn).
  destruct (starts_with p x.1) eqn:E.
  - exists (x :: rows), rest. split; [done|]. split; [by apply list.Forall_cons|done].
  - exists [], (x :: rows ++ rest). split; [done|]. split; [done|].
    apply list.Forall_cons; split; [done|]. apply Forall_app; split; [|done].
    apply list.Forall_forall. intros y Hy. destruct (starts_with p y.1) eqn:Ey; [exfalso|done].
    rewrite list.Forall_forall in HF. destruct (HF y) as [Hxy Hne]; [apply elem_of_app; by left|].
    apply Hne, key_le_antisym; [done|]. by apply (prefix_first p).
Qed.

(** ** The eviction loop, on the index it reads *)

(** The entries to evict: the first [excess] of the index in row order,
    without the one being written. *)
Definition victims (entry : string) (excess : Z) (P : list (string * Z)) : list (string * Z) :=
  take (Z.to_nat excess) (filter (λ kt, kt.1 ≠ entry) P).

Definition victim_rows (kind : string) (V : list (string * Z)) : list string :=
  mjoin (map (λ kt, [kt.1; fifo_pos_key kt.1; fifo_order_key kind kt.2 kt.1]) V).

Definition order_row (kind : string) (kt : string * Z) : string := fifo_order_key kind kt.2 kt.1.

Lemma order_row_prefix kind kt : starts_with (fifo_order_prefix kind) (order_row kind kt) = true.
Proof. unfold order_row, fifo_order_key. apply starts_with_app. Qed.

Lemma victims_cons entry excess kt P :
  0 <= excess →
  victims entry excess (kt :: P) =
    if (excess =? 0) then [] else
    if String.eqb kt.1 entry then victims entry excess P
    else kt :: victims entry (excess - 1) P.
Proof.
  intros He. unfold victims. rewrite filter_cons.
  destruct (Z.eqb_spec excess 0) as [->|Hne]; [done|].
  destruct (String.eqb_spec kt.1 entry) as [->|Hk].
  - by rewrite decide_False by auto.
  - rewrite decide_True by done.
    replace (Z.to_nat excess) with (S (Z.to_nat (excess - 1))) by lia. done.
Qed.

Lemma evict_rows kind entry P excess count rows tail :
  rows.*1 = map (order_row kind) P → 0 <= excess →
  Forall (λ kv, starts_with (fifo_order_prefix kind) kv.1 = false) tail →
  evict (fifo_order_prefix kind) entry excess count (map Ok (rows ++ tail)) =
    Ok (map BDelete (victim_rows kind (victims entry excess P)),
        count - Z.of_nat (length (victims entry excess P))).
Proof.
  revert P excess count. induction rows as [|[r v] rows IH]; intros P excess count HP He Ht.
  - destruct P as [|? ?]; [|done]. cbn [app]. unfold victims. rewrite firstn_nil.
    cbn. rewrite Z.sub_0_r. destruct tail as [|[k w] tail]; [done|].
    apply list.Forall_cons in Ht as [Hk _]. cbn [map evict]. cbn in Hk. rewrite Hk, orb_true_r. done.
  - destruct P as [|kt P]; [done|]. cbn [fmap list_fmap map] in HP. injection HP as -> HP.
    cbn [app map evict]. rewrite order_row_prefix. cbn [negb]. rewrite orb_false_r, victims_cons by done.
    destruct (Z.eqb_spec excess 0) as [->|Hne]; [cbn; by rewrite Z.sub_0_r|].
    unfold order_row at 1. rewrite order_key_victim.
    destruct (String.eqb kt.1 entry); [by apply IH|].
    rewrite (IH P (excess - 1) (count - 1)) by (done || lia).
    cbn [mbind result_bind]. do 2 f_equal. cbn [Datatypes.length]. lia.
Qed.

(** An iterator error after the point where the loop stopped is invisible. *)
Lemma evict_extend p entry excess count l er rest more r :
  evict p entry excess count (map Ok l ++ Err er :: rest) = Ok r →
  evict p entry excess count (map Ok (l ++ more)) = Ok r.
Proof.
  revert excess count r. induction l as [|[k v] l IH]; intros excess count r; [done|].
  cbn [map app evict]. destruct (_ || _); [done|].
  destruct (str_from _ k) as [victim|]; [|by apply IH].
  destruct (String.eqb victim entry); [by apply IH|].
  destruct (evict p entry (excess - 1) (count - 1) (map Ok l ++ Err er :: rest)) as [[b c]|] eqn:E; [|done].
  cbn [mbind result_bind]. by rewrite (IH _ _ _ E).
Qed.

Lemma victims_length entry excess P :
  0 <= excess <= Z.of_nat (length (filter (λ kt, kt.1 ≠ entry) P)) →
  Z.of_nat (length (victims entry excess P)) = excess.
Proof. intros He. unfold victims. rewrite length_take. lia. Qed.

Lemma victims_elem entry excess P kt :
  kt ∈ victims entry excess P → kt ∈ P ∧ kt.1 ≠ entry.
Proof.
  unfold victims. intros Hin. apply elem_of_take in Hin as (i & Hin & _).
  apply list_elem_of_lookup_2, list_elem_of_filter in Hin. tauto.
Qed.

(** ** The index invariant of one kind

    [A] is the abstract index: the write time of every entry. *)

Record fifo_inv (kind : string) (m : gmap string string) (A : gmap string Z) : Prop := {
  fi_keys k t : A !! k = Some t → starts_with kind k = true ∧ 0 <= t <= u64_max;
  fi_entry k : starts_with kind k = true → is_Some (m !! k) ↔ is_Some (A !! k);
  fi_pos k : starts_with kind k = true → m !! fifo_pos_key k = be64 <$> A !! k;
  fi_order r : starts_with (fifo_order_prefix kind) r = true →
    is_Some (m !! r) ↔ ∃ k t, A !! k = Some t ∧ r = fifo_order_key kind t k;
  fi_count : m !! fifo_count_key kind = Some (be64 (Z.of_nat (size A))) ∨
             (m !! fifo_count_key kind = None ∧ A = ∅)
}.

(** Which row a key is: the classes do not overlap. *)
Lemma bounded_in_all kind : kind ∈ BOUNDED_KINDS → kind ∈ all_prefixes.
Proof.
  intros Hk. unfold all_prefixes. repeat (apply elem_of_cons in Hk as [->|Hk];
    [repeat first [apply list_elem_of_here | apply list_elem_of_further]|]).
  by apply not_elem_of_nil in Hk.
Qed.

Lemma fifo_in_all :
  FIFO_ORDER ∈ all_prefixes ∧ FIFO_POS ∈ all_prefixes ∧ FIFO_COUNT ∈ all_prefixes.
Proof. split_and!; unfold all_prefixes; repeat first [apply list_elem_of_here | apply list_elem_of_further]. Qed.

Lemma starts_with_trans p q s : starts_with (p ++ q)%string s = true → starts_with p s = true.
Proof.
  rewrite !starts_with_spec. intros [r ->]. exists (q ++ r)%string. by rewrite str_app_assoc.
Qed.

Inductive row_class : Type := CEntry | COrder | CPos | CCount.

Definition class_prefix (kind : string) (c : row_class) : string :=
  match c with CEntry => kind | COrder => FIFO_ORDER | CPos => FIFO_POS | CCount => FIFO_COUNT end.

Definition in_class (kind : string) (c : row_class) (q : string) : Prop :=
  starts_with (class_prefix kind c) q = true.

Lemma class_unique kind c c' q :
  kind ∈ BOUNDED_KINDS → in_class kind c q → in_class kind c' q → c = c'.
Proof.
  intros Hk H1 H2. destruct fifo_in_all as (HO & HP & HC). pose proof (bounded_in_all _ Hk) as HK.
  assert (E : class_prefix kind c = class_prefix kind c').
  { eapply kind_disjoint; [| |exact H1|exact H2]; by destruct c, c'. }
  repeat (apply elem_of_cons in Hk as [->|Hk]; [by destruct c, c'|]). by apply not_elem_of_nil in Hk.
Qed.

Lemma class_order kind t k : in_class kind COrder (fifo_order_key kind t k).
Proof. apply (starts_with_trans FIFO_ORDER kind), (order_row_prefix kind (k, t)). Qed.
Lemma class_pos kind k : in_class kind CPos (fifo_pos_key k).
Proof. apply starts_with_app. Qed.
Lemma class_count kind : in_class kind CCount (fifo_count_key kind).
Proof. apply starts_with_app. Qed.
Lemma class_order_prefix kind q :
  starts_with (fifo_order_prefix kind) q = true → in_class kind COrder q.
Proof. apply (starts_with_trans FIFO_ORDER kind). Qed.

Lemma victim_rows_elem kind V q :
  q ∈ victim_rows kind V ↔
  ∃ kt, kt ∈ V ∧ (q = kt.1 ∨ q = fifo_pos_key kt.1 ∨ q = order_row kind kt).
Proof.
  unfold victim_rows. rewrite list_elem_of_join. split.
  - intros (l & Hq & Hl). apply list_elem_of_fmap in Hl as (kt & -> & Hkt). exists kt.
    split; [done|]. unfold order_row. rewrite !elem_of_cons in Hq.
    destruct Hq as [?|[?|[?|Hq]]]; [auto..|]. by apply not_elem_of_nil in Hq.
  - intros (kt & Hkt & Hq). eexists. split; [|apply list_elem_of_fmap; by exists kt].
    rewrite !elem_of_cons. unfold order_row in Hq. tauto.
Qed.

(** ** The index as a list, in row order *)

Definition older (x y : string * Z) : Prop :=
  x.2 < y.2 ∨ (x.2 = y.2 ∧ key_lt x.1 y.1).

Lemma Forall_choose {X Y} (R : X → Y → Prop) l :
  Forall (λ x, ∃ y, R x y) l → ∃ l', Forall2 R l l'.
Proof.
  induction 1 as [|x l [y Hy] _ [l' IH]]; [by exists []|]. exists (y :: l'). by constructor.
Qed.

Lemma sorted_lookup {X} (R : X → X → Prop) l i j x y :
  StronglySorted R l → (i < j)%nat → l !! i = Some x → l !! j = Some y → R x y.
Proof.
  intros HS. revert i j. induction HS as [|z l HS IH HF]; intros i j Hij Hi Hj; [done|].
  destruct i as [|i], j as [|j]; cbn in Hi, Hj; [lia| |lia|].
  - injection Hi as ->. rewrite list.Forall_forall in HF. apply HF. by eapply list_elem_of_lookup_2.
  - eapply IH; [|done..]. lia.
Qed.

Lemma order_row_lt kind x y :
  0 <= x.2 <= u64_max → 0 <= y.2 <= u64_max →
  key_lt (order_row kind x) (order_row kind y) → older x y.
Proof.
  intros Hx Hy [Hle Hne]. unfold order_row in Hle. rewrite order_key_le in Hle by done.
  apply orb_true_iff in Hle as [Hlt|[He Hk]%andb_true_iff]; bool_to_prop; [by left|right].
  split; [done|]. split; [done|]. intros E. apply Hne. destruct x, y. cbn in *. by subst.
Qed.

Lemma index_list kind m A full :
  fifo_inv kind m A → entries_after m (fifo_order_prefix kind) full →
  ∃ rows rest P, full = rows ++ rest ∧ rows.*1 = map (order_row kind) P ∧
    Forall (λ kv, starts_with (fifo_order_prefix kind) kv.1 = false) rest ∧
    (∀ k t, (k, t) ∈ P ↔ A !! k = Some t) ∧ StronglySorted older P.
Proof.
  intros Hinv Hent. destruct (entries_split _ _ _ Hent) as (rows & rest & Hfull & Hrows & Hrest).
  destruct Hent as [HS Hmem].
  assert (Hch : Forall (λ kv, ∃ kt, kv.1 = order_row kind kt ∧ A !! kt.1 = Some kt.2) rows).
  { apply list.Forall_forall. intros [r v] Hin.
    assert (Hr : starts_with (fifo_order_prefix kind) r = true)
      by (rewrite list.Forall_forall in Hrows; by apply (Hrows (r, v))).
    assert (Hm : m !! r = Some v) by (apply Hmem; rewrite Hfull; apply elem_of_app; by left).
    destruct (proj1 (fi_order _ _ _ Hinv r Hr)) as (k & t & Ha & ->); [by eexists|].
    by exists (k, t). }
  apply Forall_choose in Hch as [P HP]. exists rows, rest, P.
  assert (Hmap : rows.*1 = map (order_row kind) P).
  { clear -HP. induction HP as [|x y l l' [E _] _ IH]; [done|]. cbn. by rewrite E, IH. }
  split_and!; [done|done|done| |].
  - intros k t. split.
    + intros [i Hi]%list_elem_of_lookup_1.
      eapply Forall2_lookup_r in HP as (kv & _ & _ & Ha); [|exact Hi]. done.
    + intros Ha. destruct (proj2 (fi_order _ _ _ Hinv (fifo_order_key kind t k) (order_row_prefix kind (k, t)))) as [v Hv];
        [eauto|].
      assert (Hin : (fifo_order_key kind t k, v) ∈ full).
      { apply Hmem. split; [done|]. unfold fifo_order_key. apply key_le_prefix. }
      rewrite Hfull in Hin. apply elem_of_app in Hin as [Hin|Hin].
      * apply list_elem_of_lookup_1 in Hin as [i Hi].
        eapply Forall2_lookup_l in HP as (kt & Hkt & E & Ha'); [|exact Hi]. cbn in E.
        destruct (fi_keys _ _ _ Hinv _ _ Ha) as [_ Ht], (fi_keys _ _ _ Hinv _ _ Ha') as [_ Ht'].
        unfold order_row in E. apply order_key_inj in E as [-> ->]; [|done..].
        apply list_elem_of_lookup_2 in Hkt. by destruct kt.
      * rewrite list.Forall_forall in Hrest. specialize (Hrest _ Hin). cbn in Hrest.
        pose proof (order_row_prefix kind (k, t)) as Hp. unfold order_row in Hp. cbn in Hp. congruence.
  - rewrite Hfull in HS. apply StronglySorted_app_1_l in HS.
    assert (Hb : Forall (λ kt, 0 <= kt.2 <= u64_max) P).
    { apply list.Forall_forall. intros kt [i Hi]%list_elem_of_lookup_1.
      eapply Forall2_lookup_r in HP as (kv & _ & _ & Ha); [|exact Hi].
      by destruct (fi_keys _ _ _ Hinv _ _ Ha). }
    clear -HS Hmap Hb. revert P Hmap Hb. induction HS as [|x l HS IH HF]; intros [|p P] Hmap Hb; try done;
      [constructor|]. cbn [fmap list_fmap map] in Hmap. injection Hmap as Hx Hmap. apply list.Forall_cons in Hb as [Hp Hb].
    constructor; [by apply IH|]. rewrite list.Forall_forall in HF. rewrite list.Forall_forall in Hb.
    apply list.Forall_forall. intros q Hq. apply (order_row_lt kind); [done|by apply Hb|].
    assert (Hin : order_row kind q ∈ l.*1) by (rewrite Hmap; apply list_elem_of_fmap; eauto).
    apply list_elem_of_fmap in Hin as (y & -> & Hy). rewrite <- Hx. by apply HF.
Qed.

(** ** [put_bounded] *)

Lemma older_irrefl x : ¬ older x x.
Proof. intros [?|[_ [_ ?]]]; [lia|done]. Qed.

(** The index without [entry], oldest first. *)
Record index_without (entry : string) (A : gmap string Z) (F : list (string * Z)) : Prop := {
  iw_mem k t : (k, t) ∈ F ↔ A !! k = Some t ∧ k ≠ entry;
  iw_sorted : StronglySorted older F
}.

Lemma index_without_NoDup entry A F : index_without entry A F → NoDup F.*1.
Proof.
  intros [Hmem HS]. apply NoDup_alt. intros i j k Hi Hj.
  apply list_lookup_fmap_Some in Hi as ([k1 t1] & -> & Hi), Hj as ([k2 t2] & E & Hj).
  cbn in E. subst k2. destruct (lt_eq_lt_dec i j) as [[Hij|]|Hij]; [exfalso|done|exfalso].
  all: assert (t1 = t2) as -> by
    (apply list_elem_of_lookup_2, Hmem in Hi as [Hi _]; apply list_elem_of_lookup_2, Hmem in Hj as [Hj _];
     congruence).
  - by apply (older_irrefl (k1, t2)), (sorted_lookup older F i j).
  - by apply (older_irrefl (k1, t2)), (sorted_lookup older F j i).
Qed.

Lemma index_without_size entry A F :
  index_without entry A F → Permutation (map_to_list (delete entry A)) F.
Proof.
  intros Hiw. apply NoDup_Permutation.
  - apply NoDup_map_to_list.
  - eapply NoDup_fmap_1, index_without_NoDup, Hiw.
  - intros [k t]. rewrite elem_of_map_to_list, lookup_delete_Some, (iw_mem _ _ _ Hiw). naive_solver.
Qed.

Lemma index_without_count entry A F w :
  index_without entry A F → size (<[entry := w]> A) = S (length F).
Proof.
  intros Hiw. rewrite <- insert_delete_eq, map_size_insert_None by apply lookup_delete_eq.
  rewrite <- length_map_to_list. by rewrite (index_without_size _ _ _ Hiw).
Qed.

Lemma victims_index entry A P :
  (∀ k t, (k, t) ∈ P ↔ A !! k = Some t) → StronglySorted older P →
  index_without entry A (filter (λ kt, kt.1 ≠ entry) P).
Proof.
  intros Hmem HS. split.
  - intros k t. rewrite list_elem_of_filter, Hmem. cbn. tauto.
  - clear -HS. induction HS as [|x l HS IH HF]; [constructor|]. rewrite filter_cons.
    destruct (decide _); [|done]. constructor; [done|].
    apply list.Forall_forall. intros y [_ Hy]%list_elem_of_filter.
    rewrite list.Forall_forall in HF. by apply HF.
Qed.

Section put.
Context {D : Type} `{DatabaseLaws D}.

(** The number of entries to evict when [n] others are present. *)
Definition excess_of (n : nat) (max : Z) : nat := Z.to_nat (1 + Z.of_nat n - max).

Lemma readthrough_count_inv (s : Store D) kind A v :
  fifo_inv kind (content (db s)) A → db_get (db s) (fifo_count_key kind) = Ok v →
  Z.of_nat (size A) <= u64_max → readthrough_count s kind = Z.of_nat (size A).
Proof.
  intros Hinv Hg Hs. unfold readthrough_count, get_raw. rewrite Hg.
  apply db_get_ok in Hg as ->. destruct (fi_count _ _ _ Hinv) as [->|[-> ->]]; [|done].
  cbn [mbind option_bind]. rewrite be_u64_be64 by lia. done.
Qed.

Lemma bounded_batch_spec (s : Store D) kind entry bytes w A b v :
  fifo_inv kind (content (db s)) A → starts_with kind entry = true →
  db_get (db s) (fifo_count_key kind) = Ok v → Z.of_nat (size A) < u64_max →
  1 <= readthrough_max_entries s →
  bounded_batch s kind entry bytes w (content (db s) !! fifo_pos_key entry) = Ok b →
  ∃ F, index_without entry A F ∧
    let e := excess_of (length F) (readthrough_max_entries s) in
    b = match A !! entry with Some t => [BDelete (fifo_order_key kind t entry)] | None => [] end ++
        [BPut entry bytes; BPut (fifo_pos_key entry) (be64 w);
         BPut (fifo_order_key kind w entry) EmptyString] ++
        map BDelete (victim_rows kind (take e F)) ++
        [BPut (fifo_count_key kind) (be64 (Z.of_nat (S (length F) - e)))].
Proof.
  intros Hinv Hk Hg Hsz Hmax Hb.
  destruct (db_iter_ok (db s) (fifo_order_prefix kind)) as (full & Hent & Hiter).
  destruct (index_list _ _ _ _ Hinv Hent) as (rows & rest & P & -> & HP & Hrest & Hmem & HS).
  set (F := filter (λ kt : string * Z, kt.1 ≠ entry) P).
  assert (Hiw : index_without entry A F) by (by apply (victims_index entry A P)).
  exists F. split; [done|]. cbv zeta.
  unfold bounded_batch in Hb. cbv zeta in Hb.
  rewrite (readthrough_count_inv s kind A v), (fi_pos _ _ _ Hinv) in Hb by (done || lia).
  assert (Hcount : match be64 <$> A !! entry with
                   | Some _ => Z.of_nat (size A)
                   | None => wrap 64 (Z.of_nat (size A) + 1)
                   end = Z.of_nat (S (length F))).
  { pose proof (index_without_count _ _ _ w Hiw) as Hc. rewrite map_size_insert in Hc.
    destruct (A !! entry); cbn [fmap option_fmap option_map id] in *; [lia|]. rewrite wrap_small; [lia|]. unfold in_width, u64_max in *. lia. }
  rewrite Hcount in Hb.
  assert (Hold : match be64 <$> A !! entry with
                 | Some old => match be_u64 old with
                               | Some t => [BDelete (fifo_order_key kind t entry)]
                               | None => []
                               end
                 | None => []
                 end = match A !! entry with
                       | Some t => [BDelete (fifo_order_key kind t entry)]
                       | None => []
                       end).
  { destruct (A !! entry) as [t|] eqn:Ea; [|done]. cbn [fmap option_fmap option_map].
    rewrite be_u64_be64; [done|]. by destruct (fi_keys _ _ _ Hinv _ _ Ea). }
  rewrite Hold in Hb. clear Hcount Hold.
  unfold excess_of.
  destruct (Z.ltb_spec (readthrough_max_entries s) (Z.of_nat (S (length F)))) as [Hgt|Hle].
  - assert (Hev : evict (fifo_order_prefix kind) entry
      (Z.of_nat (S (length F)) - readthrough_max_entries s) (Z.of_nat (S (length F)))
      (map Ok (rows ++ rest)) = Ok (map BDelete (victim_rows kind (victims entry
         (Z.of_nat (S (length F)) - readthrough_max_entries s) P)),
         Z.of_nat (S (length F)) - Z.of_nat (length (victims entry
         (Z.of_nat (S (length F)) - readthrough_max_entries s) P))))
      by (apply evict_rows; [done|lia|done]).
    rewrite victims_length in Hev by (fold F; lia).
    assert (Hb' : evict (fifo_order_prefix kind) entry
      (Z.of_nat (S (length F)) - readthrough_max_entries s) (Z.of_nat (S (length F)))
      (db_iter (db s) (fifo_order_prefix kind)) =
      evict (fifo_order_prefix kind) entry
      (Z.of_nat (S (length F)) - readthrough_max_entries s) (Z.of_nat (S (length F)))
      (map Ok (rows ++ rest))).
    { destruct Hiter as [->|(l & more & e & tl & -> & Hit)]; [done|]. rewrite Hit in Hb |- *.
      destruct (evict _ _ _ _ (map Ok l ++ Err e :: tl)) as [r|] eqn:Er; [|done].
      symmetry. by eapply evict_extend. }
    rewrite Hb', Hev in Hb. cbn [mbind result_bind] in Hb. injection Hb as <-.
    unfold victims. fold F.
    replace (Z.to_nat (Z.of_nat (S (length F)) - readthrough_max_entries s))
      with (Z.to_nat (1 + Z.of_nat (length F) - readthrough_max_entries s)) by lia.
    replace (Z.of_nat (S (length F)) - (Z.of_nat (S (length F)) - readthrough_max_entries s))
      with (Z.of_nat (S (length F) - Z.to_nat (1 + Z.of_nat (length F) - readthrough_max_entries s)))
      by lia. done.
  - cbn [mbind result_bind] in Hb. injection Hb as <-.
    replace (Z.to_nat (1 + Z.of_nat (length F) - readthrough_max_entries s)) with 0%nat by lia.
    cbn [take victim_rows map mjoin list_join app]. by rewrite Nat.sub_0_r.
Qed.
End put.

(** *** The map after the batch *)

Section batch_effect.
Context (kind entry bytes : string) (w c : Z) (A : gmap string Z) (V : list (string * Z)).

Definition put_batch : batch :=
  match A !! entry with Some t => [BDelete (fifo_order_key kind t entry)] | None => [] end ++
  [BPut entry bytes; BPut (fifo_pos_key entry) (be64 w);
   BPut (fifo_order_key kind w entry) EmptyString] ++
  map BDelete (victim_rows kind V) ++ [BPut (fifo_count_key kind) (be64 c)].

Lemma put_batch_lookup m q :
  apply_batch put_batch m !! q =
    if decide (q = fifo_count_key kind) then Some (be64 c)
    else if decide (q ∈ victim_rows kind V) then None
    else if decide (q = fifo_order_key kind w entry) then Some EmptyString
    else if decide (q = fifo_pos_key entry) then Some (be64 w)
    else if decide (q = entry) then Some bytes
    else match A !! entry with
         | Some t => if decide (q = fifo_order_key kind t entry) then None else m !! q
         | None => m !! q
         end.
Proof.
  assert (Hd : ∀ (x y : string) (X : Type) (a b : X),
    (if decide (x = y) then a else b) = (if decide (y = x) then a else b))
    by (intros; destruct (decide (x = y)), (decide (y = x)); congruence).
  rewrite apply_batch_lookup. unfold put_batch. rewrite !batch_lookup_app, batch_lookup_deletes.
  cbn [batch_lookup]. rewrite (Hd q). destruct (decide (fifo_count_key kind = q)); [done|].
  destruct (decide (q ∈ victim_rows kind V)); [done|].
  rewrite (Hd q). destruct (decide (fifo_order_key kind w entry = q)); [done|].
  rewrite (Hd q). destruct (decide (fifo_pos_key entry = q)); [done|].
  rewrite (Hd q). destruct (decide (entry = q)); [done|].
  destruct (A !! entry); [|done]. cbn [batch_lookup]. rewrite (Hd q).
  by destruct (decide (fifo_order_key kind z entry = q)).
Qed.
End batch_effect.

(** *** The index after the write *)

Definition evicted (F : list (string * Z)) (max : Z) : list (string * Z) :=
  take (excess_of (length F) max) F.
Definition kept (F : list (string * Z)) (max : Z) : list (string * Z) :=
  drop (excess_of (length F) max) F.

(** The kept entries and the new one. *)
Definition new_index (entry : string) (w max : Z) (F : list (string * Z)) : gmap string Z :=
  <[entry := w]> (list_to_map (kept F max)).

Section new_index.
Context (entry : string) (w max : Z) (A : gmap string Z) (F : list (string * Z)).
Context (HF : index_without entry A F).

Lemma evicted_kept : F = evicted F max ++ kept F max.
Proof. symmetry. apply take_drop. Qed.

Lemma kept_NoDup : NoDup (kept F max).*1.
Proof using HF.
  eapply sublist_NoDup; [exact (index_without_NoDup _ _ _ HF)|].
  apply fmap_sublist, sublist_drop.
Qed.

Lemma evicted_not_kept k t t' : (k, t) ∈ evicted F max → (k, t') ∈ kept F max → False.
Proof using HF.
  intros HV HK. pose proof (index_without_NoDup _ _ _ HF) as HN.
  rewrite evicted_kept, fmap_app in HN. apply NoDup_app in HN as (_ & HD & _).
  apply (HD k); apply list_elem_of_fmap; [by exists (k, t)|by exists (k, t')].
Qed.

Lemma new_index_entry : new_index entry w max F !! entry = Some w.
Proof. apply lookup_insert_eq. Qed.

Lemma new_index_other k t :
  k ≠ entry → new_index entry w max F !! k = Some t ↔ (k, t) ∈ kept F max.
Proof using HF.
  intros Hk. unfold new_index. rewrite lookup_insert_ne by done.
  symmetry. apply elem_of_list_to_map, kept_NoDup.
Qed.

Lemma index_cases k t :
  k ≠ entry → A !! k = Some t ↔ (k, t) ∈ evicted F max ∨ (k, t) ∈ kept F max.
Proof using HF.
  intros Hk. rewrite <- elem_of_app, <- evicted_kept, (iw_mem _ _ _ HF).
  split; [intros Ha; by split|by intros []].
Qed.

Lemma in_F_index kt : kt ∈ F → A !! kt.1 = Some kt.2 ∧ kt.1 ≠ entry.
Proof using HF. destruct kt as [k t]. apply (iw_mem _ _ _ HF). Qed.

Lemma evicted_index kt : kt ∈ evicted F max → A !! kt.1 = Some kt.2 ∧ kt.1 ≠ entry.
Proof using HF. intros Hin. apply in_F_index. rewrite evicted_kept. apply elem_of_app. by left. Qed.

Lemma kept_index kt : kt ∈ kept F max → A !! kt.1 = Some kt.2 ∧ kt.1 ≠ entry.
Proof using HF. intros Hin. apply in_F_index. rewrite evicted_kept. apply elem_of_app. by right. Qed.

Lemma new_index_size :
  1 <= max → size (new_index entry w max F) = (S (length F) - excess_of (length F) max)%nat.
Proof using HF.
  intros Hmax. unfold new_index. rewrite map_size_insert_None.
  - rewrite <- length_map_to_list, map_to_list_to_map by apply kept_NoDup.
    unfold kept. rewrite length_drop. unfold excess_of. lia.
  - apply not_elem_of_list_to_map. intros (kt & E & Hin)%list_elem_of_fmap.
    by destruct (kept_index _ Hin).
Qed.

Lemma new_index_bound : 1 <= max → Z.of_nat (size (new_index entry w max F)) <= max.
Proof using HF. intros Hmax. rewrite new_index_size by done. unfold excess_of. lia. Qed.
End new_index.

(** *** The invariant after the write *)

Lemma class_neq kind c c' q q' :
  kind ∈ BOUNDED_KINDS → in_class kind c q → in_class kind c' q' → c ≠ c' → q ≠ q'.
Proof. intros Hk Hq Hq' Hne ->. by apply Hne, (class_unique kind c c' q'). Qed.

Lemma pos_key_inj k k' : fifo_pos_key k = fifo_pos_key k' → k = k'.
Proof. apply str_app_inj_l. Qed.

Section put_inv.
Context (kind entry bytes : string) (w max c : Z) (m : gmap string string)
  (A : gmap string Z) (F : list (string * Z)).
Context (Hkind : kind ∈ BOUNDED_KINDS) (Hentry : starts_with kind entry = true)
  (Hinv : fifo_inv kind m A) (HF : index_without entry A F).

Local Abbreviation V := (evicted F max).
Local Abbreviation m' := (apply_batch (put_batch kind entry bytes w c A V) m).
Local Abbreviation A' := (new_index entry w max F).

Lemma evicted_class kt : kt ∈ V → in_class kind CEntry kt.1 ∧ 0 <= kt.2 <= u64_max.
Proof using Hinv HF.
  intros Hkt. destruct (evicted_index _ _ _ _ HF _ Hkt) as [Ha _].
  by destruct (fi_keys _ _ _ Hinv _ _ Ha).
Qed.

(** Which deletes of the eviction hit a row of a given class. *)
Lemma victim_class cl q :
  in_class kind cl q → q ∈ victim_rows kind V →
  ∃ kt, kt ∈ V ∧ match cl with
                 | CEntry => q = kt.1
                 | CPos => q = fifo_pos_key kt.1
                 | COrder => q = order_row kind kt
                 | CCount => False
                 end.
Proof using Hkind Hinv HF.
  intros Hq (kt & Hkt & Hcase)%victim_rows_elem. exists kt. split; [done|].
  destruct (evicted_class kt Hkt) as [Hc _].
  destruct Hcase as [->|[->| ->]].
  - by rewrite (class_unique _ _ _ _ Hkind Hq Hc).
  - by rewrite (class_unique _ _ _ _ Hkind Hq (class_pos kind kt.1)).
  - by rewrite (class_unique _ _ _ _ Hkind Hq (class_order kind kt.2 kt.1)).
Qed.

(** Away from the new entry, the new index is the old one less the victims. *)
Lemma new_index_keep k : k ≠ entry → (∀ t, (k, t) ∉ V) → A' !! k = A !! k.
Proof using HF.
  intros Hk Hn. apply option_eq. intros t.
  rewrite (new_index_other _ _ _ _ _ HF), (index_cases _ max _ _ HF) by done. split; [by right|].
  intros [Hv|]; [|done]. by destruct (Hn t).
Qed.

Lemma new_index_drop k t : (k, t) ∈ V → A' !! k = None.
Proof using HF.
  intros Hv. destruct (evicted_index _ _ _ _ HF _ Hv) as [_ Hk]. cbn in Hk.
  apply eq_None_not_Some. intros [t' Ht']. apply (new_index_other _ _ _ _ _ HF) in Ht'; [|done].
  by eapply evicted_not_kept.
Qed.

Lemma evicted_dec k : {t | (k, t) ∈ V} + {∀ t, (k, t) ∉ V}.
Proof.
  destruct (list_find (λ kt : string * Z, kt.1 = k) V) as [[i [k' t]]|] eqn:E.
  - left. exists t. apply list_find_Some in E as (Hi & E & _). cbn in E. subst k'. by eapply list_elem_of_lookup_2.
  - right. intros t Hin. apply list_find_None in E. rewrite list.Forall_forall in E. by apply (E (k, t)).
Qed.

(** The rows of the old write of the entry. *)
Lemma old_row_other cl q :
  in_class kind cl q → cl ≠ COrder →
  match A !! entry with
  | Some t => if decide (q = fifo_order_key kind t entry) then None else m !! q
  | None => m !! q
  end = m !! q.
Proof using Hkind.
  intros Hq Hcl. destruct (A !! entry) as [t|]; [|done].
  rewrite decide_False; [done|]. eapply class_neq; [done|exact Hq|apply class_order|done].
Qed.

Lemma put_entry_rows k : starts_with kind k = true → is_Some (m' !! k) ↔ is_Some (A' !! k).
Proof using Hkind Hentry Hinv HF.
  intros Hk. assert (Hc : in_class kind CEntry k) by done. rewrite put_batch_lookup.
  rewrite decide_False by (eapply class_neq; [done|exact Hc|apply class_count|done]).
  destruct (decide (k = entry)) as [->|Hne].
  { rewrite new_index_entry, decide_False.
    - repeat case_decide; done.
    - intros (kt & Hkt & E)%(victim_class CEntry); [|done].
      by destruct (evicted_index _ _ _ _ HF _ Hkt). }
  destruct (evicted_dec k) as [[t Ht]|Hn].
  { rewrite decide_True, (new_index_drop _ _ Ht); [by split; intros []|].
    apply victim_rows_elem. exists (k, t). auto. }
  rewrite decide_False.
  2:{ intros ([k' t] & Hkt & E)%(victim_class CEntry); [|done]. cbn in E. subst. by apply (Hn t). }
  rewrite decide_False by (eapply class_neq; [done|exact Hc|apply class_order|done]).
  rewrite decide_False by (eapply class_neq; [done|exact Hc|apply (class_pos kind)|done]).
  rewrite (old_row_other _ _ Hc) by done. rewrite new_index_keep by done.
  by apply (fi_entry _ _ _ Hinv).
Qed.

Lemma put_pos_rows k : starts_with kind k = true → m' !! fifo_pos_key k = be64 <$> A' !! k.
Proof using Hkind Hentry Hinv HF.
  intros Hk. assert (Hc : in_class kind CPos (fifo_pos_key k)) by apply class_pos.
  rewrite put_batch_lookup.
  rewrite decide_False by (eapply class_neq; [done|exact Hc|apply class_count|done]).
  destruct (decide (k = entry)) as [->|Hne].
  { rewrite new_index_entry, decide_False.
    - rewrite decide_False by (eapply class_neq; [done|exact Hc|apply class_order|done]).
      by rewrite decide_True.
    - intros (kt & Hkt & E%pos_key_inj)%(victim_class CPos); [|done].
      by destruct (evicted_index _ _ _ _ HF _ Hkt). }
  destruct (evicted_dec k) as [[t Ht]|Hn].
  { rewrite decide_True, (new_index_drop _ _ Ht); [done|].
    apply victim_rows_elem. exists (k, t). auto. }
  rewrite decide_False.
  2:{ intros ([k' t] & Hkt & E%pos_key_inj)%(victim_class CPos); [|done]. cbn in E. subst. by apply (Hn t). }
  rewrite decide_False by (eapply class_neq; [done|exact Hc|apply class_order|done]).
  rewrite decide_False by (by intros ?%pos_key_inj).
  rewrite decide_False by (eapply class_neq; [done|exact Hc| |]; [exact (Hentry : in_class kind CEntry entry)|done]).
  rewrite (old_row_other _ _ Hc), new_index_keep by done. by apply (fi_pos _ _ _ Hinv).
Qed.

Lemma put_order_rows r :
  0 <= w <= u64_max → starts_with (fifo_order_prefix kind) r = true →
  is_Some (m' !! r) ↔ ∃ k t, A' !! k = Some t ∧ r = fifo_order_key kind t k.
Proof using Hkind Hentry Hinv HF.
  intros Hw Hr. assert (Hc : in_class kind COrder r) by (by apply class_order_prefix).
  assert (Hb : ∀ k t, A' !! k = Some t → 0 <= t <= u64_max).
  { intros k t Hk. destruct (decide (k = entry)) as [->|Hne].
    - rewrite new_index_entry in Hk. by injection Hk as <-.
    - apply (new_index_other _ _ _ _ _ HF) in Hk; [|done].
      destruct (kept_index _ _ _ _ HF _ Hk) as [Ha _]. by destruct (fi_keys _ _ _ Hinv _ _ Ha). }
  rewrite put_batch_lookup.
  rewrite decide_False by (eapply class_neq; [done|exact Hc|apply class_count|done]).
  destruct (decide (r ∈ victim_rows kind V)) as [Hv|Hnv].
  { split; [by intros []|]. intros (k & t & Ha & E).
    destruct (victim_class COrder r Hc Hv) as ([k' t'] & Hkt & E'). subst r.
    unfold order_row in E'. apply order_key_inj in E' as [-> ->]; [|by eauto|by apply (evicted_class (k', t'))].
    cbn in Ha. by rewrite (new_index_drop _ _ Hkt) in Ha. }
  destruct (decide (r = fifo_order_key kind w entry)) as [->|Hnw].
  { split; [|by eexists]. intros _. exists entry, w. by rewrite new_index_entry. }
  rewrite decide_False by (eapply class_neq; [done|exact Hc|apply (class_pos kind)|done]).
  rewrite decide_False by (eapply class_neq; [done|exact Hc| |]; [exact (Hentry : in_class kind CEntry entry)|done]).
  assert (Hcommon : (∀ t, A !! entry = Some t → r ≠ fifo_order_key kind t entry) →
    is_Some (m !! r) ↔ ∃ k t, A' !! k = Some t ∧ r = fifo_order_key kind t k).
  { intros Hn. rewrite (fi_order _ _ _ Hinv r Hr). split.
    - intros (k & t & Ha & E). exists k, t. split; [|done].
      assert (Hk : k ≠ entry) by (intros ->; by apply (Hn t)).
      apply (new_index_other _ _ _ _ _ HF); [done|].
      destruct (proj1 (index_cases _ max _ _ HF k t Hk) Ha) as [Hv|]; [exfalso|done].
      apply Hnv, victim_rows_elem. exists (k, t). auto.
    - intros (k & t & Ha & E). exists k, t. split; [|done].
      destruct (decide (k = entry)) as [->|Hk].
      + rewrite new_index_entry in Ha. by injection Ha as <-.
      + apply (new_index_other _ _ _ _ _ HF) in Ha; [|done].
        by destruct (kept_index _ _ _ _ HF _ Ha). }
  destruct (A !! entry) as [t0|] eqn:Ea; [|by apply Hcommon].
  destruct (decide (r = fifo_order_key kind t0 entry)) as [->|Hn].
  - split; [by intros []|]. intros (k & t & Ha & E).
    apply order_key_inj in E as [<- <-]; [|by destruct (fi_keys _ _ _ Hinv _ _ Ea)|by eauto].
    rewrite new_index_entry in Ha. by injection Ha as <-.
  - apply Hcommon. by intros t [= <-].
Qed.

Lemma put_batch_inv :
  0 <= w <= u64_max → 1 <= max → c = Z.of_nat (size A') → fifo_inv kind m' A'.
Proof using Hkind Hentry Hinv HF.
  intros Hw Hmax Hcnt. split.
  - intros k t Ha. destruct (decide (k = entry)) as [->|Hk].
    + rewrite new_index_entry in Ha. by injection Ha as <-.
    + apply (new_index_other _ _ _ _ _ HF) in Ha; [|done].
      destruct (kept_index _ _ _ _ HF _ Ha) as [Ha' _]. by apply (fi_keys _ _ _ Hinv).
  - apply put_entry_rows.
  - apply put_pos_rows.
  - intros r. by apply put_order_rows.
  - left. rewrite put_batch_lookup, decide_True by done. by rewrite Hcnt.
Qed.

(** The value the entry reads afterwards. *)
Lemma put_batch_entry : m' !! entry = Some bytes.
Proof using Hkind Hentry Hinv HF.
  assert (Hc : in_class kind CEntry entry) by done. rewrite put_batch_lookup.
  rewrite decide_False by (eapply class_neq; [done|exact Hc|apply class_count|done]).
  rewrite decide_False.
  2:{ intros (kt & Hkt & E)%(victim_class CEntry); [|done].
      by destruct (evicted_index _ _ _ _ HF _ Hkt). }
  rewrite decide_False by (eapply class_neq; [done|exact Hc|apply class_order|done]).
  rewrite decide_False by (eapply class_neq; [done|exact Hc|apply (class_pos kind)|done]).
  by rewrite decide_True.
Qed.
End put_inv.
