(* ===== verification/FifoSpec.v ===== *)
(** * FifoSpec: what the bounded read-through index guarantees

    The operations of [Fifo] against the abstract index [A : gmap string Z]
    (entry key to write time) of [fifo_inv]: a write keeps the kind within
    its bound by dropping its oldest entries, deletes and sweeps remove the
    index rows of what they delete, and no operation touches another kind. *)

From Stdlib Require Import ZArith Lia Sorting.Sorted.
From stdpp Require Import base list strings option gmap sorting.
From S2P Require Import Prelude Text Errors Keys PckCert Database Fifo.

Local Open Scope Z_scope.

(** ** Rows of a kind, and the frame *)

Definition kind_row (kind q : string) : Prop :=
  starts_with kind q = true ∨
  (∃ k, starts_with kind k = true ∧ q = fifo_pos_key k) ∨
  starts_with (fifo_order_prefix kind) q = true ∨
  q = fifo_count_key kind.

Lemma bounded_prefix_inj kind kind' s :
  kind ∈ BOUNDED_KINDS → kind' ∈ BOUNDED_KINDS →
  starts_with kind s = true → starts_with kind' s = true → kind = kind'.
Proof. intros Hk Hk'. by apply kind_disjoint; apply bounded_in_all. Qed.

Lemma kind_row_class kind q : kind_row kind q → ∃ c, in_class kind c q.
Proof.
  intros [?|[(k & _ & ->)|[?| ->]]];
    [by exists CEntry|exists CPos; apply class_pos|exists COrder; by apply class_order_prefix|
     exists CCount; apply class_count].
Qed.

Lemma starts_with_strip p q s : starts_with (p ++ q)%string (p ++ s)%string = starts_with q s.
Proof.
  apply eq_true_iff_eq. rewrite !starts_with_spec. split; intros [r E]; exists r.
  - rewrite <- str_app_assoc in E. by apply str_app_inj_l in E.
  - by rewrite E, str_app_assoc.
Qed.

Lemma kind_rows_disjoint kind kind' q :
  kind ∈ BOUNDED_KINDS → kind' ∈ BOUNDED_KINDS →
  kind_row kind q → kind_row kind' q → kind = kind'.
Proof.
  intros Hk Hk'. pose proof (bounded_in_all _ Hk) as Ha. pose proof (bounded_in_all _ Hk') as Ha'.
  destruct fifo_in_all as (HO & HP & HC).
  assert (Hcls : ∀ p p', p ∈ all_prefixes → p' ∈ all_prefixes → p ≠ p' →
    starts_with p q = true → starts_with p' q = true → False).
  { intros p p' Hp Hp' Hne H1 H2. by apply Hne, (kind_disjoint p p' q). }
  assert (Hne : ∀ x, x ∈ BOUNDED_KINDS → x ≠ FIFO_ORDER ∧ x ≠ FIFO_POS ∧ x ≠ FIFO_COUNT).
  { intros x Hx. repeat (apply elem_of_cons in Hx as [->|Hx]; [done|]). by apply not_elem_of_nil in Hx. }
  destruct (Hne _ Hk) as (N1 & N2 & N3), (Hne _ Hk') as (N1' & N2' & N3').
  assert (Ho : ∀ x, starts_with (fifo_order_prefix x) q = true → starts_with FIFO_ORDER q = true)
    by (intros x; apply starts_with_trans).
  assert (Hpos : ∀ k, q = fifo_pos_key k → starts_with FIFO_POS q = true)
    by (intros k ->; apply starts_with_app).
  assert (Hcnt : ∀ x, q = fifo_count_key x → starts_with FIFO_COUNT q = true)
    by (intros x ->; apply starts_with_app).
  intros [H1|[(k & H1 & E)|[H1|E]]] [H2|[(k' & H2 & E')|[H2|E']]];
    first [pose proof (Hpos _ E) as S1 | pose proof (Hcnt _ E) as S1 | pose proof (Ho _ H1) as S1 |
           pose proof H1 as S1];
    first [pose proof (Hpos _ E') as S2 | pose proof (Hcnt _ E') as S2 | pose proof (Ho _ H2) as S2 |
           pose proof H2 as S2];
    try (exfalso; refine (Hcls _ _ _ _ _ S1 S2); solve [assumption | congruence | done]).
  - by apply (bounded_prefix_inj _ _ q).
  - subst q. apply pos_key_inj in E' as <-. by apply (bounded_prefix_inj _ _ k).
  - apply starts_with_spec in H1 as [r ->]. unfold fifo_order_prefix in *.
    rewrite <- str_app_assoc, starts_with_strip in H2.
    apply (bounded_prefix_inj _ _ (kind ++ r)%string); [done|done|apply starts_with_app|done].
  - subst q. by apply str_app_inj_l in E'.
Qed.

(** What changes only rows of one kind keeps the index of every other. *)
Lemma fifo_inv_frame kind kind' m m' A :
  kind ∈ BOUNDED_KINDS → kind' ∈ BOUNDED_KINDS → kind ≠ kind' →
  (∀ q, ¬ kind_row kind q → m' !! q = m !! q) →
  fifo_inv kind' m A → fifo_inv kind' m' A.
Proof.
  intros Hk Hk' Hne Hf [H1 H2 H3 H4 H5].
  assert (Hsame : ∀ q, kind_row kind' q → m' !! q = m !! q).
  { intros q Hq. apply Hf. intros Hq'. by apply Hne, (kind_rows_disjoint kind kind' q). }
  split; [done|..].
  - intros k Hs. rewrite Hsame by (by left). by apply H2.
  - intros k Hs. rewrite Hsame by (right; left; by exists k). by apply H3.
  - intros r Hr. rewrite Hsame by (right; right; by left). by apply H4.
  - rewrite Hsame by (by repeat right). done.
Qed.

(** ** Writes *)

(** Every operation of the database succeeds. *)
Definition healthy {D} `{Database D} (d : D) : Prop :=
  (∀ k, ∃ v, db_get d k = Ok v) ∧ (∀ b, ∃ d', db_write d b = Ok d') ∧
  (∀ start, ∃ l, db_iter d start = map Ok l).

Lemma healthy_get_raw {D} `{DatabaseLaws D} (s : Store D) k :
  healthy (db s) → get_raw s k = content (db s) !! k.
Proof. intros (Hg & _ & _). unfold get_raw. destruct (Hg k) as [v E]. rewrite E. by apply db_get_ok. Qed.

Section put_frame.
Context (kind entry bytes : string) (w c : Z) (m : gmap string string)
  (A : gmap string Z) (V : list (string * Z)).
Context (Hentry : starts_with kind entry = true)
  (HV : ∀ kt, kt ∈ V → starts_with kind kt.1 = true).

Lemma victim_rows_kind q : q ∈ victim_rows kind V → kind_row kind q.
Proof using HV.
  intros (kt & Hkt & [->|[->| ->]])%victim_rows_elem; specialize (HV kt Hkt).
  - by left.
  - right; left. eauto.
  - right; right; left. apply order_row_prefix.
Qed.

Lemma put_batch_frame q :
  ¬ kind_row kind q → apply_batch (put_batch kind entry bytes w c A V) m !! q = m !! q.
Proof using Hentry HV.
  intros Hq. rewrite put_batch_lookup.
  rewrite decide_False by (intros ->; apply Hq; by repeat right).
  rewrite decide_False by (intros Hin; by apply Hq, victim_rows_kind).
  rewrite decide_False by (intros ->; apply Hq; right; right; left; apply (order_row_prefix kind (entry, w))).
  rewrite decide_False by (intros ->; apply Hq; right; left; eauto).
  rewrite decide_False by (intros ->; apply Hq; by left).
  destruct (A !! entry) as [t|]; [|done].
  rewrite decide_False; [done|]. intros ->; apply Hq; right; right; left.
  apply (order_row_prefix kind (entry, t)).
Qed.

(** The values of the entries that stay are the ones they had. *)
Lemma put_batch_other k :
  kind ∈ BOUNDED_KINDS → starts_with kind k = true → k ≠ entry → (∀ t, (k, t) ∉ V) →
  apply_batch (put_batch kind entry bytes w c A V) m !! k = m !! k.
Proof using Hentry HV.
  intros Hkind Hk Hne Hn. assert (Hc : in_class kind CEntry k) by done. rewrite put_batch_lookup.
  rewrite decide_False by (eapply class_neq; [done|exact Hc|apply class_count|done]).
  rewrite decide_False.
  2:{ intros ([k' t] & Hkt & [->|[->| ->]])%victim_rows_elem.
      - by apply (Hn t).
      - by pose proof (class_unique _ _ _ _ Hkind Hc (class_pos kind k')).
      - by pose proof (class_unique _ _ _ _ Hkind Hc (class_order kind t k')). }
  rewrite decide_False by (eapply class_neq; [done|exact Hc|apply class_order|done]).
  rewrite decide_False by (eapply class_neq; [done|exact Hc|apply (class_pos kind)|done]).
  rewrite decide_False by done. destruct (A !! entry); [|done].
  rewrite decide_False; [done|]. eapply class_neq; [done|exact Hc|apply class_order|done].
Qed.
End put_frame.

Section put_bounded.
Context {D : Type} `{DatabaseLaws D} {X : Type} `{Serde X}.

Definition write_time (now : Z) (s : Store D) : Z := Z.max now (sat_add (fifo_last s) 1).

(** [put_bounded] as one read and one batch. *)
Lemma put_bounded_steps now kind entry (val : X) s :
  put_bounded now kind entry val s =
    match to_vec val with
    | None => (s, Err INTERNAL_ERROR)
    | Some bytes =>
        let w := write_time now s in
        let s1 := set_last s w in
        match db_get (db s) (fifo_pos_key entry) with
        | Err _ => (s1, Err INTERNAL_ERROR)
        | Ok old => match bounded_batch s kind entry bytes w old with
                    | Err e => (s1, Err e)
                    | Ok b => write_batch b s1
                    end
        end
    end.
Proof.
  unfold put_bounded, pure, read, inspect, modify, mbind, M_bind.
  destruct (to_vec val) as [bytes|]; [|done]. cbn [ok_or db set_last].
  destruct (db_get (db s) (fifo_pos_key entry)) as [old|]; [|done]. cbn [map_err].
  change (bounded_batch (set_last s (Z.max now (sat_add (fifo_last s) 1))) kind entry bytes
    (Z.max now (sat_add (fifo_last s) 1)) old) with (bounded_batch s kind entry bytes (write_time now s) old).
  by destruct (bounded_batch s kind entry bytes _ old).
Qed.

Lemma healthy_evict p entry excess count l :
  ∃ r, evict p entry excess count (map Ok l) = Ok r.
Proof.
  revert excess count. induction l as [|[k v] l IH]; intros excess count; [by eexists|].
  cbn [map evict]. destruct (_ || _); [by eexists|].
  destruct (str_from _ k) as [victim|]; [|apply IH].
  destruct (String.eqb victim entry); [apply IH|].
  destruct (IH (excess - 1) (count - 1)) as [[b c] ->]. by eexists.
Qed.

Lemma healthy_batch s kind entry bytes w old :
  healthy (db s) → ∃ b, bounded_batch s kind entry bytes w old = Ok b.
Proof.
  intros (_ & _ & Hi). unfold bounded_batch. destruct (Hi (fifo_order_prefix kind)) as [l ->].
  destruct (_ <? _); [|by eexists].
  destruct (healthy_evict (fifo_order_prefix kind) entry
    (match old with Some _ => readthrough_count s kind | None => wrap 64 (readthrough_count s kind + 1) end
      - readthrough_max_entries s)
    match old with Some _ => readthrough_count s kind | None => wrap 64 (readthrough_count s kind + 1) end
    l) as [[b c] ->]. by eexists.
Qed.
End put_bounded.

(** The index after a write of [entry] at time [w] under the bound [max]:
    the new entry, and of the others the newest that fit. *)
Record written (A : gmap string Z) (entry : string) (w max : Z) (A' : gmap string Z) : Prop := {
  wr_entry : A' !! entry = Some w;
  wr_keep k t : k ≠ entry → A' !! k = Some t → A !! k = Some t;
  wr_size : Z.of_nat (size A') = Z.min (Z.of_nat (size (<[entry := w]> A))) max;
  wr_oldest k t k' t' :
    k ≠ entry → k' ≠ entry → A !! k = Some t → A' !! k = None → A' !! k' = Some t' →
    older (k, t) (k', t')
}.

Lemma new_index_written entry w max A F :
  index_without entry A F → 1 <= max → written A entry w max (new_index entry w max F).
Proof.
  intros HF Hmax. split.
  - apply new_index_entry.
  - intros k t Hk Hn. apply (new_index_other _ _ _ _ _ HF) in Hn; [|done].
    by destruct (kept_index _ _ _ _ HF _ Hn).
  - rewrite (new_index_size _ _ _ _ _ HF), (index_without_count _ _ _ _ HF) by done. unfold excess_of. lia.
  - intros k t k' t' Hk Hk' Ha Hnone Hsome.
    apply (new_index_other _ _ _ _ _ HF) in Hsome; [|done].
    destruct (proj1 (index_cases _ max _ _ HF k t Hk) Ha) as [Hv|Hv].
    + unfold evicted, kept in *. apply elem_of_take in Hv as (i & Hi & Hlt).
      apply list_elem_of_lookup_1 in Hsome as [j Hj]. rewrite lookup_drop in Hj.
      eapply sorted_lookup; [exact (iw_sorted _ _ _ HF)| |exact Hi|exact Hj]. lia.
    + apply (new_index_other _ w _ _ _ HF) in Hv; [|done]. congruence.
Qed.

Lemma evict_error p entry x c items e : evict p entry x c items = Err e → e = INTERNAL_ERROR.
Proof.
  revert x c. induction items as [|[[k v]|] l IH]; intros x c; cbn [evict]; [done| |by intros [= <-]].
  destruct (_ || _); [done|]. destruct (str_from _ k) as [victim|]; [|apply IH].
  destruct (String.eqb victim entry); [apply IH|].
  specialize (IH (x - 1) (c - 1)). destruct (evict _ _ (x - 1) (c - 1) l) as [[]|]; [done|].
  intros [= <-]. by apply IH.
Qed.

Section put_claims.
Context {D : Type} `{DatabaseLaws D} {X : Type} `{Serde X}.

(** C3: A write to a bounded read-through kind, on a database whose
    operations succeed, completes and keeps the index exact: the record is
    stored under its key with a fresh write time, the kind holds no more
    than [readthrough_max_entries] records, what it dropped is older than
    everything it kept, the records kept read as before, and no row outside
    the kind changes. *)
Theorem put_bounded_correct (s : Store D) now kind entry (val : X) bytes A :
  healthy (db s) → kind ∈ BOUNDED_KINDS → starts_with kind entry = true →
  fifo_inv kind (content (db s)) A → to_vec val = Some bytes →
  0 <= now <= u64_max → 0 <= fifo_last s <= u64_max →
  1 <= readthrough_max_entries s → Z.of_nat (size A) < u64_max →
  ∃ s' A', put_bounded now kind entry val s = (s', Ok ()) ∧
    written A entry (write_time now s) (readthrough_max_entries s) A' ∧
    fifo_inv kind (content (db s')) A' ∧
    fifo_last s' = write_time now s ∧ now <= fifo_last s' ∧
    content (db s') !! entry = Some bytes ∧
    (∀ k, k ≠ entry → is_Some (A' !! k) → content (db s') !! k = content (db s) !! k) ∧
    (∀ q, ¬ kind_row kind q → content (db s') !! q = content (db s) !! q).
Proof.
  intros Hh Hkind Hentry Hinv Hb Hnow Hlast Hmax Hsz. rewrite put_bounded_steps, Hb. cbn zeta.
  pose proof Hh as (Hg & Hw & _). destruct (Hg (fifo_pos_key entry)) as [old Eold]. rewrite Eold.
  apply db_get_ok in Eold as ->.
  destruct (healthy_batch s kind entry bytes (write_time now s) (content (db s) !! fifo_pos_key entry) Hh)
    as [b Eb]. rewrite Eb.
  destruct (Hg (fifo_count_key kind)) as [v Ev].
  destruct (bounded_batch_spec _ _ _ _ _ _ _ _ Hinv Hentry Ev Hsz Hmax Eb) as (F & HF & Eb').
  cbn zeta in Eb'. destruct (Hw b) as [d' Ed]. unfold write_batch. cbn [db set_last]. rewrite Ed.
  apply db_write_ok in Ed. set (w := write_time now s) in *. set (max := readthrough_max_entries s) in *.
  change (b = put_batch kind entry bytes w (Z.of_nat (S (length F) - excess_of (length F) max)) A
    (evicted F max)) in Eb'. subst b.
  assert (Hwt : 0 <= w <= u64_max /\ now <= w) by (unfold w, write_time, sat_add; lia).
  exists (set_db (set_last s w) d'), (new_index entry w max F).
  cbn [db set_db set_last fifo_last]. rewrite Ed. split_and!; [done| |..|done|lia| | |].
  - by apply (new_index_written _ w max A F).
  - apply put_batch_inv; [done..|lia|done|]. by rewrite (new_index_size _ _ _ _ _ HF).
  - by apply put_batch_entry.
  - intros k Hk [t Ht]. pose proof (proj1 (new_index_other _ w max _ _ HF k t Hk) Ht) as Hkept.
    destruct (kept_index _ _ _ _ HF _ Hkept) as [Ha _].
    apply put_batch_other; [done| |done|by destruct (fi_keys _ _ _ Hinv _ _ Ha)|done|].
    + intros kt Hkt. by destruct (evicted_class _ _ _ _ _ _ Hinv HF _ Hkt).
    + intros t' Hv. by eapply evicted_not_kept.
  - intros q Hq. apply put_batch_frame; [done| |done].
    intros kt Hkt. by destruct (evicted_class _ _ _ _ _ _ Hinv HF _ Hkt).
Qed.

(** A write to a bounded kind that fails, at whatever point, leaves
    every stored row as it was. *)
Theorem put_bounded_atomic (s s' : Store D) now kind entry (val : X) e :
  put_bounded now kind entry val s = (s', Err e) →
  content (db s') = content (db s) ∧ e = INTERNAL_ERROR.
Proof.
  rewrite put_bounded_steps. destruct (to_vec val) as [bytes|]; [|by intros [= <- <-]].
  cbn zeta. destruct (db_get _ _) as [old|]; [|by intros [= <- <-]].
  destruct (bounded_batch s kind entry bytes _ old) as [b|e'] eqn:Eb.
  - unfold write_batch. destruct (db_write _ _); [done|]. by intros [= <- <-].
  - intros [= <- <-]. split; [done|]. revert Eb. unfold bounded_batch.
    destruct (_ <? _); [|done]. destruct (evict _ _ _ _ _) as [[b c]|e] eqn:Ev; [done|].
    apply evict_error in Ev as ->. by intros [= <-].
Qed.
End put_claims.

(** ** Removal: [delete_key] and [sweep_prefix] *)

Section removal.
Context (kind : string) (m m' : gmap string string) (A : gmap string Z) (V : list (string * Z)).
Context (Hkind : kind ∈ BOUNDED_KINDS) (Hinv : fifo_inv kind m A)
  (HV : ∀ k t, (k, t) ∈ V → A !! k = Some t) (HN : NoDup V.*1).

Definition removed : gmap string Z := A ∖ list_to_map V.

Lemma removed_lookup k t :
  removed !! k = Some t ↔ A !! k = Some t ∧ k ∉ V.*1.
Proof.
  unfold removed. rewrite lookup_difference_Some, not_elem_of_list_to_map. done.
Qed.

Lemma removed_size : size A = (size removed + length V)%nat.
Proof using HV HN.
  unfold removed. assert (Hsub : list_to_map V ⊆ A).
  { apply map_subseteq_spec. intros k t Hk. apply HV. by apply elem_of_list_to_map in Hk. }
  rewrite <- (map_difference_union (list_to_map V) A Hsub) at 1.
  rewrite map_size_disj_union by (by apply map_disjoint_difference_r1).
  rewrite map_size_list_to_map by done. lia.
Qed.

Lemma removed_member k : k ∈ V.*1 → ∃ t, (k, t) ∈ V ∧ A !! k = Some t.
Proof using HV. intros ([k' t] & -> & Hin)%list_elem_of_fmap. eauto. Qed.

Lemma removed_class cl q :
  in_class kind cl q → q ∈ victim_rows kind V →
  ∃ k t, (k, t) ∈ V ∧ match cl with
                 | CEntry => q = k
                 | CPos => q = fifo_pos_key k
                 | COrder => q = fifo_order_key kind t k
                 | CCount => False
                 end.
Proof using Hkind Hinv HV.
  intros Hq ([k t] & Hkt & Hcase)%victim_rows_elem. exists k, t. split; [done|]. cbn in Hcase.
  destruct (fi_keys _ _ _ Hinv _ _ (HV _ _ Hkt)) as [Hc _].
  change (in_class kind CEntry k) in Hc. destruct Hcase as [->|[->| ->]].
  - by rewrite (class_unique _ _ _ _ Hkind Hq Hc).
  - by rewrite (class_unique _ _ _ _ Hkind Hq (class_pos kind k)).
  - by rewrite (class_unique _ _ _ _ Hkind Hq (class_order kind t k)).
Qed.

Lemma removed_none k : k ∈ V.*1 → removed !! k = None.
Proof. intros Hk. apply eq_None_not_Some. intros [t [_ Hn]%removed_lookup]. done. Qed.

Lemma removed_same k : k ∉ V.*1 → removed !! k = A !! k.
Proof. intros Hk. apply option_eq. intros t. rewrite removed_lookup. tauto. Qed.

Context (Hm : ∀ q, q ≠ fifo_count_key kind →
           m' !! q = if decide (q ∈ victim_rows kind V) then None else m !! q).
Context (Hcount : m' !! fifo_count_key kind = Some (be64 (Z.of_nat (size removed))) ∨
                  (V = [] ∧ m' !! fifo_count_key kind = m !! fifo_count_key kind)).

Lemma removed_rows cl q :
  in_class kind cl q → cl ≠ CCount →
  m' !! q = if decide (q ∈ victim_rows kind V) then None else m !! q.
Proof using Hkind Hm.
  intros Hq Hcl. apply Hm. eapply class_neq; [exact Hkind|exact Hq|apply class_count|done].
Qed.

Lemma removal_inv : fifo_inv kind m' removed.
Proof using Hkind Hinv HV HN Hm Hcount.
  split.
  - intros k t [Ha _]%removed_lookup. by apply (fi_keys _ _ _ Hinv).
  - intros k Hk. rewrite (removed_rows CEntry) by done.
    destruct (decide (k ∈ V.*1)) as [Hin|Hnin].
    + destruct (removed_member _ Hin) as (t & Ht & _).
      rewrite decide_True, removed_none by (done || (apply victim_rows_elem; exists (k, t); auto)).
      by split; intros [].
    + rewrite decide_False, removed_same by done || (intros (k' & t & Ht & ->)%(removed_class CEntry); [|done];
        apply Hnin, list_elem_of_fmap; by exists (k', t)).
      by apply (fi_entry _ _ _ Hinv).
  - intros k Hk. rewrite (removed_rows CPos) by (done || apply class_pos).
    destruct (decide (k ∈ V.*1)) as [Hin|Hnin].
    + destruct (removed_member _ Hin) as (t & Ht & _).
      by rewrite decide_True, removed_none by (done || (apply victim_rows_elem; exists (k, t); auto)).
    + rewrite decide_False, removed_same by done || (intros (k' & t & Ht & ->%pos_key_inj)%(removed_class CPos);
        [|apply class_pos]; apply Hnin, list_elem_of_fmap; by exists (k', t)).
      by apply (fi_pos _ _ _ Hinv).
  - intros r Hr. assert (Hc : in_class kind COrder r) by (by apply class_order_prefix).
    rewrite (removed_rows COrder) by done. case_decide as Hin.
    + apply (removed_class COrder) in Hin as (k & t & Ht & ->); [|done]. split; [by intros []|].
      intros (k' & t' & [Ha Hn]%removed_lookup & E).
      destruct (fi_keys _ _ _ Hinv _ _ (HV _ _ Ht)), (fi_keys _ _ _ Hinv _ _ Ha).
      apply order_key_inj in E as [-> ->]; [|done..]. exfalso. apply Hn, list_elem_of_fmap. by exists (k', t').
    + rewrite (fi_order _ _ _ Hinv r Hr). split; intros (k & t & Ha & E); exists k, t; (split; [|done]).
      * apply removed_lookup. split; [done|]. intros (t' & Ht' & Ha')%removed_member.
        assert (t' = t) as -> by congruence. apply Hin, victim_rows_elem. exists (k, t). auto.
      * by apply removed_lookup in Ha as [Ha _].
  - destruct Hcount as [->|[HV0 ->]]; [by left|].
    assert (Hsame : removed = A) by (unfold removed; rewrite HV0; apply map_difference_empty).
    rewrite Hsame. apply (fi_count _ _ _ Hinv).
Qed.
End removal.

Lemma bounded_find kind key :
  kind ∈ BOUNDED_KINDS → starts_with kind key = true →
  List.find (λ kind, starts_with kind key) BOUNDED_KINDS = Some kind.
Proof.
  intros Hk Hs. destruct (List.find _ _) as [kind'|] eqn:E.
  - apply find_some in E as [Hin E]. f_equal. apply list_elem_of_In in Hin.
    by apply (bounded_prefix_inj _ _ key).
  - eapply find_none in E; [|by apply list_elem_of_In]. congruence.
Qed.

Lemma removed_one A k t : removed A [(k, t)] = delete k A.
Proof.
  apply map_eq. intros k'. apply option_eq. intros t'. rewrite removed_lookup, lookup_delete_Some.
  cbn. rewrite list_elem_of_singleton. naive_solver.
Qed.

Lemma removed_nil A : removed A [] = A.
Proof. apply map_difference_empty. Qed.

Section removal_ops.
Context {D : Type} `{DatabaseLaws D}.

Lemma healthy_write (s : Store D) b :
  healthy (db s) → ∃ s', write_batch b s = (s', Ok ()) ∧ content (db s') = apply_batch b (content (db s)) ∧
    fifo_last s' = fifo_last s ∧ readthrough_max_entries s' = readthrough_max_entries s.
Proof.
  intros (_ & Hw & _). destruct (Hw b) as [d Ed]. unfold write_batch. rewrite Ed.
  eexists. split; [done|]. by apply db_write_ok in Ed.
Qed.

Lemma healthy_count (s : Store D) kind A :
  healthy (db s) → fifo_inv kind (content (db s)) A → Z.of_nat (size A) <= u64_max →
  readthrough_count s kind = Z.of_nat (size A).
Proof. intros (Hg & _ & _) Hinv Hs. destruct (Hg (fifo_count_key kind)) as [v E].
       by eapply readthrough_count_inv. Qed.

(** [unindex] finds the rows of an indexed entry, and none of another. *)
Lemma unindex_inv (s : Store D) kind A k :
  healthy (db s) → fifo_inv kind (content (db s)) A → starts_with kind k = true →
  unindex s kind k = match A !! k with
                     | Some t => ([BDelete (fifo_order_key kind t k); BDelete (fifo_pos_key k)], true)
                     | None => ([], false)
                     end.
Proof.
  intros Hh Hinv Hk. unfold unindex. rewrite healthy_get_raw, (fi_pos _ _ _ Hinv) by done.
  destruct (A !! k) as [t|] eqn:Ea; [|done]. cbn [fmap option_fmap option_map].
  rewrite be_u64_be64 by (by destruct (fi_keys _ _ _ Hinv _ _ Ea)). done.
Qed.

(** A batch that deletes exactly the rows of [V], and updates the count. *)
Lemma removal_batch (s : Store D) kind A V b :
  healthy (db s) → kind ∈ BOUNDED_KINDS → fifo_inv kind (content (db s)) A →
  Z.of_nat (size A) <= u64_max → (∀ k t, (k, t) ∈ V → A !! k = Some t) → NoDup V.*1 →
  (∀ q, apply_batch b (content (db s)) !! q =
     if decide (q ∈ victim_rows kind V) then None else content (db s) !! q) →
  ∃ s', write_batch (b ++ (if (0 <? Z.of_nat (length V)) then
            [BPut (fifo_count_key kind) (be64 (sat_sub (readthrough_count s kind) (Z.of_nat (length V))))]
          else [])) s = (s', Ok ()) ∧
    fifo_inv kind (content (db s')) (removed A V) ∧
    (∀ k, starts_with kind k = true →
       content (db s') !! k = if decide (k ∈ V.*1) then None else content (db s) !! k) ∧
    (∀ q, ¬ kind_row kind q → content (db s') !! q = content (db s) !! q).
Proof.
  intros Hh Hkind Hinv Hsz HV HN Hb. rewrite (healthy_count s kind A) by done.
  assert (Hsize := removed_size A V HV HN).
  set (cr := if 0 <? _ then _ else _).
  destruct (healthy_write s (b ++ cr) Hh) as (s' & Es & Ec & _ & _). exists s'. split; [done|].
  rewrite apply_batch_app in Ec.
  assert (Hq : ∀ q, q ≠ fifo_count_key kind → content (db s') !! q =
     if decide (q ∈ victim_rows kind V) then None else content (db s) !! q).
  { intros q Hq. rewrite Ec, apply_batch_lookup. unfold cr. destruct (0 <? _); cbn [batch_lookup].
    - rewrite decide_False by done. apply Hb.
    - apply Hb. }
  assert (Hnc : fifo_count_key kind ∉ victim_rows kind V).
  { intros Hin. apply (removed_class _ _ _ _ Hkind Hinv HV CCount) in Hin as (? & ? & _ & []).
    apply class_count. }
  split_and!.
  - apply (removal_inv kind (content (db s)) (content (db s')) A V); [done..|].
    rewrite Ec, apply_batch_lookup. unfold cr. destruct (Z.ltb_spec 0 (Z.of_nat (length V))).
    + left. cbn [batch_lookup]. rewrite decide_True by done. do 2 f_equal.
      unfold sat_sub, u64_max in *. lia.
    + right. assert (V = []) as -> by (apply nil_length_inv; lia). split; [done|].
      cbn [batch_lookup]. rewrite Hb. by rewrite decide_False.
  - intros k Hk. assert (Hc : in_class kind CEntry k) by done.
    rewrite Hq by (eapply class_neq; [done|exact Hc|apply class_count|done]).
    destruct (decide (k ∈ V.*1)) as [Hin|Hnin].
    + destruct (removed_member _ _ HV _ Hin) as (t & Ht & _).
      rewrite decide_True; [done|]. apply victim_rows_elem. exists (k, t). auto.
    + rewrite decide_False; [done|]. intros (k' & t & Ht & ->)%(removed_class _ _ _ _ Hkind Hinv HV CEntry); [|done].
      apply Hnin, list_elem_of_fmap. by exists (k', t).
  - intros q Hnq. rewrite Hq by (intros ->; apply Hnq; by repeat right).
    rewrite decide_False; [done|]. intros Hin. apply Hnq. eapply victim_rows_kind; [|exact Hin].
    intros [k t] Hkt. by destruct (fi_keys _ _ _ Hinv _ _ (HV _ _ Hkt)).
Qed.

(** Deleting a record of a bounded kind, on a database whose operations
    succeed, removes the record together with its index rows and its place
    in the count: the index stays exact, and nothing else changes. *)
Theorem delete_key_correct (s : Store D) kind key A :
  healthy (db s) → kind ∈ BOUNDED_KINDS → starts_with kind key = true →
  fifo_inv kind (content (db s)) A → Z.of_nat (size A) <= u64_max →
  ∃ s', delete_key key s = (s', Ok ()) ∧
    fifo_inv kind (content (db s')) (delete key A) ∧
    content (db s') !! key = None ∧
    (∀ k, starts_with kind k = true → k ≠ key → content (db s') !! k = content (db s) !! k) ∧
    (∀ q, ¬ kind_row kind q → content (db s') !! q = content (db s) !! q).
Proof.
  intros Hh Hkind Hkey Hinv Hsz. unfold delete_key. rewrite (bounded_find kind key) by done.
  rewrite (unindex_inv _ _ A) by done. destruct (A !! key) as [t|] eqn:Ea.
  - destruct (removal_batch s kind A [(key, t)]
      [BDelete key; BDelete (fifo_order_key kind t key); BDelete (fifo_pos_key key)])
      as (s' & Es & Hi & Hr & Hf); [done..| | | |].
    + by intros k t' [= -> ->]%list_elem_of_singleton.
    + apply NoDup_singleton.
    + intros q. change [BDelete key; BDelete (fifo_order_key kind t key); BDelete (fifo_pos_key key)]
        with (map BDelete [key; fifo_order_key kind t key; fifo_pos_key key]).
      rewrite apply_batch_lookup, batch_lookup_deletes.
      assert (Hiff : q ∈ [key; fifo_order_key kind t key; fifo_pos_key key] ↔ q ∈ victim_rows kind [(key, t)])
        by (unfold victim_rows; cbn [map mjoin list_join app fst snd]; rewrite !elem_of_cons; tauto).
      by destruct (decide (q ∈ victim_rows kind [(key, t)])) as [Hin|Hn]; rewrite <- Hiff in Hin || rewrite <- Hiff in Hn;
        [rewrite decide_True by done|rewrite decide_False by done].
    + exists s'. rewrite removed_one in Hi. split_and!; [exact Es|done| | |done].
      * rewrite Hr by done. by rewrite decide_True by apply list_elem_of_here.
      * intros k Hk Hne. rewrite Hr by done. rewrite decide_False; [done|]. by intros ?%list_elem_of_singleton.
  - assert (Hmk : content (db s) !! key = None).
    { apply eq_None_not_Some. intros Hs. apply (fi_entry _ _ _ Hinv) in Hs; [|done]. rewrite Ea in Hs. by destruct Hs. }
    destruct (removal_batch s kind A [] [BDelete key]) as (s' & Es & Hi & Hr & Hf); [done..| | | |].
    + by intros k t ?%not_elem_of_nil.
    + constructor.
    + intros q. rewrite decide_False by apply not_elem_of_nil. rewrite apply_batch_lookup. cbn [batch_lookup].
      by destruct (decide (key = q)) as [<-|].
    + exists s'. rewrite removed_nil in Hi. rewrite delete_id by done. split_and!; [exact Es|done| | |done].
      * rewrite Hr by done. by rewrite decide_False by apply not_elem_of_nil.
      * intros k Hk Hne. rewrite Hr by done. by rewrite decide_False by apply not_elem_of_nil.
Qed.

(** *** Sweeping *)

Context {X : Type} `{Serde X}.

(** What the sweep deletes: a value that parses to an expired record. *)
Definition doomed (expired : X → bool) (v : string) : bool :=
  match from_slice v with Some rec => expired rec | None => false end.

Lemma victim_rows_cons kind k t V q :
  q ∈ victim_rows kind ((k, t) :: V) ↔
  q = k ∨ q = fifo_pos_key k ∨ q = fifo_order_key kind t k ∨ q ∈ victim_rows kind V.
Proof. unfold victim_rows. cbn [map mjoin list_join app fst snd]. rewrite !elem_of_cons. tauto. Qed.

Lemma sweep_items_spec (s : Store D) kind A expired rows rest :
  healthy (db s) → fifo_inv kind (content (db s)) A →
  Forall (λ kv, starts_with kind kv.1 = true ∧ content (db s) !! kv.1 = Some kv.2) rows →
  Forall (λ kv, starts_with kind kv.1 = false) rest →
  ∃ b V, sweep_items s (Some kind) kind expired (map Ok (rows ++ rest)) =
           Ok (b, Z.of_nat (length V), Z.of_nat (length V)) ∧
    V.*1 = (filter (λ kv, doomed expired kv.2 = true) rows).*1 ∧
    (∀ k t, (k, t) ∈ V → A !! k = Some t) ∧
    (∀ q, batch_lookup b q = if decide (q ∈ victim_rows kind V) then Some None else None).
Proof.
  intros Hh Hinv Hrows Hrest. induction Hrows as [|[k v] rows [Hk Hv] _ IH].
  - exists [], []. split; [|split_and!; [done|by intros ? ? ?%not_elem_of_nil|]].
    + destruct rest as [|[k v] rest]; [done|]. apply list.Forall_cons in Hrest as [Hk _]. cbn in Hk.
      cbn [app map sweep_items]. by rewrite Hk.
    + intros q. by rewrite decide_False by apply not_elem_of_nil.
  - destruct IH as (b & V & E & HV & HA & Hb). cbn [fst snd] in *.
    destruct (proj1 (fi_entry _ _ _ Hinv k Hk)) as [t Ha]; [by eexists|].
    cbn [app map sweep_items]. rewrite Hk. cbn [negb]. fold (doomed expired v).
    rewrite filter_cons. cbn [snd]. destruct (doomed expired v) eqn:Ed.
    2:{ exists b, V. rewrite decide_False by done. by split_and!. }
    rewrite (unindex_inv _ _ A), Ha, E by done. cbn [mbind result_bind].
    eexists _, ((k, t) :: V). split_and!.
    + do 2 f_equal; [f_equal|]; cbn [Datatypes.length]; lia.
    + rewrite decide_True by done. cbn. by f_equal.
    + by intros k' t' [[= -> ->]|?]%elem_of_cons; [|apply HA].
    + intros q. cbn [app batch_lookup]. rewrite Hb.
      destruct (decide (q ∈ victim_rows kind V)) as [Hin|Hn].
      { rewrite decide_True; [done|]. apply victim_rows_cons. tauto. }
      repeat match goal with |- context [decide (?a = q)] => destruct (decide (a = q)) as [<-|] end;
        [rewrite decide_True; [done|]; apply victim_rows_cons; tauto..|].
      rewrite decide_False; [done|]. rewrite victim_rows_cons. naive_solver.
Qed.

Lemma rows_NoDup (l : list (string * string)) :
  StronglySorted (λ x y, key_lt x.1 y.1) l → NoDup l.*1.
Proof.
  induction 1 as [|x l _ IH HF]; cbn; [constructor|]. constructor; [|done].
  intros (y & E & Hy)%list_elem_of_fmap. rewrite list.Forall_forall in HF.
  by destruct (HF y Hy) as [_ Hne].
Qed.

Lemma healthy_entries (d : D) start :
  healthy d → ∃ full, db_iter d start = map Ok full ∧ entries_after (content d) start full.
Proof.
  intros (_ & _ & Hi). destruct (Hi start) as [full E]. exists full. split; [done|].
  destruct (db_iter_ok d start) as (full' & Hent & [E'|(l & more & e & tl & _ & E')]); rewrite E in E'.
  - assert (full = full') as ->; [|done]. clear -E'. revert full' E'.
    induction full as [|x l IH]; intros [|y l'] [=]; [done|]. subst. f_equal. by apply IH.
  - exfalso. clear -E'. revert l E'. induction full as [|x f IH]; intros [|y l] [=]; by eapply IH.
Qed.

(** The rows of a prefix in an iteration from it. *)
Lemma prefix_rows (m : gmap string string) p full :
  entries_after m p full →
  ∃ rows rest, full = rows ++ rest ∧ NoDup rows.*1 ∧
    Forall (λ kv, starts_with p kv.1 = true ∧ m !! kv.1 = Some kv.2) rows ∧
    Forall (λ kv, starts_with p kv.1 = false) rest ∧
    (∀ k v, starts_with p k = true → m !! k = Some v → (k, v) ∈ rows).
Proof.
  intros Hent. destruct (entries_split _ _ _ Hent) as (rows & rest & -> & Hrows & Hrest).
  destruct Hent as [HS Hmem]. exists rows, rest. split_and!; [done| | |done|].
  - apply rows_NoDup. by apply StronglySorted_app_1_l in HS.
  - rewrite list.Forall_forall in Hrows |- *. intros [k v] Hin. split; [by apply (Hrows (k, v))|].
    apply Hmem, elem_of_app. by left.
  - intros k v Hk Hv. assert (Hin : (k, v) ∈ rows ++ rest).
    { apply Hmem. split; [done|]. apply starts_with_spec in Hk as [r ->]. apply key_le_prefix. }
    apply elem_of_app in Hin as [|Hin]; [done|]. rewrite list.Forall_forall in Hrest.
    specialize (Hrest _ Hin). cbn in Hrest. congruence.
Qed.

Lemma doomed_rows (m : gmap string string) p (expired : X → bool) rows k :
  Forall (λ kv, starts_with p kv.1 = true ∧ m !! kv.1 = Some kv.2) rows →
  (∀ k v, starts_with p k = true → m !! k = Some v → (k, v) ∈ rows) → starts_with p k = true →
  (if decide (k ∈ (filter (λ kv, doomed expired kv.2 = true) rows).*1) then None else m !! k) =
    match m !! k with Some v => if doomed expired v then None else Some v | None => None end.
Proof.
  intros Hrows Hall Hk. destruct (m !! k) as [v|] eqn:Ek; [|by destruct (decide _)].
  destruct (doomed expired v) eqn:Ed; [rewrite decide_True|rewrite decide_False]; try done.
  - apply list_elem_of_fmap. exists (k, v). split; [done|]. apply list_elem_of_filter. auto.
  - intros ([k' v'] & -> & [Hd Hin']%list_elem_of_filter)%list_elem_of_fmap. cbn in *.
    rewrite list.Forall_forall in Hrows. destruct (Hrows _ Hin') as [_ E']. cbn in E'. congruence.
Qed.

(** A sweep of a bounded kind, on a database whose operations succeed,
    deletes exactly the records that are expired, together with their index
    rows: unparsable and live records stay, the index stays exact, the
    number reported is the number of entries removed, and no row of another
    kind changes. *)
Theorem sweep_prefix_correct (s : Store D) kind A (expired : X → bool) :
  healthy (db s) → kind ∈ BOUNDED_KINDS → fifo_inv kind (content (db s)) A →
  Z.of_nat (size A) <= u64_max →
  ∃ s' n A', sweep_prefix kind expired s = (s', Ok n) ∧
    fifo_inv kind (content (db s')) A' ∧ A' ⊆ A ∧
    Z.of_nat (size A') = Z.of_nat (size A) - n ∧
    (∀ k, starts_with kind k = true →
       content (db s') !! k =
         match content (db s) !! k with
         | Some v => if doomed expired v then None else Some v
         | None => None
         end) ∧
    (∀ q, ¬ kind_row kind q → content (db s') !! q = content (db s) !! q).
Proof.
  intros Hh Hkind Hinv Hsz. destruct (healthy_entries (db s) kind Hh) as (full & Efull & Hent).
  destruct (prefix_rows _ _ _ Hent) as (rows & rest & -> & HN & Hrows & Hrest & Hall).
  destruct (sweep_items_spec s kind A expired rows rest Hh Hinv Hrows Hrest) as (b & V & E & HV & HA & Hb).
  assert (HNV : NoDup V.*1)
    by (rewrite HV; eapply sublist_NoDup; [exact HN|apply fmap_sublist, sublist_filter]).
  assert (Hkf : List.find (λ k, String.eqb k kind) BOUNDED_KINDS = Some kind).
  { clear -Hkind. repeat (apply elem_of_cons in Hkind as [->|Hkind]; [done|]). by apply not_elem_of_nil in Hkind. }
  pose proof (removed_size A V HA HNV) as Hsize.
  assert (Hsub : removed A V ⊆ A) by (apply map_subseteq_spec; by intros k t [? _]%removed_lookup).
  destruct (removal_batch s kind A V b) as (s' & Es & Hi & Hr & Hf); [done..| |].
  { intros q. rewrite apply_batch_lookup, Hb. by destruct (decide _). }
  assert (Hdoom : ∀ k, starts_with kind k = true → (if decide (k ∈ V.*1) then None else content (db s) !! k) =
      match content (db s) !! k with Some v => if doomed expired v then None else Some v | None => None end)
    by (intros k Hk; rewrite HV; by apply (doomed_rows _ kind expired)).
  unfold sweep_prefix. rewrite Hkf, Efull, E.
  destruct (0 <? Z.of_nat (length V)) eqn:Hlen.
  - rewrite Es. exists s', (Z.of_nat (length V)), (removed A V). split_and!; [done..|lia| |done].
    intros k Hk. by rewrite Hr, Hdoom.
  - assert (V = []) as HV0 by (apply Z.ltb_ge in Hlen; apply nil_length_inv; lia).
    exists s, (Z.of_nat (length V)), A. split_and!; [done..|rewrite HV0; cbn; lia| |done].
    intros k Hk. rewrite <- Hdoom, HV0 by done. by rewrite decide_False by apply not_elem_of_nil.
Qed.
End removal_ops.

(** ** Concrete runs on the map database *)

Module Sample.
Import MapDb.

#[export] Instance string_serde : Serde string := {| to_vec := Some; from_slice := Some |}.

Lemma map_healthy (m : gmap string string) : healthy m.
Proof. split_and!; intros; by eexists. Qed.

Definition key_a : string := "amd-kds/a".
Definition key_b : string := "amd-kds/b".

(** One indexed record, written at time 3, under a bound of one. *)
Definition one_map : gmap string string :=
  apply_batch (put_batch AMD_KDS key_a "va" 3 1 ∅ []) ∅.
Definition one_index : gmap string Z := {[ key_a := 3 ]}.
Definition one_store : Store (gmap string string) := mkStore one_map 3 1.

Lemma index_without_empty entry : index_without entry ∅ [].
Proof.
  split; [|constructor]. intros k t. rewrite lookup_empty. split; [by intros ?%not_elem_of_nil|by intros []].
Qed.

Lemma fifo_inv_empty kind : fifo_inv kind ∅ ∅.
Proof.
  split.
  - by intros k t.
  - intros k _. rewrite !lookup_empty. done.
  - done.
  - intros r _. rewrite lookup_empty. split; [by intros []|]. by intros (? & ? & ? & _).
  - right. done.
Qed.

Lemma one_inv : fifo_inv AMD_KDS (content (db one_store)) one_index.
Proof.
  apply (put_batch_inv AMD_KDS key_a "va" 3 1 1 ∅ ∅ []); try done.
  - apply list_elem_of_here.
  - apply fifo_inv_empty.
  - apply index_without_empty.
Qed.

(** Three writes under a bound of two: the first record and its rows go. *)
Example three_writes :
  let run := put_bounded 10 AMD_KDS key_a "v1"%string ≫= λ _,
             put_bounded 20 AMD_KDS key_b "v2"%string ≫= λ _,
             put_bounded 20 AMD_KDS "amd-kds/c"%string "v3"%string in
  let '(s, r) := run (mkStore ∅ 0 2) in
  (r, db s !! key_a, db s !! key_b, db s !! "amd-kds/c"%string, size (db s),
   readthrough_count s AMD_KDS, fifo_last s) =
  (Ok (), None, Some "v2"%string, Some "v3"%string, 7%nat, 2, 21).
Proof. vm_compute. reflexivity. Qed.
End Sample.

Import MapDb Sample.

Lemma put_bounded_correct_witness :
  ∃ s' A', put_bounded 5 AMD_KDS key_b "vb"%string one_store = (s', Ok ()) ∧
    written one_index key_b 5 1 A' ∧ content (db s') !! key_b = Some "vb"%string.
Proof.
  destruct (put_bounded_correct one_store 5 AMD_KDS key_b "vb"%string "vb" one_index)
    as (s' & A' & E & Hw & _ & _ & _ & Hb & _).
  - apply map_healthy.
  - apply list_elem_of_here.
  - reflexivity.
  - exact one_inv.
  - reflexivity.
  - unfold u64_max. lia.
  - unfold u64_max. cbn. lia.
  - cbn. lia.
  - vm_compute. reflexivity.
  - exists s', A'. split; [exact E|]. split; [exact Hw|exact Hb].
Defined.

Lemma put_bounded_atomic_witness :
  ∃ s', put_bounded (H0 := {| to_vec := λ _ : string, None; from_slice := λ _, None |})
          5 AMD_KDS key_b "vb"%string one_store = (s', Err INTERNAL_ERROR) ∧
        content (db s') = content (db one_store).
Proof.
  eexists. split; [reflexivity|].
  refine (proj1 (put_bounded_atomic (H1 := {| to_vec := λ _ : string, None; from_slice := λ _, None |})
    one_store _ 5 AMD_KDS key_b "vb"%string INTERNAL_ERROR eq_refl)).
Defined.

Lemma delete_key_correct_witness :
  ∃ s', delete_key key_a one_store = (s', Ok ()) ∧ content (db s') !! key_a = None.
Proof.
  destruct (delete_key_correct one_store AMD_KDS key_a one_index) as (s' & E & _ & Hn & _).
  - apply map_healthy.
  - apply list_elem_of_here.
  - reflexivity.
  - exact one_inv.
  - vm_compute. discriminate.
  - exists s'. split; [exact E|exact Hn].
Defined.

Lemma sweep_prefix_correct_witness :
  ∃ s', sweep_prefix AMD_KDS (λ v : string, String.eqb v "va") one_store = (s', Ok 1) ∧
    content (db s') !! key_a = None.
Proof.
  destruct (sweep_prefix_correct one_store AMD_KDS one_index (λ v : string, String.eqb v "va"))
    as (s' & n & A' & E & _ & _ & _ & Hn & _).
  - apply map_healthy.
  - apply list_elem_of_here.
  - exact one_inv.
  - vm_compute. discriminate.
  - exists s'. split.
    + rewrite E. f_equal. apply (f_equal snd) in E. vm_compute in E. by injection E as <-.
    + rewrite (Hn key_a) by reflexivity. vm_compute. reflexivity.
Defined.
