(* ===== verification/Records.v ===== *)
(** * Records: the stored record types and their typed accessors
    (src/src/store.rs, src/src/headers.rs)

    One record per cacheable GET.  A read goes to the key of the request and,
    where the source re-checks the stored record against the request, drops a
    record that does not match.  [GetShaped] states what a kind's pair of
    accessors promises to the layers above; the instances prove it. *)

From Stdlib Require Import ZArith Lia.
From stdpp Require Import base list strings option gmap.
From S2P Require Import Prelude Text Errors Validate Keys Env PckCert Database Fifo FifoSpec.

Local Open Scope Z_scope.
#[local] Set Default Proof Using "Type*".

(** ** Response header names (src/src/headers.rs) *)

Definition SGX_PCK_CERTIFICATE_ISSUER_CHAIN : string := "SGX-PCK-Certificate-Issuer-Chain".
Definition TCB_INFO_ISSUER_CHAIN : string := "TCB-Info-Issuer-Chain".
Definition SGX_TCB_INFO_ISSUER_CHAIN : string := "SGX-TCB-Info-Issuer-Chain".
Definition SGX_ENCLAVE_IDENTITY_ISSUER_CHAIN : string := "SGX-Enclave-Identity-Issuer-Chain".

Definition tcb_issuer_chain_name (version : Z) : string :=
  if version =? 3 then SGX_TCB_INFO_ISSUER_CHAIN else TCB_INFO_ISSUER_CHAIN.

(** ** Records *)

Record PckCertRecord := {
  pc_qeid : string; pc_pceid : string; pc_cpusvn : string; pc_pcesvn : string;
  pc_cert : string; pc_tcbm : string; pc_fmspc : string; pc_ca : string;
  pc_issuer_chain : string; pc_encrypted_ppid : option string; pc_platform_manifest : string
}.

Record TcbRecord (V : Type) := {
  tr_prod_type : Z; tr_fmspc : string; tr_version : Z; tr_update_type : string;
  tr_tcbinfo : V; tr_raw_body : string; tr_issuer_chain : string
}.
Arguments tr_prod_type {V} _. Arguments tr_fmspc {V} _. Arguments tr_version {V} _.
Arguments tr_update_type {V} _. Arguments tr_tcbinfo {V} _. Arguments tr_raw_body {V} _.
Arguments tr_issuer_chain {V} _.

Record IdentityRecord (V : Type) := {
  ir_enclave_id : Z; ir_version : Z; ir_update_type : string;
  ir_identity : V; ir_raw_body : string; ir_issuer_chain : string
}.
Arguments ir_enclave_id {V} _. Arguments ir_version {V} _. Arguments ir_update_type {V} _.
Arguments ir_identity {V} _. Arguments ir_raw_body {V} _. Arguments ir_issuer_chain {V} _.

Record PckCrlRecord := { cr_ca : string; cr_pckcrl : list Z; cr_issuer_chain : string }.

Record CrlRecord := { crl_uri : string; crl_crl : list Z }.

Record AmdKdsRecord := {
  ak_url : string; ak_body : list Z; ak_content_type : option string;
  ak_content_disposition : option string; ak_fetched_at : Z
}.

Record NvidiaOcspRecord := {
  no_cache_key : string; no_body : list Z; no_content_type : option string;
  no_fetched_at : Z; no_expires_at : Z
}.

Record PlatformRecord := {
  pr_qe_id : string; pr_pce_id : string; pr_cpu_svn : string; pr_pce_svn : string;
  pr_enc_ppid : string; pr_platform_manifest : string
}.

Record PlatformCert := { plc_tcbm : string; plc_cert : string }.

Record RawTcb := { rt_cpu_svn : string; rt_pce_svn : string; rt_tcbm : string }.

Record PlatformPool := {
  pp_qe_id : string; pp_pce_id : string; pp_enc_ppid : string; pp_platform_manifest : string;
  pp_fmspc : string; pp_ca : string; pp_issuer_chain : string;
  pp_certs : list PlatformCert; pp_raw_tcbs : list RawTcb
}.

Record RegisteredPlatform := {
  rp_qe_id : string; rp_pce_id : string; rp_cpu_svn : string; rp_pce_svn : string;
  rp_enc_ppid : string; rp_platform_manifest : string; rp_state : Z
}.

Record AppraisalPolicy := {
  pol_id : string; pol_fmspc : string; pol_is_default : bool; pol_policy : string; pol_type : Z
}.

Record AppraisalList := { policies : list AppraisalPolicy }.

#[export] Instance PckCertRecord_eq_dec : EqDecision PckCertRecord.
Proof. solve_decision. Defined.
#[export] Instance RawTcb_eq_dec : EqDecision RawTcb.
Proof. solve_decision. Defined.
#[export] Instance RegisteredPlatform_eq_dec : EqDecision RegisteredPlatform.
Proof. solve_decision. Defined.

(** ** Accessors *)

Section accessors.
Context {D V : Type} `{Database D}.

Definition get_pckcert `{Serde PckCertRecord} (s : Store D) (qeid cpusvn pcesvn pceid : string) :
    option PckCertRecord :=
  rec ← read_json s (pckcert qeid pceid cpusvn pcesvn);
  if eq_ic (pc_qeid rec) qeid && eq_ic (pc_pceid rec) pceid
     && eq_ic (pc_cpusvn rec) cpusvn && eq_ic (pc_pcesvn rec) pcesvn
  then Some rec else None.

Definition rec_key (rec : PckCertRecord) : string :=
  pckcert (pc_qeid rec) (pc_pceid rec) (pc_cpusvn rec) (pc_pcesvn rec).

Definition put_pckcert `{Serde PckCertRecord} (rec : PckCertRecord) : M D unit :=
  put_json (rec_key rec) rec.

Definition get_platform_pool `{Serde PlatformPool} (s : Store D) (qeid pceid : string) :
    option PlatformPool :=
  pool ← read_json s (platform qeid pceid);
  if negb (eq_ic (pp_qe_id pool) qeid) || negb (eq_ic (pp_pce_id pool) pceid)
  then None else Some pool.

Definition put_platform_pool `{Serde PlatformPool} (pool : PlatformPool) : M D unit :=
  put_json (platform (pp_qe_id pool) (pp_pce_id pool)) pool.

Definition has_platform (s : Store D) (qeid pceid : string) : bool :=
  bool_decide (is_Some (get_raw s (platform qeid pceid))).

Definition get_tcb `{Serde (TcbRecord V)} (s : Store D) (prod_type : Z) (fmspc : string)
    (version : Z) (update : Validate.UpdateType) : option (TcbRecord V) :=
  let u := Validate.UpdateType_as_str update in
  rec ← read_json s (tcb (prod_name prod_type) version fmspc u);
  if negb (tr_prod_type rec =? prod_type) || negb (tr_version rec =? version)
     || negb (eq_ic (tr_fmspc rec) fmspc) || negb (eq_ic (tr_update_type rec) u)
  then None else Some rec.

Definition tcb_rec_key (rec : TcbRecord V) : string :=
  tcb (prod_name (tr_prod_type rec)) (tr_version rec) (tr_fmspc rec) (tr_update_type rec).

Definition put_tcb `{Serde (TcbRecord V)} (rec : TcbRecord V) : M D unit :=
  put_json (tcb_rec_key rec) rec.

Definition get_identity `{Serde (IdentityRecord V)} (s : Store D) (enclave_id version : Z)
    (update : Validate.UpdateType) : option (IdentityRecord V) :=
  let u := Validate.UpdateType_as_str update in
  rec ← read_json s (identity (identity_name enclave_id) version u);
  if negb (ir_enclave_id rec =? enclave_id) || negb (ir_version rec =? version)
     || negb (eq_ic (ir_update_type rec) u)
  then None else Some rec.

Definition put_identity `{Serde (IdentityRecord V)} (rec : IdentityRecord V) : M D unit :=
  put_json (identity (identity_name (ir_enclave_id rec)) (ir_version rec) (ir_update_type rec)) rec.

Definition get_pckcrl `{Serde PckCrlRecord} (s : Store D) (ca : string) : option PckCrlRecord :=
  rec ← read_json s (pckcrl ca);
  if negb (eq_ic (cr_ca rec) ca) then None else Some rec.

Definition put_pckcrl `{Serde PckCrlRecord} (rec : PckCrlRecord) : M D unit :=
  put_json (pckcrl (cr_ca rec)) rec.

Definition get_rootcacrl `{Serde (list Z)} (s : Store D) : option (list Z) :=
  read_json s rootcacrl.

Definition put_rootcacrl `{Serde (list Z)} (crl : list Z) : M D unit := put_json rootcacrl crl.

(** No re-check: the record stored under the URI's key is the answer. *)
Definition get_crl `{Serde CrlRecord} (s : Store D) (uri : string) : option (list Z) :=
  crl_crl <$> read_json s (crl uri).

Definition put_crl `{Serde CrlRecord} (uri : string) (bytes : list Z) : M D unit :=
  put_json (crl uri) {| crl_uri := uri; crl_crl := bytes |}.

Definition get_amd_kds `{Serde AmdKdsRecord} (s : Store D) (url : string) : option AmdKdsRecord :=
  rec ← read_json s (amd_kds url);
  if negb (String.eqb (ak_url rec) url) then None else Some rec.

Definition put_amd_kds `{Serde AmdKdsRecord} (now : Z) (rec : AmdKdsRecord) : M D unit :=
  put_bounded now AMD_KDS (amd_kds (ak_url rec)) rec.

Definition get_nvidia_rim `{Serde AmdKdsRecord} (s : Store D) (url : string) : option AmdKdsRecord :=
  rec ← read_json s (nvidia_rim url);
  if negb (String.eqb (ak_url rec) url) then None else Some rec.

Definition put_nvidia_rim `{Serde AmdKdsRecord} (now : Z) (rec : AmdKdsRecord) : M D unit :=
  put_bounded now NVIDIA_RIM (nvidia_rim (ak_url rec)) rec.

Definition get_nvidia_ocsp `{Serde NvidiaOcspRecord} (s : Store D) (cache_key : string) :
    option NvidiaOcspRecord :=
  rec ← read_json s (nvidia_ocsp cache_key);
  if negb (String.eqb (no_cache_key rec) cache_key) then None else Some rec.

Definition put_nvidia_ocsp `{Serde NvidiaOcspRecord} (now : Z) (rec : NvidiaOcspRecord) : M D unit :=
  put_bounded now NVIDIA_OCSP (nvidia_ocsp (no_cache_key rec)) rec.

(** The [list_*] scans: every stored value of a kind that parses. *)
Definition list_kind {A} `{Serde A} (s : Store D) (prefix : string) : list A :=
  omap (λ kv, from_slice kv.2) (scan_prefix s prefix).

Definition list_platform_pools `{Serde PlatformPool} (s : Store D) : list PlatformPool :=
  list_kind s PLATFORM.
Definition list_tcbs `{Serde (TcbRecord V)} (s : Store D) : list (TcbRecord V) := list_kind s TCB.
Definition list_identities `{Serde (IdentityRecord V)} (s : Store D) : list (IdentityRecord V) :=
  list_kind s IDENTITY.
Definition list_pckcrls `{Serde PckCrlRecord} (s : Store D) : list PckCrlRecord := list_kind s PCKCRL.
Definition list_crls `{Serde CrlRecord} (s : Store D) : list CrlRecord := list_kind s CRL.
End accessors.

(** ** What a kind's accessors promise

    [Q] is the request and [A] the record; [gs_match] says that a record
    answers a request, [gs_key] is where the request looks and [gs_rec_key]
    where the record is stored. *)

Class GetShaped {D Q A : Type} `{DatabaseLaws D} (get : Store D → Q → option A)
    (put : A → M D unit) := {
  gs_match : A → Q → Prop;
  gs_key : Q → string;
  gs_rec_key : A → string;
  gs_same_key a q : gs_match a q → gs_rec_key a = gs_key q;
  (** only a matching record is returned *)
  gs_only s q a : get s q = Some a → gs_match a q;
  (** a request reads what was last written for it *)
  gs_get_put s s' a q v :
    put a s = (s', Ok ()) → gs_match a q → db_get (db s') (gs_key q) = Ok v → get s' q = Some a;
  (** a failed write changes nothing *)
  gs_failed s s' a e : put a s = (s', Err e) → content (db s') = content (db s)
}.

(** A kind whose writes leave every other row alone. *)
Class GetFramed {D Q A : Type} `{DatabaseLaws D} (get : Store D → Q → option A) (put : A → M D unit)
    `{!GetShaped get put} := {
  gs_frame s s' a k : put a s = (s', Ok ()) → gs_rec_key a ≠ k →
    content (db s') !! k = content (db s) !! k
}.

Section json_rows.
Context {D : Type} `{DatabaseLaws D} {A : Type} `{SerdeLaws A}.

Lemma put_json_content (s s' : Store D) k (a : A) :
  put_json k a s = (s', Ok ()) →
  ∃ bytes, to_vec a = Some bytes ∧ content (db s') = <[k := bytes]> (content (db s)).
Proof.
  unfold put_json, pure, mbind, M_bind. destruct (to_vec a) as [bytes|]; [|done].
  cbn [ok_or]. unfold write_batch. destruct (db_write _ _) as [d|] eqn:E; [|done].
  intros [= <-]. exists bytes. split; [done|]. by apply db_write_ok in E.
Qed.

Lemma read_json_content (s : Store D) k v :
  db_get (db s) k = Ok v → read_json (A := A) s k = content (db s) !! k ≫= from_slice.
Proof.
  intros E. unfold read_json, get_json, get_raw. rewrite E. by apply db_get_ok in E as ->.
Qed.

Lemma read_put_json (s s' : Store D) k (a : A) v :
  put_json k a s = (s', Ok ()) → db_get (db s') k = Ok v → read_json s' k = Some a.
Proof.
  intros (bytes & Eb & Ec)%put_json_content Ev. rewrite (read_json_content _ _ _ Ev), Ec, lookup_insert_eq.
  cbn [mbind option_bind]. by apply serde_roundtrip.
Qed.

Lemma put_json_failed (s s' : Store D) k (a : A) e :
  put_json k a s = (s', Err e) → s' = s ∧ e = INTERNAL_ERROR.
Proof.
  unfold put_json, pure, mbind, M_bind. destruct (to_vec a); cbn [ok_or]; [|by intros [= <- <-]].
  unfold write_batch. destruct (db_write _ _); [done|]. by intros [= <- <-].
Qed.

(** The accessors of a kind kept by [put_json] and read with a check. *)
Definition checked_shaped {Q} (get : Store D → Q → option A) (put : A → M D unit)
    (key : Q → string) (rkey : A → string) (b : A → Q → bool) :
  (∀ s q, get s q = (a ← read_json s (key q); if b a q then Some a else None)) →
  (∀ a, put a = put_json (rkey a) a) →
  (∀ a q, b a q = true → rkey a = key q) →
  GetShaped get put.
Proof.
  intros Hget Hput Hkey.
  refine {| gs_match a q := b a q = true; gs_key := key; gs_rec_key := rkey |}.
  - done.
  - intros s q a. rewrite Hget. destruct (read_json _ _) as [r|]; [|done]. cbn [mbind option_bind].
    destruct (b r q) eqn:E; [|done]. by intros [= <-].
  - intros s s' a q v. rewrite Hput, Hget. intros Hp Hm Hv. rewrite (Hkey _ _ Hm) in Hp.
    rewrite (read_put_json _ _ _ _ _ Hp Hv). cbn [mbind option_bind]. by rewrite Hm.
  - intros s s' a e. rewrite Hput. by intros [-> _]%put_json_failed.
Defined.
End json_rows.

(** *** The kinds of [put_json] *)

Lemma put_json_frame {D} `{DatabaseLaws D} {A} `{SerdeLaws A} (s s' : Store D) k k' (a : A) :
  put_json k a s = (s', Ok ()) → k ≠ k' → content (db s') !! k' = content (db s) !! k'.
Proof. intros (bytes & _ & ->)%put_json_content Hne. by apply lookup_insert_ne. Qed.

Section instances.
Context {D V : Type} `{DatabaseLaws D}.

Definition get_pckcert_q `{Serde PckCertRecord} (s : Store D)
    (q : string * string * string * string) : option PckCertRecord :=
  let '(qeid, cpusvn, pcesvn, pceid) := q in get_pckcert s qeid cpusvn pcesvn pceid.

Lemma rec_key_ic rec q c p e :
  eq_ic (pc_qeid rec) q && eq_ic (pc_pceid rec) e && eq_ic (pc_cpusvn rec) c
    && eq_ic (pc_pcesvn rec) p = true → rec_key rec = pckcert q e c p.
Proof. intros E. bool_to_prop. rewrite !eq_ic_spec in *. by apply pckcert_ic. Qed.

#[export] Instance pckcert_shaped `{SerdeLaws PckCertRecord} : GetShaped get_pckcert_q put_pckcert.
Proof.
  refine (checked_shaped _ _ (λ '(q, c, p, e), pckcert q e c p) rec_key
    (λ rec '(q, c, p, e), eq_ic (pc_qeid rec) q && eq_ic (pc_pceid rec) e
       && eq_ic (pc_cpusvn rec) c && eq_ic (pc_pcesvn rec) p) _ _ _).
  - by intros s [[[q c] p] e].
  - done.
  - intros rec [[[q c] p] e]. apply rec_key_ic.
Defined.
#[export] Instance pckcert_framed `{SerdeLaws PckCertRecord} : GetFramed get_pckcert_q put_pckcert.
Proof. split. intros s s' a k. apply put_json_frame. Qed.

Definition get_platform_pool_q `{Serde PlatformPool} (s : Store D) (q : string * string) :
    option PlatformPool := get_platform_pool s q.1 q.2.

Definition pool_key (pool : PlatformPool) : string := platform (pp_qe_id pool) (pp_pce_id pool).

#[export] Instance platform_shaped `{SerdeLaws PlatformPool} :
  GetShaped get_platform_pool_q put_platform_pool.
Proof.
  refine (checked_shaped _ _ (λ q, platform q.1 q.2) pool_key
    (λ pool q, eq_ic (pp_qe_id pool) q.1 && eq_ic (pp_pce_id pool) q.2) _ _ _).
  - intros s q. unfold get_platform_pool_q, get_platform_pool.
    destruct (read_json _ _) as [r|]; [|done]. cbn [mbind option_bind].
    rewrite <- negb_andb. by destruct (_ && _).
  - done.
  - intros pool q E. bool_to_prop. rewrite !eq_ic_spec in *. by apply platform_ic.
Defined.
#[export] Instance platform_framed `{SerdeLaws PlatformPool} :
  GetFramed get_platform_pool_q put_platform_pool.
Proof. split. intros s s' a k. apply put_json_frame. Qed.

Definition get_tcb_q `{Serde (TcbRecord V)} (s : Store D) (q : Z * string * Z * UpdateType) :
    option (TcbRecord V) := let '(prod, fmspc, version, update) := q in get_tcb s prod fmspc version update.

#[export] Instance tcb_shaped `{SerdeLaws (TcbRecord V)} : GetShaped get_tcb_q (put_tcb (V := V)).
Proof.
  refine (checked_shaped _ _ (λ '(prod, f, v, u), tcb (prod_name prod) v f (UpdateType_as_str u)) tcb_rec_key
    (λ rec '(prod, f, v, u), (tr_prod_type rec =? prod) && (tr_version rec =? v) && eq_ic (tr_fmspc rec) f
       && eq_ic (tr_update_type rec) (UpdateType_as_str u)) _ _ _).
  - intros s [[[prod f] v] u]. unfold get_tcb_q, get_tcb.
    destruct (read_json _ _) as [r|]; [|done]. cbn [mbind option_bind].
    rewrite <- !negb_andb. by destruct (_ && _).
  - done.
  - intros rec [[[prod f] v] u] E. bool_to_prop. rewrite !eq_ic_spec in *. subst.
    apply make_proper; [done|]. by repeat constructor.
Defined.

Definition get_identity_q `{Serde (IdentityRecord V)} (s : Store D) (q : Z * Z * UpdateType) :
    option (IdentityRecord V) := let '(id, version, update) := q in get_identity s id version update.

#[export] Instance identity_shaped `{SerdeLaws (IdentityRecord V)} :
  GetShaped get_identity_q (put_identity (V := V)).
Proof.
  refine (checked_shaped _ _ (λ '(id, v, u), identity (identity_name id) v (UpdateType_as_str u))
    (λ rec, identity (identity_name (ir_enclave_id rec)) (ir_version rec) (ir_update_type rec))
    (λ rec '(id, v, u), (ir_enclave_id rec =? id) && (ir_version rec =? v)
       && eq_ic (ir_update_type rec) (UpdateType_as_str u)) _ _ _).
  - intros s [[id v] u]. unfold get_identity_q, get_identity.
    destruct (read_json _ _) as [r|]; [|done]. cbn [mbind option_bind].
    rewrite <- !negb_andb. by destruct (_ && _).
  - done.
  - intros rec [[id v] u] E. bool_to_prop. rewrite !eq_ic_spec in *. subst.
    apply make_proper; [done|]. by repeat constructor.
Defined.

#[export] Instance pckcrl_shaped `{SerdeLaws PckCrlRecord} : GetShaped get_pckcrl put_pckcrl.
Proof.
  refine (checked_shaped _ _ pckcrl (λ rec, pckcrl (cr_ca rec)) (λ rec ca, eq_ic (cr_ca rec) ca) _ _ _).
  - intros s ca. unfold get_pckcrl. destruct (read_json _ _) as [r|]; [|done]. cbn [mbind option_bind].
    by destruct (eq_ic _ _).
  - done.
  - intros rec ca E%eq_ic_spec. apply make_proper; [done|]. by repeat constructor.
Defined.
End instances.

(** *** The bounded kinds *)

(** No eviction deletes the entry being written. *)
Lemma evict_spares kind entry q excess count items b c :
  kind ∈ BOUNDED_KINDS → starts_with kind entry = true →
  evict (fifo_order_prefix kind) q excess count items = Ok (b, c) → q = entry →
  batch_lookup b entry = None.
Proof.
  intros Hk He Hev ->. revert excess count b c Hev.
  induction items as [|[[r v]|] items IH]; intros excess count b c; cbn [evict]; [by intros [= <- _]| |done].
  destruct (_ || _) eqn:Eb; [by intros [= <- _]|]. apply orb_false_iff in Eb as [_ Eb%negb_false_iff].
  destruct (str_from _ r) as [victim|]; [|by apply IH].
  destruct (String.eqb_spec victim entry) as [|Hne]; [by apply IH|].
  destruct (evict _ _ (excess - 1) (count - 1) items) as [[b' c']|] eqn:Ev; [|done].
  cbn [mbind result_bind]. intros [= <- _]. cbn [batch_lookup]. rewrite (IH _ _ _ _ Ev).
  assert (Hc : in_class kind CEntry entry) by done.
  rewrite decide_False by (apply not_eq_sym; eapply class_neq; [done|exact Hc|by apply (class_order_prefix kind)|done]).
  rewrite decide_False by (apply not_eq_sym; eapply class_neq; [done|exact Hc|apply (class_pos kind)|done]).
  by rewrite decide_False.
Qed.

Section bounded_kinds.
Context {D : Type} `{DatabaseLaws D} {A : Type} `{SerdeLaws A}.

Lemma put_bounded_entry (s s' : Store D) now kind entry (a : A) :
  kind ∈ BOUNDED_KINDS → starts_with kind entry = true →
  put_bounded now kind entry a s = (s', Ok ()) →
  ∃ bytes, to_vec a = Some bytes ∧ content (db s') !! entry = Some bytes.
Proof.
  intros Hk He. rewrite put_bounded_steps. destruct (to_vec a) as [bytes|]; [|done]. cbn zeta.
  destruct (db_get _ _) as [old|]; [|done].
  destruct (bounded_batch s kind entry bytes _ old) as [b|] eqn:Eb; [|done].
  unfold write_batch. destruct (db_write _ _) as [d|] eqn:Ed; [|done]. intros [= <-].
  exists bytes. split; [done|]. cbn [db set_db]. apply db_write_ok in Ed as ->. cbn [db set_last].
  unfold bounded_batch in Eb. assert (Hc : in_class kind CEntry entry) by done.
  assert (Hcnt : fifo_count_key kind ≠ entry)
    by (apply not_eq_sym; eapply class_neq; [done|exact Hc|apply class_count|done]).
  match type of Eb with (mbind _ ?x = _) => destruct x as [[ev c]|] eqn:Ev; [|done] end.
  cbn [mbind result_bind] in Eb. injection Eb as <-.
  assert (Hev : batch_lookup ev entry = None).
  { destruct (_ <? _); [by eapply evict_spares|]. by injection Ev as <- _. }
  rewrite apply_batch_lookup, batch_lookup_app. cbn [app batch_lookup]. rewrite batch_lookup_app, Hev.
  cbn [batch_lookup].
  rewrite decide_False by done.
  rewrite decide_False by (apply not_eq_sym; eapply class_neq; [done|exact Hc|apply class_order|done]).
  rewrite decide_False by (apply not_eq_sym; eapply class_neq; [done|exact Hc|apply (class_pos kind)|done]).
  by rewrite decide_True.
Qed.

Definition bounded_shaped {Q} (get : Store D → Q → option A) (put : A → M D unit)
    (now : Z) (kind : string) (key : Q → string) (rkey : A → string) (b : A → Q → bool) :
  kind ∈ BOUNDED_KINDS → (∀ a, starts_with kind (rkey a) = true) →
  (∀ s q, get s q = (a ← read_json s (key q); if b a q then Some a else None)) →
  (∀ a, put a = put_bounded now kind (rkey a) a) →
  (∀ a q, b a q = true → rkey a = key q) →
  GetShaped get put.
Proof.
  intros Hkind Hpre Hget Hput Hkey.
  refine {| gs_match a q := b a q = true; gs_key := key; gs_rec_key := rkey |}.
  - done.
  - intros s q a. rewrite Hget. destruct (read_json _ _) as [r|]; [|done]. cbn [mbind option_bind].
    destruct (b r q) eqn:E; [|done]. by intros [= <-].
  - intros s s' a q v. rewrite Hput, Hget. intros Hp Hm Hv.
    destruct (put_bounded_entry _ _ _ _ _ _ Hkind (Hpre a) Hp) as (bytes & Eb & Ec).
    rewrite (Hkey _ _ Hm) in Ec. rewrite (read_json_content _ _ _ Hv), Ec. cbn [mbind option_bind].
    rewrite (serde_roundtrip _ _ Eb). cbn [mbind option_bind]. by rewrite Hm.
  - intros s s' a e. rewrite Hput, put_bounded_steps. destruct (to_vec a) as [bytes|]; [|by intros [= <- _]].
    cbn zeta. destruct (db_get _ _) as [old|]; [|by intros [= <- _]].
    destruct (bounded_batch _ _ _ _ _ _); [|by intros [= <- _]].
    unfold write_batch. destruct (db_write _ _); [done|]. by intros [= <- _].
Defined.
End bounded_kinds.

Section bounded_instances.
Context {D : Type} `{DatabaseLaws D} (now : Z).

#[export] Instance amd_kds_shaped `{SerdeLaws AmdKdsRecord} : GetShaped get_amd_kds (put_amd_kds now).
Proof.
  refine (bounded_shaped _ _ now AMD_KDS amd_kds (λ rec, amd_kds (ak_url rec))
    (λ rec url, String.eqb (ak_url rec) url) _ _ _ _ _).
  - apply list_elem_of_here.
  - intros a. apply starts_with_app.
  - intros s url. unfold get_amd_kds. destruct (read_json _ _) as [r|]; [|done]. cbn [mbind option_bind].
    by destruct (String.eqb _ _).
  - done.
  - by intros rec url ->%String.eqb_eq.
Defined.

#[export] Instance nvidia_rim_shaped `{SerdeLaws AmdKdsRecord} :
  GetShaped get_nvidia_rim (put_nvidia_rim now).
Proof.
  refine (bounded_shaped _ _ now NVIDIA_RIM nvidia_rim (λ rec, nvidia_rim (ak_url rec))
    (λ rec url, String.eqb (ak_url rec) url) _ _ _ _ _).
  - right. apply list_elem_of_here.
  - intros a. apply starts_with_app.
  - intros s url. unfold get_nvidia_rim. destruct (read_json _ _) as [r|]; [|done]. cbn [mbind option_bind].
    by destruct (String.eqb _ _).
  - done.
  - by intros rec url ->%String.eqb_eq.
Defined.

#[export] Instance nvidia_ocsp_shaped `{SerdeLaws NvidiaOcspRecord} :
  GetShaped get_nvidia_ocsp (put_nvidia_ocsp now).
Proof.
  refine (bounded_shaped _ _ now NVIDIA_OCSP nvidia_ocsp (λ rec, nvidia_ocsp (no_cache_key rec))
    (λ rec key, String.eqb (no_cache_key rec) key) _ _ _ _ _).
  - right. right. apply list_elem_of_here.
  - intros a. apply starts_with_app.
  - intros s key. unfold get_nvidia_ocsp. destruct (read_json _ _) as [r|]; [|done]. cbn [mbind option_bind].
    by destruct (String.eqb _ _).
  - done.
  - by intros rec key ->%String.eqb_eq.
Defined.
End bounded_instances.

(** ** Claims *)

Section claims.
Context {D V : Type} `{DatabaseLaws D}.
Context `{SerdeLaws PckCertRecord} `{SerdeLaws PlatformPool} `{SerdeLaws (TcbRecord V)}
  `{SerdeLaws (IdentityRecord V)} `{SerdeLaws PckCrlRecord} `{SerdeLaws AmdKdsRecord}
  `{SerdeLaws NvidiaOcspRecord}.

(** Whatever the database holds (a digest collision, a row written under
    a wrong key), a read never answers with another request's record: a PCK
    certificate, a platform, a TCB info, an identity and a PCK CRL carry
    the identifying fields of the request up to letter case, an AMD KDS, an
    NVIDIA RIM and an OCSP record carry exactly its URL or cache key. *)
Theorem get_only_matching (s : Store D) :
  (∀ q c p e rec, get_pckcert s q c p e = Some rec →
     same_text (pc_qeid rec) q ∧ same_text (pc_cpusvn rec) c ∧
     same_text (pc_pcesvn rec) p ∧ same_text (pc_pceid rec) e) ∧
  (∀ q e pool, get_platform_pool s q e = Some pool →
     same_text (pp_qe_id pool) q ∧ same_text (pp_pce_id pool) e) ∧
  (∀ prod f v u (rec : TcbRecord V), get_tcb s prod f v u = Some rec →
     tr_prod_type rec = prod ∧ tr_version rec = v ∧ same_text (tr_fmspc rec) f ∧
     same_text (tr_update_type rec) (UpdateType_as_str u)) ∧
  (∀ id v u (rec : IdentityRecord V), get_identity s id v u = Some rec →
     ir_enclave_id rec = id ∧ ir_version rec = v ∧
     same_text (ir_update_type rec) (UpdateType_as_str u)) ∧
  (∀ ca rec, get_pckcrl s ca = Some rec → same_text (cr_ca rec) ca) ∧
  (∀ url rec, get_amd_kds s url = Some rec ∨ get_nvidia_rim s url = Some rec → ak_url rec = url) ∧
  (∀ key rec, get_nvidia_ocsp s key = Some rec → no_cache_key rec = key).
Proof.
  split_and!.
  - intros q c p e rec E. pose proof (gs_only (put := put_pckcert) s (q, c, p, e) rec E) as Hm.
    cbn in Hm. bool_to_prop. rewrite !eq_ic_spec in *. tauto.
  - intros q e pool E. pose proof (gs_only (put := put_platform_pool) s (q, e) pool E) as Hm.
    cbn in Hm. bool_to_prop. rewrite !eq_ic_spec in *. tauto.
  - intros prod f v u rec E. pose proof (gs_only (put := put_tcb) s (prod, f, v, u) rec E) as Hm.
    cbn in Hm. bool_to_prop. rewrite !eq_ic_spec in *. tauto.
  - intros id v u rec E. pose proof (gs_only (put := put_identity) s (id, v, u) rec E) as Hm.
    cbn in Hm. bool_to_prop. rewrite !eq_ic_spec in *. tauto.
  - intros ca rec E. by pose proof (gs_only (put := put_pckcrl) s ca rec E) as Hm%eq_ic_spec.
  - intros url rec [E|E].
    + by pose proof (gs_only (put := put_amd_kds 0) s url rec E) as Hm%String.eqb_eq.
    + by pose proof (gs_only (put := put_nvidia_rim 0) s url rec E) as Hm%String.eqb_eq.
  - intros key rec E. by pose proof (gs_only (put := put_nvidia_ocsp 0) s key rec E) as Hm%String.eqb_eq.
Qed.

(** A stored PCK certificate is served to every later request for its
    platform and raw TCB, whatever the letter case of the request; no
    request with another key changes its answer, and a write that fails
    changes no answer at all. *)
Theorem pckcert_get_after_put (s s' : Store D) rec r :
  put_pckcert rec s = (s', r) → (∀ k, ∃ v, db_get (db s) k = Ok v) → (∀ k, ∃ v, db_get (db s') k = Ok v) →
  ∀ q c p e,
    get_pckcert s' q c p e =
      if decide (r = Ok () ∧ pckcert q e c p = rec_key rec) then
        if eq_ic (pc_qeid rec) q && eq_ic (pc_pceid rec) e && eq_ic (pc_cpusvn rec) c
             && eq_ic (pc_pcesvn rec) p
        then Some rec else None
      else get_pckcert s q c p e.
Proof.
  intros Hp Hs Hs' q c p e. destruct r as [[]|er].
  - destruct (Hs' (pckcert q e c p)) as [v' Ev'], (Hs (pckcert q e c p)) as [v Ev].
    unfold get_pckcert. destruct (decide _) as [[_ Ek]|Hn].
    + rewrite Ek in *. by rewrite (read_put_json _ _ _ _ _ Hp Ev').
    + rewrite !(read_json_content _ _ _ Ev), !(read_json_content _ _ _ Ev').
      rewrite (put_json_frame _ _ _ (pckcert q e c p) _ Hp); [done|]. intros E. apply Hn. by rewrite E.
  - rewrite decide_False by (by intros []).
    unfold put_pckcert in Hp. by apply put_json_failed in Hp as [-> _].
Qed.

(** A read-through record (AMD KDS, NVIDIA RIM, NVIDIA OCSP) that was
    stored is found again under its URL or cache key: the write that
    enforces the bound never evicts the entry it is writing. *)
Theorem readthrough_get_after_put (s s' : Store D) now :
  (∀ k, ∃ v, db_get (db s') k = Ok v) →
  (∀ rec, put_amd_kds now rec s = (s', Ok ()) → get_amd_kds s' (ak_url rec) = Some rec) ∧
  (∀ rec, put_nvidia_rim now rec s = (s', Ok ()) → get_nvidia_rim s' (ak_url rec) = Some rec) ∧
  (∀ rec, put_nvidia_ocsp now rec s = (s', Ok ()) → get_nvidia_ocsp s' (no_cache_key rec) = Some rec).
Proof.
  intros Hr. split_and!; intros rec E.
  - destruct (Hr (amd_kds (ak_url rec))) as [v Ev].
    eapply (gs_get_put (put := put_amd_kds now)); [exact E| |exact Ev]. apply String.eqb_refl.
  - destruct (Hr (nvidia_rim (ak_url rec))) as [v Ev].
    eapply (gs_get_put (put := put_nvidia_rim now)); [exact E| |exact Ev]. apply String.eqb_refl.
  - destruct (Hr (nvidia_ocsp (no_cache_key rec))) as [v Ev].
    eapply (gs_get_put (put := put_nvidia_ocsp now)); [exact E| |exact Ev]. apply String.eqb_refl.
Qed.
End claims.

(** ** A concrete codec, for evaluation

    Fields one after the other, each with its length in unary. *)

Module Codec.
Class Wire (A : Type) := { enc : A → string; dec : string → option (A * string) }.
Class WireLaws (A : Type) `{Wire A} := { dec_enc a r : dec (enc a ++ r)%string = Some (a, r) }.

Fixpoint ones (n : nat) (s : string) : string :=
  match n with O => String "0" s | S n => String "1" (ones n s) end.
Fixpoint count_ones (s : string) : option (nat * string) :=
  match s with
  | EmptyString => None
  | String c s => if Ascii.eqb c "1" then '(n, r) ← count_ones s; Some (S n, r) else Some (O, s)
  end.
Fixpoint split_at (n : nat) (s : string) : option (string * string) :=
  match n, s with
  | O, _ => Some (EmptyString, s)
  | S n, String c s => '(a, b) ← split_at n s; Some (String c a, b)
  | S _, EmptyString => None
  end.

Lemma count_ones_ones n s r : count_ones (ones n s ++ r)%string = Some (n, (s ++ r)%string).
Proof. induction n as [|n IH]; cbn; [done|]. by rewrite IH. Qed.
Lemma split_at_app s r : split_at (String.length s) (s ++ r)%string = Some (s, r).
Proof. induction s as [|c s IH]; cbn; [done|]. by rewrite IH. Qed.

#[export] Instance wire_string : Wire string := {|
  enc s := ones (String.length s) s;
  dec s := '(n, r) ← count_ones s; split_at n r
|}.
#[export] Instance wire_string_laws : WireLaws string.
Proof. split. intros s r. cbn. rewrite count_ones_ones. cbn. apply split_at_app. Qed.

#[export] Instance wire_prod `{Wire A, Wire B} : Wire (A * B) := {|
  enc x := (enc x.1 ++ enc x.2)%string;
  dec s := '(a, r) ← dec s; '(b, r) ← dec r; Some ((a, b), r)
|}.
#[export] Instance wire_prod_laws `{WireLaws A, WireLaws B} : WireLaws (A * B).
Proof. split. intros [a b] r. cbn. rewrite <- str_app_assoc, dec_enc. cbn. by rewrite dec_enc. Qed.

(** A type through another one. *)
Definition wire_via {A B} `{Wire B} (f : A → B) (g : B → option A) : Wire A := {|
  enc a := enc (f a);
  dec s := '(b, r) ← dec s; a ← g b; Some (a, r)
|}.
Lemma wire_via_laws {A B} `{WireLaws B} (f : A → B) (g : B → option A) :
  (∀ a, g (f a) = Some a) → @WireLaws A (wire_via f g).
Proof. intros E. split. intros a r. cbn. rewrite dec_enc. cbn. by rewrite E. Qed.

#[export] Instance wire_unit : Wire () := wire_via (λ _, EmptyString) (λ _, Some ()).
#[export] Instance wire_unit_laws : WireLaws ().
Proof. apply wire_via_laws. by intros []. Qed.

Fixpoint pos_string (p : positive) : string :=
  match p with xH => "" | xO p => String "0" (pos_string p) | xI p => String "1" (pos_string p) end.
Fixpoint pos_parse (s : string) : positive :=
  match s with
  | EmptyString => xH
  | String c s => if Ascii.eqb c "0" then xO (pos_parse s) else xI (pos_parse s)
  end.
Lemma pos_parse_string p : pos_parse (pos_string p) = p.
Proof. induction p as [p IH|p IH|]; cbn; by rewrite ?IH. Qed.

Definition z_text (z : Z) : string :=
  match z with Z0 => "" | Zpos p => String "+" (pos_string p) | Zneg p => String "-" (pos_string p) end.
Definition text_z (s : string) : option Z :=
  match s with
  | EmptyString => Some 0
  | String c s => Some (if Ascii.eqb c "+" then Zpos (pos_parse s) else Zneg (pos_parse s))
  end.
#[export] Instance wire_Z : Wire Z := wire_via z_text text_z.
#[export] Instance wire_Z_laws : WireLaws Z.
Proof. apply wire_via_laws. intros [|p|p]; cbn; by rewrite ?pos_parse_string. Qed.

#[export] Instance wire_bool : Wire bool := wire_via (λ b, if b : bool then 1 else 0) (λ z, Some (z =? 1)).
#[export] Instance wire_bool_laws : WireLaws bool.
Proof. apply wire_via_laws. by intros []. Qed.

Fixpoint enc_list `{Wire A} (l : list A) : string :=
  match l with [] => "0" | a :: l => String "1" (enc a ++ enc_list l) end.
Fixpoint dec_list `{Wire A} (fuel : nat) (s : string) : option (list A * string) :=
  match fuel, s with
  | S fuel, String c s =>
      if Ascii.eqb c "0" then Some ([], s)
      else '(a, r) ← dec s; '(l, r) ← dec_list fuel r; Some (a :: l, r)
  | _, _ => None
  end.
Lemma dec_enc_list `{WireLaws A} (l : list A) fuel r :
  (String.length (enc_list l ++ r) <= fuel)%nat → dec_list fuel (enc_list l ++ r)%string = Some (l, r).
Proof.
  revert fuel. induction l as [|a l IH]; intros [|fuel]; cbn; try (intros; exfalso; lia); [done|].
  rewrite <- str_app_assoc, str_length_app. intros Hf. rewrite dec_enc. cbn. rewrite IH by lia. done.
Qed.
#[export] Instance wire_list `{Wire A} : Wire (list A) := {|
  enc := enc_list; dec s := dec_list (String.length s) s
|}.
#[export] Instance wire_list_laws `{WireLaws A} : WireLaws (list A).
Proof. split. intros l r. cbn. by apply dec_enc_list. Qed.

#[export] Instance wire_option `{Wire A} : Wire (option A) :=
  wire_via (λ o : option A, match o with Some a => [a] | None => [] end)
    (λ l, Some match l with a :: _ => Some a | [] => None end).
#[export] Instance wire_option_laws `{WireLaws A} : WireLaws (option A).
Proof. apply wire_via_laws. by intros []. Qed.

#[export] Instance wire_serde `{Wire A} : Serde A := {|
  to_vec a := Some (enc a);
  from_slice s := match dec s with Some (a, EmptyString) => Some a | _ => None end
|}.
#[export] Instance wire_serde_laws `{WireLaws A} : SerdeLaws A.
Proof.
  split. intros a s [= <-]. cbn. rewrite <- (str_app_nil_r (enc a)). by rewrite dec_enc.
Qed.

#[export] Instance wire_pckcert : Wire PckCertRecord :=
  wire_via (λ r, (pc_qeid r, pc_pceid r, pc_cpusvn r, pc_pcesvn r, pc_cert r, pc_tcbm r, pc_fmspc r, pc_ca r, pc_issuer_chain r, pc_encrypted_ppid r, pc_platform_manifest r))
    (λ '(a, b, c, d, e, f, g, h, i, j, k), Some (Build_PckCertRecord a b c d e f g h i j k)).
#[export] Instance wire_pckcert_laws : WireLaws PckCertRecord.
Proof. apply wire_via_laws. by intros []. Qed.

#[export] Instance wire_tcb `{Wire V} : Wire (TcbRecord V) :=
  wire_via (λ r, (tr_prod_type r, tr_fmspc r, tr_version r, tr_update_type r, tr_tcbinfo r, tr_raw_body r, tr_issuer_chain r))
    (λ '(a, b, c, d, e, f, g), Some (Build_TcbRecord V a b c d e f g)).
#[export] Instance wire_tcb_laws `{WireLaws V} : WireLaws (TcbRecord V).
Proof. apply wire_via_laws. by intros []. Qed.

#[export] Instance wire_identity `{Wire V} : Wire (IdentityRecord V) :=
  wire_via (λ r, (ir_enclave_id r, ir_version r, ir_update_type r, ir_identity r, ir_raw_body r, ir_issuer_chain r))
    (λ '(a, b, c, d, e, f), Some (Build_IdentityRecord V a b c d e f)).
#[export] Instance wire_identity_laws `{WireLaws V} : WireLaws (IdentityRecord V).
Proof. apply wire_via_laws. by intros []. Qed.

#[export] Instance wire_pckcrl : Wire PckCrlRecord :=
  wire_via (λ r, (cr_ca r, cr_pckcrl r, cr_issuer_chain r))
    (λ '(a, b, c), Some (Build_PckCrlRecord a b c)).
#[export] Instance wire_pckcrl_laws : WireLaws PckCrlRecord.
Proof. apply wire_via_laws. by intros []. Qed.

#[export] Instance wire_crl : Wire CrlRecord :=
  wire_via (λ r, (crl_uri r, crl_crl r))
    (λ '(a, b), Some (Build_CrlRecord a b)).
#[export] Instance wire_crl_laws : WireLaws CrlRecord.
Proof. apply wire_via_laws. by intros []. Qed.

#[export] Instance wire_amd : Wire AmdKdsRecord :=
  wire_via (λ r, (ak_url r, ak_body r, ak_content_type r, ak_content_disposition r, ak_fetched_at r))
    (λ '(a, b, c, d, e), Some (Build_AmdKdsRecord a b c d e)).
#[export] Instance wire_amd_laws : WireLaws AmdKdsRecord.
Proof. apply wire_via_laws. by intros []. Qed.

#[export] Instance wire_ocsp : Wire NvidiaOcspRecord :=
  wire_via (λ r, (no_cache_key r, no_body r, no_content_type r, no_fetched_at r, no_expires_at r))
    (λ '(a, b, c, d, e), Some (Build_NvidiaOcspRecord a b c d e)).
#[export] Instance wire_ocsp_laws : WireLaws NvidiaOcspRecord.
Proof. apply wire_via_laws. by intros []. Qed.

#[export] Instance wire_plcert : Wire PlatformCert :=
  wire_via (λ r, (plc_tcbm r, plc_cert r))
    (λ '(a, b), Some (Build_PlatformCert a b)).
#[export] Instance wire_plcert_laws : WireLaws PlatformCert.
Proof. apply wire_via_laws. by intros []. Qed.

#[export] Instance wire_rawtcb : Wire RawTcb :=
  wire_via (λ r, (rt_cpu_svn r, rt_pce_svn r, rt_tcbm r))
    (λ '(a, b, c), Some (Build_RawTcb a b c)).
#[export] Instance wire_rawtcb_laws : WireLaws RawTcb.
Proof. apply wire_via_laws. by intros []. Qed.

#[export] Instance wire_pool : Wire PlatformPool :=
  wire_via (λ r, (pp_qe_id r, pp_pce_id r, pp_enc_ppid r, pp_platform_manifest r, pp_fmspc r, pp_ca r, pp_issuer_chain r, pp_certs r, pp_raw_tcbs r))
    (λ '(a, b, c, d, e, f, g, h, i), Some (Build_PlatformPool a b c d e f g h i)).
#[export] Instance wire_pool_laws : WireLaws PlatformPool.
Proof. apply wire_via_laws. by intros []. Qed.

#[export] Instance wire_reg : Wire RegisteredPlatform :=
  wire_via (λ r, (rp_qe_id r, rp_pce_id r, rp_cpu_svn r, rp_pce_svn r, rp_enc_ppid r, rp_platform_manifest r, rp_state r))
    (λ '(a, b, c, d, e, f, g), Some (Build_RegisteredPlatform a b c d e f g)).
#[export] Instance wire_reg_laws : WireLaws RegisteredPlatform.
Proof. apply wire_via_laws. by intros []. Qed.

#[export] Instance wire_policy : Wire AppraisalPolicy :=
  wire_via (λ r, (pol_id r, pol_fmspc r, pol_is_default r, pol_policy r, pol_type r))
    (λ '(a, b, c, d, e), Some (Build_AppraisalPolicy a b c d e)).
#[export] Instance wire_policy_laws : WireLaws AppraisalPolicy.
Proof. apply wire_via_laws. by intros []. Qed.

#[export] Instance wire_policies : Wire AppraisalList := wire_via policies (λ l, Some (Build_AppraisalList l)).
#[export] Instance wire_policies_laws : WireLaws AppraisalList.
Proof. apply wire_via_laws. by intros []. Qed.

Definition sample_rec : PckCertRecord :=
  {| pc_qeid := "Q1"; pc_pceid := "0000"; pc_cpusvn := "0A"; pc_pcesvn := "0D00"; pc_cert := "pem";
     pc_tcbm := "0A0D00"; pc_fmspc := "00606A"; pc_ca := "PLATFORM"; pc_issuer_chain := "chain";
     pc_encrypted_ppid := None; pc_platform_manifest := "" |}.
End Codec.

Import MapDb Codec.

Lemma pckcert_get_after_put_witness :
  get_pckcert (fst (put_pckcert sample_rec (mkStore (∅ : gmap string string) 0 1))) "q1" "0a" "0d00" "0000" =
  Some sample_rec.
Proof.
  rewrite (pckcert_get_after_put (mkStore ∅ 0 1) _ sample_rec (Ok ())).
  - rewrite decide_True; [reflexivity|]. split; [reflexivity|]. vm_compute. reflexivity.
  - reflexivity.
  - intros k. by eexists.
  - intros k. by eexists.
Defined.

Definition sample_amd : AmdKdsRecord :=
  {| ak_url := "u"; ak_body := [1; 2]; ak_content_type := None; ak_content_disposition := None;
     ak_fetched_at := 7 |}.

Lemma readthrough_get_after_put_witness :
  get_amd_kds (fst (put_amd_kds 5 sample_amd (mkStore (∅ : gmap string string) 0 1))) "u" = Some sample_amd.
Proof.
  refine (proj1 (readthrough_get_after_put (mkStore ∅ 0 1) _ 5 _) sample_amd _).
  - intros k. by eexists.
  - reflexivity.
Defined.

(** A row under the right key with another platform's record is a miss. *)
Definition foreign_store : Store (gmap string string) :=
  mkStore {[ pckcert "q2" "0000" "0a" "0d00" := default EmptyString (to_vec sample_rec) ]} 0 1.

Lemma get_only_matching_witness :
  get_pckcert foreign_store "q2" "0a" "0d00" "0000" = None ∧
  same_text (pc_qeid sample_rec) "q1".
Proof.
  split; [vm_compute; reflexivity|].
  refine (proj1 (proj1 (get_only_matching (V := unit)
    (fst (put_pckcert sample_rec (mkStore (∅ : gmap string string) 0 1)))) "q1"%string "0a"%string "0d00"%string
    "0000"%string sample_rec _)).
  reflexivity.
Defined.
