(* ===== verification/Platforms.v ===== *)
(** * Platforms: the per-platform certificate pool (src/src/store.rs)

    A pool collects the certificates of one platform and the raw TCB levels
    known for it.  A level that is known has a GET record of its own, so the
    operations that change the pool publish the pool and the GET records they
    affect in one batch.  Each runs under [platform_lock], so it is one step
    of the store monad. *)

From Stdlib Require Import ZArith Lia.
From stdpp Require Import base list strings option gmap.
From S2P Require Import Prelude Text Errors Validate Env PckCert Keys Database Fifo FifoSpec Records.

Local Open Scope Z_scope.
Local Open Scope rust_scope.
#[local] Set Default Proof Using "Type*".

Record PlatformCredentials := { cred_enc_ppid : string; cred_platform_manifest : string }.

#[export] Instance PlatformCredentials_eq_dec : EqDecision PlatformCredentials.
Proof. solve_decision. Defined.

Inductive PlatformPublication : Type :=
| Observed (expected : option PlatformCredentials)
| AbsentGet (enc_ppid platform_manifest : string).

Definition credentials (pool : PlatformPool) : PlatformCredentials :=
  {| cred_enc_ppid := pp_enc_ppid pool; cred_platform_manifest := pp_platform_manifest pool |}.

Definition cert_pairs (pool : PlatformPool) : list (string * string) :=
  map (λ c, (plc_tcbm c, plc_cert c)) (pp_certs pool).

(** [PlatformPool::default] with the two ids filled in *)
Definition default_pool (qe_id pce_id : string) : PlatformPool :=
  {| pp_qe_id := qe_id; pp_pce_id := pce_id; pp_enc_ppid := ""; pp_platform_manifest := "";
     pp_fmspc := ""; pp_ca := ""; pp_issuer_chain := ""; pp_certs := []; pp_raw_tcbs := [] |}.

Definition with_raw_tcbs (pool : PlatformPool) (raws : list RawTcb) : PlatformPool :=
  {| pp_qe_id := pp_qe_id pool; pp_pce_id := pp_pce_id pool; pp_enc_ppid := pp_enc_ppid pool;
     pp_platform_manifest := pp_platform_manifest pool; pp_fmspc := pp_fmspc pool; pp_ca := pp_ca pool;
     pp_issuer_chain := pp_issuer_chain pool; pp_certs := pp_certs pool; pp_raw_tcbs := raws |}.

(** [match l.iter_mut().find(p) { Some(x) => *x = f(x), None => l.push(new) }] *)
Fixpoint upsert_first {A} (p : A → bool) (f : A → A) (new : A) (l : list A) : list A :=
  match l with
  | [] => [new]
  | x :: l' => if p x then f x :: l' else x :: upsert_first p f new l'
  end.

Definition same_level (x y : RawTcb) : bool :=
  eq_ic (rt_cpu_svn x) (rt_cpu_svn y) && eq_ic (rt_pce_svn x) (rt_pce_svn y).

(** The raw level a selected record stands for. *)
Definition raw_of (rec : PckCertRecord) : RawTcb :=
  {| rt_cpu_svn := to_upper (pc_cpusvn rec); rt_pce_svn := to_upper (pc_pcesvn rec);
     rt_tcbm := to_upper (pc_tcbm rec) |}.

Definition track (rec : PckCertRecord) (raws : list RawTcb) : list RawTcb :=
  upsert_first (λ r, same_level r (raw_of rec)) (λ _, raw_of rec) (raw_of rec) raws.

Section platforms.
Context {D V : Type} `{Database D} `{Base64}.
Context `{Serde PckCertRecord} `{Serde PlatformPool} `{Serde (TcbRecord V)}.

Definition batch_pckcert (rec : PckCertRecord) : res batch :=
  bytes ← ok_or (to_vec rec) INTERNAL_ERROR;
  Ok [BPut (rec_key rec) bytes].

Definition batch_pool (pool : PlatformPool) (key : string) : res batch :=
  bytes ← ok_or (to_vec pool) INTERNAL_ERROR;
  Ok [BPut key bytes].

Definition batch_tcb (rec : TcbRecord V) : res batch :=
  bytes ← ok_or (to_vec rec) INTERNAL_ERROR;
  Ok [BPut (tcb_rec_key rec) bytes].

Definition replace_platform_certs (fresh : PlatformPool) : M D (list RawTcb) :=
  previous ← read (λ s, default [] (pp_raw_tcbs <$> get_platform_pool s (pp_qe_id fresh) (pp_pce_id fresh)));
  _ ← put_platform_pool (with_raw_tcbs fresh previous);
  mret previous.

Definition select_platform_cert (qeid pceid : string) (persist : bool)
    (select : PlatformPool → res PckCertRecord) : M D PckCertRecord :=
  pool ← inspect (λ s, ok_or (get_platform_pool s qeid pceid) NO_CACHE_DATA);
  rec ← pure (select pool);
  if persist then
    let pool := with_raw_tcbs pool (track rec (pp_raw_tcbs pool)) in
    b ← pure (batch_pckcert rec);
    b' ← pure (batch_pool pool (platform qeid pceid));
    _ ← write_batch (b ++ b');
    mret rec
  else mret rec.

Definition check_platform_publication (current : option PlatformPool)
    (publication : PlatformPublication) : res unit :=
  let matches := match publication with
                 | Observed expected => bool_decide (credentials <$> current = expected)
                 | AbsentGet enc_ppid platform_manifest =>
                     match current with
                     | None => true
                     | Some pool => eq_ic (pp_enc_ppid pool) enc_ppid
                                    && String.eqb (pp_platform_manifest pool) platform_manifest
                     end
                 end in
  if negb matches then Err NO_CACHE_DATA else Ok ().

(** The loop over [merged.raw_tcbs]. *)
Fixpoint reselect (select : RawTcb → res PckCertRecord) (raws : list RawTcb) :
    res (list RawTcb * batch) :=
  match raws with
  | [] => Ok ([], [])
  | raw :: raws' =>
      rec ← select raw;
      b ← batch_pckcert rec;
      '(raws'', b') ← reselect select raws';
      Ok ({| rt_cpu_svn := rt_cpu_svn raw; rt_pce_svn := rt_pce_svn raw;
             rt_tcbm := to_upper (pc_tcbm rec) |} :: raws'', b ++ b')
  end.

Fixpoint batch_all {A} (f : A → res batch) (l : list A) : res batch :=
  match l with
  | [] => Ok []
  | x :: l' => b ← f x; b' ← batch_all f l'; Ok (b ++ b')
  end.

(** The batch a replacement publishes, from the pool it read. *)
Definition replacement_batch (fresh : PlatformPool) (previous : list RawTcb) (tcbs : list (TcbRecord V))
    (selected : option PckCertRecord) (select : PlatformPool → RawTcb → res PckCertRecord) : res batch :=
  '(raws, b) ← reselect (select fresh) previous;
  '(raws, b') ← match selected with
                | Some rec => br ← batch_pckcert rec; Ok (track rec raws, br)
                | None => Ok (raws, [])
                end;
  bt ← batch_all batch_tcb tcbs;
  bp ← batch_pool (with_raw_tcbs fresh raws) (platform (pp_qe_id fresh) (pp_pce_id fresh));
  Ok (b ++ b' ++ bt ++ bp).

Definition replace_platform_certs_after_fetch (fresh : PlatformPool) (publication : PlatformPublication)
    (tcbs : list (TcbRecord V)) (selected : option PckCertRecord)
    (select : PlatformPool → RawTcb → res PckCertRecord) : M D unit :=
  current ← read (λ s, get_platform_pool s (pp_qe_id fresh) (pp_pce_id fresh));
  _ ← pure (check_platform_publication current publication);
  b ← pure (replacement_batch fresh (default [] (pp_raw_tcbs <$> current)) tcbs selected select);
  write_batch b.

Definition replace_platform_certs_with_selection (fresh : PlatformPool)
    (expected : option PlatformCredentials) (tcbs : list (TcbRecord V)) (selected : option PckCertRecord)
    (select : PlatformPool → RawTcb → res PckCertRecord) : M D unit :=
  replace_platform_certs_after_fetch fresh (Observed expected) tcbs selected select.

Definition opt_text (s : string) : option string := if String.eqb s "" then None else Some s.

(** The metadata guard of [merge_pckcert_after_fetch]. *)
Definition metadata_conflict (pool : PlatformPool) (rec : PckCertRecord) : bool :=
  (negb (String.eqb (pp_fmspc pool) "") && negb (eq_ic (pp_fmspc pool) (pc_fmspc rec)))
  || (negb (String.eqb (pp_ca pool) "") && negb (eq_ic (pp_ca pool) (pc_ca rec))).

Definition known_ppids (pool : PlatformPool) : list string :=
  omap (λ c, match parse_pck_cert (plc_cert c) with Ok i => Some (ppid i) | Err _ => None end)
    (pp_certs pool).

(** The identity guard: the certificate's own fields against the record and
    the pool's other certificates. *)
Definition check_identity (pool : PlatformPool) (rec : PckCertRecord) : res unit :=
  match parse_pck_cert (pc_cert rec) with
  | Ok cert =>
      if existsb (λ p, negb (eq_ic p (ppid cert))) (known_ppids pool)
         || negb (eq_ic (pce_id cert) (pc_pceid rec))
         || negb (eq_ic (PckCert.fmspc cert) (pc_fmspc rec))
         || negb (eq_ic (ca cert) (pc_ca rec))
      then Err NO_CACHE_DATA else Ok ()
  | Err _ => match known_ppids pool with [] => Ok () | _ => Err NO_CACHE_DATA end
  end.

(** The pool with the record's certificate and metadata merged in. *)
Definition merged_pool (pool : PlatformPool) (new_platform : bool) (rec : PckCertRecord) : PlatformPool :=
  let c := {| plc_tcbm := pc_tcbm rec; plc_cert := pc_cert rec |} in
  {| pp_qe_id := pp_qe_id pool; pp_pce_id := pp_pce_id pool;
     pp_enc_ppid := if new_platform then default "" (pc_encrypted_ppid rec) else pp_enc_ppid pool;
     pp_platform_manifest := if new_platform then pc_platform_manifest rec else pp_platform_manifest pool;
     pp_fmspc := pc_fmspc rec; pp_ca := to_upper (pc_ca rec); pp_issuer_chain := pc_issuer_chain rec;
     pp_certs := upsert_first (λ c, eq_ic (plc_tcbm c) (pc_tcbm rec)) (λ _, c) c (pp_certs pool);
     pp_raw_tcbs := pp_raw_tcbs pool |}.

(** A cached GET record, refreshed with the merged pool's metadata. *)
Definition refreshed (pool : PlatformPool) (rec cached : PckCertRecord) : PckCertRecord :=
  {| pc_qeid := pc_qeid cached; pc_pceid := pc_pceid cached; pc_cpusvn := pc_cpusvn cached;
     pc_pcesvn := pc_pcesvn cached;
     pc_cert := if eq_ic (pc_tcbm cached) (pc_tcbm rec) then pc_cert rec else pc_cert cached;
     pc_tcbm := pc_tcbm cached; pc_fmspc := pp_fmspc pool; pc_ca := pp_ca pool;
     pc_issuer_chain := pp_issuer_chain pool; pc_encrypted_ppid := opt_text (pp_enc_ppid pool);
     pc_platform_manifest := pp_platform_manifest pool |}.

Definition with_credentials (rec : PckCertRecord) (pool : PlatformPool) : PckCertRecord :=
  {| pc_qeid := pc_qeid rec; pc_pceid := pc_pceid rec; pc_cpusvn := pc_cpusvn rec;
     pc_pcesvn := pc_pcesvn rec; pc_cert := pc_cert rec; pc_tcbm := pc_tcbm rec;
     pc_fmspc := pc_fmspc rec; pc_ca := pc_ca rec; pc_issuer_chain := pc_issuer_chain rec;
     pc_encrypted_ppid := opt_text (pp_enc_ppid pool);
     pc_platform_manifest := pp_platform_manifest pool |}.

Definition merge_batch (s : Store D) (current : option PlatformPool) (rec : PckCertRecord) : res batch :=
  let new_platform := match current with None => true | Some _ => false end in
  let pool := default (default_pool (pc_qeid rec) (pc_pceid rec)) current in
  check negb (metadata_conflict pool rec) else NO_CACHE_DATA;
  _ ← check_identity pool rec;
  let pool := merged_pool pool new_platform rec in
  b ← batch_all (λ raw, match get_pckcert s (pp_qe_id pool) (rt_cpu_svn raw) (rt_pce_svn raw) (pp_pce_id pool) with
                        | Some cached => batch_pckcert (refreshed pool rec cached)
                        | None => Ok []
                        end) (pp_raw_tcbs pool);
  let pool := with_raw_tcbs pool (track rec (pp_raw_tcbs pool)) in
  bs ← batch_pckcert (with_credentials rec pool);
  bp ← batch_pool pool (platform (pp_qe_id pool) (pp_pce_id pool));
  Ok (b ++ bs ++ bp).

Definition merge_pckcert_after_fetch (rec : PckCertRecord) (publication : PlatformPublication) : M D unit :=
  current ← read (λ s, get_platform_pool s (pc_qeid rec) (pc_pceid rec));
  _ ← pure (check_platform_publication current publication);
  b ← inspect (λ s, merge_batch s current rec);
  write_batch b.

Definition merge_pckcert (rec : PckCertRecord) (expected : option PlatformCredentials) : M D unit :=
  merge_pckcert_after_fetch rec (Observed expected).

Definition upsert_raw_tcb (qeid pceid cpusvn pcesvn tcbm : string) : M D unit :=
  pool ← read (λ s, get_platform_pool s qeid pceid);
  match pool with
  | None => mret ()
  | Some pool =>
      let entry := {| rt_cpu_svn := to_upper cpusvn; rt_pce_svn := to_upper pcesvn; rt_tcbm := to_upper tcbm |} in
      put_platform_pool (with_raw_tcbs pool
        (upsert_first (λ r, String.eqb (rt_cpu_svn r) (rt_cpu_svn entry) &&
                            String.eqb (rt_pce_svn r) (rt_pce_svn entry))
           (λ r, {| rt_cpu_svn := rt_cpu_svn r; rt_pce_svn := rt_pce_svn r; rt_tcbm := rt_tcbm entry |})
           entry (pp_raw_tcbs pool)))
  end.

Definition remove_raw_tcb (qeid pceid cpusvn pcesvn : string) : M D unit :=
  pool ← read (λ s, get_platform_pool s qeid pceid);
  match pool with
  | None => mret ()
  | Some pool =>
      put_platform_pool (with_raw_tcbs pool
        (List.filter (λ r, negb (eq_ic (rt_cpu_svn r) cpusvn && eq_ic (rt_pce_svn r) pcesvn))
           (pp_raw_tcbs pool)))
  end.

Definition platform_rows (pool : PlatformPool) : list PlatformRecord :=
  map (λ raw, {| pr_qe_id := pp_qe_id pool; pr_pce_id := pp_pce_id pool; pr_cpu_svn := rt_cpu_svn raw;
                 pr_pce_svn := rt_pce_svn raw; pr_enc_ppid := pp_enc_ppid pool;
                 pr_platform_manifest := pp_platform_manifest pool |}) (pp_raw_tcbs pool).

Definition cached_platforms_by_fmspc (s : Store D) (fmspcs : list string) : list PlatformRecord :=
  mjoin (map (λ pool,
    match fmspcs with
    | [] => platform_rows pool
    | _ => if existsb (λ f, eq_ic f (pp_fmspc pool)) fmspcs then platform_rows pool else []
    end) (list_platform_pools s)).
End platforms.

(** ** Batches of puts *)

Definition puts (l : list (string * string)) : batch := map (λ kv, BPut kv.1 kv.2) l.

Lemma puts_app l l' : puts (l ++ l') = puts l ++ puts l'.
Proof. apply map_app. Qed.

Lemma puts_cons k' v l k :
  batch_lookup (puts ((k', v) :: l)) k =
    match batch_lookup (puts l) k with
    | Some r => Some r
    | None => if decide (k' = k) then Some (Some v) else None
    end.
Proof. reflexivity. Qed.

Lemma puts_out l k : k ∉ l.*1 → batch_lookup (puts l) k = None.
Proof.
  induction l as [|[k' v] l IH]; [done|]. rewrite puts_cons. intros [Hne Hn]%not_elem_of_cons.
  rewrite IH by done. by rewrite decide_False.
Qed.

Lemma puts_in l k v : NoDup l.*1 → (k, v) ∈ l → batch_lookup (puts l) k = Some (Some v).
Proof.
  induction l as [|[k' v'] l IH]; [by intros _ ?%not_elem_of_nil|]. rewrite puts_cons. intros [Hn HN]%NoDup_cons.
  intros [[= -> ->]|Hin]%elem_of_cons.
  - rewrite puts_out by done. by rewrite decide_True.
  - by rewrite IH.
Qed.

(** What a batch of puts reads back is one of its values. *)
Lemma puts_some l k r : batch_lookup (puts l) k = Some r → ∃ v, r = Some v ∧ (k, v) ∈ l.
Proof.
  induction l as [|[k' v] l IH]; [done|]. rewrite puts_cons. destruct (batch_lookup (puts l) k) as [r'|] eqn:E.
  - intros [= ->]. destruct (IH eq_refl) as (v' & -> & Hin). exists v'. split; [done|]. by right.
  - destruct (decide (k' = k)) as [->|]; [|done]. intros [= <-]. exists v. split; [done|]. left.
Qed.

Section store_steps.
Context {D : Type} `{DatabaseLaws D}.

Lemma write_batch_ok (s s' : Store D) b :
  write_batch b s = (s', Ok ()) → content (db s') = apply_batch b (content (db s)).
Proof.
  unfold write_batch. destruct (db_write _ _) as [d|] eqn:E; [|done]. intros [= <-].
  by apply db_write_ok in E.
Qed.

Lemma write_batch_failed (s s' : Store D) b e : write_batch b s = (s', Err e) → s' = s.
Proof. unfold write_batch. destruct (db_write _ _); [done|]. by intros [= <- _]. Qed.
End store_steps.

(** ** Levels *)

Definition level_key (qe pce : string) (raw : RawTcb) : string :=
  pckcert qe pce (rt_cpu_svn raw) (rt_pce_svn raw).

Lemma same_level_spec x y :
  same_level x y = true ↔ same_text (rt_cpu_svn x) (rt_cpu_svn y) ∧ same_text (rt_pce_svn x) (rt_pce_svn y).
Proof. unfold same_level. rewrite andb_true_iff, !eq_ic_spec. done. Qed.

Lemma same_level_key qe pce x y : same_level x y = true → level_key qe pce x = level_key qe pce y.
Proof. intros [H1 H2]%same_level_spec. by apply pckcert_ic. Qed.

(** The record answers for a level of the platform. *)
Definition answers (qe pce : string) (raw : RawTcb) (rec : PckCertRecord) : Prop :=
  same_text (pc_qeid rec) qe ∧ same_text (pc_pceid rec) pce ∧
  same_text (pc_cpusvn rec) (rt_cpu_svn raw) ∧ same_text (pc_pcesvn rec) (rt_pce_svn raw).

Lemma answers_key qe pce raw rec : answers qe pce raw rec → rec_key rec = level_key qe pce raw.
Proof. intros (H1 & H2 & H3 & H4). by apply pckcert_ic. Qed.

Lemma raw_of_answers qe pce rec :
  same_text (pc_qeid rec) qe → same_text (pc_pceid rec) pce → answers qe pce (raw_of rec) rec.
Proof. intros H1 H2. split_and!; [done|done| |]; symmetry; apply to_upper_same. Qed.

(** A tracked list holds the record's level, and the others unchanged. *)
Lemma track_elem rec raws r :
  r ∈ track rec raws → r = raw_of rec ∨ (r ∈ raws).
Proof.
  unfold track. induction raws as [|x raws IH]; cbn.
  - intros ->%list_elem_of_singleton. by left.
  - destruct (same_level x (raw_of rec)).
    + intros [->|?]%elem_of_cons; [by left|right; by right].
    + intros [->|Hin]%elem_of_cons; [right; left|]. destruct (IH Hin); [by left|right; by right].
Qed.

Lemma track_self rec raws : raw_of rec ∈ track rec raws.
Proof.
  unfold track. induction raws as [|x raws IH]; cbn; [left|].
  destruct (same_level x (raw_of rec)); [left|by right].
Qed.

Lemma track_covers rec raws r :
  r ∈ raws → ∃ r', r' ∈ track rec raws ∧ same_level r r' = true.
Proof.
  assert (Hrefl : ∀ r, same_level r r = true) by (intros x; by apply same_level_spec).
  unfold track. induction raws as [|x raws IH]; [by intros ?%not_elem_of_nil|]. cbn.
  intros [->|Hin]%elem_of_cons.
  - destruct (same_level x (raw_of rec)) eqn:E.
    + exists (raw_of rec). split; [left|done].
    + exists x. split; [left|done].
  - destruct (same_level x (raw_of rec)); [exists r; split; [by right|done]|].
    destruct (IH Hin) as (r' & Hr' & Hl). exists r'. split; [by right|done].
Qed.

(** With levels of distinct keys, tracking drops the stale row of the level. *)
Lemma track_level qe pce rec raws r :
  NoDup (map (level_key qe pce) raws) →
  r ∈ track rec raws → same_level r (raw_of rec) = true → r = raw_of rec.
Proof.
  unfold track. induction raws as [|x raws IH]; cbn.
  - by intros _ ->%list_elem_of_singleton.
  - intros [Hx HN]%NoDup_cons. destruct (same_level x (raw_of rec)) eqn:E.
    + intros [->|Hin]%elem_of_cons Hl; [done|]. exfalso. apply Hx.
      change (level_key qe pce x ∈ map (level_key qe pce) raws).
      rewrite (same_level_key qe pce _ _ E), <- (same_level_key qe pce _ _ Hl).
      apply list_elem_of_fmap. by exists r.
    + intros [->|Hin]%elem_of_cons Hl; [congruence|by apply IH].
Qed.

(** ** Keys of the three kinds a publication writes *)

Lemma pckcert_not_platform q p c e q' p' : pckcert q p c e ≠ platform q' p'.
Proof.
  intros E. assert (PCKCERT = PLATFORM) as [=].
  apply (kind_disjoint _ _ (pckcert q p c e)); [by left|unfold all_prefixes; do 14 right; by left|
    apply starts_with_app|rewrite E; apply starts_with_app].
Qed.

Lemma pckcert_not_tcb q p c e n v f u : pckcert q p c e ≠ tcb n v f u.
Proof.
  intros E. assert (PCKCERT = TCB) as [=].
  apply (kind_disjoint _ _ (pckcert q p c e)); [by left|right; by left|
    apply starts_with_app|rewrite E; apply starts_with_app].
Qed.

Lemma tcb_not_platform n v f u q' p' : tcb n v f u ≠ platform q' p'.
Proof.
  intros E. assert (TCB = PLATFORM) as [=].
  apply (kind_disjoint _ _ (tcb n v f u)); [right; by left|unfold all_prefixes; do 14 right; by left|
    apply starts_with_app|rewrite E; apply starts_with_app].
Qed.

(** ** Coherence: every known level is served by a record of its own *)

Definition coherent `{Serde PckCertRecord} (m : gmap string string) (pool : PlatformPool) : Prop :=
  ∀ raw, raw ∈ pp_raw_tcbs pool → ∃ v rec,
    m !! level_key (pp_qe_id pool) (pp_pce_id pool) raw = Some v ∧ from_slice v = Some rec ∧
    answers (pp_qe_id pool) (pp_pce_id pool) raw rec ∧ same_text (pc_tcbm rec) (rt_tcbm raw).

(** A coherent level is a hit of the GET it stands for. *)
Lemma coherent_hit `{DatabaseLaws D} `{SerdeLaws PckCertRecord} (s : Store D) pool raw :
  coherent (content (db s)) pool → raw ∈ pp_raw_tcbs pool →
  (∃ v, db_get (db s) (level_key (pp_qe_id pool) (pp_pce_id pool) raw) = Ok v) →
  ∃ rec, get_pckcert s (pp_qe_id pool) (rt_cpu_svn raw) (rt_pce_svn raw) (pp_pce_id pool) = Some rec ∧
    same_text (pc_tcbm rec) (rt_tcbm raw).
Proof.
  intros Hc Hr [v Ev]. destruct (Hc raw Hr) as (v' & rec & Em & Ef & Ha & Ht). exists rec. split; [|done].
  unfold get_pckcert. fold (level_key (pp_qe_id pool) (pp_pce_id pool) raw).
  rewrite (read_json_content _ _ _ Ev), Em. cbn [mbind option_bind]. rewrite Ef. cbn [mbind option_bind].
  destruct Ha as (A1 & A2 & A3 & A4). rewrite !(proj2 (eq_ic_spec _ _)) by done. done.
Qed.

Section publish.
Context {D V : Type} `{DatabaseLaws D} `{Base64}.
Context `{SerdeLaws PckCertRecord} `{SerdeLaws PlatformPool} `{SerdeLaws (TcbRecord V)}.

Lemma batch_pckcert_ok rec b :
  batch_pckcert rec = Ok b → ∃ v, to_vec rec = Some v ∧ b = puts [(rec_key rec, v)].
Proof. unfold batch_pckcert. destruct (to_vec rec) as [v|]; [|done]. intros [= <-]. by exists v. Qed.

Lemma batch_pool_ok pool k b :
  batch_pool pool k = Ok b → ∃ v, to_vec pool = Some v ∧ b = puts [(k, v)].
Proof. unfold batch_pool. destruct (to_vec pool) as [v|]; [|done]. intros [= <-]. by exists v. Qed.

Lemma batch_tcb_ok (rec : TcbRecord V) b :
  batch_tcb rec = Ok b → ∃ v, to_vec rec = Some v ∧ b = puts [(tcb_rec_key rec, v)].
Proof. unfold batch_tcb. destruct (to_vec rec) as [v|]; [|done]. intros [= <-]. by exists v. Qed.

Lemma batch_tcbs_ok (tcbs : list (TcbRecord V)) b :
  batch_all batch_tcb tcbs = Ok b → ∃ l, b = puts l ∧ l.*1 = map tcb_rec_key tcbs.
Proof.
  revert b. induction tcbs as [|t tcbs IH]; intros b; cbn [batch_all]; [intros [= <-]; by exists []|].
  destruct (batch_tcb t) as [b1|] eqn:Eb; [|done]. apply batch_tcb_ok in Eb as (v & _ & ->).
  cbn [mbind result_bind].
  destruct (batch_all batch_tcb tcbs) as [b'|]; [|done]. cbn [mbind result_bind]. intros [= <-].
  destruct (IH b' eq_refl) as (l & -> & El). exists ((tcb_rec_key t, v) :: l). split; [done|].
  cbn. by rewrite El.
Qed.

(** A reselected level: the old level, its record and the stored bytes. *)
Definition relevel (x : RawTcb * PckCertRecord * string) : RawTcb :=
  {| rt_cpu_svn := rt_cpu_svn x.1.1; rt_pce_svn := rt_pce_svn x.1.1;
     rt_tcbm := to_upper (pc_tcbm x.1.2) |}.
Definition rec_row (x : RawTcb * PckCertRecord * string) : string * string := (rec_key x.1.2, x.2).

Lemma reselect_ok select raws raws' b :
  reselect select raws = Ok (raws', b) →
  ∃ l, raws = map (λ x, x.1.1) l ∧ raws' = map relevel l ∧ b = puts (map rec_row l) ∧
    Forall (λ x, select x.1.1 = Ok x.1.2 ∧ to_vec x.1.2 = Some x.2) l.
Proof.
  revert raws' b. induction raws as [|raw raws IH]; intros raws' b; cbn [reselect].
  - intros [= <- <-]. by exists [].
  - destruct (select raw) as [rec|] eqn:Es; [|done]. cbn [mbind result_bind].
    destruct (batch_pckcert rec) as [b1|] eqn:Eb; [|done]. cbn [mbind result_bind].
    destruct (reselect select raws) as [[raws1 b2]|] eqn:Er; [|done]. cbn [mbind result_bind].
    intros [= <- <-]. apply batch_pckcert_ok in Eb as (v & Ev & ->).
    destruct (IH _ _ eq_refl) as (l & -> & -> & -> & HF).
    exists ((raw, rec, v) :: l). split_and!; [done..|by apply list.Forall_cons].
Qed.

(** The rows a replacement publishes, in the order it queues them. *)
Lemma replacement_rows fresh prev (tcbs : list (TcbRecord V)) selected select b :
  replacement_batch fresh prev tcbs selected select = Ok b →
  ∃ l sel tl v raws, raws = from_option (λ rec, track rec (map relevel l)) (map relevel l) selected ∧
    b = puts (map rec_row l ++ sel ++ tl ++ [(platform (pp_qe_id fresh) (pp_pce_id fresh), v)]) ∧
    prev = map (λ x, x.1.1) l ∧ to_vec (with_raw_tcbs fresh raws) = Some v ∧
    tl.*1 = map tcb_rec_key tcbs ∧
    match selected with Some rec => ∃ w, to_vec rec = Some w ∧ sel = [(rec_key rec, w)] | None => sel = [] end ∧
    Forall (λ x, select fresh x.1.1 = Ok x.1.2 ∧ to_vec x.1.2 = Some x.2) l.
Proof.
  unfold replacement_batch. destruct (reselect _ _) as [[raws b1]|] eqn:Er; [|done]. cbn [mbind result_bind].
  apply reselect_ok in Er as (l & -> & -> & -> & HF).
  destruct selected as [rec|].
  - destruct (batch_pckcert rec) as [br|] eqn:Ebr; [|done]. cbn [mbind result_bind].
    apply batch_pckcert_ok in Ebr as (w & Ew & ->).
    destruct (batch_all _ _) as [bt|] eqn:Et; [|done]. cbn [mbind result_bind].
    apply batch_tcbs_ok in Et as (tl & -> & Etl).
    destruct (batch_pool _ _) as [bp|] eqn:Ep; [|done]. cbn [mbind result_bind]. intros [= <-].
    apply batch_pool_ok in Ep as (v & Ev & ->).
    exists l, [(rec_key rec, w)], tl, v, (track rec (map relevel l)). rewrite !puts_app. eauto 10.
  - cbn [mbind result_bind]. destruct (batch_all _ _) as [bt|] eqn:Et; [|done]. cbn [mbind result_bind].
    apply batch_tcbs_ok in Et as (tl & -> & Etl).
    destruct (batch_pool _ _) as [bp|] eqn:Ep; [|done]. cbn [mbind result_bind]. intros [= <-].
    apply batch_pool_ok in Ep as (v & Ev & ->).
    exists l, [], tl, v, (map relevel l). rewrite !puts_app. eauto 10.
Qed.

(** How the published rows read back: the pool row, the selected record's
    row, and the level rows when their keys are distinct. *)
Section rows.
Context (m : gmap string string) (qe pce v : string) (l : list (RawTcb * PckCertRecord * string))
  (sel : list (string * string)) (tcbs : list (TcbRecord V)) (tl : list (string * string)).
Context (Htl : tl.*1 = map tcb_rec_key tcbs).
Local Abbreviation b := (puts (map rec_row l ++ sel ++ tl ++ [(platform qe pce, v)])).

Lemma rows_pool : apply_batch b m !! platform qe pce = Some v.
Proof.
  rewrite apply_batch_lookup, !puts_app, !batch_lookup_app, puts_cons. cbn [puts map batch_lookup].
  by rewrite decide_True.
Qed.

Lemma rows_pckcert q p c e :
  apply_batch b m !! pckcert q p c e =
    match batch_lookup (puts sel) (pckcert q p c e) with
    | Some r => r
    | None => match batch_lookup (puts (map rec_row l)) (pckcert q p c e) with
              | Some r => r
              | None => m !! pckcert q p c e
              end
    end.
Proof using Htl.
  rewrite apply_batch_lookup, !puts_app, !batch_lookup_app, puts_cons. cbn [puts map batch_lookup].
  rewrite decide_False by apply not_eq_sym, pckcert_not_platform.
  rewrite (puts_out tl).
  2:{ rewrite Htl. intros (t & E & _)%list_elem_of_fmap. by apply pckcert_not_tcb in E. }
  by destruct (batch_lookup (puts sel) (pckcert q p c e)), (batch_lookup (puts (map rec_row l)) (pckcert q p c e)).
Qed.
(** The levels, when their records answer for them and their keys differ. *)
Context (Hans : ∀ x, x ∈ l → answers qe pce x.1.1 x.1.2).
Context (HN : NoDup (map (level_key qe pce) (map (λ x, x.1.1) l))).

Lemma rec_row_keys : (map rec_row l).*1 = map (level_key qe pce) (map (λ x, x.1.1) l).
Proof using Hans.
  clear HN. induction l as [|x l' IH]; [done|]. cbn. f_equal.
  - apply answers_key, Hans. left.
  - apply IH. intros y Hy. apply Hans. by right.
Qed.

Lemma rows_level x :
  x ∈ l → rec_key x.1.2 ∉ sel.*1 → apply_batch b m !! level_key qe pce x.1.1 = Some x.2.
Proof using Htl Hans HN.
  intros Hx Hn. rewrite <- (answers_key qe pce _ _ (Hans x Hx)). unfold rec_key at 1.
  rewrite rows_pckcert. fold (rec_key x.1.2). rewrite (puts_out sel) by done.
  rewrite (puts_in (map rec_row l) _ x.2); [done|by rewrite rec_row_keys|].
  apply list_elem_of_fmap. by exists x.
Qed.

Lemma rows_selected rec w :
  sel = [(rec_key rec, w)] → apply_batch b m !! rec_key rec = Some w.
Proof using Htl.
  intros Es. unfold rec_key at 1. rewrite rows_pckcert. fold (rec_key rec). rewrite Es at 1.
  rewrite puts_cons. cbn [puts map batch_lookup]. by rewrite decide_True.
Qed.

Lemma relevel_keys :
  map (level_key qe pce) (map relevel l) = map (level_key qe pce) (map (λ x, x.1.1) l).
Proof. clear. induction l as [|x l' IH]; [done|]. cbn. by rewrite IH. Qed.
End rows.

Lemma relevel_answers qe pce x : answers qe pce x.1.1 x.1.2 → answers qe pce (relevel x) x.1.2.
Proof. done. Qed.

(** The invariant after the batch, level by level. *)
Lemma rows_coherent m fresh v l sel (tcbs : list (TcbRecord V)) tl selected :
  let qe := pp_qe_id fresh in
  let pce := pp_pce_id fresh in
  let raws := from_option (λ rec, track rec (map relevel l)) (map relevel l) selected in
  tl.*1 = map tcb_rec_key tcbs →
  (∀ x, x ∈ l → answers qe pce x.1.1 x.1.2 ∧ to_vec x.1.2 = Some x.2) →
  NoDup (map (level_key qe pce) (map (λ x, x.1.1) l)) →
  match selected with Some rec => ∃ w, to_vec rec = Some w ∧ sel = [(rec_key rec, w)] | None => sel = [] end →
  (∀ rec, selected = Some rec → same_text (pc_qeid rec) qe ∧ same_text (pc_pceid rec) pce ∧
     ∀ x, x ∈ l → rec_key rec = level_key qe pce x.1.1 → same_level x.1.1 (raw_of rec) = true) →
  coherent (apply_batch (puts (map rec_row l ++ sel ++ tl ++ [(platform qe pce, v)])) m)
    (with_raw_tcbs fresh raws).
Proof.
  intros qe pce raws Htl Hl HN Hsel Hs raw Hraw. cbn [pp_qe_id pp_pce_id pp_raw_tcbs with_raw_tcbs] in *.
  fold qe pce. assert (Hans : ∀ x, x ∈ l → answers qe pce x.1.1 x.1.2) by (intros x Hx; by apply Hl).
  assert (Hcase : (∃ x, x ∈ l ∧ raw = relevel x ∧ rec_key x.1.2 ∉ sel.*1) ∨
                  ∃ rec, selected = Some rec ∧ raw = raw_of rec).
  { destruct selected as [rec|].
    - destruct Hsel as (w & _ & ->). destruct (Hs rec eq_refl) as (_ & _ & Hcol).
      destruct (track_elem _ _ _ Hraw) as [->|Hin]; [by right; exists rec|].
      apply list_elem_of_fmap in Hin as (x & -> & Hx).
      destruct (decide (rec_key x.1.2 = rec_key rec)) as [E|Hne].
      + right. exists rec. split; [done|]. apply (track_level qe pce rec (map relevel l)); [|done|].
        * by rewrite relevel_keys.
        * apply (Hcol x Hx). rewrite <- E. by apply answers_key, Hans.
      + left. exists x. split_and!; [done|done|]. by intros ?%list_elem_of_singleton.
    - subst sel. apply list_elem_of_fmap in Hraw as (x & -> & Hx). left. exists x.
      split_and!; [done|done|apply not_elem_of_nil]. }
  destruct Hcase as [(x & Hx & -> & Hn)|(rec & Esel & ->)].
  - destruct (Hl x Hx) as [Ha Ev]. exists x.2, x.1.2. split_and!.
    + by apply (rows_level _ _ _ _ _ _ _ _ Htl Hans HN x Hx).
    + by apply serde_roundtrip.
    + done.
    + symmetry. apply to_upper_same.
  - rewrite Esel in Hsel. destruct Hsel as (w & Ew & Es). destruct (Hs rec Esel) as (Hq & Hp & _).
    exists w, rec. split_and!.
    + rewrite <- (answers_key qe pce (raw_of rec) rec) by (by apply raw_of_answers).
      by apply (rows_selected _ _ _ _ _ _ tcbs).
    + by apply serde_roundtrip.
    + by apply raw_of_answers.
    + symmetry. apply to_upper_same.
Qed.

(** C30: Publishing a freshly fetched pool keeps every known TCB level of the
    platform and leaves the store coherent: the stored pool is the fresh one
    with the known levels carried over (and the requested one added), each
    level has a GET record of its own with the level's TCBm, selected from
    the fresh certificates, and the requested record is served. *)
Theorem replace_coherent (s s' : Store D) fresh publication (tcbs : list (TcbRecord V)) selected select :
  let qe := pp_qe_id fresh in
  let pce := pp_pce_id fresh in
  let prev := default [] (pp_raw_tcbs <$> get_platform_pool s qe pce) in
  replace_platform_certs_after_fetch fresh publication tcbs selected select s = (s', Ok ()) →
  NoDup (map (level_key qe pce) prev) →
  (∀ raw rec, raw ∈ prev → select fresh raw = Ok rec → answers qe pce raw rec) →
  (∀ rec, selected = Some rec → same_text (pc_qeid rec) qe ∧ same_text (pc_pceid rec) pce ∧
     ∀ raw, raw ∈ prev → rec_key rec = level_key qe pce raw → same_level raw (raw_of rec) = true) →
  ∃ raws, let pool := with_raw_tcbs fresh raws in
    content (db s') !! pool_key pool = to_vec pool ∧
    coherent (content (db s')) pool ∧
    (∀ raw, raw ∈ prev → ∃ raw', raw' ∈ raws ∧ same_level raw raw' = true) ∧
    (∀ rec, selected = Some rec →
       raw_of rec ∈ raws ∧ content (db s') !! rec_key rec = to_vec rec) ∧
    (∀ raw rec, raw ∈ prev → select fresh raw = Ok rec →
       (∀ sel, selected = Some sel → rec_key sel ≠ rec_key rec) →
       content (db s') !! level_key qe pce raw = to_vec rec).
Proof.
  intros qe pce prev Hrun HN Hsel Hselected.
  unfold replace_platform_certs_after_fetch, read, pure, mbind, M_bind in Hrun. fold prev in Hrun.
  destruct (check_platform_publication _ _); [|done].
  destruct (replacement_batch _ _ _ _ _) as [b|] eqn:Eb; [|done].
  apply write_batch_ok in Hrun.
  apply replacement_rows in Eb as (l & sel & tl & v & raws & Eraws & -> & Eprev & Ev & Etl & Esel & HF).
  change (prev = map (λ x, x.1.1) l) in Eprev. rewrite list.Forall_forall in HF. fold qe pce in Hrun.
  clearbody prev.
  assert (Hprev : ∀ x, x ∈ l → x.1.1 ∈ prev) by (intros x Hx; rewrite Eprev; apply list_elem_of_fmap; eauto).
  assert (Hl : ∀ x, x ∈ l → answers qe pce x.1.1 x.1.2 ∧ to_vec x.1.2 = Some x.2).
  { intros x Hx. destruct (HF x Hx) as [E1 E2]. split; [|done]. by apply (Hsel x.1.1 x.1.2); [apply Hprev|]. }
  assert (Hans : ∀ x, x ∈ l → answers qe pce x.1.1 x.1.2) by (intros x Hx; by apply Hl).
  rewrite Eprev in HN. exists raws. cbn zeta. unfold pool_key. cbn [with_raw_tcbs pp_qe_id pp_pce_id].
  fold qe pce. rewrite Ev, Hrun. split_and!.
  - by apply (rows_pool _ _ _ _ _ _ tcbs).
  - rewrite Eraws. apply (rows_coherent _ _ _ _ _ tcbs _ selected); [done..|].
    intros rec Er. destruct (Hselected rec Er) as (Hq & Hp & Hc). split_and!; [done|done|].
    intros x Hx E. by apply Hc; [apply Hprev|].
  - intros raw Hraw. rewrite Eprev in Hraw. apply list_elem_of_fmap in Hraw as (x & -> & Hx).
    assert (Hlx : same_level x.1.1 (relevel x) = true) by (by apply same_level_spec).
    assert (Hin : relevel x ∈ map relevel l) by (apply list_elem_of_fmap; by exists x).
    subst raws. destruct selected as [rec|]; [|by exists (relevel x)].
    destruct (track_covers rec _ _ Hin) as (r' & Hr' & Hl'). exists r'. split; [done|].
    apply same_level_spec in Hlx, Hl'. apply same_level_spec. split; etrans; [apply Hlx|apply Hl'|apply Hlx|apply Hl'].
  - intros rec Er. rewrite Er in Eraws, Esel. subst raws. split; [apply track_self|].
    destruct Esel as (w & -> & Es). by apply (rows_selected _ _ _ _ _ _ tcbs).
  - intros raw rec Hraw Er Hne. rewrite Eprev in Hraw. apply list_elem_of_fmap in Hraw as (x & -> & Hx).
    destruct (HF x Hx) as [E1 E2]. assert (rec = x.1.2) as -> by congruence. rewrite E2.
    apply (rows_level _ _ _ _ _ _ tcbs _ Etl Hans HN x Hx).
    destruct selected as [sl|]; [|subst sel; apply not_elem_of_nil].
    destruct Esel as (w & _ & ->). intros E%list_elem_of_singleton. by apply (Hne sl eq_refl).
Qed.

(** *** Local selection *)

(** Tracking a served record keeps the invariant. *)
Lemma track_coherent m m' pool rec w :
  let qe := pp_qe_id pool in
  let pce := pp_pce_id pool in
  coherent m pool → same_text (pc_qeid rec) qe → same_text (pc_pceid rec) pce →
  NoDup (map (level_key qe pce) (pp_raw_tcbs pool)) →
  (∀ raw, raw ∈ pp_raw_tcbs pool → rec_key rec = level_key qe pce raw → same_level raw (raw_of rec) = true) →
  to_vec rec = Some w → m' !! rec_key rec = Some w →
  (∀ q p c e, pckcert q p c e ≠ rec_key rec → m' !! pckcert q p c e = m !! pckcert q p c e) →
  coherent m' (with_raw_tcbs pool (track rec (pp_raw_tcbs pool))).
Proof.
  intros qe pce Hc Hq Hp HN Hcol Ew Em Hother raw Hraw.
  cbn [pp_qe_id pp_pce_id pp_raw_tcbs with_raw_tcbs] in *. fold qe pce.
  assert (Hnew : raw = raw_of rec ∨ (raw ∈ pp_raw_tcbs pool ∧ level_key qe pce raw ≠ rec_key rec)).
  { destruct (track_elem _ _ _ Hraw) as [->|Hin]; [by left|].
    destruct (decide (level_key qe pce raw = rec_key rec)) as [E|]; [left|by right].
    apply (track_level qe pce rec _ raw HN Hraw). by apply Hcol. }
  destruct Hnew as [->|[Hin Hne]].
  - exists w, rec. split_and!.
    + by rewrite <- (answers_key qe pce (raw_of rec) rec) by (by apply raw_of_answers).
    + by apply serde_roundtrip.
    + by apply raw_of_answers.
    + symmetry. apply to_upper_same.
  - destruct (Hc raw Hin) as (v & rec' & Ev & Ef & Ha & Ht). exists v, rec'. split_and!; try done.
    unfold level_key in *. by rewrite Hother.
Qed.

Lemma two_rows m rec w k v :
  k ≠ rec_key rec →
  let m' := apply_batch (puts [(rec_key rec, w); (k, v)]) m in
  m' !! k = Some v ∧ m' !! rec_key rec = Some w ∧
  ∀ k', k' ≠ k → k' ≠ rec_key rec → m' !! k' = m !! k'.
Proof.
  intros Hne m'. unfold m'. split_and!.
  - rewrite apply_batch_lookup, !puts_cons. cbn [puts map batch_lookup]. by rewrite decide_True.
  - rewrite apply_batch_lookup, !puts_cons. cbn [puts map batch_lookup].
    by rewrite decide_False, decide_True.
  - intros k' Hk Hr. rewrite apply_batch_lookup, !puts_cons. cbn [puts map batch_lookup].
    by rewrite !decide_False.
Qed.

Lemma get_platform_pool_names (s : Store D) qeid pceid pool :
  get_platform_pool s qeid pceid = Some pool →
  same_text (pp_qe_id pool) qeid ∧ same_text (pp_pce_id pool) pceid.
Proof.
  intros E. pose proof (gs_only (put := put_platform_pool) s (qeid, pceid) pool E) as Hm.
  cbn in Hm. bool_to_prop. by rewrite !eq_ic_spec in *.
Qed.

(** Selecting a certificate locally answers from the current pool of a
    known platform only.  Without [persist], or when anything fails, the
    store is untouched; with [persist], the selected record is served from
    then on, its level is tracked in the pool, nothing else of the pool
    changes, and a coherent pool stays coherent. *)
Theorem select_platform_cert_correct (s s' : Store D) qeid pceid persist select r :
  select_platform_cert qeid pceid persist select s = (s', r) →
  match r with
  | Err e => s' = s ∧ (get_platform_pool s qeid pceid = None → e = NO_CACHE_DATA)
  | Ok rec =>
      ∃ pool, get_platform_pool s qeid pceid = Some pool ∧ select pool = Ok rec ∧
      if persist then
        let pool' := with_raw_tcbs pool (track rec (pp_raw_tcbs pool)) in
        content (db s') !! platform qeid pceid = to_vec pool' ∧
        content (db s') !! rec_key rec = to_vec rec ∧
        (∀ k, k ≠ platform qeid pceid → k ≠ rec_key rec → content (db s') !! k = content (db s) !! k) ∧
        (coherent (content (db s)) pool → same_text (pc_qeid rec) qeid → same_text (pc_pceid rec) pceid →
         NoDup (map (level_key qeid pceid) (pp_raw_tcbs pool)) →
         (∀ raw, raw ∈ pp_raw_tcbs pool → rec_key rec = level_key qeid pceid raw →
            same_level raw (raw_of rec) = true) →
         coherent (content (db s')) pool')
      else s' = s
  end.
Proof.
  unfold select_platform_cert, inspect, pure, mbind, M_bind, mret, M_ret.
  destruct (get_platform_pool s qeid pceid) as [pool|] eqn:Ep; cbn [ok_or]; [|by intros [= <- <-]].
  destruct (select pool) as [rec|] eqn:Es; [|by intros [= <- <-]].
  destruct persist; [|intros [= <- <-]; by exists pool].
  destruct (batch_pckcert rec) as [b|] eqn:Eb; [|by intros [= <- <-]].
  destruct (batch_pool _ _) as [b'|] eqn:Eb'; [|by intros [= <- <-]].
  apply batch_pckcert_ok in Eb as (w & Ew & ->). apply batch_pool_ok in Eb' as (v & Ev & ->).
  destruct (write_batch _ s) as [s1 [[]|e]] eqn:Ewr; [|apply write_batch_failed in Ewr as ->; by intros [= <- <-]].
  intros [= <- <-]. apply write_batch_ok in Ewr. exists pool. split; [done|]. split; [done|].
  rewrite Ew, Ev. change (puts [(rec_key rec, w)] ++ puts [(platform qeid pceid, v)])
    with (puts [(rec_key rec, w); (platform qeid pceid, v)]) in Ewr.
  destruct (two_rows (content (db s)) rec w (platform qeid pceid) v) as (R1 & R2 & R3);
    [apply not_eq_sym, pckcert_not_platform|]. rewrite <- Ewr in R1, R2, R3.
  split_and!; [done..|]. intros Hc Hq Hp HN Hcol.
  destruct (get_platform_pool_names _ _ _ _ Ep) as [Eq Ee].
  assert (Hk : ∀ raw, level_key (pp_qe_id pool) (pp_pce_id pool) raw = level_key qeid pceid raw)
    by (intros raw; by apply pckcert_ic).
  apply (track_coherent (content (db s)) _ pool rec w); [done|by etrans|by etrans| | |done|done|].
  - by rewrite (map_ext _ _ Hk).
  - intros raw. rewrite Hk. apply Hcol.
  - intros q p c e Hne. apply R3; [apply pckcert_not_platform|done].
Qed.

(** *** Merging a single certificate *)

Lemma get_pckcert_content (s : Store D) q c p e rec :
  get_pckcert s q c p e = Some rec →
  ∃ v, content (db s) !! pckcert q e c p = Some v ∧ from_slice v = Some rec.
Proof.
  unfold get_pckcert, read_json, get_json, get_raw.
  destruct (db_get _ _) as [o|] eqn:E; [|done]. apply db_get_ok in E as ->.
  destruct (content (db s) !! _) as [v|]; [|done]. cbn [mbind option_bind].
  destruct (from_slice v) as [r|] eqn:Er; [|done]. cbn [mbind option_bind].
  destruct (_ && _); [|done]. intros [= <-]. by exists v.
Qed.

Lemma upsert_first_elem {A} (p : A → bool) f (new : A) l x :
  x ∈ l → p x = false → x ∈ upsert_first p f new l.
Proof.
  induction l as [|y l IH]; [by intros ?%not_elem_of_nil|]. cbn.
  intros [->|Hin]%elem_of_cons Hp; [rewrite Hp; left|].
  destruct (p y); [by right|]. right. by apply IH.
Qed.

Lemma upsert_first_new {A} (p : A → bool) (new : A) l : new ∈ upsert_first p (λ _, new) new l.
Proof. induction l as [|y l IH]; cbn; [left|]. destruct (p y); [left|by right]. Qed.

Lemma refresh_rows (s : Store D) pool rec raws b :
  batch_all (λ raw, match get_pckcert s (pp_qe_id pool) (rt_cpu_svn raw) (rt_pce_svn raw) (pp_pce_id pool) with
                    | Some cached => batch_pckcert (refreshed pool rec cached)
                    | None => Ok []
                    end) raws = Ok b →
  ∃ R, b = puts R ∧
    ∀ k v, (k, v) ∈ R → ∃ raw cached, raw ∈ raws ∧ k = level_key (pp_qe_id pool) (pp_pce_id pool) raw ∧
      get_pckcert s (pp_qe_id pool) (rt_cpu_svn raw) (rt_pce_svn raw) (pp_pce_id pool) = Some cached ∧
      to_vec (refreshed pool rec cached) = Some v.
Proof.
  revert b. induction raws as [|raw raws IH]; intros b; cbn [batch_all].
  { intros [= <-]. exists []. split; [done|]. by intros ? ? ?%not_elem_of_nil. }
  destruct (get_pckcert s _ _ _ _) as [cached|] eqn:Eg.
  - destruct (batch_pckcert _) as [b1|] eqn:Eb; [|done]. cbn [mbind result_bind].
    apply batch_pckcert_ok in Eb as (v & Ev & ->).
    destruct (batch_all _ raws) as [b2|] eqn:Ea; [|done]. cbn [mbind result_bind]. intros [= <-].
    destruct (IH _ eq_refl) as (R & -> & HR). exists ((rec_key cached, v) :: R). split; [done|].
    intros k v' [[= -> ->]|Hin]%elem_of_cons.
    + exists raw, cached. split_and!; [left| |done|done].
      pose proof (gs_only (put := put_pckcert) s (pp_qe_id pool, rt_cpu_svn raw, rt_pce_svn raw, pp_pce_id pool)
        cached Eg) as Hm. by apply (gs_same_key (put := put_pckcert)) in Hm.
    + destruct (HR _ _ Hin) as (r & c & Hr & ?). exists r, c. split; [by right|done].
  - cbn [mbind result_bind]. destruct (batch_all _ raws) as [b2|] eqn:Ea; [|done]. cbn [mbind result_bind].
    intros [= <-]. destruct (IH _ eq_refl) as (R & -> & HR). exists R. split; [done|].
    intros k v Hin. destruct (HR _ _ Hin) as (r & c & Hr & ?). exists r, c. split; [by right|done].
Qed.

(** Refreshing the cached rows of a coherent pool keeps it coherent. *)
Lemma refresh_coherent (s : Store D) pool rec R :
  coherent (content (db s)) pool →
  (∀ k v, (k, v) ∈ R → ∃ raw cached, raw ∈ pp_raw_tcbs pool ∧ k = level_key (pp_qe_id pool) (pp_pce_id pool) raw ∧
      get_pckcert s (pp_qe_id pool) (rt_cpu_svn raw) (rt_pce_svn raw) (pp_pce_id pool) = Some cached ∧
      to_vec (refreshed pool rec cached) = Some v) →
  coherent (apply_batch (puts R) (content (db s))) pool.
Proof.
  intros Hc HR raw Hraw. destruct (Hc raw Hraw) as (v & rec0 & Ev & Ef & Ha & Ht).
  rewrite apply_batch_lookup. destruct (batch_lookup (puts R) _) as [r|] eqn:Eb; [|by exists v, rec0].
  apply puts_some in Eb as (v' & -> & Hin). destruct (HR _ _ Hin) as (raw' & cached & _ & Ek & Eg & Et).
  apply get_pckcert_content in Eg as (v'' & Ev'' & Ef'').
  fold (level_key (pp_qe_id pool) (pp_pce_id pool) raw') in Ev''. rewrite <- Ek, Ev in Ev''.
  injection Ev'' as <-. assert (cached = rec0) as -> by congruence.
  exists v', (refreshed pool rec rec0). split_and!; [done|by apply serde_roundtrip|done|done].
Qed.

Lemma default_pool_coherent m q p : coherent m (default_pool q p).
Proof. by intros raw ?%not_elem_of_nil. Qed.

(** The rows a merge publishes. *)
Lemma merge_rows (s : Store D) current rec b :
  merge_batch s current rec = Ok b →
  let pool0 := default (default_pool (pc_qeid rec) (pc_pceid rec)) current in
  let new := match current with None => true | Some _ => false end in
  let pool := merged_pool pool0 new rec in
  let pool' := with_raw_tcbs pool (track rec (pp_raw_tcbs pool)) in
  ∃ R w v, b = puts (R ++ [(rec_key rec, w); (pool_key pool', v)]) ∧
    to_vec (with_credentials rec pool') = Some w ∧ to_vec pool' = Some v ∧
    metadata_conflict pool0 rec = false ∧ check_identity pool0 rec = Ok () ∧
    ∀ k v, (k, v) ∈ R → ∃ raw cached, raw ∈ pp_raw_tcbs pool ∧
      k = level_key (pp_qe_id pool) (pp_pce_id pool) raw ∧
      get_pckcert s (pp_qe_id pool) (rt_cpu_svn raw) (rt_pce_svn raw) (pp_pce_id pool) = Some cached ∧
      to_vec (refreshed pool rec cached) = Some v.
Proof.
  intros Hb pool0 new pool pool'. unfold merge_batch in Hb. fold pool0 new in Hb. fold pool in Hb. fold pool' in Hb.
  destruct (metadata_conflict pool0 rec); [done|]. cbn [negb] in Hb.
  destruct (check_identity pool0 rec) as [[]|]; [|done]. cbn [mbind result_bind] in Hb.
  destruct (batch_all _ _) as [b1|] eqn:Ea; [|done]. cbn [mbind result_bind] in Hb.
  destruct (batch_pckcert _) as [b2|] eqn:Eb; [|done]. cbn [mbind result_bind] in Hb.
  destruct (batch_pool _ _) as [b3|] eqn:Ep; [|done]. cbn [mbind result_bind] in Hb. injection Hb as <-.
  apply refresh_rows in Ea as (R & -> & HR). apply batch_pckcert_ok in Eb as (w & Ew & ->).
  apply batch_pool_ok in Ep as (v & Ev & ->). exists R, w, v. split_and!; [|done..].
  by rewrite puts_app.
Qed.

(** C29: Merging the single certificate a PCCS upstream returned augments the
    platform's pool and never replaces it.  When it succeeds, the record is
    served from then on and its certificate and level are in the pool; every
    certificate of another TCBm stays; a platform that was known keeps its
    credentials, and the served record carries those, not the request's; the
    metadata of the pool did not contradict the record's; and a coherent
    pool stays coherent. *)
Theorem merge_pckcert_correct (s s' : Store D) rec publication :
  merge_pckcert_after_fetch rec publication s = (s', Ok ()) →
  let current := get_platform_pool s (pc_qeid rec) (pc_pceid rec) in
  let old := default (default_pool (pc_qeid rec) (pc_pceid rec)) current in
  ∃ pool, content (db s') !! pool_key pool = to_vec pool ∧
    content (db s') !! rec_key rec = to_vec (with_credentials rec pool) ∧
    raw_of rec ∈ pp_raw_tcbs pool ∧
    {| plc_tcbm := pc_tcbm rec; plc_cert := pc_cert rec |} ∈ pp_certs pool ∧
    (∀ c, c ∈ pp_certs old → eq_ic (plc_tcbm c) (pc_tcbm rec) = false → c ∈ pp_certs pool) ∧
    (is_Some current → credentials pool = credentials old) ∧
    metadata_conflict old rec = false ∧ check_identity old rec = Ok () ∧
    (coherent (content (db s)) old →
     NoDup (map (level_key (pp_qe_id old) (pp_pce_id old)) (pp_raw_tcbs old)) →
     (∀ raw, raw ∈ pp_raw_tcbs old → rec_key rec = level_key (pp_qe_id old) (pp_pce_id old) raw →
        same_level raw (raw_of rec) = true) →
     coherent (content (db s')) pool).
Proof.
  intros Hrun current old. unfold merge_pckcert_after_fetch, read, pure, inspect, mbind, M_bind in Hrun.
  fold current in Hrun. destruct (check_platform_publication _ _); [|done].
  destruct (merge_batch s current rec) as [b|] eqn:Eb; [|done]. apply write_batch_ok in Hrun.
  apply merge_rows in Eb as (R & w & v & -> & Ew & Ev & Hmeta & Hid & HR). cbn zeta in *.
  fold old in Ew, Ev, Hmeta, Hid, HR, Hrun.
  set (new := match current with None => true | Some _ => false end) in *.
  set (pool := merged_pool old new rec) in *.
  exists (with_raw_tcbs pool (track rec (pp_raw_tcbs pool))).
  set (pool' := with_raw_tcbs pool _) in *.
  rewrite puts_app, apply_batch_app in Hrun. set (m1 := apply_batch (puts R) _) in Hrun.
  destruct (two_rows m1 rec w (pool_key pool') v) as (R1 & R2 & R3);
    [apply not_eq_sym, pckcert_not_platform|]. rewrite <- Hrun in R1, R2, R3.
  rewrite Ew, Ev. split_and!; [done|done|apply track_self|apply upsert_first_new| | |done|done|].
  - intros c Hc Hne. by apply upsert_first_elem.
  - intros [p Ep]. unfold pool', pool, new, old. by rewrite Ep.
  - intros Hc HN Hcol.
    assert (Hnames : same_text (pc_qeid rec) (pp_qe_id old) ∧ same_text (pc_pceid rec) (pp_pce_id old)).
    { unfold old. destruct current as [p|] eqn:Ep; [|done].
      destruct (get_platform_pool_names _ _ _ _ Ep). split; by symmetry. }
    destruct Hnames as [Hq Hp].
    apply (track_coherent m1 _ pool (with_credentials rec pool') w); try done.
    + by apply (refresh_coherent s pool rec R).
    + intros q p c e Hne. apply R3; [apply pckcert_not_platform|done].
Qed.

(** *** The publication guard *)

(** What a response may be published under. *)
Definition publication_allowed (current : option PlatformPool) (publication : PlatformPublication) : Prop :=
  match publication with
  | Observed expected => credentials <$> current = expected
  | AbsentGet ppid manifest =>
      ∀ pool, current = Some pool →
        same_text (pp_enc_ppid pool) ppid ∧ pp_platform_manifest pool = manifest
  end.

Lemma publication_spec current publication :
  check_platform_publication current publication = Ok () ∧ publication_allowed current publication ∨
  check_platform_publication current publication = Err NO_CACHE_DATA ∧
    ¬ publication_allowed current publication.
Proof.
  unfold check_platform_publication, publication_allowed. destruct publication as [expected|ppid manifest].
  - case_bool_decide; [by left|by right].
  - destruct current as [pool|]; [|by left].
    destruct (eq_ic _ _ && _) eqn:E; [left|right]; (split; [done|]).
    + bool_to_prop. rewrite eq_ic_spec in *. by intros ? [= <-].
    + intros Ha. destruct (Ha pool eq_refl) as [H1' H2']. apply eq_ic_spec in H1'.
      rewrite H1', H2', String.eqb_refl in E. done.
Qed.

(** C31: A response fetched under credentials that are no longer the
    platform's is never published: both publications answer 404 and leave
    the store as it was.  More generally a publication that fails at any
    step, selection, serialization or the write, changes nothing. *)
Theorem stale_publication_rejected (s : Store D) fresh publication (tcbs : list (TcbRecord V)) selected select rec :
  (¬ publication_allowed (get_platform_pool s (pp_qe_id fresh) (pp_pce_id fresh)) publication →
     replace_platform_certs_after_fetch fresh publication tcbs selected select s = (s, Err NO_CACHE_DATA)) ∧
  (¬ publication_allowed (get_platform_pool s (pc_qeid rec) (pc_pceid rec)) publication →
     merge_pckcert_after_fetch rec publication s = (s, Err NO_CACHE_DATA)) ∧
  (∀ s' e, replace_platform_certs_after_fetch fresh publication tcbs selected select s = (s', Err e) → s' = s) ∧
  (∀ s' e, merge_pckcert_after_fetch rec publication s = (s', Err e) → s' = s).
Proof.
  unfold replace_platform_certs_after_fetch, merge_pckcert_after_fetch, read, pure, inspect, mbind, M_bind.
  split_and!.
  - intros Hn. destruct (publication_spec (get_platform_pool s (pp_qe_id fresh) (pp_pce_id fresh)) publication)
      as [[_ ?]|[-> _]]; done.
  - intros Hn. destruct (publication_spec (get_platform_pool s (pc_qeid rec) (pc_pceid rec)) publication)
      as [[_ ?]|[-> _]]; done.
  - intros s' e. destruct (check_platform_publication _ _); [|by intros [= <- _]].
    destruct (replacement_batch _ _ _ _ _); [apply write_batch_failed|by intros [= <- _]].
  - intros s' e. destruct (check_platform_publication _ _); [|by intros [= <- _]].
    destruct (merge_batch _ _ _); [apply write_batch_failed|by intros [= <- _]].
Qed.
End publish.

(** ** Concrete runs *)

Module PoolSample.
Import MapDb Codec Concrete.

Definition sample_pool : PlatformPool :=
  {| pp_qe_id := "Q1"; pp_pce_id := "0000"; pp_enc_ppid := "AB"; pp_platform_manifest := "";
     pp_fmspc := "00606A"; pp_ca := "PLATFORM"; pp_issuer_chain := "old";
     pp_certs := [{| plc_tcbm := "010D00"; plc_cert := "older" |}];
     pp_raw_tcbs := [{| rt_cpu_svn := "0A"; rt_pce_svn := "0D00"; rt_tcbm := "0A0D00" |}] |}.

(** The sample platform with its one level served. *)
Definition pool_store : Store (gmap string string) :=
  fst (put_pckcert sample_rec (fst (put_platform_pool sample_pool (mkStore ∅ 0 1)))).

Definition select_sample (_ : PlatformPool) (raw : RawTcb) : res PckCertRecord :=
  if String.eqb (rt_cpu_svn raw) "0A" then Ok sample_rec else Err NO_CACHE_DATA.

Definition current_creds : option PlatformCredentials := Some (credentials sample_pool).

Definition run_replace : Store (gmap string string) * res unit :=
  replace_platform_certs_after_fetch (V := unit) sample_pool (Observed current_creds) [] (Some sample_rec)
    select_sample pool_store.
Definition run_select : Store (gmap string string) * res PckCertRecord :=
  select_platform_cert "q1" "0000" true (λ _, Ok sample_rec) pool_store.
Definition run_merge : Store (gmap string string) * res unit :=
  merge_pckcert_after_fetch sample_rec (AbsentGet "ab" "") pool_store.
End PoolSample.

Import MapDb Codec Concrete PoolSample.

(** A run, given by its final store and its answer. *)
Lemma run_eq {A B} (x : A * B) b : snd x = b → x = (fst x, b).
Proof. by destruct x; intros <-. Qed.

Lemma run_replace_ok :
  replace_platform_certs_after_fetch (V := unit) sample_pool (Observed current_creds) [] (Some sample_rec)
    select_sample pool_store = (fst run_replace, Ok ()).
Proof. apply run_eq. vm_compute. reflexivity. Qed.

Lemma sample_prev :
  pp_raw_tcbs <$> get_platform_pool pool_store (pp_qe_id sample_pool) (pp_pce_id sample_pool) =
  Some (pp_raw_tcbs sample_pool).
Proof. vm_compute. reflexivity. Qed.

Lemma sample_answers raw rec :
  raw ∈ pp_raw_tcbs sample_pool → select_sample sample_pool raw = Ok rec → answers "Q1" "0000" raw rec.
Proof. intros ->%list_elem_of_singleton [= <-]. by split_and!. Qed.

Lemma sample_level raw : raw ∈ pp_raw_tcbs sample_pool → same_level raw (raw_of sample_rec) = true.
Proof. intros ->%list_elem_of_singleton. done. Qed.

Lemma replace_coherent_witness :
  ∃ raws, coherent (content (db (fst run_replace))) (with_raw_tcbs sample_pool raws) ∧
    raw_of sample_rec ∈ raws.
Proof.
  destruct (replace_coherent (V := unit) pool_store (fst run_replace) sample_pool (Observed current_creds) []
    (Some sample_rec) select_sample run_replace_ok) as (raws & _ & Hc & _ & Hs & _).
  - rewrite sample_prev. apply NoDup_singleton.
  - rewrite sample_prev. exact sample_answers.
  - rewrite sample_prev. intros rec [= <-]. split; [reflexivity|]. split; [reflexivity|].
    intros raw Hraw _. exact (sample_level raw Hraw).
  - exists raws. split; [exact Hc|]. exact (proj1 (Hs sample_rec eq_refl)).
Defined.

Lemma run_select_ok :
  select_platform_cert "q1" "0000" true (λ _, Ok sample_rec) pool_store = (fst run_select, Ok sample_rec).
Proof. apply run_eq. vm_compute. reflexivity. Qed.

Lemma select_platform_cert_correct_witness :
  content (db (fst run_select)) !! rec_key sample_rec = to_vec sample_rec.
Proof.
  destruct (select_platform_cert_correct pool_store (fst run_select) "q1" "0000" true
    (λ _, Ok sample_rec) (Ok sample_rec) run_select_ok) as (pool & _ & _ & _ & Hr & _). exact Hr.
Defined.

Lemma run_merge_ok :
  merge_pckcert_after_fetch sample_rec (AbsentGet "ab" "") pool_store = (fst run_merge, Ok ()).
Proof. apply run_eq. vm_compute. reflexivity. Qed.

Lemma merge_pckcert_correct_witness :
  ∃ pool, content (db (fst run_merge)) !! pool_key pool = to_vec pool ∧ raw_of sample_rec ∈ pp_raw_tcbs pool.
Proof.
  destruct (merge_pckcert_correct pool_store (fst run_merge) sample_rec (AbsentGet "ab" "") run_merge_ok)
    as (pool & Hp & _ & Hr & _). exists pool. split; [exact Hp|exact Hr].
Defined.

Lemma stale_publication_rejected_witness :
  merge_pckcert_after_fetch sample_rec (AbsentGet "cd" "") pool_store = (pool_store, Err NO_CACHE_DATA).
Proof.
  refine (proj1 (proj2 (stale_publication_rejected (V := unit) pool_store sample_pool (AbsentGet "cd" "") []
    None select_sample sample_rec)) _).
  intros Ha. specialize (Ha sample_pool). destruct Ha as [Ht _]; [vm_compute; reflexivity|].
  vm_compute in Ht. discriminate.
Defined.
