(* ===== verification/Registry.v ===== *)
(** * Registry: the registration queue and the appraisal policies
    (src/src/store.rs)

    Platforms waiting for their certificates are queued under [preg/] and
    drained by state; the policies of an fmspc are one list under
    [appraisal/], at most one of them the default.  Each operation runs under
    its own lock, so it is one step of the store monad. *)

From Stdlib Require Import ZArith Lia.
From stdpp Require Import base list strings option gmap.
From S2P Require Import Prelude Text Errors Validate Env Keys Database Fifo FifoSpec Records Platforms.

Local Open Scope Z_scope.
Local Open Scope rust_scope.
#[local] Set Default Proof Using "Type*".

Section registry.
Context {D V : Type} `{Database D} `{Json V} `{Base64} `{Sha2}.
Context `{Serde RegisteredPlatform} `{Serde AppraisalList}.

(** *** The registration queue *)

Definition normalize_reg (p : RegisteredPlatform) : RegisteredPlatform :=
  {| rp_qe_id := to_upper (rp_qe_id p); rp_pce_id := to_upper (rp_pce_id p);
     rp_cpu_svn := to_upper (rp_cpu_svn p); rp_pce_svn := to_upper (rp_pce_svn p);
     rp_enc_ppid := to_upper (rp_enc_ppid p); rp_platform_manifest := rp_platform_manifest p;
     rp_state := rp_state p |}.

Definition reg_key (p : RegisteredPlatform) : string :=
  preg (rp_qe_id p) (rp_pce_id p) (rp_cpu_svn p) (rp_pce_svn p).

Definition register_platform (p : RegisteredPlatform) : M D unit :=
  let p := normalize_reg p in put_json (reg_key p) p.

Definition delete_registered (p : RegisteredPlatform) : M D unit :=
  write_batch [BDelete (preg (to_upper (rp_qe_id p)) (to_upper (rp_pce_id p))
                             (to_upper (rp_cpu_svn p)) (to_upper (rp_pce_svn p)))].

(** The scan of [take_registered]: what is taken, and the deletes. *)
Fixpoint take_items (state : Z) (items : list (string * string)) : list RegisteredPlatform * batch :=
  match items with
  | [] => ([], [])
  | (k, v) :: items' =>
      let '(take, b) := take_items state items' in
      match from_slice v with
      | Some p => if rp_state p =? state then (p :: take, BDelete k :: b) else (take, b)
      | None => (take, b)
      end
  end.

Definition take_registered (state : Z) : M D (list RegisteredPlatform) :=
  items ← read (λ s, scan_prefix s PREG);
  let '(take, b) := take_items state items in
  _ ← write_batch b;
  mret take.

(** *** Appraisal policies *)

Definition sha384_hex (s : string) : string := hex_encode (sha384 (bytes s)).

(** Clear the other defaults when the entry is one, then replace by id or
    append. *)
Definition upsert_policy (entry : AppraisalPolicy) (l : list AppraisalPolicy) : list AppraisalPolicy :=
  let l := if pol_is_default entry then
             map (λ p, {| pol_id := pol_id p; pol_fmspc := pol_fmspc p; pol_is_default := false;
                          pol_policy := pol_policy p; pol_type := pol_type p |}) l
           else l in
  upsert_first (λ p, String.eqb (pol_id p) (pol_id entry)) (λ _, entry) entry l.

Definition policy_list (s : Store D) (key : string) : list AppraisalPolicy :=
  default [] (policies <$> get_json s key).

Definition put_appraisal_policy (body : V) : M D string :=
  reg ← pure (appraisal_policy body);
  let id := sha384_hex (ap_policy reg) in
  let key := appraisal (ap_fmspc reg) in
  l ← read (λ s, policy_list s key);
  let entry := {| pol_id := id; pol_fmspc := ap_fmspc reg; pol_is_default := ap_is_default reg;
                  pol_policy := ap_policy reg; pol_type := ap_policy_type reg |} in
  _ ← put_json key {| policies := upsert_policy entry l |};
  mret id.

Definition upsert_appraisal_policy_raw (fmspc policy : string) (is_default : bool) : M D unit :=
  let fmspc := to_upper fmspc in
  let key := appraisal fmspc in
  l ← read (λ s, policy_list s key);
  let entry := {| pol_id := sha384_hex policy; pol_fmspc := fmspc; pol_is_default := is_default;
                  pol_policy := policy; pol_type := 0 |} in
  ignore_result (put_json key {| policies := upsert_policy entry l |}).

Definition get_default_policies (s : Store D) (fmspc : string) : res string :=
  l ← ok_or (get_json s (appraisal fmspc)) NO_CACHE_DATA;
  let defaults := map pol_policy (List.filter pol_is_default (policies l)) in
  match defaults with
  | [] => Err NO_CACHE_DATA
  | _ => Ok (str_join "," defaults)
  end.
End registry.

(** ** Draining the queue *)

(** Every queued row is under a key the service makes. *)
Definition reg_keys_made (m : gmap string string) : Prop :=
  ∀ k, starts_with PREG k = true → is_Some (m !! k) → ∃ q p c e, k = preg q p c e.

Lemma preg_lossy q p c e : of_bytes (utf8_lossy (bytes (preg q p c e))) = preg q p c e.
Proof. by rewrite utf8_lossy_valid, of_bytes_bytes by (apply ascii_utf8_valid, preg_ascii). Qed.

Lemma reg_key_normalize p : reg_key (normalize_reg p) = reg_key p.
Proof. apply preg_ic; apply to_upper_same. Qed.

Lemma reg_key_made p : starts_with PREG (reg_key p) = true.
Proof. apply starts_with_app. Qed.

Section scan.
Context {D : Type} `{DatabaseLaws D}.

Lemma scan_items_rows p rows rest :
  Forall (λ kv, starts_with p kv.1 = true ∧ of_bytes (utf8_lossy (bytes kv.1)) = kv.1) rows →
  Forall (λ kv, starts_with p kv.1 = false) rest →
  scan_items p (map Ok (rows ++ rest)) = rows.
Proof.
  intros Hr Hn. induction Hr as [|[k v] rows [Hk Hl] _ IH]; cbn [map app scan_items].
  - destruct rest as [|[k v] rest]; [done|]. apply list.Forall_cons in Hn as [Hk _].
    cbn [map scan_items fst] in *. by rewrite Hk.
  - cbn [fst] in Hk, Hl. by rewrite Hk, Hl, IH.
Qed.

(** On a database whose operations succeed, a scan returns each row of the
    prefix once. *)
Lemma scan_prefix_rows (s : Store D) p :
  healthy (db s) →
  (∀ k, starts_with p k = true → is_Some (content (db s) !! k) → of_bytes (utf8_lossy (bytes k)) = k) →
  scan_prefix s p ≡ₚ filter (λ kv, starts_with p kv.1 = true) (map_to_list (content (db s))) ∧
  NoDup (scan_prefix s p).*1.
Proof.
  intros Hh Hl. destruct (healthy_entries (db s) p Hh) as (full & Efull & Hent).
  destruct (prefix_rows _ _ _ Hent) as (rows & rest & -> & HN & Hrows & Hrest & Hall).
  assert (Hscan : scan_prefix s p = rows).
  { unfold scan_prefix. rewrite Efull. apply scan_items_rows; [|done].
    eapply list.Forall_impl; [exact Hrows|]. intros [k v] [Hk Hv]. split; [done|]. apply Hl; [done|by eexists]. }
  rewrite Hscan. split; [|done]. apply NoDup_Permutation.
  - by eapply NoDup_fmap_1.
  - eapply sublist_NoDup; [apply NoDup_map_to_list|apply sublist_filter].
  - intros [k v]. rewrite list_elem_of_filter, elem_of_map_to_list. cbn. split.
    + intros Hin. rewrite list.Forall_forall in Hrows. by apply (Hrows (k, v)).
    + intros [Hk Hv]. by apply Hall.
Qed.
End scan.

Section queue.
Context {D : Type} `{DatabaseLaws D} `{SerdeLaws RegisteredPlatform}.

(** The queued platforms of a state, one per row. *)
Definition queued (state : Z) (v : string) : option RegisteredPlatform :=
  match from_slice v with
  | Some p => if rp_state p =? state then Some p else None
  | None => None
  end.

Definition registered (state : Z) (m : gmap string string) : list RegisteredPlatform :=
  omap (λ kv, queued state kv.2) (filter (λ kv, starts_with PREG kv.1 = true) (map_to_list m)).

Lemma take_items_spec state items :
  take_items state items =
    (omap (λ kv, queued state kv.2) items,
     map BDelete (filter (λ kv, is_Some (queued state kv.2)) items).*1).
Proof.
  unfold queued. induction items as [|[k v] items IH]; [done|]. cbn [take_items]. rewrite IH, filter_cons.
  cbn [fst snd omap list_omap]. destruct (from_slice v) as [p|]; [destruct (rp_state p =? state)|].
  - by rewrite decide_True by by eexists.
  - by rewrite decide_False by by intros [].
  - by rewrite decide_False by by intros [].
Qed.

(** Draining the registration queue, on a database whose operations
    succeed, returns every queued platform of the state exactly once and
    removes exactly those rows: no registration is dropped without being
    returned, and rows of another state, unparsable rows and other kinds
    stay. *)
Theorem take_registered_drains (s : Store D) state :
  healthy (db s) → reg_keys_made (content (db s)) →
  ∃ s' l, take_registered state s = (s', Ok l) ∧
    l ≡ₚ registered state (content (db s)) ∧
    (∀ k, content (db s') !! k =
       match content (db s) !! k with
       | Some v => if starts_with PREG k && bool_decide (is_Some (queued state v)) then None else Some v
       | None => None
       end).
Proof.
  intros Hh Hk. unfold take_registered, read, mbind, M_bind, mret, M_ret. rewrite take_items_spec.
  destruct (scan_prefix_rows s PREG Hh) as [Hperm HN].
  { intros k Hs Hi. destruct (Hk k Hs Hi) as (q & p & c & e & ->). apply preg_lossy. }
  set (items := scan_prefix s PREG) in *. set (ks := (filter _ items).*1).
  destruct (healthy_write s (map BDelete ks) Hh) as (s' & -> & Ec & _).
  eexists _, _. split; [done|]. split; [by rewrite Hperm|]. intros k.
  rewrite Ec, apply_batch_lookup, batch_lookup_deletes.
  assert (Hks : k ∈ ks ↔ ∃ v, content (db s) !! k = Some v ∧ starts_with PREG k = true ∧ is_Some (queued state v)).
  { unfold ks. rewrite list_elem_of_fmap. split.
    - intros ([k' v] & -> & [Hq Hin]%list_elem_of_filter). rewrite Hperm in Hin.
      apply list_elem_of_filter in Hin as [Hs Hin%elem_of_map_to_list]. by exists v.
    - intros (v & Ev & Hs & Hq). exists (k, v). split; [done|]. apply list_elem_of_filter. split; [done|].
      rewrite Hperm. apply list_elem_of_filter. split; [done|]. by apply elem_of_map_to_list. }
  destruct (decide (k ∈ ks)) as [Hin|Hn].
  - apply Hks in Hin as (v & -> & -> & Hq). by rewrite bool_decide_eq_true_2.
  - destruct (content (db s) !! k) as [v|] eqn:Ev; [|done].
    destruct (starts_with PREG k) eqn:Es; [|done]. cbn [andb].
    rewrite bool_decide_eq_false_2; [done|]. intros Hq. apply Hn, Hks. by exists v.
Qed.

Lemma preg_reg_key_made p : ∃ q pe c e, reg_key p = preg q pe c e.
Proof. by eexists _, _, _, _. Qed.

(** A registered platform, normalized to upper case, is in the queue of
    its state until it is drained, whatever the letter case it was
    registered with: registering it again under other casing replaces its
    row, and deleting it removes that row only. *)
Theorem register_platform_queued (s s' : Store D) p :
  register_platform p s = (s', Ok ()) → reg_keys_made (content (db s)) →
  reg_keys_made (content (db s')) ∧
  normalize_reg p ∈ registered (rp_state p) (content (db s')) ∧
  (∀ k, k ≠ reg_key p → content (db s') !! k = content (db s) !! k) ∧
  (∀ s'', delete_registered p s' = (s'', Ok ()) →
     content (db s'') = delete (reg_key p) (content (db s))).
Proof.
  intros Hrun Hmade. pose proof (reg_key_normalize p) as Ekey.
  unfold register_platform in Hrun. cbn zeta in Hrun. rewrite Ekey in Hrun.
  apply put_json_content in Hrun as (bytes & Eb & Ec). split_and!.
  - intros k Hs. rewrite Ec. destruct (decide (k = reg_key p)) as [->|Hne].
    + intros _. apply preg_reg_key_made.
    + rewrite lookup_insert_ne by done. by apply Hmade.
  - unfold registered. apply list_elem_of_omap. exists (reg_key p, bytes). split.
    + apply list_elem_of_filter. split; [apply reg_key_made|].
      apply elem_of_map_to_list. by rewrite Ec, lookup_insert_eq.
    + unfold queued. cbn [snd]. rewrite (serde_roundtrip _ _ Eb). cbn [normalize_reg rp_state].
      by rewrite Z.eqb_refl.
  - intros k Hne. by rewrite Ec, lookup_insert_ne.
  - intros s'' Hd. apply write_batch_ok in Hd. rewrite Hd, Ec. cbn [apply_batch fold_left apply_op].
    fold (reg_key (normalize_reg p)). change (preg (to_upper (rp_qe_id p)) (to_upper (rp_pce_id p))
      (to_upper (rp_cpu_svn p)) (to_upper (rp_pce_svn p))) with (reg_key (normalize_reg p)).
    rewrite Ekey. apply delete_insert_eq.
Qed.
End queue.

(** ** Appraisal policies *)

Definition default_policies (l : list AppraisalPolicy) : list AppraisalPolicy :=
  List.filter pol_is_default l.

(** A stored list: ids are unique and at most one policy is the default. *)
Record wf_policies (l : list AppraisalPolicy) : Prop := {
  wfp_ids : NoDup (map pol_id l);
  wfp_default : (length (default_policies l) <= 1)%nat
}.

Definition cleared (l : list AppraisalPolicy) : list AppraisalPolicy :=
  map (λ p, {| pol_id := pol_id p; pol_fmspc := pol_fmspc p; pol_is_default := false;
               pol_policy := pol_policy p; pol_type := pol_type p |}) l.

Lemma cleared_defaults l : default_policies (cleared l) = [].
Proof. induction l as [|p l IH]; [done|]. exact IH. Qed.

Lemma cleared_ids l : map pol_id (cleared l) = map pol_id l.
Proof. unfold cleared. rewrite map_map. by apply map_ext. Qed.

(** Replace by id or append. *)
Definition replace_policy (entry : AppraisalPolicy) (l : list AppraisalPolicy) : list AppraisalPolicy :=
  upsert_first (λ p, String.eqb (pol_id p) (pol_id entry)) (λ _, entry) entry l.

Lemma replace_policy_ids entry l :
  map pol_id (replace_policy entry l) =
    if existsb (λ p, String.eqb (pol_id p) (pol_id entry)) l then map pol_id l
    else map pol_id l ++ [pol_id entry].
Proof.
  unfold replace_policy. induction l as [|p l IH]; [done|]. cbn [upsert_first existsb].
  destruct (String.eqb_spec (pol_id p) (pol_id entry)) as [E|]; cbn [map orb]; [by rewrite E|].
  rewrite IH. by destruct (existsb _ _).
Qed.

Lemma replace_policy_NoDup entry l : NoDup (map pol_id l) → NoDup (map pol_id (replace_policy entry l)).
Proof.
  intros HN. rewrite replace_policy_ids. destruct (existsb _ _) eqn:E; [done|].
  apply NoDup_app. split_and!; [done| |apply NoDup_singleton].
  intros i Hi ->%list_elem_of_singleton. apply list_elem_of_fmap in Hi as (p & Ep & Hp).
  assert (existsb (λ p, String.eqb (pol_id p) (pol_id entry)) l = true); [|congruence].
  apply existsb_exists. exists p. split; [by apply list_elem_of_In|]. rewrite Ep. apply String.eqb_refl.
Qed.

(** With unique ids, replacing drops the old policy of that id, and only it. *)
Lemma replace_policy_defaults entry l :
  NoDup (map pol_id l) →
  default_policies (replace_policy entry l) ≡ₚ
    (if pol_is_default entry then [entry] else []) ++
    List.filter (λ p, negb (String.eqb (pol_id p) (pol_id entry))) (default_policies l).
Proof.
  unfold replace_policy, default_policies. induction l as [|p l IH]; intros HN.
  - cbn. by destruct (pol_is_default entry).
  - cbn [map] in HN. apply NoDup_cons in HN as [Hp HN]. cbn [upsert_first].
    destruct (String.eqb_spec (pol_id p) (pol_id entry)) as [E|Hne].
    + assert (Hsame : List.filter (λ p, negb (String.eqb (pol_id p) (pol_id entry))) (List.filter pol_is_default l) =
        List.filter pol_is_default l).
      { apply forallb_filter_id, forallb_forall. intros x [Hx _]%filter_In.
        destruct (String.eqb_spec (pol_id x) (pol_id entry)) as [Ex|]; [exfalso|done].
        apply Hp. rewrite E, <- Ex. apply list_elem_of_fmap. exists x. split; [done|]. by apply list_elem_of_In. }
      cbn [List.filter]. destruct (pol_is_default p); cbn [List.filter]; rewrite ?E, ?String.eqb_refl; cbn [negb];
        rewrite Hsame; by destruct (pol_is_default entry).
    + specialize (IH HN). cbn [List.filter]. destruct (pol_is_default p); [|done].
      cbn [List.filter]. rewrite (proj2 (String.eqb_neq _ _)) by done. cbn [negb]. rewrite IH.
      apply Permutation_middle.
Qed.

Lemma upsert_policy_unfold entry l :
  upsert_policy entry l = replace_policy entry (if pol_is_default entry then cleared l else l).
Proof. done. Qed.

(** The list after an upsert: still well formed, and its default is the new
    entry when that is one. *)
Lemma upsert_policy_wf entry l :
  wf_policies l →
  wf_policies (upsert_policy entry l) ∧
  (pol_is_default entry = true → default_policies (upsert_policy entry l) = [entry]) ∧
  (pol_is_default entry = false →
     default_policies (upsert_policy entry l) ≡ₚ
       List.filter (λ p, negb (String.eqb (pol_id p) (pol_id entry))) (default_policies l)).
Proof.
  intros [HN Hd]. rewrite upsert_policy_unfold. destruct (pol_is_default entry) eqn:E.
  - assert (HN' : NoDup (map pol_id (cleared l))) by (by rewrite cleared_ids).
    pose proof (replace_policy_defaults entry _ HN') as Hp. rewrite cleared_defaults, E in Hp.
    cbn [List.filter app] in Hp. apply Permutation_singleton_r in Hp.
    split_and!; [split; [by apply replace_policy_NoDup|by rewrite Hp]|done|done].
  - pose proof (replace_policy_defaults entry _ HN) as Hp. rewrite E in Hp. cbn [app] in Hp.
    split_and!; [split; [by apply replace_policy_NoDup|]|done|done].
    rewrite Hp. etrans; [apply filter_length_le|done].
Qed.

Section appraisal.
Context {D V : Type} `{DatabaseLaws D} `{Json V} `{Base64} `{Sha2} `{SerdeLaws AppraisalList}.

Lemma policy_list_content (s : Store D) key v :
  db_get (db s) key = Ok v →
  policy_list s key = default [] (policies <$> (content (db s) !! key ≫= from_slice)).
Proof. intros E. unfold policy_list. by rewrite <- (read_json_content s key v E). Qed.

(** C36: Putting an appraisal policy keeps the policies of its fmspc well
    formed: ids unique and at most one default.  Putting a default makes it
    the one policy served for that fmspc, under any letter case; putting
    another one leaves the served policies as they were, but for an earlier
    version of the same policy. *)
Theorem put_appraisal_policy_default (s s' : Store D) body id :
  put_appraisal_policy body s = (s', Ok id) →
  (∀ k, ∃ v, db_get (db s) k = Ok v) → (∀ k, ∃ v, db_get (db s') k = Ok v) →
  ∃ reg, appraisal_policy body = Ok reg ∧ id = sha384_hex (ap_policy reg) ∧
    let key := appraisal (ap_fmspc reg) in
    (wf_policies (policy_list s key) →
       wf_policies (policy_list s' key) ∧
       (ap_is_default reg = true →
          ∀ f, same_text f (ap_fmspc reg) → get_default_policies s' f = Ok (ap_policy reg)) ∧
       (ap_is_default reg = false →
          default_policies (policy_list s' key) ≡ₚ
            List.filter (λ p, negb (String.eqb (pol_id p) id)) (default_policies (policy_list s key)))) ∧
    (∀ k, k ≠ key → content (db s') !! k = content (db s) !! k).
Proof.
  unfold put_appraisal_policy, pure, read, mbind, M_bind, mret, M_ret. intros Hrun Hs Hs'.
  destruct (appraisal_policy body) as [reg|]; [|done].
  set (key := appraisal (ap_fmspc reg)) in *. set (entry := Build_AppraisalPolicy _ _ _ _ _) in Hrun.
  destruct (put_json key _ s) as [s1 [[]|]] eqn:Ep; [|done]. injection Hrun as <- <-.
  exists reg. split; [done|]. split; [done|]. cbn zeta. fold key.
  apply put_json_content in Ep as (bytes & Eb & Ec). split.
  2:{ intros k Hne. by rewrite Ec, lookup_insert_ne. }
  intros Hwf. destruct (Hs' key) as [v' Ev'].
  assert (El : policy_list s1 key = upsert_policy entry (policy_list s key)).
  { rewrite (policy_list_content _ _ _ Ev'), Ec, lookup_insert_eq. cbn [mbind option_bind].
    by rewrite (serde_roundtrip _ _ Eb). }
  destruct (upsert_policy_wf entry _ Hwf) as (Hw & Hd & Hnd). rewrite <- El in Hw, Hd, Hnd.
  split_and!; [done| |done].
  intros Hdef f Hf. unfold get_default_policies. assert (Ekey : appraisal f = key).
  { unfold key, appraisal. apply make_proper; [done|]. by repeat constructor. }
  rewrite Ekey. change (get_json s1 key) with (read_json (A := AppraisalList) s1 key).
  rewrite (read_json_content _ _ _ Ev'), Ec, lookup_insert_eq. cbn [mbind option_bind].
  rewrite (serde_roundtrip _ _ Eb). cbn [ok_or mbind result_bind policies].
  rewrite El in Hd. unfold default_policies in Hd. rewrite Hd by done. done.
Qed.
End appraisal.

(** ** Concrete runs *)

Module RegistrySample.
Import MapDb Codec Concrete.

Definition sample_platform : RegisteredPlatform :=
  {| rp_qe_id := "q1"; rp_pce_id := "0000"; rp_cpu_svn := "0a"; rp_pce_svn := "0d00"; rp_enc_ppid := "ab";
     rp_platform_manifest := ""; rp_state := 0 |}.

Definition empty_store : Store (gmap string string) := mkStore ∅ 0 1.
Definition run_register : Store (gmap string string) * res unit := register_platform sample_platform empty_store.
Definition queue_store : Store (gmap string string) := fst run_register.

(** A JSON reader that knows the two documents of the sample policy. *)
Definition policy_array : jvalue :=
  JObj [("policy_array", JArr [JObj [("environment", JObj [("class_id", JStr CLASS_ID_SGX)])]])].
Definition sample_json : Json jvalue := {|
  jnull := JNull; jget := jget; as_str := as_str; as_i64 := as_i64; as_u64 := as_u64;
  as_bool := as_bool; as_array := as_array; is_object := is_object; is_null := is_null;
  json_parse s := if String.eqb s "a" then Some (JObj [("policy_payload", JStr "b")])
                  else if String.eqb s "b" then Some policy_array else None;
  json_print := json_print; json_string := json_string; json_object := json_object
|}.

Definition sample_policy : jvalue :=
  JObj [("is_default", JBool true); ("fmspc", JStr "00606a000000"); ("policy", JStr "h.YQ.s")].

Definition run_policy : Store (gmap string string) * res string :=
  put_appraisal_policy (H0 := sample_json) sample_policy empty_store.
End RegistrySample.

Import MapDb Codec Concrete FifoSpec.Sample RegistrySample.

Lemma run_register_ok : register_platform sample_platform empty_store = (queue_store, Ok ()).
Proof. apply run_eq. vm_compute. reflexivity. Qed.

Lemma register_content `{DatabaseLaws D} `{SerdeLaws RegisteredPlatform} (s s' : Store D) p :
  register_platform p s = (s', Ok ()) →
  ∃ v, content (db s') = <[reg_key p := v]> (content (db s)).
Proof.
  unfold register_platform. cbn zeta. rewrite reg_key_normalize.
  intros (v & _ & Ec)%put_json_content. by exists v.
Qed.

Lemma queue_made : reg_keys_made (content (db queue_store)).
Proof.
  destruct (register_content _ _ _ run_register_ok) as [v ->]. intros k Hs [w Hw].
  apply lookup_insert_Some in Hw as [[<- _]|[_ Hw]]; [apply preg_reg_key_made|done].
Qed.

Lemma take_registered_drains_witness :
  ∃ s' l, take_registered 0 queue_store = (s', Ok l) ∧ l ≡ₚ [normalize_reg sample_platform].
Proof.
  destruct (take_registered_drains queue_store 0) as (s' & l & E & Hl & _).
  - apply map_healthy.
  - exact queue_made.
  - exists s', l. split; [exact E|]. rewrite Hl. vm_compute. reflexivity.
Defined.

Lemma register_platform_queued_witness :
  normalize_reg sample_platform ∈ registered 0 (content (db queue_store)).
Proof.
  refine (proj1 (proj2 (register_platform_queued empty_store queue_store sample_platform run_register_ok _))).
  intros k _ [v Hv]. discriminate.
Defined.

Lemma run_policy_ok :
  put_appraisal_policy (H0 := sample_json) sample_policy empty_store =
    (fst run_policy, Ok (sha384_hex "h.YQ.s")).
Proof. apply run_eq. vm_compute. reflexivity. Qed.

Lemma put_appraisal_policy_default_witness :
  get_default_policies (fst run_policy) "00606A000000" = Ok "h.YQ.s"%string.
Proof.
  destruct (put_appraisal_policy_default (H1 := sample_json) empty_store (fst run_policy) sample_policy
    (sha384_hex "h.YQ.s") run_policy_ok) as (reg & Ereg & _ & Hwf & _).
  - intros k. by eexists.
  - intros k. by eexists.
  - assert (Er : appraisal_policy (H := sample_json) sample_policy =
      Ok {| ap_is_default := true; ap_fmspc := "00606A000000"; ap_policy := "h.YQ.s"; ap_policy_type := 0 |})
      by (vm_compute; reflexivity).
    rewrite Er in Ereg. injection Ereg as <-. destruct Hwf as (_ & Hdef & _).
    + split; [constructor|]. vm_compute. lia.
    + apply Hdef; reflexivity.
Defined.
