(* ===== verification/Collateral.v ===== *)
(** * Collateral: seeding and [PUT /platformcollateral] (src/src/store.rs)

    Both turn a JSON document into stored records.  Seeding ignores write
    errors.  A collateral upload is validated against its schema first; the
    TCB infos, identities and CRLs are then written one by one, and the
    platform pools and their GET records in one batch at the end. *)

From Stdlib Require Import ZArith Lia.
From stdpp Require Import base list strings option gmap.
From S2P Require Import Prelude Text Errors Validate Env PckCert Selection Keys Database Fifo FifoSpec Records Platforms Registry.

Local Open Scope Z_scope.
Local Open Scope rust_scope.
#[local] Set Default Proof Using "Type*".

Section json_helpers.
Context {V : Type} `{Json V}.

Definition str_or (v : V) (key d : string) : string := default d (get_str v key).

Definition upper (v : V) (key : string) : string := to_upper (str_or v key "").

Fixpoint first_upper (v : V) (keys : list string) : string :=
  match keys with
  | [] => ""
  | k :: keys' => match get_str v k with Some s => to_upper s | None => first_upper v keys' end
  end.

(** [Value::pointer] along object keys *)
Definition pointer (v : V) (path : list string) : option V :=
  fold_left (λ o k, x ← o; jget x k) path (Some v).

Fixpoint first_str (v : V) (paths : list string) : option string :=
  match paths with
  | [] => None
  | p :: paths' =>
      match (if contains_char "." p then pointer v (split "." p) ≫= as_str else get_str v p) with
      | Some s => Some s
      | None => first_str v paths'
      end
  end.

Definition raw_json (v : V) : string := json_print v.

(** [collateral_tcb_info] *)
Definition collateral_tcb_info (tcbinfo : V) (version : Z) : option V :=
  let fields := if version <? 4 then ["tcbinfo_early"; "tcbinfo"] else ["sgx_tcbinfo_early"; "sgx_tcbinfo"] in
  head (omap (λ f, v ← jget tcbinfo f; jget v "tcbInfo") fields).

(** [v.get(k).and_then(|x| x.as_array())], with no elements otherwise *)
Definition items_of (v : V) (key : string) : list V := default [] (get_array v key).
End json_helpers.

Section collateral.
Context {D V : Type} `{Database D} `{Json V} `{Base64} `{Sha2}.
Context `{Serde PckCertRecord} `{Serde PlatformPool} `{Serde (TcbRecord V)} `{Serde (IdentityRecord V)}
  `{Serde PckCrlRecord} `{Serde CrlRecord} `{Serde (list Z)} `{Serde AppraisalList}.

(** *** Seeding *)

Definition seed_pckcert_record (item : V) : PckCertRecord :=
  {| pc_qeid := first_upper item ["qeid"; "qe_id"]; pc_pceid := first_upper item ["pceid"; "pce_id"];
     pc_cpusvn := first_upper item ["cpusvn"; "cpu_svn"]; pc_pcesvn := first_upper item ["pcesvn"; "pce_svn"];
     pc_cert := str_or item "cert" ""; pc_tcbm := upper item "tcbm"; pc_fmspc := upper item "fmspc";
     pc_ca := to_upper (str_or item "ca" "PROCESSOR"); pc_issuer_chain := str_or item "issuer_chain" "";
     pc_encrypted_ppid :=
       (v ← (match jget item "encrypted_ppid" with Some v => Some v | None => jget item "enc_ppid" end);
        s ← as_str v; Some (to_upper s));
     pc_platform_manifest := str_or item "platform_manifest" "" |}.

(** The pool a seeded certificate establishes or extends. *)
Definition seeded_pool (pool : PlatformPool) (rec : PckCertRecord) : PlatformPool :=
  let certs := if negb (String.eqb (pc_tcbm rec) "")
                  && negb (existsb (λ c, String.eqb (plc_tcbm c) (pc_tcbm rec)) (pp_certs pool))
               then pp_certs pool ++ [{| plc_tcbm := pc_tcbm rec; plc_cert := pc_cert rec |}]
               else pp_certs pool in
  let raw := {| rt_cpu_svn := pc_cpusvn rec; rt_pce_svn := pc_pcesvn rec; rt_tcbm := pc_tcbm rec |} in
  let raws := if existsb (λ r, String.eqb (rt_cpu_svn r) (rt_cpu_svn raw)
                               && String.eqb (rt_pce_svn r) (rt_pce_svn raw)) (pp_raw_tcbs pool)
              then pp_raw_tcbs pool else pp_raw_tcbs pool ++ [raw] in
  {| pp_qe_id := pp_qe_id pool; pp_pce_id := pp_pce_id pool; pp_enc_ppid := pp_enc_ppid pool;
     pp_platform_manifest := pp_platform_manifest pool; pp_fmspc := pp_fmspc pool; pp_ca := pp_ca pool;
     pp_issuer_chain := pp_issuer_chain pool; pp_certs := certs; pp_raw_tcbs := raws |}.

Definition upsert_pckcert_from_json (item : V) : M D unit :=
  let rec := seed_pckcert_record item in
  if String.eqb (pc_qeid rec) "" || String.eqb (pc_cpusvn rec) "" || String.eqb (pc_pcesvn rec) ""
     || String.eqb (pc_pceid rec) ""
  then mret ()
  else
    pool ← read (λ s, default
      {| pp_qe_id := pc_qeid rec; pp_pce_id := pc_pceid rec; pp_enc_ppid := default "" (pc_encrypted_ppid rec);
         pp_platform_manifest := pc_platform_manifest rec; pp_fmspc := pc_fmspc rec; pp_ca := pc_ca rec;
         pp_issuer_chain := pc_issuer_chain rec; pp_certs := []; pp_raw_tcbs := [] |}
      (get_platform_pool s (pc_qeid rec) (pc_pceid rec)));
    _ ← ignore_result (put_platform_pool (seeded_pool pool rec));
    ignore_result (put_pckcert rec).

Definition or_blank (old new : string) : string := if String.eqb old "" then new else old.

(** The pool after [upsert_seed_platform]: blanks filled, a level added. *)
Definition filled_pool (pool : PlatformPool) (enc_ppid manifest fmspc cpu_svn pce_svn : string) : PlatformPool :=
  let raws := if negb (String.eqb cpu_svn "") && negb (String.eqb pce_svn "")
                 && negb (existsb (λ r, String.eqb (rt_cpu_svn r) cpu_svn && String.eqb (rt_pce_svn r) pce_svn)
                            (pp_raw_tcbs pool))
              then pp_raw_tcbs pool ++ [{| rt_cpu_svn := cpu_svn; rt_pce_svn := pce_svn; rt_tcbm := "" |}]
              else pp_raw_tcbs pool in
  {| pp_qe_id := pp_qe_id pool; pp_pce_id := pp_pce_id pool;
     pp_enc_ppid := or_blank (pp_enc_ppid pool) enc_ppid;
     pp_platform_manifest := or_blank (pp_platform_manifest pool) manifest;
     pp_fmspc := or_blank (pp_fmspc pool) fmspc; pp_ca := pp_ca pool;
     pp_issuer_chain := pp_issuer_chain pool; pp_certs := pp_certs pool; pp_raw_tcbs := raws |}.

Definition upsert_seed_platform (item : V) : M D unit :=
  let qe_id := first_upper item ["qe_id"; "qeid"] in
  let pce_id := first_upper item ["pce_id"; "pceid"] in
  if String.eqb qe_id "" || String.eqb pce_id "" then mret ()
  else
    pool ← read (λ s, default (default_pool qe_id pce_id) (get_platform_pool s qe_id pce_id));
    ignore_result (put_platform_pool (filled_pool pool
      (first_upper item ["enc_ppid"; "encrypted_ppid"]) (to_upper (str_or item "platform_manifest" ""))
      (upper item "fmspc") (first_upper item ["cpu_svn"; "cpusvn"]) (first_upper item ["pce_svn"; "pcesvn"]))).

Definition seed_tcb_record (item : V) : TcbRecord V :=
  let prod := str_or item "prod_type" "sgx" in
  {| tr_prod_type := if String.eqb prod "tdx" || String.eqb prod "TDX" then 1 else 0;
     tr_fmspc := upper item "fmspc"; tr_version := wrap 32 (default 4 (get_u64 item "version"));
     tr_update_type := to_upper (str_or item "update_type" "STANDARD");
     tr_tcbinfo := default jnull (jget item "tcbinfo");
     tr_raw_body := from_option raw_json "" (jget item "tcbinfo");
     tr_issuer_chain := str_or item "issuer_chain" "" |}.

Definition upsert_tcb_from_json (item : V) : M D unit :=
  if String.eqb (upper item "fmspc") "" then mret () else ignore_result (put_tcb (seed_tcb_record item)).

Definition upsert_identity_from_json (item : V) : M D unit :=
  ignore_result (put_identity
    {| ir_enclave_id := wrap 8 (default 1 (get_u64 item "enclave_id"));
       ir_version := wrap 32 (default 4 (get_u64 item "version"));
       ir_update_type := to_upper (str_or item "update_type" "STANDARD");
       ir_identity := default jnull (jget item "identity");
       ir_raw_body := from_option raw_json "" (jget item "identity");
       ir_issuer_chain := str_or item "issuer_chain" "" |}).

Definition seed_pckcrl (item : V) : M D unit :=
  match hex_decode (str_or item "pckcrl_hex" "") with
  | Some bytes => ignore_result (put_pckcrl
      {| cr_ca := to_upper (str_or item "ca" "PROCESSOR"); cr_pckcrl := bytes;
         cr_issuer_chain := str_or item "issuer_chain" "" |})
  | None => mret ()
  end.

Definition seed_crl (item : V) : M D unit :=
  let uri := str_or item "uri" "" in
  if String.eqb uri "" then mret ()
  else match hex_decode (str_or item "crl_hex" "") with
       | Some bytes => ignore_result (put_crl uri bytes)
       | None => mret ()
       end.

Definition seed_policy (item : V) : M D unit :=
  let fmspc := upper item "fmspc" in
  let policy := str_or item "policy" "" in
  let is_default := default true (get_bool item "is_default") in
  if negb (String.eqb fmspc "") && negb (String.eqb policy "")
  then upsert_appraisal_policy_raw fmspc policy is_default else mret ().

Definition load_seed_value (v : V) : M D unit :=
  _ ← each upsert_pckcert_from_json (items_of v "pckcerts");
  _ ← each upsert_seed_platform (items_of v "platforms");
  _ ← each upsert_tcb_from_json (items_of v "tcbinfo");
  _ ← each upsert_identity_from_json (items_of v "identities");
  _ ← each seed_pckcrl (items_of v "pckcrls");
  _ ← match get_str v "rootcacrl_hex" ≫= hex_decode with
      | Some bytes => ignore_result (put_rootcacrl bytes)
      | None => mret ()
      end;
  _ ← each seed_crl (items_of v "crls");
  each seed_policy (items_of v "appraisal_policies").

(** *** [PUT /platformcollateral] *)

Definition collateral_tcb_fields (version : Z) : list (string * Z * bool) :=
  if version <? 4 then [("tcbinfo", 0, false); ("tcbinfo_early", 0, true)]
  else [("sgx_tcbinfo", 0, false); ("sgx_tcbinfo_early", 0, true);
        ("tdx_tcbinfo", 1, false); ("tdx_tcbinfo_early", 1, true)].

Definition early_name (early : bool) : string := if early then "EARLY" else "STANDARD".

Definition put_collateral_tcb (version : Z) (tcb_issuer fmspc : string) (t : V)
    (entry : string * Z * bool) : M D unit :=
  let '(field, prod, early) := entry in
  match jget t field with
  | None => mret ()
  | Some info => put_tcb
      {| tr_prod_type := prod; tr_fmspc := fmspc; tr_version := version; tr_update_type := early_name early;
         tr_tcbinfo := info; tr_raw_body := raw_json info; tr_issuer_chain := tcb_issuer |}
  end.

Definition put_collateral_tcbs (version : Z) (tcb_issuer : string) (t : V) : M D unit :=
  let fmspc := upper t "fmspc" in
  if String.eqb fmspc "" then mret ()
  else each (put_collateral_tcb version tcb_issuer fmspc t) (collateral_tcb_fields version).

Definition identity_fields : list (string * Z * bool) :=
  [("qeidentity", 1, false); ("qeidentity_early", 1, true); ("qveidentity", 2, false);
   ("qveidentity_early", 2, true); ("tdqeidentity", 3, false); ("tdqeidentity_early", 3, true)].

Definition put_collateral_identity (version : Z) (issuer : string) (collaterals : V)
    (entry : string * Z * bool) : M D unit :=
  let '(field, id, early) := entry in
  match jget collaterals field with
  | None => mret ()
  | Some ident =>
      let '(value, raw_body) := match as_str ident with
                                | Some s => (default ident (json_parse s), s)
                                | None => (ident, raw_json ident)
                                end in
      put_identity {| ir_enclave_id := id; ir_version := version; ir_update_type := early_name early;
                      ir_identity := value; ir_raw_body := raw_body; ir_issuer_chain := issuer |}
  end.

Definition pck_chain (certificates : V) (ca : string) : string :=
  default "" (pointer2 certificates SGX_PCK_CERTIFICATE_ISSUER_CHAIN ca ≫= as_str).

Definition put_collateral_crl (certificates crl : V) (entry : string * string) : M D unit :=
  let '(field, ca) := entry in
  match get_str crl field ≫= hex_decode with
  | Some bytes => put_pckcrl {| cr_ca := ca; cr_pckcrl := bytes; cr_issuer_chain := pck_chain certificates ca |}
  | None => mret ()
  end.

Definition put_collateral_crls (certificates collaterals : V) : M D unit :=
  _ ← match jget collaterals "pckcacrl" with
      | Some crl => each (put_collateral_crl certificates crl)
          [("processorCrl", "PROCESSOR"); ("platformCrl", "PLATFORM")]
      | None => mret ()
      end;
  match get_str collaterals "rootcacrl" ≫= hex_decode with
  | Some bytes =>
      _ ← put_rootcacrl bytes;
      match get_str collaterals "rootcacrl_cdp" with
      | Some cdp => put_crl cdp bytes
      | None => mret ()
      end
  | None => mret ()
  end.

(** The raw levels of an entry: the cached ones, then the request's new. *)
Definition add_level (raws : list (string * string)) (p : V) : list (string * string) :=
  let cpu := first_upper p ["cpu_svn"; "cpusvn"] in
  let pce := first_upper p ["pce_svn"; "pcesvn"] in
  if negb (String.eqb cpu "") && negb (String.eqb pce "") && negb (bool_decide ((cpu, pce) ∈ raws))
  then raws ++ [(cpu, pce)] else raws.

(** The loop that selects a certificate per level. *)
Fixpoint select_levels (pool : PlatformPool) (certs : list (string * string)) (tcb_info : V)
    (raws : list (string * string)) : res (list RawTcb * batch) :=
  match raws with
  | [] => Ok ([], [])
  | (cpu_svn, pce_svn) :: raws' =>
      '(tcbm, cert) ← map_err (select_best_pck_cert cpu_svn pce_svn (pp_pce_id pool) certs tcb_info)
                        (λ _, INVALID_REQ);
      b ← batch_pckcert
        {| pc_qeid := pp_qe_id pool; pc_pceid := pp_pce_id pool; pc_cpusvn := cpu_svn; pc_pcesvn := pce_svn;
           pc_cert := cert; pc_tcbm := tcbm; pc_fmspc := pp_fmspc pool; pc_ca := pp_ca pool;
           pc_issuer_chain := pp_issuer_chain pool; pc_encrypted_ppid := opt_text (pp_enc_ppid pool);
           pc_platform_manifest := pp_platform_manifest pool |};
      '(levels, b') ← select_levels pool certs tcb_info raws';
      Ok ({| rt_cpu_svn := cpu_svn; rt_pce_svn := pce_svn; rt_tcbm := tcbm |} :: levels, b ++ b')
  end.

Definition entry_certs (pc : V) : list (string * string) :=
  map (λ c, (upper c "tcbm", percent_decode (str_or c "cert" ""))) (items_of pc "certs").

(** The pool an entry replaces the platform's with, before its levels. *)
Definition entry_pool (old : PlatformPool) (info : PckCertInfo) (certs : list (string * string))
    (certificates : V) (new_platforms : list V) : PlatformPool :=
  let issuer := let chain := pck_chain certificates (ca info) in
                if String.eqb chain "" then
                  default "" (p ← head new_platforms; get_str p "issuer_chain")
                else chain in
  {| pp_qe_id := pp_qe_id old; pp_pce_id := pp_pce_id old;
     pp_enc_ppid := match new_platforms with
                    | p :: _ => first_upper p ["enc_ppid"; "encrypted_ppid"]
                    | [] => pp_enc_ppid old
                    end;
     pp_platform_manifest := match new_platforms with
                             | p :: _ => to_upper (str_or p "platform_manifest" "")
                             | [] => pp_platform_manifest old
                             end;
     pp_fmspc := PckCert.fmspc info; pp_ca := ca info; pp_issuer_chain := issuer;
     pp_certs := map (λ c, {| plc_tcbm := c.1; plc_cert := c.2 |}) certs;
     pp_raw_tcbs := pp_raw_tcbs old |}.

(** One iteration of the loop over [pck_certs]: the rows it queues. *)
Definition pck_entry (s : Store D) (version : Z) (platforms tcbinfos : list V) (certificates pc : V) :
    res batch :=
  let qe_id := first_upper pc ["qe_id"; "qeid"] in
  let pce_id := first_upper pc ["pce_id"; "pceid"] in
  let certs := entry_certs pc in
  c ← ok_or (head certs) INVALID_REQ;
  info ← map_err (parse_pck_cert c.2) (λ _, INVALID_REQ);
  check negb (String.eqb (PckCert.fmspc info) "" || String.eqb (ca info) "") else INVALID_REQ;
  tcb_info ← ok_or (t ← List.find (λ t, String.eqb (upper t "fmspc") (PckCert.fmspc info)) tcbinfos;
                    collateral_tcb_info t version) INVALID_REQ;
  let new_platforms := List.filter (λ p, String.eqb (first_upper p ["qe_id"; "qeid"]) qe_id
                                       && String.eqb (first_upper p ["pce_id"; "pceid"]) pce_id) platforms in
  let old := default (default_pool qe_id pce_id) (get_platform_pool s qe_id pce_id) in
  let pool := entry_pool old info certs certificates new_platforms in
  let raws := fold_left add_level new_platforms
                (map (λ r, (rt_cpu_svn r, rt_pce_svn r)) (pp_raw_tcbs old)) in
  '(levels, b) ← select_levels
    {| pp_qe_id := qe_id; pp_pce_id := pce_id; pp_enc_ppid := pp_enc_ppid pool;
       pp_platform_manifest := pp_platform_manifest pool; pp_fmspc := pp_fmspc pool; pp_ca := pp_ca pool;
       pp_issuer_chain := pp_issuer_chain pool; pp_certs := pp_certs pool; pp_raw_tcbs := [] |}
    certs tcb_info raws;
  let pool := with_raw_tcbs pool levels in
  bp ← batch_pool pool (platform (pp_qe_id pool) (pp_pce_id pool));
  Ok (b ++ bp).

Definition put_platform_collateral (body : V) (version : Z) : M D unit :=
  _ ← pure (platform_collateral body version);
  platforms ← pure (ok_or (get_array body "platforms") INVALID_REQ);
  let collaterals := default jnull (jget body "collaterals") in
  let certificates := default jnull (jget collaterals "certificates") in
  let tcb_issuer := default "" (first_str certificates
    [tcb_issuer_chain_name version; TCB_INFO_ISSUER_CHAIN; SGX_TCB_INFO_ISSUER_CHAIN]) in
  _ ← each (put_collateral_tcbs version tcb_issuer) (items_of collaterals "tcbinfos");
  let identity_issuer := str_or certificates SGX_ENCLAVE_IDENTITY_ISSUER_CHAIN "" in
  _ ← each (put_collateral_identity version identity_issuer collaterals) identity_fields;
  _ ← put_collateral_crls certificates collaterals;
  b ← inspect (λ s, batch_all
    (pck_entry s version platforms (items_of collaterals "tcbinfos") certificates)
    (items_of collaterals "pck_certs"));
  write_batch b.
End collateral.

(** ** Which rows an operation may change *)

Section frames.
Context {D : Type} `{DatabaseLaws D}.

Definition frames {A} (P : string → Prop) (c : M D A) : Prop :=
  ∀ s s' r k, c s = (s', r) → ¬ P k → content (db s') !! k = content (db s) !! k.

Lemma frames_ret {A} P (a : A) : frames P (mret a : M D A).
Proof. by intros s s' r k [= <- _]. Qed.

Lemma frames_pure {A} P (c : res A) : frames P (pure c : M D A).
Proof. by intros s s' r k [= <- _]. Qed.

Lemma frames_bind {A B} P (c : M D A) (f : A → M D B) :
  frames P c → (∀ a, frames P (f a)) → frames P (c ≫= f).
Proof.
  intros Hc Hf s s' r k. unfold mbind, M_bind. destruct (c s) as [s1 [a|e]] eqn:E.
  - intros Hr Hk. rewrite (Hf a s1 s' r k Hr Hk). by apply (Hc s s1 (Ok a)).
  - intros [= <- _] Hk. by apply (Hc s s1 (Err e)).
Qed.

Lemma frames_each {A} P (f : A → M D unit) l : (∀ a, frames P (f a)) → frames P (each f l).
Proof.
  intros Hf. induction l as [|a l IH]; [apply frames_ret|]. cbn [each]. by apply frames_bind.
Qed.

Lemma frames_put_json `{SerdeLaws A} (P : string → Prop) k (a : A) : P k → frames P (put_json k a : M D unit).
Proof.
  intros Hk s s' [[]|e] q Hrun Hq.
  - apply (put_json_frame _ _ _ _ _ Hrun). by intros ->.
  - by apply put_json_failed in Hrun as [-> _].
Qed.
End frames.

(** The kinds a collateral upload writes row by row. *)
Definition loose_row (k : string) : Prop :=
  ∃ p, p ∈ [TCB; IDENTITY; PCKCRL; ROOTCACRL; CRL] ∧ starts_with p k = true.

Lemma loose_not_platform k : loose_row k → starts_with PLATFORM k = false ∧ starts_with PCKCERT k = false.
Proof.
  assert (Hin : ∀ p, p ∈ [TCB; IDENTITY; PCKCRL; ROOTCACRL; CRL] → p ∈ all_prefixes).
  { intros p. unfold all_prefixes. rewrite !elem_of_cons. tauto. }
  assert (HP : PLATFORM ∈ all_prefixes) by (unfold all_prefixes; do 14 right; by left).
  assert (HC : PCKCERT ∈ all_prefixes) by by left.
  intros (p & Hp & Hk). split; apply not_true_is_false; intros Hk'.
  - assert (p = PLATFORM) as -> by (apply (kind_disjoint p PLATFORM k); auto).
    rewrite !elem_of_cons in Hp. by destruct Hp as [?|[?|[?|[?|[?|?%not_elem_of_nil]]]]].
  - assert (p = PCKCERT) as -> by (apply (kind_disjoint p PCKCERT k); auto).
    rewrite !elem_of_cons in Hp. by destruct Hp as [?|[?|[?|[?|[?|?%not_elem_of_nil]]]]].
Qed.

Section upload.
Context {D V : Type} `{DatabaseLaws D} `{Json V} `{Base64} `{Sha2}.
Context `{SerdeLaws PckCertRecord} `{SerdeLaws PlatformPool} `{SerdeLaws (TcbRecord V)}
  `{SerdeLaws (IdentityRecord V)} `{SerdeLaws PckCrlRecord} `{SerdeLaws CrlRecord} `{SerdeLaws (list Z)}.

Lemma put_collateral_tcbs_frames version issuer (t : V) : frames loose_row (put_collateral_tcbs version issuer t).
Proof.
  unfold put_collateral_tcbs. destruct (String.eqb _ _); [apply frames_ret|]. apply frames_each.
  intros [[field prod] early]. unfold put_collateral_tcb. destruct (jget t field); [|apply frames_ret].
  apply frames_put_json. exists TCB. split; [left|apply starts_with_app].
Qed.

Lemma put_collateral_identity_frames version issuer (c : V) e :
  frames loose_row (put_collateral_identity version issuer c e).
Proof.
  destruct e as [[field id] early]. unfold put_collateral_identity. destruct (jget c field); [|apply frames_ret].
  destruct (match as_str v with Some s => _ | None => _ end) as [value raw].
  apply frames_put_json. exists IDENTITY. split; [right; left|apply starts_with_app].
Qed.

Lemma put_collateral_crls_frames (certs c : V) : frames loose_row (put_collateral_crls certs c).
Proof.
  unfold put_collateral_crls. apply frames_bind.
  - destruct (jget c "pckcacrl"); [|apply frames_ret]. apply frames_each. intros [field ca].
    unfold put_collateral_crl. destruct (_ ≫= _); [|apply frames_ret].
    apply frames_put_json. exists PCKCRL. split; [do 2 right; left|apply starts_with_app].
  - intros _. destruct (_ ≫= _); [|apply frames_ret]. apply frames_bind.
    + apply frames_put_json. exists ROOTCACRL. split; [do 3 right; left|done].
    + intros _. destruct (get_str _ _); [|apply frames_ret].
      apply frames_put_json. exists CRL. split; [do 4 right; left|apply starts_with_app].
Qed.

(** The documents of an upload, as the handler takes them apart. *)
Definition collaterals_of (body : V) : V := default jnull (jget body "collaterals").
Definition certificates_of (body : V) : V := default jnull (jget (collaterals_of body) "certificates").
Definition pck_entries (body : V) : list V := items_of (collaterals_of body) "pck_certs".

(** The writes before the platform batch. *)
Definition loose_stage (body : V) (version : Z) : M D unit :=
  let collaterals := collaterals_of body in
  let certificates := certificates_of body in
  let tcb_issuer := default "" (first_str certificates
    [tcb_issuer_chain_name version; TCB_INFO_ISSUER_CHAIN; SGX_TCB_INFO_ISSUER_CHAIN]) in
  _ ← each (put_collateral_tcbs version tcb_issuer) (items_of collaterals "tcbinfos");
  _ ← each (put_collateral_identity version (str_or certificates SGX_ENCLAVE_IDENTITY_ISSUER_CHAIN "") collaterals)
        identity_fields;
  put_collateral_crls certificates collaterals.

Lemma loose_stage_frames body version : frames loose_row (loose_stage body version).
Proof.
  unfold loose_stage. apply frames_bind; [apply frames_each; intros t; apply put_collateral_tcbs_frames|].
  intros _. apply frames_bind; [apply frames_each; intros e; apply put_collateral_identity_frames|].
  intros _. apply put_collateral_crls_frames.
Qed.

Lemma upload_stages body version (s s' : Store D) r :
  put_platform_collateral body version s = (s', r) →
  (∃ e, r = Err e ∧ s' = s ∧ (platform_collateral body version = Err e ∨ platform_collateral body version = Ok ())) ∨
  ∃ platforms s1 r1, platform_collateral body version = Ok () ∧ get_array body "platforms" = Some platforms ∧
    loose_stage body version s = (s1, r1) ∧
    match r1 with
    | Err e => s' = s1 ∧ r = Err e
    | Ok _ =>
        match batch_all (pck_entry s1 version platforms (items_of (collaterals_of body) "tcbinfos")
                (certificates_of body)) (pck_entries body) with
        | Err e => s' = s1 ∧ r = Err e
        | Ok b => write_batch b s1 = (s', r)
        end
    end.
Proof.
  unfold put_platform_collateral, loose_stage. cbn zeta.
  fold (collaterals_of body). fold (certificates_of body). fold (pck_entries body).
  unfold pure, inspect, mbind, M_bind.
  destruct (platform_collateral body version) as [[]|e]; [|intros [= <- <-]; left; exists e; by auto].
  destruct (get_array body "platforms") as [platforms|]; cbn [ok_or];
    [|intros [= <- <-]; left; eexists; by auto].
  intros Hrun. right.
  destruct (each _ _ s) as [s1 [[]|e]] eqn:E1;
    [|injection Hrun as <- <-; by exists platforms, s1, (Err e)].
  destruct (each _ _ s1) as [s2 [[]|e]] eqn:E2;
    [|injection Hrun as <- <-; by exists platforms, s2, (Err e)].
  destruct (put_collateral_crls _ _ s2) as [s3 [[]|e]] eqn:E3;
    [|injection Hrun as <- <-; by exists platforms, s3, (Err e)].
  exists platforms, s3, (Ok ()). split_and!; [done..|].
  destruct (batch_all _ _) as [b|e]; [done|]. by injection Hrun as <- <-.
Qed.

(** C38: An upload that is answered with an error has published no platform
    and no PCK certificate: every [platform/] and [pckcert/] row is what it
    was, at whatever step it failed.  One that fails its schema has written
    nothing at all. *)
Theorem collateral_failure_publishes_nothing (s s' : Store D) (body : V) version e :
  put_platform_collateral body version s = (s', Err e) →
  (∀ k, starts_with PLATFORM k = true ∨ starts_with PCKCERT k = true →
     content (db s') !! k = content (db s) !! k) ∧
  (platform_collateral body version ≠ Ok () → s' = s ∧ platform_collateral body version = Err e).
Proof.
  intros Hrun. apply upload_stages in Hrun as
    [(e' & [= <-] & -> & Hs)|(platforms & s1 & r1 & Hok & _ & Hloose & Hrest)].
  - split; [done|]. destruct Hs as [->| ->]; [by split|done].
  - split; [|by rewrite Hok]. intros k Hk. assert (Es1 : s' = s1).
    { destruct r1 as [[]|]; [|by destruct Hrest].
      destruct (batch_all _ _) as [b|]; [by apply write_batch_failed in Hrest|by destruct Hrest]. }
    subst s'. apply (loose_stage_frames body version s s1 r1 k Hloose).
    intros [HP HC]%loose_not_platform. destruct Hk; congruence.
Qed.

(** *** What an entry publishes *)

(** The record of a selected level. *)
Definition level_record (pool : PlatformPool) (cpu pce tcbm cert : string) : PckCertRecord :=
  {| pc_qeid := pp_qe_id pool; pc_pceid := pp_pce_id pool; pc_cpusvn := cpu; pc_pcesvn := pce;
     pc_cert := cert; pc_tcbm := tcbm; pc_fmspc := pp_fmspc pool; pc_ca := pp_ca pool;
     pc_issuer_chain := pp_issuer_chain pool; pc_encrypted_ppid := opt_text (pp_enc_ppid pool);
     pc_platform_manifest := pp_platform_manifest pool |}.

(** A selected level with its certificate and the stored bytes. *)
Definition sel_level (pool : PlatformPool) (certs : list (string * string)) (tcb_info : V)
    (x : string * string) (r : RawTcb) (kv : string * string) : Prop :=
  rt_cpu_svn r = x.1 ∧ rt_pce_svn r = x.2 ∧
  ∃ cert, select_best_pck_cert x.1 x.2 (pp_pce_id pool) certs tcb_info = Ok (rt_tcbm r, cert) ∧
    let rec := level_record pool x.1 x.2 (rt_tcbm r) cert in kv.1 = rec_key rec ∧ to_vec rec = Some kv.2.

Lemma select_levels_ok pool certs tcb_info raws levels b :
  select_levels pool certs tcb_info raws = Ok (levels, b) →
  ∃ rows, b = puts rows ∧ Forall3 (sel_level pool certs tcb_info) raws levels rows.
Proof.
  revert levels b. induction raws as [|[cpu pce] raws IH]; intros levels b; cbn [select_levels].
  - intros [= <- <-]. exists []. split; [done|constructor].
  - destruct (select_best_pck_cert cpu pce (pp_pce_id pool) certs tcb_info) as [[tcbm cert]|] eqn:Es;
      [|done]. cbn [map_err mbind result_bind].
    destruct (batch_pckcert _) as [b1|] eqn:Eb; [|done]. cbn [mbind result_bind].
    destruct (select_levels pool certs tcb_info raws) as [[levels' b2]|]; [|done]. cbn [mbind result_bind].
    intros [= <- <-]. apply batch_pckcert_ok in Eb as (v & Ev & ->).
    destruct (IH _ _ eq_refl) as (rows & -> & HF).
    eexists (_ :: rows). split; [reflexivity|]. constructor; [|done].
    split; [done|]. split; [done|]. exists cert. split; [done|]. by split.
Qed.

Lemma select_levels_keys pool certs tcb_info raws levels rows :
  Forall3 (sel_level pool certs tcb_info) raws levels rows →
  rows.*1 = map (level_key (pp_qe_id pool) (pp_pce_id pool)) levels ∧
  map (λ r, (rt_cpu_svn r, rt_pce_svn r)) levels = raws.
Proof.
  induction 1 as [|[cpu pce] r [k v] raws levels rows (E1 & E2 & cert & _ & Ek & _) _ [IH1 IH2]]; [done|].
  cbn in *. rewrite IH1, IH2, E1, E2. split; [|done]. f_equal. by rewrite Ek.
Qed.

(** An entry's rows make its platform coherent, on top of any store. *)
Lemma levels_coherent pool certs tcb_info raws levels rows m v k :
  Forall3 (sel_level pool certs tcb_info) raws levels rows →
  NoDup (map (level_key (pp_qe_id pool) (pp_pce_id pool)) levels) →
  (∀ q p c e, pckcert q p c e ≠ k) →
  ∀ r, r ∈ levels → ∃ w rec,
    apply_batch (puts (rows ++ [(k, v)])) m !! level_key (pp_qe_id pool) (pp_pce_id pool) r = Some w ∧
    from_slice w = Some rec ∧ answers (pp_qe_id pool) (pp_pce_id pool) r rec ∧ pc_tcbm rec = rt_tcbm r ∧
    select_best_pck_cert (rt_cpu_svn r) (rt_pce_svn r) (pp_pce_id pool) certs tcb_info =
      Ok (rt_tcbm r, pc_cert rec).
Proof.
  intros HF HN Hk r Hr. destruct (select_levels_keys _ _ _ _ _ _ HF) as [Ekeys _].
  apply list_elem_of_lookup_1 in Hr as [i Hi].
  destruct (Forall3_lookup_m _ _ _ _ _ _ HF Hi) as ([cpu pce] & [k' w] & Hx & Hrow & E1 & E2 & cert & Es & Ek & Ew).
  cbn in *. subst cpu pce. exists w, (level_record pool (rt_cpu_svn r) (rt_pce_svn r) (rt_tcbm r) cert).
  split_and!; [|by apply serde_roundtrip|done|done|done].
  rewrite apply_batch_lookup, puts_app, batch_lookup_app, puts_cons. cbn [puts map batch_lookup].
  rewrite decide_False by (intros E; by eapply Hk).
  fold (puts rows). rewrite (puts_in rows _ w); [done|by rewrite Ekeys|].
  apply list_elem_of_lookup_2 in Hrow. rewrite Ek in Hrow. exact Hrow.
Qed.

Definition entry_qe (pc : V) : string := first_upper pc ["qe_id"; "qeid"].
Definition entry_pce (pc : V) : string := first_upper pc ["pce_id"; "pceid"].
Definition named_platforms (platforms : list V) (pc : V) : list V :=
  List.filter (λ p, String.eqb (first_upper p ["qe_id"; "qeid"]) (entry_qe pc)
                 && String.eqb (first_upper p ["pce_id"; "pceid"]) (entry_pce pc)) platforms.
Definition known_levels (s : Store D) (pc : V) : list (string * string) :=
  map (λ r, (rt_cpu_svn r, rt_pce_svn r))
    (pp_raw_tcbs (default (default_pool (entry_qe pc) (entry_pce pc))
       (get_platform_pool s (entry_qe pc) (entry_pce pc)))).

Lemma pck_entry_ok (s : Store D) version platforms tcbinfos certificates pc b :
  pck_entry s version platforms tcbinfos certificates pc = Ok b →
  ∃ tcb_info sel pool levels rows v,
    b = puts (rows ++ [(platform (entry_qe pc) (entry_pce pc), v)]) ∧ to_vec pool = Some v ∧
    pp_raw_tcbs pool = levels ∧
    pp_certs pool = map (λ c, {| plc_tcbm := c.1; plc_cert := c.2 |}) (entry_certs pc) ∧
    pp_qe_id sel = entry_qe pc ∧ pp_pce_id sel = entry_pce pc ∧
    Forall3 (sel_level sel (entry_certs pc) tcb_info)
      (fold_left add_level (named_platforms platforms pc) (known_levels s pc)) levels rows.
Proof.
  unfold pck_entry. fold (entry_qe pc). fold (entry_pce pc). fold (named_platforms platforms pc). cbn zeta.
  destruct (head (entry_certs pc)) as [c|]; [|done]. cbn [ok_or mbind result_bind].
  destruct (parse_pck_cert c.2) as [info|]; [|done]. cbn [map_err mbind result_bind].
  destruct (negb _); [|done].
  destruct (ok_or _ _) as [tcb_info|]; [|done]. cbn [mbind result_bind].
  fold (known_levels s pc). set (old := default _ (get_platform_pool s _ _)).
  set (pool := entry_pool old info (entry_certs pc) certificates (named_platforms platforms pc)).
  set (sel := Build_PlatformPool _ _ _ _ _ _ _ _ _).
  assert (Ekey : platform (pp_qe_id old) (pp_pce_id old) = platform (entry_qe pc) (entry_pce pc)).
  { unfold old. destruct (get_platform_pool s _ _) as [o|] eqn:E; [|done].
    destruct (get_platform_pool_names _ _ _ _ E). by apply platform_ic. }
  destruct (select_levels sel _ _ _) as [[levels b1]|] eqn:Es; [|done]. cbn [mbind result_bind].
  change (pp_qe_id (with_raw_tcbs pool levels)) with (pp_qe_id old).
  change (pp_pce_id (with_raw_tcbs pool levels)) with (pp_pce_id old). rewrite Ekey.
  destruct (batch_pool _ _) as [bp|] eqn:Ep; [|done]. cbn [mbind result_bind]. intros [= <-].
  apply select_levels_ok in Es as (rows & -> & HF). apply batch_pool_ok in Ep as (v & Ev & ->).
  exists tcb_info, sel, (with_raw_tcbs pool levels), levels, rows, v.
  split_and!; try done. by rewrite puts_app.
Qed.

Lemma add_level_mono raws (ps : list V) x : x ∈ raws → x ∈ fold_left add_level ps raws.
Proof.
  revert raws. induction ps as [|p ps IH]; intros raws Hx; [done|]. cbn [fold_left]. apply IH.
  unfold add_level. destruct (_ && _); [|done]. apply elem_of_app. by left.
Qed.

(** The level a request names, when it names one. *)
Definition requested_level (p : V) : option (string * string) :=
  let cpu := first_upper p ["cpu_svn"; "cpusvn"] in
  let pce := first_upper p ["pce_svn"; "pcesvn"] in
  if String.eqb cpu "" || String.eqb pce "" then None else Some (cpu, pce).

Lemma add_level_new raws (ps : list V) p x :
  p ∈ ps → requested_level p = Some x → x ∈ fold_left add_level ps raws.
Proof.
  revert raws. induction ps as [|q ps IH]; intros raws; [by intros ?%not_elem_of_nil|].
  intros [->|Hp]%elem_of_cons Hx; cbn [fold_left]; [|by apply IH].
  apply add_level_mono. unfold requested_level in Hx. cbn zeta in Hx.
  destruct (_ || _) eqn:E; [done|]. injection Hx as <-. apply orb_false_iff in E as [E1 E2].
  unfold add_level. cbn zeta. rewrite E1, E2. cbn [negb andb]. case_bool_decide as Hin; cbn [negb].
  - done.
  - apply elem_of_app. right. by apply list_elem_of_singleton.
Qed.

Lemma batch_all_last {A} (f : A → res batch) l x b :
  batch_all f (l ++ [x]) = Ok b → ∃ b1 b2, b = b1 ++ b2 ∧ f x = Ok b2.
Proof.
  revert b. induction l as [|y l IH]; intros b; cbn [app batch_all].
  - destruct (f x) as [b2|]; [|done]. cbn [mbind result_bind]. intros [= <-]. exists [], b2.
    split; [by rewrite app_nil_r|done].
  - destruct (f y) as [b0|]; [|done]. cbn [mbind result_bind].
    destruct (batch_all f (l ++ [x])) as [b'|]; [|done]. cbn [mbind result_bind]. intros [= <-].
    destruct (IH b' eq_refl) as (b1 & b2 & -> & E). exists (b0 ++ b1), b2. split; [apply app_assoc|done].
Qed.

Lemma get_platform_pool_frame (s s1 : Store D) qe pce v v1 :
  db_get (db s) (platform qe pce) = Ok v → db_get (db s1) (platform qe pce) = Ok v1 →
  content (db s1) !! platform qe pce = content (db s) !! platform qe pce →
  get_platform_pool s1 qe pce = get_platform_pool s qe pce.
Proof.
  intros Ev Ev1 E. unfold get_platform_pool.
  by rewrite (read_json_content _ _ _ Ev), (read_json_content _ _ _ Ev1), E.
Qed.

End upload.

(** ** Concrete runs *)

Module CollateralSample.
Import MapDb Codec Concrete FifoSpec.Sample.

(** *** JSON values on the wire *)

Section jvalue_ind.
Context (P : jvalue → Prop).
Context (HNull : P JNull) (HBool : ∀ b, P (JBool b)) (HInt : ∀ n, P (JInt n)) (HFloat : P JFloat)
  (HStr : ∀ s, P (JStr s)) (HArr : ∀ l, Forall P l → P (JArr l))
  (HObj : ∀ l, Forall (λ kv, P kv.2) l → P (JObj l)).
Fixpoint jvalue_forall (v : jvalue) : P v :=
  match v with
  | JNull => HNull | JBool b => HBool b | JInt n => HInt n | JFloat => HFloat | JStr s => HStr s
  | JArr l => HArr l ((fix go l : Forall P l :=
      match l with [] => Forall_nil_2 _ | x :: l => Forall_cons_2 _ _ _ (jvalue_forall x) (go l) end) l)
  | JObj l => HObj l ((fix go l : Forall (λ kv, P kv.2) l :=
      match l with [] => Forall_nil_2 _ | x :: l => Forall_cons_2 _ _ _ (jvalue_forall x.2) (go l) end) l)
  end.
End jvalue_ind.

Fixpoint enc_j (v : jvalue) : string :=
  match v with
  | JNull => "n" | JBool true => "t" | JBool false => "f" | JFloat => "d"
  | JInt n => String "i" (enc n)
  | JStr s => String "s" (enc s)
  | JArr l => String "a" ((fix go l := match l with
                 | [] => "0" | x :: l => String "1" (enc_j x ++ go l) end) l)
  | JObj l => String "o" ((fix go l := match l with
                 | [] => "0" | (k, x) :: l => String "1" (enc k ++ enc_j x ++ go l) end) l)
  end.

Fixpoint dec_seq {A} (d : string → option (A * string)) (fuel : nat) (s : string) : option (list A * string) :=
  match fuel, s with
  | S fuel, String c s =>
      if Ascii.eqb c "0" then Some ([], s)
      else '(a, r) ← d s; '(l, r) ← dec_seq d fuel r; Some (a :: l, r)
  | _, _ => None
  end.

Fixpoint dec_j (fuel : nat) (s : string) : option (jvalue * string) :=
  match fuel, s with
  | S fuel, String c r =>
      if Ascii.eqb c "n" then Some (JNull, r) else if Ascii.eqb c "t" then Some (JBool true, r)
      else if Ascii.eqb c "f" then Some (JBool false, r) else if Ascii.eqb c "d" then Some (JFloat, r)
      else if Ascii.eqb c "i" then '(n, r) ← dec r; Some (JInt n, r)
      else if Ascii.eqb c "s" then '(t, r) ← dec r; Some (JStr t, r)
      else if Ascii.eqb c "a" then '(l, r) ← dec_seq (dec_j fuel) fuel r; Some (JArr l, r)
      else '(l, r) ← dec_seq (λ s, '(k, r) ← dec s; '(x, r) ← dec_j fuel r; Some ((k, x), r)) fuel r;
           Some (JObj l, r)
  | _, _ => None
  end.

Definition enc_seq {A} (e : A → string) (l : list A) : string :=
  fold_right (λ x r, String "1" (e x ++ r)) "0" l.

Lemma dec_seq_enc {A} (d : string → option (A * string)) (e : A → string) f l fuel r :
  Forall (λ x, ∀ r, (String.length (e x ++ r) < f)%nat → d (e x ++ r)%string = Some (x, r)) l →
  (String.length (enc_seq e l ++ r) <= fuel)%nat → (String.length (enc_seq e l ++ r) <= f)%nat →
  dec_seq d fuel (enc_seq e l ++ r)%string = Some (l, r).
Proof.
  intros HF. revert fuel. induction HF as [|x l Hx HF IH]; intros [|fuel]; cbn;
    try (intros; exfalso; lia); [done|].
  rewrite <- str_app_assoc. intros Hfuel Hf. rewrite Hx by exact Hf. cbn.
  rewrite str_length_app in Hfuel, Hf. rewrite IH by (unfold enc_seq; lia). done.
Qed.

Lemma enc_j_arr l : enc_j (JArr l) = String "a" (enc_seq enc_j l).
Proof. done. Qed.
Definition enc_pair (kv : string * jvalue) : string := (enc kv.1 ++ enc_j kv.2)%string.
Lemma enc_j_obj l : enc_j (JObj l) = String "o" (enc_seq enc_pair l).
Proof.
  cbn [enc_j]. f_equal. unfold enc_seq, enc_pair. induction l as [|[k x] l IH]; [done|].
  cbn [fold_right fst snd]. by rewrite IH, <- str_app_assoc.
Qed.

Lemma dec_j_enc v fuel r :
  (String.length (enc_j v ++ r) <= fuel)%nat → dec_j fuel (enc_j v ++ r)%string = Some (v, r).
Proof.
  revert fuel r. induction v as [|[]|n| |s|l IH|l IH] using jvalue_forall; intros fuel r.
  all: try (destruct fuel; cbn; intros; [exfalso; lia|done]).
  - change (enc_j (JInt n)) with (String "i" (enc n)).
    destruct fuel as [|fuel]; cbn [String.append String.length]; intros Hf; [lia|].
    cbn [dec_j Ascii.eqb Bool.eqb]. by rewrite dec_enc.
  - change (enc_j (JStr s)) with (String "s" (enc s)).
    destruct fuel as [|fuel]; cbn [String.append String.length]; intros Hf; [lia|].
    cbn [dec_j Ascii.eqb Bool.eqb]. by rewrite dec_enc.
  - rewrite enc_j_arr. destruct fuel as [|fuel]; cbn [String.append String.length]; intros Hf; [lia|].
    cbn [dec_j Ascii.eqb Bool.eqb]. rewrite (dec_seq_enc (dec_j fuel) enc_j fuel); [done| |lia..].
    eapply list.Forall_impl; [exact IH|]. intros x Hx r' Hr. apply Hx. lia.
  - rewrite enc_j_obj. destruct fuel as [|fuel]; cbn [String.append String.length]; intros Hf; [lia|].
    cbn [dec_j Ascii.eqb Bool.eqb]. rewrite (dec_seq_enc _ enc_pair fuel); [done| |lia..].
    eapply list.Forall_impl; [exact IH|]. intros [k x] Hx r'. unfold enc_pair. cbn [fst snd] in *.
    rewrite <- str_app_assoc. intros Hr. rewrite dec_enc. cbn [mbind option_bind].
    rewrite str_length_app in Hr. by rewrite Hx by lia.
Qed.

#[export] Instance wire_jvalue : Wire jvalue := {| enc := enc_j; dec s := dec_j (String.length s) s |}.
#[export] Instance wire_jvalue_laws : WireLaws jvalue.
Proof. split. intros v r. cbn [enc dec wire_jvalue]. by apply dec_j_enc. Qed.

(** *** An upload for the synthetic platform *)

Definition sample_entry : jvalue :=
  JObj [("qe_id", JStr "ab"); ("pce_id", JStr "4444"); ("enc_ppid", JStr "");
        ("certs", JArr [JObj [("tcb", JObj []); ("tcbm", JStr "22222222222222222222222222222222aaaa");
                              ("cert", JStr intel_order_pem)]])].

Definition sample_upload (entries : list jvalue) : jvalue :=
  JObj [("platforms", JArr [JObj [("qe_id", JStr "ab"); ("pce_id", JStr "4444");
           ("cpu_svn", JStr "22222222222222222222222222222222"); ("pce_svn", JStr "3333");
           ("enc_ppid", JStr ""); ("platform_manifest", JStr "")]]);
        ("collaterals",
          JObj [("version", JInt 4); ("pck_certs", JArr entries);
                ("tcbinfos", JArr [JObj [("fmspc", JStr "1234567890AB");
                   ("sgx_tcbinfo", JObj [("tcbInfo", sample_tcb_info); ("signature", JStr "")])]]);
                ("certificates", JObj [("SGX-PCK-Certificate-Issuer-Chain", JObj [])])])].

Definition empty_store : Store (gmap string string) := mkStore ∅ 0 1.

Definition run_upload : Store (gmap string string) * res unit :=
  put_platform_collateral (sample_upload [sample_entry]) 4 empty_store.
End CollateralSample.

Import MapDb Codec Concrete CollateralSample.

Lemma run_upload_ok :
  put_platform_collateral (sample_upload [sample_entry]) 4 empty_store = (fst run_upload, Ok ()).
Proof. apply run_eq. vm_compute. reflexivity. Qed.


(** A later entry with an unparsable certificate: the upload is answered
    400, and the TCB info it carried is stored all the same. *)
Definition bad_entry : jvalue :=
  JObj [("qe_id", JStr "cd"); ("pce_id", JStr "4444"); ("enc_ppid", JStr "");
        ("certs", JArr [JObj [("tcb", JObj []); ("tcbm", JStr "000000000000000000000000000000000000");
                              ("cert", JStr "not a certificate")]])].

Definition run_bad_upload : Store (gmap string string) * res unit :=
  put_platform_collateral (sample_upload [sample_entry; bad_entry]) 4 empty_store.

Lemma run_bad_upload_failed :
  put_platform_collateral (sample_upload [sample_entry; bad_entry]) 4 empty_store =
    (fst run_bad_upload, Err INVALID_REQ).
Proof. apply run_eq. vm_compute. reflexivity. Qed.

Lemma collateral_failure_publishes_nothing_witness :
  content (db (fst run_bad_upload)) !! platform "AB" "4444" = None.
Proof.
  destruct (collateral_failure_publishes_nothing empty_store (fst run_bad_upload)
    (sample_upload [sample_entry; bad_entry]) 4 INVALID_REQ run_bad_upload_failed) as [H _].
  rewrite H; [reflexivity|]. left. reflexivity.
Defined.

Lemma failed_upload_keeps_tcb_info :
  snd run_bad_upload = Err INVALID_REQ ∧
  is_Some (get_tcb (V := jvalue) (fst run_bad_upload) 0 "1234567890AB" 4 Standard).
Proof. split; vm_compute; [reflexivity|by eexists]. Qed.
