(* ===== verification/Urls.v ===== *)
(** * Urls: which upstream URLs a read-through request may name
    (src/src/cache.rs)

    AMD KDS and NVIDIA RIM requests are proxied, so their paths are rebuilt
    from validated pieces: fixed prefixes, alphanumeric segments and a sorted,
    whitelisted query.  The canonical form is also the cache key's input. *)

From Stdlib Require Import ZArith Lia Sorting.Sorted.
From stdpp Require Import base list strings option sorting.
From S2P Require Import Prelude Text Errors Validate Database.

Local Open Scope Z_scope.
Local Open Scope rust_scope.

Definition trim_slashes (s : string) : string := trim_end_matches "/" s.

Definition normalize_amd_kds_host (uri : string) : string :=
  let host := trim_slashes (trim uri) in
  match strip_suffix "/vcek/v1" host with
  | Some stripped => trim_slashes stripped
  | None => match strip_suffix "/vlek/v1" host with
            | Some stripped => trim_slashes stripped
            | None => host
            end
  end.

Definition normalize_nvidia_rim_host (uri : string) : string :=
  let host := trim_slashes (trim uri) in
  match strip_suffix "/v1/rim" host with
  | Some stripped => trim_slashes stripped
  | None => host
  end.

Definition join_host_path (host path_and_query : string) : string :=
  let path_and_query := if starts_with "/" path_and_query then path_and_query
                        else String "/" path_and_query in
  (host ++ path_and_query)%string.

Definition split_path_query (path_and_query : string) : string * option string :=
  match split_once "?" path_and_query with
  | Some (path, query) => (path, Some query)
  | None => (path_and_query, None)
  end.

Definition is_alnum_segment (s : string) : bool := negb (is_empty s) && str_all is_alnum s.

Definition AMD_HWID_QUERY_PARAMS : list string := ["blSPL"; "fmcSPL"; "snpSPL"; "teeSPL"; "ucodeSPL"].

Definition u8_max : Z := 255.

Definition is_spl_value (value : string) : bool :=
  (1 <=? String.length value)%nat && (String.length value <=? 3)%nat && str_all is_digit value
  && bool_decide (is_Some (parse_uint u8_max value)).

(** The loop of [canonicalize_query] over the pairs. *)
Fixpoint check_pairs (allowed : list string) (seen : list (string * string)) (pairs : list string) :
    res (list (string * string)) :=
  match pairs with
  | [] => Ok seen
  | p :: pairs' =>
      let '(key, value) := default (p, ""%string) (split_once "=" p) in
      check negb (is_empty key) else INVALID_REQ;
      check existsb (String.eqb key) allowed else INVALID_REQ;
      check is_spl_value value else INVALID_REQ;
      check negb (existsb (λ kv, String.eqb kv.1 key) seen) else INVALID_REQ;
      check_pairs allowed (seen ++ [(key, value)]) pairs'
  end.

(** [a.0.cmp(&b.0)] *)
Definition pair_le (x y : string * string) : Prop := key_le x.1 y.1 = true.
#[export] Instance pair_le_dec : RelDecision pair_le.
Proof. intros x y. unfold pair_le. apply _. Defined.

Definition encode_pairs (l : list (string * string)) : string :=
  str_join "&" (map (λ kv, (kv.1 ++ "=" ++ kv.2)%string) l).

Definition canonicalize_query (query : option string) (allowed : list string) : res string :=
  match query with
  | None => Ok ""
  | Some q =>
      if is_empty q then Ok "" else
        seen ← check_pairs allowed [] (split "&" q);
        match seen with
        | [] => Ok ""
        | _ => Ok (String "?" (encode_pairs (merge_sort pair_le seen)))
        end
  end.

Definition amd_prefix (path : string) : option (string * string) :=
  match strip_prefix "/vcek/" path with
  | Some rest => Some ("/vcek/", rest)
  | None => match strip_prefix "/vlek/" path with
            | Some rest => Some ("/vlek/", rest)
            | None => None
            end
  end.

Definition canonicalize_amd_kds (path_and_query : string) : res string :=
  let '(path, query) := split_path_query path_and_query in
  '(prefix, rest) ← ok_or (amd_prefix path) INVALID_REQ;
  match split "/" rest with
  | [v; product; last] =>
      check String.eqb v "v1" && is_alnum_segment product else INVALID_REQ;
      query ← (if String.eqb last "cert_chain" || String.eqb last "crl" then canonicalize_query query []
               else if is_alnum_segment last then canonicalize_query query AMD_HWID_QUERY_PARAMS
               else Err INVALID_REQ);
      Ok (prefix ++ "v1/" ++ product ++ "/" ++ last ++ query)%string
  | _ => Err INVALID_REQ
  end.

Definition is_rim_id (s : string) : bool :=
  if is_empty s || String.eqb s "." || String.eqb s ".." then false
  else str_all (λ c, is_alnum c || Ascii.eqb c "-" || Ascii.eqb c "_" || Ascii.eqb c ".") s.

Definition canonicalize_nvidia_rim (path_and_query : string) : res string :=
  let '(path, query) := split_path_query path_and_query in
  rest ← ok_or (strip_prefix "/v1/rim/" path) INVALID_REQ;
  check negb (contains_char "/" rest) && is_rim_id rest else INVALID_REQ;
  query ← canonicalize_query query [];
  Ok ("/v1/rim/" ++ rest ++ query)%string.

(** ** The canonical query *)

Definition enc_pair (kv : string * string) : string := (kv.1 ++ "=" ++ kv.2)%string.

(** A parameter name that needs no quoting. *)
Definition plain_name (s : string) : Prop := is_empty s = false ∧ free_of "=" s ∧ free_of "&" s.

Record good_pairs (allowed : list string) (l : list (string * string)) : Prop := {
  gp_names : Forall (λ kv, existsb (String.eqb kv.1) allowed = true) l;
  gp_values : Forall (λ kv, is_spl_value kv.2 = true) l;
  gp_nodup : NoDup l.*1
}.

Lemma hwid_params_plain : Forall plain_name AMD_HWID_QUERY_PARAMS.
Proof. by repeat constructor. Qed.

Lemma no_params_plain : Forall plain_name [].
Proof. constructor. Qed.

Lemma allowed_plain allowed s :
  Forall plain_name allowed → existsb (String.eqb s) allowed = true → plain_name s.
Proof.
  intros HF (x & Hx & ->%String.eqb_eq)%existsb_exists. rewrite list.Forall_forall in HF.
  apply HF. by apply list_elem_of_In.
Qed.

Lemma digits_free c s : is_digit c = false → str_all is_digit s = true → free_of c s.
Proof.
  intros Hc. unfold free_of. induction s as [|d s IH]; [done|]. cbn. intros [Hd Hs]%andb_true_iff.
  rewrite IH by done. destruct (Ascii.eqb_spec c d) as [<-|]; [congruence|done].
Qed.

Lemma spl_digits v : is_spl_value v = true → str_all is_digit v = true.
Proof. unfold is_spl_value. intros H. by repeat apply andb_true_iff in H as [H ?]. Qed.

Lemma enc_pair_once kv : free_of "=" kv.1 → split_once "=" (enc_pair kv) = Some kv.
Proof. intros Hf. destruct kv as [k v]. by apply (split_once_free "=" k v). Qed.

Lemma existsb_names seen key :
  existsb (λ kv : string * string, String.eqb kv.1 key) seen = false ↔ key ∉ seen.*1.
Proof.
  induction seen as [|[k v] seen IH]; cbn; [split; [intros _; apply not_elem_of_nil|done]|].
  rewrite orb_false_iff, IH, not_elem_of_cons. destruct (String.eqb_spec k key); naive_solver.
Qed.

Lemma check_pairs_sound allowed seen pairs out :
  NoDup seen.*1 → check_pairs allowed seen pairs = Ok out →
  ∃ l, pairs = map enc_pair l ∧ out = seen ++ l ∧
    Forall (λ kv, existsb (String.eqb kv.1) allowed = true) l ∧
    Forall (λ kv, is_spl_value kv.2 = true) l ∧ NoDup (seen ++ l).*1.
Proof.
  revert seen. induction pairs as [|p pairs IH]; intros seen HN; cbn [check_pairs].
  - intros [= <-]. exists []. rewrite app_nil_r. by repeat constructor.
  - destruct (split_once "=" p) as [[k v]|] eqn:Ep; cbn [from_option id].
    + destruct (is_empty k); cbn [negb]; [done|].
      destruct (existsb (String.eqb k) allowed) eqn:Ea; [|done].
      destruct (is_spl_value v) eqn:Ev; [|done].
      destruct (existsb _ seen) eqn:Es; cbn [negb]; [done|]. apply existsb_names in Es.
      intros Hr. apply IH in Hr as (l & -> & -> & Hn & Hv & HN').
      * exists ((k, v) :: l). apply split_once_spec in Ep as [-> _]. rewrite <- app_assoc in HN' |- *.
        split_and!; [done|done|by constructor|by constructor|done].
      * rewrite fmap_app. apply NoDup_app. split_and!; [done| |apply NoDup_singleton].
        intros x Hx ->%list_elem_of_singleton. done.
    + destruct (is_empty p); cbn [negb]; [done|]. destruct (existsb (String.eqb p) allowed); [|done].
      assert (is_spl_value "" = false) as -> by reflexivity. done.
Qed.

Lemma check_pairs_complete allowed seen l :
  Forall plain_name allowed →
  Forall (λ kv, existsb (String.eqb kv.1) allowed = true) l →
  Forall (λ kv, is_spl_value kv.2 = true) l → NoDup (seen ++ l).*1 →
  check_pairs allowed seen (map enc_pair l) = Ok (seen ++ l).
Proof.
  intros Ha Hn. revert seen. induction Hn as [|[k v] l Hk Hn IH]; intros seen Hv HN; cbn [map check_pairs].
  - by rewrite app_nil_r.
  - apply list.Forall_cons in Hv as [Hv1 Hv]. cbn [fst snd] in *.
    destruct (allowed_plain _ _ Ha Hk) as (He & Hf & _).
    rewrite (enc_pair_once (k, v)) by done. cbn [from_option id]. unfold is_empty in *.
    rewrite He, Hk, Hv1. cbn [negb].
    assert (Hns : existsb (λ kv : string * string, String.eqb kv.1 k) seen = false).
    { apply existsb_names. rewrite fmap_app in HN. apply NoDup_app in HN as (_ & HN & _).
      intros Hin. apply (HN k Hin). left. }
    rewrite Hns. cbn [negb]. rewrite IH; [by rewrite <- app_assoc|done|]. by rewrite <- app_assoc.
Qed.

Lemma good_pairs_perm allowed l l' : l ≡ₚ l' → good_pairs allowed l → good_pairs allowed l'.
Proof. intros Hp [H1 H2 H3]. split; by rewrite <- Hp. Qed.

#[export] Instance pair_le_trans : Transitive pair_le.
Proof. intros x y z. apply key_le_trans. Qed.
#[export] Instance pair_le_total : Total pair_le.
Proof. intros x y. apply key_le_total. Qed.

(** With distinct names there is one sorted order. *)
Lemma sort_pairs_unique l l' :
  NoDup l.*1 → StronglySorted pair_le l' → l ≡ₚ l' → merge_sort pair_le l = l'.
Proof.
  intros HN HS Hp. apply (StronglySorted_unique_strong pair_le).
  - intros x y Hx Hy Hxy Hyx. rewrite merge_sort_Permutation in Hx.
    rewrite <- Hp in Hy. assert (E : x.1 = y.1) by (by apply key_le_antisym).
    apply list_elem_of_lookup_1 in Hx as [i Hi], Hy as [j Hj].
    assert (Eij : i = j).
    { apply (NoDup_lookup l.*1 i j x.1 HN); rewrite list_lookup_fmap; [by rewrite Hi|by rewrite Hj, E]. }
    subst j. congruence.
  - apply (StronglySorted_merge_sort pair_le).
  - done.
  - by rewrite merge_sort_Permutation.
Qed.

(** What the canonical query can be. *)
Definition canonical_query (allowed : list string) (q : string) : Prop :=
  q = "" ∨ ∃ l, l ≠ [] ∧ good_pairs allowed l ∧ StronglySorted pair_le l ∧ q = String "?" (encode_pairs l).

Lemma encode_split allowed l :
  Forall plain_name allowed → good_pairs allowed l → l ≠ [] →
  split "&" (encode_pairs l) = map enc_pair l ∧ is_empty (encode_pairs l) = false.
Proof.
  intros Ha [Hn Hv _] Hne. split.
  - apply join_split; [by destruct l|]. apply Forall_fmap. unfold compose.
    rewrite list.Forall_forall in Hn, Hv |- *. intros kv Hkv.
    destruct (allowed_plain _ _ Ha (Hn kv Hkv)) as (_ & _ & Hf). apply free_of_app; [done|].
    change (free_of "&" (String "=" kv.2)). unfold free_of. cbn [str_all].
    apply (digits_free "&"); [done|]. by apply spl_digits, Hv.
  - destruct l as [|[k v] l]; [done|]. apply list.Forall_cons in Hn as [Hk _].
    destruct (allowed_plain _ _ Ha Hk) as (He & _ & _). cbn [fst] in He.
    destruct k as [|c k]; [done|]. unfold encode_pairs. by destruct l.
Qed.

Lemma canonicalize_query_form allowed q r :
  canonicalize_query q allowed = Ok r → canonical_query allowed r.
Proof.
  destruct q as [q|]; cbn [canonicalize_query]; [|intros [= <-]; by left].
  destruct (is_empty q); [intros [= <-]; by left|].
  destruct (check_pairs allowed [] (split "&" q)) as [seen|] eqn:Ec; [|done]. cbn [mbind result_bind].
  apply check_pairs_sound in Ec as (l & _ & -> & Hn & Hv & HN); [|constructor]. cbn [app] in *.
  destruct l as [|kv l]; [intros [= <-]; by left|]. intros [= <-]. right.
  exists (merge_sort pair_le (kv :: l)).
  assert (Hp : kv :: l ≡ₚ merge_sort pair_le (kv :: l)) by (by rewrite merge_sort_Permutation).
  split_and!; [|by apply (good_pairs_perm _ _ _ Hp)|apply (StronglySorted_merge_sort pair_le)|done].
  intros E. rewrite E in Hp. by apply Permutation_nil_r in Hp.
Qed.

(** Any order of the same parameters canonicalizes to the sorted one. *)
Lemma canonicalize_query_any_order allowed l l' :
  Forall plain_name allowed → good_pairs allowed l → l ≠ [] → StronglySorted pair_le l' → l ≡ₚ l' →
  canonicalize_query (Some (encode_pairs l)) allowed = Ok (String "?" (encode_pairs l')).
Proof.
  intros Ha Hg Hne HS Hp. destruct (encode_split allowed l Ha Hg Hne) as [Es He].
  cbn [canonicalize_query]. rewrite He, Es. destruct Hg as [Hn Hv HN].
  rewrite (check_pairs_complete allowed []) by done. cbn [app mbind result_bind].
  destruct l as [|kv l]; [done|]. by rewrite (sort_pairs_unique (kv :: l) l').
Qed.

(** ** Canonical AMD KDS and NVIDIA RIM requests *)

Lemma alnum_free c s : is_alnum c = false → str_all is_alnum s = true → free_of c s.
Proof.
  intros Hc. unfold free_of. induction s as [|d s IH]; [done|]. cbn. intros [Hd Hs]%andb_true_iff.
  rewrite IH by done. destruct (Ascii.eqb_spec c d) as [<-|]; [congruence|done].
Qed.

Lemma contains_char_free c s : free_of c s → contains_char c s = false.
Proof.
  unfold free_of, contains_char. induction s as [|d s IH]; [done|]. cbn.
  intros [Hd Hs]%andb_true_iff. specialize (IH Hs). destruct (split_once c s); [|].
  - by destruct (Ascii.eqb c d).
  - destruct (Ascii.eqb c d); [done|done].
Qed.

(** A parameter list as the query part of a request. *)
Definition qtext (l : list (string * string)) : string :=
  match l with [] => "" | _ => String "?" (encode_pairs l) end.

Lemma split_qtext path l :
  free_of "?" path →
  split_path_query (path ++ qtext l)%string =
    (path, match l with [] => None | _ => Some (encode_pairs l) end).
Proof.
  intros Hf. unfold split_path_query. destruct l as [|kv l].
  - rewrite str_app_nil_r. destruct (split_once "?" path) as [[a b]|] eqn:E; [exfalso|done].
    apply split_once_spec in E as [-> _]. unfold free_of in Hf. rewrite str_all_app in Hf.
    cbn [str_all] in Hf. by rewrite Ascii.eqb_refl, andb_false_r in Hf.
  - cbn [qtext]. by rewrite split_once_free.
Qed.

Lemma canonicalize_qtext allowed l l' :
  Forall plain_name allowed → good_pairs allowed l → StronglySorted pair_le l → l' ≡ₚ l →
  canonicalize_query match l' with [] => None | _ => Some (encode_pairs l') end allowed = Ok (qtext l).
Proof.
  intros Ha Hg HS Hp. destruct l' as [|kv l'].
  - apply Permutation_nil_l in Hp as <-. done.
  - destruct l as [|kv2 l2]; [by apply Permutation_nil_r in Hp|].
    apply canonicalize_query_any_order; [done| |done|done|done].
    by apply (good_pairs_perm _ (kv2 :: l2)).
Qed.

Lemma canonical_qtext allowed q :
  canonical_query allowed q → ∃ l, q = qtext l ∧ good_pairs allowed l ∧ StronglySorted pair_le l.
Proof.
  intros [->|(l & Hne & Hg & HS & ->)].
  - exists []. split; [done|]. split; [split; constructor|constructor].
  - exists l. split; [by destruct l|done].
Qed.

(** What may follow the product in an AMD KDS path, with the parameters it
    may take. *)
Definition kds_leaf (last : string) (allowed : list string) : Prop :=
  (last = "cert_chain" ∨ last = "crl") ∧ allowed = [] ∨
  last ≠ "cert_chain" ∧ last ≠ "crl" ∧ is_alnum_segment last = true ∧ allowed = AMD_HWID_QUERY_PARAMS.

Lemma kds_leaf_query last query r :
  (if String.eqb last "cert_chain" || String.eqb last "crl" then canonicalize_query query []
   else if is_alnum_segment last then canonicalize_query query AMD_HWID_QUERY_PARAMS
   else Err INVALID_REQ) = Ok r →
  ∃ allowed l, kds_leaf last allowed ∧ Forall plain_name allowed ∧ r = qtext l ∧ good_pairs allowed l ∧
    StronglySorted pair_le l.
Proof.
  destruct (String.eqb_spec last "cert_chain") as [->|H1]; [|destruct (String.eqb_spec last "crl") as [->|H2]];
    cbn [orb].
  1,2: intros (l & -> & Hg & HS)%canonicalize_query_form%canonical_qtext; exists [], l;
    split_and!; [left; by auto|apply no_params_plain|done..].
  destruct (is_alnum_segment last) eqn:Ea; [|done].
  intros (l & -> & Hg & HS)%canonicalize_query_form%canonical_qtext. exists AMD_HWID_QUERY_PARAMS, l.
  split_and!; [by right|apply hwid_params_plain|done..].
Qed.

Lemma kds_leaf_run last allowed query :
  kds_leaf last allowed →
  (if String.eqb last "cert_chain" || String.eqb last "crl" then canonicalize_query query []
   else if is_alnum_segment last then canonicalize_query query AMD_HWID_QUERY_PARAMS
   else Err INVALID_REQ) = canonicalize_query query allowed.
Proof.
  intros [[[->| ->] ->]|(H1 & H2 & Ha & ->)]; [done..|].
  by rewrite (proj2 (String.eqb_neq _ _) H1), (proj2 (String.eqb_neq _ _) H2), Ha.
Qed.

Lemma alnum_segment_free c s : is_alnum c = false → is_alnum_segment s = true → free_of c s.
Proof. unfold is_alnum_segment. intros Hc [_ Hs]%andb_true_iff. by apply alnum_free. Qed.

Lemma kds_leaf_free c last allowed :
  (c = "/" ∨ c = "?")%char → kds_leaf last allowed → free_of c last.
Proof.
  intros Hc [[[->| ->] _]|(_ & _ & Ha & _)]; [by destruct Hc as [->| ->]..|].
  apply alnum_segment_free; [|done]. by destruct Hc as [->| ->].
Qed.


(** A RIM request the proxy forwards names one document id, not a dot
    segment and without a separator, and carries no query. *)
Lemma canonicalize_nvidia_rim_form path_and_query r :
  canonicalize_nvidia_rim path_and_query = Ok r →
  ∃ id, r = ("/v1/rim/" ++ id)%string ∧ is_rim_id id = true ∧ contains_char "/" id = false.
Proof.
  unfold canonicalize_nvidia_rim. destruct (split_path_query path_and_query) as [path query].
  destruct (strip_prefix _ _) as [rest|]; [|done]. cbn [ok_or mbind result_bind].
  destruct (contains_char "/" rest) eqn:Ec; [done|]. cbn [negb andb].
  destruct (is_rim_id rest) eqn:Er; [|done].
  destruct (canonicalize_query query []) as [q|] eqn:Eq; [|done]. cbn [mbind result_bind]. intros [= <-].
  exists rest. split_and!; [|done|done].
  apply canonicalize_query_form in Eq as [->|(l & Hne & [Hn _ _] & _)]; [by rewrite str_app_nil_r|].
  destruct l as [|kv l]; [done|]. by apply list.Forall_cons in Hn as [? _].
Qed.

(** ** Concrete runs *)

Definition sample_request : string := "/vcek/v1/Milan/abc123?ucodeSPL=115&blSPL=03".

