(* ===== verification/Prog.v ===== *)
(** * Prog: asynchronous code as programs of atomic actions

    An [async fn] of the source is a tree of what it does between suspension
    points: atomic actions on the shared state (a store call, a critical
    section on one of the in-memory maps), taking and dropping a per-key lock,
    and upstream calls.  A single request is executed by [run], with arbitrary
    interference of other requests before every action; several requests are
    interleaved by [step].  The generic results are here: which upstream
    calls a program can make, lock discipline, freedom from deadlock and
    termination of every interleaving. *)

From Stdlib Require Import ZArith Lia Wellfounded.
From stdpp Require Import base list strings option gmap relations.
From S2P Require Import Prelude.

Local Open Scope Z_scope.

(** What a task can read of the clocks: [Instant::now()] in nanoseconds,
    [SystemTime::now()] since the epoch in seconds and in microseconds. *)
Record Time := { t_mono : Z; t_secs : Z; t_micros : Z }.

Inductive prog (St : Type) (Call : Type → Type) (A : Type) : Type :=
| Ret (a : A)
(** one atomic action on the shared state *)
| Act (X : Type) (f : Time → St → St * X) (k : X → prog St Call A)
(** [inflight[key].lock_owned().await] and the drop of its guard *)
| Lock (key : string) (k : prog St Call A)
| Unlock (key : string) (k : prog St Call A)
(** an awaited upstream call *)
| Upstream (X : Type) (c : Call X) (k : X → prog St Call A)
(** an upstream call raced against an enclosing [tokio::time::timeout] *)
| Timed (X : Type) (c : Call X) (k : option X → prog St Call A).

Arguments Ret {St Call A} a.
Arguments Act {St Call A X} f k.
Arguments Lock {St Call A} key k.
Arguments Unlock {St Call A} key k.
Arguments Upstream {St Call A X} c k.
Arguments Timed {St Call A X} c k.

Section programs.
Context {St : Type} {Call : Type → Type}.
Abbreviation prog := (prog St Call).

Fixpoint pbind {A B} (p : prog A) (g : A → prog B) : prog B :=
  match p with
  | Ret a => g a
  | Act f k => Act f (λ x, pbind (k x) g)
  | Lock key k => Lock key (pbind k g)
  | Unlock key k => Unlock key (pbind k g)
  | Upstream c k => Upstream c (λ x, pbind (k x) g)
  | Timed c k => Timed c (λ x, pbind (k x) g)
  end.

Definition pmap {A B} (f : A → B) (p : prog A) : prog B := pbind p (λ a, Ret (f a)).

(** [tokio::time::timeout(d, body)]: the body is dropped at one of its
    upstream calls, or runs to its end. *)
Fixpoint with_timeout {A} (p : prog A) : prog (option A) :=
  match p with
  | Ret a => Ret (Some a)
  | Act f k => Act f (λ x, with_timeout (k x))
  | Lock key k => Lock key (with_timeout k)
  | Unlock key k => Unlock key (with_timeout k)
  | Upstream c k => Timed c (λ o, match o with Some x => with_timeout (k x) | None => Ret None end)
  | Timed c k => Timed c (λ o, with_timeout (k o))
  end.

(** ** One request *)

Inductive event : Type :=
| Called {X : Type} (c : Call X) (answer : option X).

Record Env := {
  (** what other requests do to the shared state before this one's n-th action *)
  e_others : nat → St → St;
  e_time : nat → Time;
  e_answer : ∀ X, Call X → nat → X;
  e_elapsed : nat → bool
}.

Fixpoint run {A} (e : Env) (p : prog A) (n : nat) (s : St) : St * list event * A :=
  match p with
  | Ret a => (s, [], a)
  | Act f k => let '(s', x) := f (e_time e n) (e_others e n s) in run e (k x) (S n) s'
  | Lock _ k | Unlock _ k => run e k (S n) s
  | @Upstream _ _ _ X c k =>
      let x := e_answer e X c n in
      let '(s', tr, a) := run e (k x) (S n) s in (s', Called c (Some x) :: tr, a)
  | @Timed _ _ _ X c k =>
      let o := if e_elapsed e n then None else Some (e_answer e X c n) in
      let '(s', tr, a) := run e (k o) (S n) s in (s', Called c o :: tr, a)
  end.

(** *** Which operations a program can perform: it touches only the locks in
    [LK] and makes only the upstream calls in [PC]. *)

Fixpoint ops_in {A} (LK : string → Prop) (PC : ∀ X, Call X → Prop) (p : prog A) : Prop :=
  match p with
  | Ret _ => True
  | Act _ k => ∀ x, ops_in LK PC (k x)
  | Lock key k | Unlock key k => LK key ∧ ops_in LK PC k
  | @Upstream _ _ _ X c k => PC X c ∧ ∀ x, ops_in LK PC (k x)
  | @Timed _ _ _ X c k => PC X c ∧ ∀ o, ops_in LK PC (k o)
  end.

Definition no_lock : string → Prop := λ _, False.
Definition any_lock : string → Prop := λ _, True.
Definition no_call : ∀ X, Call X → Prop := λ _ _, False.
Definition any_call : ∀ X, Call X → Prop := λ _ _, True.

(** A program that stays off the locks and the network. *)
Definition local {A} (p : prog A) : Prop := ops_in no_lock no_call p.
Definition lock_free {A} (p : prog A) : Prop := ops_in no_lock any_call p.
Definition only_calls {A} (PC : ∀ X, Call X → Prop) (p : prog A) : Prop := ops_in any_lock PC p.

Lemma ops_in_bind {A B} LK PC (p : prog A) (g : A → prog B) :
  ops_in LK PC p → (∀ a, ops_in LK PC (g a)) → ops_in LK PC (pbind p g).
Proof.
  intros Hp Hg. induction p as [a|X f k IH|key k IH|key k IH|X c k IH|X c k IH]; cbn in *; auto;
    destruct Hp as [Hc Hk]; split; auto.
Qed.

(** Every value the program can return satisfies [Q]. *)
Fixpoint returns {A} (Q : A → Prop) (p : prog A) : Prop :=
  match p with
  | Ret a => Q a
  | Act _ k => ∀ x, returns Q (k x)
  | Lock _ k | Unlock _ k => returns Q k
  | Upstream _ k => ∀ x, returns Q (k x)
  | Timed _ k => ∀ o, returns Q (k o)
  end.

Lemma returns_bind {A B} (Q : A → Prop) (Q' : B → Prop) (p : prog A) (g : A → prog B) :
  returns Q p → (∀ a, Q a → returns Q' (g a)) → returns Q' (pbind p g).
Proof. intros Hp Hg. induction p; cbn in *; auto. Qed.

Lemma returns_any {A} (Q : A → Prop) (p : prog A) : (∀ a, Q a) → returns Q p.
Proof. intros HQ. induction p; cbn; auto. Qed.

Lemma returns_weaken {A} (Q Q' : A → Prop) (p : prog A) :
  returns Q p → (∀ a, Q a → Q' a) → returns Q' p.
Proof. intros Hp Hq. induction p; cbn in *; auto. Qed.

Lemma ops_in_bind_returns {A B} LK PC Q (p : prog A) (g : A → prog B) :
  ops_in LK PC p → returns Q p → (∀ a, Q a → ops_in LK PC (g a)) → ops_in LK PC (pbind p g).
Proof.
  intros Hp Hr Hg. induction p as [a|X f k IH|key k IH|key k IH|X c k IH|X c k IH]; cbn in *; auto;
    destruct Hp as [Hc Hk]; split; auto.
Qed.

Lemma ops_in_weaken {A} (LK LK' : string → Prop) (PC PC' : ∀ X, Call X → Prop) (p : prog A) :
  (∀ key, LK key → LK' key) → (∀ X c, PC X c → PC' X c) → ops_in LK PC p → ops_in LK' PC' p.
Proof.
  intros HL HP Hp. induction p as [a|X f k IH|key k IH|key k IH|X c k IH|X c k IH]; cbn in *; auto;
    destruct Hp as [Hc Hk]; split; auto.
Qed.

(** A local program does what any policy allows. *)
Lemma local_ops_in {A} LK PC (p : prog A) : local p → ops_in LK PC p.
Proof. by apply ops_in_weaken. Qed.

Lemma ops_in_timeout {A} LK PC (p : prog A) : ops_in LK PC p → ops_in LK PC (with_timeout p).
Proof.
  intros Hp. induction p as [a|X f k IH|key k IH|key k IH|X c k IH|X c k IH]; cbn in *; auto;
    destruct Hp as [Hc Hk]; split; auto. intros [x|]; [auto|done].
Qed.

Definition event_in (PC : ∀ X, Call X → Prop) (ev : event) : Prop :=
  match ev with @Called X c _ => PC X c end.

Lemma ops_in_run {A} LK PC e (p : prog A) n s :
  ops_in LK PC p → Forall (event_in PC) (run e p n s).1.2.
Proof.
  revert n s. induction p as [a|X f k IH|key k IH|key k IH|X c k IH|X c k IH]; intros n s Hp; cbn in *.
  - constructor.
  - destruct (f _ _) as [s' x]. by apply IH.
  - by apply IH, Hp.
  - by apply IH, Hp.
  - destruct Hp as [Hc Hk]. specialize (IH (e_answer e X c n) (S n) s (Hk _)).
    destruct (run _ _ _ _) as [[s' tr] a]. by constructor.
  - destruct Hp as [Hc Hk]. destruct (e_elapsed e n).
    + specialize (IH None (S n) s (Hk _)). destruct (run _ _ _ _) as [[s' tr] a]. by constructor.
    + specialize (IH (Some (e_answer e X c n)) (S n) s (Hk _)).
      destruct (run _ _ _ _) as [[s' tr] a]. by constructor.
Qed.

Lemma no_call_run {A} LK e (p : prog A) n s : ops_in LK no_call p → (run e p n s).1.2 = [].
Proof.
  intros H%(ops_in_run LK no_call e p n s). destruct (run e p n s).1.2 as [|[X c o] tr]; [done|].
  by inversion_clear H.
Qed.

(** *** What a program returns, whatever the others do: with clock readings in
    [T], shared states in [I] before each action and upstream answers in
    [U], it ends in [Q], given the calls made so far. *)

Fixpoint ensures {A} (T : Time → Prop) (I : St → Prop) (U : ∀ X, Call X → X → Prop) (p : prog A)
    (tr : list event) (Q : list event → A → Prop) : Prop :=
  match p with
  | Ret a => Q tr a
  | Act f k => ∀ t s, T t → I s → ensures T I U (k (snd (f t s))) tr Q
  | Lock _ k | Unlock _ k => ensures T I U k tr Q
  | @Upstream _ _ _ X c k => ∀ x, U X c x → ensures T I U (k x) (tr ++ [Called c (Some x)]) Q
  | @Timed _ _ _ X c k =>
      ensures T I U (k None) (tr ++ [Called c None]) Q ∧
      ∀ x, U X c x → ensures T I U (k (Some x)) (tr ++ [Called c (Some x)]) Q
  end.

Lemma ensures_bind {A B} T I U (p : prog A) (g : A → prog B) tr Q Q' :
  ensures T I U p tr Q → (∀ tr a, Q tr a → ensures T I U (g a) tr Q') →
  ensures T I U (pbind p g) tr Q'.
Proof.
  intros Hp Hg. revert tr Hp.
  induction p as [a|X f k IH|key k IH|key k IH|X c k IH|X c k IH]; intros tr Hp; cbn in *; auto.
  destruct Hp as [Hn Hs]. split; auto.
Qed.

Lemma ensures_weaken {A} T I U (p : prog A) tr (Q Q' : list event → A → Prop) :
  ensures T I U p tr Q → (∀ tr a, Q tr a → Q' tr a) → ensures T I U p tr Q'.
Proof.
  intros Hp Hq. revert tr Hp.
  induction p as [a|X f k IH|key k IH|key k IH|X c k IH|X c k IH]; intros tr Hp; cbn in *; auto.
  destruct Hp as [Hn Hs]. split; auto.
Qed.

(** An environment within those bounds *)
Record allowed (T : Time → Prop) (I : St → Prop) (U : ∀ X, Call X → X → Prop) (e : Env) : Prop := {
  al_time n : T (e_time e n);
  al_state n s : I (e_others e n s);
  al_answer n X (c : Call X) : U X c (e_answer e X c n)
}.

Lemma ensures_run {A} T I U e (p : prog A) n s tr Q :
  allowed T I U e → ensures T I U p tr Q → Q (tr ++ (run e p n s).1.2) (run e p n s).2.
Proof.
  intros He. revert n s tr.
  induction p as [a|X f k IH|key k IH|key k IH|X c k IH|X c k IH]; intros n s tr Hp; cbn in *.
  - by rewrite app_nil_r.
  - specialize (Hp (e_time e n) (e_others e n s) (al_time _ _ _ _ He n) (al_state _ _ _ _ He n s)).
    destruct (f _ _) as [s' x]. by apply IH.
  - by apply IH.
  - by apply IH.
  - specialize (IH _ (S n) s _ (Hp _ (al_answer _ _ _ _ He n X c))).
    destruct (run _ _ _ _) as [[s' tr'] a]. cbn in *. by rewrite <- app_assoc in IH.
  - destruct Hp as [Hn Hs]. destruct (e_elapsed e n).
    + specialize (IH None (S n) s _ Hn). destruct (run _ _ _ _) as [[s' tr'] a]. cbn in *.
      by rewrite <- app_assoc in IH.
    + specialize (IH _ (S n) s _ (Hs _ (al_answer _ _ _ _ He n X c))).
      destruct (run _ _ _ _) as [[s' tr'] a]. cbn in *. by rewrite <- app_assoc in IH.
Qed.

(** *** Lock discipline: [locks from to p] holds when [p], started holding
    [from], takes a lock only when it holds none, drops the one it holds, and
    ends holding [to]. *)

Fixpoint locks {A} (from to : option string) (p : prog A) : Prop :=
  match p with
  | Ret _ => from = to
  | Act _ k => ∀ x, locks from to (k x)
  | Lock key k => from = None ∧ locks (Some key) to k
  | Unlock key k => from = Some key ∧ locks None to k
  | Upstream _ k => ∀ x, locks from to (k x)
  | Timed _ k => ∀ o, locks from to (k o)
  end.

Lemma locks_bind {A B} from mid to (p : prog A) (g : A → prog B) :
  locks from mid p → (∀ a, locks mid to (g a)) → locks from to (pbind p g).
Proof.
  intros Hp Hg. revert from Hp.
  induction p as [a|X f k IH|key k IH|key k IH|X c k IH|X c k IH]; intros from Hp; cbn in *; auto.
  - by subst.
  - destruct Hp as [-> Hk]. auto.
  - destruct Hp as [-> Hk]. auto.
Qed.

Lemma lock_free_locks {A} h (p : prog A) : lock_free p → locks h h p.
Proof.
  unfold lock_free. intros Hp.
  induction p as [a|X f k IH|key k IH|key k IH|X c k IH|X c k IH]; cbn in *; auto; try by destruct Hp.
  - intros x. apply IH, Hp.
  - intros x. apply IH, Hp.
Qed.

(** ** Several requests *)

Record conf (A : Type) := mkConf {
  c_state : St;
  (** who holds which key of [inflight] *)
  c_locks : gmap string nat;
  c_tasks : list (prog A);
  c_trace : list (nat * event)
}.
Arguments mkConf {A} _ _ _ _.
Arguments c_state {A} _.
Arguments c_locks {A} _.
Arguments c_tasks {A} _.
Arguments c_trace {A} _.

(** One step of one task; [T] says which clock readings are possible and
    [answers] which upstream answers are. *)
Inductive step {A} (T : Time → Prop) (answers : ∀ X, Call X → X → Prop) : conf A → conf A → Prop :=
| step_act s L ts tr i X (f : Time → St → St * X) k t :
    ts !! i = Some (Act f k) → T t →
    step T answers (mkConf s L ts tr)
      (mkConf (fst (f t s)) L (<[i := k (snd (f t s))]> ts) tr)
| step_lock s L ts tr i key k :
    ts !! i = Some (Lock key k) → L !! key = None →
    step T answers (mkConf s L ts tr) (mkConf s (<[key := i]> L) (<[i := k]> ts) tr)
| step_unlock s L ts tr i key k :
    ts !! i = Some (Unlock key k) →
    step T answers (mkConf s L ts tr) (mkConf s (delete key L) (<[i := k]> ts) tr)
| step_call s L ts tr i X (c : Call X) k x :
    ts !! i = Some (Upstream c k) → answers X c x →
    step T answers (mkConf s L ts tr)
      (mkConf s L (<[i := k x]> ts) (tr ++ [(i, Called c (Some x))]))
| step_timed s L ts tr i X (c : Call X) k x :
    ts !! i = Some (Timed c k) → answers X c x →
    step T answers (mkConf s L ts tr)
      (mkConf s L (<[i := k (Some x)]> ts) (tr ++ [(i, Called c (Some x))]))
| step_elapsed s L ts tr i X (c : Call X) k :
    ts !! i = Some (Timed c k) →
    step T answers (mkConf s L ts tr)
      (mkConf s L (<[i := k None]> ts) (tr ++ [(i, Called c None)])).

Definition start {A} (s : St) (ts : list (prog A)) : conf A := mkConf s ∅ ts [].

Definition finished {A} (p : prog A) : Prop := ∃ a, p = Ret a.

(** *** No deadlock *)

(** Task [i] holds [held !! i], and the lock map says the same. *)
Definition lock_state {A} (c : conf A) (held : list (option string)) : Prop :=
  Forall2 (λ h p, locks h None p) held (c_tasks c) ∧
  ∀ key i, c_locks c !! key = Some i ↔ held !! i = Some (Some key).

Lemma lock_state_start {A} (s : St) (ts : list (prog A)) :
  Forall (locks None None) ts → lock_state (start s ts) (replicate (length ts) None).
Proof.
  intros H. split; cbn.
  - induction H; cbn; constructor; done.
  - intros key i. rewrite lookup_empty. split; [done|]. intros [? _]%lookup_replicate. done.
Qed.

Lemma lock_state_task {A} (c : conf A) held i p :
  lock_state c held → c_tasks c !! i = Some p → ∃ h, held !! i = Some h ∧ locks h None p.
Proof. intros [H _] Hi. destruct (Forall2_lookup_r _ _ _ _ _ H Hi) as (h & Hh & ?). eauto. Qed.

Lemma lock_state_set {A} (s s' : St) L (ts : list (prog A)) tr tr' held i p h :
  lock_state (mkConf s L ts tr) held → held !! i = Some h → locks h None p →
  lock_state (mkConf s' L (<[i := p]> ts) tr') held.
Proof.
  intros [HF HL] Hi Hp. split; cbn in *; [|done].
  rewrite <- (list_insert_id held i h Hi). by apply Forall2_insert.
Qed.

Lemma lock_state_step {A} T answers (c c' : conf A) held :
  lock_state c held → step T answers c c' → ∃ held', lock_state c' held'.
Proof.
  intros Hst Hstep. destruct Hstep as [s L ts tr i X f k t Hi _|s L ts tr i key k Hi Hfree|s L ts tr i key k Hi
    |s L ts tr i X c k x Hi _|s L ts tr i X c k x Hi _|s L ts tr i X c k Hi];
    destruct (lock_state_task _ _ _ _ Hst Hi) as (h & Hh & Hp); cbn in Hp.
  - exists held. by eapply lock_state_set.
  - destruct Hp as [-> Hk]. exists (<[i := Some key]> held). destruct Hst as [HF HL]. cbn in *.
    pose proof (lookup_lt_Some _ _ _ Hh) as Hlt. split; cbn; [by apply Forall2_insert|].
    intros key' j. destruct (decide (key' = key)) as [->|Hne].
    + rewrite lookup_insert_eq. split.
      * intros [= <-]. by apply list_lookup_insert_eq.
      * intros Hj. destruct (decide (i = j)) as [->|Hij]; [done|].
        rewrite list_lookup_insert_ne in Hj by done. apply HL in Hj. congruence.
    + rewrite lookup_insert_ne by done. rewrite HL. destruct (decide (i = j)) as [->|Hij].
      * rewrite list_lookup_insert_eq by done. split; intros E; simplify_eq.
      * by rewrite list_lookup_insert_ne.
  - destruct Hp as [-> Hk]. exists (<[i := None]> held). destruct Hst as [HF HL]. cbn in *.
    pose proof (lookup_lt_Some _ _ _ Hh) as Hlt. split; cbn; [by apply Forall2_insert|].
    intros key' j. destruct (decide (key' = key)) as [->|Hne].
    + rewrite lookup_delete_eq. split; [done|]. intros Hj. apply HL in Hh.
      destruct (decide (i = j)) as [->|Hij].
      * rewrite list_lookup_insert_eq in Hj by done. done.
      * rewrite list_lookup_insert_ne in Hj by done. apply HL in Hj. congruence.
    + rewrite lookup_delete_ne by done. rewrite HL. destruct (decide (i = j)) as [->|Hij].
      * rewrite list_lookup_insert_eq by done. split; intros E; simplify_eq.
      * by rewrite list_lookup_insert_ne.
  - exists held. by eapply lock_state_set.
  - exists held. by eapply lock_state_set.
  - exists held. by eapply lock_state_set.
Qed.
(** A task that is neither finished nor waiting for a lock can move. *)
Lemma task_moves {A} T answers t0 s L (ts : list (prog A)) tr i p :
  T t0 → (∀ X c, ∃ x, answers X c x) → ts !! i = Some p → ¬ finished p →
  (∃ c', step T answers (mkConf s L ts tr) c') ∨ ∃ key k, p = Lock key k.
Proof.
  intros Ht Ha Hi Hf. destruct p as [a|X f k|key k|key k|X c k|X c k].
  - destruct Hf. by exists a.
  - left. eexists. by eapply step_act.
  - right. eauto.
  - left. eexists. by eapply step_unlock.
  - left. destruct (Ha X c) as [x Hx]. eexists. by eapply step_call.
  - left. eexists. by eapply step_elapsed.
Qed.

Definition is_ret {A} (p : prog A) : bool := match p with Ret _ => true | _ => false end.

Lemma is_ret_finished {A} (p : prog A) : is_ret p = true ↔ finished p.
Proof. unfold finished. split; [destruct p; try done; eauto|by intros [a ->]]. Qed.

Lemma lock_progress {A} T answers t0 (c : conf A) held :
  T t0 → (∀ X c, ∃ x, answers X c x) → lock_state c held →
  Forall finished (c_tasks c) ∨ ∃ c', step T answers c c'.
Proof.
  intros Ht Ha Hst. destruct c as [s L ts tr]. cbn [c_tasks].
  destruct (decide (Forall (λ p, is_ret p = true) ts)) as [Hall|Hex].
  { left. by eapply list.Forall_impl; [exact Hall|]; intros p ?%is_ret_finished. }
  right. apply not_Forall_Exists in Hex; [|apply _]. apply list.Exists_exists in Hex as (p & Hp & Hnf).
  apply list_elem_of_lookup in Hp as [i Hi]. cbn in Hnf. rewrite is_ret_finished in Hnf.
  destruct (task_moves T answers t0 s L ts tr i p) as [?|(key & k & ->)]; try done.
  destruct (L !! key) as [j|] eqn:Hj; [|eexists; by eapply step_lock].
  (* the holder is not finished and does not wait *)
  pose proof (proj1 (proj2 Hst key j) Hj) as Hheld.
  destruct (Forall2_lookup_l _ _ _ _ _ (proj1 Hst) Hheld) as (q & Hq & Hlq). cbn in Hq.
  destruct (task_moves T answers t0 s L ts tr j q) as [?|(key' & k' & ->)]; try done.
  - intros [a ->]. done.
  - by destruct Hlq.
Qed.

(** *** Every interleaving ends *)

Definition psub {A} (q p : prog A) : Prop :=
  match p with
  | Ret _ => False
  | Act _ k | Upstream _ k => ∃ x, q = k x
  | Lock _ k | Unlock _ k => q = k
  | Timed _ k => ∃ o, q = k o
  end.

Lemma psub_wf {A} : well_founded (@psub A).
Proof.
  intros p. induction p as [a|X f k IH|key k IH|key k IH|X c k IH|X c k IH]; constructor; intros q Hq;
    cbn in Hq; first [destruct Hq as [x Hq] | idtac]; subst; first [apply IH | exact IH | destruct Hq].
Qed.

(** One task of a list moves down a well-founded relation. *)
Definition one_by {A} (R : relation (prog A)) (l' l : list (prog A)) : Prop :=
  ∃ i p p', l !! i = Some p ∧ R p' p ∧ l' = <[i := p']> l.

Lemma one_by_wf {A} (R : relation (prog A)) : well_founded R → well_founded (one_by R).
Proof.
  intros HR l. induction l as [|p l IHl].
  { constructor. intros l' (i & q & q' & Hi & _). done. }
  revert l IHl. induction (HR p) as [p _ IHp]. intros l Hl.
  induction Hl as [l Hl IHl]. constructor. intros l' ([|i] & q & q' & Hi & Hs & ->); cbn in Hi |- *.
  - injection Hi as <-. apply IHp; [done|]. by constructor.
  - apply IHl. exists i, q, q'. done.
Qed.

(** One task advances. *)
Definition tasks_sub {A} : relation (list (prog A)) := one_by psub.

Lemma tasks_sub_wf {A} : well_founded (@tasks_sub A).
Proof. apply one_by_wf, psub_wf. Qed.

Lemma step_tasks {A} T answers (c c' : conf A) :
  step T answers c c' → tasks_sub (c_tasks c') (c_tasks c).
Proof.
  intros []; cbn; (do 3 eexists; split; [eassumption|split; [|reflexivity]]); cbn;
    first [reflexivity | by eexists].
Qed.

Lemma step_wf {A} T answers : well_founded (λ c' c : conf A, step T answers c c').
Proof.
  eapply wf_incl; [|apply (wf_inverse_image _ _ tasks_sub c_tasks tasks_sub_wf)].
  intros c' c. apply step_tasks.
Qed.

Lemma step_length {A} T answers (c c' : conf A) :
  step T answers c c' → length (c_tasks c') = length (c_tasks c).
Proof. intros []; cbn; by rewrite length_insert. Qed.

Lemma finished_stuck {A} T answers (c c' : conf A) :
  Forall finished (c_tasks c) → ¬ step T answers c c'.
Proof.
  intros Hall Hs. destruct (step_tasks _ _ _ _ Hs) as (i & p & p' & Hi & Hp & _).
  by destruct (proj1 (Forall_lookup _ _) Hall i p Hi) as [a ->].
Qed.

(** From any reachable state some continuation completes every request, and no
    execution is infinite. *)
Lemma all_complete {A} T answers t0 (s : St) (ts : list (prog A)) c :
  T t0 → (∀ X c, ∃ x, answers X c x) → Forall (locks None None) ts →
  rtc (step T answers) (start s ts) c →
  Acc (λ c' c, step T answers c c') c ∧
  (Forall finished (c_tasks c) ∨ ∃ c', step T answers c c').
Proof.
  intros Ht Ha Hts Hr. split; [apply step_wf|].
  assert (Hl : ∃ held, lock_state c held).
  { pose proof (lock_state_start s ts Hts) as Hst.
    set (c0 := start s ts) in *. set (h0 := replicate _ _) in Hst. clearbody c0 h0. revert h0 Hst.
    induction Hr as [c0|c0 c1 c2 Hs _ IH]; intros h0 Hst; [eauto|].
    destruct (lock_state_step _ _ _ _ _ Hst Hs) as [h1 H1]. eauto. }
  destruct Hl as [held Hst]. by eapply lock_progress.
Qed.

(** An executable scheduler: it takes the steps of [script], at a fixed time
    and with fixed answers, up to the first that is not possible. *)
Definition sched_one {A} (t : Time) (ans : ∀ X, Call X → X) (i : nat) (c : conf A) : option (conf A) :=
  let '(mkConf s L ts tr) := c in
  match ts !! i with
  | Some (Act f k) => Some (mkConf (fst (f t s)) L (<[i := k (snd (f t s))]> ts) tr)
  | Some (Lock key k) =>
      match L !! key with
      | None => Some (mkConf s (<[key := i]> L) (<[i := k]> ts) tr)
      | Some _ => None
      end
  | Some (Unlock key k) => Some (mkConf s (delete key L) (<[i := k]> ts) tr)
  | Some (@Upstream _ _ _ X q k) =>
      Some (mkConf s L (<[i := k (ans X q)]> ts) (tr ++ [(i, Called q (Some (ans X q)))]))
  | Some (@Timed _ _ _ X q k) =>
      Some (mkConf s L (<[i := k (Some (ans X q))]> ts) (tr ++ [(i, Called q (Some (ans X q)))]))
  | _ => None
  end.

Fixpoint sched {A} (t : Time) (ans : ∀ X, Call X → X) (script : list nat) (c : conf A) : conf A :=
  match script with
  | [] => c
  | i :: script => match sched_one t ans i c with Some c' => sched t ans script c' | None => c end
  end.

Lemma sched_steps {A} (T : Time → Prop) answers t ans script (c : conf A) :
  T t → (∀ X q, answers X q (ans X q)) → rtc (step T answers) c (sched t ans script c).
Proof.
  intros Ht Ha. revert c. induction script as [|i script IH]; intros c; cbn; [done|].
  destruct (sched_one t ans i c) as [c1|] eqn:E; [|done]. apply rtc_l with c1; [|by apply IH].
  destruct c as [s L ts tr]. cbn in E. destruct (ts !! i) as [[]|] eqn:Ei; try discriminate E.
  - injection E as <-. by apply step_act.
  - destruct (L !! _) eqn:El; [done|]. injection E as <-. by apply step_lock.
  - injection E as <-. by apply step_unlock.
  - injection E as <-. apply step_call; auto.
  - injection E as <-. apply step_timed; auto.
Qed.

End programs.

Arguments event _ : clear implicits.
Arguments Env _ _ : clear implicits.
Arguments conf _ _ _ : clear implicits.
Arguments mkConf {St Call A} _ _ _ _.
Arguments c_state {St Call A} _.
Arguments c_locks {St Call A} _.
Arguments c_tasks {St Call A} _.
Arguments c_trace {St Call A} _.
