(* ===== verification/Disconnect.v ===== *)
(** * Disconnect: requests whose client goes away (axum and hyper over
    src/src/cache.rs)

    hyper drops the future of a request whose client disconnects.  What the
    future owned goes with it: the guard of a key lock is released, the call
    it awaited is forgotten, and nothing it had still to do is done.  [drop]
    is that step; it is possible between any two actions, which includes every
    await of the source.  (Closures on the blocking pool outlive the future
    that awaits them; those of the request paths only read.)  A request that
    can be dropped ends in an option; [None] is what is left of a dropped one. *)

From Stdlib Require Import ZArith Lia Wellfounded.
From stdpp Require Import base list strings option gmap relations.
From S2P Require Import Prelude Prog.

#[local] Set Default Proof Using "Type*".

Section drops.
Context {St : Type} {Call : Type → Type} {A : Type}.
Abbreviation task := (prog St Call A).
Abbreviation conf := (conf St Call A).
(** what a dropped task leaves *)
Context (gone : A).
Context (T : Time → Prop) (answers : ∀ X, Call X → X → Prop).

(** The guards a dropped future owned *)
Definition release (i : nat) (L : gmap string nat) : gmap string nat := filter (λ kv, kv.2 ≠ i) L.

Lemma release_lookup i L key j : release i L !! key = Some j ↔ L !! key = Some j ∧ j ≠ i.
Proof. unfold release. by rewrite map_lookup_filter_Some. Qed.

Inductive drop (i : nat) : conf → conf → Prop :=
| drop_task s L ts tr p :
    ts !! i = Some p → is_ret p = false →
    drop i (mkConf s L ts tr) (mkConf s (release i L) (<[i := Ret gone]> ts) tr).

(** An execution in which the tasks of the list were dropped *)
Inductive run_with (c0 : conf) : list nat → conf → Prop :=
| run_refl : run_with c0 [] c0
| run_step drops c c' : run_with c0 drops c → step T answers c c' → run_with c0 drops c'
| run_drop drops i c c' : run_with c0 drops c → drop i c c' → run_with c0 (i :: drops) c'.

Definition any_step (c c' : conf) : Prop := step T answers c c' ∨ ∃ i, drop i c c'.

Lemma run_with_invariant (P : list nat → conf → Prop) c0 drops c :
  P [] c0 → (∀ ds c c', P ds c → step T answers c c' → P ds c') →
  (∀ ds i c c', P ds c → drop i c c' → P (i :: ds) c') →
  run_with c0 drops c → P drops c.
Proof. intros H0 Hs Hd Hr. induction Hr; eauto. Qed.

Lemma run_with_steps c0 drops c c' :
  run_with c0 drops c → rtc (step T answers) c c' → run_with c0 drops c'.
Proof. intros Hr Hs. revert Hr. induction Hs; [done|]. intros Hr. by eapply IHHs, run_step. Qed.

Lemma run_length c0 drops c : run_with c0 drops c → length (c_tasks c) = length (c_tasks c0).
Proof.
  intros Hr. induction Hr as [|drops c c' _ IH Hs|drops i c c' _ IH Hd]; [done|..].
  - by rewrite (step_length _ _ _ _ Hs).
  - destruct Hd. cbn in *. by rewrite length_insert.
Qed.

(** ** Locks *)

Lemma lock_state_drop i c c' held :
  lock_state c held → drop i c c' → lock_state c' (<[i := None]> held).
Proof.
  intros Hst Hd. destruct Hd as [s L ts tr p Hi _]. destruct (lock_state_task _ _ _ _ Hst Hi) as (h & Hh & _).
  pose proof (lookup_lt_Some _ _ _ Hh) as Hlt. destruct Hst as [HF HL]. split; cbn in *.
  { by apply Forall2_insert. }
  intros key j. rewrite release_lookup, HL. destruct (decide (i = j)) as [<-|Hne].
  - rewrite list_lookup_insert_eq by done. by split; [intros [_ ?]|].
  - rewrite list_lookup_insert_ne by done. by split; [intros [? _]|].
Qed.

Lemma run_lock_state s ts drops c :
  Forall (locks None None) ts → run_with (start s ts) drops c → ∃ held, lock_state c held.
Proof.
  intros Hts. apply (run_with_invariant (λ _ c, ∃ held, lock_state c held)).
  - eexists. by apply lock_state_start.
  - intros _ c1 c2 [held Hst] Hs. by eapply lock_state_step.
  - intros _ i c1 c2 [held Hst] Hd. eexists. by eapply lock_state_drop.
Qed.

(** When every task has ended, no lock is held. *)
Lemma finished_unlocked (c : conf) held : lock_state c held → Forall finished (c_tasks c) → c_locks c = ∅.
Proof.
  intros [HF HL] Hall. apply map_eq. intros key. rewrite lookup_empty.
  destruct (c_locks c !! key) as [i|] eqn:E; [|done]. apply HL in E.
  destruct (Forall2_lookup_l _ _ _ _ _ HF E) as (p & Hp & Hl).
  destruct (proj1 (Forall_lookup _ _) Hall i p Hp) as [a ->]. done.
Qed.

(** ** What the tasks that stay return *)

Lemma run_returns (Q : nat → A → Prop) s ts drops c i p :
  (∀ i p, ts !! i = Some p → returns (Q i) p) → run_with (start s ts) drops c →
  c_tasks c !! i = Some p → i ∉ drops → returns (Q i) p.
Proof.
  intros Hts Hr. revert i p.
  apply (run_with_invariant (λ ds c, ∀ i p, c_tasks c !! i = Some p → i ∉ ds → returns (Q i) p) (start s ts));
    [by intros i p Hi _; eapply Hts| | |exact Hr]; clear c drops Hr.
  - intros ds c c' IH Hs i p Hi Hn.
    destruct Hs as [s' L ts' tr j X f k t Hj _|s' L ts' tr j key k Hj _|s' L ts' tr j key k Hj
      |s' L ts' tr j X c k x Hj _|s' L ts' tr j X c k x Hj _|s' L ts' tr j X c k Hj]; cbn in *;
      (destruct (decide (j = i)) as [->|Hne];
        [rewrite list_lookup_insert_eq in Hi by (by eapply lookup_lt_Some); injection Hi as <-;
         pose proof (IH _ _ Hj Hn) as Hk; cbn in Hk; auto
        |rewrite list_lookup_insert_ne in Hi by done; eauto]).
  - intros ds j c c' IH Hd i p Hi [Hn Hin]%not_elem_of_cons. destruct Hd as [s' L ts' tr q Hj _]. cbn in *.
    rewrite list_lookup_insert_ne in Hi by done. eauto.
Qed.

(** ** Every interleaving ends *)

Definition psub_drop (q p : task) : Prop := psub q p ∨ (is_ret p = false ∧ q = Ret gone).

Lemma psub_drop_wf : well_founded psub_drop.
Proof.
  assert (Hret : ∀ a, Acc psub_drop (Ret a)).
  { intros a. constructor. by intros q [Hq|[Hq _]]. }
  intros p. induction p as [a|X f k IH|key k IH|key k IH|X c k IH|X c k IH];
    [apply Hret|..]; constructor; intros q [Hq|[_ ->]]; try apply Hret; cbn in Hq;
    first [destruct Hq as [x Hq] | idtac]; subst; first [apply IH | exact IH].
Qed.

Lemma any_step_wf : well_founded (λ c' c, any_step c c').
Proof.
  eapply wf_incl; [|apply (wf_inverse_image _ _ (one_by psub_drop) c_tasks (one_by_wf _ psub_drop_wf))].
  intros c' c [Hs|[i Hd]].
  - destruct (step_tasks _ _ _ _ Hs) as (i & p & p' & Hi & Hp & E). exists i, p, p'. repeat split; [done|by left|done].
  - destruct Hd as [s L ts tr p Hi Hp]. exists i, p, (Ret gone). repeat split; [done|by right].
Qed.

(** Whoever disconnects, the others are answered: no execution is infinite,
    and one that cannot go on by itself has ended every task that was not
    dropped with what it can return, and holds no lock. *)
Lemma drops_complete (Q : nat → A → Prop) t0 s ts drops c :
  T t0 → (∀ X (q : Call X), ∃ x, answers X q x) → Forall (locks None None) ts →
  (∀ i p, ts !! i = Some p → returns (Q i) p) → run_with (start s ts) drops c →
  Acc (λ c' c, any_step c c') c ∧
  ((∀ c', ¬ step T answers c c') → c_locks c = ∅ ∧
     ∀ i p, c_tasks c !! i = Some p → i ∉ drops → ∃ a, p = Ret a ∧ Q i a).
Proof.
  intros Ht Ha Hl HQ Hr. split; [apply any_step_wf|]. intros Hno.
  destruct (run_lock_state _ _ _ _ Hl Hr) as [held Hst].
  destruct (lock_progress T answers t0 c held Ht Ha Hst) as [Hall|[c' Hc']]; [|by destruct (Hno c')].
  split; [by eapply finished_unlocked|]. intros i p Hi Hn.
  destruct (proj1 (Forall_lookup _ _) Hall i p Hi) as [a ->]. exists a. split; [done|].
  exact (run_returns Q s ts drops c i (Ret a) HQ Hr Hi Hn).
Qed.

(** An executable scheduler, with clients that leave; it skips the moves that
    are not possible. *)
Inductive move := Turn (i : nat) | Leave (i : nat).

Definition play_one (t : Time) (ans : ∀ X, Call X → X) (m : move) (c : conf) : option conf :=
  match m with
  | Turn i => sched_one t ans i c
  | Leave i =>
      let '(mkConf s L ts tr) := c in
      match ts !! i with
      | Some p => if is_ret p then None else Some (mkConf s (release i L) (<[i := Ret gone]> ts) tr)
      | None => None
      end
  end.

Fixpoint play (t : Time) (ans : ∀ X, Call X → X) (script : list move) (drops : list nat) (c : conf) : list nat * conf :=
  match script with
  | [] => (drops, c)
  | m :: script =>
      match play_one t ans m c with
      | Some c' => play t ans script (match m with Leave i => i :: drops | Turn _ => drops end) c'
      | None => play t ans script drops c
      end
  end.

Lemma play_runs t ans script drops c0 c :
  T t → (∀ X q, answers X q (ans X q)) → run_with c0 drops c →
  run_with c0 (play t ans script drops c).1 (play t ans script drops c).2.
Proof.
  intros Ht Ha. revert drops c. induction script as [|m script IH]; intros drops c Hr; cbn; [done|].
  destruct (play_one t ans m c) as [c1|] eqn:E; [|by apply IH]. apply IH. destruct m as [i|i].
  - eapply run_with_steps; [exact Hr|].
    pose proof (sched_steps T answers t ans [i] c Ht Ha) as Hs. cbn in E, Hs. by rewrite E in Hs.
  - destruct c as [s L ts tr]. cbn in E. destruct (ts !! i) as [p|] eqn:Ei; [|done].
    destruct (is_ret p) eqn:Er; [done|]. injection E as <-. eapply run_drop; [exact Hr|by eapply drop_task].
Qed.
End drops.
