(* ===== verification/Cache.v ===== *)
(** * Cache: the read-through cache and its single-flight gate
    (src/src/cache.rs)

    The cache answers from the store and, in LAZY mode, fills a miss from
    upstream under a lock of its key.  Every method is a program of [Prog]:
    its actions are the store calls and the critical sections on the maps of
    recent outcomes and re-fetch marks; the upstream client (src/src/pcs.rs) is
    the family [pcs_call] of calls it offers.  Metrics and log lines have no
    effect on the answers and are left out. *)

From Stdlib Require Import ZArith Lia.
From stdpp Require Import base list strings option gmap.
From S2P Require Import Prelude Text Errors Validate Env PckCert Selection Ocsp Keys Database Fifo Records Platforms Registry Urls Prog.

Local Open Scope Z_scope.
Local Open Scope rust_scope.
#[local] Set Default Proof Using "Type*".

(** ** What the upstream client offers *)

(** [metrics::Upstream]: which service a URL fetch is for *)
Inductive Service := IntelPcs | IntelCerts | Pccs | AmdKds | NvidiaRim | NvidiaNras | NvidiaOcsp.

(** An HTTP answer; [hr_header] is [headers.get(name).and_then(to_str().ok())]. *)
Record HttpResponse := {
  hr_status : Z; hr_header : string → option string; hr_body : list Z
}.

(** [pcs::PckCertsResponse] *)
Record PckCertsResponse (V : Type) := {
  pr_certs : list (string * string); pr_not_available : list V;
  pr_fmspc : string; pr_ca : string; pr_issuer_chain : string
}.
Arguments pr_certs {V} _. Arguments pr_not_available {V} _. Arguments pr_fmspc {V} _.
Arguments pr_ca {V} _. Arguments pr_issuer_chain {V} _.

(** The public methods of [PcsClient] that the cache awaits. *)
Inductive pcs_call (V : Type) : Type → Type :=
| get_url_for (upstream : Service) (url : string) : pcs_call V (res HttpResponse)
| post_json_once (url payload : string) : pcs_call V (res HttpResponse)
| post_bytes_once (url content_type : string) (body : list Z) : pcs_call V (res HttpResponse)
| fetch_pckcert_pccs (qeid cpusvn pcesvn pceid : string) (enc_ppid : option string) :
    pcs_call V (res PckCertRecord)
| fetch_pckcerts_intel (enc_ppid pceid : string) : pcs_call V (res (PckCertsResponse V))
| fetch_pckcerts_intel_manifest (platform_manifest pceid : string) :
    pcs_call V (res (PckCertsResponse V))
| fetch_tcb (prod_type : Z) (fmspc : string) (version : Z) (update : UpdateType) :
    pcs_call V (res (TcbRecord V))
| fetch_identity (enclave_id version : Z) (update : UpdateType) : pcs_call V (res (IdentityRecord V))
| fetch_pckcrl (ca : string) : pcs_call V (res PckCrlRecord)
| fetch_rootcacrl : pcs_call V (res (list Z))
| fetch_crl (uri : string) : pcs_call V (res (list Z)).
Arguments get_url_for {V} _ _. Arguments post_json_once {V} _ _. Arguments post_bytes_once {V} _ _ _.
Arguments fetch_pckcert_pccs {V} _ _ _ _ _. Arguments fetch_pckcerts_intel {V} _ _.
Arguments fetch_pckcerts_intel_manifest {V} _ _. Arguments fetch_tcb {V} _ _ _ _.
Arguments fetch_identity {V} _ _ _. Arguments fetch_pckcrl {V} _. Arguments fetch_rootcacrl {V}.
Arguments fetch_crl {V} _.

(** ** State *)

(** [config::CacheMode] *)
Inductive CacheMode := Lazy | Offline | Req.

#[export] Instance Service_eq_dec : EqDecision Service.
Proof. solve_decision. Defined.

#[export] Instance UpdateType_eq_dec : EqDecision UpdateType.
Proof. solve_decision. Defined.

#[export] Instance CacheMode_eq_dec : EqDecision CacheMode.
Proof. solve_decision. Defined.

Record AmdKdsResponse := {
  ar_status : Z; ar_body : list Z; ar_content_type : option string;
  ar_content_disposition : option string; ar_retry_after : option string
}.

(** [impl From<AmdKdsRecord> for AmdKdsResponse] *)
Definition response_of (rec : AmdKdsRecord) : AmdKdsResponse :=
  {| ar_status := 200; ar_body := ak_body rec; ar_content_type := ak_content_type rec;
     ar_content_disposition := ak_content_disposition rec; ar_retry_after := None |}.

Inductive RecentOutcome :=
| RecentErr (e : PccsError)
| RecentResponse (r : AmdKdsResponse).

(** The fields of [Cache] that never change; durations in nanoseconds. *)
Record Config := {
  mode : CacheMode;
  pcs_version : Z;
  is_intel : bool;
  (** [pcs.enabled()] *)
  pcs_enabled : bool;
  pool_refetch_on_new_tcb : bool;
  scheduled_pool_refresh : bool;
  pool_refetch_interval : Z;
  amd_kds_uri : string;
  amd_kds_cache_ttl_secs : Z;
  nvidia_rim_uri : string;
  nvidia_rim_cache_ttl_secs : Z;
  nvidia_nras_uri : string;
  nvidia_ocsp_uri : string;
  nvidia_ocsp_max_ttl_secs : Z;
  nvidia_ocsp_default_ttl_secs : Z
}.

(** What the requests share. *)
Record Shared (D : Type) := mkShared {
  w_store : Store D;
  w_failures : gmap string (Z * RecentOutcome);
  w_marks : gmap string Z
}.
Arguments mkShared {D} _ _ _.
Arguments w_store {D} _. Arguments w_failures {D} _. Arguments w_marks {D} _.

Definition FAILURE_TTL : Z := 1_000_000_000.
Definition RECENT_OUTCOMES_MAX : Z := 1024.
Definition RECENT_BODY_MAX : Z := 64 * 1024.

(** [at.elapsed()] at monotonic time [now] *)
Definition elapsed (now at_ : Z) : Z := sat_sub now at_.

(** [(100..200).contains(&status) || (300..400).contains(&status)] *)
Definition informational_or_redirect (status : Z) : bool :=
  ((100 <=? status) && (status <? 200)) || ((300 <=? status) && (status <? 400)).

Section cache.
Context {D V : Type} `{Database D} `{Json V} `{Base64} `{Sha2} `{Chrono}.
Context `{Serde PckCertRecord} `{Serde PlatformPool} `{Serde (TcbRecord V)} `{Serde (IdentityRecord V)}
  `{Serde PckCrlRecord} `{Serde (list Z)} `{Serde CrlRecord} `{Serde AmdKdsRecord}
  `{Serde NvidiaOcspRecord} `{Serde RegisteredPlatform}.
Context (cfg : Config).

(** Programs, and programs that return a [Result] *)
Definition P (A : Type) : Type := prog (Shared D) (pcs_call V) A.
Definition CM (A : Type) : Type := P (res A).

#[local] Instance CM_bind : MBind CM := λ A B f c,
  pbind c (λ r, match r with Ok a => f a | Err e => Ret (Err e) end).

Definition set_store (s : Shared D) (st : Store D) : Shared D := mkShared st (w_failures s) (w_marks s).
Definition set_failures (s : Shared D) (m : gmap string (Z * RecentOutcome)) : Shared D :=
  mkShared (w_store s) m (w_marks s).
Definition set_marks (s : Shared D) (m : gmap string Z) : Shared D :=
  mkShared (w_store s) (w_failures s) m.

(** ** Actions *)

(** A read of the store, and a store operation *)
Definition peek {A} (f : Store D → A) : P A := Act (λ _ s, (s, f (w_store s))) Ret.
Definition store_do {A} (f : Time → M D A) : CM A :=
  Act (λ t s, let '(st, r) := f t (w_store s) in (set_store s st, r)) Ret.

Definition unix_time : P Z := Act (λ t s, (s, t_secs t)) Ret.

Definition answer {A} (a : A) : CM A := Ret (Ok a).
Definition throw {A} (e : PccsError) : CM A := Ret (Err e).
(** [let _ = c;] *)
Definition discard {A} (c : CM A) : P unit := pmap (λ _, ()) c.
Definition upstream {A} (c : pcs_call V (res A)) : CM A := Upstream c Ret.

(** ** The gate *)

(** [Cache::miss_v3] *)
Definition miss_v3 (version : Z) : PccsError :=
  if (version =? 3) && bool_decide (mode cfg = Lazy) then PCS_V3_REACHED_EOL else NO_CACHE_DATA.

(** [Cache::recent_outcome]: a stale outcome is forgotten. *)
Definition recent_outcome (key : string) : P (option RecentOutcome) :=
  Act (λ t s,
    match w_failures s !! key with
    | Some (at_, outcome) =>
        if elapsed (t_mono t) at_ <? FAILURE_TTL then (s, Some outcome)
        else (set_failures s (delete key (w_failures s)), None)
    | None => (s, None)
    end) Ret.

Definition recent_failure (key : string) : P (option PccsError) :=
  pmap (λ o, match o with Some (RecentErr e) => Some e | _ => None end) (recent_outcome key).

Definition recent_non200 (key : string) : P (option AmdKdsResponse) :=
  pmap (λ o, match o with Some (RecentResponse r) => Some r | _ => None end) (recent_outcome key).

(** [Cache::remember]: the critical section on the map *)
Definition remember_in (key : string) (outcome : RecentOutcome) (now : Z)
    (m : gmap string (Z * RecentOutcome)) : gmap string (Z * RecentOutcome) :=
  if (RECENT_OUTCOMES_MAX <=? Z.of_nat (size m)) && bool_decide (m !! key = None) then
    let m := filter (λ kv, elapsed now kv.2.1 < FAILURE_TTL) m in
    if RECENT_OUTCOMES_MAX <=? Z.of_nat (size m) then m else <[key := (now, outcome)]> m
  else <[key := (now, outcome)]> m.

Definition too_large (outcome : RecentOutcome) : bool :=
  match outcome with
  | RecentResponse r => RECENT_BODY_MAX <? Z.of_nat (length (ar_body r))
  | RecentErr _ => false
  end.

Definition remember (key : string) (outcome : RecentOutcome) : P unit :=
  if too_large outcome then Ret ()
  else Act (λ t s, (set_failures s (remember_in key outcome (t_mono t) (w_failures s)), ())) Ret.

(** [Cache::note] *)
Definition note {A} (key : string) (result : res A) : CM A :=
  match result with
  | Err e => pbind (remember key (RecentErr e)) (λ _, Ret result)
  | Ok _ => Ret result
  end.

(** [let _guard = self.key_lock(key).await ..] followed by the rest of the
    scope [body]; [on_err] is what the caller does with a recent failure. *)
Definition lock_scope {A} (key : string) (on_err : PccsError → A) (body : P A) : P A :=
  Lock key (pbind (recent_failure key) (λ o,
    match o with
    | Some e => Unlock key (Ret (on_err e))
    | None => pbind body (λ a, Unlock key (Ret a))
    end)).

Definition with_key_lock {A} (key : string) (body : CM A) : CM A := lock_scope key Err body.

(** [Cache::cacheable] *)
Definition cacheable (chain : string) : bool := negb (is_empty (trim chain)).

(** ** Read-through URLs *)

Definition header (r : HttpResponse) (name : string) : option string := hr_header r name.

(** [Cache::drop_expired] *)
Definition drop_expired (key : string) : P unit := discard (store_do (λ _, delete_key key)).

(** What [get_cached_url] does with the upstream's answer. *)
Definition cached_url_answer (url key : string) (access_failure : PccsError)
    (save : Z → AmdKdsRecord → M D unit) (fetched : HttpResponse) : CM AmdKdsResponse :=
  let content_type := header fetched "content-type" in
  let content_disposition := header fetched "content-disposition" in
  let retry_after := header fetched "retry-after" in
  if informational_or_redirect (hr_status fetched) then note key (Err access_failure)
  else if negb (hr_status fetched =? 200) then
    let rec := {| ar_status := hr_status fetched; ar_body := hr_body fetched; ar_content_type := content_type;
                  ar_content_disposition := content_disposition; ar_retry_after := retry_after |} in
    pbind (remember key (RecentResponse rec)) (λ _, answer rec)
  else
    pbind unix_time (λ now,
      let rec := {| ak_url := url; ak_body := hr_body fetched; ak_content_type := content_type;
                    ak_content_disposition := content_disposition; ak_fetched_at := now |} in
      _ ← store_do (λ t, save (t_micros t) rec);
      answer (response_of rec)).

(** The part under the key lock. *)
Definition cached_url_locked (url : string) (ttl : Z) (service : Service) (key : string)
    (access_failure : PccsError) (load : Store D → string → option AmdKdsRecord)
    (save : Z → AmdKdsRecord → M D unit) : CM AmdKdsResponse :=
  pbind (recent_non200 key) (λ o,
    match o with
    | Some rec => answer rec
    | None =>
        pbind unix_time (λ now,
        pbind (peek (λ st, load st url)) (λ o,
          let fetch : CM AmdKdsResponse :=
            pbind (upstream (get_url_for service url)) (λ fetched,
            response ← note key (map_err fetched (λ _, access_failure));
            cached_url_answer url key access_failure save response) in
          match o with
          | Some rec =>
              if sat_sub now (ak_fetched_at rec) <? ttl then answer (response_of rec)
              else pbind (drop_expired key) (λ _, fetch)
          | None => fetch
          end))
    end).

(** [Cache::get_cached_url] *)
Definition get_cached_url (url : string) (ttl : Z) (service : Service) (key_for : string → string)
    (access_failure : PccsError) (load : Store D → string → option AmdKdsRecord)
    (save : Z → AmdKdsRecord → M D unit) : CM AmdKdsResponse :=
  let key := key_for url in
  pbind unix_time (λ now,
  pbind (peek (λ st, load st url)) (λ o,
    let miss : CM AmdKdsResponse :=
      if bool_decide (mode cfg = Lazy) then
        with_key_lock key (cached_url_locked url ttl service key access_failure load save)
      else throw NO_CACHE_DATA in
    match o with
    | Some rec =>
        if sat_sub now (ak_fetched_at rec) <? ttl then answer (response_of rec)
        else if bool_decide (mode cfg = Lazy) then miss
        else pbind (drop_expired key) (λ _, miss)
    | None => miss
    end)).

Definition get_amd_kds (path_and_query : string) : CM AmdKdsResponse :=
  path_and_query ← Ret (canonicalize_amd_kds path_and_query) : CM string;
  get_cached_url (join_host_path (amd_kds_uri cfg) path_and_query) (amd_kds_cache_ttl_secs cfg) AmdKds
    amd_kds AMD_KDS_ACCESS_FAILURE Records.get_amd_kds put_amd_kds.

Definition get_nvidia_rim (path_and_query : string) : CM AmdKdsResponse :=
  path_and_query ← Ret (canonicalize_nvidia_rim path_and_query) : CM string;
  get_cached_url (join_host_path (nvidia_rim_uri cfg) path_and_query) (nvidia_rim_cache_ttl_secs cfg)
    NvidiaRim nvidia_rim NVIDIA_RIM_ACCESS_FAILURE Records.get_nvidia_rim put_nvidia_rim.

(** [Cache::get_nvidia_nras]: proxied, never cached *)
Definition get_nvidia_nras (body : V) : CM AmdKdsResponse :=
  if bool_decide (mode cfg = Offline) then throw SERVICE_UNAVAILABLE
  else if is_empty (nvidia_nras_uri cfg) then throw NVIDIA_NRAS_ACCESS_FAILURE
  else
    let url := (nvidia_nras_uri cfg ++ "/v3/attest/gpu")%string in
    pbind (upstream (post_json_once url (json_print body))) (λ r,
    r ← Ret (map_err r (λ _, NVIDIA_NRAS_ACCESS_FAILURE)) : CM HttpResponse;
    answer {| ar_status := hr_status r; ar_body := hr_body r; ar_content_type := header r "content-type";
            ar_content_disposition := None; ar_retry_after := header r "retry-after" |}).

(** [Cache::post_nvidia_ocsp] *)
Definition post_nvidia_ocsp (body : list Z) : CM AmdKdsResponse :=
  if is_empty (nvidia_ocsp_uri cfg) then throw NVIDIA_OCSP_ACCESS_FAILURE
  else
    pbind (upstream (post_bytes_once (nvidia_ocsp_uri cfg) "application/ocsp-request" body)) (λ r,
    r ← Ret (map_err r (λ _, NVIDIA_OCSP_ACCESS_FAILURE)) : CM HttpResponse;
    if informational_or_redirect (hr_status r) then throw NVIDIA_OCSP_ACCESS_FAILURE
    else
      answer {| ar_status := hr_status r; ar_body := hr_body r;
              ar_content_type := match header r "content-type" with
                                 | Some c => Some c
                                 | None => Some "application/ocsp-response"%string
                                 end;
              ar_content_disposition := None; ar_retry_after := header r "retry-after" |}).

(** The answer built from a cached OCSP record *)
Definition ocsp_response_of (rec : NvidiaOcspRecord) : AmdKdsResponse :=
  {| ar_status := 200; ar_body := no_body rec; ar_content_type := no_content_type rec;
     ar_content_disposition := None; ar_retry_after := None |}.

Definition without_retry (r : AmdKdsResponse) : AmdKdsResponse :=
  {| ar_status := ar_status r; ar_body := ar_body r; ar_content_type := ar_content_type r;
     ar_content_disposition := ar_content_disposition r; ar_retry_after := None |}.

(** What [get_nvidia_ocsp] does with the responder's answer. *)
Definition ocsp_answer (cache_key store_key : string) (resp : AmdKdsResponse) : CM AmdKdsResponse :=
  if negb (ar_status resp =? 200) then
    pbind (remember store_key (RecentResponse resp)) (λ _, answer resp)
  else
    pbind unix_time (λ now,
    now ← Ret (ok_or (i64_try_from now) INTERNAL_ERROR) : CM Z;
    match response_cache_expiry (ar_body resp) now (nvidia_ocsp_max_ttl_secs cfg)
            (nvidia_ocsp_default_ttl_secs cfg) with
    | Err _ => answer resp
    | Ok expires_at =>
        pbind unix_time (λ fetched_at,
          let rec := {| no_cache_key := cache_key; no_body := ar_body resp;
                        no_content_type := ar_content_type resp; no_fetched_at := fetched_at;
                        no_expires_at := expires_at |} in
          _ ← store_do (λ t, put_nvidia_ocsp (t_micros t) rec);
          answer (without_retry resp))
    end).

Definition ocsp_locked (body : list Z) (cache_key store_key : string) : CM AmdKdsResponse :=
  pbind (recent_non200 store_key) (λ o,
    match o with
    | Some rec => answer rec
    | None =>
        pbind unix_time (λ now,
        pbind (peek (λ st, Records.get_nvidia_ocsp st cache_key)) (λ o,
          let fetch : CM AmdKdsResponse :=
            pbind (post_nvidia_ocsp body) (λ r,
            resp ← note store_key r;
            ocsp_answer cache_key store_key resp) in
          match o with
          | Some rec =>
              if now <? no_expires_at rec then answer (ocsp_response_of rec)
              else pbind (drop_expired store_key) (λ _, fetch)
          | None => fetch
          end))
    end).

(** [Cache::get_nvidia_ocsp] *)
Definition get_nvidia_ocsp (body : list Z) : CM AmdKdsResponse :=
  request ← Ret (parse_request body) : CM OcspRequest;
  let cache_key := Ocsp.cache_key request in
  let store_key := nvidia_ocsp cache_key in
  pbind unix_time (λ now,
  pbind (peek (λ st, Records.get_nvidia_ocsp st cache_key)) (λ o,
    let miss : CM AmdKdsResponse :=
      if bool_decide (mode cfg = Lazy) then with_key_lock store_key (ocsp_locked body cache_key store_key)
      else throw NO_CACHE_DATA in
    match o with
    | Some rec =>
        if now <? no_expires_at rec then answer (ocsp_response_of rec)
        else if bool_decide (mode cfg = Lazy) then miss
        else pbind (drop_expired store_key) (λ _, miss)
    | None => miss
    end)).

(** [Cache::sweep_expired] *)
Definition sweep_expired : P unit :=
  pbind unix_time (λ now,
  let expired (ttl : Z) (rec : AmdKdsRecord) := ttl <=? sat_sub now (ak_fetched_at rec) in
  pbind (discard (store_do (λ _, sweep_prefix AMD_KDS (expired (amd_kds_cache_ttl_secs cfg))))) (λ _,
  pbind (discard (store_do (λ _, sweep_prefix NVIDIA_RIM (expired (nvidia_rim_cache_ttl_secs cfg))))) (λ _,
  discard (store_do (λ _, sweep_prefix NVIDIA_OCSP (λ rec, no_expires_at rec <=? now)))))).

(** ** Signed collateral *)

(** [Cache::get_tcb] *)
Definition get_tcb (prod_type : Z) (fmspc : string) (version : Z) (update : UpdateType) : CM (TcbRecord V) :=
  pbind (peek (λ st, Records.get_tcb st prod_type fmspc version update)) (λ o,
  match o with
  | Some rec => answer rec
  | None =>
      if negb (bool_decide (mode cfg = Lazy)) then throw (miss_v3 version)
      else if version =? 3 then throw PCS_V3_REACHED_EOL
      else if negb (pcs_enabled cfg) then throw NO_CACHE_DATA
      else
        let key := tcb (prod_name prod_type) version fmspc (UpdateType_as_str update) in
        with_key_lock key (
          pbind (peek (λ st, Records.get_tcb st prod_type fmspc version update)) (λ o,
          match o with
          | Some rec => answer rec
          | None =>
              rec ← (pbind (upstream (fetch_tcb prod_type fmspc version update)) (note key) : CM (TcbRecord V));
              if cacheable (tr_issuer_chain rec) then
                _ ← store_do (λ _, put_tcb rec); answer rec
              else answer rec
          end))
  end).

(** [Cache::get_identity] *)
Definition get_identity (enclave_id version : Z) (update : UpdateType) : CM (IdentityRecord V) :=
  pbind (peek (λ st, Records.get_identity st enclave_id version update)) (λ o,
  match o with
  | Some rec => answer rec
  | None =>
      if negb (bool_decide (mode cfg = Lazy)) then throw (miss_v3 version)
      else if version =? 3 then throw PCS_V3_REACHED_EOL
      else if negb (pcs_enabled cfg) then throw NO_CACHE_DATA
      else
        let key := identity (identity_name enclave_id) version (UpdateType_as_str update) in
        with_key_lock key (
          pbind (peek (λ st, Records.get_identity st enclave_id version update)) (λ o,
          match o with
          | Some rec => answer rec
          | None =>
              rec ← (pbind (upstream (fetch_identity enclave_id version update)) (note key) : CM (IdentityRecord V));
              if cacheable (ir_issuer_chain rec) then
                _ ← store_do (λ _, put_identity rec); answer rec
              else answer rec
          end))
  end).

(** [Cache::get_pckcrl] *)
Definition get_pckcrl (ca : string) (version : Z) : CM PckCrlRecord :=
  pbind (peek (λ st, Records.get_pckcrl st ca)) (λ o,
  match o with
  | Some rec => answer rec
  | None =>
      if negb (bool_decide (mode cfg = Lazy)) then throw (miss_v3 version)
      else if version =? 3 then throw PCS_V3_REACHED_EOL
      else if negb (pcs_enabled cfg) then throw NO_CACHE_DATA
      else
        let key := pckcrl ca in
        with_key_lock key (
          pbind (peek (λ st, Records.get_pckcrl st ca)) (λ o,
          match o with
          | Some rec => answer rec
          | None =>
              rec ← (pbind (upstream (fetch_pckcrl ca)) (note key) : CM PckCrlRecord);
              if cacheable (cr_issuer_chain rec) then
                _ ← store_do (λ _, put_pckcrl rec); answer rec
              else answer rec
          end))
  end).

(** [Cache::get_rootcacrl] *)
Definition get_rootcacrl (version : Z) : CM (list Z) :=
  pbind (peek Records.get_rootcacrl) (λ o,
  match o with
  | Some rec => answer rec
  | None =>
      if negb (bool_decide (mode cfg = Lazy)) then throw (miss_v3 version)
      else if version =? 3 then throw PCS_V3_REACHED_EOL
      else if negb (pcs_enabled cfg) then throw NO_CACHE_DATA
      else
        let key := rootcacrl in
        with_key_lock key (
          pbind (peek Records.get_rootcacrl) (λ o,
          match o with
          | Some rec => answer rec
          | None =>
              rec ← (pbind (upstream fetch_rootcacrl) (note key) : CM (list Z));
              _ ← store_do (λ _, put_rootcacrl rec);
              answer rec
          end))
  end).

(** [Cache::get_crl] (no version check) *)
Definition get_crl (uri : string) (version : Z) : CM (list Z) :=
  pbind (peek (λ st, Records.get_crl st uri)) (λ o,
  match o with
  | Some rec => answer rec
  | None =>
      if negb (bool_decide (mode cfg = Lazy)) then throw (miss_v3 version)
      else if negb (pcs_enabled cfg) then throw NO_CACHE_DATA
      else
        let key := crl uri in
        with_key_lock key (
          pbind (peek (λ st, Records.get_crl st uri)) (λ o,
          match o with
          | Some rec => answer rec
          | None =>
              rec ← (pbind (upstream (fetch_crl uri)) (note key) : CM (list Z));
              _ ← store_do (λ _, put_crl uri rec);
              answer rec
          end))
  end).
End cache.

#[export] Existing Instance CM_bind.
