(* ===== verification/Pcs.v ===== *)
(** * Pcs: the upstream client (src/src/pcs.rs)

    Every method of [PcsClient] as a program over single HTTP exchanges and
    backoff sleeps: the retry loop, the subscription key, the URL of each
    request, what is read off each response.  The transport (hyper, rustls)
    is the family [http_call]; metrics and log lines are left out, and so is
    the wait for a permit, which bounds concurrency and always succeeds (the
    semaphore is never closed).  [client] then implements the interface
    [pcs_call] that the cache is written against, and [over_http] runs a
    program of the cache on top of it. *)

From Stdlib Require Import ZArith Lia.
From stdpp Require Import base list strings option gmap.
From S2P Require Import Prelude Text Errors Validate Env PckCert Selection Ocsp Keys Database Fifo Records Platforms Registry Urls Prog Cache.

Local Open Scope Z_scope.
Local Open Scope rust_scope.
#[local] Set Default Proof Using "Type*".

(** ** The transport *)

Inductive Method := GET | POST.

Record HttpRequest := {
  rq_method : Method; rq_url : string; rq_content_type : option string;
  (** the [Ocp-Apim-Subscription-Key] header *)
  rq_key : option string;
  rq_body : list Z
}.

(** [tokio::time::timeout(REQUEST_TIMEOUT, ..)] around an exchange *)
Inductive exchange_result :=
| TimedOut
| TransportError
| Answered (r : HttpResponse).

Inductive http_call : Type → Type :=
| exchange (r : HttpRequest) : http_call exchange_result
(** milliseconds *)
| sleep (ms : Z) : http_call unit.

(** What the [http] crate accepts as a URI and as a header value. *)
Class HttpSyntax := {
  uri_parses : string → bool;
  header_value_ok : string → bool
}.

(** [HeaderValue::from_str] takes visible ASCII. *)
Class HttpSyntaxLaws `{HttpSyntax} := {
  visible_header_value v :
    str_all (λ c, (32 <=? byte_of c) && (byte_of c <? 127)) v = true → header_value_ok v = true
}.

(** ** Constants and text helpers *)

Definition MAX_RESPONSE_BYTES : Z := 16 * 1024 * 1024.
Definition MAX_THROTTLED_ATTEMPTS : Z := 3.
(** milliseconds *)
Definition MAX_RETRY_AFTER : Z := 30_000.
Definition INTEL_ROOT_CA_CRL_URL : string :=
  "https://certificates.trustedservices.intel.com/IntelSGXRootCA.der".
Definition EARLY_ACCESS_PREFIX : string := "https://validation.api.trustedservices.intel.com/".

(** [QUERY_VALUE]: what stays as it is *)
Definition unreserved (c : ascii) : bool :=
  is_alnum c || Ascii.eqb c "-" || Ascii.eqb c "_" || Ascii.eqb c "." || Ascii.eqb c "~".

Definition q `{PercentEncoding} (value : string) : string :=
  utf8_percent_encode (λ c, negb (unreserved c)) value.

Definition normalize_base (uri : string) : string :=
  let u := trim uri in
  if is_empty u then ""%string else if ends_with "/" u then u else (u ++ "/")%string.

Definition tdx_if (sgx_base : string) (tdx : bool) : string :=
  if tdx then replace "/sgx/" "/tdx/" sgx_base else sgx_base.

(** [retry_after], in milliseconds *)
Definition retry_after (r : HttpResponse) : option Z :=
  v ← header r "retry-after";
  secs ← parse_uint u64_max (trim v);
  Some (Z.min (secs * 1000) MAX_RETRY_AFTER).

(** The [percent_decode] of this file: two hex digits, read by
    [u8::from_str_radix], must be followed by nothing less than the end. *)
Fixpoint percent_bytes_pcs (s : string) : list Z :=
  match s with
  | EmptyString => []
  | String c s' =>
      match s' with
      | String a (String b r) =>
          match (if Ascii.eqb c "%" then from_str_radix16 255 (String a (String b EmptyString)) else None) with
          | Some v => v :: percent_bytes_pcs r
          | None => byte_of c :: percent_bytes_pcs s'
          end
      | _ => byte_of c :: percent_bytes_pcs s'
      end
  end.
Definition percent_decode_pcs (s : string) : string := of_bytes (utf8_lossy (percent_bytes_pcs s)).

(** *** [redact_url] *)

(** The [char]s of a string: a continuation byte belongs to the char before it. *)
Definition is_cont (c : ascii) : bool := (128 <=? byte_of c) && (byte_of c <? 192).
Fixpoint chars_count (s : string) : nat :=
  match s with
  | EmptyString => 0
  | String c s => if is_cont c then chars_count s else S (chars_count s)
  end.
(** [.chars().take(n)] and [.chars().skip(n)] *)
Fixpoint chars_skip (n : nat) (s : string) : string :=
  match s with
  | EmptyString => EmptyString
  | String c s' =>
      if is_cont c then chars_skip n s'
      else match n with O => s | S n => chars_skip n s' end
  end.
Fixpoint chars_take (n : nat) (s : string) : string :=
  match s with
  | EmptyString => EmptyString
  | String c s' =>
      if is_cont c then String c (chars_take n s')
      else match n with O => EmptyString | S n => String c (chars_take n s') end
  end.

Definition redact_param (param : string) : string :=
  match split_once "=" param with
  | Some (k, v) =>
      if (50 <? chars_count v)%nat then
        (k ++ "=" ++ chars_take 4 v ++ "..." ++ chars_skip (chars_count v - 4) v)%string
      else param
  | None => param
  end.

Definition redact_url (url : string) : string :=
  match split_once "?" url with
  | None => url
  | Some (path, query) => (path ++ "?" ++ str_join "&" (map redact_param (split "&" query)))%string
  end.

(** *** The CRL distribution point of the root CA *)

(** [pem.rsplit(p).next()]: what follows the last occurrence of [p] *)
Fixpoint after_last (p s : string) : string :=
  match s with
  | EmptyString => s
  | String _ s' =>
      if contains p s' then after_last p s'
      else match strip_prefix p s with Some r => r | None => s end
  end.

Definition before_first (p s : string) : string :=
  match split_once_str p s with Some (l, _) => l | None => s end.

Definition last_pem_der `{Base64} (pem : string) : option (list Z) :=
  let block := after_last BEGIN_CERT pem in
  b64_std_decode (str_filter (λ c, negb (is_ascii_ws c)) (before_first END_CERT block)).

Definition CDP_OID : list Z := [0x06; 0x03; 0x55; 0x1d; 0x1f].

Fixpoint list_prefix (p l : list Z) : bool :=
  match p, l with
  | [], _ => true
  | x :: p, y :: l => (x =? y) && list_prefix p l
  | _, _ => false
  end.

(** The bytes after the first occurrence of the OID. *)
Fixpoint after_oid (der : list Z) : option (list Z) :=
  if list_prefix CDP_OID der then Some (drop 5 der)
  else match der with [] => None | _ :: der => after_oid der end.

(** The scan for a [6] IMPLICIT IA5String.  [window] counts the positions
    left before [end], and the loop needs a byte after the current one. *)
Fixpoint scan_uri (window : nat) (der : list Z) : option string :=
  match window, der with
  | S (S _ as window'), t :: ((n :: content) as rest) =>
      let candidate :=
        if (t =? 0x86) && (n <? 0x80) && (n <=? Z.of_nat (length content)) then
          let uri := take (Z.to_nat n) content in
          if utf8_valid uri && starts_with "http" (of_bytes uri) then Some (of_bytes uri) else None
        else None in
      match candidate with Some u => Some u | None => scan_uri window' rest end
  | _, _ => None
  end.

Definition crl_distribution_point (der : list Z) : option string :=
  l ← after_oid der; scan_uri (Nat.min (length l) 512) l.

(** ** The client *)

(** The fields of [PcsClient] that decide what it sends. *)
Record Client := {
  base : string;
  api_key : string;
  pcs_is_intel : bool;
  max_attempts : nat
}.

(** [PcsClient::new]: a proxy is refused. *)
Definition new (proxy uri key : string) (intel : bool) (attempts : nat) : option Client :=
  if negb (is_empty (trim proxy)) then None
  else Some {| base := normalize_base uri; api_key := key; pcs_is_intel := intel;
               max_attempts := Nat.max attempts 1 |}.

Section client.
Context {St V : Type} `{Json V} `{Base64} `{HttpSyntax} `{PercentEncoding}.
Context (cl : Client).

Definition Net (A : Type) : Type := prog St http_call A.
Definition NetM (A : Type) : Type := Net (res A).

#[local] Instance NetM_bind : MBind NetM := λ A B f c,
  pbind c (λ r, match r with Ok a => f a | Err e => Ret (Err e) end).

Definition ok {A} (a : A) : NetM A := Ret (Ok a).
Definition err {A} (e : PccsError) : NetM A := Ret (Err e).
Definition lift {A} (r : res A) : NetM A := Ret r.

Definition enabled : bool := negb (is_empty (base cl)).

Definition check_v3 (url : string) : res unit :=
  if contains "/v3/" url then Err PCS_V3_REACHED_EOL else Ok ().

(** [url.split(['?', '#']).next()] *)
Fixpoint url_path (url : string) : string :=
  match url with
  | EmptyString => EmptyString
  | String c s => if Ascii.eqb c "?" || Ascii.eqb c "#" then EmptyString else String c (url_path s)
  end.

Definition wants_api_key (url : string) : bool :=
  if starts_with EARLY_ACCESS_PREFIX url then true
  else ends_with "/pckcerts" (trim_end_matches "/" (url_path url)).

(** [attempt], on a complete response *)
Definition read_response (r : HttpResponse) : res HttpResponse :=
  let declared := l ← header r "content-length"; parse_uint u64_max l in
  if (match declared with Some len => MAX_RESPONSE_BYTES <? len | None => false end) then
    Err PCS_ACCESS_FAILURE
  else if MAX_RESPONSE_BYTES <? Z.of_nat (length (hr_body r)) then Err PCS_ACCESS_FAILURE
  else if (hr_status r =? 200) && (Z.of_nat (length (hr_body r)) =? 0) then Err PCS_ACCESS_FAILURE
  else Ok r.

(** [measured_attempt] *)
Definition measured_attempt (r : HttpRequest) : NetM HttpResponse :=
  Upstream (exchange r) (λ x, Ret match x with
                                  | TimedOut | TransportError => Err PCS_ACCESS_FAILURE
                                  | Answered r => read_response r
                                  end).

Definition throttling (status : Z) : bool := (status =? 429) || (status =? 503).

(** The loop of [send]: [left] attempts remain, [attempt] were made. *)
Fixpoint send_loop (url : string) (request : HttpRequest) (left : nat) (attempt throttled : Z)
    (delay : option Z) (last : PccsError) : NetM HttpResponse :=
  match left with
  | O => err last
  | S left' =>
      let go : NetM HttpResponse :=
        if negb (uri_parses url) then err INTERNAL_ERROR
        else
          pbind (measured_attempt request) (λ r,
            match r with
            | Err e => send_loop url request left' (attempt + 1) throttled None e
            | Ok r =>
                if throttling (hr_status r) then
                  if (throttled + 1 <? MAX_THROTTLED_ATTEMPTS) && negb (Nat.eqb left' 0) then
                    send_loop url request left' (attempt + 1) (throttled + 1) (retry_after r)
                      PCS_ACCESS_FAILURE
                  else ok r
                else ok r
            end) in
      if 0 <? attempt then
        Upstream (sleep (default (Z.shiftl 50 (Z.min attempt 5)) delay)) (λ _, go)
      else go
  end.

(** What [send] puts on the wire. *)
Definition request_for (url : string) (body : option (list Z)) (attach_key : bool) : HttpRequest :=
  {| rq_method := match body with Some _ => POST | None => GET end;
     rq_url := url;
     rq_content_type := match body with Some _ => Some "application/json"%string | None => None end;
     rq_key := if attach_key && wants_api_key url && negb (is_empty (api_key cl))
                  && header_value_ok (api_key cl) then Some (api_key cl) else None;
     rq_body := default [] body |}.

Definition send (url : string) (body : option (list Z)) (attach_key : bool) : NetM HttpResponse :=
  _ ← lift (if attach_key then check_v3 url else Ok ());
  send_loop url (request_for url body attach_key) (max_attempts cl) 0 0 None PCS_ACCESS_FAILURE.

(** [PcsClient::get] *)
Definition get (url : string) : NetM HttpResponse :=
  if negb enabled then err NO_CACHE_DATA else send url None true.

Definition get_url (url : string) : NetM HttpResponse := send url None false.

(** [post_json_once] and [post_bytes_once] *)
Definition post_once (url content_type : string) (body : list Z) : NetM HttpResponse :=
  if negb (uri_parses url) then err INTERNAL_ERROR
  else if negb (header_value_ok content_type) then err INTERNAL_ERROR
  else measured_attempt {| rq_method := POST; rq_url := url; rq_content_type := Some content_type;
                           rq_key := None; rq_body := body |}.

(** [hdr]; [HeaderMap::get] is case-insensitive. *)
Definition hdr (h : HttpResponse) (name : string) : string := default "" (header h name).

(** [serde_json::from_slice], which rejects what is not UTF-8 *)
Definition json_of_bytes (body : list Z) : option V :=
  if utf8_valid body then json_parse (of_bytes body) else None.

(** [String::from_utf8] *)
Definition from_utf8 (body : list Z) : option string :=
  if utf8_valid body then Some (of_bytes body) else None.

(** *** The requests *)

Definition pckcert_url (qeid cpusvn pcesvn pceid : string) (enc_ppid : option string) : string :=
  (base cl ++ "pckcert?qeid=" ++ q qeid ++ "&cpusvn=" ++ q cpusvn ++ "&pcesvn=" ++ q pcesvn ++
   "&pceid=" ++ q pceid ++
   match enc_ppid with
   | Some e => if is_empty e then "" else "&encrypted_ppid=" ++ q e
   | None => ""
   end)%string.

Definition fetch_pckcert_pccs (qeid cpusvn pcesvn pceid : string) (enc_ppid : option string) :
    NetM PckCertRecord :=
  h ← get (pckcert_url qeid cpusvn pcesvn pceid enc_ppid);
  if negb (hr_status h =? 200) then err NO_CACHE_DATA
  else
    ok {| pc_qeid := to_upper qeid; pc_pceid := to_upper pceid; pc_cpusvn := to_upper cpusvn;
          pc_pcesvn := to_upper pcesvn; pc_cert := of_bytes (utf8_lossy (hr_body h));
          pc_tcbm := to_upper (hdr h "SGX-TCBm"); pc_fmspc := to_upper (hdr h "SGX-FMSPC");
          pc_ca := to_upper (hdr h "SGX-PCK-Certificate-CA-Type");
          pc_issuer_chain := hdr h "SGX-PCK-Certificate-Issuer-Chain";
          pc_encrypted_ppid := to_upper <$> enc_ppid; pc_platform_manifest := "" |}.

(** One certificate object of Intel's answer: kept, reported as not
    available, or dropped. *)
Definition pckcerts_entry (acc : list (string * string) * list V) (c : V) :
    list (string * string) * list V :=
  let tcbm := to_upper (default "" (get_str c "tcbm")) in
  let cert := percent_decode (default "" (get_str c "cert")) in
  if String.eqb cert "Not available" then (acc.1, acc.2 ++ [default jnull (jget c "tcb")])
  else if negb (is_empty tcbm) && negb (is_empty cert) then (acc.1 ++ [(tcbm, cert)], acc.2)
  else acc.

Definition parse_pckcerts (h : HttpResponse) : res (PckCertsResponse V) :=
  check (hr_status h =? 200) else NO_CACHE_DATA;
  let fmspc := to_upper (hdr h "SGX-FMSPC") in
  let ca := to_upper (hdr h "SGX-PCK-Certificate-CA-Type") in
  check negb (is_empty fmspc || is_empty ca) else INTERNAL_ERROR;
  parsed ← ok_or (json_of_bytes (hr_body h)) INTERNAL_ERROR;
  arr ← ok_or (as_array parsed) NO_CACHE_DATA;
  let '(certs, not_available) := fold_left pckcerts_entry arr ([], []) in
  Ok {| pr_certs := certs; pr_not_available := not_available; pr_fmspc := fmspc; pr_ca := ca;
        pr_issuer_chain := hdr h "SGX-PCK-Certificate-Issuer-Chain" |}.

Definition pckcerts_url (enc_ppid pceid : string) : string :=
  (base cl ++ "pckcerts?encrypted_ppid=" ++ q enc_ppid ++ "&pceid=" ++ q pceid)%string.

Definition fetch_pckcerts_intel (enc_ppid pceid : string) : NetM (PckCertsResponse V) :=
  if is_empty enc_ppid || str_all (λ c, Ascii.eqb c "0") enc_ppid then err NO_CACHE_DATA
  else h ← get (pckcerts_url enc_ppid pceid); lift (parse_pckcerts h).

Definition manifest_payload (platform_manifest pceid : string) : list Z :=
  bytes (json_print (json_object [("platformManifest"%string, json_string platform_manifest);
                                  ("pceid"%string, json_string pceid)])).

Definition fetch_pckcerts_intel_manifest (platform_manifest pceid : string) : NetM (PckCertsResponse V) :=
  if negb enabled then err NO_CACHE_DATA
  else
    h ← send (base cl ++ "pckcerts")%string (Some (manifest_payload platform_manifest pceid)) true;
    lift (parse_pckcerts h).

Definition upd_name (update : UpdateType) : string :=
  match update with Early => "early" | _ => "standard" end.

Definition fetch_tcb (prod_type : Z) (fmspc : string) (version : Z) (update : UpdateType) :
    NetM (TcbRecord V) :=
  if version =? 3 then err PCS_V3_REACHED_EOL
  else
    h ← get (tdx_if (base cl) (Z.eqb prod_type 1) ++ "tcb?fmspc=" ++ q fmspc ++ "&update=" ++
             q (upd_name update))%string;
    if negb (hr_status h =? 200) then err NO_CACHE_DATA
    else
      raw_body ← lift (ok_or (from_utf8 (hr_body h)) NO_CACHE_DATA);
      tcbinfo ← lift (ok_or (json_parse raw_body) NO_CACHE_DATA);
      let v4 := hdr h "TCB-Info-Issuer-Chain" in
      ok {| tr_prod_type := prod_type; tr_fmspc := to_upper fmspc; tr_version := version;
            tr_update_type := UpdateType_as_str update; tr_tcbinfo := tcbinfo; tr_raw_body := raw_body;
            tr_issuer_chain := if is_empty v4 then hdr h "SGX-TCB-Info-Issuer-Chain" else v4 |}.

Definition identity_url (enclave_id : Z) (update : UpdateType) : string :=
  (if Z.eqb enclave_id 2 then base cl ++ "qve/identity?update=" ++ q (upd_name update)
   else if Z.eqb enclave_id 3 then tdx_if (base cl) true ++ "qe/identity?update=" ++ q (upd_name update)
   else base cl ++ "qe/identity?update=" ++ q (upd_name update))%string.

Definition fetch_identity (enclave_id version : Z) (update : UpdateType) : NetM (IdentityRecord V) :=
  if version =? 3 then err PCS_V3_REACHED_EOL
  else
    h ← get (identity_url enclave_id update);
    if negb (hr_status h =? 200) then err NO_CACHE_DATA
    else
      raw_body ← lift (ok_or (from_utf8 (hr_body h)) NO_CACHE_DATA);
      identity ← lift (ok_or (json_parse raw_body) NO_CACHE_DATA);
      ok {| ir_enclave_id := enclave_id; ir_version := version;
            ir_update_type := UpdateType_as_str update; ir_identity := identity;
            ir_raw_body := raw_body; ir_issuer_chain := hdr h "SGX-Enclave-Identity-Issuer-Chain" |}.

Definition fetch_pckcrl (ca : string) : NetM PckCrlRecord :=
  h ← get (base cl ++ "pckcrl?ca=" ++ q (to_lower ca) ++ "&encoding=der")%string;
  if negb (hr_status h =? 200) then err NO_CACHE_DATA
  else ok {| cr_ca := to_upper ca; cr_pckcrl := hr_body h;
             cr_issuer_chain := hdr h "SGX-PCK-CRL-Issuer-Chain" |}.

Definition intel_root_ca_cdp : Net (option string) :=
  pbind (get (base cl ++ "qe/identity?update=standard")%string) (λ r, Ret (
    h ← to_option r;
    if negb (hr_status h =? 200) then None
    else
      root ← last_pem_der (percent_decode_pcs (hdr h "SGX-Enclave-Identity-Issuer-Chain"));
      cdp ← crl_distribution_point root;
      if is_valid_crl_uri cdp then Some cdp else None)).

Definition rootcacrl_url : Net string :=
  if negb (pcs_is_intel cl) then Ret (base cl ++ "rootcacrl")%string
  else pmap (default INTEL_ROOT_CA_CRL_URL) intel_root_ca_cdp.

(** A body that is hexadecimal text is decoded. *)
Definition hex_or_raw (body : list Z) : list Z :=
  if forallb (λ b, is_hexdigit (chr b) || is_ascii_ws (chr b)) body then
    match hex_decode (str_filter is_hexdigit (of_bytes body)) with
    | Some (b :: l) => b :: l
    | _ => body
    end
  else body.

Definition fetch_rootcacrl : NetM (list Z) :=
  pbind rootcacrl_url (λ url,
    h ← get url;
    if negb (hr_status h =? 200) then err INTERNAL_ERROR else ok (hex_or_raw (hr_body h))).

Definition fetch_crl (uri : string) : NetM (list Z) :=
  _ ← lift (check_v3 uri);
  if negb enabled then err NO_CACHE_DATA
  else
    h ← get uri;
    if negb (hr_status h =? 200) then err INTERNAL_ERROR else ok (hr_body h).

(** ** The interface of the cache *)

Definition client {X} (c : pcs_call V X) : Net X :=
  match c in pcs_call _ X return Net X with
  | get_url_for _ url => get_url url
  | post_json_once url payload => post_once url "application/json" (bytes payload)
  | post_bytes_once url content_type body => post_once url content_type body
  | Cache.fetch_pckcert_pccs qe cs ps p e => fetch_pckcert_pccs qe cs ps p e
  | Cache.fetch_pckcerts_intel e p => fetch_pckcerts_intel e p
  | Cache.fetch_pckcerts_intel_manifest m p => fetch_pckcerts_intel_manifest m p
  | Cache.fetch_tcb t f v u => fetch_tcb t f v u
  | Cache.fetch_identity i v u => fetch_identity i v u
  | Cache.fetch_pckcrl ca => fetch_pckcrl ca
  | Cache.fetch_rootcacrl => fetch_rootcacrl
  | Cache.fetch_crl uri => fetch_crl uri
  end.

(** A program of the cache with its upstream calls carried out. *)
Fixpoint over_http {A} (p : prog St (pcs_call V) A) : Net A :=
  match p with
  | Ret a => Ret a
  | Act f k => Act f (λ x, over_http (k x))
  | Lock key k => Lock key (over_http k)
  | Unlock key k => Unlock key (over_http k)
  | Upstream c k => pbind (client c) (λ x, over_http (k x))
  | Timed c k => pbind (with_timeout (client c)) (λ o, over_http (k o))
  end.
End client.

#[export] Existing Instance NetM_bind.
