(* ===== verification/Pool.v ===== *)
(** * Pool: PCK certificate requests and platform pools
    (src/src/cache.rs, [get_pckcert] to [fetch_tcb_infos])

    A known platform is answered from the store or by local selection from its
    pool; an unknown one is fetched in LAZY mode.  A pool, the TCB infos it
    was selected with and one GET record per known level are staged first and
    published in one batch.  [refetch_pool_for_new_raw_tcb] is the bounded
    re-fetch for a raw TCB the pool has never seen. *)

From Stdlib Require Import ZArith Lia.
From stdpp Require Import base list strings option gmap.
From S2P Require Import Prelude Text Errors Validate Env PckCert Selection Ocsp Keys Database Fifo Records Platforms Registry Urls Prog Cache.

Local Open Scope Z_scope.
Local Open Scope rust_scope.
#[local] Set Default Proof Using "Type*".

Definition PLATF_REG_NEW : Z := 0.
Definition PLATF_REG_NOT_AVAILABLE : Z := 1.

(** [cache::PckFetchContext] *)
Record PckFetchContext := {
  fx_enc_ppid : string; fx_platform_manifest : string;
  fx_expected : option PlatformCredentials; fx_unknown_get : bool
}.

(** [PckFetchContext::publication] *)
Definition publication (c : PckFetchContext) : PlatformPublication :=
  if fx_unknown_get c && bool_decide (fx_expected c = None)
  then AbsentGet (fx_enc_ppid c) (fx_platform_manifest c)
  else Observed (fx_expected c).

(** [Cache::raw_tcb_known] *)
Definition raw_tcb_known (pool : PlatformPool) (cpusvn pcesvn : string) : bool :=
  existsb (λ r, eq_ic (rt_cpu_svn r) cpusvn && eq_ic (rt_pce_svn r) pcesvn) (pp_raw_tcbs pool).

(** [Cache::has_stored_credential] *)
Definition has_stored_credential (pool : PlatformPool) : bool :=
  if negb (is_empty (pp_platform_manifest pool)) then true
  else negb (is_empty (pp_enc_ppid pool)) && negb (str_all (Ascii.eqb "0") (pp_enc_ppid pool)).

(** [cache::platform_key] *)
Definition platform_key (qeid pceid : string) : string :=
  (to_upper qeid ++ ":" ++ to_upper pceid)%string.

Section json.
Context {V : Type} `{Json V} `{Base64}.

(** [cache::raw_cpusvn_from_tcb] *)
Definition raw_cpusvn_from_tcb (tcb : V) : option string :=
  hex_encode_upper <$> mapM (λ i, svn_of (jget tcb (comp_key i))) (seq 1 16).

(** [tcb.tcbinfo.get("tcbInfo").unwrap_or(&tcb.tcbinfo)] *)
Definition info_of (tcb : TcbRecord V) : V := default (tr_tcbinfo tcb) (jget (tr_tcbinfo tcb) "tcbInfo").

(** The record [select_from_pool_with_tcb] builds from a selection. *)
Definition selected_record (pool : PlatformPool) (cpusvn pcesvn tcbm cert : string) : PckCertRecord :=
  {| pc_qeid := pp_qe_id pool; pc_pceid := pp_pce_id pool; pc_cpusvn := to_upper cpusvn;
     pc_pcesvn := to_upper pcesvn; pc_cert := cert; pc_tcbm := tcbm; pc_fmspc := pp_fmspc pool;
     pc_ca := pp_ca pool; pc_issuer_chain := pp_issuer_chain pool;
     pc_encrypted_ppid := opt_text (pp_enc_ppid pool);
     pc_platform_manifest := pp_platform_manifest pool |}.

(** [Cache::select_from_pool_with_tcb] *)
Definition select_from_pool_with_tcb (pool : PlatformPool) (cpusvn pcesvn pceid : string)
    (tcb : TcbRecord V) : res PckCertRecord :=
  '(tcbm, cert) ← map_err (select_best_pck_cert cpusvn pcesvn pceid (cert_pairs pool) (info_of tcb))
                     (λ _, NO_CACHE_DATA);
  Ok (selected_record pool cpusvn pcesvn tcbm cert).

(** The checks of [store_pckcerts] on one staged TCB document. *)
Definition check_staged (pool : PlatformPool) (pceid : string) (rec : TcbRecord V) : res unit :=
  let info := info_of rec in
  let expected_id := if tr_prod_type rec =? 0 then "SGX"%string else "TDX"%string in
  if negb (bool_decide (get_str info "id" = Some expected_id))
     || negb (match get_str info "fmspc" with
              | Some fmspc => eq_ic fmspc (pp_fmspc pool)
              | None => false
              end)
  then Err NO_CACHE_DATA
  else
    map_err (if tr_prod_type rec =? 0 then validate_pck_cert_pool pceid (cert_pairs pool) info
             else validate_tdx_pck_cert_pool pceid (cert_pairs pool) info)
      (λ _, NO_CACHE_DATA).

(** The document [store_pckcerts] selects with: SGX EARLY, else SGX STANDARD *)
Definition staged_tcb (tcbs : list (TcbRecord V)) : option (TcbRecord V) :=
  let sgx update := List.find (λ t, (tr_prod_type t =? 0) && String.eqb (tr_update_type t) update) tcbs in
  match sgx "EARLY"%string with
  | Some t => Some t
  | None => sgx "STANDARD"%string
  end.
End json.

Section pools.
Context {D V : Type} `{Database D} `{Json V} `{Base64} `{Sha2}.
Context `{Serde PckCertRecord} `{Serde PlatformPool} `{Serde (TcbRecord V)} `{Serde RegisteredPlatform}.
Context (cfg : Config).

#[local] Abbreviation P := (@Cache.P D V).
#[local] Abbreviation CM := (@Cache.CM D V).

(** [Cache::select_from_pool] *)
Definition select_from_pool (st : Store D) (pool : PlatformPool) (cpusvn pcesvn pceid : string) :
    res PckCertRecord :=
  match pp_certs pool with
  | [] => Err NO_CACHE_DATA
  | _ =>
      tcb ← ok_or (match Records.get_tcb st 0 (pp_fmspc pool) (pcs_version cfg) Early with
                   | Some t => Some t
                   | None => Records.get_tcb st 0 (pp_fmspc pool) (pcs_version cfg) Standard
                   end) NO_CACHE_DATA;
      select_from_pool_with_tcb pool cpusvn pcesvn pceid tcb
  end.

(** [store.select_platform_cert(qeid, pceid, true, |pool| select_from_pool(..))] *)
Definition select_locally (qeid cpusvn pcesvn pceid : string) : CM PckCertRecord :=
  store_do (λ _ st,
    select_platform_cert qeid pceid true (λ pool, select_from_pool st pool cpusvn pcesvn pceid) st).

(** [Cache::refetch_due], [Cache::mark_refetch] *)
Definition refetch_due (platform : string) : P bool :=
  if pool_refetch_interval cfg =? 0 then Ret true
  else Act (λ t s,
    (s, match w_marks s !! platform with
        | Some at_ => pool_refetch_interval cfg <=? elapsed (t_mono t) at_
        | None => true
        end)) Ret.

Definition mark_in (platform : string) (now : Z) (marks : gmap string Z) : gmap string Z :=
  let interval := pool_refetch_interval cfg in
  let marks := if 1024 <? Z.of_nat (size marks)
               then filter (λ kv, interval = 0 ∨ elapsed now kv.2 < interval) marks else marks in
  <[platform := now]> marks.

Definition mark_refetch (platform : string) : P unit :=
  pbind (Act (λ t s, (s, t_mono t)) Ret) (λ now,
  Act (λ _ s, (set_marks s (mark_in platform now (w_marks s)), ())) Ret).

(** [Cache::process_not_available]: what is queued for one level *)
Definition not_available_row (qeid pceid enc_ppid platform_manifest : string) (tcb : V) :
    option RegisteredPlatform :=
  cpu_svn ← raw_cpusvn_from_tcb tcb;
  pce_svn ← get_u64 tcb "pcesvn";
  Some {| rp_qe_id := qeid; rp_pce_id := pceid; rp_cpu_svn := cpu_svn; rp_pce_svn := to_dec pce_svn;
          rp_enc_ppid := enc_ppid; rp_platform_manifest := platform_manifest;
          rp_state := PLATF_REG_NOT_AVAILABLE |}.

Fixpoint register_each (rows : list RegisteredPlatform) : CM unit :=
  match rows with
  | [] => answer ()
  | p :: rows' => _ ← store_do (λ _, register_platform p); register_each rows'
  end.

Definition process_not_available (qeid pceid enc_ppid platform_manifest : string)
    (resp : PckCertsResponse V) : CM unit :=
  if negb (bool_decide (mode cfg = Req)) || bool_decide (length (pr_not_available resp) = 0%nat) then answer ()
  else register_each (omap (not_available_row qeid pceid enc_ppid platform_manifest) (pr_not_available resp)).

(** The pool [pckcert_pool] returns once the response passed its checks *)
Definition fresh_pool (qeid pceid enc_ppid platform_manifest : string) (resp : PckCertsResponse V) :
    PlatformPool :=
  {| pp_qe_id := to_upper qeid; pp_pce_id := to_upper pceid; pp_enc_ppid := to_upper enc_ppid;
     pp_platform_manifest := platform_manifest; pp_fmspc := pr_fmspc resp; pp_ca := Cache.pr_ca resp;
     pp_issuer_chain := pr_issuer_chain resp;
     pp_certs := map (λ tc, {| plc_tcbm := tc.1; plc_cert := tc.2 |}) (pr_certs resp);
     pp_raw_tcbs := [] |}.

(** [Cache::pckcert_pool] *)
Definition pckcert_pool (qeid pceid enc_ppid platform_manifest : string) (resp : PckCertsResponse V) :
    CM PlatformPool :=
  _ ← process_not_available qeid pceid enc_ppid platform_manifest resp;
  if bool_decide (length (pr_certs resp) = 0%nat) then throw NO_CACHE_DATA
  else if negb (cacheable (pr_issuer_chain resp)) then throw PCS_ACCESS_FAILURE
  else answer (fresh_pool qeid pceid enc_ppid platform_manifest resp).

(** [Cache::fetch_tcb_infos]: the loop over [wanted], with [sgx_standard] and
    [tcbs] as accumulators *)
Fixpoint fetch_wanted (fmspc : string) (wanted : list (Z * UpdateType)) (sgx_standard : bool)
    (tcbs : list (TcbRecord V)) : P (bool * list (TcbRecord V)) :=
  match wanted with
  | [] => Ret (sgx_standard, tcbs)
  | (prod, update) :: wanted' =>
      pbind (upstream (fetch_tcb prod fmspc (pcs_version cfg) update)) (λ r,
      match r with
      | Ok rec =>
          fetch_wanted fmspc wanted'
            (sgx_standard || ((prod =? 0) && bool_decide (update = Standard)))
            (if cacheable (tr_issuer_chain rec) then tcbs ++ [rec] else tcbs)
      | Err _ => fetch_wanted fmspc wanted' sgx_standard tcbs
      end)
  end.

Definition wanted_tcbs : list (Z * UpdateType) :=
  [(0, Early); (0, Standard)] ++ if 4 <=? pcs_version cfg then [(1, Early); (1, Standard)] else [].

Definition fetch_tcb_infos (fmspc : string) : CM (list (TcbRecord V)) :=
  pbind (fetch_wanted fmspc wanted_tcbs false []) (λ '(sgx_standard, tcbs),
  if negb sgx_standard then throw NO_CACHE_DATA else answer tcbs).

(** [requested.map(..).transpose()] *)
Definition select_requested (pool : PlatformPool) (pceid : string) (tcb : TcbRecord V)
    (requested : option (string * string)) : res (option PckCertRecord) :=
  match requested with
  | Some (cpu, pce) => rec ← select_from_pool_with_tcb pool cpu pce pceid tcb; Ok (Some rec)
  | None => Ok None
  end.

(** [Cache::store_pckcerts] *)
Definition store_pckcerts (qeid pceid : string) (context : PckFetchContext) (resp : PckCertsResponse V)
    (requested : option (string * string)) : CM (option PckCertRecord) :=
  pool ← pckcert_pool qeid pceid (fx_enc_ppid context) (fx_platform_manifest context) resp;
  tcbs ← fetch_tcb_infos (pr_fmspc resp);
  _ ← (Ret (try_each (check_staged pool pceid) tcbs) : CM unit);
  tcb ← (Ret (ok_or (staged_tcb tcbs) NO_CACHE_DATA) : CM (TcbRecord V));
  selected ← (Ret (select_requested pool pceid tcb requested) : CM (option PckCertRecord));
  let persist := negb (bool_decide (mode cfg = Lazy)) || bool_decide (length (pr_not_available resp) = 0%nat) in
  _ ← store_do (λ _, replace_platform_certs_after_fetch pool (publication context) tcbs
                       (if persist then selected else None)
                       (λ fresh raw, select_from_pool_with_tcb fresh (rt_cpu_svn raw) (rt_pce_svn raw) pceid tcb));
  answer selected.

(** One pool from upstream, by manifest when there is one *)
Definition fetch_pool (enc_ppid platform_manifest pceid : string) : CM (PckCertsResponse V) :=
  if negb (is_empty platform_manifest) then upstream (fetch_pckcerts_intel_manifest platform_manifest pceid)
  else upstream (fetch_pckcerts_intel enc_ppid pceid).

(** [Cache::fill_pckcert] *)
Definition fill_pckcert (qeid cpusvn pcesvn pceid : string) (context : PckFetchContext) :
    CM (option PckCertRecord) :=
  let enc_ppid := fx_enc_ppid context in
  let platform_manifest := fx_platform_manifest context in
  if negb (pcs_enabled cfg) then throw NO_CACHE_DATA
  else if is_intel cfg && is_empty enc_ppid && is_empty platform_manifest then throw INVALID_REQ
  else if negb (is_intel cfg) && is_empty platform_manifest then
    rec ← upstream (fetch_pckcert_pccs qeid cpusvn pcesvn pceid
                      (if is_empty enc_ppid then None else Some enc_ppid));
    if negb (cacheable (pc_issuer_chain rec)) then answer (Some rec)
    else
      _ ← store_do (λ _, merge_pckcert_after_fetch rec (publication context));
      answer (Some rec)
  else
    resp ← fetch_pool enc_ppid platform_manifest pceid;
    let requested := if is_empty cpusvn || is_empty pcesvn then None else Some (cpusvn, pcesvn) in
    store_pckcerts qeid pceid context resp requested.

(** The part of [refetch_pool_for_new_raw_tcb] under the platform's lock *)
Definition refetch_locked (qeid pceid cpusvn pcesvn platform : string) : P (option PckCertRecord) :=
  pbind (peek (λ st, get_platform_pool st qeid pceid)) (λ o,
  match o with
  | None => Ret None
  | Some pool =>
      if raw_tcb_known pool cpusvn pcesvn || negb (has_stored_credential pool) then Ret None
      else
        pbind (refetch_due platform) (λ due,
        if negb due then Ret None
        else
          pbind (mark_refetch platform) (λ _,
          let context := {| fx_enc_ppid := pp_enc_ppid pool; fx_platform_manifest := pp_platform_manifest pool;
                            fx_expected := Some (credentials pool); fx_unknown_get := false |} in
          pbind (with_timeout (
            resp ← fetch_pool (pp_enc_ppid pool) (pp_platform_manifest pool) (pp_pce_id pool);
            store_pckcerts (pp_qe_id pool) (pp_pce_id pool) context resp (Some (cpusvn, pcesvn)) : CM _))
          (λ fetched,
            match fetched with
            | Some (Ok (Some rec)) => Ret (Some rec)
            | _ => Ret None
            end)))
  end).

(** [Cache::refetch_pool_for_new_raw_tcb] *)
Definition refetch_pool_for_new_raw_tcb (qeid pceid cpusvn pcesvn : string) (version : Z) :
    P (option PckCertRecord) :=
  if negb (pool_refetch_on_new_tcb cfg) || negb (bool_decide (mode cfg = Lazy)) || negb (is_intel cfg)
     || negb (pcs_enabled cfg) || (version <? 4) || (pcs_version cfg <? 4)
  then Ret None
  else
    pbind (peek (λ st, get_platform_pool st qeid pceid)) (λ o,
    match o with
    | None => Ret None
    | Some pool =>
        if raw_tcb_known pool cpusvn pcesvn || negb (has_stored_credential pool) then Ret None
        else
          let platform := platform_key (pp_qe_id pool) (pp_pce_id pool) in
          lock_scope ("pool-refetch/" ++ platform)%string (λ _, None)
            (refetch_locked qeid pceid cpusvn pcesvn platform)
    end).

(** The part of [get_pckcert] under the key lock *)
Definition pckcert_locked (qeid cpusvn pcesvn pceid : string) (enc_ppid : option string) (version : Z)
    (key : string) : CM PckCertRecord :=
  pbind (peek (λ st, get_pckcert st qeid cpusvn pcesvn pceid)) (λ o,
  match o with
  | Some rec => answer rec
  | None =>
      if negb (bool_decide (mode cfg = Lazy)) then throw platform_unknown
      else if version =? 3 then throw PCS_V3_REACHED_EOL
      else
        pbind (peek (λ st, (credentials <$> get_platform_pool st qeid pceid : option PlatformCredentials))) (λ expected,
        if is_intel cfg && bool_decide (is_Some expected) then select_locally qeid cpusvn pcesvn pceid
        else
          let context := {| fx_enc_ppid := default ""%string enc_ppid; fx_platform_manifest := "";
                            fx_expected := expected; fx_unknown_get := true |} in
          pbind (fill_pckcert qeid cpusvn pcesvn pceid context) (λ r,
          note key (rec ← r; ok_or (rec : option PckCertRecord) NO_CACHE_DATA)))
  end).

(** [Cache::get_pckcert] *)
Definition get_pckcert (qeid cpusvn pcesvn pceid : string) (enc_ppid : option string) (version : Z) :
    CM PckCertRecord :=
  pbind (peek (λ st, has_platform st qeid pceid)) (λ known_platform,
  pbind (if known_platform : bool then peek (λ st, Records.get_pckcert st qeid cpusvn pcesvn pceid)
         else Ret None) (λ hit,
  match hit with
  | Some rec => answer rec
  | None =>
      let key := pckcert qeid pceid cpusvn pcesvn in
      let fill : CM PckCertRecord :=
        with_key_lock key (pckcert_locked qeid cpusvn pcesvn pceid enc_ppid version key) in
      if known_platform : bool then
        pbind (refetch_pool_for_new_raw_tcb qeid pceid cpusvn pcesvn version) (λ o,
        match o with
        | Some rec => answer rec
        | None =>
            pbind (select_locally qeid cpusvn pcesvn pceid) (λ r,
            match r with
            | Ok rec => answer rec
            | Err e => if is_intel cfg || negb (bool_decide (mode cfg = Lazy)) then throw e else fill
            end)
        end)
      else fill
  end)).
End pools.
