(* ===== verification/Refresh.v ===== *)
(** * Refresh: platform registration and cache refresh
    (src/src/cache.rs, [is_cached] to [refresh_platform_pools])

    Registration in the three caching modes, the collateral it pre-fills, and
    the two admin refreshes.  A refresh holds [refresh_lock] and works through
    snapshots of the store; how several callers of one target share a run is
    in RefreshRun. *)

From Stdlib Require Import ZArith Lia.
From stdpp Require Import base list strings option gmap.
From S2P Require Import Prelude Text Errors Validate Env PckCert Selection Ocsp Keys Database Fifo Records Platforms Registry Urls Prog Cache Pool.

Local Open Scope Z_scope.
Local Open Scope rust_scope.
#[local] Set Default Proof Using "Type*".

Definition with_state (p : RegisteredPlatform) (state : Z) : RegisteredPlatform :=
  {| rp_qe_id := rp_qe_id p; rp_pce_id := rp_pce_id p; rp_cpu_svn := rp_cpu_svn p;
     rp_pce_svn := rp_pce_svn p; rp_enc_ppid := rp_enc_ppid p;
     rp_platform_manifest := rp_platform_manifest p; rp_state := state |}.

Definition with_manifest (p : RegisteredPlatform) (manifest : string) : RegisteredPlatform :=
  {| rp_qe_id := rp_qe_id p; rp_pce_id := rp_pce_id p; rp_cpu_svn := rp_cpu_svn p;
     rp_pce_svn := rp_pce_svn p; rp_enc_ppid := rp_enc_ppid p;
     rp_platform_manifest := manifest; rp_state := rp_state p |}.

Section refresh.
Context {D V : Type} `{Database D} `{Json V} `{Base64} `{Sha2} `{Chrono}.
Context `{Serde PckCertRecord} `{Serde PlatformPool} `{Serde (TcbRecord V)} `{Serde (IdentityRecord V)}
  `{Serde PckCrlRecord} `{Serde (list Z)} `{Serde CrlRecord} `{Serde AmdKdsRecord}
  `{Serde NvidiaOcspRecord} `{Serde RegisteredPlatform}.
Context (cfg : Config).

#[local] Abbreviation P := (@Cache.P D V).
#[local] Abbreviation CM := (@Cache.CM D V).

(** [for x in l { f(x)?; }] and [for x in l { f(x); }] *)
Fixpoint each_try {A} (f : A → CM unit) (l : list A) : CM unit :=
  match l with
  | [] => answer ()
  | x :: l' => _ ← f x; each_try f l'
  end.

Fixpoint each_do {A} (f : A → P unit) (l : list A) : P unit :=
  match l with
  | [] => Ret ()
  | x :: l' => pbind (f x) (λ _, each_do f l')
  end.

(** ** Registration *)

(** [Cache::is_cached]: with the platform, whose manifest it may fill in *)
Definition is_cached (p : RegisteredPlatform) : P (bool * RegisteredPlatform) :=
  pbind (peek (λ st, get_platform_pool st (rp_qe_id p) (rp_pce_id p))) (λ o,
  match o with
  | None => Ret (false, p)
  | Some platform =>
      if is_empty (rp_platform_manifest p) then
        pbind (peek (λ st, Records.get_pckcert st (rp_qe_id p) (rp_cpu_svn p) (rp_pce_svn p) (rp_pce_id p))) (λ o,
        Ret (bool_decide (is_Some o), with_manifest p (pp_platform_manifest platform)))
      else Ret (String.eqb (pp_platform_manifest platform) (rp_platform_manifest p), p)
  end).

(** One prefetch of [fill_qv_collateral]: a failure is dropped. *)
Definition prefetch {A B} (have : Store D → option B) (c : pcs_call V (res A)) (chain : A → option string)
    (put : A → M D unit) : P unit :=
  pbind (peek have) (λ o,
  match o with
  | Some _ => Ret ()
  | None =>
      pbind (upstream c) (λ r,
      match r with
      | Ok a => if match chain a with Some ch => cacheable ch | None => true end
                then discard (store_do (λ _, put a)) else Ret ()
      | Err _ => Ret ()
      end)
  end).

(** [Cache::fill_qv_collateral] *)
Definition fill_qv_collateral (update : UpdateType) : P unit :=
  if negb (pcs_enabled cfg) then Ret ()
  else
    let updates := match update with All => [Standard; Early] | other => [other] end in
    pbind (each_do (λ ca, prefetch (λ st, Records.get_pckcrl st ca) (fetch_pckcrl ca)
                            (λ r, Some (cr_issuer_chain r)) put_pckcrl)
             ["PROCESSOR"%string; "PLATFORM"%string]) (λ _,
    pbind (each_do (λ id, each_do (λ u,
             prefetch (λ st, Records.get_identity st id (pcs_version cfg) u)
               (fetch_identity id (pcs_version cfg) u) (λ r, Some (ir_issuer_chain r)) put_identity) updates)
             [1; 2; 3]) (λ _,
    prefetch Records.get_rootcacrl fetch_rootcacrl (λ _, None) put_rootcacrl)).

(** The fill of [register_platform] *)
Definition register_fill (p : RegisteredPlatform) (expected : option PlatformCredentials) :
    CM (option PckCertRecord) :=
  fill_pckcert cfg (rp_qe_id p) (rp_cpu_svn p) (rp_pce_svn p) (rp_pce_id p)
    {| fx_enc_ppid := rp_enc_ppid p; fx_platform_manifest := rp_platform_manifest p;
       fx_expected := expected; fx_unknown_get := false |}.

(** [Cache::register_platform] *)
Definition register_platform (p : RegisteredPlatform) (update : UpdateType) : CM unit :=
  pbind (peek (λ st, (credentials <$> get_platform_pool st (rp_qe_id p) (rp_pce_id p) : option PlatformCredentials)))
  (λ expected,
  pbind (is_cached p) (λ '(cached, p),
  match mode cfg with
  | Offline =>
      if negb cached then store_do (λ _, Registry.register_platform (with_state p PLATF_REG_NEW))
      else answer ()
  | Req =>
      _ ← (if negb cached then
             let queued := with_state p PLATF_REG_NEW in
             _ ← store_do (λ _, Registry.register_platform queued);
             _ ← register_fill p expected;
             store_do (λ _, delete_registered queued)
           else answer () : CM unit);
      pbind (fill_qv_collateral update) (λ _, answer ())
  | Lazy =>
      _ ← (if negb cached then _ ← register_fill p expected; answer () else answer () : CM unit);
      pbind (fill_qv_collateral update) (λ _, answer ())
  end)).

(** ** Refresh *)

Definition snapshot {A} (f : Store D → A) : CM A := pbind (peek f) answer.

(** [fetch(..).await.map_err(|_| e)] *)
Definition fetch_or {A} (c : pcs_call V (res A)) (e : PccsError) : CM A :=
  pbind (upstream c) (λ r, Ret (map_err r (λ _, e))).

Definition refresh_pckcrls : CM unit :=
  recs ← snapshot list_pckcrls;
  each_try (λ rec,
    fresh ← fetch_or (fetch_pckcrl (cr_ca rec)) SERVICE_UNAVAILABLE;
    if cacheable (cr_issuer_chain fresh) then store_do (λ _, put_pckcrl fresh) else answer ()) recs.

Definition refresh_tcbs : CM unit :=
  recs ← snapshot list_tcbs;
  each_try (λ rec : TcbRecord V,
    if tr_version rec =? 3 then answer ()
    else
      let upd := if eq_ic (tr_update_type rec) "EARLY" then Early else Standard in
      fresh ← fetch_or (fetch_tcb (tr_prod_type rec) (tr_fmspc rec) (tr_version rec) upd) SERVICE_UNAVAILABLE;
      if cacheable (tr_issuer_chain fresh) then store_do (λ _, put_tcb fresh) else answer ()) recs.

Definition refresh_identity (id : Z) (upd : UpdateType) : CM unit :=
  pbind (upstream (fetch_identity id 4 upd)) (λ r,
  match r with
  | Ok fresh => if cacheable (ir_issuer_chain fresh) then store_do (λ _, put_identity fresh) else answer ()
  | Err _ => answer ()
  end).

Definition refresh_rootcacrl : CM unit :=
  pbind (peek (λ st, bool_decide (is_Some (Records.get_rootcacrl st)))) (λ had_rootcacrl,
  pbind (upstream fetch_rootcacrl) (λ r,
  match r with
  | Ok fresh => store_do (λ _, put_rootcacrl fresh)
  | Err _ => if had_rootcacrl : bool then throw INTERNAL_ERROR else answer ()
  end)).

Definition refresh_crls : CM unit :=
  recs ← snapshot list_crls;
  each_try (λ rec,
    if negb (is_valid_crl_uri (crl_uri rec)) then answer ()
    else
      fresh ← upstream (fetch_crl (crl_uri rec));
      store_do (λ _, put_crl (crl_uri rec) fresh)) recs.

(** [Cache::refresh_collateral] *)
Definition refresh_collateral : CM unit :=
  if negb (pcs_enabled cfg) then answer ()
  else
    _ ← refresh_pckcrls;
    _ ← refresh_tcbs;
    _ ← (if 4 <=? pcs_version cfg then
           each_try (λ id, each_try (refresh_identity id) [Standard; Early]) [1; 2; 3]
         else answer () : CM unit);
    _ ← refresh_rootcacrl;
    refresh_crls.

(** [Cache::refresh_platform_pool] *)
Definition refresh_platform_pool (pool : PlatformPool) : CM unit :=
  let expected := credentials pool in
  resp ← (pbind (fetch_pool (pp_enc_ppid pool) (pp_platform_manifest pool) (pp_pce_id pool))
            (λ r, Ret (map_err r (λ _, NO_CACHE_DATA))) : CM (PckCertsResponse V));
  fresh ← pckcert_pool cfg (pp_qe_id pool) (pp_pce_id pool) (pp_enc_ppid pool) (pp_platform_manifest pool) resp;
  tcb ← upstream (fetch_tcb 0 (pp_fmspc fresh) (pcs_version cfg) Early);
  store_do (λ _, replace_platform_certs_with_selection fresh (Some expected) ([] : list (TcbRecord V)) None
    (λ fresh raw, select_from_pool_with_tcb fresh (rt_cpu_svn raw) (rt_pce_svn raw) (pp_pce_id fresh) tcb)).

(** One raw level of a manifest-less PCCS platform *)
Definition refresh_level (pool : PlatformPool) (raw : RawTcb) : CM unit :=
  pbind (upstream (fetch_pckcert_pccs (pp_qe_id pool) (rt_cpu_svn raw) (rt_pce_svn raw) (pp_pce_id pool)
                     (Some (pp_enc_ppid pool)))) (λ r,
  match r with
  | Ok fresh =>
      if cacheable (pc_issuer_chain fresh)
      then store_do (λ _, merge_pckcert fresh (Some (credentials pool))) else answer ()
  | Err _ => answer ()
  end).

(** [Cache::refresh_certs] *)
Definition refresh_certs (fmspc : string) : CM unit :=
  if negb (pcs_enabled cfg) || (pcs_version cfg =? 3) then answer ()
  else
    pools ← snapshot list_platform_pools;
    each_try (λ pool,
      if negb (eq_ic (pp_fmspc pool) fmspc) then answer ()
      else if is_intel cfg || negb (is_empty (pp_platform_manifest pool)) then refresh_platform_pool pool
      else each_try (refresh_level pool) (pp_raw_tcbs pool)) pools.

(** What [refresh] does with its parameters: [Some fmspc] for the certificates,
    [None] for the collateral. *)
Definition refresh_target (typ fmspc : option string) : res (option string) :=
  match typ with
  | Some t => if String.eqb t "certs" then f ← Validate.fmspc fmspc; Ok (Some f) else Err INVALID_REQ
  | None => Ok None
  end.

(** [Cache::refresh], by the caller that runs it *)
Definition refresh (typ fmspc : option string) : CM unit :=
  certs_fmspc ← (Ret (refresh_target typ fmspc) : CM (option string));
  if bool_decide (mode cfg = Offline) then throw SERVICE_UNAVAILABLE
  else
    Lock "refresh_lock" (pbind (match certs_fmspc with
                                | Some f => refresh_certs f
                                | None => refresh_collateral
                                end) (λ r, Unlock "refresh_lock" (Ret r))).

(** The head of [refresh_platform_pools]: the pools the run will re-fetch *)
Definition pool_refresh_queue : P (list PlatformPool) :=
  if negb (scheduled_pool_refresh cfg) || negb (bool_decide (mode cfg = Lazy)) || negb (is_intel cfg)
     || negb (pcs_enabled cfg) || (pcs_version cfg =? 3)
  then Ret []
  else
    pbind (peek list_platform_pools) (λ pools,
    pbind (Act (λ t s, (s, filter (λ kv, pool_refetch_interval cfg ≠ 0 ∧
                                         elapsed (t_mono t) kv.2 < pool_refetch_interval cfg) (w_marks s))) Ret)
    (λ recently : gmap string Z,
    Ret (List.filter (λ p, negb (bool_decide (is_Some (recently !! platform_key (pp_qe_id p) (pp_pce_id p)))))
           (List.filter has_stored_credential pools)))).
End refresh.
