(* ===== verification/RefreshRun.v ===== *)
(** * RefreshRun: sharing a running refresh, and the tasks of a scheduled one
    (src/src/cache.rs, the loop of [refresh], [wait_refresh_result], and the
    task set of [refresh_platform_pools])

    [refresh] lets the callers of one target share one run: the first enters a
    watch channel in [refresh_inflight] and runs under [refresh_lock], the
    others wait for its value.  Every suspension point is a state of the
    caller here and every step between two of them is atomic, as in the
    source.  A caller's future can be dropped at any suspension point, which
    is what becomes of a request whose client disconnects: its guards and its
    sender go, what it put into the map stays.  The body of a run is
    [Refresh.refresh_certs] or [Refresh.refresh_collateral]; here it is any
    result.  The scheduled run takes the same lock, as one more target would.
    The second half is the bounded [JoinSet] of the scheduled run. *)

From Stdlib Require Import ZArith Lia.
From stdpp Require Import base list strings option gmap relations sorting.
From S2P Require Import Prelude Text Errors Validate Env PckCert Selection Ocsp Keys Database Fifo Records Platforms Registry Urls Prog Cache Pool Refresh.

#[local] Set Default Proof Using "Type*".

(** ** The callers of [refresh] *)

(** The key of a target in [refresh_inflight] *)
Definition refresh_key (certs_fmspc : option string) : string :=
  match certs_fmspc with Some f => ("certs:" ++ to_upper f)%string | None => "collateral" end.

(** Where a caller is suspended *)
Inductive Pc :=
| Looking  (** about to look the target up *)
| Entering (c : nat)  (** made the channel [c]; about to look again and insert it *)
| Waiting (c : nat)  (** in [wait_refresh_result] *)
| Queued (c : nat)  (** inserted [c]; waiting for [refresh_lock] *)
| Running (c : nat)  (** holds [refresh_lock] and runs *)
| Removing (c : nat) (r : res unit)  (** sent the result; about to remove its entry *)
| Returned (r : res unit)
| Dropped.

(** A [watch::channel]: whether its sender is alive, and its value *)
Record Chan := { sender : bool; value : option (res unit) }.

Record RState := {
  callers : list (string * Pc);
  inflight : gmap string nat;
  chans : list Chan;
  refresh_lock : option nat
}.

Definition initial : RState := {| callers := []; inflight := ∅; chans := []; refresh_lock := None |}.

Inductive revent :=
| Arrive (target : string)
| Go (i : nat)  (** caller [i] is polled and reaches its next suspension point *)
| Finish (i : nat) (r : res unit)  (** the run of caller [i] ends with [r] *)
| Drop (i : nat).

Definition move (i : nat) (target : string) (pc : Pc) (s : RState) : RState :=
  {| callers := <[i := (target, pc)]> (callers s); inflight := inflight s; chans := chans s;
     refresh_lock := refresh_lock s |}.
Definition with_inflight (m : gmap string nat) (s : RState) : RState :=
  {| callers := callers s; inflight := m; chans := chans s; refresh_lock := refresh_lock s |}.
Definition with_chans (l : list Chan) (s : RState) : RState :=
  {| callers := callers s; inflight := inflight s; chans := l; refresh_lock := refresh_lock s |}.
Definition with_lock (o : option nat) (s : RState) : RState :=
  {| callers := callers s; inflight := inflight s; chans := chans s; refresh_lock := o |}.

Definition drop_sender (c : nat) (s : RState) : RState :=
  with_chans (alter (λ ch, {| sender := false; value := value ch |}) c (chans s)) s.
Definition send (c : nat) (r : res unit) (s : RState) : RState :=
  with_chans (alter (λ ch, {| sender := sender ch; value := Some r |}) c (chans s)) s.

(** One pass of [wait_refresh_result]: a value, [None] where it stays
    suspended, or the end without a value *)
Definition wait_refresh_result (ch : Chan) : option (option (res unit)) :=
  match value ch with
  | Some r => Some (Some r)
  | None => if sender ch then None else Some None
  end.

(** The loop of [refresh], from one suspension point to the next *)
Definition advance (i : nat) (s : RState) : option RState :=
  '(target, pc) ← callers s !! i;
  match pc with
  | Looking =>
      match inflight s !! target with
      | Some c => Some (move i target (Waiting c) s)
      | None =>
          Some (move i target (Entering (length (chans s)))
                  (with_chans (chans s ++ [{| sender := true; value := None |}]) s))
      end
  | Entering c =>
      match inflight s !! target with
      | Some other => Some (move i target (Waiting other) (drop_sender c s))
      | None => Some (move i target (Queued c) (with_inflight (<[target := c]> (inflight s)) s))
      end
  | Waiting c =>
      ch ← chans s !! c;
      shared ← wait_refresh_result ch;
      Some (move i target (match shared with Some r => Returned r | None => Looking end) s)
  | Queued c =>
      match refresh_lock s with
      | None => Some (move i target (Running c) (with_lock (Some i) s))
      | Some _ => None
      end
  | Removing c r =>
      Some (move i target (Returned r)
              (drop_sender c (with_lock None (with_inflight (delete target (inflight s)) s))))
  | Running _ | Returned _ | Dropped => None
  end.

(** The result is sent and the caller goes on to remove its entry. *)
Definition finish (i : nat) (r : res unit) (s : RState) : option RState :=
  match callers s !! i with
  | Some (target, Running c) => Some (move i target (Removing c r) (send c r s))
  | _ => None
  end.

(** What dropping a caller's future drops *)
Definition abandon (i : nat) (s : RState) : option RState :=
  '(target, pc) ← callers s !! i;
  match pc with
  | Looking | Waiting _ => Some (move i target Dropped s)
  | Entering c | Queued c => Some (move i target Dropped (drop_sender c s))
  | Running c | Removing c _ => Some (move i target Dropped (drop_sender c (with_lock None s)))
  | Returned _ | Dropped => None
  end.

Definition rstep (e : revent) (s : RState) : option RState :=
  match e with
  | Arrive target =>
      Some {| callers := callers s ++ [(target, Looking)]; inflight := inflight s; chans := chans s;
              refresh_lock := refresh_lock s |}
  | Go i => advance i s
  | Finish i r => finish i r s
  | Drop i => abandon i s
  end.

Fixpoint exec (evs : list revent) (s : RState) : option RState :=
  match evs with
  | [] => Some s
  | e :: evs => s' ← rstep e s; exec evs s'
  end.

(** Two callers of one target share a run; a third caller comes after it. *)
Example shared_run :
  (λ s, map snd (callers s)) <$>
    exec [Arrive "collateral"; Go 0; Go 0; Arrive "collateral"; Go 1; Go 0; Finish 0 (Ok ()); Go 1; Go 0;
          Arrive "collateral"; Go 2]%string initial
  = Some [Returned (Ok ()); Returned (Ok ()); Entering 1].
Proof. reflexivity. Qed.

(** ** The scheduled run *)

Section scheduled.
Context {D V : Type} `{Database D} `{Json V} `{Base64} `{Sha2} `{Chrono}.
Context `{Serde PckCertRecord} `{Serde PlatformPool} `{Serde (TcbRecord V)} `{Serde (IdentityRecord V)}
  `{Serde PckCrlRecord} `{Serde (list Z)} `{Serde CrlRecord} `{Serde AmdKdsRecord}
  `{Serde NvidiaOcspRecord} `{Serde RegisteredPlatform}.
Context (cfg : Config) (upstream_max_concurrent : nat).

#[local] Abbreviation P := (@Cache.P D V).
#[local] Abbreviation CM := (@Cache.CM D V).

(** [Cache::scheduled_refresh] up to its task set: the result of the
    collateral refresh, and the platforms to re-fetch.  The tasks then run
    under [refresh_lock], which the end of the run drops. *)
Definition scheduled_start : CM (res unit * list PlatformPool) :=
  pbind (sweep_expired cfg) (λ _,
  if bool_decide (mode cfg = Offline) then throw SERVICE_UNAVAILABLE
  else
    Lock "refresh_lock"
      (pbind (refresh_collateral cfg) (λ collateral,
       pbind (pool_refresh_queue cfg) (λ queue, answer (collateral, queue))))).

Definition scheduled_end (collateral : res unit) : CM unit := Unlock "refresh_lock" (Ret collateral).

Definition POOL_REFRESH_CONCURRENCY : nat := 8.

(** [refresh_concurrency], and the [max(1)] where it is used *)
Definition refresh_concurrency : nat := Nat.min POOL_REFRESH_CONCURRENCY (Nat.max upstream_max_concurrent 1).
Definition task_limit : nat := Nat.max refresh_concurrency 1.

(** The loop of [refresh_platform_pools]: the platforms not yet spawned, the
    tasks spawned so far in order, and which of them were joined *)
Record TaskSet := {
  ts_pending : list PlatformPool;
  ts_conf : conf (Shared D) (pcs_call V) (res unit);
  ts_joined : list nat
}.

(** [JoinSet::len] *)
Definition tasks_len (s : TaskSet) : nat := length (c_tasks (ts_conf s)) - length (ts_joined s).

Definition spawned (pool : PlatformPool) (c : conf (Shared D) (pcs_call V) (res unit)) :=
  {| c_state := c_state c; c_locks := c_locks c; c_tasks := c_tasks c ++ [refresh_platform_pool cfg pool];
     c_trace := c_trace c |}.

Definition interfered (st : Shared D) (c : conf (Shared D) (pcs_call V) (res unit)) :=
  {| c_state := st; c_locks := c_locks c; c_tasks := c_tasks c; c_trace := c_trace c |}.

(** [ts_spawn]: the inner loop, while fewer tasks are in the set than the
    limit.  [ts_work]: a task moves, after whatever other requests did to the
    shared state.  [ts_join]: once the inner loop has ended, [join_next] takes
    any task that is over, whatever its result. *)
Inductive pools_step (T : Time → Prop) (answers : ∀ X, pcs_call V X → X → Prop) : TaskSet → TaskSet → Prop :=
| ts_spawn pool pending c joined :
    tasks_len {| ts_pending := pool :: pending; ts_conf := c; ts_joined := joined |} < task_limit →
    pools_step T answers {| ts_pending := pool :: pending; ts_conf := c; ts_joined := joined |}
      {| ts_pending := pending; ts_conf := spawned pool c; ts_joined := joined |}
| ts_work pending c joined st c' :
    step T answers (interfered st c) c' →
    pools_step T answers {| ts_pending := pending; ts_conf := c; ts_joined := joined |}
      {| ts_pending := pending; ts_conf := c'; ts_joined := joined |}
| ts_join pending c joined i r :
    pending = [] ∨ task_limit ≤ tasks_len {| ts_pending := pending; ts_conf := c; ts_joined := joined |} →
    c_tasks c !! i = Some (Ret r) → i ∉ joined →
    pools_step T answers {| ts_pending := pending; ts_conf := c; ts_joined := joined |}
      {| ts_pending := pending; ts_conf := c; ts_joined := joined ++ [i] |}.

Definition pools_start (queue : list PlatformPool) (st : Shared D) : TaskSet :=
  {| ts_pending := queue; ts_conf := start st []; ts_joined := [] |}.
End scheduled.
