(* ===== verification/RefreshRunSpec.v ===== *)
(** * RefreshRunSpec: shared refreshes are exclusive, honest and live, unless
    a running one is dropped

    The invariant of the protocol over every execution, dropped callers
    included; the result a caller is given; progress and termination while
    nobody is dropped; and what dropping the caller that runs a refresh does
    to its target. *)

From Stdlib Require Import ZArith Lia.
From stdpp Require Import base list strings option gmap relations.
From S2P Require Import Prelude Text Errors RefreshRun.

#[local] Set Default Proof Using "Type*".

(** ** Steps as a relation *)

(** The effect of a step of caller [i] for target [t] on everything but the
    callers *)
Inductive effect (i : nat) (t : string) (s s' : RState) : Pc → Pc → Prop :=
| ef_wait c :
    inflight s !! t = Some c → inflight s' = inflight s → chans s' = chans s → refresh_lock s' = refresh_lock s →
    effect i t s s' Looking (Waiting c)
| ef_enter :
    inflight s !! t = None → inflight s' = inflight s →
    chans s' = chans s ++ [{| sender := true; value := None |}] → refresh_lock s' = refresh_lock s →
    effect i t s s' Looking (Entering (length (chans s)))
| ef_join c other :
    inflight s !! t = Some other → inflight s' = inflight s →
    chans s' = alter (λ ch, {| sender := false; value := value ch |}) c (chans s) →
    refresh_lock s' = refresh_lock s → effect i t s s' (Entering c) (Waiting other)
| ef_submit c :
    inflight s !! t = None → inflight s' = <[t := c]> (inflight s) → chans s' = chans s →
    refresh_lock s' = refresh_lock s → effect i t s s' (Entering c) (Queued c)
| ef_shared c ch r :
    chans s !! c = Some ch → value ch = Some r →
    inflight s' = inflight s → chans s' = chans s → refresh_lock s' = refresh_lock s →
    effect i t s s' (Waiting c) (Returned r)
| ef_retry c ch :
    chans s !! c = Some ch → value ch = None → sender ch = false →
    inflight s' = inflight s → chans s' = chans s → refresh_lock s' = refresh_lock s →
    effect i t s s' (Waiting c) Looking
| ef_start c :
    refresh_lock s = None → inflight s' = inflight s → chans s' = chans s → refresh_lock s' = Some i →
    effect i t s s' (Queued c) (Running c)
| ef_finish c r :
    inflight s' = inflight s → chans s' = alter (λ ch, {| sender := sender ch; value := Some r |}) c (chans s) →
    refresh_lock s' = refresh_lock s → effect i t s s' (Running c) (Removing c r)
| ef_remove c r :
    inflight s' = delete t (inflight s) →
    chans s' = alter (λ ch, {| sender := false; value := value ch |}) c (chans s) →
    refresh_lock s' = None → effect i t s s' (Removing c r) (Returned r)
| ef_drop_idle pc :
    (pc = Looking ∨ ∃ c, pc = Waiting c) →
    inflight s' = inflight s → chans s' = chans s → refresh_lock s' = refresh_lock s →
    effect i t s s' pc Dropped
| ef_drop_owner pc c :
    (pc = Entering c ∨ pc = Queued c) → inflight s' = inflight s →
    chans s' = alter (λ ch, {| sender := false; value := value ch |}) c (chans s) →
    refresh_lock s' = refresh_lock s → effect i t s s' pc Dropped
| ef_drop_run pc c :
    (pc = Running c ∨ ∃ r, pc = Removing c r) → inflight s' = inflight s →
    chans s' = alter (λ ch, {| sender := false; value := value ch |}) c (chans s) →
    refresh_lock s' = None → effect i t s s' pc Dropped.

Definition arrives (t : string) (s s' : RState) : Prop :=
  callers s' = callers s ++ [(t, Looking)] ∧ inflight s' = inflight s ∧ chans s' = chans s ∧
  refresh_lock s' = refresh_lock s.

Definition moves (i : nat) (t : string) (pc pc' : Pc) (s s' : RState) : Prop :=
  callers s !! i = Some (t, pc) ∧ callers s' = <[i := (t, pc')]> (callers s) ∧ effect i t s s' pc pc'.

Lemma rstep_inv e s s' :
  rstep e s = Some s' →
  (∃ t, e = Arrive t ∧ arrives t s s') ∨
  (∃ i t pc pc', (e = Go i ∨ (∃ r, e = Finish i r) ∨ (e = Drop i ∧ pc' = Dropped)) ∧ (pc' = Dropped → e = Drop i) ∧
     moves i t pc pc' s s').
Proof.
  destruct e as [t|i|i r|i]; cbn [rstep].
  - intros [= <-]. left. by exists t.
  - unfold advance. intros Hs. apply bind_Some in Hs as ([t pc] & Hi & Hs). right. exists i, t.
    destruct pc as [|c|c|c|c|c r|r|]; cbn in Hs; try done.
    + destruct (inflight s !! t) as [c|] eqn:Ht; injection Hs as <-.
      * exists Looking, (Waiting c). split_and!; [by left|done|]. split_and!; [done|done|]. by econstructor.
      * eexists Looking, _. split_and!; [by left| |split_and!; [done|reflexivity|by econstructor]]. done.
    + destruct (inflight s !! t) as [other|] eqn:Ht; injection Hs as <-.
      * exists (Entering c), (Waiting other). split_and!; [by left|done|]. split_and!; [done|done|]. by econstructor.
      * exists (Entering c), (Queued c). split_and!; [by left|done|]. split_and!; [done|done|]. by econstructor.
    + apply bind_Some in Hs as (ch & Hc & Hs). apply bind_Some in Hs as (o & Ho & [= <-]).
      unfold wait_refresh_result in Ho. destruct (value ch) as [r|] eqn:Ev.
      * injection Ho as <-. exists (Waiting c), (Returned r). split_and!; [by left|done|].
        split_and!; [done|done|]. by econstructor.
      * destruct (sender ch) eqn:Es; [done|]. injection Ho as <-. exists (Waiting c), Looking.
        split_and!; [by left|done|]. split_and!; [done|done|]. by econstructor.
    + destruct (refresh_lock s) eqn:El; [done|]. injection Hs as <-. exists (Queued c), (Running c).
      split_and!; [by left|done|]. split_and!; [done|done|]. by econstructor.
    + injection Hs as <-. exists (Removing c r), (Returned r). split_and!; [by left|done|].
      split_and!; [done|done|]. by econstructor.
  - unfold finish. intros Hs. right. exists i. destruct (callers s !! i) as [[t []]|] eqn:Hi; try done.
    injection Hs as <-. exists t, (Running c), (Removing c r). split_and!; [right; left; eauto|done|].
    split_and!; [done|done|]. by econstructor.
  - unfold abandon. intros Hs. apply bind_Some in Hs as ([t pc] & Hi & Hs). right. exists i, t, pc, Dropped.
    split; [right; by right|]. split; [done|]. split; [done|].
    destruct pc as [|c|c|c|c|c r|r|]; cbn in Hs; try done; injection Hs as <-; split; try done.
    + apply ef_drop_idle; eauto.
    + eapply ef_drop_owner; eauto.
    + apply ef_drop_idle; eauto.
    + eapply ef_drop_owner; eauto.
    + eapply ef_drop_run; eauto.
    + eapply ef_drop_run; eauto.
Qed.

(** ** The invariant *)

Definition owns (pc : Pc) (c : nat) : Prop :=
  match pc with Entering c' | Queued c' | Running c' | Removing c' _ => c' = c | _ => False end.
Definition submitted (pc : Pc) (c : nat) : Prop :=
  match pc with Queued c' | Running c' | Removing c' _ => c' = c | _ => False end.
Definition in_run (pc : Pc) : Prop :=
  match pc with Running _ | Removing _ _ => True | _ => False end.
Definition sent (pc : Pc) : option (res unit) := match pc with Removing _ r => Some r | _ => None end.

Record inv (s : RState) : Prop := {
  inv_owner i t pc c : callers s !! i = Some (t, pc) → owns pc c → chans s !! c = Some {| sender := true; value := sent pc |};
  inv_unique i j t t' pc pc' c :
    callers s !! i = Some (t, pc) → callers s !! j = Some (t', pc') → owns pc c → owns pc' c → i = j;
  inv_entry i t pc c : callers s !! i = Some (t, pc) → submitted pc c → inflight s !! t = Some c;
  inv_lock i t pc : callers s !! i = Some (t, pc) → in_run pc → refresh_lock s = Some i;
  inv_held i : refresh_lock s = Some i → ∃ t pc, callers s !! i = Some (t, pc) ∧ in_run pc;
  inv_known t c : inflight s !! t = Some c → c < length (chans s);
  inv_waits i t c : callers s !! i = Some (t, Waiting c) → c < length (chans s)
}.

Lemma submitted_owns pc c : submitted pc c → owns pc c.
Proof. by destruct pc. Qed.

Lemma moves_lookup i t pc pc' s s' j x :
  moves i t pc pc' s s' → callers s' !! j = Some x → (j = i ∧ x = (t, pc')) ∨ (j ≠ i ∧ callers s !! j = Some x).
Proof.
  intros (_ & -> & _) Hj. apply list_lookup_insert_Some in Hj as [(-> & -> & _)|[Hne Hj]]; [by left|right].
  by split.
Qed.

(** A step changes only the channel its caller owns. *)
Lemma chan_frame i t s s' pc pc' c x :
  effect i t s s' pc pc' → ¬ owns pc c → chans s !! c = Some x → chans s' !! c = Some x.
Proof.
  intros He Ho Hc.
  destruct He as [| |c0| | | | |c0|c0| |pc c0 Hpc|pc c0 Hpc];
    match goal with Hch : chans s' = _ |- _ => rewrite Hch end; try done.
  - by apply lookup_app_l_Some.
  - rewrite list_lookup_alter_ne; [done|naive_solver].
  - rewrite list_lookup_alter_ne; [done|naive_solver].
  - rewrite list_lookup_alter_ne; [done|naive_solver].
  - rewrite list_lookup_alter_ne; [done|]. destruct Hpc as [-> | ->]; naive_solver.
  - rewrite list_lookup_alter_ne; [done|]. destruct Hpc as [-> |[? ->]]; naive_solver.
Qed.

Lemma chans_grow i t s s' pc pc' : effect i t s s' pc pc' → length (chans s) <= length (chans s').
Proof.
  intros He. destruct He; match goal with Hch : chans s' = _ |- _ => rewrite Hch end;
    rewrite ?length_app, ?length_alter; lia.
Qed.

Lemma own_chan i t pc pc' s s' c :
  inv s → moves i t pc pc' s s' → owns pc' c → chans s' !! c = Some {| sender := true; value := sent pc' |}.
Proof.
  intros I (Hi & Hc & He) Ho. destruct He; try done; cbn in Ho; subst.
  all: match goal with Hch : chans ?x = _ |- chans ?x !! _ = _ => rewrite Hch end.
  - rewrite lookup_app_r, Nat.sub_diag by lia. done.
  - by rewrite (inv_owner _ I _ _ _ _ Hi eq_refl).
  - by rewrite (inv_owner _ I _ _ _ _ Hi eq_refl).
  - rewrite list_lookup_alter_eq. by rewrite (inv_owner _ I _ _ _ _ Hi eq_refl).
Qed.

Lemma owns_new i t s s' pc pc' c : effect i t s s' pc pc' → owns pc' c → owns pc c ∨ c = length (chans s).
Proof. intros He. destruct He; cbn; intuition congruence. Qed.

Lemma submitted_new i t s s' pc pc' c :
  effect i t s s' pc pc' → submitted pc' c → submitted pc c ∨ (inflight s !! t = None ∧ inflight s' = <[t := c]> (inflight s)).
Proof. intros He. destruct He; cbn; intros; subst; try done; auto. Qed.

Lemma inv_step e s s' : inv s → rstep e s = Some s' → inv s'.
Proof.
  intros I [(t & _ & Hcs & Hif & Hch & Hlk)|(i & t & pc & pc' & _ & _ & Hm)]%rstep_inv.
  { assert (Hl : ∀ j x, callers s' !! j = Some x → callers s !! j = Some x ∨ x = (t, Looking)).
    { intros j x Hj. rewrite Hcs in Hj. apply lookup_app_Some in Hj as [Hj|[_ Hj]]; [by left|right].
      apply list_lookup_singleton_Some in Hj as [_ Hj]. done. }
    assert (Hl' : ∀ j x, callers s !! j = Some x → callers s' !! j = Some x).
    { intros j x Hj. rewrite Hcs. by apply lookup_app_l_Some. }
    split; rewrite ?Hif, ?Hch, ?Hlk.
    - intros j u p c [Hj|[= -> ->]]%Hl Ho; [by eapply inv_owner|done].
    - intros j k u u' p p' c [Hj|[= -> ->]]%Hl [Hk|[= -> ->]]%Hl Ho Ho'; try done. by eapply inv_unique.
    - intros j u p c [Hj|[= -> ->]]%Hl Ho; [by eapply inv_entry|done].
    - intros j u p [Hj|[= -> ->]]%Hl Hr; [by eapply inv_lock|done].
    - intros j Hj. destruct (inv_held _ I j Hj) as (u & p & Hjj & Hr). exists u, p. auto.
    - apply (inv_known _ I).
    - intros j u c [Hj|[= ]]%Hl. by eapply inv_waits. }
  pose proof Hm as (Hi & Hcs & He). pose proof (chans_grow _ _ _ _ _ _ He) as Hgrow.
  assert (Hother : ∀ j x, j ≠ i → callers s !! j = Some x → callers s' !! j = Some x).
  { intros j x Hne Hj. by rewrite Hcs, list_lookup_insert_ne. }
  assert (Hself : callers s' !! i = Some (t, pc')).
  { rewrite Hcs. apply list_lookup_insert_eq. by eapply lookup_lt_Some. }
  split.
  - intros j u p c Hj Ho. destruct (moves_lookup _ _ _ _ _ _ _ _ Hm Hj) as [[-> [= -> ->]]|[Hne Hj']].
    + by eapply own_chan.
    + eapply chan_frame; [exact He| |by eapply inv_owner].
      intros Ho'. apply Hne. by eapply inv_unique.
  - intros j k u u' p p' c Hj Hk Ho Ho'.
    destruct (moves_lookup _ _ _ _ _ _ _ _ Hm Hj) as [[-> [= -> ->]]|[Hne Hj']];
      destruct (moves_lookup _ _ _ _ _ _ _ _ Hm Hk) as [[-> [= -> ->]]|[Hne' Hk']]; [done| | |by eapply inv_unique].
    + destruct (owns_new _ _ _ _ _ _ _ He Ho) as [Ho1| ->]; [by eapply inv_unique|].
      pose proof (inv_owner _ I _ _ _ _ Hk' Ho') as Hc%lookup_lt_Some. lia.
    + destruct (owns_new _ _ _ _ _ _ _ He Ho') as [Ho1| ->]; [by eapply inv_unique|].
      pose proof (inv_owner _ I _ _ _ _ Hj' Ho) as Hc%lookup_lt_Some. lia.
  - intros j u p c Hj Hs. destruct (moves_lookup _ _ _ _ _ _ _ _ Hm Hj) as [[-> [= -> ->]]|[Hne Hj']].
    + destruct (submitted_new _ _ _ _ _ _ _ He Hs) as [Hs'|[_ ->]]; [|by rewrite lookup_insert_eq].
      pose proof (inv_entry _ I _ _ _ _ Hi Hs') as Hen.
      destruct He; try done; cbn in *; subst; match goal with Hf : inflight s' = _ |- _ => rewrite Hf end; done.
    + pose proof (inv_entry _ I _ _ _ _ Hj' Hs) as Hen.
      destruct He; match goal with Hf : inflight s' = _ |- _ => rewrite Hf end; try done.
      * rewrite lookup_insert_ne; [done|]. intros ->. congruence.
      * rewrite lookup_delete_ne; [done|]. intros ->. apply Hne.
        pose proof (inv_entry _ I _ _ _ c0 Hi eq_refl). assert (c = c0) as -> by congruence.
        eapply (inv_unique _ I); [exact Hj'|exact Hi|by apply submitted_owns|done].
  - intros j u p Hj Hr. destruct (moves_lookup _ _ _ _ _ _ _ _ Hm Hj) as [[-> [= -> ->]]|[Hne Hj']].
    + destruct He; try done. match goal with Hl : refresh_lock s' = _ |- _ => rewrite Hl end.
      by eapply (inv_lock _ I).
    + pose proof (inv_lock _ I _ _ _ Hj' Hr) as Hlk.
      destruct He as [| | | | | |? Hn| |c r ? ? Hn| | |pc c Hpc ? ? Hn];
        try match goal with Hl : refresh_lock s' = refresh_lock s |- _ => by rewrite Hl end.
      * congruence.
      * pose proof (inv_lock _ I _ _ _ Hi Logic.I) as Hl2. congruence.
      * assert (Hin : in_run pc) by (by destruct Hpc as [-> |[? ->]]).
        pose proof (inv_lock _ I _ _ _ Hi Hin) as Hl2. congruence.
  - intros j Hj. destruct (decide (j = i)) as [->|Hne].
    + exists t, pc'. split; [done|]. destruct He; cbn; try done; exfalso;
        match goal with Hl : refresh_lock s' = refresh_lock s |- _ => rewrite Hl in Hj | _ => idtac end; try congruence;
        destruct (inv_held _ I i Hj) as (u & p & Hp & Hr); rewrite Hi in Hp; injection Hp as <- <-; try done.
      * by destruct H as [-> |[? ->]].
      * by destruct H as [-> | ->].
    + assert (Hj0 : refresh_lock s = Some j).
      { destruct He; congruence. }
      destruct (inv_held _ I j Hj0) as (u & p & Hp & Hr). exists u, p. split; [by apply Hother|done].
  - intros u c Hc. enough (c < length (chans s) ∨ c < length (chans s')) by lia.
    destruct He; match goal with Hf : inflight s' = _ |- _ => rewrite Hf in Hc end;
      try (left; by eapply (inv_known _ I)).
    + apply lookup_insert_Some in Hc as [[<- <-]|[_ Hc]]; [|left; by eapply (inv_known _ I)].
      left. pose proof (inv_owner _ I _ _ _ _ Hi eq_refl) as Hl%lookup_lt_Some. done.
    + apply lookup_delete_Some in Hc as [_ Hc]. left. by eapply (inv_known _ I).
  - intros j u c Hj. destruct (moves_lookup _ _ _ _ _ _ _ _ Hm Hj) as [[-> [= -> <-]]|[Hne Hj']].
    + enough (c < length (chans s)) by lia. inversion He; subst; by eapply (inv_known _ I).
    + pose proof (inv_waits _ I _ _ _ Hj'). lia.
Qed.

Lemma inv_initial : inv initial.
Proof. split; cbn; try done; intros; by rewrite lookup_empty in *. Qed.

Lemma exec_app evs evs' s : exec (evs ++ evs') s = exec evs s ≫= exec evs'.
Proof.
  revert s. induction evs as [|e evs IH]; intros s; [done|]. cbn [app exec].
  destruct (rstep e s) as [s'|]; [apply IH|done].
Qed.

(** What every step keeps, every execution keeps. *)
Lemma exec_keeps (P : RState → Prop) evs s s' :
  (∀ e s s', P s → rstep e s = Some s' → P s') → P s → exec evs s = Some s' → P s'.
Proof.
  intros Hk. revert s. induction evs as [|e evs IH]; intros s Hs; [by intros [= <-]|].
  cbn [exec]. intros H. apply bind_Some in H as (s1 & H1 & H2). eapply IH; [|exact H2]. by eapply Hk.
Qed.

Lemma exec_inv evs s s' : inv s → exec evs s = Some s' → inv s'.
Proof. apply exec_keeps. intros. by eapply inv_step. Qed.

(** C7: Refreshes exclude each other, whichever callers are dropped: at most
    one runs at a time, and each target has at most one run under way, queued
    for the lock, running or finishing. *)
Theorem refresh_exclusive evs s :
  exec evs initial = Some s →
  (∀ i j t u pc pc', callers s !! i = Some (t, pc) → callers s !! j = Some (u, pc') →
     in_run pc → in_run pc' → i = j) ∧
  (∀ i j t pc pc' c c', callers s !! i = Some (t, pc) → callers s !! j = Some (t, pc') →
     submitted pc c → submitted pc' c' → i = j).
Proof.
  intros I%exec_inv; [|apply inv_initial]. split.
  - intros i j t u pc pc' Hi Hj Hr Hr'.
    pose proof (inv_lock _ I _ _ _ Hi Hr). pose proof (inv_lock _ I _ _ _ Hj Hr'). congruence.
  - intros i j t pc pc' c c' Hi Hj Hs Hs'.
    pose proof (inv_entry _ I _ _ _ _ Hi Hs). pose proof (inv_entry _ I _ _ _ _ Hj Hs').
    assert (c = c') as -> by congruence.
    eapply (inv_unique _ I); [exact Hi|exact Hj|by apply submitted_owns..].
Qed.

(** ** A dropped run *)

(** The target's entry is a channel nobody will send on, and nobody runs. *)
Record abandoned (t : string) (c : nat) (v : option (res unit)) (s : RState) : Prop := {
  ab_entry : inflight s !! t = Some c;
  ab_chan : chans s !! c = Some {| sender := false; value := v |};
  ab_idle j pc c' : callers s !! j = Some (t, pc) → ¬ submitted pc c'
}.

Lemma not_owner s i t pc c v :
  inv s → callers s !! i = Some (t, pc) → chans s !! c = Some {| sender := false; value := v |} → ¬ owns pc c.
Proof. intros I Hi Hc Ho. pose proof (inv_owner _ I _ _ _ _ Hi Ho). congruence. Qed.

Lemma abandoned_step t c v e s s' :
  inv s → abandoned t c v s → rstep e s = Some s' → abandoned t c v s'.
Proof.
  intros I [He Hc Hidle] [(u & _ & Hcs & Hif & Hch & _)|(i & u & pc & pc' & _ & _ & Hm)]%rstep_inv.
  - split; [by rewrite Hif|by rewrite Hch|]. intros j pc c' Hj. rewrite Hcs in Hj.
    apply lookup_app_Some in Hj as [Hj|[_ Hj]]; [by eapply Hidle|].
    apply list_lookup_singleton_Some in Hj as [_ [= <- <-]]. by intros [].
  - pose proof Hm as (Hi & Hcs & Hef). split.
    + destruct Hef; match goal with Hf : inflight s' = _ |- _ => rewrite Hf end; try done.
      * rewrite lookup_insert_ne; [done|]. intros ->. congruence.
      * rewrite lookup_delete_ne; [done|]. intros ->. by eapply (Hidle i).
    + eapply chan_frame; [exact Hef| |done]. by eapply not_owner.
    + intros j p c' Hj Hs. destruct (moves_lookup _ _ _ _ _ _ _ _ Hm Hj) as [[-> [= -> ->]]|[Hne Hj']].
      * destruct (submitted_new _ _ _ _ _ _ _ Hef Hs) as [Hs'|[Hn _]]; [by eapply (Hidle i)|congruence].
      * by eapply (Hidle j).
Qed.

(** The states a caller can be in that comes after the drop *)
Definition after_drop (c : nat) (v : option (res unit)) (pc : Pc) : Prop :=
  pc = Looking ∨ pc = Waiting c ∨ pc = Dropped ∨ ∃ r, v = Some r ∧ pc = Returned r.

Lemma late_step t c v n e s s' :
  inv s → abandoned t c v s → n ≤ length (callers s) →
  (∀ j pc, n ≤ j → callers s !! j = Some (t, pc) → after_drop c v pc) → rstep e s = Some s' →
  n ≤ length (callers s') ∧ ∀ j pc, n ≤ j → callers s' !! j = Some (t, pc) → after_drop c v pc.
Proof.
  intros I [He Hc _] Hn Hl [(u & _ & Hcs & _)|(i & u & pc & pc' & _ & _ & Hm)]%rstep_inv.
  - rewrite Hcs, length_app. split; [lia|]. intros j pc Hj Hjj.
    apply lookup_app_Some in Hjj as [Hjj|[_ Hjj]]; [by eapply Hl|].
    apply list_lookup_singleton_Some in Hjj as [_ [= <- <-]]. by left.
  - pose proof Hm as (Hi & Hcs & Hef). rewrite Hcs at 1. rewrite length_insert. split; [done|].
    intros j p Hj Hjj. destruct (moves_lookup _ _ _ _ _ _ _ _ Hm Hjj) as [[-> [= -> ->]]|[Hne Hj']]; [|by eapply Hl].
    destruct (Hl _ _ Hj Hi) as [->|[->|[->|(r & -> & ->)]]]; inversion Hef; subst; unfold after_drop; try naive_solver.
Qed.

(** C6: A caller that is dropped while its refresh is queued, running or
    finishing leaves its entry behind: from then on nothing refreshes that
    target again, however the execution goes on.  Every later caller of the
    target spins between the map and the dead channel and never returns, or,
    where the result had been sent, returns that old result at once. *)
Theorem dropped_refresh_disables_target evs s i t pc c s1 more s2 :
  exec evs initial = Some s → callers s !! i = Some (t, pc) → submitted pc c → rstep (Drop i) s = Some s1 →
  exec more s1 = Some s2 →
  (∀ j pc' c', callers s2 !! j = Some (t, pc') → ¬ submitted pc' c') ∧
  (∀ j pc', length (callers s) ≤ j → callers s2 !! j = Some (t, pc') → after_drop c (sent pc) pc').
Proof.
  intros I%exec_inv Hi Hs Hd Hm; [|apply inv_initial].
  assert (I1 : inv s1) by by eapply inv_step.
  assert (Hown := inv_owner _ I _ _ _ _ Hi (submitted_owns _ _ Hs)).
  assert (Hdead : ∃ l, s1 = move i t Dropped (drop_sender c (with_lock l s))).
  { cbn in Hd. unfold abandon in Hd. rewrite Hi in Hd. cbn in Hd.
    destruct pc; try done; cbn in Hs; subst; injection Hd as <-; [exists (refresh_lock s); by destruct s|by eexists..]. }
  destruct Hdead as [l Hs1].
  assert (A1 : abandoned t c (sent pc) s1).
  { subst s1. split; cbn.
    - by eapply inv_entry.
    - by rewrite list_lookup_alter_eq, Hown.
    - intros j p c' Hj Hs'. apply list_lookup_insert_Some in Hj as [(-> & [= <-] & _)|[Hne Hj]]; [done|].
      pose proof (inv_entry _ I _ _ _ _ Hi Hs). pose proof (inv_entry _ I _ _ _ _ Hj Hs').
      assert (c' = c) as -> by congruence. apply Hne.
      eapply (inv_unique _ I); [exact Hi|exact Hj|by apply submitted_owns..]. }
  assert (Hlen : length (callers s1) = length (callers s)) by (subst s1; cbn; apply length_insert).
  pose (P := λ st, inv st ∧ abandoned t c (sent pc) st ∧ length (callers s) ≤ length (callers st) ∧
    ∀ j p, length (callers s) ≤ j → callers st !! j = Some (t, p) → after_drop c (sent pc) p).
  assert (P1 : P s1).
  { split_and!; [done|done|lia|]. intros j p Hj Hjj%lookup_lt_Some. lia. }
  apply (exec_keeps P) in Hm as (_ & A2 & _ & L2); [|clear; intros e st st' (? & ? & ? & ?) ?|done].
  2:{ split; [by eapply inv_step|]. split; [by eapply abandoned_step|]. by eapply late_step. }
  split; [|done]. intros j pc' c'. by eapply ab_idle.
Qed.

(** ** Executions in which nobody is dropped *)

Definition undropped (e : revent) : Prop := match e with Drop _ => False | _ => True end.

(** Caller [j] serves channel [c]: it is under way with it, or sent its result. *)
Definition serving (s : RState) (E : list revent) (t : string) (c j : nat) : Prop :=
  ∃ pc, callers s !! j = Some (t, pc) ∧
    (submitted pc c ∨ ∃ r, Finish j r ∈ E ∧ chans s !! c = Some {| sender := false; value := Some r |}).

(** The invariant of these executions, with the events so far *)
Record live (E : list revent) (s : RState) : Prop := {
  live_inv : inv s;
  live_present i t : callers s !! i ≠ Some (t, Dropped);
  live_entry t c : inflight s !! t = Some c → ∃ j pc, callers s !! j = Some (t, pc) ∧ submitted pc c;
  live_finished i t c r : callers s !! i = Some (t, Removing c r) → Finish i r ∈ E;
  live_waits i t c : callers s !! i = Some (t, Waiting c) → ∃ j, serving s E t c j
}.

Lemma moves_other i t pc pc' s s' j x :
  moves i t pc pc' s s' → j ≠ i → callers s !! j = Some x → callers s' !! j = Some x.
Proof. intros (_ & Hcs & _) Hne Hj. by rewrite Hcs, list_lookup_insert_ne. Qed.

Lemma moves_self i t pc pc' s s' : moves i t pc pc' s s' → callers s' !! i = Some (t, pc').
Proof. intros (Hi & Hcs & _). rewrite Hcs. apply list_lookup_insert_eq. by eapply lookup_lt_Some. Qed.

(** A submitted caller stays submitted, or sends its result and goes. *)
Lemma submitted_step i t s s' pc pc' c :
  effect i t s s' pc pc' → pc' ≠ Dropped → submitted pc c →
  submitted pc' c ∨ ∃ r, pc = Removing c r ∧ pc' = Returned r ∧ inflight s' = delete t (inflight s).
Proof. intros He Hd Hs. destruct He; cbn in *; subst; try done; eauto. Qed.

Lemma serving_step E s s' e t c j :
  live E s → rstep e s = Some s' → undropped e → serving s E t c j → serving s' (E ++ [e]) t c j.
Proof.
  intros L Hst Hu (pc & Hj & Hs).
  destruct (rstep_inv _ _ _ Hst) as [(u & _ & Hcs & _ & Hch & _)|(i & u & p & p' & Hev & Hd & Hm)].
  - exists pc. split; [rewrite Hcs; by apply lookup_app_l_Some|].
    destruct Hs as [Hs|(r & Hr & Hc)]; [by left|right]. exists r. rewrite Hch. set_solver.
  - assert (Hnd : p' ≠ Dropped) by (intros ->; by rewrite (Hd eq_refl) in Hu).
    pose proof Hm as (Hi & _ & Hef). destruct Hs as [Hs|(r & Hr & Hc)].
    + destruct (decide (j = i)) as [->|Hne].
      * rewrite Hi in Hj. injection Hj as -> ->. exists p'. split; [by eapply moves_self|].
        destruct (submitted_step _ _ _ _ _ _ _ Hef Hnd Hs) as [Hs'|(r & -> & -> & _)]; [by left|right].
        exists r. split; [apply elem_of_app; left; by eapply live_finished|].
        inversion Hef; subst. match goal with Hf : chans s' = _ |- _ => rewrite Hf end.
        by rewrite list_lookup_alter_eq, (inv_owner _ (live_inv _ _ L) _ _ _ _ Hi eq_refl).
      * exists pc. split; [by eapply moves_other|by left].
    + assert (Hc' : chans s' !! c = Some {| sender := false; value := Some r |}).
      { eapply chan_frame; [exact Hef| |done]. eapply not_owner; [apply (live_inv _ _ L)|done|done]. }
      destruct (decide (j = i)) as [->|Hne].
      * rewrite Hi in Hj. injection Hj as -> ->. exists p'. split; [by eapply moves_self|]. right. exists r. set_solver.
      * exists pc. split; [by eapply moves_other|]. right. exists r. set_solver.
Qed.

Lemma live_step E s s' e : live E s → rstep e s = Some s' → undropped e → live (E ++ [e]) s'.
Proof.
  intros L Hst Hu. pose proof (inv_step _ _ _ (live_inv _ _ L) Hst) as I'.
  assert (Hserve : ∀ t c, (∃ j, serving s E t c j) → ∃ j, serving s' (E ++ [e]) t c j).
  { intros t c [j Hj]. exists j. by eapply serving_step. }
  destruct (rstep_inv _ _ _ Hst) as [(u & _ & Hcs & Hif & Hch & _)|(i & u & p & p' & Hev & Hd & Hm)].
  - assert (Hl : ∀ j x, callers s' !! j = Some x → callers s !! j = Some x ∨ x = (u, Looking)).
    { intros j x Hj. rewrite Hcs in Hj. apply lookup_app_Some in Hj as [Hj|[_ Hj]]; [by left|right].
      by apply list_lookup_singleton_Some in Hj as [_ <-]. }
    split; [done|..].
    + intros j t [Hj|[=]]%Hl. by eapply live_present.
    + intros t c. rewrite Hif. intros (j & pc & Hj & Hs)%(live_entry _ _ L). exists j, pc. split; [|done].
      rewrite Hcs. by apply lookup_app_l_Some.
    + intros j t c r [Hj|[=]]%Hl. apply elem_of_app. left. by eapply live_finished.
    + intros j t c [Hj|[=]]%Hl. apply Hserve. by eapply live_waits.
  - assert (Hnd : p' ≠ Dropped) by (intros ->; by rewrite (Hd eq_refl) in Hu).
    pose proof Hm as (Hi & _ & Hef). pose proof (moves_self _ _ _ _ _ _ Hm) as Hself.
    assert (Hnew : ∀ t c, inflight s !! t = Some c → ∃ j, serving s E t c j).
    { intros t c (j & pc & Hj & Hs)%(live_entry _ _ L). exists j, pc. eauto. }
    split; [done|..].
    + intros j t Hj. destruct (moves_lookup _ _ _ _ _ _ _ _ Hm Hj) as [[-> [= _ <-]]|[_ Hj']]; [done|].
      by eapply live_present.
    + intros t c Hc. assert (Hcase : inflight s !! t = Some c ∨ (t = u ∧ p' = Queued c)).
      { destruct Hef; match goal with Hf : inflight s' = _ |- _ => rewrite Hf in Hc end; auto.
        - apply lookup_insert_Some in Hc as [[<- <-]|[_ Hc]]; auto.
        - apply lookup_delete_Some in Hc as [_ Hc]; auto. }
      destruct Hcase as [Hold|[-> ->]]; [|by exists i, (Queued c)].
      destruct (live_entry _ _ L _ _ Hold) as (j & pc & Hj & Hs). destruct (decide (j = i)) as [->|Hne].
      * rewrite Hi in Hj. injection Hj as -> ->. exists i, p'. split; [done|].
        destruct (submitted_step _ _ _ _ _ _ _ Hef Hnd Hs) as [|(r & -> & -> & Hdel)]; [done|].
        rewrite Hdel, lookup_delete_eq in Hc. done.
      * exists j, pc. split; [by eapply moves_other|done].
    + intros j t c r Hj. apply elem_of_app.
      destruct (moves_lookup _ _ _ _ _ _ _ _ Hm Hj) as [[-> [= -> <-]]|[_ Hj']]; [|left; by eapply live_finished].
      right. destruct Hev as [->|[[r' ->]|[_ ?]]]; [..|done].
      * exfalso. cbn in Hst. unfold advance in Hst. rewrite Hi in Hst. inversion Hef; subst. done.
      * cbn in Hst. unfold finish in Hst. rewrite Hi in Hst. inversion Hef; subst. injection Hst as Hst.
        rewrite <- Hst in Hself. cbn in Hself. rewrite list_lookup_insert_eq in Hself by (by eapply lookup_lt_Some).
        injection Hself as ->. by apply list_elem_of_singleton.
    + intros j t c Hj. destruct (moves_lookup _ _ _ _ _ _ _ _ Hm Hj) as [[-> [= -> <-]]|[_ Hj']];
        [|apply Hserve; by eapply live_waits].
      apply Hserve. inversion Hef; subst; by apply Hnew.
Qed.

Lemma live_initial : live [] initial.
Proof. split; [apply inv_initial|done..]. Qed.

Lemma live_exec E evs s s' :
  live E s → exec evs s = Some s' → Forall undropped evs → live (E ++ evs) s'.
Proof.
  revert E s. induction evs as [|e evs IH]; intros E s L; cbn [exec].
  - intros [= <-] _. by rewrite app_nil_r.
  - intros H Hu. apply bind_Some in H as (s1 & H1 & H2). apply Forall_cons in Hu as [Hu Hus].
    rewrite cons_middle, app_assoc. eapply IH; [|exact H2|done]. by eapply live_step.
Qed.

(** *** Whose result a caller is given *)

Definition not_returned (s0 : RState) (t : string) (j : nat) : Prop :=
  ∀ r, callers s0 !! j ≠ Some (t, Returned r).

(** What is known of caller [i], which arrived in [s0] *)
Record shares (s0 : RState) (i : nat) (t : string) (E : list revent) (s : RState) : Prop := {
  sh_caller : ∃ pc, callers s !! i = Some (t, pc) ∧
    match pc with
    | Waiting c => ∃ j, serving s E t c j ∧ not_returned s0 t j
    | Returned r => ∃ j pcj, callers s !! j = Some (t, pcj) ∧ Finish j r ∈ E ∧ not_returned s0 t j
    | _ => True
    end;
  sh_old j u r : callers s0 !! j = Some (u, Returned r) → callers s !! j = Some (u, Returned r)
}.

Lemma target_kept e s s' j t pc :
  rstep e s = Some s' → callers s !! j = Some (t, pc) → ∃ pc', callers s' !! j = Some (t, pc').
Proof.
  intros [(u & _ & Hcs & _)|(i & u & p & p' & _ & _ & Hm)]%rstep_inv Hj.
  - exists pc. rewrite Hcs. by apply lookup_app_l_Some.
  - destruct (decide (j = i)) as [->|Hne]; [|exists pc; by eapply moves_other].
    pose proof Hm as (Hi & _). rewrite Hi in Hj. injection Hj as -> ->. exists p'. by eapply moves_self.
Qed.

Lemma returned_kept e s s' j t r :
  rstep e s = Some s' → callers s !! j = Some (t, Returned r) → callers s' !! j = Some (t, Returned r).
Proof.
  intros [(u & _ & Hcs & _)|(i & u & p & p' & _ & _ & Hm)]%rstep_inv Hj.
  - rewrite Hcs. by apply lookup_app_l_Some.
  - destruct (decide (j = i)) as [->|Hne]; [|by eapply moves_other].
    destruct Hm as (Hi & _ & Hef). rewrite Hi in Hj. injection Hj as -> ->. inversion Hef; naive_solver.
Qed.

Lemma shares_step s0 i t E s s' e :
  live E s → shares s0 i t E s → rstep e s = Some s' → undropped e → shares s0 i t (E ++ [e]) s'.
Proof.
  intros L [(pc & Hi & Hk) Hold] Hst Hu. split; [|intros j u r Hj; by eapply returned_kept, Hold].
  assert (Hkeep : match pc with
    | Waiting c => ∃ j, serving s' (E ++ [e]) t c j ∧ not_returned s0 t j
    | Returned r => ∃ j pcj, callers s' !! j = Some (t, pcj) ∧ Finish j r ∈ E ++ [e] ∧ not_returned s0 t j
    | _ => True end).
  { destruct pc; try done.
    - destruct Hk as (j & Hs & Hf). exists j. split; [by eapply serving_step|done].
    - destruct Hk as (j & pcj & Hj & Hf & Hn). destruct (target_kept _ _ _ _ _ _ Hst Hj) as [pcj' Hj'].
      exists j, pcj'. set_solver. }
  destruct (rstep_inv _ _ _ Hst) as [(u & _ & Hcs & _)|(k & u & p & p' & _ & Hd & Hm)].
  { exists pc. split; [|done]. rewrite Hcs. by apply lookup_app_l_Some. }
  destruct (decide (i = k)) as [<-|Hne]; [|exists pc; split; [by eapply moves_other|done]].
  pose proof Hm as (Hi' & _ & Hef). rewrite Hi in Hi'. injection Hi' as <- <-. exists p'. split; [by eapply moves_self|].
  assert (Hnew : ∀ c, inflight s !! t = Some c → ∃ j, serving s' (E ++ [e]) t c j ∧ not_returned s0 t j).
  { intros c (j & pcj & Hj & Hs)%(live_entry _ _ L). exists j. split.
    - eapply serving_step; [done..|]. exists pcj. eauto.
    - intros r Hr%Hold. rewrite Hr in Hj. injection Hj as <-. done. }
  assert (Hsub : ∀ j r, Finish j r ∈ E → Finish j r ∈ E ++ [e]) by (intros; set_solver).
  inversion Hef; subst; try done; try (by apply Hnew).
  - destruct Hk as (j & (pcj & Hj & Hs) & Hn).
    destruct (target_kept _ _ _ _ _ _ Hst Hj) as [pcj' Hj']. exists j, pcj'. split_and!; [done| |done]. apply Hsub.
    destruct Hs as [Hs|(r' & Hf & Hc)]; [|naive_solver].
    pose proof (inv_owner _ (live_inv _ _ L) _ _ _ _ Hj (submitted_owns _ _ Hs)) as Ho.
    assert (Hsent : sent pcj = Some r) by naive_solver.
    destruct pcj; try done. injection Hsent as ->. by eapply live_finished.
  - exists i, (Returned r). split_and!; [by eapply moves_self|apply Hsub; by eapply live_finished|].
    intros r' Hr%Hold. congruence.
Qed.

Lemma shares_exec s0 i t E evs s s' :
  live E s → shares s0 i t E s → exec evs s = Some s' → Forall undropped evs → shares s0 i t (E ++ evs) s'.
Proof.
  revert E s. induction evs as [|e evs IH]; intros E s L Sh; cbn [exec].
  - intros [= <-] _. by rewrite app_nil_r.
  - intros H Hu. apply bind_Some in H as (s1 & H1 & H2). apply Forall_cons in Hu as [Hu Hus].
    rewrite cons_middle, app_assoc. eapply IH; [| |exact H2|done]; [by eapply live_step|by eapply shares_step].
Qed.

(** While nobody is dropped, a caller is answered with the result of a run
    of its own target that overlaps its call: the caller that ran it had not
    returned when this one came in. *)
Theorem shared_result_overlaps before s0 t after s r :
  exec before initial = Some s0 → exec (Arrive t :: after) s0 = Some s →
  Forall undropped (before ++ after) →
  callers s !! length (callers s0) = Some (t, Returned r) →
  ∃ j pc, Finish j r ∈ before ++ after ∧ callers s !! j = Some (t, pc) ∧
          ∀ r', callers s0 !! j ≠ Some (t, Returned r').
Proof.
  intros H0 H1 [Hb Ha]%Forall_app Hr. pose proof (live_exec _ _ _ _ live_initial H0 Hb) as L0. cbn [app] in L0.
  cbn [exec] in H1. apply bind_Some in H1 as (s1 & Hs1 & H1).
  assert (L1 : live (before ++ [Arrive t]) s1) by (by eapply live_step).
  assert (Sh : shares s0 (length (callers s0)) t (before ++ [Arrive t]) s1).
  { injection Hs1 as <-. split; cbn [callers].
    - exists Looking. split; [|done]. by rewrite lookup_app_r, Nat.sub_diag by lia.
    - intros j u r' Hj. by apply lookup_app_l_Some. }
  destruct (shares_exec _ _ _ _ _ _ _ L1 Sh H1 Ha) as [(pc & Hi & Hk) _].
  rewrite Hi in Hr. injection Hr as ->. destruct Hk as (j & pcj & Hj & Hf & Hn). exists j, pcj.
  split_and!; [|done|done]. set_solver.
Qed.

(** *** Progress *)

Definition is_poll (e : revent) : bool := match e with Go _ | Finish _ _ => true | _ => false end.
Definition is_arrival (e : revent) : bool := match e with Arrive _ => true | _ => false end.
Definition count_by (f : revent → bool) (evs : list revent) : nat := length (List.filter f evs).

(** How many suspension points a caller can still pass *)
Definition weight (pc : Pc) : nat :=
  match pc with
  | Looking => 5 | Entering _ => 4 | Queued _ => 3 | Running _ => 2 | Removing _ _ => 1 | Waiting _ => 1
  | Returned _ | Dropped => 0
  end.
Definition total_weight (s : RState) : nat := sum_list_with (λ x, weight x.2) (callers s).

Lemma sum_insert {A} (f : A → nat) (l : list A) i x y :
  l !! i = Some x → sum_list_with f (<[i := y]> l) + f x = sum_list_with f l + f y.
Proof.
  revert i. induction l as [|z l IH]; intros [|i]; try done.
  - intros [= ->]. cbn. lia.
  - intros Hi. specialize (IH _ Hi). change (<[S i := y]> (z :: l)) with (z :: <[i := y]> l).
    cbn [sum_list_with]. lia.
Qed.

Lemma weight_step E e s s' :
  live E s → rstep e s = Some s' → undropped e →
  total_weight s' + count_by is_poll [e] ≤ total_weight s + 5 * count_by is_arrival [e].
Proof.
  intros L Hst Hu. destruct (rstep_inv _ _ _ Hst) as [(u & -> & Hcs & _)|(i & t & p & p' & Hev & Hd & Hm)].
  - unfold total_weight, count_by. rewrite Hcs, sum_list_with_app. cbn. lia.
  - assert (Hnd : p' ≠ Dropped) by (intros ->; by rewrite (Hd eq_refl) in Hu).
    pose proof Hm as (Hi & Hcs & Hef). unfold total_weight. rewrite Hcs.
    pose proof (sum_insert (λ x : string * Pc, weight x.2) _ i _ (t, p') Hi) as Hw. cbn [snd] in Hw.
    assert (Hlt : weight p' < weight p).
    { inversion Hef; subst; cbn; try lia; try done. exfalso.
      destruct (live_waits _ _ L _ _ _ Hi) as (j & pcj & Hj & [Hs|(r & _ & Hc)]); [|naive_solver].
      pose proof (inv_owner _ (live_inv _ _ L) _ _ _ _ Hj (submitted_owns _ _ Hs)). naive_solver. }
    assert (Hc : count_by is_poll [e] ≤ 1) by (unfold count_by; cbn; destruct (is_poll e); cbn; lia). lia.
Qed.

Lemma weight_exec E evs s s' :
  live E s → exec evs s = Some s' → Forall undropped evs →
  total_weight s' + count_by is_poll evs ≤ total_weight s + 5 * count_by is_arrival evs.
Proof.
  revert E s. induction evs as [|e evs IH]; intros E s L; cbn [exec].
  - intros [= <-] _. unfold count_by. cbn. lia.
  - intros H Hu. apply bind_Some in H as (s1 & H1 & H2). apply Forall_cons in Hu as [Hu Hus].
    pose proof (weight_step _ _ _ _ L H1 Hu). pose proof (IH _ _ (live_step _ _ _ _ L H1 Hu) H2 Hus).
    unfold count_by in *. cbn [List.filter] in *. destruct (is_poll e), (is_arrival e); cbn in *; lia.
Qed.

(** A caller under way with its run can move, or another one can. *)
Lemma runner_moves s i t pc c :
  inv s → callers s !! i = Some (t, pc) → submitted pc c →
  ∃ e s', is_poll e = true ∧ rstep e s = Some s'.
Proof.
  intros Hinv Hi Hs.
  assert (Hrun : ∀ k u p, callers s !! k = Some (u, p) → in_run p → ∃ e s', is_poll e = true ∧ rstep e s = Some s').
  { intros k u p Hk Hr. destruct p as [| | | |c'|c' r| |]; try done.
    - exists (Finish k (Ok ())). cbn. unfold finish. rewrite Hk. by eexists.
    - exists (Go k). cbn. unfold advance. rewrite Hk. by eexists. }
  destruct pc as [| | |c'|c'|c' r| |]; try done; [|by eapply Hrun..].
  destruct (refresh_lock s) as [k|] eqn:El.
  - destruct (inv_held _ Hinv k El) as (u & p & Hk & Hr). by eapply Hrun.
  - exists (Go i). cbn. unfold advance. rewrite Hi. cbn. rewrite El. by eexists.
Qed.


(** ** Witnesses *)

Module RunSample.
Local Open Scope string_scope.

(** One caller has the lock, a second of its target waits, a third of another
    target is queued. *)
Definition evs : list revent :=
  [Arrive "collateral"; Go 0; Go 0; Go 0; Arrive "collateral"; Go 1; Arrive "certs:00906ED50000"; Go 2; Go 2].
Definition busy : RState := default initial (exec evs initial).

(** The runner is dropped; its waiter goes back and waits for ever. *)
Definition wedged : RState := default initial (exec (evs ++ [Drop 0]) initial).
Definition later : list revent := [Go 1; Go 1; Arrive "collateral"; Go 3; Go 3; Go 3; Go 3; Go 1].

Example wedged_callers :
  (λ s, map snd (callers s)) <$> exec later wedged
  = Some [Dropped; Looking; Queued 1; Looking] ∧
  (λ s, map snd (callers s)) <$> exec (later ++ [Go 1; Go 3]) wedged
  = Some [Dropped; Waiting 0; Queued 1; Waiting 0].
Proof. split; vm_compute; reflexivity. Qed.

Definition ended : list revent := evs ++ [Finish 0 (Ok ()); Go 1; Go 0; Go 2; Finish 2 (Err NO_CACHE_DATA); Go 2].
End RunSample.
Import RunSample.

Lemma refresh_exclusive_witness :
  exec evs initial = Some busy ∧ refresh_lock busy = Some 0 ∧
  ∀ i j t u pc pc', callers busy !! i = Some (t, pc) → callers busy !! j = Some (u, pc') →
    in_run pc → in_run pc' → i = j.
Proof.
  split; [vm_compute; reflexivity|]. split; [vm_compute; reflexivity|].
  apply (refresh_exclusive evs busy). vm_compute. reflexivity.
Defined.

Lemma dropped_refresh_disables_target_witness :
  rstep (Drop 0) busy = Some wedged ∧
  (∀ j pc c', callers (default initial (exec later wedged)) !! j = Some ("collateral"%string, pc) → ¬ submitted pc c').
Proof.
  split; [vm_compute; reflexivity|].
  apply (dropped_refresh_disables_target evs busy 0 "collateral" (Running 0) 0 wedged later
    (default initial (exec later wedged))); vm_compute; reflexivity.
Defined.

Lemma shared_result_overlaps_witness :
  ∃ j pc, Finish j (Ok ()) ∈ ended ∧ callers (default initial (exec ended initial)) !! j = Some ("collateral"%string, pc) ∧
    ∀ r', callers (default initial (exec (take 4 evs) initial)) !! j ≠ Some ("collateral"%string, Returned r').
Proof.
  destruct (shared_result_overlaps (take 4 ended) (default initial (exec (take 4 evs) initial)) "collateral"
    (drop 5 ended) (default initial (exec ended initial)) (Ok ())) as (j & pc & Hf & Hc & Hn);
    [vm_compute; reflexivity|vm_compute; reflexivity|repeat constructor|vm_compute; reflexivity|].
  exists j, pc. split; [|split; [exact Hc|exact Hn]]. apply elem_of_app in Hf as [Hf|Hf].
  - rewrite <- (take_drop 4 ended). apply elem_of_app. left. exact Hf.
  - rewrite <- (take_drop 5 ended). apply elem_of_app. right. exact Hf.
Defined.

