(* ===== verification/CacheSpec.v ===== *)
(** * CacheSpec: which operations the cache performs

    The requests the routes hand to the cache, as one type, and what every one
    of them may do: which locks it takes, which upstream calls it makes.  The
    results are structural, so they hold for every execution and every
    interleaving. *)

From Stdlib Require Import ZArith Lia.
From stdpp Require Import base list strings option gmap relations.
From S2P Require Import Prelude Text Errors Validate Env PckCert Selection Ocsp Keys Database Fifo Records Platforms Registry Collateral Urls Prog Cache Pool Refresh.

Local Open Scope Z_scope.
#[local] Set Default Proof Using "Type*".

(** ** Structural lemmas *)

Section structure.
Context {D V : Type}.
Implicit Types (LK : string → Prop) (PC : ∀ X, pcs_call V X → Prop).

Lemma ops_in_try {A B} LK PC (c : @CM D V A) (f : A → @CM D V B) :
  ops_in LK PC c → (∀ a, ops_in LK PC (f a)) → ops_in LK PC (c ≫= f).
Proof. intros Hc Hf. apply ops_in_bind; [done|]. by intros [a|e]. Qed.

Lemma ops_in_upstream {A} LK PC (c : pcs_call V (res A)) :
  PC _ c → ops_in LK PC (upstream c : @CM D V A).
Proof. done. Qed.

Lemma ops_in_lock_scope {A} LK PC key (on_err : PccsError → A) (body : @P D V A) :
  LK key → ops_in LK PC body → ops_in LK PC (lock_scope key on_err body).
Proof.
  intros Hk Hb. split; [done|]. apply ops_in_bind; [done|].
  intros [e|]; [done|]. apply ops_in_bind; [done|]. done.
Qed.

Lemma locks_lock_scope {A} key (on_err : PccsError → A) (body : @P D V A) :
  lock_free body → locks None None (lock_scope key on_err body).
Proof.
  intros Hb. split; [done|]. apply (locks_bind _ (Some key)); [by apply lock_free_locks|].
  intros [e|]; [done|]. apply (locks_bind _ (Some key)); [by apply lock_free_locks|done].
Qed.

Lemma locks_try {A B} h (c : @CM D V A) (f : A → @CM D V B) :
  locks h h c → (∀ a, locks h h (f a)) → locks h h (c ≫= f).
Proof. intros Hc Hf. apply (locks_bind _ h); [done|]. by intros [a|e]. Qed.

Lemma ops_in_peek {A} LK PC (f : Store D → A) : ops_in LK PC (peek f : @P D V A).
Proof. done. Qed.
Lemma ops_in_store_do {A} LK PC (m : Time → M D A) : ops_in LK PC (store_do m : @CM D V A).
Proof. done. Qed.
Lemma ops_in_unix_time LK PC : ops_in LK PC (unix_time : @P D V Z).
Proof. done. Qed.
Lemma ops_in_answer {A} LK PC (a : A) : ops_in LK PC (answer a : @CM D V A).
Proof. done. Qed.
Lemma ops_in_throw {A} LK PC e : ops_in LK PC (throw e : @CM D V A).
Proof. done. Qed.
Lemma ops_in_recent_non200 LK PC key : ops_in LK PC (recent_non200 key : @P D V _).
Proof. done. Qed.
Lemma ops_in_remember LK PC key o : ops_in LK PC (remember key o : @P D V unit).
Proof. unfold remember. by destruct (too_large o). Qed.
Lemma ops_in_note {A} LK PC key (r : res A) : ops_in LK PC (note key r : @CM D V A).
Proof. destruct r as [a|e]; [done|]. by apply ops_in_bind; [apply ops_in_remember|]. Qed.
Lemma ops_in_discard {A} LK PC (c : @CM D V A) : ops_in LK PC c → ops_in LK PC (discard c).
Proof. intros Hc. by apply ops_in_bind. Qed.
Lemma ops_in_drop_expired `{Database D} LK PC key : ops_in LK PC (drop_expired key : @P D V unit).
Proof. by apply ops_in_discard. Qed.
Lemma ops_in_each_try {A} LK PC (f : A → @CM D V unit) l :
  (∀ x, ops_in LK PC (f x)) → ops_in LK PC (each_try f l).
Proof. intros Hf. induction l as [|x l IH]; [done|]. by apply ops_in_try. Qed.
Lemma ops_in_each_do {A} LK PC (f : A → @P D V unit) l :
  (∀ x, ops_in LK PC (f x)) → ops_in LK PC (each_do f l).
Proof. intros Hf. induction l as [|x l IH]; [done|]. by apply ops_in_bind. Qed.
Lemma ops_in_snapshot {A} LK PC (f : Store D → A) : ops_in LK PC (snapshot f : @CM D V A).
Proof. done. Qed.
End structure.

Create HintDb prog.
#[export] Hint Resolve ops_in_peek ops_in_store_do ops_in_unix_time ops_in_answer ops_in_throw
  ops_in_recent_non200 ops_in_remember ops_in_note ops_in_drop_expired ops_in_snapshot : prog.

(** Walk through a program: its binds, its branches, its leaves. *)
Ltac prog_walk :=
  repeat match goal with
  | |- ops_in _ _ (lock_scope _ _ _) => apply ops_in_lock_scope
  | |- ops_in _ _ (with_key_lock _ _) => apply ops_in_lock_scope
  | |- ops_in _ _ (mbind _ _) => apply ops_in_try; [|intros ?]
  | |- ops_in _ _ (pbind _ _) => apply ops_in_bind; [|intros ?]
  | |- ops_in _ _ (with_timeout _) => apply ops_in_timeout
  | |- ops_in _ _ (discard _) => apply ops_in_discard
  | |- ops_in _ _ (each_try _ _) => apply ops_in_each_try; intros ?
  | |- ops_in _ _ (each_do _ _) => apply ops_in_each_do; intros ?
  | |- ops_in _ _ (upstream _) => apply ops_in_upstream
  | |- ops_in _ _ (Ret _) => exact I
  | |- ops_in _ _ (let _ := _ in _) => cbv zeta
  | |- ops_in _ _ (match ?x with _ => _ end) => destruct x eqn:?; try discriminate
  | |- ops_in _ _ _ => solve [auto 2 with prog]
  end.

(** ** Requests *)

Inductive Request (V : Type) :=
| GetTcb (prod_type : Z) (fmspc : string) (version : Z) (update : UpdateType)
| GetIdentity (enclave_id version : Z) (update : UpdateType)
| GetPckCrl (ca : string) (version : Z)
| GetRootCaCrl (version : Z)
| GetCrl (uri : string) (version : Z)
| GetAmdKds (path_and_query : string)
| GetNvidiaRim (path_and_query : string)
| PostNvidiaOcsp (body : list Z)
| PostNvidiaNras (body : V)
| GetPckCert (qeid cpusvn pcesvn pceid : string) (enc_ppid : option string) (version : Z)
| PostPlatform (p : RegisteredPlatform) (update : UpdateType)
| PostRefresh (typ fmspc : option string).
Arguments GetTcb {V} _ _ _ _. Arguments GetIdentity {V} _ _ _. Arguments GetPckCrl {V} _ _.
Arguments GetRootCaCrl {V} _. Arguments GetCrl {V} _ _. Arguments GetAmdKds {V} _.
Arguments GetNvidiaRim {V} _. Arguments PostNvidiaOcsp {V} _. Arguments PostNvidiaNras {V} _.
Arguments GetPckCert {V} _ _ _ _ _ _. Arguments PostPlatform {V} _ _. Arguments PostRefresh {V} _ _.

Inductive Reply (V : Type) :=
| TcbReply (rec : TcbRecord V)
| IdentityReply (rec : IdentityRecord V)
| PckCrlReply (rec : PckCrlRecord)
| CrlReply (crl : list Z)
| UrlReply (r : AmdKdsResponse)
| PckCertReply (rec : PckCertRecord)
| DoneReply.
Arguments TcbReply {V} _. Arguments IdentityReply {V} _. Arguments PckCrlReply {V} _.
Arguments CrlReply {V} _. Arguments UrlReply {V} _. Arguments PckCertReply {V} _. Arguments DoneReply {V}.

(** The requests a cache answers from what it holds; attestation is not one. *)
Definition is_lookup {V} (r : Request V) : bool :=
  match r with
  | PostNvidiaNras _ | PostPlatform _ _ | PostRefresh _ _ => false
  | _ => true
  end.

Section serve.
Context {D V : Type} `{Database D} `{Json V} `{Base64} `{Sha2} `{Chrono}.
Context `{Serde PckCertRecord} `{Serde PlatformPool} `{Serde (TcbRecord V)} `{Serde (IdentityRecord V)}
  `{Serde PckCrlRecord} `{Serde (list Z)} `{Serde CrlRecord} `{Serde AmdKdsRecord}
  `{Serde NvidiaOcspRecord} `{Serde RegisteredPlatform}.
Context (cfg : Config).

Definition reply {A} (f : A → Reply V) (c : @CM D V A) : @P D V (res (Reply V)) :=
  pmap (λ r, f <$> r) c.

Definition serve (r : Request V) : @P D V (res (Reply V)) :=
  match r with
  | GetTcb p f v u => reply TcbReply (Cache.get_tcb cfg p f v u)
  | GetIdentity i v u => reply IdentityReply (Cache.get_identity cfg i v u)
  | GetPckCrl ca v => reply PckCrlReply (Cache.get_pckcrl cfg ca v)
  | GetRootCaCrl v => reply CrlReply (Cache.get_rootcacrl cfg v)
  | GetCrl uri v => reply CrlReply (Cache.get_crl cfg uri v)
  | GetAmdKds pq => reply UrlReply (Cache.get_amd_kds cfg pq)
  | GetNvidiaRim pq => reply UrlReply (Cache.get_nvidia_rim cfg pq)
  | PostNvidiaOcsp body => reply UrlReply (Cache.get_nvidia_ocsp cfg body)
  | PostNvidiaNras body => reply UrlReply (Cache.get_nvidia_nras cfg body)
  | GetPckCert q c s p e v => reply PckCertReply (Pool.get_pckcert cfg q c s p e v)
  | PostPlatform p u => reply (λ _, DoneReply) (Refresh.register_platform cfg p u)
  | PostRefresh t f => reply (λ _, DoneReply) (refresh cfg t f)
  end.

Lemma ops_in_reply {A} LK PC (f : A → Reply V) (c : @CM D V A) :
  ops_in LK PC c → ops_in LK PC (reply f c).
Proof. intros Hc. by apply ops_in_bind. Qed.

Lemma locks_reply {A} (f : A → Reply V) (c : @CM D V A) :
  locks None None c → locks None None (reply f c).
Proof. intros Hc. by apply (locks_bind _ None). Qed.

(** *** No upstream calls outside LAZY *)

Lemma not_lazy_get_cached_url url ttl service key_for e load save :
  mode cfg ≠ Lazy → local (get_cached_url cfg url ttl service key_for e load save : @CM D V _).
Proof. intros Hm. unfold get_cached_url, local. rewrite !(bool_decide_eq_false_2 _ Hm). prog_walk. Qed.

Lemma local_select_locally qeid cpusvn pcesvn pceid :
  local (select_locally cfg qeid cpusvn pcesvn pceid : @CM D V _).
Proof. done. Qed.

Lemma not_lazy_refetch qeid cpusvn pcesvn pceid version :
  mode cfg ≠ Lazy → local (refetch_pool_for_new_raw_tcb cfg qeid cpusvn pcesvn pceid version : @P D V _).
Proof.
  intros Hm. unfold refetch_pool_for_new_raw_tcb, local. rewrite (bool_decide_eq_false_2 _ Hm).
  cbn [negb]. rewrite orb_true_r. done.
Qed.

Lemma not_lazy_get_pckcert qeid cpusvn pcesvn pceid enc_ppid version :
  mode cfg ≠ Lazy →
  ops_in any_lock no_call (Pool.get_pckcert cfg qeid cpusvn pcesvn pceid enc_ppid version : @CM D V _).
Proof.
  intros Hm. unfold Pool.get_pckcert.
  apply ops_in_bind; [done|]. intros known. apply ops_in_bind; [by destruct known|]. intros [rec|]; [done|].
  cbv zeta. assert (Hf : ops_in any_lock no_call (with_key_lock (pckcert qeid pceid cpusvn pcesvn)
    (pckcert_locked cfg qeid cpusvn pcesvn pceid enc_ppid version (pckcert qeid pceid cpusvn pcesvn)) : @CM D V _)).
  { apply ops_in_lock_scope; [done|]. unfold pckcert_locked. rewrite (bool_decide_eq_false_2 _ Hm). prog_walk. }
  destruct known; [|done]. apply ops_in_bind; [by apply local_ops_in, not_lazy_refetch|].
  intros [rec|]; [done|]. apply ops_in_bind; [done|]. intros [rec|e]; [done|]. by destruct (_ || _).
Qed.

(** Outside LAZY no lookup makes an upstream call, and in OFFLINE nothing does. *)
Lemma serve_no_upstream (r : Request V) :
  mode cfg ≠ Lazy → is_lookup r = true ∨ mode cfg = Offline →
  only_calls no_call (serve r).
Proof.
  intros Hm Hr. unfold serve, only_calls.
  destruct r; apply ops_in_reply; try (apply not_lazy_get_pckcert; done);
    try (destruct Hr as [Hr|Hoff]; [done|]).
  1-5: unfold Cache.get_tcb, Cache.get_identity, Cache.get_pckcrl, Cache.get_rootcacrl, Cache.get_crl;
    rewrite (bool_decide_eq_false_2 _ Hm); cbn [negb]; prog_walk.
  - unfold Cache.get_amd_kds. apply ops_in_try; [done|]. intros. by apply local_ops_in, not_lazy_get_cached_url.
  - unfold Cache.get_nvidia_rim. apply ops_in_try; [done|]. intros. by apply local_ops_in, not_lazy_get_cached_url.
  - unfold Cache.get_nvidia_ocsp. rewrite (bool_decide_eq_false_2 _ Hm). prog_walk.
  - unfold Cache.get_nvidia_nras. by rewrite Hoff.
  - unfold Refresh.register_platform, is_cached. rewrite Hoff. prog_walk.
  - unfold refresh. rewrite Hoff. prog_walk.
Qed.

(** *** Locks *)

Lemma lock_free_bind_scope {A B} (p : @P D V A) (f : A → @P D V B) :
  lock_free p → (∀ a, locks None None (f a)) → locks None None (pbind p f).
Proof. intros Hp. apply locks_bind. by apply lock_free_locks. Qed.

Lemma lock_free_post_nvidia_ocsp body : lock_free (post_nvidia_ocsp cfg body : @CM D V _).
Proof. unfold post_nvidia_ocsp, lock_free. prog_walk; done. Qed.

Lemma lock_free_url_answer url key e save r : lock_free (cached_url_answer url key e save r : @CM D V _).
Proof. unfold cached_url_answer, lock_free. prog_walk. Qed.

Lemma lock_free_url_locked url ttl service key e load save :
  lock_free (cached_url_locked url ttl service key e load save : @CM D V _).
Proof. unfold cached_url_locked, lock_free. prog_walk; try done; apply lock_free_url_answer. Qed.

Lemma locks_get_cached_url url ttl service key_for e load save :
  locks None None (get_cached_url cfg url ttl service key_for e load save : @CM D V _).
Proof.
  unfold get_cached_url. cbv zeta. apply lock_free_bind_scope; [done|]. intros now.
  apply lock_free_bind_scope; [done|]. intros o.
  assert (Hm : locks None None (if bool_decide (mode cfg = Lazy) then
      with_key_lock (key_for url) (cached_url_locked url ttl service (key_for url) e load save)
      else throw NO_CACHE_DATA : @CM D V _)).
  { destruct (bool_decide _); [|done]. apply locks_lock_scope, lock_free_url_locked. }
  destruct o as [rec|]; [|done]. destruct (_ <? _); [done|]. destruct (bool_decide _); [done|].
  apply lock_free_bind_scope; [|done]. apply ops_in_drop_expired.
Qed.

Lemma lock_free_ocsp_answer ck sk r : lock_free (ocsp_answer cfg ck sk r : @CM D V _).
Proof. unfold ocsp_answer, lock_free. prog_walk. Qed.

Lemma lock_free_ocsp_locked body ck sk : lock_free (ocsp_locked cfg body ck sk : @CM D V _).
Proof.
  unfold ocsp_locked, lock_free. prog_walk; try apply lock_free_ocsp_answer;
    apply lock_free_post_nvidia_ocsp.
Qed.

Lemma locks_get_nvidia_ocsp body : locks None None (Cache.get_nvidia_ocsp cfg body : @CM D V _).
Proof.
  unfold Cache.get_nvidia_ocsp. apply locks_try; [done|]. intros request. cbv zeta.
  apply lock_free_bind_scope; [done|]. intros now. apply lock_free_bind_scope; [done|]. intros o.
  assert (Hm : ∀ ck sk, locks None None (if bool_decide (mode cfg = Lazy) then
      with_key_lock sk (ocsp_locked cfg body ck sk) else throw NO_CACHE_DATA : @CM D V _)).
  { intros ck sk. destruct (bool_decide _); [|done]. apply locks_lock_scope, lock_free_ocsp_locked. }
  destruct o as [rec|]; [|done]. destruct (_ <? _); [done|]. destruct (bool_decide _); [done|].
  apply lock_free_bind_scope; [|done]. apply ops_in_drop_expired.
Qed.

Lemma local_pckcert_pool qeid pceid enc_ppid manifest (resp : PckCertsResponse V) :
  local (pckcert_pool cfg qeid pceid enc_ppid manifest resp : @CM D V _).
Proof.
  unfold pckcert_pool, local. apply ops_in_try.
  - unfold process_not_available. prog_walk. induction (omap _ _) as [|p rows IH]; [done|].
    cbn [register_each]. by apply ops_in_try.
  - intros _. prog_walk.
Qed.

Lemma ops_in_store_pckcerts LK (PC : ∀ X, pcs_call V X → Prop) qeid pceid context (resp : PckCertsResponse V) requested :
  (∀ prod fmspc update, PC _ (fetch_tcb prod fmspc (pcs_version cfg) update)) →
  ops_in LK PC (store_pckcerts cfg qeid pceid context resp requested : @CM D V _).
Proof.
  intros HP. unfold store_pckcerts. apply ops_in_try; [by apply local_ops_in, local_pckcert_pool|].
  intros pool. apply ops_in_try.
  - unfold fetch_tcb_infos. apply ops_in_bind.
    + generalize false, (@nil (TcbRecord V)). induction (wanted_tcbs cfg) as [|[prod update] l IH];
        intros b tcbs; [done|]. cbn [fetch_wanted]. apply ops_in_bind; [by apply ops_in_upstream|].
      intros [rec|e]; apply IH.
    + intros [b tcbs]. prog_walk.
  - intros tcbs. prog_walk.
Qed.

Lemma lock_free_fill_pckcert qeid cpusvn pcesvn pceid context :
  lock_free (fill_pckcert cfg qeid cpusvn pcesvn pceid context : @CM D V _).
Proof.
  unfold fill_pckcert, fetch_pool, lock_free. prog_walk; try done. by apply ops_in_store_pckcerts.
Qed.

Lemma locks_refetch qeid cpusvn pcesvn pceid version :
  locks None None (refetch_pool_for_new_raw_tcb cfg qeid cpusvn pcesvn pceid version : @P D V _).
Proof.
  unfold refetch_pool_for_new_raw_tcb. destruct (_ || _); [done|].
  apply lock_free_bind_scope; [done|]. intros [pool|]; [|done]. destruct (_ || _); [done|].
  cbv zeta. apply locks_lock_scope. unfold refetch_locked, fetch_pool, lock_free, refetch_due, mark_refetch.
  prog_walk; try done. by apply ops_in_store_pckcerts.
Qed.

Lemma locks_get_pckcert qeid cpusvn pcesvn pceid enc_ppid version :
  locks None None (Pool.get_pckcert cfg qeid cpusvn pcesvn pceid enc_ppid version : @CM D V _).
Proof.
  unfold Pool.get_pckcert. apply lock_free_bind_scope; [done|]. intros known.
  apply lock_free_bind_scope; [by destruct known|]. intros [rec|]; [done|]. cbv zeta.
  set (fill := with_key_lock _ _).
  assert (Hf : locks None None fill).
  { apply locks_lock_scope. unfold pckcert_locked, lock_free.
    prog_walk; [done|]. apply lock_free_fill_pckcert. }
  destruct known; [|done]. apply (locks_bind _ None); [apply locks_refetch|].
  intros [rec|]; [done|]. apply lock_free_bind_scope; [done|]. intros [rec|e]; [done|].
  by destruct (_ || _).
Qed.

Lemma lock_free_prefetch {A B} (have : Store D → option B) c (chain : A → option string) put :
  lock_free (prefetch have c chain put : @P D V unit).
Proof. unfold prefetch, lock_free. prog_walk; done. Qed.

Lemma lock_free_register p update : lock_free (Refresh.register_platform cfg p update : @CM D V _).
Proof.
  unfold Refresh.register_platform, is_cached, register_fill, fill_qv_collateral, lock_free.
  prog_walk; try done; first [apply lock_free_fill_pckcert | apply lock_free_prefetch].
Qed.

Lemma lock_free_refresh_collateral : lock_free (refresh_collateral cfg : @CM D V _).
Proof.
  unfold refresh_collateral, refresh_pckcrls, refresh_tcbs, refresh_identity, refresh_rootcacrl, refresh_crls,
    fetch_or, lock_free. prog_walk; done.
Qed.

Lemma lock_free_refresh_certs fmspc : lock_free (refresh_certs cfg fmspc : @CM D V _).
Proof.
  unfold refresh_certs, refresh_platform_pool, refresh_level, fetch_pool, lock_free.
  prog_walk; try done. by apply local_ops_in, local_pckcert_pool.
Qed.

Lemma locks_serve (r : Request V) : locks None None (serve r).
Proof.
  destruct r; apply locks_reply.
  1-5: unfold Cache.get_tcb, Cache.get_identity, Cache.get_pckcrl, Cache.get_rootcacrl, Cache.get_crl;
    apply lock_free_bind_scope; [done|]; intros [rec|]; [done|]; repeat (destruct (_ : bool); [done|]);
    cbv zeta; apply locks_lock_scope; unfold lock_free; prog_walk; done.
  - apply locks_try; [done|]. intros. apply locks_get_cached_url.
  - apply locks_try; [done|]. intros. apply locks_get_cached_url.
  - apply locks_get_nvidia_ocsp.
  - apply lock_free_locks. unfold Cache.get_nvidia_nras, lock_free. prog_walk; done.
  - apply locks_get_pckcert.
  - apply lock_free_locks, lock_free_register.
  - unfold refresh. apply locks_try; [done|]. intros certs. destruct (bool_decide _); [done|].
    split; [done|]. apply (locks_bind _ (Some "refresh_lock"%string)); [|done].
    apply lock_free_locks. destruct certs; [apply lock_free_refresh_certs|apply lock_free_refresh_collateral].
Qed.

(** *** Credentials *)

(** What a GET of a PCK certificate may ask a PCCS upstream, and Intel when
    the pool re-fetch is off. *)
Definition forwards_only (qeid cpusvn pcesvn pceid : string) (ppid : string) : ∀ X, pcs_call V X → Prop :=
  λ _ c, match c with
         | fetch_pckcert_pccs q cs ps p e =>
             is_intel cfg = false ∧ q = qeid ∧ cs = cpusvn ∧ ps = pcesvn ∧ p = pceid ∧
             e = opt_text ppid
         | fetch_pckcerts_intel e p => is_intel cfg = true ∧ ppid ≠ "" ∧ e = ppid ∧ p = pceid
         | fetch_tcb _ _ v _ => is_intel cfg = true ∧ v = pcs_version cfg
         | _ => False
         end.

Lemma opt_text_empty s : (if is_empty s then None else Some s) = opt_text s.
Proof. by destruct s. Qed.

End serve.

(** ** Samples *)

Module CacheSample.
Import MapDb Codec Concrete CollateralSample.

Definition config (m : CacheMode) (intel : bool) : Config :=
  {| mode := m; pcs_version := 4; is_intel := intel; pcs_enabled := true; pool_refetch_on_new_tcb := false;
     scheduled_pool_refresh := true; pool_refetch_interval := 86400; amd_kds_uri := "https://kdsintf.amd.com";
     amd_kds_cache_ttl_secs := 2592000; nvidia_rim_uri := "https://rim.attestation.nvidia.com";
     nvidia_rim_cache_ttl_secs := 2592000; nvidia_nras_uri := "https://nras.attestation.nvidia.com";
     nvidia_ocsp_uri := "https://ocsp.ndis.nvidia.com"; nvidia_ocsp_max_ttl_secs := 86400;
     nvidia_ocsp_default_ttl_secs := 3600 |}.

Definition empty_shared : Shared (gmap string string) := mkShared (mkStore ∅ 0 10) ∅ ∅.
Definition at_second (secs : Z) : Time := {| t_mono := secs * 1000000000; t_secs := secs; t_micros := secs * 1000000 |}.

End CacheSample.

Import MapDb Codec Concrete CollateralSample CacheSample.

