(* ===== verification/ScheduledSpec.v ===== *)
(** * ScheduledSpec: the scheduled run re-fetches every platform once

    The bounded task set of [refresh_platform_pools]: never more tasks than
    the limit, no execution that goes on for ever, and at the end every
    platform of the queue has been processed exactly once, whatever became of
    the others. *)

From Stdlib Require Import ZArith Lia Wellfounded.
From stdpp Require Import base list strings option gmap relations.
From S2P Require Import Prelude Text Errors Validate Env PckCert Selection Ocsp Keys Database Fifo Records Platforms Registry Urls Prog Cache Pool Refresh RefreshRun Collateral CacheSpec.

#[local] Set Default Proof Using "Type*".

(** ** What becomes of a program *)

Section descent.
Context {St : Type} {Call : Type → Type} {A : Type}.
Implicit Types p q : prog St Call A.

(** [q] is what is left of [p]. *)
Definition remains : prog St Call A → prog St Call A → Prop := rtc (λ p q, psub q p).

Lemma remains_lock_free p q : remains p q → lock_free p → lock_free q.
Proof.
  induction 1 as [p|p q r Hs _ IH]; [done|]. intros Hp. apply IH. unfold lock_free in *.
  destruct p; cbn in *; try done; try (by destruct Hs as [? ->]; apply Hp). all: by destruct Hp.
Qed.

Lemma step_task T answers (c c' : conf St Call A) :
  step T answers c c' → ∃ i p p', c_tasks c !! i = Some p ∧ psub p' p ∧ c_tasks c' = <[i := p']> (c_tasks c).
Proof. intros (i & p & p' & Hi & Hs & He)%step_tasks. by exists i, p, p'. Qed.
End descent.

Section scheduled.
Context {D V : Type} `{Database D} `{Json V} `{Base64} `{Sha2} `{Chrono}.
Context `{Serde PckCertRecord} `{Serde PlatformPool} `{Serde (TcbRecord V)} `{Serde (IdentityRecord V)}
  `{Serde PckCrlRecord} `{Serde (list Z)} `{Serde CrlRecord} `{Serde AmdKdsRecord}
  `{Serde NvidiaOcspRecord} `{Serde RegisteredPlatform}.
Context (cfg : Config) (upstream_max_concurrent : nat).
Context (T : Time → Prop) (answers : ∀ X, pcs_call V X → X → Prop).

#[local] Abbreviation task_limit := (task_limit upstream_max_concurrent).
#[local] Abbreviation pools_step := (pools_step (D := D) cfg upstream_max_concurrent T answers).

Lemma lock_free_refresh_platform_pool pool : lock_free (refresh_platform_pool cfg pool : @CM D V _).
Proof.
  unfold refresh_platform_pool, fetch_pool, lock_free. prog_walk; try done. by apply local_ops_in, local_pckcert_pool.
Qed.

(** The invariant: the tasks are what is left of the first platforms of the
    queue, in order. *)
Record tasks_inv (queue : list PlatformPool) (s : TaskSet) : Prop := {
  ti_tasks : ∃ taken, queue = taken ++ ts_pending s ∧
    Forall2 (λ pool p, remains (refresh_platform_pool cfg pool) p) taken (c_tasks (ts_conf s));
  ti_joined : NoDup (ts_joined s);
  ti_ended i : i ∈ ts_joined s → ∃ r, c_tasks (ts_conf s) !! i = Some (Ret r);
  ti_bound : tasks_len s ≤ task_limit
}.

Lemma tasks_inv_start queue st : tasks_inv queue (pools_start queue st).
Proof.
  split; cbn; [by exists []|constructor|set_solver|]. unfold tasks_len. cbn. lia.
Qed.

Lemma tasks_inv_step queue s s' : tasks_inv queue s → pools_step s s' → tasks_inv queue s'.
Proof.
  intros [(taken & Hq & Ht) Hn He Hb] Hs. destruct Hs as [pool pending c joined Hlt|pending c joined st c' Hs|pending c joined i r Hw Hi Hnj];
    cbn in *.
  - split; cbn; [|done| |].
    + exists (taken ++ [pool]). split; [by rewrite Hq, <- app_assoc|]. apply Forall2_app; [done|].
      constructor; [apply rtc_refl|constructor].
    + intros i Hi. destruct (He i Hi) as [r Hr]. exists r. by apply lookup_app_l_Some.
    + unfold tasks_len in *. cbn in *. rewrite length_app. cbn. lia.
  - destruct (step_task _ _ _ _ Hs) as (i & p & p' & Hi & Hps & Hc). cbn in Hi, Hc.
    assert (Hni : i ∉ joined).
    { intros Hin. destruct (He i Hin) as [r Hr]. rewrite Hr in Hi. injection Hi as <-. done. }
    split; cbn; [|done| |].
    + exists taken. split; [done|]. rewrite Hc. apply Forall2_same_length_lookup_2.
      { rewrite length_insert. by eapply Forall2_length. }
      intros j pool q Hpool Hq'. apply list_lookup_insert_Some in Hq' as [(-> & <- & _)|[_ Hq']].
      * eapply rtc_r; [|exact Hps]. by eapply (Forall2_lookup_lr _ _ _ _ _ _ Ht).
      * by eapply (Forall2_lookup_lr _ _ _ _ _ _ Ht).
    + intros j Hj. rewrite Hc, list_lookup_insert_ne by (by intros <-). by apply He.
    + unfold tasks_len in *. cbn in *. by rewrite Hc, length_insert.
  - split; cbn; [by exists taken| | |].
    + apply NoDup_app. split_and!; [done| |apply NoDup_singleton]. set_solver.
    + intros j [Hj|Hj]%elem_of_app; [by apply He|]. apply list_elem_of_singleton in Hj as ->. by exists r.
    + unfold tasks_len in *. cbn in *. rewrite length_app. cbn. lia.
Qed.

Lemma joined_lt queue s i : tasks_inv queue s → i ∈ ts_joined s → i < length (c_tasks (ts_conf s)).
Proof. intros Hs Hi. destruct (ti_ended _ _ Hs i Hi) as [r Hr]. by eapply lookup_lt_Some. Qed.

(** A task that was not joined *)
Lemma joined_perm queue s :
  tasks_inv queue s → (∀ i, i < length (c_tasks (ts_conf s)) → i ∈ ts_joined s) →
  Permutation (ts_joined s) (seq 0 (length (c_tasks (ts_conf s)))).
Proof.
  intros Hs Hall. apply NoDup_Permutation; [apply (ti_joined _ _ Hs)|apply NoDup_seq|].
  intros i. rewrite elem_of_seq. split; [|intros [_ Hi]; by apply Hall].
  intros Hi. pose proof (joined_lt _ _ _ Hs Hi). lia.
Qed.

Lemma unjoined queue s :
  tasks_inv queue s → length (ts_joined s) < length (c_tasks (ts_conf s)) →
  ∃ i p, c_tasks (ts_conf s) !! i = Some p ∧ i ∉ ts_joined s.
Proof.
  intros Hs Hlt.
  destruct (decide (Forall (λ i, i ∈ ts_joined s) (seq 0 (length (c_tasks (ts_conf s)))))) as [Hall|Hex].
  - exfalso. rewrite list.Forall_forall in Hall. assert (Hp := joined_perm _ _ Hs).
    apply Permutation_length in Hp; [rewrite length_seq in Hp; lia|].
    intros i Hi. apply Hall, elem_of_seq. lia.
  - apply not_Forall_Exists in Hex; [|apply _]. apply list.Exists_exists in Hex as (i & Hi & Hn).
    apply elem_of_seq in Hi as [_ Hi]. destruct (lookup_lt_is_Some_2 _ _ Hi) as [p Hp]. by exists i, p.
Qed.

Lemma joined_le queue s : tasks_inv queue s → length (ts_joined s) ≤ length (c_tasks (ts_conf s)).
Proof.
  intros Hs. set (n := length (c_tasks (ts_conf s))).
  enough (length (ts_joined s) ≤ length (seq 0 n)) as Hl by (by rewrite length_seq in Hl).
  apply submseteq_length, NoDup_submseteq.
  - apply (ti_joined _ _ Hs).
  - intros i Hi. apply elem_of_seq. pose proof (joined_lt _ _ _ Hs Hi). lia.
Qed.

(** A task that is not over can move. *)
Lemma unjoined_moves queue s i p t0 :
  T t0 → (∀ X c, ∃ x, answers X c x) → tasks_inv queue s →
  c_tasks (ts_conf s) !! i = Some p → i ∉ ts_joined s →
  ts_pending s = [] ∨ task_limit ≤ tasks_len s → ∃ s', pools_step s s'.
Proof.
  intros Ht Ha Hs Hi Hn Hw. destruct (is_ret p) eqn:Ep.
  - apply is_ret_finished in Ep as [r ->]. destruct s as [pending c joined]. eexists. by eapply ts_join.
  - assert (Hnf : ¬ finished p) by (rewrite <- is_ret_finished; congruence).
    destruct (ti_tasks _ _ Hs) as (taken & Hq & Hf).
    destruct (Forall2_lookup_r _ _ _ _ _ Hf Hi) as (pool & _ & Hrem).
    assert (Hlf := remains_lock_free _ _ Hrem (lock_free_refresh_platform_pool pool)).
    destruct s as [pending [st L ts tr] joined]. cbn in *.
    destruct (task_moves T answers t0 st L ts tr i p Ht Ha Hi Hnf) as [[c' Hc]|(key & k & ->)].
    + eexists. by eapply (ts_work _ _ _ _ _ _ _ st).
    + by destruct Hlf.
Qed.

Lemma pools_acc queue s : tasks_inv queue s → Acc (λ s' s, pools_step s s') s.
Proof.
  remember (length (ts_pending s)) as n eqn:En. revert s En.
  induction (lt_wf n) as [n _ IHn]. intros s En.
  remember (c_tasks (ts_conf s)) as ts eqn:Ets. revert s En Ets.
  induction (tasks_sub_wf ts) as [ts _ IHt]. intros s En Ets.
  remember (length ts - length (ts_joined s)) as m eqn:Em. revert s En Ets Em.
  induction (lt_wf m) as [m _ IHm]. intros s En Ets Em Hs. constructor. intros s' Hst.
  pose proof (tasks_inv_step _ _ _ Hs Hst) as Hs'.
  destruct Hst as [pool pending c joined Hlt|pending c joined st c' Hst|pending c joined i r Hw Hi Hj]; cbn in *.
  - eapply IHn; [|reflexivity|done]. subst. cbn. lia.
  - eapply IHt; [|done|reflexivity|done]. cbn. rewrite Ets. apply (step_tasks _ _ _ _ Hst).
  - eapply IHm; [|done|done|reflexivity|done]. cbn. pose proof (joined_le _ _ Hs') as Hle. cbn in Hle.
    rewrite length_app in *. cbn in *. subst. lia.
Qed.

(** C9: The scheduled run re-fetches every platform of its queue: never more
    than the limit of tasks are in its set, no execution of it goes on for
    ever, and one that cannot go on has joined one ended task per platform,
    in whatever order and whatever their results: a platform that fails stops
    no other. *)
Theorem scheduled_pools_complete queue st s t0 :
  T t0 → (∀ X c, ∃ x, answers X c x) → rtc pools_step (pools_start queue st) s →
  tasks_len s ≤ task_limit ∧ Acc (λ s' s, pools_step s s') s ∧
  ((∀ s', ¬ pools_step s s') →
     ts_pending s = [] ∧ Permutation (ts_joined s) (seq 0 (length queue)) ∧
     ∀ i pool, queue !! i = Some pool →
       ∃ r, c_tasks (ts_conf s) !! i = Some (Ret r) ∧ remains (refresh_platform_pool cfg pool) (Ret r)).
Proof.
  intros Ht Ha Hr. assert (Hs : tasks_inv queue s).
  { assert (Hinv := tasks_inv_start queue st). revert Hinv.
    induction Hr as [s|s s1 s2 Hst _ IH]; [done|]. intros Hinv. apply IH. by eapply tasks_inv_step. }
  split; [apply (ti_bound _ _ Hs)|]. split; [by eapply pools_acc|]. intros Hstuck.
  assert (Hpend : ts_pending s = []).
  { destruct (ts_pending s) as [|pool pending] eqn:Ep; [done|]. exfalso.
    destruct (decide (tasks_len s < task_limit)) as [Hlt|Hge].
    - destruct s as [pd c joined]. cbn in Ep. subst. eapply Hstuck. by apply ts_spawn.
    - destruct (unjoined queue s Hs) as (i & p & Hi & Hn).
      { unfold tasks_len, RefreshRun.task_limit in Hge. lia. }
      destruct (unjoined_moves queue s i p t0 Ht Ha Hs Hi Hn) as [s' Hs']; [right; lia|]. by eapply Hstuck. }
  assert (Hall : ∀ i, i < length (c_tasks (ts_conf s)) → i ∈ ts_joined s).
  { intros i [p Hi]%lookup_lt_is_Some_2. destruct (decide (i ∈ ts_joined s)) as [|Hn]; [done|]. exfalso.
    destruct (unjoined_moves queue s i p t0 Ht Ha Hs Hi Hn) as [s' Hs']; [by left|]. by eapply Hstuck. }
  destruct (ti_tasks _ _ Hs) as (taken & Hq & Hf). rewrite Hpend, app_nil_r in Hq. subst taken.
  split; [done|]. split.
  - rewrite (Forall2_length _ _ _ Hf). by eapply joined_perm.
  - intros i pool Hi. destruct (Forall2_lookup_l _ _ _ _ _ Hf Hi) as (p & Hp & Hrem).
    destruct (ti_ended _ _ Hs i) as [r Hret]; [apply Hall; by eapply lookup_lt_Some|].
    exists r. split; [done|]. rewrite Hp in Hret. by injection Hret as ->.
Qed.
End scheduled.

(** ** Witness *)

Import MapDb Codec Concrete CollateralSample CacheSample PoolSample.

Definition sample_start : TaskSet (D := gmap string string) (V := jvalue) := pools_start [sample_pool] empty_shared.

Lemma scheduled_pools_complete_witness :
  tasks_len sample_start ≤ 4 ∧
  Acc (λ s' s, RefreshRun.pools_step (config Lazy true) 4 (λ t, t = at_second 0) (λ _ _ _, True) s s') sample_start.
Proof.
  destruct (scheduled_pools_complete (config Lazy true) 4 (λ t, t = at_second 0) (λ _ _ _, True) [sample_pool]
    empty_shared sample_start (at_second 0) eq_refl) as (Hb & Hacc & _);
    [intros X c; destruct c; by exists (Err INTERNAL_ERROR)|apply rtc_refl|].
  split; [exact Hb|exact Hacc].
Defined.
