(* ===== verification/Routes.v ===== *)
(** * Routes: the HTTP service (src/src/routes/handlers.rs, routes/mod.rs,
    auth.rs, health.rs, and create_app of lib.rs)

    Every handler as a program of the cache, the routing tables, the token
    checks and the middleware around them; [app] is the whole service, from a
    received request to its response.  axum (routing, extraction, the default
    content types) is modelled by what the tables and the extractors of the
    source say; the metrics layer is left out. *)

From Stdlib Require Import ZArith Lia.
From stdpp Require Import base list strings option gmap pretty.
From S2P Require Import Prelude Text Errors Validate Env PckCert Selection Ocsp Keys Database Fifo Records Platforms Registry Collateral Urls Prog Cache Pcs Pool Refresh CacheSpec.

Local Open Scope Z_scope.
Local Open Scope rust_scope.
#[local] Set Default Proof Using "Type*".

(** ** Requests and responses *)

Inductive Verb := Get | Head | Post | Put | Options | OtherVerb.
#[export] Instance Verb_eq_dec : EqDecision Verb.
Proof. solve_decision. Defined.

(** A received request.  [in_header] is [headers.get(name).to_str().ok()];
    [in_json] and [in_bytes] are what reading the body as JSON and as bytes
    ends in. *)
Record HttpIn (V : Type) := {
  in_verb : Verb; in_path : string; in_query : option string;
  in_header : string → option string;
  in_json : body_read V; in_bytes : body_read string
}.
Arguments in_verb {V} _. Arguments in_path {V} _. Arguments in_query {V} _.
Arguments in_header {V} _ _. Arguments in_json {V} _. Arguments in_bytes {V} _.

(** Header names in lower case, as [HeaderMap] keeps them *)
Abbreviation Headers := (gmap string string).
Record Response := { rs_status : Z; rs_headers : Headers; rs_body : list Z }.

(** [headers.rs] *)
Definition REQUEST_ID : string := "Request-ID".
Definition WARNING : string := "Warning".
Definition USER_TOKEN : string := "user-token".
Definition ADMIN_TOKEN : string := "admin-token".
Definition PLATFORM_COUNT : string := "platform-count".
Definition SGX_TCBM : string := "SGX-TCBm".
Definition SGX_FMSPC : string := "SGX-FMSPC".
Definition SGX_PCK_CERTIFICATE_CA_TYPE : string := "SGX-PCK-Certificate-CA-Type".
Definition SGX_PCK_CRL_ISSUER_CHAIN : string := "SGX-PCK-CRL-Issuer-Chain".
Definition CONTENT_TYPE_PEM : string := "application/x-pem-file".
Definition CONTENT_TYPE_JSON : string := "application/json".
Definition CONTENT_TYPE_JSON_UTF8 : string := "application/json; charset=utf-8".
Definition CONTENT_TYPE_CRL : string := "application/pkix-crl".
Definition ERROR_CONTENT_TYPE : string := "text/html; charset=utf-8".

(** [HeaderMap::insert]: a later value replaces an earlier one. *)
Definition put_header (name value : string) (h : Headers) : Headers := <[to_lower name := value]> h.

Section responses.
Context `{HttpSyntax}.

(** [insert]: a value that is not a header value is dropped. *)
Definition insert (name value : string) (h : Headers) : Headers :=
  if header_value_ok value then put_header name value h else h.

(** axum's [(status, headers, String)] and [(status, headers, Vec<u8>)]: the
    given headers over the body's default content type *)
Definition text (status : Z) (h : Headers) (body : string) : Response :=
  {| rs_status := status; rs_headers := h ∪ {["content-type" := "text/plain; charset=utf-8"]};
     rs_body := bytes body |}.
Definition bytes_response (status : Z) (h : Headers) (body : list Z) : Response :=
  {| rs_status := status; rs_headers := h ∪ {["content-type" := "application/octet-stream"]};
     rs_body := body |}.
Definition bare (status : Z) : Response := {| rs_status := status; rs_headers := ∅; rs_body := [] |}.

(** [error::text_html], [impl IntoResponse for PccsError], [success_response] *)
Definition text_html (status : Z) (body : string) : Response :=
  let r := text status ∅ body in
  {| rs_status := rs_status r; rs_headers := put_header "content-type" ERROR_CONTENT_TYPE (rs_headers r);
     rs_body := rs_body r |}.
Definition error_response (e : PccsError) : Response := text_html (status e) (message e).
Definition success_response : Response := text_html 200 SUCCESS.2.

Definition json_value {V} `{Json V} (status : Z) (h : Headers) (value : V) (raw_body : string) : Response :=
  bytes_response status (put_header "content-type" CONTENT_TYPE_JSON h)
    (bytes (if is_empty raw_body then json_print value else raw_body)).

(** [amd_response]; [StatusCode::from_u16] takes 100 to 999. *)
Definition amd_response (rec : AmdKdsResponse) : Response :=
  let status := if (100 <=? ar_status rec) && (ar_status rec <? 1000) then ar_status rec else 502 in
  let opt name (v : option string) h := match v with Some v => insert name v h | None => h end in
  bytes_response status
    (opt "retry-after"%string (ar_retry_after rec)
      (opt "content-disposition"%string (ar_content_disposition rec)
        (opt "content-type"%string (ar_content_type rec) ∅)))
    (ar_body rec).
End responses.

(** ** Tokens (auth.rs) *)

Section auth.
Context `{Sha2}.

Definition parse_expected_hash (hex_hash : string) : option (list Z) :=
  if negb (String.length hex_hash =? 128)%nat || negb (str_all is_hexdigit hex_hash) then None
  else hex_decode hex_hash.

Definition verify_token (raw_token : option string) (expected_hex : string) : res unit :=
  expected ← ok_or (parse_expected_hash expected_hex) UNAUTHORIZED;
  token ← ok_or (t ← raw_token; if is_empty t then None else Some t) UNAUTHORIZED;
  let digest := sha512 (bytes token) in
  if negb (length digest =? length expected)%nat || negb (bool_decide (digest = expected))
  then Err UNAUTHORIZED else Ok ().
End auth.

(** ** Routing (routes/mod.rs, lib.rs) *)

Inductive Endpoint :=
| get_platforms_e | post_platforms_e | put_platform_collateral_e | refresh_e | put_appraisal_policy_e
| get_pckcert_e | get_pckcrl_e | get_tcb_e (prod_type : Z) | get_identity_e (enclave_id : Z)
| get_rootcacrl_e | get_crl_e | get_appraisal_policy_e
| get_amd_kds_e | get_nvidia_rim_e | post_nvidia_ocsp_e | post_nvidia_nras_e
| liveness_e | readiness_e | startup_e.

(** Which token guards a method of a path. *)
Inductive Guard := Open | User | Admin.

Definition method_table : Type := list (Verb * (Guard * Endpoint)).

(** [sgx_router] *)
Definition sgx_router : list (string * method_table) :=
  [("/platforms"%string, [(Get, (Admin, get_platforms_e)); (Post, (User, post_platforms_e))]);
   ("/platformcollateral"%string, [(Put, (Admin, put_platform_collateral_e))]);
   ("/refresh"%string, [(Get, (Admin, refresh_e)); (Post, (Admin, refresh_e))]);
   ("/appraisalpolicy"%string, [(Put, (Admin, put_appraisal_policy_e)); (Get, (Open, get_appraisal_policy_e))]);
   ("/pckcert"%string, [(Get, (Open, get_pckcert_e))]);
   ("/pckcrl"%string, [(Get, (Open, get_pckcrl_e))]);
   ("/tcb"%string, [(Get, (Open, get_tcb_e 0))]);
   ("/qe/identity"%string, [(Get, (Open, get_identity_e 1))]);
   ("/qve/identity"%string, [(Get, (Open, get_identity_e 2))]);
   ("/rootcacrl"%string, [(Get, (Open, get_rootcacrl_e))]);
   ("/crl"%string, [(Get, (Open, get_crl_e))])].

Definition tdx_router : list (string * method_table) :=
  [("/tcb"%string, [(Get, (Open, get_tcb_e 1))]);
   ("/qe/identity"%string, [(Get, (Open, get_identity_e 3))])].

Definition healthz_router : list (string * method_table) :=
  [("/live"%string, [(Get, (Open, liveness_e))]);
   ("/ready"%string, [(Get, (Open, readiness_e))]);
   ("/startup"%string, [(Get, (Open, startup_e))])].

Fixpoint lookup_route (l : list (string * method_table)) (leaf : string) : option method_table :=
  match l with
  | [] => None
  | (p, t) :: l => if String.eqb p leaf then Some t else lookup_route l leaf
  end.

(** [Router::nest]; the matched path of these routes is the path itself. *)
Definition nest (prefix : string) (l : list (string * method_table)) (path : string) :
    option (string * method_table) :=
  leaf ← strip_prefix prefix path; t ← lookup_route l leaf; Some (path, t).

(** A route [prefix{*rest}]: the rest is not empty. *)
Definition wildcard (prefix : string) (t : method_table) (path : string) : option (string * method_table) :=
  rest ← strip_prefix prefix path;
  if is_empty rest then None else Some ((prefix ++ "{*rest}")%string, t).

Definition exact (p : string) (t : method_table) (path : string) : option (string * method_table) :=
  if String.eqb p path then Some (path, t) else None.

Definition first_of {A} (l : list (option A)) : option A :=
  foldr (λ o r, match o with Some a => Some a | None => r end) None l.

(** The routers of [create_app]: matched path and methods *)
Definition find_route (pcs_ver : Z) (path : string) : option (string * method_table) :=
  first_of
    [nest "/sgx/certification/v3" sgx_router path;
     wildcard "/vcek/" [(Get, (Open, get_amd_kds_e))] path;
     wildcard "/vlek/" [(Get, (Open, get_amd_kds_e))] path;
     wildcard "/v1/rim/" [(Get, (Open, get_nvidia_rim_e))] path;
     exact "/ocsp" [(Post, (Open, post_nvidia_ocsp_e))] path;
     nest "/nvidia/nras" [("/attest/gpu"%string, [(Post, (Open, post_nvidia_nras_e))])] path;
     if pcs_ver =? 4 then nest "/sgx/certification/v4" sgx_router path else None;
     if pcs_ver =? 4 then nest "/tdx/certification/v4" tdx_router path else None;
     nest "/healthz" healthz_router path].

(** A GET route answers HEAD too. *)
Definition find_method (v : Verb) (t : method_table) : option (Guard * Endpoint) :=
  let v := if decide (v = Head) then Get else v in
  snd <$> (list_find (λ vm, vm.1 = v) t ≫= λ x, Some x.2).

(** ** Handlers (routes/handlers.rs, health.rs) *)

(** What the service keeps beside the cache. *)
Record Settings := {
  user_token_hash : string;
  admin_token_hash : string;
  collateral_cache_max_age_secs : option Z
}.

(** Third-party formatting and probing: RFC 3339 time stamps, the JSON of a
    record, whether RocksDB answers a property query. *)
Class ServiceEnv (D V : Type) := {
  now_iso8601 : Time → string;
  reg_json : RegisteredPlatform → V;
  platform_json : PlatformRecord → V;
  json_array : list V → V;
  is_healthy : D → bool;
  startup_done : bool
}.

Section handlers.
Context {D V : Type} `{Database D} `{Json V} `{Base64} `{Sha2} `{Chrono} `{HttpSyntax} `{ServiceEnv D V}.
Context `{Serde PckCertRecord} `{Serde PlatformPool} `{Serde (TcbRecord V)} `{Serde (IdentityRecord V)}
  `{Serde PckCrlRecord} `{Serde (list Z)} `{Serde CrlRecord} `{Serde AmdKdsRecord}
  `{Serde NvidiaOcspRecord} `{Serde RegisteredPlatform} `{Serde AppraisalList}.
Context (cfg : Config) (settings : Settings).

#[local] Abbreviation P := (@Cache.P D V).
#[local] Abbreviation CM := (@Cache.CM D V).
#[local] Abbreviation HttpIn := (HttpIn V).

Definition try_ {A} (r : res A) : CM A := Ret r.

(** [PccsQuery] and [first] *)
Definition pccs_query (req : HttpIn) : CM (gmap string string) := try_ (query_params (in_query req)).
Definition first (q : gmap string string) (key : string) : option string := q !! key.

Definition version (req : HttpIn) : CM Z := try_ (api_version_from_url (in_path req)).

Definition original_path_and_query (req : HttpIn) : string :=
  match in_query req with
  | Some query => (in_path req ++ "?" ++ query)%string
  | None => in_path req
  end.

Definition h_get_amd_kds (req : HttpIn) : CM Response :=
  rec ← Cache.get_amd_kds cfg (original_path_and_query req); answer (amd_response rec).

Definition h_get_nvidia_rim (req : HttpIn) : CM Response :=
  rec ← Cache.get_nvidia_rim cfg (original_path_and_query req); answer (amd_response rec).

Definition before_semicolon (s : string) : string :=
  match split_once ";" s with Some (l, _) => l | None => s end.

Definition h_post_nvidia_ocsp (req : HttpIn) : CM Response :=
  body ← try_ (pccs_bytes (in_bytes req));
  let media := trim (before_semicolon (default "" (in_header req "content-type"))) in
  if negb (eq_ic media "application/ocsp-request") then throw INVALID_REQ
  else if is_empty body then throw INVALID_REQ
  else rec ← Cache.get_nvidia_ocsp cfg (bytes body); answer (amd_response rec).

Definition h_post_nvidia_nras (req : HttpIn) : CM Response :=
  body ← try_ (pccs_json (in_json req));
  rec ← Cache.get_nvidia_nras cfg body; answer (amd_response rec).

Definition h_get_pckcert (req : HttpIn) : CM Response :=
  q ← pccs_query req;
  version ← version req;
  qeid ← try_ (Validate.qeid (first q "qeid"));
  cpusvn ← try_ (Validate.cpusvn (first q "cpusvn"));
  pcesvn ← try_ (Validate.pcesvn (first q "pcesvn"));
  pceid ← try_ (Validate.pceid (first q "pceid"));
  enc ← try_ (Validate.encrypted_ppid (first q "encrypted_ppid"));
  rec ← Pool.get_pckcert cfg qeid cpusvn pcesvn pceid enc version;
  answer (text 200
    (put_header "content-type" CONTENT_TYPE_PEM
      (insert SGX_PCK_CERTIFICATE_ISSUER_CHAIN (pc_issuer_chain rec)
        (insert SGX_PCK_CERTIFICATE_CA_TYPE (pc_ca rec)
          (insert SGX_FMSPC (pc_fmspc rec) (insert SGX_TCBM (pc_tcbm rec) ∅)))))
    (pc_cert rec)).

Definition h_get_pckcrl (req : HttpIn) : CM Response :=
  q ← pccs_query req;
  version ← version req;
  ca ← try_ (pck_ca (first q "ca"));
  rec ← Cache.get_pckcrl cfg ca version;
  let h := insert SGX_PCK_CRL_ISSUER_CHAIN (cr_issuer_chain rec) ∅ in
  let der := match first q "encoding" with Some e => eq_ic e "DER" | None => false end in
  if der then answer (bytes_response 200 (put_header "content-type" CONTENT_TYPE_CRL h) (cr_pckcrl rec))
  else answer (text 200 (put_header "content-type" CONTENT_TYPE_PEM h) (hex_encode (cr_pckcrl rec))).

Definition h_get_tcb (prod_type : Z) (req : HttpIn) : CM Response :=
  q ← pccs_query req;
  version ← version req;
  fmspc ← try_ (Validate.fmspc (first q "fmspc"));
  update ← try_ (update_type (first q "update") false);
  rec ← Cache.get_tcb cfg prod_type fmspc version update;
  answer (json_value 200 (insert (tcb_issuer_chain_name version) (tr_issuer_chain rec) ∅)
            (tr_tcbinfo rec) (tr_raw_body rec)).

Definition h_get_identity (enclave_id : Z) (req : HttpIn) : CM Response :=
  q ← pccs_query req;
  version ← version req;
  update ← try_ (update_type (first q "update") false);
  rec ← Cache.get_identity cfg enclave_id version update;
  answer (json_value 200 (insert SGX_ENCLAVE_IDENTITY_ISSUER_CHAIN (ir_issuer_chain rec) ∅)
            (ir_identity rec) (ir_raw_body rec)).

Definition h_get_rootcacrl (req : HttpIn) : CM Response :=
  version ← version req;
  crl ← Cache.get_rootcacrl cfg version;
  answer (text 200 (put_header "content-type" CONTENT_TYPE_CRL ∅) (hex_encode crl)).

Definition h_get_crl (req : HttpIn) : CM Response :=
  q ← pccs_query req;
  version ← version req;
  match first q "uri" with
  | None => throw INVALID_REQ
  | Some crl_uri =>
      if negb (is_valid_crl_uri crl_uri) then throw INVALID_REQ
      else crl ← Cache.get_crl cfg crl_uri version;
           answer (bytes_response 200 (put_header "content-type" CONTENT_TYPE_CRL ∅) crl)
  end.

Definition h_post_platforms (req : HttpIn) : CM Response :=
  q ← pccs_query req;
  body ← try_ (pccs_json (in_json req));
  update ← try_ (update_type (first q "update") true);
  reg ← try_ (platform_reg body);
  _ ← Refresh.register_platform cfg
        {| rp_qe_id := reg_qe_id reg; rp_pce_id := reg_pce_id reg; rp_cpu_svn := reg_cpu_svn reg;
           rp_pce_svn := reg_pce_svn reg; rp_enc_ppid := reg_enc_ppid reg;
           rp_platform_manifest := reg_platform_manifest reg; rp_state := 0 |} update;
  answer success_response.

Definition h_get_platforms (req : HttpIn) : CM Response :=
  q ← pccs_query req;
  src ← try_ (platforms_source (first q "source"));
  rows ← (match src with
          | Reg => l ← store_do (λ _, take_registered 0); answer (map reg_json l)
          | RegNa => l ← store_do (λ _, take_registered 1); answer (map reg_json l)
          | Fmspc fmspcs => l ← pbind (peek (λ st, cached_platforms_by_fmspc st fmspcs)) answer;
                            answer (map platform_json l)
          end : CM (list V));
  answer (bytes_response 200
    (put_header "content-type" CONTENT_TYPE_JSON_UTF8
      (insert PLATFORM_COUNT (pretty (length rows)) ∅))
    (bytes (json_print (json_array rows)))).

Definition h_put_platform_collateral (req : HttpIn) : CM Response :=
  body ← try_ (pccs_json (in_json req));
  version ← version req;
  _ ← store_do (λ _, put_platform_collateral body version);
  answer success_response.

Definition h_refresh (req : HttpIn) : CM Response :=
  q ← pccs_query req;
  _ ← refresh cfg (first q "type") (first q "fmspc");
  answer success_response.

Definition h_put_appraisal_policy (req : HttpIn) : CM Response :=
  body ← try_ (pccs_json (in_json req));
  id ← store_do (λ _, put_appraisal_policy body);
  answer (text_html 200 id).

Definition h_get_appraisal_policy (req : HttpIn) : CM Response :=
  q ← pccs_query req;
  fmspc ← try_ (Validate.fmspc (first q "fmspc"));
  policies ← pbind (peek (λ st, get_default_policies st fmspc)) try_;
  answer (text_html 200 policies).

(** [health.rs] *)
Definition json_response (status : Z) (value : V) : Response :=
  bytes_response status (put_header "content-type" CONTENT_TYPE_JSON ∅) (bytes (json_print value)).

Definition clock : P Time := Act (λ t s, (s, t)) Ret.

Definition liveness : CM Response :=
  pbind clock (λ t, answer (json_response 200 (json_object
    [("status"%string, json_string "UP"); ("timestamp"%string, json_string (now_iso8601 t))]))).

Definition readiness : CM Response :=
  pbind clock (λ t, pbind (peek (λ st, is_healthy (db st))) (λ db_ok, pbind clock (λ t',
    if db_ok : bool then
      answer (json_response 200 (json_object
        [("status"%string, json_string "UP"); ("db"%string, json_string "CONNECTED");
         ("latency"%string, json_string (to_dec (elapsed (t_mono t') (t_mono t) / 1_000_000) ++ "ms"));
         ("timestamp"%string, json_string (now_iso8601 t))]))
    else
      answer (json_response 503 (json_object
        [("status"%string, json_string "DOWN"); ("db"%string, json_string "DISCONNECTED");
         ("timestamp"%string, json_string (now_iso8601 t))]))))).

Definition startup : CM Response :=
  pbind clock (λ t,
    if startup_done then
      answer (json_response 200 (json_object
        [("status"%string, json_string "STARTED"); ("timestamp"%string, json_string (now_iso8601 t))]))
    else
      answer (json_response 503 (json_object
        [("status"%string, json_string "STARTING"); ("timestamp"%string, json_string (now_iso8601 t))]))).

Definition handle (e : Endpoint) (req : HttpIn) : CM Response :=
  match e with
  | get_platforms_e => h_get_platforms req
  | post_platforms_e => h_post_platforms req
  | put_platform_collateral_e => h_put_platform_collateral req
  | refresh_e => h_refresh req
  | put_appraisal_policy_e => h_put_appraisal_policy req
  | get_pckcert_e => h_get_pckcert req
  | get_pckcrl_e => h_get_pckcrl req
  | get_tcb_e prod_type => h_get_tcb prod_type req
  | get_identity_e enclave_id => h_get_identity enclave_id req
  | get_rootcacrl_e => h_get_rootcacrl req
  | get_crl_e => h_get_crl req
  | get_appraisal_policy_e => h_get_appraisal_policy req
  | get_amd_kds_e => h_get_amd_kds req
  | get_nvidia_rim_e => h_get_nvidia_rim req
  | post_nvidia_ocsp_e => h_post_nvidia_ocsp req
  | post_nvidia_nras_e => h_post_nvidia_nras req
  | liveness_e => liveness
  | readiness_e => readiness
  | startup_e => startup
  end.

(** ** Middleware *)

(** [require_user] and [require_admin] *)
Definition authorize (g : Guard) (req : HttpIn) : res unit :=
  match g with
  | Open => Ok ()
  | User => verify_token (in_header req USER_TOKEN) (user_token_hash settings)
  | Admin => verify_token (in_header req ADMIN_TOKEN) (admin_token_hash settings)
  end.

Definition guarded (g : Guard) (req : HttpIn) (h : CM Response) : CM Response :=
  _ ← try_ (authorize g req); h.

Definition add_header (name value : string) (r : Response) : Response :=
  {| rs_status := rs_status r; rs_headers := put_header name value (rs_headers r); rs_body := rs_body r |}.

(** hyper sends no body on the answer to a HEAD request. *)
Definition head_body (v : Verb) (r : Response) : Response :=
  if decide (v = Head) then {| rs_status := rs_status r; rs_headers := rs_headers r; rs_body := [] |} else r.

(** The routers: the handler of the matched route behind its guard, 405 for
    another method (without its [Allow] header), 404 otherwise *)
Definition routed (req : HttpIn) : P Response :=
  match find_route (pcs_version cfg) (in_path req) with
  | None => Ret (bare 404)
  | Some (_, t) =>
      match find_method (in_verb req) t with
      | None => Ret (bare 405)
      | Some (g, e) =>
          pmap (λ r, match r with Ok a => a | Err e => error_response e end)
            (guarded g req (handle e req))
      end
  end.

Definition V3_EOL_WARNING : string :=
  ("299 - " ++ String "034" "PCS API version 3 is no longer available. Cached collateral downloaded from API version 3 is deprecated, will not be refreshed, and may expire. Please migrate to API version 4." ++
   String "034" EmptyString)%string.

(** [auth::v3_eol_warning], on everything nested under v3: axum matches a
    nested router with a fallback on the prefix and on all below it. *)
Definition v3_path (path : string) : bool :=
  String.eqb path "/sgx/certification/v3" || starts_with "/sgx/certification/v3/" path.

Definition v3_eol_warning (req : HttpIn) (next : P Response) : P Response :=
  if v3_path (in_path req) then
    pmap (λ r, if header_value_ok V3_EOL_WARNING then add_header WARNING V3_EOL_WARNING r else r) next
  else next.

Definition CACHEABLE_COLLATERAL : list string :=
  ["/sgx/certification/v3/pckcrl"; "/sgx/certification/v3/tcb"; "/sgx/certification/v3/qe/identity";
   "/sgx/certification/v3/qve/identity"; "/sgx/certification/v3/rootcacrl"; "/sgx/certification/v4/pckcrl";
   "/sgx/certification/v4/tcb"; "/sgx/certification/v4/qe/identity"; "/sgx/certification/v4/qve/identity";
   "/sgx/certification/v4/rootcacrl"; "/tdx/certification/v4/tcb"; "/tdx/certification/v4/qe/identity"]%string.

Definition cacheable_request (req : HttpIn) : bool :=
  bool_decide (in_verb req = Get ∨ in_verb req = Head) &&
  match find_route (pcs_version cfg) (in_path req) with
  | Some (matched, _) => bool_decide (matched ∈ CACHEABLE_COLLATERAL)
  | None => false
  end.

Definition collateral_cache_control (max_age : Z) (req : HttpIn) (next : P Response) : P Response :=
  pmap (λ r,
    if cacheable_request req then
      add_header "cache-control"
        (if rs_status r =? 200 then ("public, max-age=" ++ to_dec max_age)%string else "no-store"%string) r
    else r) next.

Definition route_expects_body (v : Verb) (path : string) : bool :=
  match v with
  | Post => existsb (String.eqb path)
              ["/sgx/certification/v3/platforms"; "/sgx/certification/v4/platforms"; "/ocsp";
               "/nvidia/nras/attest/gpu"]%string
  | Put => existsb (String.eqb path)
             ["/sgx/certification/v3/platformcollateral"; "/sgx/certification/v4/platformcollateral";
              "/sgx/certification/v3/appraisalpolicy"; "/sgx/certification/v4/appraisalpolicy"]%string
  | _ => false
  end.

Definition request_carries_body (req : HttpIn) : bool :=
  match in_header req "content-length" ≫= parse_uint u64_max with
  | Some len => 0 <? len
  | None => false
  end ||
  match in_header req "transfer-encoding" with
  | Some s => existsb (λ part, String.eqb (trim part) "chunked") (split "," (to_lower s))
  | None => false
  end.

Definition reject_unexpected_body (req : HttpIn) (next : P Response) : P Response :=
  if request_carries_body req && negb (route_expects_body (in_verb req) (in_path req)) then
    Ret (error_response CONTENT_TOO_LARGE)
  else next.

Definition reject_trailing_slash (req : HttpIn) (next : P Response) : P Response :=
  if (1 <? String.length (in_path req))%nat && ends_with "/" (in_path req) then Ret (bare 404) else next.

Definition is_nras_path (path : string) : bool :=
  String.eqb path "/nvidia/nras" || starts_with "/nvidia/nras/" path.

Definition INTEL_PREFIXES : list string :=
  ["/sgx/certification/v3"; "/sgx/certification/v4"; "/tdx/certification/v4"]%string.

Definition COLLATERAL_LEAVES : list string :=
  ["/pckcert"; "/pckcrl"; "/tcb"; "/qe/identity"; "/qve/identity"; "/rootcacrl"; "/crl"; "/appraisalpolicy"]%string.

Definition is_collateral_path (path : string) : bool :=
  if starts_with "/vcek/" path || starts_with "/vlek/" path || starts_with "/v1/rim/" path then true
  else if String.eqb path "/ocsp" || is_nras_path path then true
  else match first_of (map (λ p, strip_prefix p path) INTEL_PREFIXES) with
       | None => false
       | Some rest => bool_decide (rest ∈ COLLATERAL_LEAVES)
       end.

Definition CORS_EXPOSE_HEADERS : string :=
  "Retry-After, Request-ID, Warning, SGX-TCBm, SGX-FMSPC, SGX-PCK-Certificate-CA-Type, SGX-PCK-Certificate-Issuer-Chain, SGX-PCK-CRL-Issuer-Chain, TCB-Info-Issuer-Chain, SGX-TCB-Info-Issuer-Chain, SGX-Enclave-Identity-Issuer-Chain".

Definition insert_cors (h : Headers) : Headers :=
  insert "access-control-max-age" "86400"
    (insert "access-control-expose-headers" CORS_EXPOSE_HEADERS
      (insert "access-control-allow-headers" "Content-Type, user-token, admin-token"
        (insert "access-control-allow-methods" "GET, HEAD, POST, PUT, OPTIONS"
          (insert "access-control-allow-origin" "*" h)))).

Definition cors (req : HttpIn) (next : P Response) : P Response :=
  if negb (is_collateral_path (in_path req)) then next
  else
    let no_store h := if is_nras_path (in_path req) then insert "cache-control" "no-store" h else h in
    if decide (in_verb req = Options) then
      Ret {| rs_status := 204; rs_headers := no_store (insert_cors ∅); rs_body := [] |}
    else
      pmap (λ r, {| rs_status := rs_status r; rs_headers := no_store (insert_cors (rs_headers r));
                    rs_body := rs_body r |}) next.

(** [add_request_id], with the fresh identifier *)
Definition add_request_id (id : string) (next : P Response) : P Response :=
  pmap (λ r, if header_value_ok id then add_header REQUEST_ID id r else r) next.

(** [create_app]: the layers, outermost first *)
Definition app (id : string) (req : HttpIn) : P Response :=
  let inner := v3_eol_warning req (routed req) in
  let inner := match collateral_cache_max_age_secs settings with
               | Some max_age => collateral_cache_control max_age req inner
               | None => inner
               end in
  pmap (head_body (in_verb req))
    (add_request_id id (cors req (reject_trailing_slash req (reject_unexpected_body req inner)))).
End handlers.
