(* ===== verification/PcsSpec.v ===== *)
(** * PcsSpec: what the upstream client sends, and how often

    The retry policy of [send] on every execution; the destinations of the
    whole service and the scope of the subscription key; the query strings
    another PCCS reads back. *)

From Stdlib Require Import ZArith Lia.
From stdpp Require Import base list strings option gmap.
From S2P Require Import Prelude Text Errors Validate Env PckCert Selection Ocsp Keys Database Fifo Records Platforms Registry Collateral Urls Prog Cache Pcs Pool Refresh CacheSpec.

Local Open Scope Z_scope.
#[local] Set Default Proof Using "Type*".

(** ** The retry policy *)

(** The exchanges of a trace with their outcomes, and its sleeps. *)
Definition exchange_of (ev : event http_call) : option (HttpRequest * exchange_result) :=
  match ev with
  | @Called _ X c o =>
      match c in http_call X return option X → option (HttpRequest * exchange_result) with
      | exchange r => λ o, x ← o; Some (r, x)
      | sleep _ => λ _, None
      end o
  end.
Definition sleep_of (ev : event http_call) : option Z :=
  match ev with @Called _ X c _ => match c with exchange _ => None | sleep ms => Some ms end end.

Definition exchanges (tr : list (event http_call)) : list (HttpRequest * exchange_result) :=
  omap exchange_of tr.
Definition sleeps (tr : list (event http_call)) : list Z := omap sleep_of tr.

Definition total (l : list Z) : Z := foldr Z.add 0 l.

(** What an exchange gave the client *)
Definition outcome (x : exchange_result) : res HttpResponse :=
  match x with
  | TimedOut | TransportError => Err PCS_ACCESS_FAILURE
  | Answered r => read_response r
  end.

Definition throttled_answer (x : exchange_result) : bool :=
  match outcome x with Ok r => throttling (hr_status r) | Err _ => false end.
Definition failed_answer (x : exchange_result) : bool :=
  match outcome x with Ok _ => false | Err _ => true end.

Definition count_throttled (l : list (HttpRequest * exchange_result)) : Z :=
  Z.of_nat (length (filter (λ rx, throttled_answer rx.2 = true) l)).

(** After [attempts] exchanges, all to be retried, [backoffs] of which were
    followed by an unhinted wait. *)
Record retrying (request : HttpRequest) (attempts throttled backoffs : Z) (delay : option Z)
    (tr : list (event http_call)) : Prop := {
  re_requests : Forall (λ rx, rx.1 = request) (exchanges tr);
  re_attempts : attempts = Z.of_nat (length (exchanges tr));
  re_throttled : throttled = count_throttled (exchanges tr);
  re_few : throttled < MAX_THROTTLED_ATTEMPTS;
  re_again : Forall (λ rx, failed_answer rx.2 = true ∨ throttled_answer rx.2 = true) (exchanges tr);
  re_sleeps : Forall (λ ms, 0 <= ms <= MAX_RETRY_AFTER) (sleeps tr);
  re_delay : ∀ d, delay = Some d → 0 <= d <= MAX_RETRY_AFTER;
  re_total : total (sleeps tr) + default 0 delay <= 30_000 * throttled + 1_600 * backoffs
}.

(** What a finished [send] left behind. *)
Record sent (request : HttpRequest) (max : nat) (tr : list (event http_call))
    (r : res HttpResponse) : Prop := {
  (** the same request every time, at most [max] times *)
  se_requests : Forall (λ rx, rx.1 = request) (exchanges tr);
  se_attempts : (length (exchanges tr) <= max)%nat;
  (** at most three throttled answers *)
  se_throttled : count_throttled (exchanges tr) <= MAX_THROTTLED_ATTEMPTS;
  (** no sleep over thirty seconds, and at most this long in all *)
  se_sleeps : Forall (λ ms, 0 <= ms <= MAX_RETRY_AFTER) (sleeps tr);
  se_total : total (sleeps tr) <= 60_000 + 1_600 * Z.of_nat max;
  se_result : match r with
    | Ok h => ∃ before rq, exchanges tr = before ++ [(rq, Answered h)] ∧ read_response h = Ok h ∧
        Forall (λ rx, failed_answer rx.2 = true ∨ throttled_answer rx.2 = true) before
    | Err e => e = PCS_ACCESS_FAILURE ∧ length (exchanges tr) = max ∧
        Forall (λ rx, failed_answer rx.2 = true ∨ throttled_answer rx.2 = true) (exchanges tr)
    end
}.

Lemma total_app l x : total (l ++ [x]) = total l + x.
Proof. unfold total in *. induction l as [|y l IH]; cbn in *; lia. Qed.

Lemma exchanges_app tr ev : exchanges (tr ++ [ev]) = exchanges tr ++ omap exchange_of [ev].
Proof. apply omap_app. Qed.
Lemma sleeps_app tr ev : sleeps (tr ++ [ev]) = sleeps tr ++ omap sleep_of [ev].
Proof. apply omap_app. Qed.

Lemma count_throttled_snoc l rx :
  count_throttled (l ++ [rx]) = count_throttled l + (if throttled_answer rx.2 then 1 else 0).
Proof.
  unfold count_throttled. rewrite filter_app, length_app, filter_cons, filter_nil.
  destruct (throttled_answer rx.2); [rewrite decide_True by done|rewrite decide_False by done]; cbn; lia.
Qed.

Lemma backoff_bound attempt : 1 <= attempt → 0 <= Z.shiftl 50 (Z.min attempt 5) <= 1_600.
Proof.
  intros Ha. assert (attempt = 1 ∨ attempt = 2 ∨ attempt = 3 ∨ attempt = 4 ∨ 5 <= attempt) as Hc by lia.
  destruct Hc as [->|[->|[->|[->|Hc]]]]; try (vm_compute; split; discriminate).
  rewrite Z.min_r by lia. vm_compute. split; discriminate.
Qed.

Section policy.
Context {St : Type} `{HttpSyntax}.

(** Every execution: any clock, any state, any outcome of each exchange *)
Abbreviation always p tr Q := (ensures (St := St) (λ _, True) (λ _, True) (λ _ _ _, True) p tr Q).

(** A sleep before the next exchange *)
Lemma retrying_sleep request attempts throttled delay tr :
  1 <= attempts → retrying request attempts throttled (attempts - 1) delay tr →
  retrying request attempts throttled attempts None
    (tr ++ [Called (sleep (default (Z.shiftl 50 (Z.min attempts 5)) delay)) (Some ())]).
Proof.
  intros Ha [H1 H2 H3 H4 H5 H6 H7 H8]. pose proof (backoff_bound attempts Ha).
  assert (Hb : 0 <= default (Z.shiftl 50 (Z.min attempts 5)) delay <= MAX_RETRY_AFTER).
  { destruct delay as [d|]; cbn; [by apply H7|]. unfold MAX_RETRY_AFTER. lia. }
  split; rewrite ?exchanges_app, ?sleeps_app, ?app_nil_r; cbn; rewrite ?app_nil_r; try done.
  - apply Forall_app_2; [done|]. by constructor.
  - rewrite total_app. cbn. destruct delay as [d|]; cbn in *; lia.
Qed.

Lemma throttled_not_failed x : throttled_answer x = true → failed_answer x = false.
Proof. unfold throttled_answer, failed_answer. by destruct (outcome x). Qed.

(** An exchange that is to be retried *)
Lemma retrying_exchange request attempts throttled delay tr x :
  retrying request attempts throttled attempts None tr →
  failed_answer x = true ∨ throttled_answer x = true →
  (throttled_answer x = true → throttled + 1 < MAX_THROTTLED_ATTEMPTS) →
  (∀ d, delay = Some d → throttled_answer x = true ∧ 0 <= d <= MAX_RETRY_AFTER) →
  retrying request (attempts + 1) (throttled + (if throttled_answer x then 1 else 0)) (attempts + 1 - 1) delay
    (tr ++ [Called (exchange request) (Some x)]).
Proof.
  intros [H1 H2 H3 H4 H5 H6 H7 H8] Hx Ht Hd.
  split; rewrite ?exchanges_app, ?sleeps_app, ?app_nil_r; cbn; rewrite ?app_nil_r; try done.
  - apply Forall_app_2; [done|]. by constructor.
  - rewrite length_app. cbn. lia.
  - rewrite count_throttled_snoc. cbn. lia.
  - destruct (throttled_answer x); [by apply Ht|lia].
  - apply Forall_app_2; [done|]. by constructor.
  - intros d Ed. by apply Hd.
  - cbn in H8. destruct delay as [d|]; cbn; [|destruct (throttled_answer x); lia].
    destruct (Hd d eq_refl) as [-> ?]. unfold MAX_RETRY_AFTER in *. lia.
Qed.

(** The exchange that ends the loop *)
Lemma sent_answer request attempts throttled tr h max :
  retrying request attempts throttled attempts None tr → attempts + 1 <= Z.of_nat max →
  read_response h = Ok h → sent request max (tr ++ [Called (exchange request) (Some (Answered h))]) (Ok h).
Proof.
  intros [H1 H2 H3 H4 H5 H6 H7 H8] Hm Hr.
  split; rewrite ?exchanges_app, ?sleeps_app; cbn; rewrite ?app_nil_r; try done.
  - apply Forall_app_2; [done|]. by constructor.
  - rewrite length_app. cbn. lia.
  - rewrite count_throttled_snoc. unfold MAX_THROTTLED_ATTEMPTS in *. destruct (throttled_answer _); lia.
  - cbn in H8. unfold MAX_THROTTLED_ATTEMPTS in *. lia.
  - by do 2 eexists.
Qed.

Lemma read_response_same r r' : read_response r = Ok r' → r' = r.
Proof. unfold read_response. cbv zeta. by repeat case_match; intros [= <-]. Qed.

Lemma retry_after_bound r d : retry_after r = Some d → 0 <= d <= MAX_RETRY_AFTER.
Proof.
  unfold retry_after. destruct (header r _) as [v|]; [|done]. cbn [mbind option_bind].
  destruct (parse_uint u64_max (trim v)) as [n|] eqn:E; [|done]. cbn [mbind option_bind]. intros [= <-].
  assert (0 <= n); [|unfold MAX_RETRY_AFTER; lia].
  unfold parse_uint in E. destruct (is_empty _); [done|]. destruct (dec_acc 0 _) as [m|] eqn:Em; [|done].
  apply dec_acc_le in Em; [|lia]. cbn [mbind option_bind] in E. case_match; [|done]. by injection E as <-.
Qed.

Lemma outcome_answered x r : outcome x = Ok r → x = Answered r ∧ read_response r = Ok r.
Proof.
  destruct x as [| |r']; cbn; [done..|]. intros E. by rewrite (read_response_same r' r E) in E |- *.
Qed.

Lemma throttled_answer_ok x r : outcome x = Ok r → throttled_answer x = throttling (hr_status r).
Proof. intros E. unfold throttled_answer. by rewrite E. Qed.

(** What follows the sleep: one exchange and the rest of the loop *)
Definition attempt_once (url : string) (request : HttpRequest) (left : nat) (attempt throttled : Z) :
    @NetM St HttpResponse :=
  pbind (measured_attempt request) (λ r,
    match r with
    | Err e => send_loop url request left (attempt + 1) throttled None e
    | Ok r =>
        if throttling (hr_status r) then
          if (throttled + 1 <? MAX_THROTTLED_ATTEMPTS) && negb (Nat.eqb left 0) then
            send_loop url request left (attempt + 1) (throttled + 1) (retry_after r) PCS_ACCESS_FAILURE
          else ok r
        else ok r
    end).

Lemma send_loop_step url request left attempt throttled delay last :
  uri_parses url = true →
  send_loop url request (S left) attempt throttled delay last =
    if 0 <? attempt then
      Upstream (sleep (default (Z.shiftl 50 (Z.min attempt 5)) delay)) (λ _, attempt_once url request left attempt throttled)
    else attempt_once url request left attempt throttled.
Proof. intros Hu. cbn [send_loop]. by rewrite Hu. Qed.

Lemma send_loop_sent url request left attempt throttled delay tr max :
  uri_parses url = true → retrying request attempt throttled (Z.max 0 (attempt - 1)) delay tr →
  (attempt = 0 → delay = None) → 0 <= attempt → Z.of_nat left + attempt = Z.of_nat max →
  always (send_loop url request left attempt throttled delay PCS_ACCESS_FAILURE) tr (sent request max).
Proof.
  intros Hu. revert attempt throttled delay tr.
  induction left as [|left IH]; intros attempt throttled delay tr Hr H0 Ha Hm.
  { destruct Hr as [R1 R2 R3 R4 R5 R6 R7 R8]. cbn. split; [done|lia| |done| |].
    - unfold MAX_THROTTLED_ATTEMPTS in *. lia.
    - unfold MAX_THROTTLED_ATTEMPTS in *. destruct delay as [d|]; cbn in R8; [specialize (R7 d eq_refl)|]; lia.
    - split; [done|]. split; [lia|done]. }
  rewrite send_loop_step by done.
  assert (Hgo : ∀ tr, retrying request attempt throttled attempt None tr →
    always (attempt_once url request left attempt throttled) tr (sent request max)).
  { clear tr Hr. intros tr Hr. unfold attempt_once. cbn. intros x _. fold (outcome x).
    assert (Hretry : ∀ d, failed_answer x = true ∨ throttled_answer x = true →
      (throttled_answer x = true → throttled + 1 < MAX_THROTTLED_ATTEMPTS) →
      (∀ d', d = Some d' → throttled_answer x = true ∧ 0 <= d' <= MAX_RETRY_AFTER) →
      always (send_loop url request left (attempt + 1) (throttled + (if throttled_answer x then 1 else 0)) d
               PCS_ACCESS_FAILURE) (tr ++ [Called (exchange request) (Some x)]) (sent request max)).
    { intros d H1 H2 H3. apply IH; [|lia..]. rewrite Z.max_r by lia. by apply retrying_exchange. }
    destruct (outcome x) as [r|e] eqn:Ex.
    - destruct (outcome_answered x r Ex) as [-> Hread].
      assert (Hdone : sent request max (tr ++ [Called (exchange request) (Some (Answered r))]) (Ok r))
        by (eapply sent_answer; [done|lia|done]).
      pose proof (throttled_answer_ok _ _ Ex) as Et.
      destruct (throttling (hr_status r)) eqn:Eth; [|done]. destruct (_ && _) eqn:Eb; [|done].
      apply andb_true_iff in Eb as [Eb _]. apply Z.ltb_lt in Eb. rewrite Et in Hretry.
      apply Hretry; [by right|done|]. intros d' Hd'. split; [done|by apply (retry_after_bound r)].
    - assert (Ef : failed_answer x = true) by (unfold failed_answer; by rewrite Ex).
      assert (Et : throttled_answer x = false) by (unfold throttled_answer; by rewrite Ex).
      assert (Ee : e = PCS_ACCESS_FAILURE).
      { destruct x as [| |r]; cbn in Ex; [congruence..|]. unfold read_response in Ex. cbv zeta in Ex.
        repeat case_match; congruence. }
      subst e. rewrite Et in Hretry. replace throttled with (throttled + 0) by lia.
      apply Hretry; [by left|done|done]. }
  destruct (0 <? attempt) eqn:Ea.
  - apply Z.ltb_lt in Ea. rewrite Z.max_r in Hr by lia. cbn. intros [] _. apply Hgo,
    retrying_sleep; [lia|done].
  - apply Z.ltb_ge in Ea. assert (attempt = 0) as -> by lia. apply Hgo. by rewrite H0 in Hr by done.
Qed.
End policy.

(** C18: The retry policy.  Whatever the upstream does, a call of [send] makes at
    most [max_attempts] exchanges, all of the same request; sees at most three
    throttled answers; never waits more than thirty seconds at a time nor more
    than 60 s and 1.6 s per attempt in all; a response it returns is the answer
    to its last exchange, all before having failed or been throttled; and it
    gives up, with [PCS_ACCESS_FAILURE], only after the last attempt.  A URL
    that does not parse, or Intel's retired API, gets no exchange at all. *)
Theorem send_policy {St : Type} `{HttpSyntax} (cl : Client) (e : Env St http_call) url body attach_key n s :
  let '(_, tr, r) := run e (send cl url body attach_key) n s in
  if attach_key && contains "/v3/" url then tr = [] ∧ r = Err PCS_V3_REACHED_EOL
  else if negb (uri_parses url) && negb (Nat.eqb (max_attempts cl) 0) then tr = [] ∧ r = Err INTERNAL_ERROR
  else if negb (uri_parses url) then tr = [] ∧ r = Err PCS_ACCESS_FAILURE
  else sent (request_for cl url body attach_key) (max_attempts cl) tr r.
Proof.
  unfold send, check_v3, lift.
  destruct (attach_key && contains "/v3/" url) eqn:Ev.
  { apply andb_true_iff in Ev as [-> ->]. done. }
  set (request := request_for _ _ _ _).
  replace (if attach_key then if contains "/v3/" url then Err PCS_V3_REACHED_EOL else Ok () else Ok ())
    with (Ok () : res ()) by (destruct attach_key, (contains "/v3/" url); done).
  change (let '(_, tr, r) := run e (send_loop url request (max_attempts cl) 0 0 None PCS_ACCESS_FAILURE) n s in
    if negb (uri_parses url) && negb (max_attempts cl =? 0)%nat then tr = [] ∧ r = Err INTERNAL_ERROR
    else if negb (uri_parses url) then tr = [] ∧ r = Err PCS_ACCESS_FAILURE
    else sent request (max_attempts cl) tr r).
  destruct (uri_parses url) eqn:Eu; cbn [negb andb].
  - assert (He : allowed (λ _, True) (λ _, True) (λ _ _ _, True) e) by done.
    pose proof (ensures_run _ _ _ e (send_loop url request (max_attempts cl) 0 0 None PCS_ACCESS_FAILURE)
      n s [] (sent request (max_attempts cl)) He) as Hrun.
    destruct (run e _ n s) as [[s' tr] r]. apply Hrun.
    apply send_loop_sent; [done| |done..|lia]. split; cbn; try done; try lia.
  - destruct (max_attempts cl) as [|m]; cbn; [done|]. by rewrite Eu.
Qed.

(** ** Destinations *)

(** A predicate on the requests that reach the wire *)
Definition wire (good : HttpRequest → Prop) : ∀ X, http_call X → Prop := λ _ c,
  match c with exchange r => good r | sleep _ => True end.

Section ops.
Context {St V : Type} `{Json V} `{Base64} `{HttpSyntax} `{PercentEncoding}.
Context (cl : Client) (LK : string → Prop) (good : HttpRequest → Prop).
Abbreviation does p := (ops_in (St := St) LK (wire good) p).

Lemma does_send_loop url request left attempt throttled delay last :
  good request → does (send_loop url request left attempt throttled delay last).
Proof.
  intros Hg. revert attempt throttled delay last.
  induction left as [|left IH]; intros attempt throttled delay last; [done|]. cbn [send_loop].
  assert (Hgo : does (if negb (uri_parses url) then err INTERNAL_ERROR else attempt_once url request left attempt throttled)).
  { destruct (negb _); [done|]. unfold attempt_once. cbn. split; [done|]. intros x.
    destruct (match x with Answered _ => _ | _ => _ end) as [r|e]; [|apply IH].
    destruct (throttling _); [|done]. destruct (_ && _); [apply IH|done]. }
  destruct (0 <? attempt); [|exact Hgo]. split; [done|]. intros _. exact Hgo.
Qed.

Lemma does_send url body attach_key :
  (attach_key && contains "/v3/" url = false → good (request_for cl url body attach_key)) →
  does (send cl url body attach_key).
Proof.
  intros Hg. unfold send, lift, check_v3.
  destruct attach_key; [destruct (contains "/v3/" url); [done|]|]; by apply does_send_loop, Hg.
Qed.

Lemma does_try {A B} (c : @NetM St A) (f : A → NetM B) :
  does c → (∀ a, does (f a)) → does (mbind (M := NetM) f c).
Proof. intros Hc Hf. apply ops_in_bind; [done|]. by intros [a|e]. Qed.

Lemma does_get url :
  (base cl ≠ ""%string → contains "/v3/" url = false → good (request_for cl url None true)) →
  does (get cl url).
Proof.
  intros Hg. unfold get, enabled. destruct (is_empty (base cl)) eqn:E; [done|]. cbn [negb].
  apply does_send. cbn [andb]. apply Hg. by intros Hb; rewrite Hb in E.
Qed.

Lemma does_anything {X} (c : pcs_call V X) : (∀ rq, good rq) → does (client cl c).
Proof.
  intros Hg.
  assert (Hget : ∀ url, does (get cl url)) by (intros; by apply does_get).
  assert (Hsend : ∀ url body key, does (send cl url body key)) by (intros; by apply does_send).
  destruct c; cbn [client];
    unfold get_url, post_once, fetch_pckcert_pccs, fetch_pckcerts_intel, fetch_pckcerts_intel_manifest, fetch_tcb,
      fetch_identity, fetch_pckcrl, fetch_rootcacrl, rootcacrl_url, intel_root_ca_cdp, fetch_crl;
    repeat match goal with
    | |- ops_in _ _ (mbind _ _) => apply does_try; [|intros ?]
    | |- ops_in _ _ (pbind _ _) => apply ops_in_bind; [|intros ?]
    | |- ops_in _ _ (pmap _ _) => apply ops_in_bind; [|intros ?]
    | |- ops_in _ _ (let _ := _ in _) => cbv zeta
    | |- ops_in _ _ (match ?x with _ => _ end) => destruct x
    | |- _ => solve [auto | done]
    end; (split; [apply Hg|done]).
Qed.
End ops.

(** The addresses the configuration names *)
Definition service_url (cfg : Config) (url : string) : Prop :=
  (∃ pq, url = join_host_path (amd_kds_uri cfg) pq) ∨ (∃ pq, url = join_host_path (nvidia_rim_uri cfg) pq) ∨
  url = (nvidia_nras_uri cfg ++ "/v3/attest/gpu")%string ∨ url = nvidia_ocsp_uri cfg.

(** Under the configured Intel (or PCCS) base, its TDX counterpart, or a CRL
    distribution point of Intel's *)
Definition intel_url (cl : Client) (url : string) : Prop :=
  starts_with (base cl) url = true ∨ starts_with (tdx_if (base cl) true) url = true ∨
  is_valid_crl_uri url = true.

(** A request the service may send: with the key, only to the first kind of
    address and only where the key is wanted. *)
Definition destination (cfg : Config) (cl : Client) (rq : HttpRequest) : Prop :=
  (base cl ≠ ""%string ∧ intel_url cl (rq_url rq) ∧ contains "/v3/" (rq_url rq) = false ∧
   ∀ k, rq_key rq = Some k → k = api_key cl ∧ wants_api_key (rq_url rq) = true) ∨
  (service_url cfg (rq_url rq) ∧ rq_key rq = None).

(** The calls of the cache that lead there *)
Definition call_ok (V : Type) (cfg : Config) : ∀ X, pcs_call V X → Prop := λ _ c,
  match c with
  | get_url_for _ url | post_json_once url _ | post_bytes_once url _ _ => service_url cfg url
  | Cache.fetch_crl uri => is_valid_crl_uri uri = true
  | _ => True
  end.

Section destinations.
Context {St V : Type} `{Json V} `{Base64} `{HttpSyntax} `{PercentEncoding}.
Context (cfg : Config) (cl : Client) (LK : string → Prop).
Abbreviation does p := (ops_in (St := St) LK (wire (destination cfg cl)) p).

Lemma request_key url body attach_key k :
  rq_key (request_for cl url body attach_key) = Some k → k = api_key cl ∧ wants_api_key url = true.
Proof.
  cbn. destruct (attach_key && wants_api_key url && _ && _) eqn:E; [|done].
  repeat (apply andb_true_iff in E as [E ?]). by intros [= <-].
Qed.

Lemma intel_destination url body :
  base cl ≠ ""%string → intel_url cl url → contains "/v3/" url = false →
  destination cfg cl (request_for cl url body true).
Proof. intros Hb Hu Hv. left. split_and!; [done..|]. intros k. apply request_key. Qed.

Lemma does_intel_get url : intel_url cl url → does (get cl url).
Proof. intros Hu. apply does_get. intros. by apply intel_destination. Qed.

Lemma under_base rest : intel_url cl (base cl ++ rest).
Proof. left. apply starts_with_spec. by eexists. Qed.
Lemma under_tdx b rest : intel_url cl (tdx_if (base cl) b ++ rest).
Proof. destruct b; [right; left|left]; apply starts_with_spec; by eexists. Qed.

Lemma does_service_get url : service_url cfg url → does (get_url cl url).
Proof. intros Hu. apply does_send. intros _. by right. Qed.

Lemma does_post_once url content_type body : service_url cfg url → does (post_once url content_type body).
Proof. intros Hu. unfold post_once. destruct (negb _); [done|]. destruct (negb _); [done|]. split; [by right|done]. Qed.

Lemma does_lift {A} (r : res A) : does (lift r).
Proof. done. Qed.

Lemma root_crl_url_good : returns (intel_url cl) (rootcacrl_url (St := St) cl).
Proof.
  unfold rootcacrl_url. destruct (negb _); [apply under_base|].
  apply (returns_bind (λ o, ∀ u, o = Some u → is_valid_crl_uri u = true)).
  - unfold intel_root_ca_cdp. apply (returns_bind (λ _, True)); [by apply returns_any|]. intros r _ u.
    destruct (to_option r) as [h|]; [|done]. cbn [mbind option_bind]. destruct (negb _); [done|].
    destruct (last_pem_der _) as [der|]; [|done]. cbn [mbind option_bind].
    destruct (crl_distribution_point der) as [cdp|]; [|done]. cbn [mbind option_bind].
    by destruct (is_valid_crl_uri cdp) eqn:E; [intros [= <-]|].
  - intros [u|] Ho; right; right; [by apply Ho|vm_compute; reflexivity].
Qed.

Lemma does_root_crl_url : does (rootcacrl_url cl).
Proof.
  unfold rootcacrl_url. destruct (negb _); [done|]. apply ops_in_bind; [|done]. unfold intel_root_ca_cdp.
  apply ops_in_bind; [|done]. apply does_intel_get, under_base.
Qed.

Ltac client_walk :=
  repeat match goal with
  | |- ops_in _ _ (mbind _ _) => apply does_try; [|intros ?]
  | |- ops_in _ _ (get _ _) => apply does_intel_get; rewrite <- ?str_app_assoc; solve [auto using under_base, under_tdx]
  | |- ops_in _ _ (if ?x then _ else _) => destruct x
  | |- ops_in _ _ (let _ := _ in _) => cbv zeta
  | |- ops_in _ _ (lift _) => apply does_lift
  | |- _ => done
  end.

Lemma does_client {X} (c : pcs_call V X) : call_ok V cfg X c → does (client cl c).
Proof.
  destruct c; cbn [call_ok client]; intros Hc.
  - by apply does_service_get.
  - by apply does_post_once.
  - by apply does_post_once.
  - unfold fetch_pckcert_pccs, pckcert_url. client_walk.
  - unfold fetch_pckcerts_intel, pckcerts_url. client_walk.
  - unfold fetch_pckcerts_intel_manifest, enabled. destruct (is_empty (base cl)) eqn:E; [done|]. cbn [negb].
    apply does_try; [|intros; apply does_lift]. apply does_send. intros Hv.
    apply intel_destination; [by intros Hb; rewrite Hb in E|apply under_base|done].
  - unfold fetch_tcb. client_walk.
  - unfold fetch_identity. client_walk. apply does_intel_get. unfold identity_url.
    destruct (Z.eqb _ 2); [|destruct (Z.eqb _ 3)]; first [apply under_base | apply (under_tdx true)].
  - unfold fetch_pckcrl. client_walk.
  - unfold fetch_rootcacrl. apply (ops_in_bind_returns _ _ (intel_url cl)); [apply does_root_crl_url|apply root_crl_url_good|].
    intros url Hu. apply does_try; [by apply does_intel_get|intros h; client_walk].
  - unfold fetch_crl. client_walk. apply does_intel_get. right. by right.
Qed.
End destinations.

Lemma ops_in_over_http {St V A} `{Json V} `{Base64} `{HttpSyntax} `{PercentEncoding} cl LK
    (PC : ∀ X, pcs_call V X → Prop) HC (p : prog St (pcs_call V) A) :
  ops_in LK PC p → (∀ X c, PC X c → ops_in (St := St) LK HC (client cl c)) →
  ops_in LK HC (over_http cl p).
Proof.
  intros Hp Hc. induction p as [a|X f k IH|key k IH|key k IH|X c k IH|X c k IH]; cbn in *; auto.
  - destruct Hp as [? Hk]. auto.
  - destruct Hp as [? Hk]. auto.
  - destruct Hp as [Hcall Hk]. apply ops_in_bind; auto.
  - destruct Hp as [Hcall Hk]. apply ops_in_bind; [|auto]. apply ops_in_timeout; auto.
Qed.

Section composed.
Context {D V : Type} `{Database D} `{Json V} `{Base64} `{Sha2} `{Chrono} `{HttpSyntax} `{PercentEncoding}.
Context `{Serde PckCertRecord} `{Serde PlatformPool} `{Serde (TcbRecord V)} `{Serde (IdentityRecord V)}
  `{Serde PckCrlRecord} `{Serde (list Z)} `{Serde CrlRecord} `{Serde AmdKdsRecord}
  `{Serde NvidiaOcspRecord} `{Serde RegisteredPlatform}.
Context (cfg : Config) (cl : Client).

(** The requests whose addresses do not come out of the store; the handler
    lets only valid CRL URIs through. *)
Definition vetted (r : Request V) : Prop :=
  match r with
  | GetCrl uri _ => is_valid_crl_uri uri = true
  | PostRefresh _ _ => False
  | _ => True
  end.

Abbreviation calls p := (ops_in any_lock (call_ok V cfg) p).

Lemma calls_cached_url url ttl service key_for e load save :
  service_url cfg url → calls (get_cached_url cfg url ttl service key_for e load save : @CM D V _).
Proof.
  intros Hu. unfold get_cached_url, cached_url_locked, cached_url_answer. prog_walk; done.
Qed.

Lemma calls_fill qeid cpusvn pcesvn pceid context :
  calls (fill_pckcert cfg qeid cpusvn pcesvn pceid context : @CM D V _).
Proof. unfold fill_pckcert, fetch_pool. prog_walk; try done. by apply ops_in_store_pckcerts. Qed.

Lemma calls_refetch qeid cpusvn pcesvn pceid version :
  calls (refetch_pool_for_new_raw_tcb cfg qeid cpusvn pcesvn pceid version : @P D V _).
Proof.
  unfold refetch_pool_for_new_raw_tcb, refetch_locked, fetch_pool, refetch_due, mark_refetch.
  prog_walk; try done. by apply ops_in_store_pckcerts.
Qed.

Lemma calls_get_pckcert qeid cpusvn pcesvn pceid enc_ppid version :
  calls (Pool.get_pckcert cfg qeid cpusvn pcesvn pceid enc_ppid version : @CM D V _).
Proof.
  unfold Pool.get_pckcert. apply ops_in_bind; [done|]. intros known. apply ops_in_bind; [by destruct known|].
  intros [rec|]; [done|]. cbv zeta.
  assert (Hf : calls (with_key_lock (pckcert qeid pceid cpusvn pcesvn)
    (pckcert_locked cfg qeid cpusvn pcesvn pceid enc_ppid version (pckcert qeid pceid cpusvn pcesvn)) : @CM D V _)).
  { apply ops_in_lock_scope; [done|]. unfold pckcert_locked. prog_walk; [done|]. apply calls_fill. }
  destruct known; [|done]. apply ops_in_bind; [apply calls_refetch|].
  intros [rec|]; [done|]. apply ops_in_bind; [done|]. intros [rec|e]; [done|]. by destruct (_ || _).
Qed.

Lemma calls_register p update : calls (Refresh.register_platform cfg p update : @CM D V _).
Proof.
  unfold Refresh.register_platform, is_cached, register_fill, fill_qv_collateral, prefetch.
  prog_walk; try done; apply calls_fill.
Qed.

Lemma calls_serve r : vetted r → calls (serve (D := D) cfg r).
Proof.
  intros Hv. destruct r; apply ops_in_reply.
  1-5: unfold Cache.get_tcb, Cache.get_identity, Cache.get_pckcrl, Cache.get_rootcacrl, Cache.get_crl; prog_walk; done.
  - apply ops_in_try; [done|]. intros pq. apply calls_cached_url. left. by eexists.
  - apply ops_in_try; [done|]. intros pq. apply calls_cached_url. right. left. by eexists.
  - unfold Cache.get_nvidia_ocsp, ocsp_locked, post_nvidia_ocsp, ocsp_answer. prog_walk; try done; by right; right; right.
  - unfold Cache.get_nvidia_nras. prog_walk; try done. by right; right; left.
  - apply calls_get_pckcert.
  - apply calls_register.
  - done.
Qed.

(** The requests of the cache, all the way down *)
Lemma serve_destinations (r : Request V) :
  vetted r → only_calls (wire (destination cfg cl)) (over_http cl (serve (D := D) cfg r)).
Proof.
  intros Hv. eapply ops_in_over_http; [by apply calls_serve|]. intros X c. apply does_client.
Qed.
End composed.

(** ** Query strings *)

Section queries.
Context `{PercentEncodingLaws}.

Lemma q_encode s : q s = pct_encode unreserved s.
Proof.
  unfold q. induction s as [|c s IH]; [apply percent_encode_nil|].
  rewrite percent_encode_cons. cbn [pct_encode].
  assert (Hc : negb (unreserved c) || (128 <=? byte_of c) = negb (unreserved c)).
  { clear. each_char c. }
  rewrite Hc, IH. by destruct (unreserved c).
Qed.

Definition pckcert_params (qeid cpusvn pcesvn pceid : string) (enc_ppid : option string) :
    list (string * string) :=
  [("qeid", qeid); ("cpusvn", cpusvn); ("pcesvn", pcesvn); ("pceid", pceid)]%string ++
  match enc_ppid with
  | Some e => if is_empty e then [] else [("encrypted_ppid"%string, e)]
  | None => []
  end.

Lemma pckcert_url_query cl qeid cpusvn pcesvn pceid enc_ppid :
  pckcert_url cl qeid cpusvn pcesvn pceid enc_ppid =
  (base cl ++ "pckcert" ++ String "?" (query_string unreserved (pckcert_params qeid cpusvn pcesvn pceid enc_ppid)))%string.
Proof.
  assert (Hk : ∀ k, k ∈ ["qeid"; "cpusvn"; "pcesvn"; "pceid"; "encrypted_ppid"]%string → pct_encode unreserved k = k).
  { intros k Hk. repeat (apply elem_of_cons in Hk as [->|Hk]; [vm_compute; reflexivity|]). by apply not_elem_of_nil in Hk. }
  unfold pckcert_url. rewrite !q_encode. f_equal. unfold pckcert_params, query_string, str_join.
  destruct enc_ppid as [e|]; [destruct (is_empty e)|]; cbn [app map fst snd String.concat];
    rewrite ?(Hk "encrypted_ppid"%string), (Hk "qeid"%string), (Hk "cpusvn"%string), (Hk "pcesvn"%string), (Hk "pceid"%string)
      by (repeat first [by left|right]); rewrite ?q_encode, <- ?str_app_assoc; cbn [String.append];
    by rewrite ?str_app_nil_r.
Qed.

(** What this service asks another PCCS, that PCCS reads back exactly: parsing
    the query of the upstream URL gives the five parameters, each with the
    value that was asked for, and nothing else, whatever characters the values
    contain. *)
Theorem pckcert_query_roundtrip (cl : Client) qeid cpusvn pcesvn pceid enc_ppid :
  free_of "?" (base cl) →
  Forall (λ kv, utf8_valid (bytes kv.2) = true) (pckcert_params qeid cpusvn pcesvn pceid enc_ppid) →
  ∃ m, query_params (snd <$> split_once "?" (pckcert_url cl qeid cpusvn pcesvn pceid enc_ppid)) = Ok m ∧
    ∀ k, m !! k = first_value (pckcert_params qeid cpusvn pcesvn pceid enc_ppid) k.
Proof.
  intros Hb HF. rewrite pckcert_url_query, str_app_assoc, split_once_free by (by apply free_of_app).
  apply query_params_written; try done. apply Forall_and. split; [|done].
  unfold pckcert_params. destruct enc_ppid as [e|]; [destruct (is_empty e)|]; cbn [app];
    repeat first [apply Forall_nil_2 | apply Forall_cons_2; [vm_compute; reflexivity|]].
Qed.
End queries.

(** [wants_api_key]'s comment says the key is never sent on CRL downloads; a
    URI that [is_valid_crl_uri] accepts can carry it. *)
Lemma crl_download_with_key (key : string) `{HttpSyntax} :
  let cl := {| base := "https://api.trustedservices.intel.com/sgx/certification/v4/"; api_key := key;
               pcs_is_intel := true; max_attempts := 6 |} in
  let uri := "https://certificates.trustedservices.intel.com/IntelSGXRootCA.x/pckcerts"%string in
  key ≠ ""%string → header_value_ok key = true →
  is_valid_crl_uri uri = true ∧ rq_key (request_for cl uri None true) = Some key.
Proof.
  intros cl uri Hk Hok. split; [vm_compute; reflexivity|]. cbn -[wants_api_key]. rewrite Hok.
  destruct key as [|c key]; [done|]. vm_compute. reflexivity.
Qed.

Import MapDb Codec Concrete CollateralSample CacheSample.

#[local] Instance syntax : HttpSyntax := {| uri_parses _ := true; header_value_ok _ := true |}.

Definition sample_client : Client :=
  {| base := "https://api.trustedservices.intel.com/sgx/certification/v4/"; api_key := "key";
     pcs_is_intel := true; max_attempts := 6 |}.

Lemma pckcert_query_roundtrip_witness :
  ∃ m, query_params (Some "qeid=a%26b&cpusvn=0A&pcesvn=0D00&pceid=0000&encrypted_ppid=%2F%2B")%string = Ok m ∧
    m !! "qeid"%string = Some "a&b"%string ∧ m !! "encrypted_ppid"%string = Some "/+"%string.
Proof.
  destruct (pckcert_query_roundtrip sample_client "a&b" "0A" "0D00" "0000" (Some "/+"%string))
    as (m & Hm & Hk); [vm_compute; reflexivity|by repeat constructor|].
  exists m. split; [exact Hm|]. split; apply Hk.
Defined.
