(* ===== verification/RoutesSpec.v ===== *)
(** * RoutesSpec: the service as a whole

    Tokens, the scope of every guard, the headers every response carries, and
    the composition of the routes with the cache and the upstream client:
    where a request can make the service connect to, that it is silent outside
    LAZY, that it always completes, and that one instance can serve another. *)

From Stdlib Require Import ZArith Lia.
From stdpp Require Import base list strings option gmap relations.
From S2P Require Import Prelude Text Errors Validate Env PckCert Selection Ocsp Keys Database Fifo Records Platforms Registry Collateral Urls Prog Cache Pcs Pool Refresh CacheSpec PcsSpec Routes.

Local Open Scope Z_scope.
#[local] Set Default Proof Using "Type*".

(** ** Tokens *)

Lemma hex_digit_of_val c v : hex_val c = Some v → hex_digit_lower v = to_lower_c c.
Proof.
  assert (Hc : match hex_val c with
               | Some v => Ascii.eqb (hex_digit_lower v) (to_lower_c c) | None => true end = true)
    by each_char c.
  intros E. rewrite E in Hc. by apply Ascii.eqb_eq.
Qed.

Lemma hex2_lower_pair c d hi lo :
  hex_val c = Some hi → hex_val d = Some lo →
  hex2_lower (16 * hi + lo) = String (to_lower_c c) (String (to_lower_c d) EmptyString).
Proof.
  intros Hc Hd. pose proof (hex_val_range _ _ Hc). pose proof (hex_val_range _ _ Hd).
  unfold hex2_lower.
  replace ((16 * hi + lo) / 16) with hi by (rewrite Z.mul_comm, Z.div_add_l, Z.div_small by lia; lia).
  replace ((16 * hi + lo) mod 16) with lo by (rewrite Z.add_comm, Z.mul_comm, Z.mod_add, Z.mod_small by lia; lia).
  by rewrite (hex_digit_of_val c hi Hc), (hex_digit_of_val d lo Hd).
Qed.

(** Encoding inverts decoding, up to case. *)
Lemma hex_encode_decode s l : hex_decode s = Some l → hex_encode l = to_lower s.
Proof.
  revert l. induction s as [s IH] using (induction_ltof1 _ String.length). unfold ltof in IH.
  intros l. destruct s as [|c [|d s]]; cbn [hex_decode]; [by intros [= <-]|done|].
  destruct (hex_val c) as [hi|] eqn:Ec; [|done]. destruct (hex_val d) as [lo|] eqn:Ed; [|done].
  cbn [mbind option_bind]. destruct (hex_decode s) as [r|] eqn:Er; [|done]. cbn [mbind option_bind].
  intros [= <-]. rewrite hex_encode_cons, (hex2_lower_pair c d hi lo Ec Ed). cbn [String.append].
  rewrite (IH s) by (cbn; lia || done). done.
Qed.

Lemma hex_decode_lower s : hex_decode (to_lower s) = hex_decode s.
Proof.
  induction s as [s IH] using (induction_ltof1 _ String.length). unfold ltof in IH.
  destruct s as [|c [|d s]]; [done..|]. unfold to_lower. cbn [str_map hex_decode]. fold to_lower.
  rewrite !hex_val_lower_c. by rewrite (IH s) by (cbn; lia).
Qed.

Lemma hex_decode_digits s l : hex_decode s = Some l → str_all is_hexdigit s = true.
Proof.
  revert l. induction s as [s IH] using (induction_ltof1 _ String.length). unfold ltof in IH.
  intros l. destruct s as [|c [|d s]]; cbn [hex_decode]; [done..|].
  destruct (hex_val c) as [hi|] eqn:Ec; [|done]. destruct (hex_val d) as [lo|] eqn:Ed; [|done].
  cbn [mbind option_bind]. destruct (hex_decode s) as [r|] eqn:Er; [|done]. intros _.
  cbn [str_all]. rewrite (proj2 (hex_val_is_hexdigit c)), (proj2 (hex_val_is_hexdigit d)) by eauto.
  by apply (IH s ltac:(cbn; lia) r).
Qed.

Section tokens.
Context `{Sha2Laws}.

Lemma parse_expected_hash_spec h l :
  length l = 64%nat → Forall is_byte l →
  parse_expected_hash h = Some l ↔ hex_encode l = to_lower h.
Proof.
  intros Hl Hb. unfold parse_expected_hash. split.
  - destruct (_ || _); [done|]. apply hex_encode_decode.
  - intros E. assert (Hd : hex_decode h = Some l) by (rewrite <- hex_decode_lower, <- E; by apply hex_decode_encode).
    rewrite (hex_decode_digits h l Hd).
    assert (String.length h = 128%nat) as ->; [|done].
    rewrite <- (to_lower_length h), <- E. clear -Hl.
    assert (Hn : String.length (hex_encode l) = (2 * length l)%nat); [|lia].
    induction l as [|b l IH] in |- *; [done|]. rewrite hex_encode_cons, str_length_app, IH. cbn. lia.
Qed.

(** The token that opens a guard *)
Definition token_matches (expected_hex : string) (t : string) : Prop :=
  t ≠ EmptyString ∧ hex_encode (sha512 (bytes t)) = to_lower expected_hex.
#[export] Instance token_matches_dec expected_hex t : Decision (token_matches expected_hex t).
Proof. unfold token_matches. apply _. Defined.

Lemma verify_token_some t expected_hex :
  verify_token (Some t) expected_hex =
    if bool_decide (token_matches expected_hex t) then Ok () else Err UNAUTHORIZED.
Proof.
  pose proof (parse_expected_hash_spec expected_hex _ (sha512_length (bytes t)) (sha512_bytes (bytes t))) as Hs.
  unfold verify_token. destruct (parse_expected_hash expected_hex) as [l|]; cbn.
  - destruct (decide (token_matches expected_hex t)) as [Hm|Hm].
    + rewrite bool_decide_true by done. destruct Hm as [Hne Heq]. apply Hs in Heq as [= ->].
      destruct t as [|c t]; [done|]. cbn. by rewrite Nat.eqb_refl, bool_decide_true.
    + rewrite bool_decide_false by done. destruct t as [|c t]; [done|]. cbn [is_empty].
      destruct (decide (sha512 (bytes (String c t)) = l)) as [<-|Hne].
      * destruct Hm. split; [done|]. by apply Hs.
      * cbn. rewrite (bool_decide_false (_ = l)) by done. cbn. by rewrite orb_true_r.
  - rewrite bool_decide_false; [done|]. intros [_ E]. apply Hs in E. done.
Qed.

Lemma verify_token_none expected_hex : verify_token None expected_hex = Err UNAUTHORIZED.
Proof. unfold verify_token. by destruct (parse_expected_hash _). Qed.

(** A guarded request passes exactly when it carries a non-empty token whose
    SHA-512 digest, in hexadecimal, is the configured hash; anything else,
    a missing or malformed configured hash included, is a 401. *)
Theorem verify_token_spec (raw_token : option string) (expected_hex : string) :
  verify_token raw_token expected_hex =
    match raw_token with
    | Some t => if bool_decide (token_matches expected_hex t) then Ok () else Err UNAUTHORIZED
    | None => Err UNAUTHORIZED
    end.
Proof. destruct raw_token; [apply verify_token_some|apply verify_token_none]. Qed.
End tokens.

(** ** What the handlers do *)

(** A program's own operations, read off the program with its result mapped *)
Lemma ops_in_bind_inv {St Call A B} LK PC (p : prog St Call A) (g : A → prog St Call B) :
  ops_in LK PC (pbind p g) → ops_in LK PC p.
Proof.
  induction p as [a|X f k IH|key k IH|key k IH|X c k IH|X c k IH]; cbn; auto; intros [? Hk]; split; auto.
Qed.

Lemma locks_bind_inv {St Call A B} from to (p : prog St Call A) (g : A → prog St Call B) :
  (∀ a, locks to to (g a)) → (∀ h a, locks h to (g a) → h = to) →
  locks from to (pbind p g) → locks from to p.
Proof.
  intros Hg Hinv. revert from.
  induction p as [a|X f k IH|key k IH|key k IH|X c k IH|X c k IH]; intros from; cbn; auto.
  - apply Hinv.
  - intros [? Hk]. auto.
  - intros [? Hk]. auto.
Qed.

Section handlers.
Context {D V : Type} `{Database D} `{Json V} `{Base64} `{Sha2} `{Chrono} `{HttpSyntax} `{ServiceEnv D V}.
Context `{Serde PckCertRecord} `{Serde PlatformPool} `{Serde (TcbRecord V)} `{Serde (IdentityRecord V)}
  `{Serde PckCrlRecord} `{Serde (list Z)} `{Serde CrlRecord} `{Serde AmdKdsRecord}
  `{Serde NvidiaOcspRecord} `{Serde RegisteredPlatform} `{Serde AppraisalList}.
Context (cfg : Config) (settings : Settings).

(** The endpoint that makes a request of the cache *)
Definition endpoint_of (r : Request V) : Endpoint :=
  match r with
  | GetTcb p _ _ _ => get_tcb_e p
  | GetIdentity i _ _ => get_identity_e i
  | GetPckCrl _ _ => get_pckcrl_e
  | GetRootCaCrl _ => get_rootcacrl_e
  | GetCrl _ _ => get_crl_e
  | GetAmdKds _ => get_amd_kds_e
  | GetNvidiaRim _ => get_nvidia_rim_e
  | PostNvidiaOcsp _ => post_nvidia_ocsp_e
  | PostNvidiaNras _ => post_nvidia_nras_e
  | GetPckCert _ _ _ _ _ _ => get_pckcert_e
  | PostPlatform _ _ => post_platforms_e
  | PostRefresh _ _ => refresh_e
  end.

Definition crl_ok (r : Request V) : Prop :=
  match r with GetCrl uri _ => is_valid_crl_uri uri = true | _ => True end.

(** A handler does what its request of the cache does, or stays in the store. *)
Lemma ops_in_handle PC e (req : HttpIn V) :
  (∀ r, endpoint_of r = e → crl_ok r → ops_in any_lock PC (serve (D := D) cfg r)) →
  ops_in any_lock PC (handle (D := D) cfg e req).
Proof.
  intros Hs.
  assert (Hop : ∀ r (A : Type) (c : @CM D V A) (f : A → Reply V), serve cfg r = reply f c →
    endpoint_of r = e → crl_ok r → ops_in any_lock PC c).
  { intros r A c f Er He Hok. apply (ops_in_bind_inv _ _ c (λ r, Ret (f <$> r))).
    specialize (Hs r He Hok). by rewrite Er in Hs. }
  destruct e; cbn [handle];
    unfold h_get_platforms, h_post_platforms, h_put_platform_collateral, h_refresh, h_put_appraisal_policy,
      h_get_pckcert, h_get_pckcrl, h_get_tcb, h_get_identity, h_get_rootcacrl, h_get_crl, h_get_appraisal_policy,
      h_get_amd_kds, h_get_nvidia_rim, h_post_nvidia_ocsp, h_post_nvidia_nras, pccs_query, version, try_;
    prog_walk; try done.
  - by eapply (Hop (PostPlatform _ _)).
  - by eapply (Hop (PostRefresh _ _)).
  - by eapply (Hop (GetPckCert _ _ _ _ _ _)).
  - by eapply (Hop (GetPckCrl _ _)).
  - by eapply (Hop (GetTcb _ _ _ _)).
  - by eapply (Hop (GetIdentity _ _ _)).
  - by eapply (Hop (GetRootCaCrl _)).
  - eapply (Hop (GetCrl _ _)); [done..|]. cbn. by apply negb_false_iff.
  - by eapply (Hop (GetAmdKds _)).
  - by eapply (Hop (GetNvidiaRim _)).
  - by eapply (Hop (PostNvidiaOcsp _)).
  - by eapply (Hop (PostNvidiaNras _)).
  - unfold readiness. cbn. by intros ? [] ?.
  - unfold startup. cbn. by destruct startup_done.
Qed.

(** A handler holds no lock when it returns. *)
Lemma locks_handle e (req : HttpIn V) : locks None None (handle (D := D) cfg e req).
Proof.
  assert (Hop : ∀ r (A : Type) (c : @CM D V A) (f : A → Reply V), serve cfg r = reply f c → locks None None c).
  { intros r A c f Er. apply (locks_bind_inv _ _ c (λ r, Ret (f <$> r))); [done|done|].
    pose proof (locks_serve cfg r) as Hl. by rewrite Er in Hl. }
  destruct e; cbn [handle];
    unfold h_get_platforms, h_post_platforms, h_put_platform_collateral, h_refresh, h_put_appraisal_policy,
      h_get_pckcert, h_get_pckcrl, h_get_tcb, h_get_identity, h_get_rootcacrl, h_get_crl, h_get_appraisal_policy,
      h_get_amd_kds, h_get_nvidia_rim, h_post_nvidia_ocsp, h_post_nvidia_nras, pccs_query, version, try_;
    repeat match goal with
    | |- locks _ _ (mbind _ _) => apply locks_try; [|intros ?]
    | |- locks _ _ (let _ := _ in _) => cbv zeta
    | |- locks _ _ (match ?x with _ => _ end) => destruct x
    end; try done;
    first [by eapply (Hop (PostPlatform _ _)) | by eapply (Hop (PostRefresh _ _)) | by eapply (Hop (GetPckCert _ _ _ _ _ _))
      | by eapply (Hop (GetPckCrl _ _)) | by eapply (Hop (GetTcb _ _ _ _)) | by eapply (Hop (GetIdentity _ _ _))
      | by eapply (Hop (GetRootCaCrl _)) | by eapply (Hop (GetCrl _ _)) | by eapply (Hop (GetAmdKds _))
      | by eapply (Hop (GetNvidiaRim _)) | by eapply (Hop (PostNvidiaOcsp _)) | by eapply (Hop (PostNvidiaNras _))
      | by cbn; intros ? [] ? | by cbn; destruct startup_done].
Qed.

(** The guard and endpoint a request is routed to *)
Definition target (req : HttpIn V) : option (Guard * Endpoint) :=
  '(_, t) ← find_route (pcs_version cfg) (in_path req); find_method (in_verb req) t.

Lemma routed_target req :
  (∃ g e, target req = Some (g, e) ∧
    routed (D := D) cfg settings req =
      pmap (λ r, match r with Ok a => a | Err e => error_response e end)
        (guarded settings g req (handle cfg e req))) ∨
  target req = None ∧ ∃ status, routed (D := D) cfg settings req = Ret (bare status).
Proof.
  unfold target, routed. destruct (find_route _ _) as [[m t]|]; [|right; split; [done|by eexists]].
  cbn [mbind option_bind]. destruct (find_method _ t) as [[g e]|]; [|right; split; [done|by eexists]].
  left. by exists g, e.
Qed.

(** The middleware adds no operation. *)
Lemma ops_in_app PC id req :
  (∀ g e, target req = Some (g, e) → ops_in any_lock PC (handle (D := D) cfg e req)) →
  ops_in any_lock PC (app (D := D) cfg settings id req).
Proof.
  intros Hh. unfold app. cbv zeta. apply ops_in_bind; [|done]. apply ops_in_bind; [|done]. unfold cors.
  assert (Hr : ops_in any_lock PC (routed (D := D) cfg settings req)).
  { destruct (routed_target req) as [(g & e & Ht & ->)|(_ & r & ->)]; [|done].
    apply ops_in_bind; [|done]. apply ops_in_try; [done|]. intros _. by apply (Hh g). }
  assert (Hn : ops_in any_lock PC (reject_trailing_slash req (reject_unexpected_body req
    (match collateral_cache_max_age_secs settings with
     | Some max_age => collateral_cache_control cfg max_age req (v3_eol_warning req (routed cfg settings req))
     | None => v3_eol_warning req (routed (D := D) cfg settings req)
     end)))).
  { unfold reject_trailing_slash, reject_unexpected_body, v3_eol_warning. destruct (_ && _); [done|]. destruct (_ && _); [done|].
    assert (Hv : ops_in any_lock PC (v3_eol_warning req (routed (D := D) cfg settings req))).
    { unfold v3_eol_warning. destruct (v3_path _); [|done]. by apply ops_in_bind. }
    destruct (collateral_cache_max_age_secs settings); [|done]. by apply ops_in_bind. }
  destruct (negb _); [done|]. destruct (decide _); [done|]. by apply ops_in_bind.
Qed.

Lemma locks_app id req : locks None None (app (D := D) cfg settings id req).
Proof.
  assert (Hpm : ∀ (A B : Type) (f : A → B) (p : @P D V A), locks None None p → locks None None (pmap f p)).
  { intros A B f p Hp. by apply (locks_bind _ None). }
  assert (Hr : locks None None (routed (D := D) cfg settings req)).
  { destruct (routed_target req) as [(g & e & _ & ->)|(_ & r & ->)]; [|done].
    apply Hpm, locks_try; [done|]. intros _. apply locks_handle. }
  unfold app, cors, reject_trailing_slash, reject_unexpected_body, collateral_cache_control, v3_eol_warning. cbv zeta.
  repeat match goal with
  | |- locks _ _ (pmap _ _) => apply Hpm
  | |- locks _ _ (add_request_id _ _) => apply Hpm
  | |- locks _ _ (match ?x with _ => _ end) => destruct x
  end; done.
Qed.
End handlers.

(** ** Guards *)

Definition guard_of (e : Endpoint) : Guard :=
  match e with
  | post_platforms_e => User
  | get_platforms_e | put_platform_collateral_e | refresh_e | put_appraisal_policy_e => Admin
  | _ => Open
  end.

(** Every table guards an endpoint the same way, and none takes OPTIONS. *)
Definition well_guarded (t : method_table) : bool :=
  forallb (λ vm, negb (bool_decide (vm.1 = Options)) &&
                 match vm.2.1, guard_of vm.2.2 with
                 | Open, Open | User, User | Admin, Admin => true | _, _ => false end) t.

Lemma well_guarded_method v t g e :
  well_guarded t = true → find_method v t = Some (g, e) → g = guard_of e ∧ v ≠ Options.
Proof.
  unfold find_method. intros Ht Hf.
  apply fmap_Some in Hf as ([w' m] & Hl & E). cbn in E. subst m.
  apply bind_Some in Hl as ([i x] & Hl & E). cbn in E. injection E as E. subst x.
  apply list_find_Some in Hl as (Hx & Hp & _). apply list_elem_of_lookup_2 in Hx.
  unfold well_guarded in Ht. rewrite forallb_forall in Ht.
  specialize (Ht _ (proj1 (list_elem_of_In _ _) Hx)). cbn in Ht. apply andb_true_iff in Ht as [Hw Hg].
  split; [by destruct g, (guard_of e)|]. intros ->. cbn in Hp. by rewrite Hp in Hw.
Qed.

Lemma well_guarded_route l path t :
  forallb (λ pt, well_guarded pt.2) l = true → lookup_route l path = Some t → well_guarded t = true.
Proof.
  induction l as [|[p t'] l IH]; cbn; [done|]. intros [Ht Hl]%andb_true_iff.
  destruct (String.eqb p path); [by intros [= <-]|auto].
Qed.

Lemma well_guarded_nest prefix l path m t :
  forallb (λ pt, well_guarded pt.2) l = true → nest prefix l path = Some (m, t) → well_guarded t = true.
Proof.
  unfold nest. intros Hl Hn. destruct (strip_prefix prefix path) as [leaf|]; [|done]. cbn in Hn.
  destruct (lookup_route l leaf) as [t'|] eqn:E; [|done]. injection Hn as <- <-. by eapply well_guarded_route.
Qed.

Lemma first_of_elem {A} (l : list (option A)) a : first_of l = Some a → Some a ∈ l.
Proof.
  unfold first_of. induction l as [|[x|] l IH]; cbn [foldr]; [done|..].
  - intros [= ->]. left.
  - intros Hl. right. by apply IH.
Qed.

Lemma wildcard_some prefix t path m t' : wildcard prefix t path = Some (m, t') → t' = t.
Proof.
  unfold wildcard. destruct (strip_prefix prefix path) as [r|]; [|done]. cbn [mbind option_bind].
  destruct (is_empty r); [done|]. by intros [= _ <-].
Qed.

Lemma exact_some p t path m t' : exact p t path = Some (m, t') → t' = t.
Proof. unfold exact. destruct (String.eqb p path); [|done]. by intros [= _ <-]. Qed.

Lemma find_route_guarded pcs_ver path m t : find_route pcs_ver path = Some (m, t) → well_guarded t = true.
Proof.
  unfold find_route. intros Hf%first_of_elem.
  repeat (apply elem_of_cons in Hf as [Hf|Hf]; [|]); [..|by apply not_elem_of_nil in Hf]; symmetry in Hf;
    try destruct (pcs_ver =? 4); try done;
    first [by eapply well_guarded_nest; [|exact Hf] | by apply wildcard_some in Hf; subst
          | by apply exact_some in Hf; subst].
Qed.

Section guards.
Context {D V : Type} `{Database D} `{Json V} `{Base64} `{Sha2} `{Chrono} `{HttpSyntax} `{ServiceEnv D V}.
Context `{Serde PckCertRecord} `{Serde PlatformPool} `{Serde (TcbRecord V)} `{Serde (IdentityRecord V)}
  `{Serde PckCrlRecord} `{Serde (list Z)} `{Serde CrlRecord} `{Serde AmdKdsRecord}
  `{Serde NvidiaOcspRecord} `{Serde RegisteredPlatform} `{Serde AppraisalList}.
Context (cfg : Config) (settings : Settings).

Lemma target_guard (req : HttpIn V) g e : target cfg req = Some (g, e) → g = guard_of e ∧ in_verb req ≠ Options.
Proof.
  unfold target. destruct (find_route _ _) as [[m t]|] eqn:E; [|done]. cbn.
  apply well_guarded_method. by eapply find_route_guarded.
Qed.

(** A program that only returns, with the status it returns *)
Definition just (statuses : list Z) (p : @P D V Response) : Prop :=
  ∃ r, p = Ret r ∧ rs_status r ∈ statuses.

Lemma just_pmap l f (p : @P D V Response) :
  (∀ r, rs_status (f r) = rs_status r) → just l p → just l (pmap f p).
Proof. intros Hf (r & -> & Hr). exists (f r). split; [done|]. by rewrite Hf. Qed.

Lemma just_ret l r : rs_status r ∈ l → just l (Ret r).
Proof. by exists r. Qed.

(** The middleware answers by itself, or keeps the status of the inner answer. *)
Lemma just_app id (req : HttpIn V) l :
  in_verb req ≠ Options → just l (routed (D := D) cfg settings req) →
  just (404 :: 413 :: l) (app (D := D) cfg settings id req).
Proof.
  intros Hv Hr. unfold app. cbv zeta.
  apply just_pmap; [intros r; unfold head_body; by case_decide|].
  apply just_pmap; [intros r; by destruct (header_value_ok id)|].
  assert (Hin : just (404 :: 413 :: l) (reject_trailing_slash req (reject_unexpected_body req
    (match collateral_cache_max_age_secs settings with
     | Some max_age => collateral_cache_control cfg max_age req (v3_eol_warning req (routed cfg settings req))
     | None => v3_eol_warning req (routed (D := D) cfg settings req)
     end)))).
  { unfold reject_trailing_slash. destruct (_ && _); [apply just_ret; left|].
    unfold reject_unexpected_body. destruct (_ && _); [apply just_ret; right; left|].
    assert (Hl : just (404 :: 413 :: l) (routed (D := D) cfg settings req)).
    { destruct Hr as (r & -> & Hr). apply just_ret. right. by right. }
    assert (Hw : just (404 :: 413 :: l) (v3_eol_warning req (routed (D := D) cfg settings req))).
    { unfold v3_eol_warning. destruct (v3_path _); [|done].
      apply just_pmap; [intros r; by destruct (header_value_ok V3_EOL_WARNING)|done]. }
    destruct (collateral_cache_max_age_secs settings); [|done].
    apply just_pmap; [intros r; by destruct (cacheable_request cfg req)|done]. }
  unfold cors. destruct (negb _); [done|]. rewrite decide_False by done. by apply just_pmap.
Qed.

(** What opens a guard *)
Definition authorized (g : Guard) (req : HttpIn V) : Prop :=
  match g with
  | Open => True
  | User => ∃ t, in_header req "user-token" = Some t ∧ token_matches (user_token_hash settings) t
  | Admin => ∃ t, in_header req "admin-token" = Some t ∧ token_matches (admin_token_hash settings) t
  end.

Lemma authorize_refuses `{!Sha2Laws} g req : ¬ authorized g req → authorize settings g req = Err UNAUTHORIZED.
Proof.
  intros Hn. destruct g; cbn in *; [done|..]; unfold USER_TOKEN, ADMIN_TOKEN;
    (destruct (in_header req _) as [t|]; [|apply verify_token_none]; rewrite verify_token_some, bool_decide_false; [done|]);
    intros Hm; apply Hn; by exists t.
Qed.

(** C40: Draining or listing the platforms, uploading collateral or a policy and
    refreshing need the admin token, registering a platform needs the user
    token: a request routed to one of them without a token whose digest is the
    configured one is refused at once, and nothing is done for it: no operation
    on the store, no upstream request, no lock.  (The layers around the routes
    may refuse it first.) *)
Theorem protected_endpoints `{!Sha2Laws} id (req : HttpIn V) g e :
  target cfg req = Some (g, e) → ¬ authorized (guard_of e) req →
  ∃ r, app (D := D) cfg settings id req = Ret r ∧ rs_status r ∈ [404; 413; 401].
Proof.
  intros Ht Ha%authorize_refuses. destruct (target_guard _ _ _ Ht) as [-> Hv]. apply just_app; [done|].
  destruct (routed_target cfg settings req) as [(g' & e' & Ht' & ->)|(Ht' & _)]; [|by rewrite Ht in Ht'].
  rewrite Ht in Ht'. injection Ht' as <- <-. unfold guarded, try_. rewrite Ha.
  apply just_ret. left.
Qed.
End guards.

(** ** Response headers *)

(** The headers only the middleware sets *)
Definition own_headers : list string :=
  ["cache-control"; "access-control-allow-origin"; "warning"; "request-id"]%string.

Definition plain (h : Headers) : Prop := ∀ k, k ∈ own_headers → h !! k = None.
Definition undecorated (r : res Response) : Prop := ∀ resp, r = Ok resp → plain (rs_headers resp).

Lemma plain_empty : plain ∅.
Proof. intros k _. apply lookup_empty. Qed.

Lemma plain_put name v h : bool_decide (to_lower name ∈ own_headers) = false → plain h → plain (put_header name v h).
Proof.
  intros Hn Hh k Hk. unfold put_header. rewrite lookup_insert_ne; [by apply Hh|].
  intros <-. by apply bool_decide_eq_false in Hn.
Qed.

Section header_lemmas.
Context `{HttpSyntax}.

Lemma plain_insert name v h : bool_decide (to_lower name ∈ own_headers) = false → plain h → plain (Routes.insert name v h).
Proof. intros Hn Hh. unfold Routes.insert. destruct (header_value_ok v); [by apply plain_put|done]. Qed.

Lemma plain_default h v : plain h → plain (h ∪ {["content-type" := v]}).
Proof.
  intros Hh k Hk. apply lookup_union_None. split; [by apply Hh|].
  apply lookup_singleton_None. intros <-. by vm_compute in Hk; repeat (apply elem_of_cons in Hk as [?|Hk]; [done|]); apply not_elem_of_nil in Hk.
Qed.

Lemma undecorated_text status h body : plain h → undecorated (Ok (text status h body)).
Proof. intros Hh r [= <-]. by apply plain_default. Qed.
Lemma undecorated_bytes status h body : plain h → undecorated (Ok (bytes_response status h body)).
Proof. intros Hh r [= <-]. by apply plain_default. Qed.
Lemma plain_text_html status body : plain (rs_headers (text_html status body)).
Proof. apply plain_put; [done|]. apply plain_default, plain_empty. Qed.
Lemma undecorated_html status body : undecorated (Ok (text_html status body)).
Proof. intros r [= <-]. apply plain_text_html. Qed.
Lemma undecorated_amd rec : undecorated (Ok (amd_response rec)).
Proof.
  apply undecorated_bytes. destruct (ar_retry_after rec), (ar_content_disposition rec), (ar_content_type rec);
    repeat (apply plain_insert; [done|]); apply plain_empty.
Qed.
End header_lemmas.

Section headers.
Context {D V : Type} `{Database D} `{Json V} `{Base64} `{Sha2} `{Chrono} `{HttpSyntax} `{ServiceEnv D V}.
Context `{Serde PckCertRecord} `{Serde PlatformPool} `{Serde (TcbRecord V)} `{Serde (IdentityRecord V)}
  `{Serde PckCrlRecord} `{Serde (list Z)} `{Serde CrlRecord} `{Serde AmdKdsRecord}
  `{Serde NvidiaOcspRecord} `{Serde RegisteredPlatform} `{Serde AppraisalList}.
Context (cfg : Config) (settings : Settings).

Lemma returns_try {A B} (Q : res B → Prop) (c : @CM D V A) (f : A → @CM D V B) :
  (∀ e, Q (Err e)) → (∀ a, returns Q (f a)) → returns Q (c ≫= f).
Proof.
  intros He Hf. apply (returns_bind (λ _, True)); [by apply returns_any|]. intros [a|e] _; [apply Hf|apply He].
Qed.

Lemma undecorated_err e : undecorated (Err e).
Proof. by intros r. Qed.

Ltac plain_walk :=
  repeat match goal with
  | |- returns _ (mbind _ _) => apply returns_try; [apply undecorated_err|intros ?]
  | |- returns _ (let _ := _ in _) => cbv zeta
  | |- returns _ (match ?x with _ => _ end) => destruct x
  | |- returns _ (answer _) => cbn [returns answer]
  | |- returns _ (throw _) => apply undecorated_err
  | |- undecorated (Ok (amd_response _)) => apply undecorated_amd
  | |- undecorated (Ok (text_html _ _)) => apply undecorated_html
  | |- undecorated (Ok success_response) => apply undecorated_html
  | |- undecorated (Ok (text _ _ _)) => apply undecorated_text
  | |- undecorated (Ok (bytes_response _ _ _)) => apply undecorated_bytes
  | |- undecorated (Ok (json_value _ _ _ _)) => apply undecorated_bytes
  | |- plain (put_header _ _ _) => apply plain_put; [done|]
  | |- plain (Routes.insert _ _ _) => apply plain_insert; [try done|]
  | |- plain ∅ => apply plain_empty
  end.

Lemma json_undecorated status (v : V) : undecorated (Ok (json_response status v)).
Proof. apply undecorated_bytes. plain_walk. Qed.

Lemma handle_undecorated e (req : HttpIn V) : returns undecorated (handle (D := D) cfg e req).
Proof.
  destruct e; cbn [handle];
    unfold h_get_platforms, h_post_platforms, h_put_platform_collateral, h_refresh, h_put_appraisal_policy,
      h_get_pckcert, h_get_pckcrl, h_get_tcb, h_get_identity, h_get_rootcacrl, h_get_crl, h_get_appraisal_policy,
      h_get_amd_kds, h_get_nvidia_rim, h_post_nvidia_ocsp, h_post_nvidia_nras; plain_walk.
  - unfold tcb_issuer_chain_name. by destruct (a0 =? 3).
  - intros t. apply json_undecorated.
  - intros t [] t'; apply json_undecorated.
  - intros t. cbn. destruct startup_done; apply json_undecorated.
Qed.
Lemma returns_pmap {A B} (Q : A → Prop) (Q' : B → Prop) (f : A → B) (p : @P D V A) :
  returns Q p → (∀ a, Q a → Q' (f a)) → returns Q' (pmap f p).
Proof. intros Hp Hf. by apply (returns_bind Q). Qed.

Lemma routed_plain (req : HttpIn V) : returns (λ r, plain (rs_headers r)) (routed (D := D) cfg settings req).
Proof.
  destruct (routed_target cfg settings req) as [(g & e & _ & ->)|(_ & status & ->)]; [|apply plain_empty].
  apply (returns_pmap undecorated).
  - unfold guarded. apply returns_try; [apply undecorated_err|intros _; apply handle_undecorated].
  - intros [a|err] Ha; [by apply Ha|apply plain_text_html].
Qed.

(** The requests some layer answers before the routes *)
Definition rejected_early (req : HttpIn V) : bool :=
  (1 <? String.length (in_path req))%nat && ends_with "/" (in_path req)
  || request_carries_body req && negb (route_expects_body (in_verb req) (in_path req)).
Definition answered_early (req : HttpIn V) : bool :=
  rejected_early req || bool_decide (in_verb req = Options) && is_collateral_path (in_path req).

(** The [Cache-Control] a response carries *)
Definition cache_header (req : HttpIn V) (r : Response) : option string :=
  if is_nras_path (in_path req) then Some "no-store"%string
  else match collateral_cache_max_age_secs settings with
       | Some n =>
           if cacheable_request cfg req && negb (request_carries_body req) then
             Some (if rs_status r =? 200 then ("public, max-age=" ++ to_dec n)%string else "no-store"%string)
           else None
       | None => None
       end.

Record decorated (id : string) (req : HttpIn V) (r : Response) : Prop := {
  de_id : rs_headers r !! "request-id"%string = Some id;
  de_cors : rs_headers r !! "access-control-allow-origin"%string =
    if is_collateral_path (in_path req) then Some "*"%string else None;
  de_cache : rs_headers r !! "cache-control"%string = cache_header req r;
  de_warning : rs_headers r !! "warning"%string =
    if v3_path (in_path req) && negb (answered_early req) then Some V3_EOL_WARNING else None
}.

Lemma nest_matched p l path m t : nest p l path = Some (m, t) → m = path.
Proof.
  unfold nest. destruct (strip_prefix p path); [|done]. cbn [mbind option_bind].
  destruct (lookup_route l _); [|done]. by intros [= <- _].
Qed.

Lemma exact_matched p t' path m t : exact p t' path = Some (m, t) → m = path.
Proof. unfold exact. destruct (String.eqb p path); [|done]. by intros [= <- _]. Qed.

Lemma wildcard_matched p t' path m t : wildcard p t' path = Some (m, t) → m = (p ++ "{*rest}")%string.
Proof.
  unfold wildcard. destruct (strip_prefix p path) as [r|]; [|done]. cbn [mbind option_bind].
  destruct (is_empty r); [done|]. by intros [= <- _].
Qed.

Lemma find_route_matched pcs_ver path m t :
  find_route pcs_ver path = Some (m, t) → m = path ∨ bool_decide (m ∈ CACHEABLE_COLLATERAL) = false.
Proof.
  unfold find_route. intros Hf%first_of_elem.
  repeat (apply elem_of_cons in Hf as [Hf|Hf]; [|]); [..|by apply not_elem_of_nil in Hf]; symmetry in Hf;
    try destruct (pcs_ver =? 4); try done;
    first [left; by eapply nest_matched | left; by eapply exact_matched
          | right; apply wildcard_matched in Hf; subst m; vm_compute; reflexivity].
Qed.

Lemma cacheable_paths (req : HttpIn V) :
  cacheable_request cfg req = true →
  in_verb req ≠ Options ∧ route_expects_body (in_verb req) (in_path req) = false ∧
  ends_with "/" (in_path req) = false ∧ is_nras_path (in_path req) = false.
Proof.
  unfold cacheable_request. intros [Hv Hp]%andb_true_iff. apply bool_decide_eq_true in Hv.
  destruct (find_route _ _) as [[m t]|] eqn:Ef; [|done].
  destruct (find_route_matched _ _ _ _ Ef) as [->|Hf]; [|by rewrite Hf in Hp]. apply bool_decide_eq_true in Hp.
  split_and!; [by destruct Hv as [-> | ->]|by destruct Hv as [-> | ->]|..];
    repeat (apply elem_of_cons in Hp as [->|Hp]; [vm_compute; reflexivity|]); by apply not_elem_of_nil in Hp.
Qed.

Section visible.
Context `{!HttpSyntaxLaws}.

(** The answer before the cross-origin and request-id layers *)
Record inner_headers (warn : bool) (cache : Response → option string) (r : Response) : Prop := {
  ih_id : rs_headers r !! "request-id"%string = None;
  ih_cors : rs_headers r !! "access-control-allow-origin"%string = None;
  ih_cache : rs_headers r !! "cache-control"%string = cache r;
  ih_warning : rs_headers r !! "warning"%string = if warn then Some V3_EOL_WARNING else None
}.

Lemma plain_inner cache r : plain (rs_headers r) → cache r = None → inner_headers false cache r.
Proof.
  intros Hp Hc. assert (Hk : ∀ k, bool_decide (k ∈ own_headers) = true → rs_headers r !! k = None)
    by (intros k Hk%bool_decide_eq_true; by apply Hp).
  split; rewrite ?Hc, ?Hk by reflexivity; done.
Qed.

Definition layer_cache (req : HttpIn V) (r : Response) : option string :=
  match collateral_cache_max_age_secs settings with
  | Some n => if cacheable_request cfg req then
                Some (if rs_status r =? 200 then ("public, max-age=" ++ to_dec n)%string else "no-store"%string)
              else None
  | None => None
  end.

Lemma v3_inner (req : HttpIn V) :
  returns (inner_headers (v3_path (in_path req)) (λ _, None)) (v3_eol_warning req (routed (D := D) cfg settings req)).
Proof.
  pose proof (routed_plain req) as Hr. unfold v3_eol_warning. destruct (v3_path _).
  - apply (returns_pmap _ _ _ _ Hr). intros r Hp. rewrite visible_header_value by (vm_compute; reflexivity).
    destruct (plain_inner (λ _, None) r Hp eq_refl) as [I1 I2 I3 I4].
    split; cbn [add_header rs_headers]; unfold put_header; change (to_lower WARNING) with "warning"%string;
      rewrite ?lookup_insert_ne by done; try done. apply lookup_insert_eq.
  - apply (returns_weaken _ _ _ Hr). intros r Hp. by apply plain_inner.
Qed.

Lemma cached_inner (req : HttpIn V) :
  returns (inner_headers (v3_path (in_path req)) (layer_cache req))
    (match collateral_cache_max_age_secs settings with
     | Some max_age => collateral_cache_control cfg max_age req (v3_eol_warning req (routed cfg settings req))
     | None => v3_eol_warning req (routed (D := D) cfg settings req)
     end).
Proof.
  pose proof (v3_inner req) as Hr. unfold layer_cache. destruct (collateral_cache_max_age_secs settings) as [n|]; [|done].
  apply (returns_pmap _ _ _ _ Hr). intros r [I1 I2 I3 I4]. destruct (cacheable_request cfg req); [|done].
  split; cbn; unfold put_header; rewrite ?lookup_insert_ne by done; try done. apply lookup_insert_eq.
Qed.

Lemma rejected_inner (req : HttpIn V) :
  returns (inner_headers (v3_path (in_path req) && negb (rejected_early req))
      (λ r, if request_carries_body req then None else layer_cache req r))
    (reject_trailing_slash req (reject_unexpected_body req
       (match collateral_cache_max_age_secs settings with
        | Some max_age => collateral_cache_control cfg max_age req (v3_eol_warning req (routed cfg settings req))
        | None => v3_eol_warning req (routed (D := D) cfg settings req)
        end))).
Proof.
  pose proof (cached_inner req) as Hr.
  assert (Hno : cacheable_request cfg req = false → ∀ r, layer_cache req r = None).
  { intros E r. unfold layer_cache. rewrite E. by destruct (collateral_cache_max_age_secs settings). }
  unfold rejected_early, reject_trailing_slash, reject_unexpected_body.
  destruct ((1 <? _)%nat && _) eqn:Es; cbn [orb negb]; rewrite ?andb_false_r.
  { apply andb_true_iff in Es as [_ Es]. apply plain_inner; [apply plain_empty|].
    destruct (request_carries_body req); [done|]. apply Hno. destruct (cacheable_request cfg req) eqn:Ec; [|done].
    apply cacheable_paths in Ec as (_ & _ & Ec & _). congruence. }
  destruct (request_carries_body req) eqn:Eb; cbn [andb negb]; rewrite ?andb_true_r; [|done].
  destruct (route_expects_body _ _) eqn:Ee; cbn [negb]; rewrite ?andb_true_r, ?andb_false_r;
    [|by apply plain_inner; [apply plain_text_html|]].
  apply (returns_weaken _ _ _ Hr). intros r [I1 I2 I3 I4]. split; [done..|rewrite I3|done]. apply Hno.
  destruct (cacheable_request cfg req) eqn:Ec; [|done]. apply cacheable_paths in Ec as (_ & Ec & _). congruence.
Qed.

Lemma insert_visible name v h k :
  str_all (λ c, (32 <=? byte_of c) && (byte_of c <? 127)) v = true →
  Routes.insert name v h !! k = if decide (to_lower name = k) then Some v else h !! k.
Proof.
  intros Hv. unfold Routes.insert, put_header. rewrite visible_header_value by done.
  destruct (decide (to_lower name = k)) as [<-|Hne]; [apply lookup_insert_eq|by apply lookup_insert_ne].
Qed.

(** The cross-origin headers on top of some headers [h] *)
Lemma cors_lookup (nras : bool) h k :
  k ∈ own_headers →
  (if nras then Routes.insert "cache-control" "no-store" (insert_cors h) else insert_cors h) !! k =
    if decide (k = "access-control-allow-origin"%string) then Some "*"%string
    else if nras && bool_decide (k = "cache-control"%string) then Some "no-store"%string else h !! k.
Proof.
  intros Hk. unfold insert_cors.
  repeat (apply elem_of_cons in Hk as [->|Hk]; [destruct nras; rewrite !insert_visible by (vm_compute; reflexivity); reflexivity|]).
  by apply not_elem_of_nil in Hk.
Qed.

Lemma own_elem k : bool_decide (k ∈ own_headers) = true → k ∈ own_headers.
Proof. by intros ?%bool_decide_eq_true. Qed.

(** The answer before the request-id layer *)
Record framed (req : HttpIn V) (r : Response) : Prop := {
  fr_cors : rs_headers r !! "access-control-allow-origin"%string =
    if is_collateral_path (in_path req) then Some "*"%string else None;
  fr_cache : rs_headers r !! "cache-control"%string = cache_header req r;
  fr_warning : rs_headers r !! "warning"%string =
    if v3_path (in_path req) && negb (answered_early req) then Some V3_EOL_WARNING else None
}.

Lemma framed_decorated id req r : framed req r → decorated id req (add_header REQUEST_ID id r).
Proof.
  intros [F1 F2 F3]. split; cbn [add_header rs_headers rs_status]; unfold put_header;
    change (to_lower REQUEST_ID) with "request-id"%string; rewrite ?lookup_insert_ne by done; try done.
  apply lookup_insert_eq.
Qed.

Lemma cache_header_layer req r :
  is_nras_path (in_path req) = false →
  cache_header req r = if request_carries_body req then None else layer_cache req r.
Proof.
  intros E. unfold cache_header, layer_cache. rewrite E. destruct (collateral_cache_max_age_secs settings).
  - destruct (cacheable_request cfg req), (request_carries_body req); done.
  - by destruct (request_carries_body req).
Qed.

Lemma nras_collateral path : is_nras_path path = true → is_collateral_path path = true.
Proof. intros E. unfold is_collateral_path. rewrite E, orb_true_r. by destruct (_ || _). Qed.

Lemma cors_framed req (inner : @P D V Response) :
  returns (inner_headers (v3_path (in_path req) && negb (rejected_early req))
    (λ r, if request_carries_body req then None else layer_cache req r)) inner →
  returns (framed req) (cors req inner).
Proof.
  intros Hr. unfold cors. destruct (is_collateral_path (in_path req)) eqn:Ec; cbn [negb].
  - destruct (decide (in_verb req = Options)) as [Eo|Eo].
    + cbn [returns]. split; cbn [rs_headers]; rewrite ?Ec, cors_lookup by (by apply own_elem); cbn.
      * done.
      * unfold cache_header. destruct (is_nras_path _); [done|]. destruct (collateral_cache_max_age_secs settings); [|done].
        unfold cacheable_request. by rewrite Eo.
      * unfold answered_early. by rewrite andb_false_r, Ec, (bool_decide_true (_ = _)), !orb_true_r, andb_false_r by done.
    + apply (returns_pmap _ _ _ _ Hr). intros r [I1 I2 I3 I4].
      split; cbn [rs_headers]; rewrite ?Ec, cors_lookup by (by apply own_elem); cbn; [done| |].
      * rewrite andb_true_r. destruct (is_nras_path (in_path req)) eqn:En; [by unfold cache_header; rewrite En|].
        rewrite I3, cache_header_layer by done. done.
      * unfold answered_early. by rewrite andb_false_r, (bool_decide_false (_ = _)), orb_false_r by done.
  - apply (returns_weaken _ _ _ Hr). intros r [I1 I2 I3 I4].
    assert (En : is_nras_path (in_path req) = false).
    { destruct (is_nras_path _) eqn:En; [|done]. apply nras_collateral in En. congruence. }
    split; [by rewrite Ec|by rewrite I3, cache_header_layer|].
    unfold answered_early. by rewrite Ec, andb_false_r, orb_false_r.
Qed.

Lemma app_decorated id (req : HttpIn V) :
  header_value_ok id = true → returns (decorated id req) (app (D := D) cfg settings id req).
Proof.
  intros Hid. unfold app. cbv zeta. apply (returns_pmap (decorated id req)).
  - unfold add_request_id. rewrite Hid. apply (returns_pmap _ _ _ _ (cors_framed req _ (rejected_inner req))).
    intros r. apply framed_decorated.
  - intros r Hd. unfold head_body. case_decide; [|done]. by destruct Hd.
Qed.
End visible.
End headers.

(** ** The whole service over HTTP *)

Lemma locks_over_http {St V A} `{Json V} `{Base64} `{HttpSyntax} `{PercentEncoding} cl from to
    (p : prog St (pcs_call V) A) :
  locks from to p → locks from to (over_http cl p).
Proof.
  assert (Hc : ∀ X (c : pcs_call V X), lock_free (client (St := St) cl c)).
  { intros X c. eapply ops_in_weaken; [| |by apply (does_anything cl no_lock (λ _, True))]; done. }
  revert from. induction p as [a|X f k IH|key k IH|key k IH|X c k IH|X c k IH]; intros from; cbn; auto.
  - intros [-> Hk]. auto.
  - intros [-> Hk]. auto.
  - intros Hk. apply (locks_bind _ from); [by apply lock_free_locks|auto].
  - intros Hk. apply (locks_bind _ from); [apply lock_free_locks, ops_in_timeout, Hc|auto].
Qed.

Lemma returns_over_http {St V A} `{Json V} `{Base64} `{HttpSyntax} `{PercentEncoding} cl (Q : A → Prop)
    (p : prog St (pcs_call V) A) :
  returns Q p → returns Q (over_http cl p).
Proof.
  induction p as [a|X f k IH|key k IH|key k IH|X c k IH|X c k IH]; cbn; auto;
    intros Hk; (apply (returns_bind (λ _, True)); [by apply returns_any|auto]).
Qed.

Section service.
Context {D V : Type} `{Database D} `{Json V} `{Base64} `{Sha2} `{Chrono} `{HttpSyntax} `{PercentEncoding} `{ServiceEnv D V}.
Context `{Serde PckCertRecord} `{Serde PlatformPool} `{Serde (TcbRecord V)} `{Serde (IdentityRecord V)}
  `{Serde PckCrlRecord} `{Serde (list Z)} `{Serde CrlRecord} `{Serde AmdKdsRecord}
  `{Serde NvidiaOcspRecord} `{Serde RegisteredPlatform} `{Serde AppraisalList}.
Context (cfg : Config) (settings : Settings) (cl : Client).

(** A received request, all the way down to its HTTP exchanges *)
Definition service (id : string) (req : HttpIn V) : prog (Shared D) http_call Response :=
  over_http cl (app cfg settings id req).


(** C16: Outside LAZY the service is silent.  In OFFLINE no request whatever makes
    an HTTP request upstream; in REQ only a registration, a refresh and an
    attestation can: every lookup is answered from the store. *)
Theorem no_upstream_outside_lazy id (req : HttpIn V) :
  mode cfg ≠ Lazy →
  mode cfg = Offline ∨ (∀ g e, target cfg req = Some (g, e) → e ∉ [post_platforms_e; refresh_e; post_nvidia_nras_e]) →
  only_calls no_call (service id req).
Proof.
  intros Hm Hr. unfold service. apply (ops_in_over_http cl any_lock no_call); [|done].
  apply ops_in_app. intros g e Ht. apply ops_in_handle. intros r He _. apply serve_no_upstream; [done|].
  destruct Hr as [Hr|Hr]; [by right|]. left. specialize (Hr g e Ht).
  destruct r; cbn in *; try done; subst e; exfalso; apply Hr; set_solver.
Qed.

(** The headers around every answer.  Every response carries the fresh request
    id; the cross-origin header is on the collateral and attestation paths and
    on no other; [Cache-Control] is [no-store] on the attestation proxy and,
    when a lifetime is configured, is [public] with that lifetime on a 200 of
    the platform-independent Intel collateral and [no-store] on every other
    answer there, and absent from everything else; the end-of-life warning is on
    every answer under version 3, found or not, that a layer outside the routes
    does not give by itself, and on no other. *)
Theorem response_headers `{!HttpSyntaxLaws} id (req : HttpIn V) :
  header_value_ok id = true → returns (decorated cfg settings id req) (service id req).
Proof. intros Hid. unfold service. by apply returns_over_http, app_decorated. Qed.
End service.

(** ** A concrete service *)

Import MapDb Codec Concrete CollateralSample CacheSample.

Module ServiceSample.

#[export] Instance syntax : HttpSyntax := {|
  uri_parses _ := true;
  header_value_ok := str_all (λ c, (32 <=? byte_of c) && (byte_of c <? 127))
|}.
#[export] Instance syntax_laws : HttpSyntaxLaws.
Proof. by split. Qed.

#[export] Instance env : ServiceEnv (gmap string string) jvalue := {|
  now_iso8601 t := to_dec (t_secs t);
  reg_json r := JObj [("qe_id", JStr (rp_qe_id r))]%string;
  platform_json r := JNull;
  json_array := JArr;
  is_healthy _ := true;
  startup_done := true
|}.

Definition settings : Settings := {|
  user_token_hash := hex_encode (sha512 (bytes "user"));
  admin_token_hash := hex_encode (sha512 (bytes "admin"));
  collateral_cache_max_age_secs := Some 3600
|}.

Definition request (v : Verb) (path : string) (query : option string) : HttpIn jvalue := {|
  in_verb := v; in_path := path; in_query := query;
  in_header name := if String.eqb name "user-token" then Some "intruder"%string else None;
  in_json := ReadRejected 400; in_bytes := ReadOk ""%string
|}.

Definition tcb_request := request Get "/sgx/certification/v4/tcb" (Some "fmspc=00906ED50000"%string).

(** The request routed to its endpoint, and refused without its token *)
Example routes_and_guards :
  target (config Lazy true) tcb_request = Some (Open, get_tcb_e 0) ∧
  target (config Lazy true) (request Post "/sgx/certification/v4/platforms" None) = Some (User, post_platforms_e) ∧
  target (config Lazy true) (request Post "/sgx/certification/v4/tcb" None) = None ∧
  verify_token (Some "admin"%string) (admin_token_hash settings) = Ok () ∧
  verify_token (Some "user"%string) (admin_token_hash settings) = Err UNAUTHORIZED.
Proof. split_and!; vm_compute; reflexivity. Qed.

End ServiceSample.
Import ServiceSample.

Lemma verify_token_spec_witness :
  verify_token (Some "admin"%string) (admin_token_hash settings) =
  if bool_decide (token_matches (admin_token_hash settings) "admin") then Ok () else Err UNAUTHORIZED.
Proof. apply (verify_token_spec (Some "admin"%string) (admin_token_hash settings)). Defined.


Lemma no_upstream_outside_lazy_witness :
  only_calls no_call
    (service (D := gmap string string) (config Req true) settings sample_client "id" tcb_request).
Proof.
  apply (no_upstream_outside_lazy (D := gmap string string) (config Req true) settings sample_client "id" tcb_request);
    [done|]. right. intros g e. vm_compute target. intros [= <- <-]. set_solver.
Defined.

Lemma protected_endpoints_witness :
  ∃ r, app (D := gmap string string) (config Lazy true) settings "id"
         (request Post "/sgx/certification/v4/platforms" None) = Ret r ∧ rs_status r ∈ [404; 413; 401].
Proof.
  apply (protected_endpoints (D := gmap string string) (config Lazy true) settings "id"
    (request Post "/sgx/certification/v4/platforms" None) User post_platforms_e); [vm_compute; reflexivity|].
  intros (t & Ht & Hm). vm_compute in Ht. injection Ht as <-. destruct Hm as [_ Hm]. vm_compute in Hm. discriminate Hm.
Defined.

Lemma response_headers_witness :
  returns (decorated (config Lazy true) settings "0123" tcb_request)
    (service (D := gmap string string) (config Lazy true) settings sample_client "0123" tcb_request).
Proof. apply (response_headers (config Lazy true) settings sample_client "0123" tcb_request). reflexivity. Defined.
