(* ===== verification/SingleFlight.v ===== *)
(** * SingleFlight: concurrent misses of one key share one upstream call

    A small rely-guarantee argument for programs that race for one key: a
    ghost state says whether the upstream was asked and whether its answer was
    published; each task has a view of it, which only the holder of the key
    lock can move.  [safe] is the proof obligation of one task, by recursion on
    its program; [safe_adequate] concludes about every interleaving, tasks
    dropped in the middle included: a holder that is dropped before it has
    published its answer reopens the question for the next.  The read-through
    URL cache discharges the obligation. *)

From Stdlib Require Import ZArith Lia.
From stdpp Require Import base list strings option gmap relations.
From S2P Require Import Prelude Text Errors Validate Env PckCert Selection Ocsp Keys Database Fifo FifoSpec Records Platforms Registry Collateral Urls Prog Disconnect Cache CacheSpec.

Local Open Scope Z_scope.
#[local] Set Default Proof Using "Type*".

(** ** The argument *)

Section rely_guarantee.
Context {St : Type} {Call : Type → Type} {A R : Type}.
Context (key : string) (T : Time → Prop) (answers : ∀ X, Call X → X → Prop).
(** the one call the tasks may make, with the answer it yields *)
Context (decode : ∀ X, Call X → option (X → R)).
(** what a task returns once the answer is known *)
Context (outcome : R → A).
(** what a dropped task leaves, where tasks can be dropped *)
Context (gone : option A).

Inductive ghost := GOpen | GPending (r : R) | GSettled (r : R).
Context (Inv : ghost → St → Prop).

(** What a task knows; [VIn], [VInOpen], [VOwn] and [VInK] hold the lock.
    [VGone] is dropped. *)
Inductive view := VOut | VOutK (r : R) | VIn | VInOpen | VOwn (r : R) | VInK (r : R) | VGone.

Definition holds (v : view) : bool :=
  match v with VOut | VOutK _ | VGone => false | _ => true end.

Definition compat (v : view) (g : ghost) : Prop :=
  match v with
  | VOut | VGone => True
  | VOutK r | VInK r => g = GSettled r
  | VIn => ∀ r, g ≠ GPending r
  | VInOpen => g = GOpen
  | VOwn r => g = GPending r
  end.

(** Only the owner of a pending answer moves the ghost state: it publishes. *)
Definition moves (v : view) (g g' : ghost) : Prop :=
  g' = g ∨ ∃ r, v = VOwn r ∧ g = GPending r ∧ g' = GSettled r.

Fixpoint safe (v : view) (p : prog St Call A) : Prop :=
  match p with
  | Ret a => (v = VGone ∧ gone = Some a) ∨ ∃ r, v = VOutK r ∧ a = outcome r
  | Act f k => ∀ g t s, compat v g → T t → Inv g s →
      ∃ g' v', moves v g g' ∧ compat v' g' ∧ holds v' = holds v ∧
        Inv g' (fst (f t s)) ∧ safe v' (k (snd (f t s)))
  | Lock key' k => key' = key ∧
      ((v = VOut ∧ safe VIn k) ∨ ∃ r, v = VOutK r ∧ safe (VInK r) k)
  | Unlock key' k => key' = key ∧ ∃ r, v = VInK r ∧ safe (VOutK r) k
  | @Upstream _ _ _ X c k => v = VInOpen ∧ (∀ r s, Inv GOpen s → Inv (GPending r) s) ∧
      ∃ d, decode X c = Some d ∧ ∀ x, answers X c x → safe (VOwn (d x)) (k x)
  | Timed _ _ => False
  end.

Lemma compat_moves v w g g' :
  compat v g → compat w g → moves w g g' → (holds w = true → holds v = false) → compat v g'.
Proof.
  intros Hv Hw [->|(r & -> & -> & ->)] Hh; [done|]. specialize (Hh eq_refl).
  destruct v; cbn in *; try done.
Qed.

(** One call answered with [r] *)
Definition asked (ev : nat * event Call) (r : R) : Prop :=
  ∃ i X (c : Call X) d x, ev = (i, Called c (Some x)) ∧ decode X c = Some d ∧ d x = r.

(** The calls made so far, by the ghost state: at most one per dropped task,
    and the one whose answer is pending or published. *)
Definition trace_is (n : nat) (g : ghost) (tr : list (nat * event Call)) : Prop :=
  Forall (λ ev, ∃ r, asked ev r) tr ∧
  match g with
  | GOpen => (length tr <= n)%nat
  | GPending r | GSettled r => ∃ tr0 ev, tr = tr0 ++ [ev] ∧ (length tr0 <= n)%nat ∧ asked ev r
  end.

Lemma trace_is_reopened n r tr : trace_is n (GPending r) tr → trace_is (S n) GOpen tr.
Proof. intros [Hf (tr0 & ev & -> & Hn & _)]. split; [done|]. rewrite length_app. cbn. lia. Qed.

Lemma trace_is_weaken n g tr : trace_is n g tr → trace_is (S n) g tr.
Proof.
  intros [Hf Ht]. split; [done|]. destruct g; [lia|..];
    destruct Ht as (tr0 & ev & -> & Hn & Ha); exists tr0, ev; repeat split; try done; lia.
Qed.

Record consistent (n : nat) (c : conf St Call A) (g : ghost) (vs : list view) : Prop := {
  cs_inv : Inv g (c_state c);
  cs_safe : Forall2 safe vs (c_tasks c);
  cs_compat : Forall (λ v, compat v g) vs;
  cs_lock : ∀ i, c_locks c !! key = Some i ↔ ∃ v, vs !! i = Some v ∧ holds v = true;
  cs_owner : ∀ r, g = GPending r → ∃ i, vs !! i = Some (VOwn r);
  cs_trace : trace_is n g (c_trace c)
}.

(** Replacing the view of one task, when holding the lock is not affected *)
Lemma lock_same (L : gmap string nat) (vs : list view) i v v' :
  vs !! i = Some v → holds v' = holds v →
  (∀ j, L !! key = Some j ↔ ∃ w, vs !! j = Some w ∧ holds w = true) →
  ∀ j : nat, L !! key = Some j ↔ ∃ w, <[i := v']> vs !! j = Some w ∧ holds w = true.
Proof.
  intros Hi Hh HL j. rewrite HL. destruct (decide (i = j)) as [<-|Hne].
  - rewrite list_lookup_insert_eq by (by eapply lookup_lt_Some). split.
    + intros (w & Hw & Ht). rewrite Hi in Hw. injection Hw as <-. exists v'. by rewrite Hh.
    + intros (w & [= <-] & Ht). exists v. by rewrite <- Hh.
  - by rewrite list_lookup_insert_ne.
Qed.

(** At most one task holds the lock. *)
Lemma one_holder n c g vs i j v w :
  consistent n c g vs → vs !! i = Some v → vs !! j = Some w → holds v = true → holds w = true → i = j.
Proof.
  intros Hc Hi Hj Hv Hw. pose proof (proj2 (cs_lock _ _ _ _ Hc i) (ex_intro _ v (conj Hi Hv))) as E1.
  pose proof (proj2 (cs_lock _ _ _ _ Hc j) (ex_intro _ w (conj Hj Hw))) as E2. congruence.
Qed.

(** The views of the other tasks survive a move of task [i]. *)
Lemma others_compat n c g g' vs i v v' :
  consistent n c g vs → vs !! i = Some v → moves v g g' → compat v' g' →
  Forall (λ v, compat v g') (<[i := v']> vs).
Proof.
  intros Hc Hi Hm Hv'. apply Forall_lookup. intros j w Hj.
  destruct (decide (i = j)) as [<-|Hne].
  - rewrite list_lookup_insert_eq in Hj by (by eapply lookup_lt_Some). by injection Hj as <-.
  - rewrite list_lookup_insert_ne in Hj by done.
    pose proof (proj1 (Forall_lookup _ _) (cs_compat _ _ _ _ Hc)) as Hall.
    eapply compat_moves; [by eapply Hall|by eapply (Hall i)|done|].
    intros Hh. destruct (holds w) eqn:Ew; [|done]. destruct Hne. by eapply one_holder.
Qed.

Lemma task_view n c g vs i p :
  consistent n c g vs → c_tasks c !! i = Some p → ∃ v, vs !! i = Some v ∧ safe v p ∧ compat v g.
Proof.
  intros Hc Hi. destruct (Forall2_lookup_r _ _ _ _ _ (cs_safe _ _ _ _ Hc) Hi) as (v & Hv & Hs).
  exists v. split; [done|]. split; [done|]. by eapply (proj1 (Forall_lookup _ _) (cs_compat _ _ _ _ Hc)).
Qed.

Lemma consistent_act n s L ts tr g vs i X (f : Time → St → St * X) k t :
  consistent n (mkConf s L ts tr) g vs → ts !! i = Some (Act f k) → T t →
  ∃ g' vs', consistent n (mkConf (fst (f t s)) L (<[i := k (snd (f t s))]> ts) tr) g' vs'.
Proof.
  intros Hc Hi Ht. destruct (task_view _ _ _ _ _ _ Hc Hi) as (v & Hv & Hs & Hg). cbn in Hs.
  destruct (Hs g t s Hg Ht (cs_inv _ _ _ _ Hc)) as (g' & v' & Hm & Hg' & Hh & HI & Hk).
  exists g', (<[i := v']> vs). split; cbn.
  - done.
  - by apply Forall2_insert; [apply Hc|].
  - by eapply others_compat.
  - eapply lock_same; [done|done|]. apply (cs_lock _ _ _ _ Hc).
  - intros r ->. destruct Hm as [<-|(r' & _ & _ & [=])].
    destruct (cs_owner _ _ _ _ Hc r eq_refl) as [j Hj]. exists j.
    destruct (decide (i = j)) as [<-|Hne]; [|by rewrite list_lookup_insert_ne].
    rewrite Hv in Hj. injection Hj as ->. rewrite list_lookup_insert_eq by (by eapply lookup_lt_Some).
    destruct v'; cbn in Hg', Hh; try done; [by destruct (Hg' r)|congruence].
  - destruct Hm as [->|(r & -> & -> & ->)]; apply (cs_trace _ _ _ _ Hc).
Qed.

Lemma consistent_lock n s L ts tr g vs i key' k :
  consistent n (mkConf s L ts tr) g vs → ts !! i = Some (Lock key' k) → L !! key' = None →
  ∃ vs', consistent n (mkConf s (<[key' := i]> L) (<[i := k]> ts) tr) g vs'.
Proof.
  intros Hc Hi Hf. destruct (task_view _ _ _ _ _ _ Hc Hi) as (v & Hv & [-> Hs] & Hg).
  assert (Hnone : ∀ j w, vs !! j = Some w → holds w = false).
  { intros j w Hj. destruct (holds w) eqn:E; [|done].
    pose proof (proj2 (cs_lock _ _ _ _ Hc j) (ex_intro _ w (conj Hj E))) as E'. cbn in E'. congruence. }
  assert (Hgo : ∀ r, g ≠ GPending r).
  { intros r ->. destruct (cs_owner _ _ _ _ Hc r eq_refl) as [j Hj]. by specialize (Hnone _ _ Hj). }
  assert (∃ v', holds v' = true ∧ safe v' k ∧ compat v' g) as (v' & Hh & Hsk & Hg').
  { destruct Hs as [[-> Hs]|(r & -> & Hs)]; [by exists VIn|by exists (VInK r)]. }
  pose proof (lookup_lt_Some _ _ _ Hv) as Hlt.
  exists (<[i := v']> vs). split; cbn.
  - apply Hc.
  - apply Forall2_insert; [apply Hc|done].
  - eapply others_compat; [done|done|by left|done].
  - intros j. rewrite lookup_insert_eq. split.
    + intros [= <-]. exists v'. by rewrite list_lookup_insert_eq.
    + intros (w & Hw & Ht). destruct (decide (i = j)) as [->|Hne]; [done|].
      rewrite list_lookup_insert_ne in Hw by done. by rewrite (Hnone _ _ Hw) in Ht.
  - intros r ->. by destruct (Hgo r).
  - apply (cs_trace _ _ _ _ Hc).
Qed.

Lemma consistent_unlock n s L ts tr g vs i key' k :
  consistent n (mkConf s L ts tr) g vs → ts !! i = Some (Unlock key' k) →
  ∃ vs', consistent n (mkConf s (delete key' L) (<[i := k]> ts) tr) g vs'.
Proof.
  intros Hc Hi. destruct (task_view _ _ _ _ _ _ Hc Hi) as (v & Hv & [-> (r & -> & Hs)] & Hg).
  pose proof (lookup_lt_Some _ _ _ Hv) as Hlt.
  exists (<[i := VOutK r]> vs). split; cbn.
  - apply Hc.
  - apply Forall2_insert; [apply Hc|done].
  - eapply others_compat; [done|done|by left|done].
  - intros j. rewrite lookup_delete_eq. split; [done|]. intros (w & Hw & Ht).
    destruct (decide (i = j)) as [<-|Hne].
    + rewrite list_lookup_insert_eq in Hw by done. by injection Hw as <-.
    + rewrite list_lookup_insert_ne in Hw by done. destruct Hne. by eapply one_holder.
  - intros r' E. cbn in Hg. congruence.
  - apply (cs_trace _ _ _ _ Hc).
Qed.

Lemma consistent_call n s L ts tr g vs i X (c : Call X) k x :
  consistent n (mkConf s L ts tr) g vs → ts !! i = Some (Upstream c k) → answers X c x →
  ∃ g' vs', consistent n (mkConf s L (<[i := k x]> ts) (tr ++ [(i, Called c (Some x))])) g' vs'.
Proof.
  intros Hc Hi Hx. destruct (task_view _ _ _ _ _ _ Hc Hi) as (v & Hv & (-> & HI & d & Hd & Hs) & Hg).
  cbn in Hg. subst g. pose proof (lookup_lt_Some _ _ _ Hv) as Hlt.
  exists (GPending (d x)), (<[i := VOwn (d x)]> vs). split; cbn.
  - apply HI, (cs_inv _ _ _ _ Hc).
  - apply Forall2_insert; [apply Hc|by apply Hs].
  - apply Forall_lookup. intros j w Hj. destruct (decide (i = j)) as [<-|Hne].
    { rewrite list_lookup_insert_eq in Hj by done. by injection Hj as <-. }
    rewrite list_lookup_insert_ne in Hj by done.
    pose proof (proj1 (Forall_lookup _ _) (cs_compat _ _ _ _ Hc) j w Hj) as Hw.
    destruct (holds w) eqn:Eh; [destruct Hne; by eapply one_holder|]. by destruct w.
  - eapply lock_same; [done|done|]. apply (cs_lock _ _ _ _ Hc).
  - intros r [= <-]. exists i. by apply list_lookup_insert_eq.
  - destruct (cs_trace _ _ _ _ Hc) as [Hall Hn]. cbn in Hn.
    assert (Ha : asked (i, Called c (Some x)) (d x)) by (exists i, X, c, d, x; done).
    split; [apply Forall_app; split; [done|]; by constructor; [eexists|]|].
    exists tr, (i, Called c (Some x)). done.
Qed.

Lemma consistent_step n c c' g vs :
  consistent n c g vs → step T answers c c' → ∃ g' vs', consistent n c' g' vs'.
Proof.
  intros Hc Hs.
  destruct Hs as [s L ts tr i X f k t Hi Ht|s L ts tr i key' k Hi Hf|s L ts tr i key' k Hi
    |s L ts tr i X c k x Hi Hx|s L ts tr i X c k x Hi Hx|s L ts tr i X c k Hi].
  - by eapply consistent_act.
  - destruct (consistent_lock _ _ _ _ _ _ _ _ _ _ Hc Hi Hf) as [vs' ?]. eauto.
  - destruct (consistent_unlock _ _ _ _ _ _ _ _ _ _ Hc Hi) as [vs' ?]. eauto.
  - by eapply consistent_call.
  - by destruct (task_view _ _ _ _ _ _ Hc Hi) as (v & _ & [] & _).
  - by destruct (task_view _ _ _ _ _ _ Hc Hi) as (v & _ & [] & _).
Qed.

(** Dropping a task: a pending answer that is lost reopens the question. *)
Definition reopen (v : view) (g : ghost) : ghost := match v with VOwn _ => GOpen | _ => g end.

Lemma reopened_compat v w g :
  compat v g → compat w g → (holds w = true → holds v = false) → compat w (reopen v g).
Proof.
  intros Hv Hw Hh. destruct v; cbn in *; try done. subst g.
  destruct w; cbn in *; try done; by specialize (Hh eq_refl).
Qed.

Lemma consistent_drop n i d c c' g vs :
  gone = Some d → (∀ r s, Inv (GPending r) s → Inv GOpen s) →
  consistent n c g vs → drop d i c c' → ∃ g' vs', consistent (S n) c' g' vs'.
Proof.
  intros Hgone Hback Hc Hd. destruct Hd as [s L ts tr p Hi _].
  destruct (task_view _ _ _ _ _ _ Hc Hi) as (v & Hv & _ & Hg). pose proof (lookup_lt_Some _ _ _ Hv) as Hlt.
  exists (reopen v g), (<[i := VGone]> vs). split; cbn.
  - pose proof (cs_inv _ _ _ _ Hc) as HI. destruct v; cbn in *; try done. subst g. by eapply Hback.
  - apply Forall2_insert; [apply Hc|]. by left.
  - apply Forall_lookup. intros j w Hj. destruct (decide (i = j)) as [<-|Hne].
    { rewrite list_lookup_insert_eq in Hj by done. by injection Hj as <-. }
    rewrite list_lookup_insert_ne in Hj by done.
    apply reopened_compat; [done|by eapply (proj1 (Forall_lookup _ _) (cs_compat _ _ _ _ Hc))|].
    intros Hw. destruct (holds v) eqn:Ev; [|done]. destruct Hne. by eapply one_holder.
  - intros j. rewrite release_lookup. pose proof (cs_lock _ _ _ _ Hc j) as HL. cbn in HL. rewrite HL.
    destruct (decide (i = j)) as [<-|Hne].
    + rewrite list_lookup_insert_eq by done. split; [by intros [_ ?]|]. by intros (w & [= <-] & ?).
    + rewrite list_lookup_insert_ne by done. by split; [intros [? _]|].
  - intros r Hr. assert (g = GPending r ∧ ∀ r', v ≠ VOwn r') as [-> Hnv] by by destruct v.
    destruct (cs_owner _ _ _ _ Hc r eq_refl) as [j Hj]. exists j.
    rewrite list_lookup_insert_ne; [done|]. intros ->. rewrite Hv in Hj. injection Hj as ->. by destruct (Hnv r).
  - pose proof (cs_trace _ _ _ _ Hc) as Htr. destruct v; cbn in *; try by apply trace_is_weaken.
    subst g. by eapply trace_is_reopened.
Qed.

(** Every interleaving of safe tasks makes at most one call, and one more for
    every task that was dropped; every task that has finished, and was not
    dropped, returned the outcome of the last call's answer. *)
Lemma safe_adequate d s ts drops c :
  gone = Some d → (∀ r s, Inv (GPending r) s → Inv GOpen s) →
  Inv GOpen s → Forall (safe VOut) ts → run_with d T answers (start s ts) drops c →
  Forall (λ ev, ∃ r, asked ev r) (c_trace c) ∧ (length (c_trace c) <= 1 + length drops)%nat ∧
  ∀ i a, c_tasks c !! i = Some (Ret a) →
    a = d ∨ ∃ tr ev r, c_trace c = tr ++ [ev] ∧ asked ev r ∧ a = outcome r.
Proof.
  intros Hgone Hback HI Hts Hr.
  assert (∃ g vs, consistent (length drops) c g vs) as (g & vs & Hc).
  { apply (run_with_invariant d T answers (λ ds c, ∃ g vs, consistent (length ds) c g vs) (start s ts)); [..|exact Hr].
    - exists GOpen, (replicate (length ts) VOut). split; cbn; try done.
      + clear -Hts. induction Hts; cbn; by constructor.
      + apply Forall_replicate. done.
      + intros i. rewrite lookup_empty. split; [done|]. by intros (v & [-> _]%lookup_replicate & ?).
    - intros ds c1 c2 (g & vs & Hc) Hs. by eapply consistent_step.
    - intros ds i c1 c2 (g & vs & Hc) Hd. by eapply consistent_drop. }
  destruct (cs_trace _ _ _ _ Hc) as [Hall Htr]. split; [done|]. split.
  - destruct g; [lia|..]; destruct Htr as (tr0 & ev & -> & Hn & _); rewrite length_app; cbn; lia.
  - intros i a Hi. destruct (task_view _ _ _ _ _ _ Hc Hi) as (v & _ & Hs & Hg). cbn in Hs.
    destruct Hs as [[-> E]|(r & -> & ->)]; [left; congruence|right]. cbn in Hg. subst g.
    destruct Htr as (tr0 & ev & -> & _ & Ha). by exists tr0, ev, r.
Qed.
End rely_guarantee.

(** A request that is safe by itself is safe where it can be dropped. *)
Lemma safe_some {St Call A R} key T answers decode (outcome : R → A) Inv v (p : prog St Call A) :
  safe key T answers decode outcome None Inv v p →
  safe key T answers decode (Some ∘ outcome) (Some None) Inv v (pmap Some p).
Proof.
  revert v. induction p as [a|X f k IH|key' k IH|key' k IH|X c k IH|X c k IH]; intros v; cbn.
  - intros [[_ ?]|(r & -> & ->)]; [done|]. right. by exists r.
  - intros Hs g t s Hg Ht Hi. destruct (Hs g t s Hg Ht Hi) as (g' & v' & ? & ? & ? & ? & Hk).
    exists g', v'. do 4 (split; [done|]). by apply IH.
  - intros [-> [[-> Hk]|(r & -> & Hk)]]; (split; [done|]); [left|right; exists r]; split; auto; by apply IH.
  - intros [-> (r & -> & Hk)]. split; [done|]. exists r. split; [done|]. by apply IH.
  - intros (-> & Hi & d & Hd & Hk). repeat split; [done|]. exists d. split; [done|]. intros x Hx. apply IH. auto.
  - done.
Qed.

(** ** Read-through URLs *)

Section cached_url.
Context {D V : Type} `{Database D} `{Json V} `{Base64} `{Sha2} `{Chrono}.
Context (cfg : Config) (url : string) (ttl : Z) (service : Service) (key_for : string → string)
  (access_failure : PccsError) (load : Store D → string → option AmdKdsRecord)
  (save : Z → AmdKdsRecord → M D unit).
Context (T : Time → Prop) (s0 : Shared D).
Let key := key_for url.

(** The race happens within the failure window and the time to live. *)
Definition close_times : Prop :=
  ∀ t t', T t → T t' → elapsed (t_mono t) (t_mono t') < FAILURE_TTL ∧
                       sat_sub (t_secs t) (t_secs t') < ttl.

(** A non-200 body the cache may remember *)
Definition rememberable (x : res HttpResponse) : Prop :=
  ∀ h, x = Ok h → hr_status h ≠ 200 → Z.of_nat (length (hr_body h)) <= RECENT_BODY_MAX.

Definition url_answers : ∀ X, pcs_call V X → X → Prop := λ X c,
  match c in pcs_call _ X return X → Prop with
  | get_url_for _ _ => rememberable
  | _ => λ _, True
  end.

Definition decode_url : ∀ X, pcs_call V X → option (X → res HttpResponse) := λ X c,
  match c in pcs_call _ X return option (X → res HttpResponse) with
  | get_url_for sv u => if bool_decide (u = url ∧ sv = service) then Some (λ x, x) else None
  | _ => None
  end.

(** What a request answers when the upstream says [x]. *)
Definition relayed (h : HttpResponse) : AmdKdsResponse :=
  {| ar_status := hr_status h; ar_body := hr_body h; ar_content_type := header h "content-type";
     ar_content_disposition := header h "content-disposition"; ar_retry_after := header h "retry-after" |}.

Definition relay (x : res HttpResponse) : res AmdKdsResponse :=
  match x with
  | Err _ => Err access_failure
  | Ok h => if informational_or_redirect (hr_status h) then Err access_failure
            else if hr_status h =? 200 then Ok (without_retry (relayed h)) else Ok (relayed h)
  end.

(** The answer is known to the requests still to come. *)
Definition published (x : res HttpResponse) (s : Shared D) : Prop :=
  match relay x with
  | Err e => load (w_store s) url = None ∧
             ∃ t, T t ∧ w_failures s !! key = Some (t_mono t, RecentErr e)
  | Ok r =>
      if ar_status r =? 200 then
        w_failures s !! key = None ∧
        ∃ rec t, load (w_store s) url = Some rec ∧ T t ∧ ak_fetched_at rec = t_secs t ∧ response_of rec = r
      else load (w_store s) url = None ∧
           ∃ t, T t ∧ w_failures s !! key = Some (t_mono t, RecentResponse r)
  end.

Definition url_inv (g : ghost) (s : Shared D) : Prop :=
  match g with
  | GOpen | GPending _ => s = s0
  | GSettled x => published x s
  end.

Context (Hmode : mode cfg = Lazy) (Hclose : close_times).
Context (Hload : load (w_store s0) url = None) (Hfail : w_failures s0 !! key = None)
  (Hsize : Z.of_nat (size (w_failures s0)) < RECENT_OUTCOMES_MAX).
Context (Hsave : ∀ now rec, ak_url rec = url →
  ∃ st, save now rec (w_store s0) = (st, Ok ()) ∧ load st url = Some rec).

Notation safe := (safe key T url_answers decode_url relay None url_inv).

Lemma remember_in_fresh o now :
  remember_in key o now (w_failures s0) = <[key := (now, o)]> (w_failures s0).
Proof. unfold remember_in. rewrite (proj2 (Z.leb_gt _ _)) by done. done. Qed.

(** Publishing an error or a non-200 answer *)
Lemma safe_remember {B} x o (g : unit → prog (Shared D) (pcs_call V) B)
    (k : B → prog (Shared D) (pcs_call V) (res AmdKdsResponse)) :
  too_large o = false →
  (∀ t, T t → published x (set_failures s0 (<[key := (t_mono t, o)]> (w_failures s0)))) →
  safe (VInK x) (pbind (g ()) k) → safe (VOwn x) (pbind (pbind (remember key o) g) k).
Proof.
  intros Ho Hp Hk. unfold remember. rewrite Ho. cbn. intros gh t s -> Ht ->.
  exists (GSettled x), (VInK x). rewrite remember_in_fresh. split; [right; eauto|]. cbn. auto.
Qed.

Lemma safe_done x : safe (VInK x) (Unlock key (Ret (relay x))).
Proof. cbn. split; [done|]. exists x. split; [done|]. right. exists x. done. Qed.

(** The answer's handling, by the task that owns it *)
Lemma safe_answer x :
  rememberable x →
  safe (VOwn x) (pbind ((note key (map_err x (λ _, access_failure)) : CM HttpResponse) ≫= λ response,
                   cached_url_answer url key access_failure save response)
                   (λ a, Unlock key (Ret a))).
Proof.
  intros Hrem. destruct x as [h|e]; cbn [map_err note].
  2:{ apply (safe_remember (Err e) (RecentErr access_failure)); [done| |apply safe_done].
      intros t Ht. split; [done|]. exists t. split; [done|]. apply lookup_insert_eq. }
  change (safe (VOwn (Ok h)) (pbind (cached_url_answer url key access_failure save h)
    (λ a, Unlock key (Ret a)))).
  pose proof (safe_done (Ok h)) as Hdone. unfold cached_url_answer. cbv zeta.
  assert (Hrel : relay (Ok h) = if informational_or_redirect (hr_status h) then Err access_failure
    else if hr_status h =? 200 then Ok (without_retry (relayed h)) else Ok (relayed h)) by done.
  destruct (informational_or_redirect (hr_status h)) eqn:Ei.
  { rewrite Hrel in Hdone. apply (safe_remember (Ok h) (RecentErr access_failure)); [done| |done].
    intros t Ht. unfold published. rewrite Hrel. split; [done|]. exists t. split; [done|]. apply lookup_insert_eq. }
  destruct (hr_status h =? 200) eqn:E2; cbn [negb].
  2:{ rewrite Hrel in Hdone. apply (safe_remember (Ok h) (RecentResponse (relayed h))); [| |done].
      - apply Z.ltb_ge. apply (Hrem h eq_refl). by apply Z.eqb_neq.
      - intros t Ht. unfold published. rewrite Hrel. cbn [ar_status relayed]. rewrite E2.
        split; [done|]. exists t. split; [done|]. apply lookup_insert_eq. }
  cbn. intros g t s -> Ht ->. exists (GPending (Ok h)), (VOwn (Ok h)). split; [by left|].
  split; [done|]. split; [done|]. split; [done|].
  intros g t' s -> Ht' ->. exists (GSettled (Ok h)), (VInK (Ok h)). split; [right; eauto|].
  split; [done|]. split; [done|].
  match goal with |- context [save ?n ?r (w_store s0)] => destruct (Hsave n r eq_refl) as (st & Es & El); rewrite Es end.
  apply Z.eqb_eq in E2. cbn. split.
  - unfold published. rewrite Hrel. cbn. rewrite E2. cbn. split; [done|].
    do 2 eexists. split; [exact El|]. cbn. split; [exact Ht|]. split; [done|].
    unfold response_of, without_retry, relayed. cbn. by rewrite E2.
  - split; [done|]. exists (Ok h). split; [done|]. right. exists (Ok h). split; [done|].
    rewrite Hrel. unfold response_of, without_retry, relayed. cbn. by rewrite E2.
Qed.

(** What a request finds once something is published *)
Lemma published_err x e s t :
  relay x = Err e → published x s → T t →
  load (w_store s) url = None ∧
  ∃ at_, w_failures s !! key = Some (at_, RecentErr e) ∧ elapsed (t_mono t) at_ < FAILURE_TTL.
Proof.
  intros Hx Hp Ht. unfold published in Hp. rewrite Hx in Hp. destruct Hp as [Hl (t' & Ht' & Hf)].
  split; [done|]. exists (t_mono t'). split; [done|]. by apply Hclose.
Qed.

Lemma published_other x r s t :
  relay x = Ok r → (ar_status r =? 200) = false → published x s → T t →
  load (w_store s) url = None ∧
  ∃ at_, w_failures s !! key = Some (at_, RecentResponse r) ∧ elapsed (t_mono t) at_ < FAILURE_TTL.
Proof.
  intros Hx Hr Hp Ht. unfold published in Hp. rewrite Hx, Hr in Hp. destruct Hp as [Hl (t' & Ht' & Hf)].
  split; [done|]. exists (t_mono t'). split; [done|]. by apply Hclose.
Qed.

Lemma published_200 x r s t :
  relay x = Ok r → (ar_status r =? 200) = true → published x s → T t →
  w_failures s !! key = None ∧
  ∃ rec, load (w_store s) url = Some rec ∧ (sat_sub (t_secs t) (ak_fetched_at rec) <? ttl) = true ∧
         response_of rec = r.
Proof.
  intros Hx Hr Hp Ht. unfold published in Hp. rewrite Hx, Hr in Hp.
  destruct Hp as [Hf (rec & t' & Hl & Ht' & Ef & Er)]. split; [done|]. exists rec. rewrite Ef.
  split; [done|]. split; [|done]. apply Z.ltb_lt. by apply Hclose.
Qed.

Ltac same_ghost g v := exists g, v; (split; [by left|]); (split; [done|]); (split; [done|]).

Let locked : @CM D V AmdKdsResponse := cached_url_locked url ttl service key access_failure load save.
Let body : prog (Shared D) (pcs_call V) (res AmdKdsResponse) := pbind locked (λ a, Unlock key (Ret a)).

(** Under the lock, after something other than an error was published *)
Lemma safe_body_known x r : relay x = Ok r → safe (VInK x) body.
Proof.
  intros Hx. cbn. intros g t s Hg Ht Hs. cbn in Hg. subst g. cbn in Hs.
  destruct (ar_status r =? 200) eqn:Er.
  - destruct (published_200 x r s t Hx Er Hs Ht) as [Hf _]. rewrite Hf. cbn.
    same_ghost (GSettled x) (VInK x). split; [done|]. clear s t Ht Hs Hf.
    intros g t s Hg Ht Hs. cbn in Hg. subst g. same_ghost (GSettled x) (VInK x). split; [done|].
    intros g t' s' Hg Ht' Hs'. cbn in Hg. subst g. same_ghost (GSettled x) (VInK x). split; [done|].
    destruct (published_200 x r s' t Hx Er Hs' Ht) as (_ & rec & -> & -> & ->). cbn.
    split; [done|]. exists x. split; [done|]. right. exists x. by rewrite Hx.
  - destruct (published_other x r s t Hx Er Hs Ht) as (_ & at_ & -> & He). rewrite (proj2 (Z.ltb_lt _ _) He).
    same_ghost (GSettled x) (VInK x). split; [done|]. cbn.
    split; [done|]. exists x. split; [done|]. right. exists x. by rewrite Hx.
Qed.

(** Under the lock, with nothing published and nobody fetching *)
Lemma safe_body_open : safe VInOpen body.
Proof.
  cbn. intros g t s Hg Ht Hs. cbn in Hg. subst g. cbn in Hs. subst s. rewrite Hfail.
  same_ghost (GOpen (R := res HttpResponse)) (VInOpen (R := res HttpResponse)). split; [done|]. cbn. clear t Ht.
  intros g t s Hg Ht Hs. cbn in Hg. subst g. cbn in Hs. subst s. same_ghost (GOpen (R := res HttpResponse)) (VInOpen (R := res HttpResponse)). split; [done|].
  intros g t' s Hg Ht' Hs. cbn in Hg. subst g. cbn in Hs. subst s. same_ghost (GOpen (R := res HttpResponse)) (VInOpen (R := res HttpResponse)). split; [done|].
  rewrite Hload. cbn. split; [done|]. split; [done|]. exists (λ x, x).
  rewrite bool_decide_true by done. split; [done|]. intros x Hx. by apply safe_answer.
Qed.

Lemma safe_miss : safe VOut (with_key_lock key locked).
Proof.
  cbn. split; [done|]. left. split; [done|]. intros g t s Hg Ht Hs. destruct g as [|r|x].
  - cbn in Hs. subst s. rewrite Hfail. same_ghost (GOpen (R := res HttpResponse)) (VInOpen (R := res HttpResponse)). split; [done|]. apply safe_body_open.
  - by destruct (Hg r).
  - cbn in Hs. destruct (relay x) as [r|e] eqn:Hx.
    + assert (Hbody : safe (VInK x) body) by by apply (safe_body_known x r).
      destruct (ar_status r =? 200) eqn:Er.
      * destruct (published_200 x r s t Hx Er Hs Ht) as [-> _].
        same_ghost (GSettled x) (VInK x). by split.
      * destruct (published_other x r s t Hx Er Hs Ht) as (_ & at_ & -> & He).
        rewrite (proj2 (Z.ltb_lt _ _) He). same_ghost (GSettled x) (VInK x). by split.
    + destruct (published_err x e s t Hx Hs Ht) as (_ & at_ & -> & He).
      rewrite (proj2 (Z.ltb_lt _ _) He). same_ghost (GSettled x) (VInK x). split; [done|]. cbn.
      split; [done|]. exists x. split; [done|]. right. exists x. by rewrite Hx.
Qed.

Lemma safe_get_cached_url :
  safe VOut (get_cached_url cfg url ttl service key_for access_failure load save).
Proof.
  pose proof safe_miss as Hmiss. unfold get_cached_url. cbv zeta. rewrite (bool_decide_true _ Hmode).
  fold key. cbn. intros g t s _ Ht Hs. same_ghost g (VOut (R := res HttpResponse)). split; [done|]. clear s Hs.
  intros g' t' s _ Ht' Hs.
  assert (Hnone : load (w_store s) url = None → ∃ g'' v', moves VOut g' g'' ∧ compat v' g'' ∧ holds v' = false ∧
      url_inv g'' s ∧ safe v' (with_key_lock key locked)).
  { intros _. same_ghost g' (VOut (R := res HttpResponse)). by split. }
  destruct g' as [|r|x]; cbn in Hs.
  - subst s. rewrite Hload. by apply Hnone.
  - subst s. rewrite Hload. by apply Hnone.
  - destruct (relay x) as [r|e] eqn:Hx; [destruct (ar_status r =? 200) eqn:Er|].
    + destruct (published_200 x r s t Hx Er Hs Ht) as (_ & rec & -> & Hfr & Hrr). rewrite Hfr.
      same_ghost (GSettled x) (VOutK x). split; [done|]. cbn. right. exists x. split; [done|]. by rewrite Hrr.
    + destruct (published_other x r s t Hx Er Hs Ht) as [Hl _]. rewrite Hl. by apply Hnone.
    + destruct (published_err x e s t Hx Hs Ht) as [Hl _]. rewrite Hl. by apply Hnone.
Qed.
End cached_url.

(** ** The claim *)

Section single_flight.
Context {D V : Type} `{DatabaseLaws D} `{Json V} `{Base64} `{Sha2} `{Chrono} `{SerdeLaws AmdKdsRecord}.

Lemma put_bounded_succeeds {X} `{Serde X} (s : Store D) now kind entry (val : X) :
  healthy (db s) → is_Some (to_vec val) → ∃ s', put_bounded now kind entry val s = (s', Ok ()).
Proof.
  intros Hh [bytes Eb]. rewrite put_bounded_steps, Eb. cbn zeta. destruct Hh as (Hg & Hw & Hi).
  destruct (Hg (fifo_pos_key entry)) as [old ->].
  destruct (healthy_batch s kind entry bytes (write_time now s) old) as [b ->];
    [by repeat split|]. unfold write_batch. cbn [db set_last]. destruct (Hw b) as [d ->]. by eexists.
Qed.

(** A race for one URL, whatever the kind *)
Lemma url_single_flight cfg url ttl service key_for e (load : Store D → string → option AmdKdsRecord)
    (save : Z → AmdKdsRecord → M D unit) (T : Time → Prop) (s0 : Shared D) ts drops c :
  mode cfg = Lazy → close_times ttl T → load (w_store s0) url = None →
  w_failures s0 !! key_for url = None → Z.of_nat (size (w_failures s0)) < RECENT_OUTCOMES_MAX →
  (∀ now rec, ak_url rec = url → ∃ st, save now rec (w_store s0) = (st, Ok ()) ∧ load st url = Some rec) →
  Forall (λ p, p = get_cached_url cfg url ttl service key_for e load save) ts →
  run_with None T (url_answers (V := V)) (start s0 (map (pmap Some) ts)) drops c →
  (length (c_trace c) <= 1 + length drops)%nat ∧
  Forall (λ ev, ∃ i x, ev = (i, Called (get_url_for service url) (Some x))) (c_trace c) ∧
  ∀ i a, c_tasks c !! i = Some (Ret (Some a)) →
    ∃ tr j x, c_trace c = tr ++ [(j, Called (get_url_for service url) (Some x))] ∧ a = relay e x.
Proof.
  intros Hm Hc Hl Hf Hs Hsv Hts Hr.
  assert (Hasked : ∀ ev x, asked (Call := pcs_call V) (decode_url url service) ev x →
    ∃ i, ev = (i, Called (get_url_for service url) (Some x))).
  { intros ev x (i & X & call & d & y & -> & Hd & <-). destruct call; try discriminate Hd. cbn in Hd.
    case_bool_decide as Eb; [|discriminate Hd]. destruct Eb as [-> ->]. injection Hd as <-. by exists i. }
  destruct (safe_adequate (key_for url) T url_answers (decode_url url service) (Some ∘ relay e) (Some None)
    (url_inv url key_for e load T s0) None s0 (map (pmap Some) ts) drops c) as (Hall & Hlen & Hres); try done.
  { apply list.Forall_forall. intros p (q & -> & Hq)%list_elem_of_fmap. apply safe_some.
    rewrite (proj1 (list.Forall_forall _ _) Hts q Hq). by apply safe_get_cached_url. }
  split; [done|]. split.
  - eapply list.Forall_impl; [exact Hall|]. intros ev [x Hx]. destruct (Hasked _ _ Hx) as [i ->]. eauto.
  - intros i a Hi. destruct (Hres i _ Hi) as [?|(tr & ev & x & -> & Hx & [= ->])]; [done|].
    destruct (Hasked _ _ Hx) as [j ->]. by exists tr, j, x.
Qed.

(** C4: Concurrent misses share one upstream request.  However many requests for
    one AMD KDS document arrive together, under whatever spelling of its path
    and query, in whatever interleaving, and whichever clients disconnect in
    the middle, the upstream is asked once, and at most once more for every
    client that disconnected, always for that document's canonical URL; and
    every request that has been answered answered what the last of those
    answers says: the document, the relayed non-200 response, or the access
    failure.  (Within the time to live and the one second for which a failure
    is remembered, on a working database, and for a non-200 body that is small
    enough to be remembered.) *)
Theorem amd_kds_single_flight cfg (s0 : Shared D) (T : Time → Prop) path_and_query spellings drops c :
  let url := join_host_path (amd_kds_uri cfg) path_and_query in
  mode cfg = Lazy → (∀ d : D, healthy d) → (∀ rec : AmdKdsRecord, is_Some (to_vec rec)) →
  Forall (λ pq, canonicalize_amd_kds pq = Ok path_and_query) spellings →
  Records.get_amd_kds (w_store s0) url = None → w_failures s0 !! amd_kds url = None →
  Z.of_nat (size (w_failures s0)) < RECENT_OUTCOMES_MAX →
  close_times (amd_kds_cache_ttl_secs cfg) T →
  run_with None T (url_answers (V := V))
    (start s0 (map (pmap Some) (map (Cache.get_amd_kds cfg) spellings))) drops c →
  (length (c_trace c) <= 1 + length drops)%nat ∧
  Forall (λ ev, ∃ i x, ev = (i, Called (get_url_for AmdKds url) (Some x))) (c_trace c) ∧
  ∀ i a, c_tasks c !! i = Some (Ret (Some a)) →
    ∃ tr j x, c_trace c = tr ++ [(j, Called (get_url_for AmdKds url) (Some x))] ∧ a = relay AMD_KDS_ACCESS_FAILURE x.
Proof.
  intros url Hm Hh Hser Hsp Hl Hf Hs Hc Hr. apply (url_single_flight cfg url (amd_kds_cache_ttl_secs cfg) AmdKds amd_kds AMD_KDS_ACCESS_FAILURE
    Records.get_amd_kds put_amd_kds T s0 (map (Cache.get_amd_kds cfg) spellings)); try done.
  - intros now rec Hu.
    destruct (put_bounded_succeeds (w_store s0) now AMD_KDS (amd_kds (ak_url rec)) rec (Hh _) (Hser rec))
      as [st Est]. exists st. split; [exact Est|].
    destruct (proj1 (Hh (db st)) (gs_key (get := Records.get_amd_kds) (put := put_amd_kds now) url)) as [v Ev].
    refine (gs_get_put (get := Records.get_amd_kds) (put := put_amd_kds now) (w_store s0) st rec url v Est _ Ev).
    cbn. by apply String.eqb_eq.
  - apply list.Forall_forall. intros p (pq & -> & Hpq)%list_elem_of_fmap.
    pose proof (proj1 (list.Forall_forall _ _) Hsp pq Hpq) as E. unfold Cache.get_amd_kds. by rewrite E.
Qed.
End single_flight.

Module FlightSample.
Import MapDb Codec Concrete CollateralSample CacheSample.

(** Every upstream call but the fetch of a document fails. *)
Definition one_answer (X : Type) (call : pcs_call jvalue X) : X :=
  match call in pcs_call _ X return X with
  | get_url_for _ _ => Ok {| hr_status := 200; hr_header := λ _, None; hr_body := [1; 2; 3] |}
  | _ => Err INTERNAL_ERROR
  end.

(** Three requests, in two spellings of one document.  The first asks the
    upstream while the others wait for the lock; its client leaves before the
    answer is stored; the second asks again, the third finds its answer. *)
Definition race_start : conf (Shared (gmap string string)) (pcs_call jvalue) (option (res AmdKdsResponse)) :=
  start empty_shared (map (pmap Some) (map (Cache.get_amd_kds (D := gmap string string) (V := jvalue) (config Lazy true))
    ["/vcek/v1/Milan/abc123?blSPL=03&ucodeSPL=115"; "/vcek/v1/Milan/abc123?ucodeSPL=115&blSPL=03";
     "/vcek/v1/Milan/abc123?blSPL=03&ucodeSPL=115"]%string)).
Definition interleaving : list (move) :=
  map Turn (repeat 1 2 ++ repeat 2 2 ++ repeat 0 8)%nat ++ [Leave 0%nat] ++ map Turn (repeat 1 16)%nat ++ map Turn (repeat 2 16)%nat.
Definition race_end := play None (at_second 5) one_answer interleaving [] race_start.
End FlightSample.

Import MapDb Codec Concrete CollateralSample CacheSample FlightSample.

Lemma amd_kds_single_flight_witness :
  race_end.1 = [0%nat] ∧ length (c_trace race_end.2) = 2%nat ∧
  (∃ a b, c_tasks race_end.2 = [Ret None; Ret (Some a); Ret (Some b)]) ∧
  (length (c_trace race_end.2) <= 1 + length race_end.1)%nat ∧
  ∀ i a, c_tasks race_end.2 !! i = Some (Ret (Some a)) →
    ∃ tr j x, c_trace race_end.2 = tr ++
        [(j, Called (get_url_for AmdKds "https://kdsintf.amd.com/vcek/v1/Milan/abc123?blSPL=03&ucodeSPL=115") (Some x))] ∧
      a = relay AMD_KDS_ACCESS_FAILURE x.
Proof.
  split; [by vm_compute|]. split; [by vm_compute|]. split; [do 2 eexists; vm_compute; reflexivity|].
  destruct (amd_kds_single_flight (config Lazy true) empty_shared (λ t, t = at_second 5)
    "/vcek/v1/Milan/abc123?blSPL=03&ucodeSPL=115"
    ["/vcek/v1/Milan/abc123?blSPL=03&ucodeSPL=115"; "/vcek/v1/Milan/abc123?ucodeSPL=115&blSPL=03";
     "/vcek/v1/Milan/abc123?blSPL=03&ucodeSPL=115"]%string race_end.1 race_end.2) as (Hl & _ & Ha);
    try reflexivity; [..|by split].
  - apply FifoSpec.Sample.map_healthy.
  - intros rec. by eexists.
  - repeat constructor; vm_compute; reflexivity.
  - intros t t' -> ->. vm_compute. done.
  - apply play_runs; [done| |apply run_refl]. intros X []; cbn; try done. intros h [= <-]. done.
Defined.
