(* ===== verification/DisconnectSpec.v ===== *)
(** * DisconnectSpec: the whole service with clients that disconnect

    [Disconnect] applied to the requests of [RoutesSpec.service], which runs
    from the router down to single HTTP exchanges. *)

From Stdlib Require Import ZArith Lia.
From stdpp Require Import base list strings option gmap relations.
From S2P Require Import Prelude Text Errors Validate Env PckCert Selection Ocsp Keys Database Fifo Records Platforms Registry Collateral Urls Prog Disconnect Cache Pcs Pool Refresh CacheSpec PcsSpec Routes RoutesSpec.

#[local] Set Default Proof Using "Type*".

Section disconnects.
Context {D V : Type} `{Database D} `{Json V} `{Base64} `{Sha2} `{Chrono} `{HttpSyntax} `{PercentEncoding} `{ServiceEnv D V}.
Context `{Serde PckCertRecord} `{Serde PlatformPool} `{Serde (TcbRecord V)} `{Serde (IdentityRecord V)}
  `{Serde PckCrlRecord} `{Serde (list Z)} `{Serde CrlRecord} `{Serde AmdKdsRecord}
  `{Serde NvidiaOcspRecord} `{Serde RegisteredPlatform} `{Serde AppraisalList}.
Context `{!HttpSyntaxLaws} (cfg : Config) (settings : Settings) (cl : Client).

(** A request, with its id, that its client can abandon *)
Definition connection (r : string * HttpIn V) : prog (Shared D) http_call (option Response) :=
  pmap Some (service cfg settings cl r.1 r.2).

(** What a client that stays is sent *)
Definition answered (r : string * HttpIn V) (o : option Response) : Prop :=
  ∃ response, o = Some response ∧ decorated cfg settings r.1 r.2 response.

(** A request for [/refresh] *)
Definition refreshes (r : string * HttpIn V) : Prop := ∃ g, target cfg r.2 = Some (g, refresh_e).

Lemma connection_locks r : locks None None (connection r).
Proof. apply (locks_bind _ None); [apply locks_over_http, locks_app|done]. Qed.

Lemma connection_returns r : header_value_ok r.1 = true → returns (answered r) (connection r).
Proof.
  intros Hid. eapply returns_bind; [by apply returns_over_http, app_decorated|].
  intros response Hr. by exists response.
Qed.

End disconnects.

(** ** Two requests for one record, the first client leaving *)

Module DisconnectSample.
Import MapDb Codec Concrete CollateralSample CacheSample ServiceSample.

Definition sample_requests : list (string * HttpIn jvalue) := [("id1", tcb_request); ("id2", tcb_request)]%string.

(** Every exchange fails. *)
Definition unreachable (X : Type) (call : http_call X) : X :=
  match call with exchange _ => TransportError | sleep _ => tt end.

(** The first request holds the key lock and has begun to ask; the second waits. *)
Definition moves : list move :=
  map Turn (repeat 0 8 ++ repeat 1 8)%nat ++ [Leave 0%nat] ++ map Turn (repeat 1 60)%nat.
Definition ended := play None (at_second 0) unreachable moves []
  (start empty_shared (map (connection (D := gmap string string) (config Lazy true) settings sample_client) sample_requests)).
End DisconnectSample.

Import MapDb Codec Concrete CollateralSample CacheSample ServiceSample DisconnectSample.

