(* ===== verification/Rely.v ===== *)
(** * Rely: what a program does to the shared state while others act on it

    [ensures] of [Prog] is about what a program returns.  [wp] also follows the
    shared state: before each action the other requests may take it from [s]
    to any [s'] with [R s s'], and the postcondition is about the state the
    program leaves, its upstream calls and its result. *)

From Stdlib Require Import ZArith Lia.
From stdpp Require Import base list strings option gmap relations.
From S2P Require Import Prelude Text Errors Validate Env PckCert Selection Ocsp Keys Database Fifo Records Platforms Registry Urls Prog Cache Pcs.

#[local] Set Default Proof Using "Type*".

Section wp.
Context {St : Type} {Call : Type → Type}.
Context (R : St → St → Prop) (U : ∀ X, Call X → X → Prop).

Fixpoint wp {A} (p : prog St Call A) (s : St) (Q : St → list (event Call) → A → Prop) : Prop :=
  match p with
  | Ret a => Q s [] a
  | Act f k => ∀ t s', R s s' → wp (k (snd (f t s'))) (fst (f t s')) Q
  | Lock _ k | Unlock _ k => wp k s Q
  | @Upstream _ _ _ X c k => ∀ x, U X c x → wp (k x) s (λ s' tr a, Q s' (Called c (Some x) :: tr) a)
  | @Timed _ _ _ X c k =>
      wp (k None) s (λ s' tr a, Q s' (Called c None :: tr) a) ∧
      ∀ x, U X c x → wp (k (Some x)) s (λ s' tr a, Q s' (Called c (Some x) :: tr) a)
  end.

Lemma wp_mono {A} (p : prog St Call A) s Q Q' :
  wp p s Q → (∀ s' tr a, Q s' tr a → Q' s' tr a) → wp p s Q'.
Proof.
  revert s Q Q'. induction p as [a|X f k IH|key k IH|key k IH|X c k IH|X c k IH]; intros s Q Q' Hp Hq; cbn in *.
  - auto.
  - intros t s' Hs. eapply IH; [by apply Hp|done].
  - by eapply IH.
  - by eapply IH.
  - intros x Hx. eapply IH; [by apply Hp|]. cbn. auto.
  - destruct Hp as [Hn Hs]. split; [eapply IH; [exact Hn|]; cbn; auto|].
    intros x Hx. eapply IH; [by apply Hs|]. cbn. auto.
Qed.

Lemma wp_bind {A B} (p : prog St Call A) (g : A → prog St Call B) s Q :
  wp p s (λ s' tr a, wp (g a) s' (λ s'' tr' b, Q s'' (tr ++ tr') b)) → wp (pbind p g) s Q.
Proof.
  revert s Q. induction p as [a|X f k IH|key k IH|key k IH|X c k IH|X c k IH]; intros s Q Hp; cbn in *; auto.
  destruct Hp as [Hn Hs]. split; auto.
Qed.

Lemma wp_bind_inv {A B} (p : prog St Call A) (g : A → prog St Call B) s Q :
  wp (pbind p g) s Q → wp p s (λ s' tr a, wp (g a) s' (λ s'' tr' b, Q s'' (tr ++ tr') b)).
Proof.
  revert s Q. induction p as [a|X f k IH|key k IH|key k IH|X c k IH|X c k IH]; intros s Q Hp; cbn in *; auto.
  - intros x Hx. by apply (IH x s (λ s' tr a, Q s' (Called c (Some x) :: tr) a)), Hp.
  - destruct Hp as [Hn Hs]. split; [by apply (IH None s (λ s' tr a, Q s' (Called c None :: tr) a))|].
    intros x Hx. by apply (IH (Some x) s (λ s' tr a, Q s' (Called c (Some x) :: tr) a)), Hs.
Qed.

(** First [p], without a call; then [g]. *)
Lemma wp_quiet {A B} (p : prog St Call A) (g : A → prog St Call B) s Q (Q' : St → A → Prop) :
  wp p s (λ s' tr a, tr = [] ∧ Q' s' a) → (∀ s' a, Q' s' a → wp (g a) s' Q) → wp (pbind p g) s Q.
Proof. intros Hp Hg. apply wp_bind, (wp_mono _ _ _ _ Hp). intros s' tr a [-> Ha]. cbn. auto. Qed.

Lemma wp_pmap {A B} (f : A → B) (p : prog St Call A) s Q :
  wp p s (λ s' tr a, Q s' tr (f a)) → wp (pmap f p) s Q.
Proof. intros Hp. apply wp_bind, (wp_mono _ _ _ _ Hp). intros s' tr a. cbn. by rewrite app_nil_r. Qed.

(** An environment that keeps to [R] and [U] *)
Record conforms (e : Env St Call) : Prop := {
  cf_others n s : R s (e_others e n s);
  cf_answer n X (c : Call X) : U X c (e_answer e X c n)
}.

Lemma wp_run {A} e (p : prog St Call A) n s Q :
  conforms e → wp p s Q → Q (run e p n s).1.1 (run e p n s).1.2 (run e p n s).2.
Proof.
  intros He. revert n s Q.
  induction p as [a|X f k IH|key k IH|key k IH|X c k IH|X c k IH]; intros n s Q Hp; cbn in *.
  - done.
  - specialize (Hp (e_time e n) (e_others e n s) (cf_others _ He n s)). destruct (f _ _) as [s' x]. by apply IH.
  - by apply IH.
  - by apply IH.
  - specialize (IH _ (S n) s _ (Hp _ (cf_answer _ He n X c))). by destruct (run _ _ _ _) as [[s' tr] a].
  - destruct Hp as [Hn Hs]. destruct (e_elapsed e n).
    + specialize (IH None (S n) s _ Hn). by destruct (run _ _ _ _) as [[s' tr] a].
    + specialize (IH _ (S n) s _ (Hs _ (cf_answer _ He n X c))). by destruct (run _ _ _ _) as [[s' tr] a].
Qed.
End wp.

(** Less interference than a program copes with *)
Lemma wp_rely {St Call A} (R R' : St → St → Prop) U (p : prog St Call A) s Q :
  (∀ s s', R' s s' → R s s') → wp R U p s Q → wp R' U p s Q.
Proof.
  intros HR. revert s Q. induction p as [a|X f k IH|key k IH|key k IH|X c k IH|X c k IH]; intros s Q Hp; cbn in *; auto.
  destruct Hp as [Hn Hs]. split; auto.
Qed.

(** A bind of the cache's programs *)
Lemma wp_try {D V A B} R U (c : @CM D V A) (f : A → @CM D V B) s Q :
  wp R U c s (λ s' tr r, match r with
    | Ok a => wp R U (f a) s' (λ s'' tr' b, Q s'' (tr ++ tr') b)
    | Err e => Q s' tr (Err e) end) →
  wp R U (c ≫= f) s Q.
Proof.
  intros Hc. apply wp_bind, (wp_mono _ _ _ _ _ _ Hc). intros s' tr [a|e]; [done|]. cbn. by rewrite app_nil_r.
Qed.

(** Programs whose upstream calls are carried out over HTTP *)
Section over_http.
Context {St V : Type} `{Json V} `{Base64} `{HttpSyntax} `{PercentEncoding}.
Context (cl : Client) (R : St → St → Prop) (U : ∀ X, http_call X → X → Prop).

Lemma wp_over_bind {A B} (p : prog St (pcs_call V) A) (g : A → prog St (pcs_call V) B) s Q :
  wp R U (over_http cl p) s (λ s' tr a, wp R U (over_http cl (g a)) s' (λ s'' tr' b, Q s'' (tr ++ tr') b)) →
  wp R U (over_http cl (pbind p g)) s Q.
Proof.
  revert s Q. induction p as [a|X f k IH|key k IH|key k IH|X c k IH|X c k IH]; intros s Q Hp; cbn in *; auto;
    apply wp_bind; apply wp_bind_inv in Hp; (eapply wp_mono; [exact Hp|]); intros s' tr x Hx; apply IH;
    (eapply wp_mono; [exact Hx|]); intros s'' tr' a Ha; (eapply wp_mono; [exact Ha|]); intros; by rewrite app_assoc.
Qed.

Lemma wp_over_pmap {A B} (f : A → B) (p : prog St (pcs_call V) A) s Q :
  wp R U (over_http cl p) s (λ s' tr a, Q s' tr (f a)) → wp R U (over_http cl (pmap f p)) s Q.
Proof. intros Hp. apply wp_over_bind, (wp_mono _ _ _ _ _ _ Hp). intros s' tr a. cbn. by rewrite app_nil_r. Qed.
End over_http.
