(* ===== verification/ChainSpec.v ===== *)
(** * ChainSpec: one node fetching from another (src/src/pcs.rs against
    src/src/routes and src/src/cache.rs)

    A node whose upstream is another PCCS asks it through [PcsClient] and is
    answered by the whole service of [Routes.app].  [received] is the request
    as it arrives, [delivers] what hyper makes of a response on its way back.
    The other node may be doing anything else, as long as it keeps the record
    that is asked for. *)

From Stdlib Require Import ZArith Lia.
From stdpp Require Import base list strings option gmap relations.
From S2P Require Import Prelude Text Errors Validate Env PckCert Selection Ocsp Keys Database Fifo Records Platforms Registry Collateral Urls Prog Cache Pcs Pool Refresh CacheSpec PcsSpec Routes RoutesSpec Rely.

Local Open Scope Z_scope.
#[local] Set Default Proof Using "Type*".

(** ** Programs *)

Lemma ensures_pmap {St Call A B} T I U (f : A → B) (p : prog St Call A) tr
    (Q : list (event Call) → A → Prop) (Q' : list (event Call) → B → Prop) :
  ensures T I U p tr Q → (∀ tr a, Q tr a → Q' tr (f a)) → ensures T I U (pmap f p) tr Q'.
Proof. intros Hp Hq. by apply (ensures_bind _ _ _ _ _ _ Q). Qed.

(** ** Text *)

(** A text without the separator [c] has no occurrence of a pattern that starts with it. *)
Lemma contains_free c p s : free_of c s → contains (String c p) s = false.
Proof.
  unfold free_of. induction s as [|d s IH]; [done|]. cbn [str_all]. intros [Hd Hs]%andb_true_iff.
  apply negb_true_iff in Hd. cbn [contains]. rewrite (IH Hs), orb_false_r.
  unfold starts_with. cbn [strip_prefix]. by rewrite Hd.
Qed.

(** An occurrence of ["/v3/"] in [s ++ t], where [s] ends with a slash, is in
    [s], in [t], or across the boundary. *)
Lemma contains_v3_app s t :
  contains "/v3/" (s ++ "/") = false → starts_with "v3/" t = false → contains "/v3/" t = false →
  contains "/v3/" ((s ++ "/") ++ t) = false.
Proof.
  intros Hs Ht Hc. induction s as [|c s IH].
  { change (("" ++ "/") ++ t)%string with (String "/" t). cbn [contains]. rewrite Hc, orb_false_r.
    unfold starts_with in *. cbn [strip_prefix]. cbn. exact Ht. }
  change ((String c s ++ "/") ++ t)%string with (String c ((s ++ "/") ++ t)).
  change (String c s ++ "/")%string with (String c (s ++ "/")) in Hs. cbn [contains] in Hs |- *.
  apply orb_false_iff in Hs as [Hp Hs]. rewrite (IH Hs), orb_false_r.
  destruct (starts_with "/v3/" (String c ((s ++ "/") ++ t))) eqn:E; [|done].
  apply starts_with_spec in E as [r Hr]. cbn in Hr. injection Hr as -> Hr.
  exfalso. clear IH Hs Hc.
  destruct s as [|c1 [|c2 [|c3 s]]]; cbn in Hr; injection Hr; intros; subst; try done.
Qed.

Lemma hex_encode_length l : String.length (hex_encode l) = (2 * length l)%nat.
Proof. induction l as [|b l IH]; [done|]. rewrite hex_encode_cons. cbn. rewrite IH. lia. Qed.

Lemma hex_encode_hexdigits l : Forall is_byte l → str_all is_hexdigit (hex_encode l) = true.
Proof.
  induction 1 as [|b l Hb _ IH]; [done|]. rewrite hex_encode_cons, str_all_app, IH, andb_true_r.
  destruct (nibbles b Hb) as [N1 N2]. destruct (hex_digit_lower_val _ N1) as (_ & _ & E1), (hex_digit_lower_val _ N2) as (_ & _ & E2).
  unfold hex2_lower. cbn. by rewrite E1, E2.
Qed.

(** The root CA CRL goes out as hexadecimal text and is read back. *)
Lemma hex_or_raw_encode l : Forall is_byte l → l ≠ [] → hex_or_raw (bytes (hex_encode l)) = l.
Proof.
  intros Hb Hne. pose proof (hex_encode_hexdigits l Hb) as Hh. unfold hex_or_raw.
  assert (forallb (λ b, is_hexdigit (chr b) || is_ascii_ws (chr b)) (bytes (hex_encode l)) = true) as ->.
  { revert Hh. generalize (hex_encode l) as s. clear. induction s as [|c s IH]; [done|].
    cbn [str_all bytes forallb]. intros [Hc Hs]%andb_true_iff. by rewrite chr_byte_of, Hc, IH. }
  assert (str_filter is_hexdigit (of_bytes (bytes (hex_encode l))) = hex_encode l) as ->.
  { rewrite of_bytes_bytes. revert Hh. generalize (hex_encode l) as s. clear. induction s as [|c s IH]; [done|].
    cbn [str_all str_filter]. intros [Hc Hs]%andb_true_iff. by rewrite Hc, IH. }
  rewrite hex_decode_encode by done. by destruct l.
Qed.

(** ** The wire *)

Definition collateral_headers : list string :=
  ["sgx-tcbm"; "sgx-fmspc"; "sgx-pck-certificate-ca-type"; "sgx-pck-certificate-issuer-chain";
   "sgx-pck-crl-issuer-chain"; "tcb-info-issuer-chain"; "sgx-tcb-info-issuer-chain";
   "sgx-enclave-identity-issuer-chain"]%string.

Section wire.
Context {V : Type}.

(** A GET for a URL under [root], as the node at [root] receives it *)
Definition received (root : string) (r : HttpRequest) : option (HttpIn V) :=
  match rq_method r with
  | POST => None
  | GET =>
      rest ← strip_prefix root (rq_url r);
      let '(path, query) := match split_once "?" rest with Some (p, q) => (p, Some q) | None => (rest, None) end in
      Some {| in_verb := Get; in_path := path; in_query := query;
              in_header name := if eq_ic name "ocp-apim-subscription-key" then rq_key r else None;
              in_json := ReadRejected 415; in_bytes := ReadOk ""%string |}
  end.

(** The response on the other side: header values arrive without surrounding
    white space; hyper may add the length of the body. *)
Record delivers (r : Response) (h : HttpResponse) : Prop := {
  dl_status : hr_status h = rs_status r;
  dl_body : hr_body h = rs_body r;
  dl_header name : to_lower name ∈ collateral_headers →
    hr_header h name = trim <$> rs_headers r !! to_lower name;
  dl_length : (l ← hr_header h "content-length"; parse_uint u64_max l) ∈ [None; Some (Z.of_nat (length (rs_body r)))]
}.
End wire.

(** A header value that arrives as it was sent *)
Definition travels `{HttpSyntax} (v : string) : Prop := header_value_ok v = true ∧ trim v = v.

(** ** The layers around an answer *)

Section layers.
Context {D V : Type} `{Database D} `{Json V} `{Base64} `{Sha2} `{Chrono} `{HttpSyntax} `{PercentEncodingLaws} `{ServiceEnv D V}.
Context `{Serde PckCertRecord} `{Serde PlatformPool} `{Serde (TcbRecord V)} `{Serde (IdentityRecord V)}
  `{Serde PckCrlRecord} `{Serde (list Z)} `{Serde CrlRecord} `{Serde AmdKdsRecord}
  `{Serde NvidiaOcspRecord} `{Serde RegisteredPlatform} `{Serde AppraisalList}.
Context (cfg : Config) (settings : Settings).

(** The layers keep the status, the body and the headers of the collateral. *)
Record kept (r r' : Response) : Prop := {
  kp_status : rs_status r' = rs_status r;
  kp_body : rs_body r' = rs_body r;
  kp_headers k : k ∈ collateral_headers → rs_headers r' !! k = rs_headers r !! k
}.

Lemma kept_refl r : kept r r.
Proof. by split. Qed.

Lemma kept_trans r1 r2 r3 : kept r1 r2 → kept r2 r3 → kept r1 r3.
Proof. intros [A1 A2 A3] [B1 B2 B3]. split; [congruence..|]. intros k Hk. by rewrite B3, A3. Qed.

Lemma put_elsewhere name v (h : Headers) k :
  bool_decide (to_lower name ∈ collateral_headers) = false → k ∈ collateral_headers →
  put_header name v h !! k = h !! k.
Proof.
  intros Hn%bool_decide_eq_false Hk. unfold put_header. apply lookup_insert_ne. intros <-. by apply Hn.
Qed.

Lemma insert_elsewhere name v (h : Headers) k :
  bool_decide (to_lower name ∈ collateral_headers) = false → k ∈ collateral_headers →
  Routes.insert name v h !! k = h !! k.
Proof. intros Hn Hk. unfold Routes.insert. destruct (header_value_ok v); [by apply put_elsewhere|done]. Qed.

Lemma kept_add name v r :
  bool_decide (to_lower name ∈ collateral_headers) = false → kept r (add_header name v r).
Proof. intros Hn. split; [done..|]. intros k Hk. by apply put_elsewhere. Qed.

Lemma kept_cors (nras : bool) r :
  kept r {| rs_status := rs_status r;
            rs_headers := if nras then Routes.insert "cache-control" "no-store" (insert_cors (rs_headers r))
                          else insert_cors (rs_headers r);
            rs_body := rs_body r |}.
Proof.
  split; [done..|]. intros k Hk. cbn [rs_headers]. unfold insert_cors.
  destruct nras; rewrite !insert_elsewhere by done; done.
Qed.

(** A plain GET passes all of them: what holds of the routed request, and is
    kept by such additions, holds of the whole service. *)
Lemma app_layers (W : @P D V Response → Prop) id (req : HttpIn V) :
  (∀ f p, W p → (∀ r, kept r (f r)) → W (pmap f p)) →
  in_verb req = Get → request_carries_body req = false → ends_with "/" (in_path req) = false →
  W (routed cfg settings req) → W (app cfg settings id req).
Proof.
  intros Hmap Hv Hb Hs Hr. unfold app. apply Hmap; [|intros r; unfold head_body; by rewrite Hv, decide_False].
  apply Hmap.
  2:{ intros r. destruct (header_value_ok id); [by apply kept_add|apply kept_refl]. }
  unfold reject_unexpected_body, reject_trailing_slash. rewrite Hb, Hs, andb_false_r. cbn [andb].
  assert (Hi : W (v3_eol_warning req (routed cfg settings req))).
  { unfold v3_eol_warning. destruct (v3_path _); [|done]. apply Hmap; [done|]. intros r.
    destruct (header_value_ok _); [by apply kept_add|apply kept_refl]. }
  assert (Hc : W (match collateral_cache_max_age_secs settings with
                  | Some max_age => collateral_cache_control cfg max_age req (v3_eol_warning req (routed cfg settings req))
                  | None => v3_eol_warning req (routed cfg settings req) end)).
  { destruct (collateral_cache_max_age_secs settings); [|done]. apply Hmap; [done|]. intros r.
    destruct (cacheable_request _ _); [by apply kept_add|apply kept_refl]. }
  unfold cors. destruct (is_collateral_path _); cbn [negb]; [|done]. rewrite Hv, decide_False by done.
  apply Hmap; [done|]. intros r. apply kept_cors.
Qed.

Context (T : Time → Prop) (I : Shared D → Prop) (U : ∀ X, pcs_call V X → X → Prop).

(** [p] answers what [Q] says, up to what a layer adds. *)
Definition answers (p : prog (Shared D) (pcs_call V) Response) (Q : Response → Prop) : Prop :=
  ensures T I U p [] (λ tr r', tr = [] ∧ ∃ r, Q r ∧ kept r r').

Lemma answers_map f p Q : answers p Q → (∀ r, kept r (f r)) → answers (pmap f p) Q.
Proof.
  intros Hp Hf. apply (ensures_pmap _ _ _ _ _ _ _ _ Hp). intros tr a (-> & r & Hr & Hk).
  split; [done|]. exists r. split; [done|]. by eapply kept_trans.
Qed.

Lemma answers_app id (req : HttpIn V) Q :
  in_verb req = Get → request_carries_body req = false → ends_with "/" (in_path req) = false →
  answers (routed cfg settings req) Q → answers (app cfg settings id req) Q.
Proof. apply (app_layers (λ p, answers p Q)). intros f p. apply answers_map. Qed.
End layers.

(** ** The URLs *)

Definition query_char (c : ascii) : bool :=
  unreserved c || Ascii.eqb c "%" || Ascii.eqb c "=" || Ascii.eqb c "&".
Definition uri_char (c : ascii) : bool := query_char c || Ascii.eqb c "/" || Ascii.eqb c "?".

Lemma str_all_weaken (p q : ascii → bool) s :
  (∀ c, p c = true → q c = true) → str_all p s = true → str_all q s = true.
Proof.
  intros Hpq. induction s as [|c s IH]; [done|]. cbn. intros [Hc Hs]%andb_true_iff. by rewrite (Hpq c Hc), IH.
Qed.

Lemma hexdigit_query_char c : is_hexdigit c = true → query_char c = true.
Proof. each_char c. Qed.

Lemma query_char_uri c : query_char c = true → uri_char c = true.
Proof. intros Hc. unfold uri_char. by rewrite Hc. Qed.

Lemma query_char_slash c : query_char c = true → negb (Ascii.eqb "/" c) = true.
Proof. each_char c. Qed.

Lemma encoded_chars s : str_all query_char (pct_encode unreserved s) = true.
Proof.
  induction s as [|c s IH]; [done|]. cbn [pct_encode]. destruct (unreserved c) eqn:E.
  - cbn [str_all]. rewrite IH. unfold query_char. by rewrite E.
  - unfold hex2_upper. cbn [String.append str_all]. rewrite IH.
    destruct (nibbles (byte_of c) (byte_of_range c)) as [H1 H2].
    destruct (hex_digit_upper_val _ H1) as (_ & _ & E1), (hex_digit_upper_val _ H2) as (_ & _ & E2).
    by rewrite (hexdigit_query_char _ E1), (hexdigit_query_char _ E2).
Qed.

Lemma query_chars l : str_all query_char (query_string unreserved l) = true.
Proof.
  unfold query_string, str_join. induction l as [|[k v] l IH]; [done|].
  assert (Hp : str_all query_char (pct_encode unreserved k ++ "=" ++ pct_encode unreserved v)%string = true)
    by by rewrite !str_all_app, !encoded_chars.
  destruct l as [|kv l]; [exact Hp|]. cbn [map String.concat fst snd] in IH |- *.
  rewrite str_all_app, Hp. cbn [andb String.append str_all]. exact IH.
Qed.

(** Where a document is found under a node's root *)
Definition leaves : list string := ["tcb"; "qe/identity"; "qve/identity"; "pckcrl"; "rootcacrl"; "pckcert"]%string.
Definition prefix_of (tdx : bool) : string :=
  if tdx then "/tdx/certification/v4/" else "/sgx/certification/v4/".
Definition path_of (tdx : bool) (leaf : string) : string := (prefix_of tdx ++ leaf)%string.
Definition query_of (params : list (string * string)) : option string :=
  match params with [] => None | _ => Some (query_string unreserved params) end.
Definition tail_of (params : list (string * string)) : string :=
  match query_of params with None => "" | Some q => String "?" q end.
Definition wire_url (root : string) (tdx : bool) (leaf : string) (params : list (string * string)) : string :=
  (root ++ path_of tdx leaf ++ tail_of params)%string.

Lemma leaf_facts tdx leaf tail :
  leaf ∈ leaves → free_of "/" tail →
  starts_with "v3/" (leaf ++ tail) = false ∧ contains "/v3/" (leaf ++ tail) = false ∧
  free_of "?" (path_of tdx leaf) ∧ ends_with "/" (path_of tdx leaf) = false ∧
  api_version_from_url (path_of tdx leaf) = Ok 4 ∧ str_all uri_char (path_of tdx leaf) = true.
Proof.
  intros Hl Ht. pose proof (contains_free "/" "v3/" tail Ht) as Hc.
  unfold leaves in Hl. repeat (apply elem_of_cons in Hl as [->|Hl];
    [split_and!; [reflexivity|exact Hc|destruct tdx; vm_compute; reflexivity..]|]).
  by apply not_elem_of_nil in Hl.
Qed.

Lemma tail_chars params : free_of "/" (tail_of params) ∧ str_all uri_char (tail_of params) = true.
Proof.
  unfold tail_of, query_of. destruct params as [|kv params]; [done|].
  pose proof (query_chars (kv :: params)) as Hq. split.
  - change (free_of "/" ("?" ++ query_string unreserved (kv :: params))). apply free_of_app; [done|].
    revert Hq. apply str_all_weaken, query_char_slash.
  - cbn [str_all]. change (uri_char "?") with true. revert Hq. apply str_all_weaken, query_char_uri.
Qed.

(** The request for such a URL arrives with its path and its query. *)
Lemma received_wire {V} root tdx leaf params rq :
  leaf ∈ leaves → rq_method rq = GET → rq_url rq = wire_url root tdx leaf params →
  ∃ req : HttpIn V, received root rq = Some req ∧ in_verb req = Get ∧ in_path req = path_of tdx leaf ∧
    in_query req = query_of params ∧ request_carries_body req = false.
Proof.
  intros Hl Hm Hu. unfold received. rewrite Hm, Hu. unfold wire_url.
  rewrite (proj2 (strip_prefix_spec root _ (path_of tdx leaf ++ tail_of params)%string) eq_refl). cbn.
  destruct (leaf_facts tdx leaf "" Hl eq_refl) as (_ & _ & Hq & _). unfold tail_of.
  destruct (query_of params) as [query|]; cbn.
  - rewrite split_once_free by done. by eexists.
  - rewrite str_app_nil_r. assert (split_once "?" (path_of tdx leaf) = None) as ->; [|by eexists].
    clear Hl Hu. revert Hq. generalize (path_of tdx leaf) as s. unfold free_of.
    induction s as [|c s IH]; [done|]. cbn. intros [Hc Hs]%andb_true_iff. apply negb_true_iff in Hc.
    rewrite Hc. by rewrite IH.
Qed.

(** ** The documents *)

(** What a PCCS serves of Intel's collateral, with the parameters of a request *)
Inductive Doc :=
| TcbDoc (prod_type : Z) (fmspc : string) (update : UpdateType)
| IdentityDoc (enclave_id : Z) (update : UpdateType)
| PckCrlDoc (ca : string)
| RootCaCrlDoc
| PckCertDoc (qeid cpusvn pcesvn pceid : string) (enc_ppid : option string).

Definition doc_tdx (d : Doc) : bool :=
  match d with TcbDoc t _ _ => t =? 1 | IdentityDoc i _ => i =? 3 | _ => false end.

Definition doc_leaf (d : Doc) : string :=
  match d with
  | TcbDoc _ _ _ => "tcb"
  | IdentityDoc i _ => if i =? 2 then "qve/identity" else "qe/identity"
  | PckCrlDoc _ => "pckcrl"
  | RootCaCrlDoc => "rootcacrl"
  | PckCertDoc _ _ _ _ _ => "pckcert"
  end.

Definition doc_params (d : Doc) : list (string * string) :=
  match d with
  | TcbDoc _ f u => [("fmspc", f); ("update", upd_name u)]
  | IdentityDoc _ u => [("update", upd_name u)]
  | PckCrlDoc ca => [("ca", to_lower ca); ("encoding", "der")]
  | RootCaCrlDoc => []
  | PckCertDoc qe cs ps pi enc => pckcert_params qe cs ps pi enc
  end%string.

Definition doc_endpoint (d : Doc) : Endpoint :=
  match d with
  | TcbDoc t _ _ => get_tcb_e t
  | IdentityDoc i _ => get_identity_e i
  | PckCrlDoc _ => get_pckcrl_e
  | RootCaCrlDoc => get_rootcacrl_e
  | PckCertDoc _ _ _ _ _ => get_pckcert_e
  end.

(** Parameters in the form in which the service hands them on *)
Definition doc_asked (d : Doc) : Prop :=
  match d with
  | TcbDoc t f u => (t = 0 ∨ t = 1) ∧ Validate.fmspc (Some f) = Ok f ∧ u ≠ All
  | IdentityDoc i u => (i = 1 ∨ i = 2 ∨ i = 3) ∧ u ≠ All
  | PckCrlDoc ca => ca = "PROCESSOR"%string ∨ ca = "PLATFORM"%string
  | RootCaCrlDoc => True
  | PckCertDoc qe cs ps pi enc =>
      Validate.qeid (Some qe) = Ok qe ∧ utf8_valid (bytes qe) = true ∧ Validate.cpusvn (Some cs) = Ok cs ∧
      Validate.pcesvn (Some ps) = Ok ps ∧ Validate.pceid (Some pi) = Ok pi ∧ Validate.encrypted_ppid enc = Ok enc
  end.

(** Where a node serves it *)
Definition doc_path (d : Doc) : string := path_of (doc_tdx d) (doc_leaf d).
Definition doc_query (d : Doc) : option string := query_of (doc_params d).
Definition doc_url (root : string) (d : Doc) : string := wire_url root (doc_tdx d) (doc_leaf d) (doc_params d).

(** A GET of the document, without a body *)
Definition gets {V} (d : Doc) (req : HttpIn V) : Prop :=
  in_verb req = Get ∧ in_path req = doc_path d ∧ in_query req = doc_query d ∧ request_carries_body req = false.

Lemma doc_known d : doc_leaf d ∈ leaves.
Proof. apply (bool_decide_eq_true (doc_leaf d ∈ leaves)). destruct d; cbn; try done. by destruct (_ =? _). Qed.

Lemma doc_no_slash d : ends_with "/" (doc_path d) = false.
Proof. apply (leaf_facts (doc_tdx d) (doc_leaf d) "" (doc_known d) eq_refl). Qed.

Lemma hex_utf8 v n : require_hex (Some v) n = Ok v → utf8_valid (bytes v) = true.
Proof.
  intros Hv. destruct (require_hex_canonical _ _ _ Hv) as (_ & Hh & _ & _). clear Hv.
  apply ascii_utf8_valid. induction v as [|c v IH]; [constructor|]. cbn [str_all bytes] in *.
  apply andb_true_iff in Hh as [Hc Hv]. constructor; [|by apply IH]. clear -Hc. revert Hc. each_char c.
Qed.

Lemma enc_ppid_valid enc :
  Validate.encrypted_ppid enc = Ok enc →
  enc = None ∨ ∃ e, enc = Some e ∧ is_empty e = false ∧ to_upper e = e ∧ utf8_valid (bytes e) = true.
Proof.
  unfold Validate.encrypted_ppid. destruct enc as [e|]; [|by left]. intros He. right. exists e.
  destruct (require_hex (Some e) 768) as [e'|] eqn:E; [|done]. injection He as ->.
  destruct (require_hex_canonical _ _ _ E) as (Hl & _ & Hu & _). split_and!; [done| |done|by eapply hex_utf8].
  by destruct e.
Qed.

Lemma doc_params_utf8 d :
  doc_asked d → Forall (λ kv, utf8_valid (bytes kv.1) = true ∧ utf8_valid (bytes kv.2) = true) (doc_params d).
Proof.
  destruct d as [t f u|i u|ca| |qe cs ps pi enc]; cbn.
  - intros (_ & Hf & _). pose proof (hex_utf8 _ _ Hf). repeat constructor; try done; by destruct u.
  - intros _. repeat constructor; try done; by destruct u.
  - intros Hca. repeat constructor; try done; by destruct Hca as [-> | ->].
  - constructor.
  - intros (_ & Hqu & Hcs & Hps & Hpi & He).
    pose proof (hex_utf8 _ _ Hcs). pose proof (hex_utf8 _ _ Hps). pose proof (hex_utf8 _ _ Hpi).
    unfold pckcert_params. destruct (enc_ppid_valid enc He) as [->|(e & -> & -> & _ & Hev)]; by repeat constructor.
Qed.

(** The query is read back. *)
Lemma doc_query_read d :
  doc_asked d → doc_params d ≠ [] →
  ∃ m, query_params (doc_query d) = Ok m ∧ ∀ k, m !! k = first_value (doc_params d) k.
Proof.
  intros Ha Hne. unfold doc_query, query_of. pose proof (doc_params_utf8 d Ha).
  destruct (doc_params d) as [|kv l]; [done|]. by apply query_params_written.
Qed.

(** A signed document and its text *)
Definition document {V} `{Json V} (body : string) (v : V) : Prop :=
  utf8_valid (bytes body) = true ∧ json_parse body = Some v ∧
  0 < Z.of_nat (length (bytes body)) <= MAX_RESPONSE_BYTES.

Definition upper_travels `{HttpSyntax} (v : string) : Prop := travels v ∧ to_upper v = v.

(** A PCK certificate record as a node without the platform's credentials knows it *)
Definition as_fetched (enc_ppid : option string) (rec : PckCertRecord) : PckCertRecord :=
  {| pc_qeid := pc_qeid rec; pc_pceid := pc_pceid rec; pc_cpusvn := pc_cpusvn rec; pc_pcesvn := pc_pcesvn rec;
     pc_cert := pc_cert rec; pc_tcbm := pc_tcbm rec; pc_fmspc := pc_fmspc rec; pc_ca := pc_ca rec;
     pc_issuer_chain := pc_issuer_chain rec; pc_encrypted_ppid := enc_ppid; pc_platform_manifest := "" |}.

Section documents.
Context {D V : Type} `{Database D} `{Json V} `{Base64} `{Sha2} `{Chrono} `{HttpSyntax} `{PercentEncodingLaws} `{ServiceEnv D V}.
Context `{Serde PckCertRecord} `{Serde PlatformPool} `{Serde (TcbRecord V)} `{Serde (IdentityRecord V)}
  `{Serde PckCrlRecord} `{Serde (list Z)} `{Serde CrlRecord} `{Serde AmdKdsRecord}
  `{Serde NvidiaOcspRecord} `{Serde RegisteredPlatform} `{Serde AppraisalList}.
Context (cfg : Config) (settings : Settings).

Definition doc_record (d : Doc) : Type :=
  match d with
  | TcbDoc _ _ _ => TcbRecord V
  | IdentityDoc _ _ => IdentityRecord V
  | PckCrlDoc _ => PckCrlRecord
  | RootCaCrlDoc => list Z
  | PckCertDoc _ _ _ _ _ => PckCertRecord
  end.

(** What the client is asked for it *)
Definition doc_call (d : Doc) : pcs_call V (res (doc_record d)) :=
  match d with
  | TcbDoc t f u => Cache.fetch_tcb t f 4 u
  | IdentityDoc i u => Cache.fetch_identity i 4 u
  | PckCrlDoc ca => Cache.fetch_pckcrl ca
  | RootCaCrlDoc => Cache.fetch_rootcacrl
  | PckCertDoc qe cs ps pi enc => Cache.fetch_pckcert_pccs qe cs ps pi enc
  end.

(** What the cache is asked for it *)
Definition doc_get (d : Doc) : @CM D V (doc_record d) :=
  match d with
  | TcbDoc t f u => Cache.get_tcb cfg t f 4 u
  | IdentityDoc i u => Cache.get_identity cfg i 4 u
  | PckCrlDoc ca => Cache.get_pckcrl cfg ca 4
  | RootCaCrlDoc => Cache.get_rootcacrl cfg 4
  | PckCertDoc qe cs ps pi enc => Pool.get_pckcert cfg qe cs ps pi enc 4
  end.

(** What the handler makes of a record *)
Definition doc_page (d : Doc) : doc_record d → Response :=
  match d with
  | TcbDoc _ _ _ => λ rec,
      json_value 200 (Routes.insert "TCB-Info-Issuer-Chain" (tr_issuer_chain rec) ∅) (tr_tcbinfo rec) (tr_raw_body rec)
  | IdentityDoc _ _ => λ rec,
      json_value 200 (Routes.insert SGX_ENCLAVE_IDENTITY_ISSUER_CHAIN (ir_issuer_chain rec) ∅)
        (ir_identity rec) (ir_raw_body rec)
  | PckCrlDoc _ => λ rec,
      bytes_response 200 (put_header "content-type" CONTENT_TYPE_CRL
        (Routes.insert SGX_PCK_CRL_ISSUER_CHAIN (cr_issuer_chain rec) ∅)) (cr_pckcrl rec)
  | RootCaCrlDoc => λ crl, text 200 (put_header "content-type" CONTENT_TYPE_CRL ∅) (hex_encode crl)
  | PckCertDoc _ _ _ _ _ => λ rec,
      text 200 (put_header "content-type" CONTENT_TYPE_PEM
        (Routes.insert SGX_PCK_CERTIFICATE_ISSUER_CHAIN (pc_issuer_chain rec)
          (Routes.insert SGX_PCK_CERTIFICATE_CA_TYPE (pc_ca rec)
            (Routes.insert SGX_FMSPC (pc_fmspc rec) (Routes.insert SGX_TCBM (pc_tcbm rec) ∅))))) (pc_cert rec)
  end.

(** The store has it; of a PCK certificate, up to what only the platform's own
    node knows *)
Definition doc_held (d : Doc) : doc_record d → Store D → Prop :=
  match d with
  | TcbDoc t f u => λ x s, Records.get_tcb s t f 4 u = Some x
  | IdentityDoc i u => λ x s, Records.get_identity s i 4 u = Some x
  | PckCrlDoc ca => λ x s, Records.get_pckcrl s ca = Some x
  | RootCaCrlDoc => λ x s, Records.get_rootcacrl s = Some x
  | PckCertDoc qe cs ps pi enc => λ x s,
      has_platform s qe pi = true ∧ ∃ rec, Records.get_pckcert s qe cs ps pi = Some rec ∧ x = as_fetched enc rec
  end.

(** It is the record of that document, and can be sent over HTTP. *)
Definition doc_ok (d : Doc) : doc_record d → Prop :=
  match d with
  | TcbDoc t f u => λ rec,
      tr_prod_type rec = t ∧ tr_fmspc rec = f ∧ tr_version rec = 4 ∧ tr_update_type rec = UpdateType_as_str u ∧
      travels (tr_issuer_chain rec) ∧ document (tr_raw_body rec) (tr_tcbinfo rec)
  | IdentityDoc i u => λ rec,
      ir_enclave_id rec = i ∧ ir_version rec = 4 ∧ ir_update_type rec = UpdateType_as_str u ∧
      travels (ir_issuer_chain rec) ∧ document (ir_raw_body rec) (ir_identity rec)
  | PckCrlDoc ca => λ rec,
      cr_ca rec = ca ∧ travels (cr_issuer_chain rec) ∧
      0 < Z.of_nat (length (cr_pckcrl rec)) <= MAX_RESPONSE_BYTES
  | RootCaCrlDoc => λ crl, Forall is_byte crl ∧ 0 < 2 * Z.of_nat (length crl) <= MAX_RESPONSE_BYTES
  | PckCertDoc qe cs ps pi enc => λ rec,
      (pc_qeid rec = qe ∧ pc_pceid rec = pi ∧ pc_cpusvn rec = cs ∧ pc_pcesvn rec = ps ∧
       pc_encrypted_ppid rec = enc ∧ pc_platform_manifest rec = ""%string) ∧
      upper_travels (pc_tcbm rec) ∧ upper_travels (pc_fmspc rec) ∧ upper_travels (pc_ca rec) ∧
      travels (pc_issuer_chain rec) ∧ utf8_valid (bytes (pc_cert rec)) = true ∧
      0 < Z.of_nat (length (bytes (pc_cert rec))) <= MAX_RESPONSE_BYTES
  end.

Definition sendable (resp : Response) : Prop :=
  rs_status resp = 200 ∧ 0 < Z.of_nat (length (rs_body resp)) <= MAX_RESPONSE_BYTES.

Lemma doc_sendable d (x : doc_record d) : doc_ok d x → sendable (doc_page d x).
Proof.
  destruct d; cbn.
  - intros (_ & _ & _ & _ & _ & _ & _ & Hl). split; [done|]. cbn. destruct (tr_raw_body x); [cbn in Hl; lia|done].
  - intros (_ & _ & _ & _ & _ & _ & Hl). split; [done|]. cbn. destruct (ir_raw_body x); [cbn in Hl; lia|done].
  - intros (_ & _ & Hl). by split.
  - intros [_ Hl]. split; [done|]. cbn. rewrite bytes_length, hex_encode_length. lia.
  - intros (_ & _ & _ & _ & _ & _ & Hl). by split.
Qed.

Lemma update_read u : u ≠ All → update_type (Some (upd_name u)) false = Ok u.
Proof. by destruct u. Qed.

(** The handler asks the cache for the record and makes a page of it. *)
Lemma doc_handled d (req : HttpIn V) :
  doc_asked d → in_path req = doc_path d → in_query req = doc_query d →
  handle cfg (doc_endpoint d) req = (doc_get d ≫= λ rec, answer (doc_page d rec)).
Proof.
  intros Ha Hp Hq. pose proof (doc_query_read d Ha) as Hm.
  assert (Hv : api_version_from_url (doc_path d) = Ok 4)
    by apply (leaf_facts (doc_tdx d) (doc_leaf d) "" (doc_known d) eq_refl).
  destruct d as [t f u|i u|ca| |qe cs ps pi enc]; cbn [doc_endpoint handle doc_get doc_page];
    [destruct (Hm ltac:(done)) as (m & Hm' & Hf)..| |destruct (Hm ltac:(done)) as (m & Hm' & Hf)]; clear Hm;
    unfold h_get_tcb, h_get_identity, h_get_pckcrl, h_get_rootcacrl, h_get_pckcert, pccs_query, version, try_, first;
    rewrite ?Hp, ?Hq, ?Hv, ?Hm'; cbn [mbind CM_bind pbind].
  - destruct Ha as (_ & Hfm & Hu). rewrite (Hf "fmspc" : m !! "fmspc"%string = Some f), Hfm. cbn [pbind].
    rewrite (Hf "update" : m !! "update"%string = Some (upd_name u)), (update_read u Hu). reflexivity.
  - destruct Ha as [_ Hu].
    rewrite (Hf "update" : m !! "update"%string = Some (upd_name u)), (update_read u Hu). reflexivity.
  - rewrite (Hf "ca" : m !! "ca"%string = Some (to_lower ca)),
      (Hf "encoding" : m !! "encoding"%string = Some "der"%string).
    assert (pck_ca (Some (to_lower ca)) = Ok ca) as -> by (by destruct Ha as [-> | ->]). reflexivity.
  - reflexivity.
  - destruct Ha as (Hqe & _ & Hcs & Hps & Hpi & He).
    assert (Hmenc : m !! "encrypted_ppid"%string = enc).
    { rewrite Hf. cbn [doc_params]. unfold pckcert_params.
      by destruct (enc_ppid_valid enc He) as [->|(e & -> & -> & _)]. }
    rewrite (Hf "qeid" : m !! "qeid"%string = Some qe), Hqe. cbn [pbind].
    rewrite (Hf "cpusvn" : m !! "cpusvn"%string = Some cs), Hcs. cbn [pbind].
    rewrite (Hf "pcesvn" : m !! "pcesvn"%string = Some ps), Hps. cbn [pbind].
    rewrite (Hf "pceid" : m !! "pceid"%string = Some pi), Hpi. cbn [pbind].
    rewrite Hmenc, He. reflexivity.
Qed.

(** The document's request is routed to its handler, which is open. *)
Lemma doc_routed d (req : HttpIn V) :
  pcs_version cfg = 4 → doc_asked d → gets d req →
  routed cfg settings req =
    pmap (λ r, match r with Ok a => a | Err e => error_response e end) (doc_get d ≫= λ rec, answer (doc_page d rec)).
Proof.
  intros Hver Ha (Hv & Hp & Hq & _). unfold routed. rewrite Hver, Hv.
  assert (Hr : find_route 4 (in_path req) = Some (doc_path d, [(Get, (Open, doc_endpoint d))])).
  { rewrite Hp. unfold doc_path. destruct d; cbn [doc_asked doc_tdx doc_leaf doc_endpoint] in *; try done.
    - by destruct Ha as ([-> | ->] & _).
    - by destruct Ha as ([-> | [-> | ->]] & _). }
  rewrite Hr. rewrite <- (doc_handled d req) by done. reflexivity.
Qed.

(** A record that is there is found, whatever the mode. *)
Lemma doc_hit T I U d (x : doc_record d) :
  (∀ s, I s → doc_held d x (w_store s)) →
  ensures T I U (doc_get d) [] (λ tr r, tr = [] ∧ ∃ rec, r = Ok rec ∧ doc_page d rec = doc_page d x).
Proof.
  intros Hg. destruct d; cbn in *.
  1-4: intros _ s _ Hs; rewrite (Hg s Hs); cbn; eauto.
  intros _ s _ Hs. destruct (Hg s Hs) as [-> _]. cbn. intros _ s' _ Hs'.
  destruct (Hg s' Hs') as (_ & rec & -> & ->). cbn. split; [done|]. by exists rec.
Qed.

Lemma doc_answers T I U d x (req : HttpIn V) :
  pcs_version cfg = 4 → doc_asked d → (∀ s, I s → doc_held d x (w_store s)) → gets d req →
  answers T I U (routed (D := D) cfg settings req) (eq (doc_page d x)).
Proof.
  intros Hver Ha Hh Hg. unfold answers. rewrite (doc_routed d req Hver Ha Hg).
  apply (ensures_pmap _ _ _ _ _ _ (λ tr r, tr = [] ∧ r = Ok (doc_page d x))).
  - eapply ensures_bind; [by apply doc_hit|]. intros tr r [-> (rec & -> & Hp)]. cbn. by rewrite Hp.
  - intros tr r [-> ->]. split; [done|]. exists (doc_page d x). split; [done|apply kept_refl].
Qed.
End documents.

(** ** Two nodes *)

(** The client [cl] is set to a node at [root]. *)
Record linked `{HttpSyntax} (root : string) (cl : Client) : Prop := {
  ln_base : base cl = (root ++ "/sgx/certification/v4/")%string;
  ln_tdx : tdx_if (base cl) true = (root ++ "/tdx/certification/v4/")%string;
  ln_v3 tdx : contains "/v3/" (root ++ prefix_of tdx) = false;
  ln_attempts : max_attempts cl ≠ 0%nat;
  ln_pccs : pcs_is_intel cl = false;
  ln_uri rest : str_all uri_char rest = true → uri_parses (root ++ rest) = true
}.

Section chain.
Context {D V : Type} `{Database D} `{Json V} `{Base64} `{Sha2} `{Chrono} `{HttpSyntax} `{PercentEncodingLaws} `{ServiceEnv D V}.
Context `{Serde PckCertRecord} `{Serde PlatformPool} `{Serde (TcbRecord V)} `{Serde (IdentityRecord V)}
  `{Serde PckCrlRecord} `{Serde (list Z)} `{Serde CrlRecord} `{Serde AmdKdsRecord}
  `{Serde NvidiaOcspRecord} `{Serde RegisteredPlatform} `{Serde AppraisalList}.
Context (root : string).

(** A response that carries the headers of [resp], as it arrives *)
Record arrived (resp : Response) (h : HttpResponse) : Prop := {
  ar_status : hr_status h = rs_status resp;
  ar_body : hr_body h = rs_body resp;
  ar_header name : to_lower name ∈ collateral_headers → hdr h name = default "" (trim <$> rs_headers resp !! to_lower name)
}.

(** Whoever answers at [root] answers a request for [d] with [resp]. *)
Definition gives (U : ∀ X, http_call X → X → Prop) (d : Doc) (resp : Response) : Prop :=
  ∀ rq x, rq_method rq = GET → rq_url rq = doc_url root d → U _ (exchange rq) x →
    ∃ h, x = Answered h ∧ read_response h = Ok h ∧ throttling (hr_status h) = false ∧ arrived resp h.

Lemma received_doc d rq :
  rq_method rq = GET → rq_url rq = doc_url root d → ∃ req : HttpIn V, received root rq = Some req ∧ gets d req.
Proof.
  intros Hm Hu. destruct (received_wire (V := V) root _ _ _ rq (doc_known d) Hm Hu) as (req & Hr & Hv & Hp & Hq & Hb).
  by exists req.
Qed.

(** A response that is delivered arrives, if the layers kept it. *)
Lemma delivered resp r h :
  sendable resp → kept resp r → delivers r h →
  read_response h = Ok h ∧ throttling (hr_status h) = false ∧ arrived resp h.
Proof.
  intros [Hs Hb] [K1 K2 K3] [D1 D2 D3 D4]. rewrite K1 in D1. rewrite K2 in D2, D4.
  split; [|split; [by rewrite D1, Hs|]].
  - destruct Hb as [Hpos Hmax]. apply Z.ltb_ge in Hmax.
    unfold read_response, header. cbv zeta.
    rewrite D1, D2, Hs, Hmax.
    apply elem_of_cons in D4 as [D4|D4%list_elem_of_singleton];
      rewrite D4, ?Hmax; (destruct (Z.of_nat (length (rs_body resp)) =? 0) eqn:E; [lia|done]).
  - split; [done..|]. intros name Hn. unfold hdr, header. by rewrite (D3 name Hn), (K3 _ Hn).
Qed.

(** *** The node that has the record *)

Definition anything : ∀ X, pcs_call V X → X → Prop := λ _ _ _, True.

(** What a node may answer: the outcome of its service in any environment in
    which its shared state satisfies [I]; anything to what is not a GET under
    its root. *)
Definition from_node (cfg : Config) (settings : Settings) (T : Time → Prop) (I : Shared D → Prop) :
    ∀ X, http_call X → X → Prop := λ X c,
  match c in http_call X return X → Prop with
  | exchange rq => λ x,
      match received root rq with
      | Some req => ∃ id e n s h, allowed T I anything e ∧
          delivers (run e (app (D := D) (V := V) cfg settings id req) n s).2 h ∧ x = Answered h
      | None => True
      end
  | sleep _ => λ _, True
  end.

Lemma node_gives cfg settings T I d x :
  pcs_version cfg = 4 → doc_asked d → doc_ok d x → (∀ s, I s → doc_held (D := D) d x (w_store s)) →
  gives (from_node cfg settings T I) d (doc_page d x).
Proof.
  intros Hver Ha Hok Hh rq y Hm Hu Hy. destruct (received_doc d rq Hm Hu) as (req & Hrec & Hg).
  cbn in Hy. rewrite Hrec in Hy. destruct Hy as (id & e & n & s & h & He & Hd & ->). exists h. split; [done|].
  pose proof Hg as (Hv & Hp & _ & Hb).
  pose proof (answers_app cfg settings T I anything id req (eq (doc_page d x)) Hv Hb) as Happ.
  rewrite Hp in Happ. specialize (Happ (doc_no_slash d)
    (doc_answers cfg settings T I anything d x req Hver Ha Hh Hg)).
  destruct (ensures_run T I anything e _ n s [] _ He Happ) as (_ & r & <- & Hk).
  eapply delivered; [by apply doc_sendable|exact Hk|exact Hd].
Qed.

(** *** The node that asks *)

Context (cl : Client) (Hln : linked root cl) (U : ∀ X, http_call X → X → Prop).

Lemma sgx_url tdx : (root ++ prefix_of tdx)%string = tdx_if (base cl) tdx.
Proof. destruct tdx; [by rewrite (ln_tdx _ _ Hln)|exact (eq_sym (ln_base _ _ Hln))]. Qed.

(** One exchange, and the response arrives. *)
Lemma down_get {St} R (s : St) d resp :
  gives U d resp →
  wp R U (get cl (doc_url root d)) s (λ s' tr r, s' = s ∧ length tr = 1%nat ∧ ∃ h, r = Ok h ∧ arrived resp h).
Proof.
  intros Hgv. destruct (tail_chars (doc_params d)) as [Hslash Huri].
  destruct (leaf_facts (doc_tdx d) (doc_leaf d) (tail_of (doc_params d)) (doc_known d) Hslash)
    as (Hst & Hct & _ & _ & _ & Hpu).
  assert (Hen : enabled cl = true).
  { unfold enabled. rewrite (ln_base _ _ Hln). by destruct root. }
  assert (Hv3 : contains "/v3/" (doc_url root d) = false).
  { unfold doc_url, wire_url, path_of. rewrite <- str_app_assoc, str_app_assoc.
    pose proof (ln_v3 _ _ Hln (doc_tdx d)) as Hv.
    assert (∃ p, (root ++ prefix_of (doc_tdx d))%string = (p ++ "/")%string) as [p Ep].
    { exists (root ++ (if doc_tdx d then "/tdx/certification/v4" else "/sgx/certification/v4"))%string.
      rewrite <- str_app_assoc. by destruct (doc_tdx d). }
    rewrite Ep in Hv |- *. by apply contains_v3_app. }
  assert (Hparse : uri_parses (doc_url root d) = true).
  { apply (ln_uri _ _ Hln). by rewrite str_all_app, Hpu, Huri. }
  unfold get. rewrite Hen. cbn [negb]. unfold send, lift, check_v3. rewrite Hv3. cbn [mbind NetM_bind pbind].
  destruct (max_attempts cl) as [|left] eqn:El; [by destruct (ln_attempts _ _ Hln)|].
  cbn [send_loop]. rewrite Hparse. cbn [negb Z.ltb]. cbn.
  intros x Hx. destruct (Hgv (request_for cl (doc_url root d) None true) x eq_refl eq_refl Hx) as (h & -> & Hr & Ht & Harr).
  rewrite Hr. cbn. rewrite Ht. cbn. split; [done|]. split; [done|]. by exists h.
Qed.

(** One exchange yields [x] and leaves the node as it is. *)
Definition fetches {X} (c : pcs_call V (res X)) (x : X) : Prop :=
  ∀ St R (s : St), wp R U (client cl c) s (λ s' tr r, s' = s ∧ length tr = 1%nat ∧ r = Ok x).

(** The rest of a fetch, once its response has arrived *)
Lemma down_then {St A} R (s : St) d resp url (f : HttpResponse → @NetM St A) (a : A) :
  url = doc_url root d → gives U d resp → rs_status resp = 200 →
  (∀ h, hr_status h = 200 → arrived resp h → f h = Ret (Ok a)) →
  wp R U (get cl url ≫= f) s (λ s' tr r, s' = s ∧ length tr = 1%nat ∧ r = Ok a).
Proof.
  intros -> Hgv Hs Hf. apply wp_bind, (wp_mono _ _ _ _ _ _ (down_get R s d resp Hgv)).
  intros s' tr r (-> & Ht & h & -> & Harr). rewrite Hf; [|by rewrite (ar_status _ _ Harr)|done].
  cbn. by rewrite app_nil_r.
Qed.

Lemma wire_query tdx leaf kv params :
  wire_url root tdx leaf (kv :: params) =
  (tdx_if (base cl) tdx ++ leaf ++ "?" ++ query_string unreserved (kv :: params))%string.
Proof. unfold wire_url, path_of. rewrite <- (sgx_url tdx), <- !str_app_assoc. done. Qed.

Lemma travels_insert name v (h : Headers) k :
  travels v → to_lower name = k → Routes.insert name v h !! k = Some v.
Proof. intros [Hv _] <-. unfold Routes.insert, put_header. rewrite Hv. apply lookup_insert_eq. Qed.

Lemma insert_other name v (h : Headers) k : to_lower name ≠ k → Routes.insert name v h !! k = h !! k.
Proof. intros Hn. unfold Routes.insert, put_header. destruct (header_value_ok v); [by apply lookup_insert_ne|done]. Qed.

(** A collateral header that was put into a response, when it arrives *)
Lemma arrived_hdr resp h name v :
  arrived resp h → bool_decide (to_lower name ∈ collateral_headers) = true →
  rs_headers resp !! to_lower name = Some v → travels v → hdr h name = v.
Proof. intros Ha Hn%bool_decide_eq_true Hv [_ Ht]. rewrite (ar_header _ _ Ha name Hn), Hv. cbn. exact Ht. Qed.

Lemma from_utf8_bytes s : utf8_valid (bytes s) = true → from_utf8 (bytes s) = Some s.
Proof. intros Hv. unfold from_utf8. by rewrite Hv, of_bytes_bytes. Qed.

Lemma own_header k : bool_decide (k ∈ collateral_headers) = true → k ∈ collateral_headers.
Proof. by intros ?%bool_decide_eq_true. Qed.

Lemma json_raw_body h (v : V) raw :
  0 < Z.of_nat (length (bytes raw)) → rs_body (json_value 200 h v raw) = bytes raw.
Proof. intros Hl. cbn. destruct raw; [cbn in Hl; lia|done]. Qed.

(** Under the content type of a response, its own headers *)
Lemma under_content_type ct dflt (h : Headers) k :
  k ≠ "content-type"%string →
  (put_header "content-type" ct h ∪ {["content-type"%string := dflt]}) !! k = h !! k.
Proof.
  intros Hk. unfold put_header. change (to_lower "content-type") with "content-type"%string. apply not_eq_sym in Hk.
  rewrite lookup_union, lookup_insert_ne, lookup_singleton_ne by done. by destruct (h !! k).
Qed.

Lemma qeid_upper qe : Validate.qeid (Some qe) = Ok qe → to_upper qe = qe.
Proof.
  unfold Validate.qeid, non_empty. cbn. destruct (is_empty qe); [done|]. destruct (_ <? _)%nat; [done|]. congruence.
Qed.

(** *** The documents, one by one *)

Definition comes (d : Doc) : Prop :=
  ∀ x, doc_asked d → doc_ok d x → gives U d (doc_page d x) → fetches (doc_call d) x.

Lemma tcb_comes t f u : comes (TcbDoc t f u).
Proof.
  intros rec (Ht & Hf & Hu) (L1 & L2 & L3 & L4 & Hc & Hv & Hj & Hlen) Hgv St R s.
  destruct (require_hex_canonical _ _ _ Hf) as (_ & _ & Hup & _).
  cbn [client doc_call]. unfold fetch_tcb. cbn [Z.eqb Pos.eqb].
  eapply (down_then _ _ (TcbDoc t f u)); [|exact Hgv|done|].
  - unfold doc_url. cbn [doc_tdx doc_leaf doc_params]. rewrite wire_query, !q_encode. reflexivity.
  - intros h Hs Harr. cbn [doc_page doc_record] in *. rewrite Hs. cbn [Z.eqb Pos.eqb negb].
    rewrite (ar_body _ _ Harr), json_raw_body by lia. rewrite from_utf8_bytes by done. cbn. rewrite Hj. cbn.
    rewrite (arrived_hdr _ _ "TCB-Info-Issuer-Chain" (tr_issuer_chain rec) Harr); [|done| |done].
    2:{ cbn [rs_headers json_value bytes_response]. rewrite under_content_type by done. by apply travels_insert. }
    destruct rec as [rt rf rv ru ri rr rc]. cbn in *. subst. rewrite Hup.
    destruct rc as [|c rc]; [|done]. cbn. unfold ok. do 3 f_equal.
    rewrite (ar_header _ _ Harr) by by apply own_header. cbn [rs_headers json_value bytes_response].
    by rewrite under_content_type, insert_other by done.
Qed.

Lemma identity_comes i u : comes (IdentityDoc i u).
Proof.
  intros rec (Hi & Hu) (L1 & L2 & L3 & Hc & Hv & Hj & Hlen) Hgv St R s.
  cbn [client doc_call]. unfold fetch_identity. cbn [Z.eqb Pos.eqb].
  eapply (down_then _ _ (IdentityDoc i u)); [|exact Hgv|done|].
  - unfold doc_url, identity_url. cbn [doc_params]. rewrite wire_query, !q_encode.
    destruct Hi as [-> | [-> | ->]]; reflexivity.
  - intros h Hs Harr. cbn [doc_page doc_record] in *. rewrite Hs. cbn [Z.eqb Pos.eqb negb].
    rewrite (ar_body _ _ Harr), json_raw_body by lia. rewrite from_utf8_bytes by done. cbn. rewrite Hj. cbn.
    rewrite (arrived_hdr _ _ "SGX-Enclave-Identity-Issuer-Chain" (ir_issuer_chain rec) Harr); [|done| |done].
    2:{ cbn [rs_headers json_value bytes_response]. rewrite under_content_type by done. by apply travels_insert. }
    by destruct rec; cbn in *; subst.
Qed.

Lemma pckcrl_comes ca : comes (PckCrlDoc ca).
Proof.
  intros rec Hca (L1 & Hc & Hlen) Hgv St R s. cbn [client doc_call]. unfold fetch_pckcrl.
  eapply (down_then _ _ (PckCrlDoc ca)); [|exact Hgv|done|].
  - unfold doc_url. cbn [doc_params]. rewrite wire_query, !q_encode. destruct Hca as [-> | ->]; reflexivity.
  - intros h Hs Harr. cbn [doc_page doc_record] in *. rewrite Hs. cbn [Z.eqb Pos.eqb negb].
    rewrite (ar_body _ _ Harr). cbn [bytes_response rs_body].
    rewrite (arrived_hdr _ _ "SGX-PCK-CRL-Issuer-Chain" (cr_issuer_chain rec) Harr); [|done| |done].
    2:{ cbn [rs_headers json_value bytes_response]. rewrite under_content_type by done. by apply travels_insert. }
    destruct rec; cbn in *; subst. by destruct Hca as [-> | ->].
Qed.

Lemma rootcacrl_comes : comes RootCaCrlDoc.
Proof.
  intros crl _ (Hb & Hlen) Hgv St R s. cbn [client doc_call]. unfold fetch_rootcacrl, rootcacrl_url.
  rewrite (ln_pccs _ _ Hln). cbn [negb pbind].
  eapply (down_then _ _ RootCaCrlDoc); [|exact Hgv|done|].
  - unfold doc_url, wire_url. cbn. rewrite (ln_base _ _ Hln). by rewrite <- str_app_assoc.
  - intros h Hs Harr. cbn [doc_page doc_record] in *. rewrite Hs. cbn [Z.eqb Pos.eqb negb].
    rewrite (ar_body _ _ Harr). cbn [text rs_body].
    rewrite hex_or_raw_encode; [done|done|]. intros ->. cbn in Hlen. lia.
Qed.

Lemma pckcert_comes qe cs ps pi enc : comes (PckCertDoc qe cs ps pi enc).
Proof.
  intros rec (Hqe & _ & Hcs & Hps & Hpi & He)
    ((L1 & L2 & L3 & L4 & L5 & L6) & [Ht Htu] & [Hf Hfu] & [Ha Hau] & Hc & Hv & Hlen) Hgv St R s.
  destruct (require_hex_canonical _ _ _ Hcs) as (_ & _ & Hcsu & _), (require_hex_canonical _ _ _ Hps) as (_ & _ & Hpsu & _),
    (require_hex_canonical _ _ _ Hpi) as (_ & _ & Hpiu & _).
  pose proof (qeid_upper _ Hqe) as Hqeu.
  assert (Henc : to_upper <$> enc = enc).
  { by destruct (enc_ppid_valid enc He) as [->|(e & -> & _ & Heu & _)]; cbn; [|rewrite Heu]. }
  cbn [client doc_call]. unfold fetch_pckcert_pccs.
  eapply (down_then _ _ (PckCertDoc qe cs ps pi enc)); [|exact Hgv|done|].
  - rewrite pckcert_url_query. exact (eq_sym (wire_query false "pckcert" _ _)).
  - intros h Hs Harr. rewrite Hs. cbn [Z.eqb Pos.eqb negb].
    set (resp := doc_page (PckCertDoc qe cs ps pi enc) rec) in Harr. rewrite (ar_body _ _ Harr). cbn [resp doc_page text rs_body].
    rewrite utf8_lossy_valid, of_bytes_bytes by done.
    assert (Hhdr : ∀ name v, bool_decide (to_lower name ∈ collateral_headers) = true → travels v →
      rs_headers resp !! to_lower name = Some v → hdr h name = v) by (intros; by eapply arrived_hdr).
    assert (Hin : ∀ k, k ≠ "content-type"%string → rs_headers resp !! k =
        Routes.insert SGX_PCK_CERTIFICATE_ISSUER_CHAIN (pc_issuer_chain rec)
          (Routes.insert SGX_PCK_CERTIFICATE_CA_TYPE (pc_ca rec)
            (Routes.insert SGX_FMSPC (pc_fmspc rec) (Routes.insert SGX_TCBM (pc_tcbm rec) ∅))) !! k).
    { intros k Hk. by apply under_content_type. }
    rewrite (Hhdr "SGX-TCBm"%string (pc_tcbm rec)), (Hhdr "SGX-FMSPC"%string (pc_fmspc rec)),
      (Hhdr "SGX-PCK-Certificate-CA-Type"%string (pc_ca rec)),
      (Hhdr "SGX-PCK-Certificate-Issuer-Chain"%string (pc_issuer_chain rec));
      try done; try (rewrite Hin by done; rewrite ?insert_other by done; by apply travels_insert).
    unfold ok. rewrite Htu, Hfu, Hau, Hqeu, Hcsu, Hpsu, Hpiu, Henc. destruct rec; cbn in *; subst. done.
Qed.

Lemma doc_comes d : comes d.
Proof. destruct d; [apply tcb_comes|apply identity_comes|apply pckcrl_comes|apply rootcacrl_comes|apply pckcert_comes]. Qed.
End chain.

Section chained.
Context {D V : Type} `{Database D} `{Json V} `{Base64} `{Sha2} `{Chrono} `{HttpSyntax} `{PercentEncodingLaws} `{ServiceEnv D V}.
Context `{Serde PckCertRecord} `{Serde PlatformPool} `{Serde (TcbRecord V)} `{Serde (IdentityRecord V)}
  `{Serde PckCrlRecord} `{Serde (list Z)} `{Serde CrlRecord} `{Serde AmdKdsRecord}
  `{Serde NvidiaOcspRecord} `{Serde RegisteredPlatform} `{Serde AppraisalList}.

(** C14: A node behind a node.  Whatever collateral a PCCS holds (a TCB info, an
    enclave identity, a PCK CRL, the root CA CRL, or a PCK certificate), a
    second PCCS that is configured to fetch from it gets that very record
    with one HTTP request: the URL it writes is routed to the right handler,
    its query is read back, the handler answers from the store without asking
    anyone, no layer of the service alters the status, the body or the
    headers, and the client reads the record back from the response, byte for
    byte; whatever else the first node does meanwhile, as long as it keeps
    the record. *)
Theorem chained_fetch (cfg : Config) (settings : Settings) (T : Time → Prop) (I : Shared D → Prop) root cl
    d (x : doc_record (V := V) d) {St} (e : Env St http_call) n s :
  linked root cl → pcs_version cfg = 4 → doc_asked d → doc_ok d x → (∀ s, I s → doc_held d x (w_store s)) →
  conforms (λ _ _, True) (from_node (V := V) root cfg settings T I) e →
  (run e (client cl (doc_call d)) n s).2 = Ok x ∧ length (run e (client cl (doc_call d)) n s).1.2 = 1%nat.
Proof.
  intros Hln Hver Ha Hok Hh He. pose proof (node_gives root cfg settings T I d x Hver Ha Hok Hh) as Hgv.
  pose proof (doc_comes root cl Hln _ d x Ha Hok Hgv St (λ _ _, True) s) as Hw.
  by destruct (wp_run _ _ e _ n s _ He Hw) as (_ & Hl & Hr).
Qed.
End chained.

(** ** Two concrete nodes *)

Module ChainSample.
Import MapDb Codec Concrete CollateralSample CacheSample ServiceSample.

Definition node_root : string := "https://pccs.example:8081".
Definition node_client : Client :=
  {| base := node_root ++ "/sgx/certification/v4/"; api_key := ""; pcs_is_intel := false; max_attempts := 6 |}.

Definition tcb_record : TcbRecord jvalue := {|
  tr_prod_type := 1; tr_fmspc := "00906ED50000"; tr_version := 4; tr_update_type := "EARLY";
  tr_tcbinfo := JNull; tr_raw_body := "null"; tr_issuer_chain := "-----BEGIN%20CERTIFICATE-----"
|}%string.
Definition crl_record : PckCrlRecord :=
  {| cr_ca := "PLATFORM"; cr_pckcrl := [48; 1; 2; 3]; cr_issuer_chain := "chain" |}%string.

Definition node_store : Store (gmap string string) :=
  fst (put_pckcrl crl_record (fst (put_tcb tcb_record (w_store empty_shared)))).
Definition node : Shared (gmap string string) := mkShared node_store ∅ ∅.

(** The other node, left alone *)
Definition alone : Env (Shared (gmap string string)) (pcs_call jvalue) := {|
  e_others _ _ := node; e_time _ := at_second 0;
  e_answer X call _ := match call in pcs_call _ X return X with
    | get_url_for _ _ | post_json_once _ _ | post_bytes_once _ _ _ => Err INTERNAL_ERROR
    | Cache.fetch_pckcert_pccs _ _ _ _ _ => Err INTERNAL_ERROR
    | Cache.fetch_pckcerts_intel _ _ => Err INTERNAL_ERROR
    | Cache.fetch_pckcerts_intel_manifest _ _ => Err INTERNAL_ERROR
    | Cache.fetch_tcb _ _ _ _ => Err INTERNAL_ERROR
    | Cache.fetch_identity _ _ _ => Err INTERNAL_ERROR
    | Cache.fetch_pckcrl _ => Err INTERNAL_ERROR
    | Cache.fetch_rootcacrl => Err INTERNAL_ERROR
    | Cache.fetch_crl _ => Err INTERNAL_ERROR
    end;
  e_elapsed _ := false |}.

Definition as_sent (r : Response) : HttpResponse := {|
  hr_status := rs_status r;
  hr_header name := if eq_ic name "content-length" then None else trim <$> rs_headers r !! to_lower name;
  hr_body := rs_body r |}.

Lemma as_sent_delivers r : delivers r (as_sent r).
Proof.
  split; [done|done| |by left]. intros name Hn. cbn.
  destruct (eq_ic name "content-length") eqn:E; [|done]. apply eq_ic_spec in E. rewrite E in Hn.
  exfalso. revert Hn. by apply (bool_decide_eq_false (_ ∈ _)).
Qed.

Definition answer_of (req : HttpIn jvalue) : Response :=
  (run alone (app (D := gmap string string) (config Req true) settings "id" req) 0 node).2.

Definition second_node (St : Type) : Env St http_call := {|
  e_others _ s := s; e_time _ := at_second 0;
  e_answer X call _ := match call in http_call X return X with
    | exchange rq => match received node_root rq with
                     | Some req => Answered (as_sent (answer_of req))
                     | None => TransportError
                     end
    | sleep _ => tt
    end;
  e_elapsed _ := false |}.

Lemma node_linked : linked node_root node_client.
Proof. split; try done; by intros []. Qed.

Lemma second_node_conforms St :
  conforms (λ _ _, True) (from_node (D := gmap string string) (V := jvalue) node_root (config Req true) settings
    (λ _, True) (λ s, s = node)) (second_node St).
Proof.
  split; [done|]. intros k Y [rq|ms]; [|done]. cbn. destruct (received node_root rq) as [req|]; [|done].
  exists "id"%string, alone, 0%nat, node, (as_sent (answer_of req)). split; [by split|].
  split; [apply as_sent_delivers|done].
Qed.

Lemma doc_asked_samples : doc_asked (TcbDoc 1 "00906ED50000" Early) ∧ doc_asked (PckCrlDoc "PLATFORM").
Proof. split; [split_and!; [by right|by vm_compute|done]|by right]. Qed.
End ChainSample.

Import MapDb Codec Concrete CollateralSample CacheSample ServiceSample ChainSample.

(** A TDX TCB info and a PCK CRL, fetched from that node. *)
Lemma chained_fetch_witness :
  (run (second_node unit) (client node_client (doc_call (TcbDoc 1 "00906ED50000" Early))) 0 ()).2 = Ok tcb_record ∧
  (run (second_node unit) (client node_client (doc_call (V := jvalue) (PckCrlDoc "PLATFORM"))) 0 ()).2 = Ok crl_record.
Proof.
  split.
  - apply (chained_fetch (config Req true) settings (λ _, True) (λ s, s = node) node_root node_client
      (TcbDoc 1 "00906ED50000" Early) tcb_record); try apply node_linked; try apply second_node_conforms; try done;
      [apply doc_asked_samples|]. intros s ->. vm_compute. reflexivity.
  - apply (chained_fetch (config Req true) settings (λ _, True) (λ s, s = node) node_root node_client
      (PckCrlDoc "PLATFORM") crl_record); try apply node_linked; try apply second_node_conforms; try done;
      [apply doc_asked_samples|]. intros s ->. vm_compute. reflexivity.
Defined.
