(* ===== verification/Cascade.v ===== *)
(** * Cascade: chains of nodes (src/src/cache.rs against src/src/pcs.rs and
    src/src/routes)

    A node in LAZY mode that lacks a document fetches it from the node it is
    set to, which may have to fetch it in turn.  [network] composes the whole
    services of a chain of nodes over HTTP, down to one that has the document;
    each of them may be doing anything else, as long as it does not lose what
    it has. *)

From Stdlib Require Import ZArith Lia.
From stdpp Require Import base list strings option gmap relations.
From S2P Require Import Prelude Text Errors Validate Env PckCert Selection Ocsp Keys Database Fifo FifoSpec Records Platforms Registry Collateral Urls Prog Cache Pcs Pool Refresh CacheSpec PcsSpec Routes RoutesSpec Rely ChainSpec.

Local Open Scope Z_scope.
#[local] Set Default Proof Using "Type*".

(** ** One read-through method *)

Section read_through.
Context {D V : Type} `{Json V} `{Base64} `{HttpSyntax} `{PercentEncoding}.
Context {X : Type} (get : Store D → option X) (key : string) (fetch : pcs_call V (res X))
  (ok : X → bool) (put : X → M D unit).

(** The shape that the four methods for signed collateral share *)
Definition read_through : @CM D V X :=
  pbind (peek get) (λ o,
  match o with
  | Some rec => answer rec
  | None =>
      with_key_lock key (
        pbind (peek get) (λ o,
        match o with
        | Some rec => answer rec
        | None =>
            rec ← (pbind (upstream fetch) (note key) : @CM D V X);
            if ok rec then _ ← store_do (λ _, put rec); answer rec
            else answer rec
        end))
  end).

Context (x : X).

Definition has (s : Shared D) : Prop := get (w_store s) = Some x.
Definition can (s : Shared D) : Prop := w_failures s !! key = None ∧ (has s ∨ get (w_store s) = None).

(** What the other requests may do: they do not take the record away, nor
    make a fetch of it fail. *)
Definition leaves_be (s s' : Shared D) : Prop := (has s → has s') ∧ (can s → can s').

Context (cl : Client) (U : ∀ Y, http_call Y → Y → Prop) (Hfetch : fetches cl U fetch x).
Context (Hput : ∀ st, ∃ st', put x st = (st', Ok ()) ∧ get st' = Some x).

Let post (s s' : Shared D) (tr : list (event http_call)) (r : res X) : Prop :=
  r = Ok x ∧ (length tr <= 1)%nat ∧ (has s → tr = []) ∧ (ok x = true ∨ has s → has s').

Lemma read_through_had s :
  has s → wp leaves_be U (over_http cl read_through) s (post s).
Proof. intros Hs. cbn. intros _ s1 [Hk _]. pose proof (Hk Hs) as Hk1. rewrite Hk1. cbn. repeat split; auto. Qed.

(** Under the lock *)
Lemma read_through_fetched s0 s :
  ¬ has s0 → can s →
  wp leaves_be U (over_http cl (lock_scope key Err (
        pbind (peek get) (λ o,
        match o with
        | Some rec => answer rec
        | None =>
            rec ← (pbind (upstream fetch) (note key) : @CM D V X);
            if ok rec then _ ← store_do (λ _, put rec); answer rec
            else answer rec
        end)))) s (post s0).
Proof.
  intros Hno Hs. cbn. intros t s1 [_ Hk1]. destruct (Hk1 Hs) as [Hf Hg]. rewrite Hf. cbn.
  intros _ s2 [_ Hk2]. destruct (Hk2 (conj Hf Hg)) as [Hf2 [Hg2|Hg2]]; rewrite Hg2; cbn.
  { repeat split; auto. }
  apply wp_bind, (wp_mono _ _ _ _ _ _ (Hfetch _ leaves_be s2)). intros s3 tr r (-> & Hl & ->). cbn.
  destruct (ok x) eqn:Eo; cbn.
  - intros _ s4 _. destruct (Hput (w_store s4)) as (st & -> & Hst). cbn. rewrite ?app_nil_r.
    split; [done|]. split; [lia|]. split; [done|]. auto.
  - rewrite ?app_nil_r. split; [done|]. split; [lia|]. split; [done|]. by intros [?|?].
Qed.

Lemma read_through_can s :
  can s → wp leaves_be U (over_http cl read_through) s (post s).
Proof.
  intros Hs. destruct (get (w_store s)) as [y|] eqn:Eg.
  { destruct Hs as [_ [Hh|Hn]]; [by apply read_through_had|congruence]. }
  assert (Hno : ¬ has s) by (unfold has; congruence).
  intros _ s1 [_ Hk1]. destruct (Hk1 Hs) as [Hf [Hg|Hg]]; cbn [fst snd]; rewrite Hg.
  - cbn. repeat split; auto.
  - refine (read_through_fetched s s1 Hno _). split; [done|by right].
Qed.
End read_through.

(** ** The documents that a node fetches from another *)

Section one_node.
Context {D V : Type} `{DatabaseLaws D} `{Json V} `{Base64} `{Sha2} `{Chrono} `{HttpSyntax} `{PercentEncodingLaws} `{ServiceEnv D V}.
Context `{SerdeLaws PckCertRecord} `{SerdeLaws PlatformPool} `{SerdeLaws (TcbRecord V)} `{SerdeLaws (IdentityRecord V)}
  `{SerdeLaws PckCrlRecord} `{SerdeLaws (list Z)} `{Serde CrlRecord} `{Serde AmdKdsRecord}
  `{Serde NvidiaOcspRecord} `{Serde RegisteredPlatform} `{Serde AppraisalList}.

(** The key of its lock and of its recent failure *)
Definition doc_key (d : Doc) : string :=
  match d with
  | TcbDoc t f u => tcb (prod_name t) 4 f (UpdateType_as_str u)
  | IdentityDoc i u => identity (identity_name i) 4 (UpdateType_as_str u)
  | PckCrlDoc ca => pckcrl ca
  | RootCaCrlDoc => rootcacrl
  | PckCertDoc qe cs ps pi _ => pckcert qe pi cs ps
  end.

(** It is not in the store; of a PCK certificate: nothing of the platform is. *)
Definition doc_lacks (d : Doc) (s : Store D) : Prop :=
  match d with
  | TcbDoc t f u => Records.get_tcb (V := V) s t f 4 u = None
  | IdentityDoc i u => Records.get_identity (V := V) s i 4 u = None
  | PckCrlDoc ca => Records.get_pckcrl s ca = None
  | RootCaCrlDoc => Records.get_rootcacrl s = None
  | PckCertDoc qe cs ps pi _ => has_platform s qe pi = false ∧ Records.get_pckcert s qe cs ps pi = None
  end.

(** It is kept once fetched: it came with its issuer chain. *)
Definition doc_cached (d : Doc) : doc_record (V := V) d → bool :=
  match d with
  | TcbDoc _ _ _ => λ rec, cacheable (tr_issuer_chain rec)
  | IdentityDoc _ _ => λ rec, cacheable (ir_issuer_chain rec)
  | PckCrlDoc _ => λ rec, cacheable (cr_issuer_chain rec)
  | RootCaCrlDoc => λ _, true
  | PckCertDoc _ _ _ _ _ => λ rec, cacheable (pc_issuer_chain rec)
  end.

(** It can be written; and a certificate that can be parsed is the one of the
    record's platform. *)
Definition doc_written (d : Doc) : doc_record (V := V) d → Prop :=
  match d with
  | PckCertDoc qe _ _ pi _ => λ rec,
      check_identity (default_pool qe pi) rec = Ok () ∧
      (∀ rec : PckCertRecord, is_Some (to_vec rec)) ∧ (∀ pool : PlatformPool, is_Some (to_vec pool))
  | TcbDoc _ _ _ | IdentityDoc _ _ | PckCrlDoc _ | RootCaCrlDoc => λ rec, is_Some (to_vec rec)
  end.

Definition doc_has d (x : doc_record (V := V) d) (s : Shared D) : Prop := doc_held d x (w_store s).

(** It has the record, or can fetch it: no fetch of it has just failed. *)
Definition doc_can d (x : doc_record (V := V) d) (s : Shared D) : Prop :=
  w_failures s !! doc_key d = None ∧ (doc_has d x s ∨ doc_lacks d (w_store s)).

(** A platform that is unknown stays so, but for the request itself. *)
Definition platform_left (d : Doc) (s s' : Shared D) : Prop :=
  match d with
  | PckCertDoc _ _ _ _ _ => doc_lacks d (w_store s) → doc_lacks d (w_store s')
  | _ => True
  end.

(** What the other requests of a node may do meanwhile: anything that does not
    take the record away, nor makes a fetch of it fail. *)
Definition undisturbed d (x : doc_record (V := V) d) (s s' : Shared D) : Prop :=
  (doc_has d x s → doc_has d x s') ∧ (doc_can d x s → doc_can d x s') ∧ platform_left d s s'.

(** A node from which the record can be had *)
Definition ready (cfg : Config) d (x : doc_record (V := V) d) (s : Shared D) : Prop :=
  doc_has d x s ∨
  (mode cfg = Lazy ∧ pcs_enabled cfg = true ∧ is_intel cfg = false ∧ doc_can d x s).

Lemma put_json_healthy {A} `{Serde A} key (a : A) (st : Store D) :
  healthy (db st) → is_Some (to_vec a) → ∃ st', put_json key a st = (st', Ok ()).
Proof.
  intros Hh [b Eb]. unfold put_json, pure, mbind, M_bind. rewrite Eb. cbn [ok_or].
  destruct (healthy_write st [BPut key b] Hh) as (st' & -> & _). by eexists.
Qed.

(** A record that is put can be read. *)
Lemma put_then_held {Q A} (get : Store D → Q → option A) (put : A → M D unit) `{!GetShaped get put} (a : A) q :
  (∀ d : D, healthy d) → gs_match (get := get) (put := put) a q →
  (∀ st, ∃ st', put a st = (st', Ok ())) → ∀ st, ∃ st', put a st = (st', Ok ()) ∧ get st' q = Some a.
Proof.
  intros Hh Hm Hp st. destruct (Hp st) as [st' E]. exists st'. split; [done|].
  destruct (proj1 (Hh (db st')) (gs_key (get := get) (put := put) q)) as [v Ev]. by eapply gs_get_put.
Qed.

Lemma unknown_pool (st : Store D) qe pi : has_platform st qe pi = false → get_platform_pool st qe pi = None.
Proof.
  intros Hk. unfold has_platform in Hk. apply bool_decide_eq_false in Hk. unfold get_platform_pool, read_json, get_json.
  destruct (get_raw st (platform qe pi)); [by destruct Hk|done].
Qed.

(** The record's own fields say which document it is. *)
Definition doc_of (d : Doc) : doc_record (V := V) d → Prop :=
  match d with
  | TcbDoc t f u => λ rec,
      tr_prod_type rec = t ∧ tr_fmspc rec = f ∧ tr_version rec = 4 ∧ tr_update_type rec = UpdateType_as_str u
  | IdentityDoc i u => λ rec, ir_enclave_id rec = i ∧ ir_version rec = 4 ∧ ir_update_type rec = UpdateType_as_str u
  | PckCrlDoc ca => λ rec, cr_ca rec = ca
  | RootCaCrlDoc => λ _, True
  | PckCertDoc qe cs ps pi _ => λ rec,
      pc_qeid rec = qe ∧ pc_pceid rec = pi ∧ pc_cpusvn rec = cs ∧ pc_pcesvn rec = ps
  end.

Lemma doc_ok_of d x : doc_ok d x → doc_of d x.
Proof.
  destruct d; cbn; [by intros (? & ? & ? & ? & _)|by intros (? & ? & ? & _)|by intros [? _]|done|].
  by intros ((? & ? & ? & ? & _) & _).
Qed.

Section puts.
Context (Hhealthy : ∀ d : D, healthy d).

Lemma tcb_put t f u (rec : TcbRecord V) :
  doc_of (TcbDoc t f u) rec → is_Some (to_vec rec) →
  ∀ st : Store D, ∃ st', put_tcb rec st = (st', Ok ()) ∧ Records.get_tcb st' t f 4 u = Some rec.
Proof.
  intros (L1 & L2 & L3 & L4) Hw. apply (put_then_held get_tcb_q put_tcb rec (t, f, 4, u) Hhealthy).
  - cbn. by rewrite L1, L2, L3, L4, !Z.eqb_refl, !eq_ic_refl.
  - intros st. by apply put_json_healthy.
Qed.

Lemma identity_put i u (rec : IdentityRecord V) :
  doc_of (IdentityDoc i u) rec → is_Some (to_vec rec) →
  ∀ st : Store D, ∃ st', put_identity rec st = (st', Ok ()) ∧ Records.get_identity st' i 4 u = Some rec.
Proof.
  intros (L1 & L2 & L3) Hw. apply (put_then_held get_identity_q put_identity rec (i, 4, u) Hhealthy).
  - cbn. by rewrite L1, L2, L3, !Z.eqb_refl, eq_ic_refl.
  - intros st. by apply put_json_healthy.
Qed.

Lemma pckcrl_put ca (rec : PckCrlRecord) :
  doc_of (PckCrlDoc ca) rec → is_Some (to_vec rec) →
  ∀ st : Store D, ∃ st', put_pckcrl rec st = (st', Ok ()) ∧ Records.get_pckcrl st' ca = Some rec.
Proof.
  intros L1 Hw. apply (put_then_held Records.get_pckcrl put_pckcrl rec ca Hhealthy).
  - cbn. by rewrite L1, eq_ic_refl.
  - intros st. by apply put_json_healthy.
Qed.

Lemma rootcacrl_put (crl : list Z) :
  is_Some (to_vec crl) →
  ∀ st : Store D, ∃ st', put_rootcacrl crl st = (st', Ok ()) ∧ Records.get_rootcacrl st' = Some crl.
Proof.
  intros Hw st. destruct (put_json_healthy rootcacrl crl st (Hhealthy _) Hw) as [st' E]. exists st'. split; [exact E|].
  destruct (proj1 (Hhealthy (db st')) rootcacrl) as [v Ev]. by eapply read_put_json.
Qed.

(** The first certificate of a platform that was unknown *)
Lemma merge_unknown qe cs ps pi enc e m (rec : PckCertRecord) (st : Store D) :
  doc_ok (V := V) (PckCertDoc qe cs ps pi enc) rec → doc_written (PckCertDoc qe cs ps pi enc) rec →
  doc_lacks (PckCertDoc qe cs ps pi enc) st →
  ∃ st', merge_pckcert_after_fetch rec (AbsentGet e m) st = (st', Ok ()) ∧
    doc_held (V := V) (PckCertDoc qe cs ps pi enc) rec st'.
Proof.
  intros ((L1 & L2 & L3 & L4 & L5 & L6) & _) (Hid & Hr & Hp) [Hk _].
  pose proof (unknown_pool st qe pi Hk) as Hnone.
  unfold merge_pckcert_after_fetch, read, pure, inspect, mbind, M_bind. rewrite L1, L2, Hnone. cbn [check_platform_publication negb].
  set (pool := with_raw_tcbs (merged_pool (default_pool qe pi) true rec) (track rec [])).
  destruct (Hr (with_credentials rec pool)) as [w Ew], (Hp pool) as [v Ev].
  assert (merge_batch st None rec = Ok [BPut (pckcert qe pi cs ps) w; BPut (platform qe pi) v]) as ->.
  { unfold merge_batch. cbn [default]. rewrite L1, L2, Hid. cbn. unfold batch_pckcert, batch_pool. 
    change (with_raw_tcbs _ _) with pool. rewrite Ew, Ev. cbn. unfold rec_key. by rewrite L1, L2, L3, L4. }
  destruct (healthy_write st [BPut (pckcert qe pi cs ps) w; BPut (platform qe pi) v] (Hhealthy _)) as (st' & Est & Hc & _).
  exists st'. split; [exact Est|]. cbn in Hc. split.
  - unfold has_platform. rewrite (healthy_get_raw _ _ (Hhealthy _)), Hc, lookup_insert_eq. by apply bool_decide_eq_true.
  - exists (with_credentials rec pool). split.
    + unfold Records.get_pckcert. destruct (proj1 (Hhealthy (db st')) (pckcert qe pi cs ps)) as [v' Ev'].
      rewrite (read_json_content _ _ _ Ev'), Hc, lookup_insert_ne, lookup_insert_eq
        by apply not_eq_sym, pckcert_not_platform.
      cbn. rewrite (serde_roundtrip _ _ Ew). cbn. by rewrite L1, L2, L3, L4, !eq_ic_refl.
    + destruct rec; cbn in *; subst. done.
Qed.
End puts.

(** What a request for the document leaves and returns, from state [s] *)
Definition got d (x : doc_record (V := V) d) (s s' : Shared D) (tr : list (event http_call)) : Prop :=
  (length tr <= 1)%nat ∧ (doc_has d x s → tr = []) ∧ (doc_cached d x = true ∨ doc_has d x s → doc_has d x s').

Section node.
Context (cfg : Config) (settings : Settings) (cl : Client) (U : ∀ X, http_call X → X → Prop).

(** In LAZY mode the four methods are that one read-through. *)
Definition doc_through d : @CM D V (doc_record (V := V) d) :=
  match d with
  | TcbDoc t f u =>
      read_through (λ st, Records.get_tcb st t f 4 u) (doc_key (TcbDoc t f u)) (Cache.fetch_tcb t f 4 u)
        (doc_cached (TcbDoc t f u)) put_tcb
  | IdentityDoc i u =>
      read_through (λ st, Records.get_identity st i 4 u) (doc_key (IdentityDoc i u)) (Cache.fetch_identity i 4 u)
        (doc_cached (IdentityDoc i u)) put_identity
  | PckCrlDoc ca =>
      read_through (λ st, Records.get_pckcrl st ca) (doc_key (PckCrlDoc ca)) (Cache.fetch_pckcrl ca)
        (doc_cached (PckCrlDoc ca)) put_pckcrl
  | RootCaCrlDoc =>
      read_through Records.get_rootcacrl (doc_key RootCaCrlDoc) Cache.fetch_rootcacrl
        (doc_cached RootCaCrlDoc) put_rootcacrl
  | PckCertDoc qe cs ps pi enc => Pool.get_pckcert cfg qe cs ps pi enc 4
  end.

Lemma doc_get_through d : mode cfg = Lazy → pcs_enabled cfg = true → doc_get cfg d = doc_through d.
Proof.
  intros Hm He. destruct d; cbn [doc_get doc_through]; try done;
    unfold Cache.get_tcb, Cache.get_identity, Cache.get_pckcrl, Cache.get_rootcacrl;
    rewrite (bool_decide_eq_true_2 _ Hm), He; reflexivity.
Qed.


Lemma doc_get_had d (x : doc_record (V := V) d) s :
  doc_has d x s →
  wp (undisturbed d x) U (over_http cl (doc_get (D := D) cfg d)) s
    (λ s' tr r, (∃ rec, r = Ok rec ∧ doc_page d rec = doc_page d x) ∧ tr = [] ∧ doc_has d x s').
Proof.
  intros Hs. destruct d; cbn in *.
  1-4: intros _ s1 [Hk _]; pose proof (Hk Hs) as Hs1; rewrite Hs1; cbn; eauto.
  intros _ s1 [Hk _]. pose proof (Hk Hs) as Hs1. destruct Hs1 as [Hp1 Hr1]. rewrite Hp1. cbn.
  intros _ s2 [Hk2 _]. pose proof (Hk2 (conj Hp1 Hr1)) as Hs2. destruct Hs2 as (Hp2 & rec & Hg & ->). rewrite Hg. cbn.
  split; [by exists rec|]. split; [done|]. split; [done|]. by exists rec.
Qed.

(** The whole service, given what its call of the cache does *)
Lemma service_wp d (x : doc_record (V := V) d) id (req : HttpIn V) s Q :
  pcs_version cfg = 4 → doc_asked d → gets d req →
  wp (undisturbed d x) U (over_http cl (doc_get (D := D) cfg d)) s
    (λ s' tr r, (∃ rec, r = Ok rec ∧ doc_page d rec = doc_page d x) ∧ Q s' tr) →
  wp (undisturbed d x) U (service cfg settings cl id req) s (λ s' tr r, kept (doc_page d x) r ∧ Q s' tr).
Proof.
  intros Hver Ha Hg Hw. unfold service. pose proof Hg as (Hv & Hp & _ & Hb).
  apply (app_layers _ _ (λ p, wp (undisturbed d x) U (over_http cl p) s
    (λ s' tr r, kept (doc_page d x) r ∧ Q s' tr))); [|done|done|by rewrite Hp; apply doc_no_slash|].
  - intros f p Hp' Hf. apply wp_over_pmap, (wp_mono _ _ _ _ _ _ Hp'). intros s' tr r [Hk Hq]. split; [|done].
    by eapply kept_trans.
  - rewrite (doc_routed cfg settings d req Hver Ha Hg). apply wp_over_pmap, wp_over_bind, (wp_mono _ _ _ _ _ _ Hw).
    intros s' tr r [(rec & -> & Hrec) Hq]. cbn. rewrite Hrec, app_nil_r. split; [apply kept_refl|done].
Qed.

Context (Hhealthy : ∀ d : D, healthy d).

Lemma less_rely {St A} (R1 R2 : St → St → Prop) (R3 : St → St → Prop) (p : prog St http_call A) s Q :
  wp (λ s s', R1 s s' ∧ R2 s s') U p s Q → wp (λ s s', R1 s s' ∧ R2 s s' ∧ R3 s s') U p s Q.
Proof. apply wp_rely. by intros s1 s2 (? & ? & _). Qed.

(** The PCK certificate of a platform that is unknown: under its lock the
    upstream is asked, and what it answers makes the platform known. *)
Lemma pckcert_fetched qe cs ps pi enc (x : PckCertRecord) s :
  let d := PckCertDoc qe cs ps pi enc in
  mode cfg = Lazy → pcs_enabled cfg = true → is_intel cfg = false → doc_asked d →
  doc_ok (V := V) d x → doc_written d x → fetches cl U (doc_call d) x →
  w_failures s !! doc_key d = None → doc_lacks d (w_store s) →
  wp (undisturbed d x) U (over_http cl (Pool.get_pckcert (D := D) (V := V) cfg qe cs ps pi enc 4)) s
    (λ s' tr r, r = Ok x ∧ got d x s s' tr).
Proof.
  intros d Hm He Hi Ha Hok Hwr Hf Hfail Hlack.
  assert (Hno : ¬ doc_has d x s).
  { intros [Hk _]. destruct Hlack as [Hk' _]. congruence. }
  assert (Henc : (if is_empty (default "" enc) then None else Some (default "" enc)) = enc).
  { destruct Ha as (_ & _ & _ & _ & _ & He'). by destruct (enc_ppid_valid enc He') as [->|(e & -> & He2 & _)]; cbn; [|rewrite He2]. }
  set (quiet s := w_failures s !! doc_key d = None ∧ doc_lacks d (w_store s)).
  assert (Hstep : ∀ s s', undisturbed d x s s' → quiet s → quiet s').
  { intros s1 s2 (_ & Hc & Hp) [Hf1 Hl1]. split; [|by apply Hp]. apply (Hc (conj Hf1 (or_intror Hl1))). }
  unfold Pool.get_pckcert. cbn.
  intros _ s1 R1. pose proof (Hstep _ _ R1 (conj Hfail Hlack)) as Q1. destruct Q1 as [F1 [K1 N1]]. rewrite K1. cbn.
  intros t s2 R2. pose proof (Hstep _ _ R2 (conj F1 (conj K1 N1))) as Q2. destruct Q2 as [F2 L2].
  unfold doc_key in F2. cbn in F2. rewrite F2. cbn.
  intros _ s3 R3. pose proof (Hstep _ _ R3 (conj F2 L2)) as Q3. destruct Q3 as [F3 [K3 N3]]. rewrite N3. cbn.
  rewrite (bool_decide_eq_true_2 _ Hm), Hi. cbn.
  intros _ s4 R4. pose proof (Hstep _ _ R4 (conj F3 (conj K3 N3))) as Q4. destruct Q4 as [F4 [K4 N4]].
  rewrite (unknown_pool _ _ _ K4). unfold fill_pckcert. rewrite He, Hi. cbn. rewrite Henc.
  apply wp_bind, (wp_mono _ _ _ _ _ _ (Hf _ (undisturbed d x) s4)). intros s5 tr r (-> & Hl & ->). cbn.
  destruct (cacheable (pc_issuer_chain x)) eqn:Ec; cbn.
  - intros _ s5 R5. pose proof (Hstep _ _ R5 (conj F4 (conj K4 N4))) as Q5. destruct Q5 as [_ L5].
    destruct (merge_unknown Hhealthy qe cs ps pi enc (default "" enc) "" x (w_store s5) Hok Hwr L5) as (st' & Est & Hst).
    unfold publication. cbn. rewrite Est. cbn. rewrite app_nil_r.
    split; [done|]. split; [lia|]. split; [done|]. auto.
  - rewrite app_nil_r. split; [done|]. split; [lia|]. split; [done|]. unfold doc_cached. cbn. rewrite Ec. by intros [?|?].
Qed.

Context (d : Doc) (x : doc_record (V := V) d).
Context (Hask : doc_asked d) (Hok : doc_ok d x) (Hwr : doc_written d x).
Context (Hfetch : fetches cl U (doc_call d) x).

Lemma doc_get_wp s :
  ready cfg d x s →
  wp (undisturbed d x) U (over_http cl (doc_get (D := D) cfg d)) s
    (λ s' tr r, (∃ rec, r = Ok rec ∧ doc_page d rec = doc_page d x) ∧ got d x s s' tr).
Proof.
  assert (Hhad : doc_has d x s → wp (undisturbed d x) U (over_http cl (doc_get (D := D) cfg d)) s
    (λ s' tr r, (∃ rec, r = Ok rec ∧ doc_page d rec = doc_page d x) ∧ got d x s s' tr)).
  { intros Hs. apply (wp_mono _ _ _ _ _ _ (doc_get_had d x s Hs)). intros s' tr r (Hr & -> & Hh). split; [done|].
    split; [cbn; lia|]. by split. }
  intros [Hs|(Hm & He & Hi & Hs)]; [by apply Hhad|]. destruct (proj2 Hs) as [Hh|Hlack]; [by apply Hhad|]. clear Hhad.
  rewrite (doc_get_through d Hm He). apply (wp_mono _ _ _ _ (λ s' tr r, r = Ok x ∧ got d x s s' tr)).
  2:{ intros s' tr r [-> Hg]. split; [by exists x|done]. }
  destruct d as [t f u|i u|ca| |qe cs ps pi enc];
    [..|exact (pckcert_fetched qe cs ps pi enc x s Hm He Hi Hask Hok Hwr Hfetch (proj1 Hs) Hlack)].
  - refine (less_rely _ _ _ _ _ _ (read_through_can _ _ _ _ _ x cl U Hfetch (tcb_put Hhealthy t f u x (doc_ok_of _ _ Hok) Hwr) s Hs)).
  - refine (less_rely _ _ _ _ _ _ (read_through_can _ _ _ _ _ x cl U Hfetch (identity_put Hhealthy i u x (doc_ok_of _ _ Hok) Hwr) s Hs)).
  - refine (less_rely _ _ _ _ _ _ (read_through_can _ _ _ _ _ x cl U Hfetch (pckcrl_put Hhealthy ca x (doc_ok_of _ _ Hok) Hwr) s Hs)).
  - refine (less_rely _ _ _ _ _ _ (read_through_can _ _ _ _ _ x cl U Hfetch (rootcacrl_put Hhealthy x Hwr) s Hs)).
Qed.
End node.

(** A node that has the record serves it by itself, in any mode and whatever
    its upstream is like. *)
Definition serves_alone d (x : doc_record (V := V) d) (s : Shared D) : Prop :=
  ∀ cfg settings cl id req e n,
    pcs_version cfg = 4 → gets d req → conforms (undisturbed d x) (λ _ _ _, True) e →
    let '(s', tr, r) := run e (service cfg settings cl id req) n s in
    kept (doc_page d x) r ∧ tr = [] ∧ doc_has d x s'.

Lemma has_serves_alone d x s : doc_asked d → doc_has d x s → serves_alone d x s.
Proof.
  intros Ha Hs cfg settings cl id req e n Hver Hg He.
  pose proof (service_wp cfg settings cl (λ _ _ _, True) d x id req s (λ s' tr, tr = [] ∧ doc_has d x s') Hver Ha Hg
    (doc_get_had cfg cl _ d x s Hs)) as Hw.
  apply (wp_run _ _ e _ n s _ He) in Hw. by destruct (run _ _ _ _) as [[s' tr] r].
Qed.

(** ** Chains *)

Record Node := { nd_root : string; nd_cfg : Config; nd_settings : Settings; nd_client : Client }.

(** What a node answers whose own exchanges are answered as [U] says: the
    outcome of its service, from a state that is ready; anything to what is
    not a GET under its root. *)
Definition from_service d (x : doc_record (V := V) d) (nd : Node) (U : ∀ X, http_call X → X → Prop) :
    ∀ X, http_call X → X → Prop := λ X c,
  match c in http_call X return X → Prop with
  | exchange rq => λ y,
      match received (nd_root nd) rq with
      | Some req => ∃ id e n (s : Shared D) h,
          ready (nd_cfg nd) d x s ∧ conforms (undisturbed d x) U e ∧
          delivers (run e (service (nd_cfg nd) (nd_settings nd) (nd_client nd) id req) n s).2 h ∧ y = Answered h
      | None => True
      end
  | sleep _ => λ _, True
  end.

(** The nodes of a chain, the nearest first, above one that answers as [U0] says *)
Fixpoint network d (x : doc_record (V := V) d) (nodes : list Node) (U0 : ∀ X, http_call X → X → Prop) :
    ∀ X, http_call X → X → Prop :=
  match nodes with
  | [] => U0
  | nd :: rest => from_service d x nd (network d x rest U0)
  end.

Definition top (root0 : string) (nodes : list Node) : string :=
  match nodes with [] => root0 | nd :: _ => nd_root nd end.

Fixpoint connected (root0 : string) (nodes : list Node) : Prop :=
  match nodes with
  | [] => True
  | nd :: rest => linked (top root0 rest) (nd_client nd) ∧ pcs_version (nd_cfg nd) = 4 ∧ connected root0 rest
  end.

Section chain.
Context (d : Doc) (x : doc_record (V := V) d).
Context (Hhealthy : ∀ d : D, healthy d) (Hask : doc_asked d) (Hok : doc_ok d x) (Hwr : doc_written d x).

(** One node, when the one below gives the page *)
Lemma node_serves root cl cfg settings U id req s :
  linked root cl → pcs_version cfg = 4 → gives root U d (doc_page d x) → gets d req → ready cfg d x s →
  wp (undisturbed d x) U (service cfg settings cl id req) s (λ s' tr r, kept (doc_page d x) r ∧ got d x s s' tr).
Proof.
  intros Hln Hver Hgv Hg Hs. apply service_wp; [done..|]. apply doc_get_wp; try done.
  by apply (doc_comes root cl Hln U d x Hask Hok Hgv).
Qed.

Lemma network_gives root0 U0 nodes :
  connected root0 nodes → gives root0 U0 d (doc_page d x) →
  gives (top root0 nodes) (network d x nodes U0) d (doc_page d x).
Proof.
  intros Hc Hbot. induction nodes as [|nd rest IH]; [done|]. destruct Hc as (Hln & Hver & Hc).
  intros rq y Hm Hu Hy. destruct (received_doc (V := V) _ d rq Hm Hu) as (req & Hrec & Hg).
  cbn [network from_service top] in *. rewrite Hrec in Hy. destruct Hy as (id & e & n & s & h & Hs & He & Hd & ->).
  exists h. split; [done|].
  pose proof (node_serves _ _ _ (nd_settings nd) _ id req s Hln Hver (IH Hc) Hg Hs) as Hw.
  destruct (wp_run _ _ e _ n s _ He Hw) as [Hk _]. eapply delivered; [by apply doc_sendable|exact Hk|exact Hd].
Qed.
End chain.

(** C15: Collateral travels down a chain of nodes.  However many PCCS nodes are
    set to fetch from one another, down to one that holds a document, a client
    that asks the nearest node for it gets the page the farthest would have
    served: the status, the body and the headers of the collateral.  Every node
    of the chain that has the document answers from its store, in any mode;
    one that lacks it makes at most one HTTP request, to the next, and keeps the record
    if it came with its issuer chain; from then on it serves the document by
    itself, whatever its mode and its upstream.  (The document is a TCB info,
    an enclave identity, a PCK CRL, the root CA CRL, or a PCK certificate of a
    platform that the nodes without it do not know.  The databases work, and
    while a node serves the request its other requests neither take the record
    away nor note a failed fetch of it, nor make the platform known.) *)
Theorem cascade d (x : doc_record (V := V) d) root0 cfg0 settings0 (T0 : Time → Prop) (I0 : Shared D → Prop)
    nd rest id req e n s :
  doc_asked d → doc_ok d x → doc_written d x → (∀ d : D, healthy d) →
  pcs_version cfg0 = 4 → (∀ s, I0 s → doc_held d x (w_store s)) → connected root0 (nd :: rest) →
  gets d req → ready (nd_cfg nd) d x s →
  conforms (undisturbed d x) (network d x rest (from_node (V := V) root0 cfg0 settings0 T0 I0)) e →
  let '(s', tr, r) := run e (service (nd_cfg nd) (nd_settings nd) (nd_client nd) id req) n s in
  kept (doc_page d x) r ∧ got d x s s' tr ∧ (doc_cached d x = true → serves_alone d x s').
Proof.
  intros Ha Hok Hwr Hh Hver0 Hh0 (Hln & Hver & Hc) Hg Hs He.
  pose proof (node_gives root0 cfg0 settings0 T0 I0 d x Hver0 Ha Hok Hh0) as Hbot.
  pose proof (network_gives d x Hh Ha Hok Hwr root0 _ rest Hc Hbot) as Hgv.
  pose proof (node_serves d x Hh Ha Hok Hwr _ _ _ (nd_settings nd) _ id req s Hln Hver Hgv Hg Hs) as Hw.
  apply (wp_run _ _ e _ n s _ He) in Hw. destruct (run _ _ _ _) as [[s' tr] r]. destruct Hw as [Hk Hgot].
  split; [done|]. split; [done|]. intros Hcached. apply has_serves_alone; [done|]. apply Hgot. by left.
Qed.
End one_node.

(** ** Three concrete nodes *)

Module CascadeSample.
Import MapDb Codec Concrete CollateralSample CacheSample ServiceSample ChainSample.

Definition middle_root : string := "https://middle.example:8081".
Definition nearest_root : string := "https://nearest.example:8081".

(** Two nodes in LAZY mode, the nearest set to the middle one, which is set to
    the node of [ChainSample] *)
Definition middle : Node :=
  {| nd_root := middle_root; nd_cfg := config Lazy false; nd_settings := settings; nd_client := node_client |}.
Definition nearest : Node :=
  {| nd_root := nearest_root; nd_cfg := config Lazy false; nd_settings := settings;
     nd_client := {| base := middle_root ++ "/sgx/certification/v4/"; api_key := ""; pcs_is_intel := false; max_attempts := 6 |} |}.

Definition early_tcb : Doc := TcbDoc 1 "00906ED50000" Early.
Definition early_request : HttpIn jvalue :=
  request Get "/tdx/certification/v4/tcb" (Some "fmspc=00906ED50000&update=early"%string).

(** The middle node, empty at first *)
Definition middle_answer (req : HttpIn jvalue) : Response :=
  (run (second_node (Shared (gmap string string)))
     (service (nd_cfg middle) (nd_settings middle) (nd_client middle) "id" req) 0 empty_shared).2.

Definition above_middle (St : Type) : Env St http_call := {|
  e_others _ s := s; e_time _ := at_second 0;
  e_answer X call _ := match call in http_call X return X with
    | exchange rq => match received middle_root rq with
                     | Some req => Answered (as_sent (middle_answer req))
                     | None => TransportError
                     end
    | sleep _ => tt
    end;
  e_elapsed _ := false |}.

Definition nearest_run : Shared (gmap string string) * list (event http_call) * Response :=
  run (above_middle _) (service (nd_cfg nearest) (nd_settings nearest) (nd_client nearest) "id" early_request) 0 empty_shared.

Lemma all_connected : connected node_root [nearest; middle].
Proof.
  split; [split; try done; by intros []|]. split; [done|]. split; [apply node_linked|]. by split.
Qed.

Lemma empty_ready (nd : Node) :
  mode (nd_cfg nd) = Lazy → pcs_enabled (nd_cfg nd) = true → is_intel (nd_cfg nd) = false →
  ready (nd_cfg nd) early_tcb tcb_record empty_shared.
Proof.
  intros Hm He Hi. right. split; [done|]. split; [done|]. split; [done|]. split; [done|]. right. by vm_compute.
Qed.

(** Left alone, with those answers, a node is undisturbed. *)
Lemma quiet_conforms U (e : Env (Shared (gmap string string)) http_call) :
  (∀ n s, e_others e n s = s) → (∀ n X (c : http_call X), U X c (e_answer e X c n)) →
  conforms (undisturbed early_tcb tcb_record) U e.
Proof. intros Ho Ha. split; [|done]. intros n s. rewrite Ho. done. Qed.

Lemma above_middle_conforms :
  conforms (undisturbed early_tcb tcb_record)
    (network early_tcb tcb_record [middle]
       (from_node (D := gmap string string) (V := jvalue) node_root (config Req true) settings (λ _, True) (λ s, s = node)))
    (above_middle _).
Proof.
  apply quiet_conforms; [done|]. intros n X [rq|ms]; [|done]. cbn. destruct (received middle_root rq) as [req|]; [|done].
  exists "id"%string, (second_node (Shared (gmap string string))), 0%nat, empty_shared, (as_sent (middle_answer req)).
  split; [by apply (empty_ready middle)|]. split; [|split; [apply as_sent_delivers|done]].
  apply quiet_conforms; [done|]. apply second_node_conforms.
Qed.
End CascadeSample.

Import MapDb Codec Concrete CollateralSample CacheSample ServiceSample ChainSample CascadeSample.

(** A TDX TCB info through two empty nodes *)
Lemma cascade_witness :
  rs_status nearest_run.2 = 200 ∧ rs_body nearest_run.2 = bytes "null" ∧ length nearest_run.1.2 = 1%nat ∧
  let '(s', tr, r) := nearest_run in
  kept (doc_page early_tcb tcb_record) r ∧ got early_tcb tcb_record empty_shared s' tr ∧
  (doc_cached early_tcb tcb_record = true → serves_alone early_tcb tcb_record s').
Proof.
  split; [by vm_compute|]. split; [by vm_compute|]. split; [by vm_compute|].
  apply (cascade early_tcb tcb_record node_root (config Req true) settings (λ _, True) (λ s, s = node)
    nearest [middle] "id" early_request (above_middle _) 0 empty_shared); try done.
  - apply doc_asked_samples.
  - cbn. eauto.
  - apply FifoSpec.Sample.map_healthy.
  - intros s ->. vm_compute. reflexivity.
  - apply all_connected.
  - by apply (empty_ready nearest).
  - apply above_middle_conforms.
Defined.
