(* ===== verification/Coalesce.v ===== *)
(** * Coalesce: concurrent requests for one signed document share one fetch
    (src/src/cache.rs)

    The argument of SingleFlight for the methods of the cache that fill a miss
    of a TCB info, an enclave identity, a PCK CRL or the root CA CRL, which
    are one read-through ([Cascade.read_through]). *)

From Stdlib Require Import ZArith Lia.
From stdpp Require Import base list strings option gmap relations.
From S2P Require Import Prelude Text Errors Validate Env PckCert Selection Ocsp Keys Database Fifo FifoSpec Records Platforms Registry Collateral Urls Prog Disconnect Cache Pcs Pool Refresh CacheSpec PcsSpec Routes RoutesSpec SingleFlight Rely ChainSpec Cascade.

Local Open Scope Z_scope.
#[local] Set Default Proof Using "Type*".

Section coalesce.
Context {D V X : Type} (get : Store D → option X) (key : string) (fetch : pcs_call V (res X))
  (ok : X → bool) (put : X → M D unit).
Context (T : Time → Prop) (ans : ∀ Y, pcs_call V Y → Y → Prop) (s0 : Shared D).
Context (decode : ∀ Y, pcs_call V Y → option (Y → res X)).

(** The race happens within the second for which a failure is remembered. *)
Definition same_second : Prop := ∀ t t', T t → T t' → elapsed (t_mono t) (t_mono t') < FAILURE_TTL.

(** The answer is known to the requests still to come. *)
Definition settled (r : res X) (s : Shared D) : Prop :=
  match r with
  | Ok x => get (w_store s) = Some x ∧ w_failures s !! key = None
  | Err e => get (w_store s) = None ∧ ∃ t, T t ∧ w_failures s !! key = Some (t_mono t, RecentErr e)
  end.

Definition doc_inv (g : ghost) (s : Shared D) : Prop :=
  match g with
  | GOpen | GPending _ => s = s0
  | GSettled r => settled r s
  end.

Context (Hclose : same_second) (Hdecode : decode _ fetch = Some (λ r, r)).
Context (Hget : get (w_store s0) = None) (Hfail : w_failures s0 !! key = None)
  (Hsize : Z.of_nat (size (w_failures s0)) < RECENT_OUTCOMES_MAX).
(** What the upstream may answer is kept, and then read. *)
Context (Hput : ∀ x, ans _ fetch (Ok x) → ok x = true ∧ ∃ st, put x (w_store s0) = (st, Ok ()) ∧ get st = Some x).

Notation safe := (safe key T ans decode (λ r : res X, r) None doc_inv).

Lemma recent_err t t' : T t → T t' → elapsed (t_mono t) (t_mono t') <? FAILURE_TTL = true.
Proof. intros Ht Ht'. by apply Z.ltb_lt, Hclose. Qed.

Lemma fresh_note o now : remember_in key o now (w_failures s0) = <[key := (now, o)]> (w_failures s0).
Proof. unfold remember_in. by rewrite (proj2 (Z.leb_gt _ _)) by done. Qed.

Lemma safe_end (r : res X) : safe (VInK r) (Unlock key (Ret r)).
Proof. cbn. split; [done|]. exists r. split; [done|]. right. by exists r. Qed.

Let body : @CM D V X :=
  pbind (peek get) (λ o,
  match o with
  | Some rec => answer rec
  | None =>
      rec ← (pbind (upstream fetch) (note key) : @CM D V X);
      if ok rec then _ ← store_do (λ _, put rec); answer rec
      else answer rec
  end).

Ltac same_ghost g v := exists g, v; (split; [by left|]); (split; [done|]); (split; [done|]).

(** Under the lock, with the record in the store *)
Lemma safe_doc_known x : safe (VInK (Ok x : res X)) (pbind body (λ a, Unlock key (Ret a))).
Proof.
  intros g t s Hg Ht Hs. cbn in Hg. subst g. cbn in Hs.
  same_ghost (GSettled (Ok x : res X)) (VInK (Ok x : res X)). split; [done|]. cbn. rewrite (proj1 Hs). apply safe_end.
Qed.

(** The task that holds the answer publishes it. *)
Lemma safe_publish r :
  ans _ fetch r →
  safe (VOwn r) (pbind ((note key r : @CM D V X) ≫= λ rec,
      if ok rec then _ ← store_do (λ _, put rec); answer rec else answer rec) (λ a, Unlock key (Ret a))).
Proof.
  intros Hr. destruct r as [x|e]; cbn.
  - destruct (Hput x Hr) as (Hok & st & Est & Hst). rewrite Hok. cbn. intros g t s -> Ht ->.
    exists (GSettled (Ok x : res X)), (VInK (Ok x : res X)). rewrite Est. split; [right; eauto|]. cbn.
    split; [done|]. split; [done|]. split; [done|]. apply (safe_end (Ok x)).
  - intros g t s -> Ht ->. exists (GSettled (Err e : res X)), (VInK (Err e : res X)).
    split; [right; eauto|]. cbn. split; [done|]. split; [done|]. split; [|apply (safe_end (Err e))].
    rewrite fresh_note. split; [done|]. exists t. split; [done|]. apply lookup_insert_eq.
Qed.

(** Under the lock, with nothing published and nobody fetching *)
Lemma safe_doc_open : safe VInOpen (pbind body (λ a, Unlock key (Ret a))).
Proof.
  intros g t s Hg Ht Hs. cbn in Hg. subst g. cbn in Hs. subst s.
  same_ghost (GOpen (R := res X)) (VInOpen (R := res X)). split; [done|]. cbn. rewrite Hget. cbn.
  split; [done|]. split; [done|]. exists (λ r, r). split; [done|]. intros r Hr. by apply safe_publish.
Qed.

Lemma safe_lock : safe VOut (with_key_lock key body).
Proof.
  cbn [Cache.with_key_lock lock_scope safe]. split; [done|]. left. split; [done|].
  intros g t s Hg Ht Hs. destruct g as [|r|r]; cbn in Hs.
  - subst s. rewrite Hfail. same_ghost (GOpen (R := res X)) (VInOpen (R := res X)). split; [done|]. apply safe_doc_open.
  - by destruct (Hg r).
  - destruct r as [x|e]; cbn in Hs.
    + rewrite (proj2 Hs). same_ghost (GSettled (Ok x : res X)) (VInK (Ok x : res X)). split; [done|]. apply safe_doc_known.
    + destruct Hs as [Hn (t' & Ht' & Hf)]. rewrite Hf, (recent_err t t') by done.
      same_ghost (GSettled (Err e : res X)) (VInK (Err e : res X)).
      split; [cbn; eauto|]. apply (safe_end (Err e)).
Qed.

Lemma safe_read_through : safe VOut (read_through get key fetch ok put).
Proof.
  intros g t s _ Ht Hs. destruct g as [|r|[x|e]]; cbn in Hs; cbn [fst snd].
  - subst s. rewrite Hget. same_ghost (GOpen (R := res X)) (VOut (R := res X)). split; [done|]. apply safe_lock.
  - subst s. rewrite Hget. same_ghost (GPending r) (VOut (R := res X)). split; [done|]. apply safe_lock.
  - rewrite (proj1 Hs). same_ghost (GSettled (Ok x : res X)) (VOutK (Ok x : res X)). split; [done|]. right. by exists (Ok x).
  - rewrite (proj1 Hs). same_ghost (GSettled (Err e : res X)) (VOut (R := res X)). split; [done|]. apply safe_lock.
Qed.
End coalesce.

(** ** What the client answers *)

Section client.
Context {D V : Type} `{Database D} `{Json V} `{Base64} `{HttpSyntax} `{PercentEncoding}.
Context (cl : Client).

(** Whatever the upstream sends, a record that the client returns is one of
    the document that it was asked for. *)
Definition right_one (d : Doc) (r : res (doc_record (V := V) d)) : Prop := ∀ x, r = Ok x → doc_of d x.

Lemma returns_after {St A B} (Q : res B → Prop) (c : @NetM St A) (f : A → @NetM St B) :
  (∀ e, Q (Err e)) → (∀ a, returns Q (f a)) → returns Q (c ≫= f).
Proof. intros He Hf. apply (returns_bind (λ _, True)); [by apply returns_any|]. intros [a|e] _; [apply Hf|apply He]. Qed.

Lemma client_right {St} d : doc_asked d → returns (St := St) (right_one d) (client cl (doc_call d)).
Proof.
  assert (Herr : ∀ d e, right_one d (Err e)) by done.
  intros Ha. destruct d as [t f u|i u|ca| |qe cs ps pi enc]; cbn [client doc_call].
  - destruct Ha as (_ & Hf & _). destruct (require_hex_canonical _ _ _ Hf) as (_ & _ & Hup & _).
    unfold fetch_tcb. cbn [Z.eqb Pos.eqb]. apply returns_after; [done|]. intros h. destruct (negb _); [done|].
    apply returns_after; [done|]. intros raw. apply returns_after; [done|]. intros v x [= <-]. by repeat split.
  - unfold fetch_identity. cbn [Z.eqb Pos.eqb]. apply returns_after; [done|]. intros h. destruct (negb _); [done|].
    apply returns_after; [done|]. intros raw. apply returns_after; [done|]. intros v x [= <-]. by repeat split.
  - unfold fetch_pckcrl. apply returns_after; [done|]. intros h. destruct (negb _); [done|]. intros x [= <-].
    by destruct Ha as [-> | ->].
  - by apply returns_any.
  - destruct Ha as (Hqe & _ & Hcs & Hps & Hpi & He).
    destruct (require_hex_canonical _ _ _ Hcs) as (_ & _ & Hcsu & _), (require_hex_canonical _ _ _ Hps) as (_ & _ & Hpsu & _),
      (require_hex_canonical _ _ _ Hpi) as (_ & _ & Hpiu & _).
    unfold fetch_pckcert_pccs. apply returns_after; [done|]. intros h. destruct (negb _); [done|]. intros x [= <-].
    cbn. rewrite (qeid_upper _ Hqe). done.
Qed.
End client.

(** ** The documents *)

Section documents.
Context {D V : Type} `{DatabaseLaws D} `{Json V} `{Base64} `{Sha2} `{Chrono} `{HttpSyntax} `{PercentEncodingLaws} `{ServiceEnv D V}.
Context `{SerdeLaws PckCertRecord} `{SerdeLaws PlatformPool} `{SerdeLaws (TcbRecord V)} `{SerdeLaws (IdentityRecord V)}
  `{SerdeLaws PckCrlRecord} `{SerdeLaws (list Z)} `{Serde CrlRecord} `{Serde AmdKdsRecord}
  `{Serde NvidiaOcspRecord} `{Serde RegisteredPlatform} `{Serde AppraisalList}.

(** Every document but a PCK certificate *)
Definition signed (d : Doc) : bool := match d with PckCertDoc _ _ _ _ _ => false | _ => true end.

(** A call of the upstream client is the fetch of [d], with the answer it yields. *)
Definition decode_doc (d : Doc) : ∀ Y, pcs_call V Y → option (Y → res (doc_record (V := V) d)) :=
  match d with
  | TcbDoc t f u => λ Y c,
      match c in pcs_call _ Y return option (Y → res (TcbRecord V)) with
      | Cache.fetch_tcb t' f' v u' => if bool_decide ((t', f', v, u') = (t, f, 4, u)) then Some (λ r, r) else None
      | _ => None
      end
  | IdentityDoc i u => λ Y c,
      match c in pcs_call _ Y return option (Y → res (IdentityRecord V)) with
      | Cache.fetch_identity i' v u' => if bool_decide ((i', v, u') = (i, 4, u)) then Some (λ r, r) else None
      | _ => None
      end
  | PckCrlDoc ca => λ Y c,
      match c in pcs_call _ Y return option (Y → res PckCrlRecord) with
      | Cache.fetch_pckcrl ca' => if bool_decide (ca' = ca) then Some (λ r, r) else None
      | _ => None
      end
  | RootCaCrlDoc => λ Y c,
      match c in pcs_call _ Y return option (Y → res (list Z)) with
      | Cache.fetch_rootcacrl => Some (λ r, r)
      | _ => None
      end
  | PckCertDoc _ _ _ _ _ => λ _ _, None
  end.

Lemma decode_own d : signed d = true → decode_doc d _ (doc_call d) = Some (λ r, r).
Proof. destruct d; cbn; intros; [by rewrite bool_decide_eq_true_2..|done|done]. Qed.

Lemma decoded_call d ev r : asked (decode_doc d) ev r → ∃ i, ev = (i, Called (doc_call d) (Some r)).
Proof.
  intros (i & Y & c & f & y & -> & Hd & <-). exists i.
  destruct d, c; cbn in Hd; try discriminate Hd; try (case_bool_decide as Eb; [|discriminate Hd]); simplify_eq; done.
Qed.

Lemma safe_doc cfg d T (ans : ∀ Y, pcs_call V Y → Y → Prop) (s0 : Shared D) :
  signed d = true → mode cfg = Lazy → pcs_enabled cfg = true → (∀ db : D, healthy db) → same_second T →
  doc_lacks (V := V) d (w_store s0) → w_failures s0 !! doc_key d = None →
  Z.of_nat (size (w_failures s0)) < RECENT_OUTCOMES_MAX →
  (∀ x, ans _ (doc_call d) (Ok x) → doc_of d x ∧ doc_written d x ∧ doc_cached d x = true) →
  ∃ inv, inv GOpen s0 ∧ (∀ r s, inv (GPending r) s → inv GOpen s) ∧
    safe (doc_key d) T ans (decode_doc d) (λ r, r) None inv VOut (doc_get cfg d).
Proof.
  intros Hd Hm He Hh Hc Hl Hf Hs Hans. rewrite (doc_get_through cfg d Hm He).
  destruct d as [t f u|i u|ca| |]; [..|done].
  - exists (doc_inv (λ st, Records.get_tcb st t f 4 u) (doc_key (TcbDoc t f u)) T s0). split; [done|]. split; [done|].
    apply safe_read_through; try done; [by rewrite decode_own|]. intros x Hx. destruct (Hans x Hx) as (Ho & Hw & Hk).
    split; [done|]. by apply tcb_put.
  - exists (doc_inv (λ st, Records.get_identity st i 4 u) (doc_key (IdentityDoc i u)) T s0). split; [done|]. split; [done|].
    apply safe_read_through; try done; [by rewrite decode_own|]. intros x Hx. destruct (Hans x Hx) as (Ho & Hw & Hk).
    split; [done|]. by apply identity_put.
  - exists (doc_inv (λ st, Records.get_pckcrl st ca) (doc_key (PckCrlDoc ca)) T s0). split; [done|]. split; [done|].
    apply safe_read_through; try done; [by rewrite decode_own|]. intros x Hx. destruct (Hans x Hx) as (Ho & Hw & Hk).
    split; [done|]. by apply pckcrl_put.
  - exists (doc_inv Records.get_rootcacrl (doc_key RootCaCrlDoc) T s0). split; [done|]. split; [done|].
    apply safe_read_through; try done. intros x Hx. destruct (Hans x Hx) as (Ho & Hw & Hk).
    split; [done|]. by apply rootcacrl_put.
Qed.

(** C5: Concurrent misses of a signed document share one fetch.  However many
    requests for one TCB info, enclave identity, PCK CRL or the root CA CRL are
    under way in a LAZY node that lacks it, in whatever interleaving, and
    whichever clients disconnect in the middle, the upstream is asked for it
    once, and at most once more for every client that disconnected; nothing
    else is asked; and every request that has been answered has exactly the
    last of those answers, record or error.  (Within the second for which a
    failure is remembered, on a working database, where the upstream sends the
    issuer chain with the document.  That the record is the one that was asked
    for is [client_right].) *)
Theorem document_single_flight cfg d n (T : Time → Prop) (ans : ∀ Y, pcs_call V Y → Y → Prop) (s0 : Shared D) drops c :
  signed d = true → mode cfg = Lazy → pcs_enabled cfg = true → (∀ db : D, healthy db) → same_second T →
  doc_lacks (V := V) d (w_store s0) → w_failures s0 !! doc_key d = None →
  Z.of_nat (size (w_failures s0)) < RECENT_OUTCOMES_MAX →
  (∀ x, ans _ (doc_call d) (Ok x) → doc_of d x ∧ doc_written d x ∧ doc_cached d x = true) →
  run_with None T ans (start s0 (replicate n (pmap Some (doc_get cfg d)))) drops c →
  (length (c_trace c) <= 1 + length drops)%nat ∧
  Forall (λ ev, ∃ i r, ev = (i, Called (doc_call d) (Some r))) (c_trace c) ∧
  ∀ i a, c_tasks c !! i = Some (Ret (Some a)) →
    ∃ tr j, c_trace c = tr ++ [(j, Called (doc_call d) (Some a))].
Proof.
  intros Hd Hm He Hh Hc Hl Hf Hs Hans Hr.
  destruct (safe_doc cfg d T ans s0 Hd Hm He Hh Hc Hl Hf Hs Hans) as (inv & Hopen & Hback & Hsafe).
  destruct (safe_adequate (doc_key d) T ans (decode_doc d) (Some ∘ λ r, r) (Some None) inv None s0
    (replicate n (pmap Some (doc_get cfg d))) drops c) as (Hall & Hlen & Hres); try done.
  { apply Forall_replicate. by apply safe_some. }
  split; [done|]. split.
  - eapply list.Forall_impl; [exact Hall|]. intros ev [r Hev]. destruct (decoded_call _ _ _ Hev) as [i ->]. eauto.
  - intros i a Hi. destruct (Hres i _ Hi) as [?|(tr & ev & r & -> & Hev & [= ->])]; [done|].
    destruct (decoded_call _ _ _ Hev) as [j ->]. by exists tr, j.
Qed.
End documents.

Module CoalesceSample.
Import MapDb Codec Concrete CollateralSample CacheSample ServiceSample ChainSample CascadeSample.

(** The upstream has the TCB info of [ChainSample]. *)
Definition has_tcb (X : Type) (call : pcs_call jvalue X) : X :=
  match call in pcs_call _ X return X with
  | Cache.fetch_tcb _ _ _ _ => Ok tcb_record
  | get_url_for _ _ | post_json_once _ _ | post_bytes_once _ _ _ => Err INTERNAL_ERROR
  | Cache.fetch_pckcert_pccs _ _ _ _ _ => Err INTERNAL_ERROR
  | Cache.fetch_pckcerts_intel _ _ | Cache.fetch_pckcerts_intel_manifest _ _ => Err INTERNAL_ERROR
  | Cache.fetch_identity _ _ _ => Err INTERNAL_ERROR
  | Cache.fetch_pckcrl _ => Err INTERNAL_ERROR
  | Cache.fetch_rootcacrl | Cache.fetch_crl _ => Err INTERNAL_ERROR
  end.

(** Three requests; the first asks the upstream while the others wait for the
    lock; its client leaves before the answer is stored; the second asks
    again, the third finds the record. *)
Definition race_end :=
  play None (at_second 5) has_tcb
    (map Turn (repeat 1 1 ++ repeat 2 1 ++ repeat 0 5)%nat ++ [Leave 0%nat] ++ map Turn (repeat 1 8 ++ repeat 2 8)%nat)
    [] (start empty_shared (replicate 3 (pmap Some (doc_get (D := gmap string string) (V := jvalue) (config Lazy true) early_tcb)))).
End CoalesceSample.

Import MapDb Codec Concrete CollateralSample CacheSample ServiceSample ChainSample CascadeSample CoalesceSample.

Lemma document_single_flight_witness :
  race_end.1 = [0%nat] ∧ length (c_trace race_end.2) = 2%nat ∧
  c_tasks race_end.2 = [Ret None; Ret (Some (Ok tcb_record)); Ret (Some (Ok tcb_record))] ∧
  (length (c_trace race_end.2) <= 1 + length race_end.1)%nat ∧
  ∀ i a, c_tasks race_end.2 !! i = Some (Ret (Some a)) →
    ∃ tr j, c_trace race_end.2 = tr ++ [(j, Called (doc_call early_tcb) (Some a))].
Proof.
  split; [by vm_compute|]. split; [by vm_compute|]. split; [vm_compute; reflexivity|].
  destruct (document_single_flight (config Lazy true) early_tcb 3 (λ t, t = at_second 5)
    (λ Y call r, r = has_tcb Y call) empty_shared race_end.1 race_end.2) as (Hl & _ & Ha);
    try reflexivity; [..|by split].
  - apply FifoSpec.Sample.map_healthy.
  - intros t t' -> ->. vm_compute. done.
  - intros x [= ->]. split; [by vm_compute|]. split; [cbn; eauto|]. by vm_compute.
  - apply play_runs; [done|done|apply run_refl].
Defined.
