(* ===== verification/Config.v ===== *)
(** * Config: the effective configuration (src/src/config.rs)

    Defaults, then the TOML file, then the command line; the helpers that
    read a body size, a URL's host and a token hash; and the conversion of a
    Node PCCS JSON configuration to TOML.  clap, the TOML and JSON parsers and
    the file system are not modelled: the three sources are records of what
    they give.  [cache_config], [client] and [settings] hand the result to the
    cache, the upstream client and the routes. *)

From Stdlib Require Import ZArith Lia.
From stdpp Require Import base list strings option gmap.
From S2P Require Import Prelude Text Errors Validate Env PckCert Selection Database Urls Prog Cache Pcs Routes.

Local Open Scope Z_scope.
Local Open Scope rust_scope.
#[local] Set Default Proof Using "Type*".

(** ** Defaults *)

Definition DEFAULT_USER_TOKEN : string := "user".
Definition DEFAULT_USER_TOKEN_HASH : string :=
  "b14361404c078ffd549c03db443c3fede2f3e534d73f78f77301ed97d4a436a9fd9db05ee8b325c0ad36438b43fec8510c204fc1c1edb21d0941c00e9e2c1ce2".
Definition DEFAULT_ADMIN_TOKEN : string := "admin".
Definition DEFAULT_ADMIN_TOKEN_HASH : string :=
  "c7ad44cbad762a5da0a452f9e854fdc1e0e7a52a38015f23f3eab1d80b931dd472634dfac71cd34ebc35d16ab7fb8a90c81f975113d6c7538dc69dd8de9077ec".
Definition DEFAULT_URI : string :=
  "https://api.trustedservices.intel.com/sgx/certification/v4/".
Definition DEFAULT_AMD_KDS_URI : string := "https://kdsintf.amd.com".
Definition DEFAULT_AMD_KDS_CACHE_TTL_SECS : Z := 30 * 24 * 60 * 60.
Definition DEFAULT_NVIDIA_RIM_URI : string := "https://rim.attestation.nvidia.com".
Definition DEFAULT_NVIDIA_RIM_CACHE_TTL_SECS : Z := 30 * 24 * 60 * 60.
Definition DEFAULT_NVIDIA_NRAS_URI : string := "https://nras.attestation.nvidia.com".
Definition DEFAULT_NVIDIA_OCSP_URI : string := "https://ocsp.ndis.nvidia.com".
Definition DEFAULT_NVIDIA_OCSP_MAX_TTL_SECS : Z := 24 * 60 * 60.
Definition DEFAULT_NVIDIA_OCSP_DEFAULT_TTL_SECS : Z := 60 * 60.
Definition DEFAULT_READTHROUGH_MAX_ENTRIES_PER_KIND : Z := 10_000.
Definition DEFAULT_REFRESH : string := "0 0 1 * * *".
Definition DEFAULT_CONFIG_PATH : string := "/etc/pccs-rs/config.toml".
Definition DEFAULT_REQUEST_TIMEOUT_SECS : Z := 60.
Definition DEFAULT_HEADERS_TIMEOUT_SECS : Z := 30.
Definition DEFAULT_KEEPALIVE_TIMEOUT_SECS : Z := 60.
Definition DEFAULT_UPSTREAM_MAX_CONCURRENT : Z := 64.
Definition DEFAULT_UPSTREAM_MAX_ATTEMPTS : Z := 6.
Definition DEFAULT_UPSTREAM_POOL_IDLE_SECS : Z := 60.
Definition DEFAULT_POOL_REFETCH_ON_NEW_TCB : bool := true.
Definition DEFAULT_POOL_REFETCH_INTERVAL_SECS : Z := 86_400.
Definition DEFAULT_SCHEDULED_POOL_REFRESH : bool := true.
Definition DEFAULT_MAX_BODY_SIZE : Z := 2 * 1024 * 1024.

(** [RocksDbOpts] *)
Record RocksDbOpts := { r_block_cache_mb : Z; r_write_buffer_mb : Z; r_max_write_buffers : Z; r_max_open_files : Z }.
Definition rocks : RocksDbOpts :=
  {| r_block_cache_mb := 8; r_write_buffer_mb := 64; r_max_write_buffers := 2; r_max_open_files := -1 |}.
Definition block_cache_bytes (r : RocksDbOpts) : Z := sat_mul (r_block_cache_mb r) (1024 * 1024).
Definition write_buffer_bytes (r : RocksDbOpts) : Z := sat_mul (r_write_buffer_mb r) (1024 * 1024).

(** [CacheMode::as_str] and [CacheMode::parse] *)
Definition as_str (m : CacheMode) : string :=
  match m with Lazy => "LAZY" | Offline => "OFFLINE" | Req => "REQ" end.

Definition parse (s : string) : option CacheMode :=
  let u := to_upper s in
  if String.eqb u "LAZY" then Some Lazy
  else if String.eqb u "OFFLINE" then Some Offline
  else if String.eqb u "REQ" then Some Req
  else None.

(** ** The sources and the result *)

(** The entries of [Config::warnings], by what they report *)
Inductive warning :=
| BadBodySize (s : string)
| ZeroCacheMaxAge.

(** The command line and the environment *)
Record ServeArgs := {
  a_config : option string; a_host : option string; a_port : option Z; a_metrics_listen : option string;
  a_server_timing : option bool; a_http : bool; a_https : bool; a_cert : option string; a_key : option string;
  a_cache_mode : option CacheMode; a_user_token_hash : option string; a_admin_token_hash : option string;
  a_uri : option string; a_api_key : option string; a_amd_kds_uri : option string;
  a_amd_kds_cache_ttl_seconds : option Z; a_nvidia_rim_uri : option string;
  a_nvidia_rim_cache_ttl_seconds : option Z; a_nvidia_nras_uri : option string;
  a_nvidia_ocsp_uri : option string; a_nvidia_ocsp_max_ttl_seconds : option Z;
  a_nvidia_ocsp_default_ttl_seconds : option Z; a_readthrough_max_entries_per_kind : option Z;
  a_proxy : option string; a_refresh_schedule : option string; a_db_path : option string;
  a_log_level : option string; a_max_body_size : option string; a_seed : option string; a_no_seed : bool;
  a_block_cache_mb : option Z; a_write_buffer_mb : option Z; a_max_write_buffers : option Z;
  a_max_open_files : option Z; a_request_timeout_seconds : option Z; a_headers_timeout_seconds : option Z;
  a_keepalive_timeout_seconds : option Z; a_collateral_cache_max_age : option Z;
  a_upstream_max_concurrent : option Z; a_upstream_max_attempts : option Z;
  a_upstream_pool_idle_seconds : option Z; a_dev_tokens : bool
}.

(** A Node PCCS configuration *)
Record JsonConfig := {
  j_https_port : option Z; j_hosts : option string; j_uri : option string; j_api_key : option string;
  j_proxy : option string; j_refresh_schedule : option string; j_user_token_hash : option string;
  j_admin_token_hash : option string; j_caching_fill_mode : option string; j_log_level : option string;
  j_db_path : option string; j_max_request_body_size : option string; j_block_cache_mb : option Z;
  j_write_buffer_mb : option Z; j_max_write_buffers : option Z; j_max_open_files : option Z;
  j_request_timeout_seconds : option Z; j_headers_timeout_seconds : option Z;
  j_keepalive_timeout_seconds : option Z; j_upstream_max_concurrent : option Z;
  j_upstream_max_attempts : option Z; j_upstream_pool_idle_seconds : option Z
}.

(** The configuration file *)
Record TomlConfig := {
  t_host : option string; t_port : option Z; t_metrics_listen : option string; t_server_timing : option bool;
  t_https : option bool; t_cert : option string; t_key : option string; t_cache_mode : option string;
  t_user_token_hash : option string; t_admin_token_hash : option string; t_uri : option string;
  t_api_key : option string; t_amd_kds_uri : option string; t_amd_kds_cache_ttl_seconds : option Z;
  t_nvidia_rim_uri : option string; t_nvidia_rim_cache_ttl_seconds : option Z;
  t_nvidia_nras_uri : option string; t_nvidia_ocsp_uri : option string;
  t_nvidia_ocsp_max_ttl_seconds : option Z; t_nvidia_ocsp_default_ttl_seconds : option Z;
  t_readthrough_max_entries_per_kind : option Z; t_proxy : option string; t_refresh_schedule : option string;
  t_db_path : option string; t_log_level : option string; t_max_request_body_size : option string;
  t_rocksdb_block_cache_mb : option Z; t_rocksdb_write_buffer_mb : option Z;
  t_rocksdb_max_write_buffers : option Z; t_rocksdb_max_open_files : option Z;
  t_request_timeout_seconds : option Z; t_headers_timeout_seconds : option Z;
  t_keepalive_timeout_seconds : option Z; t_collateral_cache_max_age_seconds : option Z;
  t_upstream_max_concurrent : option Z; t_upstream_max_attempts : option Z;
  t_upstream_pool_idle_seconds : option Z; t_pool_refetch_on_new_tcb : option bool;
  t_pool_refetch_interval_seconds : option Z; t_scheduled_pool_refresh : option bool
}.

(** The effective configuration *)
Record Config := {
  c_host : string; c_port : Z; c_metrics_listen : option string; c_server_timing : bool; c_http : bool;
  c_https : bool; c_cert : string; c_key : string; c_cache_mode : CacheMode; c_user_token_hash : string;
  c_admin_token_hash : string; c_uri : string; c_api_key : string; c_amd_kds_uri : string;
  c_amd_kds_cache_ttl_secs : Z; c_nvidia_rim_uri : string; c_nvidia_rim_cache_ttl_secs : Z;
  c_nvidia_nras_uri : string; c_nvidia_ocsp_uri : string; c_nvidia_ocsp_max_ttl_secs : Z;
  c_nvidia_ocsp_default_ttl_secs : Z; c_readthrough_max_entries_per_kind : Z; c_proxy : string;
  c_refresh_schedule : string; c_db_path : string; c_log_level : string; c_max_body_size : Z;
  c_seed : option string; c_no_seed : bool; c_block_cache_mb : Z; c_write_buffer_mb : Z;
  c_max_write_buffers : Z; c_max_open_files : Z; c_request_timeout_secs : Z; c_headers_timeout_secs : Z;
  c_keepalive_timeout_secs : Z; c_upstream_max_concurrent : Z; c_upstream_max_attempts : Z;
  c_upstream_pool_idle_secs : Z; c_collateral_cache_max_age_secs : option Z; c_pool_refetch_on_new_tcb : bool;
  c_pool_refetch_interval_secs : Z; c_scheduled_pool_refresh : bool; c_warnings : list warning
}.

Definition default_config : Config := {|
  c_host := "127.0.0.1";
  c_port := 8081;
  c_metrics_listen := None;
  c_server_timing := false;
  c_http := true;
  c_https := false;
  c_cert := "certs/file.crt";
  c_key := "certs/private.pem";
  c_cache_mode := Lazy;
  c_user_token_hash := "";
  c_admin_token_hash := "";
  c_uri := DEFAULT_URI;
  c_api_key := "";
  c_amd_kds_uri := DEFAULT_AMD_KDS_URI;
  c_amd_kds_cache_ttl_secs := DEFAULT_AMD_KDS_CACHE_TTL_SECS;
  c_nvidia_rim_uri := DEFAULT_NVIDIA_RIM_URI;
  c_nvidia_rim_cache_ttl_secs := DEFAULT_NVIDIA_RIM_CACHE_TTL_SECS;
  c_nvidia_nras_uri := DEFAULT_NVIDIA_NRAS_URI;
  c_nvidia_ocsp_uri := DEFAULT_NVIDIA_OCSP_URI;
  c_nvidia_ocsp_max_ttl_secs := DEFAULT_NVIDIA_OCSP_MAX_TTL_SECS;
  c_nvidia_ocsp_default_ttl_secs := DEFAULT_NVIDIA_OCSP_DEFAULT_TTL_SECS;
  c_readthrough_max_entries_per_kind := DEFAULT_READTHROUGH_MAX_ENTRIES_PER_KIND;
  c_proxy := "";
  c_refresh_schedule := DEFAULT_REFRESH;
  c_db_path := "pccs-db";
  c_log_level := "info";
  c_max_body_size := DEFAULT_MAX_BODY_SIZE;
  c_seed := None;
  c_no_seed := false;
  c_block_cache_mb := r_block_cache_mb rocks;
  c_write_buffer_mb := r_write_buffer_mb rocks;
  c_max_write_buffers := r_max_write_buffers rocks;
  c_max_open_files := r_max_open_files rocks;
  c_request_timeout_secs := DEFAULT_REQUEST_TIMEOUT_SECS;
  c_headers_timeout_secs := DEFAULT_HEADERS_TIMEOUT_SECS;
  c_keepalive_timeout_secs := DEFAULT_KEEPALIVE_TIMEOUT_SECS;
  c_upstream_max_concurrent := DEFAULT_UPSTREAM_MAX_CONCURRENT;
  c_upstream_max_attempts := DEFAULT_UPSTREAM_MAX_ATTEMPTS;
  c_upstream_pool_idle_secs := DEFAULT_UPSTREAM_POOL_IDLE_SECS;
  c_collateral_cache_max_age_secs := None;
  c_pool_refetch_on_new_tcb := DEFAULT_POOL_REFETCH_ON_NEW_TCB;
  c_pool_refetch_interval_secs := DEFAULT_POOL_REFETCH_INTERVAL_SECS;
  c_scheduled_pool_refresh := DEFAULT_SCHEDULED_POOL_REFRESH;
  c_warnings := []
|}.

(** ** Helpers *)

Definition is_sha512_hex (s : string) : bool := (String.length s =? 128)%nat && str_all is_hexdigit s.

(** The text before the first of some characters: [split([..]).next()] *)
Fixpoint before_any (stop : ascii → bool) (s : string) : string :=
  match s with
  | EmptyString => EmptyString
  | String c s => if stop c then EmptyString else String c (before_any stop s)
  end.

(** [rsplit('@').next()] *)
Definition after_last_at (s : string) : string := default s (last (split "@" s)).

Definition uri_host (uri : string) : option string :=
  let rest := match split_once_str "://" uri with Some (_, r) => r | None => uri end in
  let authority := before_any (λ c, Ascii.eqb c "/" || Ascii.eqb c "?" || Ascii.eqb c "#") rest in
  let authority := after_last_at authority in
  let host := match strip_prefix "[" authority with
              | Some v6 => before_any (Ascii.eqb "]") v6
              | None => before_any (Ascii.eqb ":") authority
              end in
  if is_empty host then None else Some (to_lower host).

Definition try_parse_body_size (s : string) : option Z :=
  let upper := to_upper (trim s) in
  let '(num, mul) :=
    match strip_suffix "MB" upper with
    | Some n => (trim n, 1024 * 1024)
    | None =>
        match strip_suffix "KB" upper with
        | Some n => (trim n, 1024)
        | None => match strip_suffix "B" upper with Some n => (trim n, 1) | None => (trim upper, 1) end
        end
    end in
  n ← parse_uint u64_max num;
  v ← checked_mul n mul;
  if 0 <? v then Some v else None.

(** Some settings report onto the list of warnings. *)
Definition parse_body_size_reporting (s : string) (warnings : list warning) : Z * list warning :=
  match try_parse_body_size s with
  | Some n => (n, warnings)
  | None => (DEFAULT_MAX_BODY_SIZE, warnings ++ [BadBodySize s])
  end.

Definition set_collateral_cache_max_age (secs : Z) (warnings : list warning) : option Z * list warning :=
  if secs =? 0 then (None, warnings ++ [ZeroCacheMaxAge]) else (Some secs, warnings).

(** [if let Some(v) = source { cfg.field = v }] *)
Definition over {A} (source : option A) (field : A) : A := default field source.
Definition over_opt {A} (source field : option A) : option A :=
  match source with Some v => Some v | None => field end.

(** [.filter(|s| !s.is_empty())] *)
Definition nonempty (o : option string) : option string := s ← o; if is_empty s then None else Some s.

(** Each field is set from its own source; the two that report do so in the
    order of the source. *)
Definition apply_toml (cfg : Config) (file : TomlConfig) : Config :=
  let body := match t_max_request_body_size file with
              | Some s => parse_body_size_reporting s (c_warnings cfg)
              | None => (c_max_body_size cfg, c_warnings cfg)
              end in
  let age := match t_collateral_cache_max_age_seconds file with
             | Some n => set_collateral_cache_max_age n body.2
             | None => (c_collateral_cache_max_age_secs cfg, body.2)
             end in
  {|
     c_host := over (t_host file) (c_host cfg);
     c_port := over (t_port file) (c_port cfg);
     c_metrics_listen := over_opt (t_metrics_listen file) (c_metrics_listen cfg);
     c_server_timing := over (t_server_timing file) (c_server_timing cfg);
     c_http := match t_https file with Some https => negb https | None => c_http cfg end;
     c_https := over (t_https file) (c_https cfg);
     c_cert := over (t_cert file) (c_cert cfg);
     c_key := over (t_key file) (c_key cfg);
     c_cache_mode := over (t_cache_mode file ≫= parse) (c_cache_mode cfg);
     c_user_token_hash := over (nonempty (t_user_token_hash file)) (c_user_token_hash cfg);
     c_admin_token_hash := over (nonempty (t_admin_token_hash file)) (c_admin_token_hash cfg);
     c_uri := over (t_uri file) (c_uri cfg);
     c_api_key := over (t_api_key file) (c_api_key cfg);
     c_amd_kds_uri := over (t_amd_kds_uri file) (c_amd_kds_uri cfg);
     c_amd_kds_cache_ttl_secs := over (t_amd_kds_cache_ttl_seconds file) (c_amd_kds_cache_ttl_secs cfg);
     c_nvidia_rim_uri := over (t_nvidia_rim_uri file) (c_nvidia_rim_uri cfg);
     c_nvidia_rim_cache_ttl_secs := over (t_nvidia_rim_cache_ttl_seconds file) (c_nvidia_rim_cache_ttl_secs cfg);
     c_nvidia_nras_uri := over (t_nvidia_nras_uri file) (c_nvidia_nras_uri cfg);
     c_nvidia_ocsp_uri := over (t_nvidia_ocsp_uri file) (c_nvidia_ocsp_uri cfg);
     c_nvidia_ocsp_max_ttl_secs := over (t_nvidia_ocsp_max_ttl_seconds file) (c_nvidia_ocsp_max_ttl_secs cfg);
     c_nvidia_ocsp_default_ttl_secs := over (t_nvidia_ocsp_default_ttl_seconds file) (c_nvidia_ocsp_default_ttl_secs cfg);
     c_readthrough_max_entries_per_kind := over (t_readthrough_max_entries_per_kind file) (c_readthrough_max_entries_per_kind cfg);
     c_proxy := over (t_proxy file) (c_proxy cfg);
     c_refresh_schedule := over (t_refresh_schedule file) (c_refresh_schedule cfg);
     c_db_path := over (t_db_path file) (c_db_path cfg);
     c_log_level := over (t_log_level file) (c_log_level cfg);
     c_max_body_size := body.1;
     c_seed := c_seed cfg;
     c_no_seed := c_no_seed cfg;
     c_block_cache_mb := over (t_rocksdb_block_cache_mb file) (c_block_cache_mb cfg);
     c_write_buffer_mb := over (t_rocksdb_write_buffer_mb file) (c_write_buffer_mb cfg);
     c_max_write_buffers := over (t_rocksdb_max_write_buffers file) (c_max_write_buffers cfg);
     c_max_open_files := over (t_rocksdb_max_open_files file) (c_max_open_files cfg);
     c_request_timeout_secs := over (t_request_timeout_seconds file) (c_request_timeout_secs cfg);
     c_headers_timeout_secs := over (t_headers_timeout_seconds file) (c_headers_timeout_secs cfg);
     c_keepalive_timeout_secs := over (t_keepalive_timeout_seconds file) (c_keepalive_timeout_secs cfg);
     c_upstream_max_concurrent := over (t_upstream_max_concurrent file) (c_upstream_max_concurrent cfg);
     c_upstream_max_attempts := over (t_upstream_max_attempts file) (c_upstream_max_attempts cfg);
     c_upstream_pool_idle_secs := over (t_upstream_pool_idle_seconds file) (c_upstream_pool_idle_secs cfg);
     c_collateral_cache_max_age_secs := age.1;
     c_pool_refetch_on_new_tcb := over (t_pool_refetch_on_new_tcb file) (c_pool_refetch_on_new_tcb cfg);
     c_pool_refetch_interval_secs := over (t_pool_refetch_interval_seconds file) (c_pool_refetch_interval_secs cfg);
     c_scheduled_pool_refresh := over (t_scheduled_pool_refresh file) (c_scheduled_pool_refresh cfg);
     c_warnings := age.2
  |}.

Definition apply_cli (cfg : Config) (c : ServeArgs) : Config :=
  let age := match a_collateral_cache_max_age c with
             | Some n => set_collateral_cache_max_age n (c_warnings cfg)
             | None => (c_collateral_cache_max_age_secs cfg, c_warnings cfg)
             end in
  let body := match a_max_body_size c with
              | Some s => parse_body_size_reporting s age.2
              | None => (c_max_body_size cfg, age.2)
              end in
  let dev hash built_in := if a_dev_tokens c && is_empty hash then built_in else hash in
  {|
     c_host := over (a_host c) (c_host cfg);
     c_port := over (a_port c) (c_port cfg);
     c_metrics_listen := over_opt (a_metrics_listen c) (c_metrics_listen cfg);
     c_server_timing := over (a_server_timing c) (c_server_timing cfg);
     c_http := if a_https c then false else if a_http c then true else c_http cfg;
     c_https := if a_https c then true else if a_http c then false else c_https cfg;
     c_cert := over (a_cert c) (c_cert cfg);
     c_key := over (a_key c) (c_key cfg);
     c_cache_mode := over (a_cache_mode c) (c_cache_mode cfg);
     c_user_token_hash := dev (over (a_user_token_hash c) (c_user_token_hash cfg)) DEFAULT_USER_TOKEN_HASH;
     c_admin_token_hash := dev (over (a_admin_token_hash c) (c_admin_token_hash cfg)) DEFAULT_ADMIN_TOKEN_HASH;
     c_uri := over (a_uri c) (c_uri cfg);
     c_api_key := over (a_api_key c) (c_api_key cfg);
     c_amd_kds_uri := over (a_amd_kds_uri c) (c_amd_kds_uri cfg);
     c_amd_kds_cache_ttl_secs := over (a_amd_kds_cache_ttl_seconds c) (c_amd_kds_cache_ttl_secs cfg);
     c_nvidia_rim_uri := over (a_nvidia_rim_uri c) (c_nvidia_rim_uri cfg);
     c_nvidia_rim_cache_ttl_secs := over (a_nvidia_rim_cache_ttl_seconds c) (c_nvidia_rim_cache_ttl_secs cfg);
     c_nvidia_nras_uri := over (a_nvidia_nras_uri c) (c_nvidia_nras_uri cfg);
     c_nvidia_ocsp_uri := over (a_nvidia_ocsp_uri c) (c_nvidia_ocsp_uri cfg);
     c_nvidia_ocsp_max_ttl_secs := over (a_nvidia_ocsp_max_ttl_seconds c) (c_nvidia_ocsp_max_ttl_secs cfg);
     c_nvidia_ocsp_default_ttl_secs := over (a_nvidia_ocsp_default_ttl_seconds c) (c_nvidia_ocsp_default_ttl_secs cfg);
     c_readthrough_max_entries_per_kind := over (a_readthrough_max_entries_per_kind c) (c_readthrough_max_entries_per_kind cfg);
     c_proxy := over (a_proxy c) (c_proxy cfg);
     c_refresh_schedule := over (a_refresh_schedule c) (c_refresh_schedule cfg);
     c_db_path := over (a_db_path c) (c_db_path cfg);
     c_log_level := over (a_log_level c) (c_log_level cfg);
     c_max_body_size := body.1;
     c_seed := a_seed c;
     c_no_seed := a_no_seed c;
     c_block_cache_mb := over (a_block_cache_mb c) (c_block_cache_mb cfg);
     c_write_buffer_mb := over (a_write_buffer_mb c) (c_write_buffer_mb cfg);
     c_max_write_buffers := over (a_max_write_buffers c) (c_max_write_buffers cfg);
     c_max_open_files := over (a_max_open_files c) (c_max_open_files cfg);
     c_request_timeout_secs := over (a_request_timeout_seconds c) (c_request_timeout_secs cfg);
     c_headers_timeout_secs := over (a_headers_timeout_seconds c) (c_headers_timeout_secs cfg);
     c_keepalive_timeout_secs := over (a_keepalive_timeout_seconds c) (c_keepalive_timeout_secs cfg);
     c_upstream_max_concurrent := over (a_upstream_max_concurrent c) (c_upstream_max_concurrent cfg);
     c_upstream_max_attempts := over (a_upstream_max_attempts c) (c_upstream_max_attempts cfg);
     c_upstream_pool_idle_secs := over (a_upstream_pool_idle_seconds c) (c_upstream_pool_idle_secs cfg);
     c_collateral_cache_max_age_secs := age.1;
     c_pool_refetch_on_new_tcb := c_pool_refetch_on_new_tcb cfg;
     c_pool_refetch_interval_secs := c_pool_refetch_interval_secs cfg;
     c_scheduled_pool_refresh := c_scheduled_pool_refresh cfg;
     c_warnings := body.2
  |}.

(** [Config::from_serve_args]; [load] is [load_toml], [None] where it ends the
    process, and [is_file] says which paths exist. *)
Definition from_serve_args (load : string → option TomlConfig) (is_file : string → bool)
    (empty : TomlConfig) (c : ServeArgs) (implicit_config : option string) : option Config :=
  let path := match a_config c with
              | Some p => Some p
              | None => p ← implicit_config; if is_file p then Some p else None
              end in
  file ← match path with Some p => load p | None => Some empty end;
  Some (apply_cli (apply_toml default_config file) c).

(** *** Derived values *)

Section derived.
Context (cfg : Config).

Definition bind_addr : string := (c_host cfg ++ ":" ++ to_dec (c_port cfg))%string.
Definition pcs_version : Z := match api_version_from_url (c_uri cfg) with Ok v => v | Err _ => 4 end.
Definition is_intel_upstream : bool :=
  match uri_host (c_uri cfg) with
  | Some h => String.eqb h "trustedservices.intel.com" || ends_with ".trustedservices.intel.com" h
  | None => false
  end.
Definition has_upstream : bool := negb (is_empty (trim (c_uri cfg))).
Definition rocksdb_opts : RocksDbOpts :=
  {| r_block_cache_mb := c_block_cache_mb cfg; r_write_buffer_mb := c_write_buffer_mb cfg;
     r_max_write_buffers := c_max_write_buffers cfg; r_max_open_files := c_max_open_files cfg |}.

(** [PcsClient::new] *)
Definition upstream_client : option Client :=
  Pcs.new (c_proxy cfg) (c_uri cfg) (c_api_key cfg) is_intel_upstream (Z.to_nat (c_upstream_max_attempts cfg)).

(** [Cache::new]; a [Duration] is counted in nanoseconds. *)
Definition cache_config (pcs : Client) : Cache.Config :=
  {| Cache.mode := c_cache_mode cfg; Cache.pcs_version := pcs_version; Cache.is_intel := is_intel_upstream;
     Cache.pcs_enabled := Pcs.enabled pcs;
     Cache.pool_refetch_on_new_tcb := c_pool_refetch_on_new_tcb cfg;
     Cache.scheduled_pool_refresh := c_scheduled_pool_refresh cfg;
     Cache.pool_refetch_interval := c_pool_refetch_interval_secs cfg * 1_000_000_000;
     Cache.amd_kds_uri := normalize_amd_kds_host (c_amd_kds_uri cfg);
     Cache.amd_kds_cache_ttl_secs := c_amd_kds_cache_ttl_secs cfg;
     Cache.nvidia_rim_uri := normalize_nvidia_rim_host (c_nvidia_rim_uri cfg);
     Cache.nvidia_rim_cache_ttl_secs := c_nvidia_rim_cache_ttl_secs cfg;
     Cache.nvidia_nras_uri := trim_end_matches "/" (trim (c_nvidia_nras_uri cfg));
     Cache.nvidia_ocsp_uri := trim_end_matches "/" (trim (c_nvidia_ocsp_uri cfg));
     Cache.nvidia_ocsp_max_ttl_secs := c_nvidia_ocsp_max_ttl_secs cfg;
     Cache.nvidia_ocsp_default_ttl_secs := c_nvidia_ocsp_default_ttl_secs cfg |}.

(** What the routes read of the configuration *)
Definition settings : Settings :=
  {| user_token_hash := c_user_token_hash cfg; admin_token_hash := c_admin_token_hash cfg;
     collateral_cache_max_age_secs := c_collateral_cache_max_age_secs cfg |}.
End derived.

(** ** Converting a Node configuration *)

(** A TOML document as its top-level items, without their layout *)
Inductive Item :=
| TString (s : string)
| TInteger (n : Z)
| TBoolean (b : bool)
| TOther.
Abbreviation Document := (gmap string Item).

(** [n as i64] *)
Definition as_i64 (n : Z) : Z := if n mod 2 ^ 64 <=? i64_max then n mod 2 ^ 64 else n mod 2 ^ 64 - 2 ^ 64.

(** [if let Some(v) = source { doc[key] = value(v) }] *)
Definition put {A} (key : string) (item : A → Item) (source : option A) (doc : Document) : Document :=
  match source with Some v => <[key := item v]> doc | None => doc end.

Definition fill_mode (v : string) : string :=
  match parse v with Some m => to_lower (as_str m) | None => to_lower v end.

Definition apply_json_to_toml (doc : Document) (src : JsonConfig) : Document :=
  let doc := put "host" TString (j_hosts src) doc in
  let doc := put "port" TInteger (j_https_port src) doc in
  let doc := put "uri" TString (j_uri src) doc in
  let doc := put "api_key" TString (j_api_key src) doc in
  let doc := put "proxy" TString (j_proxy src) doc in
  let doc := put "refresh_schedule" TString (j_refresh_schedule src) doc in
  let doc := put "user_token_hash" TString (j_user_token_hash src) doc in
  let doc := put "admin_token_hash" TString (j_admin_token_hash src) doc in
  let doc := put "cache_mode" TString (fill_mode <$> j_caching_fill_mode src) doc in
  let doc := put "log_level" TString (j_log_level src) doc in
  let doc := put "db_path" TString (j_db_path src) doc in
  let doc := put "max_request_body_size" TString (j_max_request_body_size src) doc in
  let doc := put "rocksdb_block_cache_mb" TInteger (as_i64 <$> j_block_cache_mb src) doc in
  let doc := put "rocksdb_write_buffer_mb" TInteger (as_i64 <$> j_write_buffer_mb src) doc in
  let doc := put "rocksdb_max_write_buffers" TInteger (j_max_write_buffers src) doc in
  let doc := put "rocksdb_max_open_files" TInteger (j_max_open_files src) doc in
  let doc := put "request_timeout_seconds" TInteger (as_i64 <$> j_request_timeout_seconds src) doc in
  let doc := put "headers_timeout_seconds" TInteger (as_i64 <$> j_headers_timeout_seconds src) doc in
  let doc := put "keepalive_timeout_seconds" TInteger (as_i64 <$> j_keepalive_timeout_seconds src) doc in
  let doc := put "upstream_max_concurrent" TInteger (as_i64 <$> j_upstream_max_concurrent src) doc in
  let doc := put "upstream_max_attempts" TInteger (as_i64 <$> j_upstream_max_attempts src) doc in
  put "upstream_pool_idle_seconds" TInteger (as_i64 <$> j_upstream_pool_idle_seconds src) doc.

(** [import_pccs_json] between reading the two files and writing the result:
    an existing file that cannot be read or parsed is an error. *)
Definition import_pccs_json (template : Document) (from : result string JsonConfig)
    (to_ : option (result string Document)) : result string Document :=
  src ← from;
  doc ← default (Ok template) to_;
  Ok (apply_json_to_toml doc src).

(** [toml::from_str::<TomlConfig>]: the derived deserializer.  A missing key
    is [None], an item of another type or out of the field's range is an
    error, other keys are ignored. *)
Section toml_config.
Context (socket_addr : string → bool) (doc : Document).

Definition field {A} (of_item : Item → option A) (key : string) : option (option A) :=
  match doc !! key with None => Some None | Some i => a ← of_item i; Some (Some a) end.

Definition text_field : string → option (option string) :=
  field (λ i, match i with TString s => Some s | _ => None end).
Definition bool_field : string → option (option bool) :=
  field (λ i, match i with TBoolean b => Some b | _ => None end).
Definition int_field (lo hi : Z) : string → option (option Z) :=
  field (λ i, match i with TInteger n => if (lo <=? n) && (n <=? hi) then Some n else None | _ => None end).
Definition addr_field : string → option (option string) :=
  field (λ i, match i with TString s => if socket_addr s then Some s else None | _ => None end).

Definition i32_min : Z := - 2 ^ 31.
Definition i32_max : Z := 2 ^ 31 - 1.

Definition toml_config : option TomlConfig :=
  x0 ← text_field "host";
  x1 ← int_field 0 u16_max "port";
  x2 ← addr_field "metrics_listen";
  x3 ← bool_field "server_timing";
  x4 ← bool_field "https";
  x5 ← text_field "cert";
  x6 ← text_field "key";
  x7 ← text_field "cache_mode";
  x8 ← text_field "user_token_hash";
  x9 ← text_field "admin_token_hash";
  x10 ← text_field "uri";
  x11 ← text_field "api_key";
  x12 ← text_field "amd_kds_uri";
  x13 ← int_field 0 u64_max "amd_kds_cache_ttl_seconds";
  x14 ← text_field "nvidia_rim_uri";
  x15 ← int_field 0 u64_max "nvidia_rim_cache_ttl_seconds";
  x16 ← text_field "nvidia_nras_uri";
  x17 ← text_field "nvidia_ocsp_uri";
  x18 ← int_field 0 u64_max "nvidia_ocsp_max_ttl_seconds";
  x19 ← int_field 0 u64_max "nvidia_ocsp_default_ttl_seconds";
  x20 ← int_field 0 u64_max "readthrough_max_entries_per_kind";
  x21 ← text_field "proxy";
  x22 ← text_field "refresh_schedule";
  x23 ← text_field "db_path";
  x24 ← text_field "log_level";
  x25 ← text_field "max_request_body_size";
  x26 ← int_field 0 u64_max "rocksdb_block_cache_mb";
  x27 ← int_field 0 u64_max "rocksdb_write_buffer_mb";
  x28 ← int_field i32_min i32_max "rocksdb_max_write_buffers";
  x29 ← int_field i32_min i32_max "rocksdb_max_open_files";
  x30 ← int_field 0 u64_max "request_timeout_seconds";
  x31 ← int_field 0 u64_max "headers_timeout_seconds";
  x32 ← int_field 0 u64_max "keepalive_timeout_seconds";
  x33 ← int_field 0 u64_max "collateral_cache_max_age_seconds";
  x34 ← int_field 0 u64_max "upstream_max_concurrent";
  x35 ← int_field 0 u32_max "upstream_max_attempts";
  x36 ← int_field 0 u64_max "upstream_pool_idle_seconds";
  x37 ← bool_field "pool_refetch_on_new_tcb";
  x38 ← int_field 0 u64_max "pool_refetch_interval_seconds";
  x39 ← bool_field "scheduled_pool_refresh";
  Some {|
    t_host := x0;
    t_port := x1;
    t_metrics_listen := x2;
    t_server_timing := x3;
    t_https := x4;
    t_cert := x5;
    t_key := x6;
    t_cache_mode := x7;
    t_user_token_hash := x8;
    t_admin_token_hash := x9;
    t_uri := x10;
    t_api_key := x11;
    t_amd_kds_uri := x12;
    t_amd_kds_cache_ttl_seconds := x13;
    t_nvidia_rim_uri := x14;
    t_nvidia_rim_cache_ttl_seconds := x15;
    t_nvidia_nras_uri := x16;
    t_nvidia_ocsp_uri := x17;
    t_nvidia_ocsp_max_ttl_seconds := x18;
    t_nvidia_ocsp_default_ttl_seconds := x19;
    t_readthrough_max_entries_per_kind := x20;
    t_proxy := x21;
    t_refresh_schedule := x22;
    t_db_path := x23;
    t_log_level := x24;
    t_max_request_body_size := x25;
    t_rocksdb_block_cache_mb := x26;
    t_rocksdb_write_buffer_mb := x27;
    t_rocksdb_max_write_buffers := x28;
    t_rocksdb_max_open_files := x29;
    t_request_timeout_seconds := x30;
    t_headers_timeout_seconds := x31;
    t_keepalive_timeout_seconds := x32;
    t_collateral_cache_max_age_seconds := x33;
    t_upstream_max_concurrent := x34;
    t_upstream_max_attempts := x35;
    t_upstream_pool_idle_seconds := x36;
    t_pool_refetch_on_new_tcb := x37;
    t_pool_refetch_interval_seconds := x38;
    t_scheduled_pool_refresh := x39
  |}.
End toml_config.
