(* ===== verification/ConfigSpec.v ===== *)
(** * ConfigSpec: what the effective configuration guarantees

    Which upstream counts as Intel's, which requests pass the token guards of
    a service started from given arguments and a configuration file, the
    bounds every effective configuration satisfies, and the conversion of a
    Node configuration. *)

From Stdlib Require Import ZArith Lia.
From stdpp Require Import base list strings option gmap.
From S2P Require Import Prelude Text Errors Validate Env PckCert Selection Database Urls Prog Cache Pcs Routes RoutesSpec Config.

Local Open Scope Z_scope.
Local Open Scope rust_scope.
#[local] Set Default Proof Using "Type*".

(** ** The host of a URL *)

Lemma split_once_str_scheme scheme r :
  free_of ":" scheme → split_once_str "://" (scheme ++ "://" ++ r)%string = Some (scheme, r).
Proof.
  unfold free_of. induction scheme as [|c s IH]; [done|].
  cbn [str_all String.append]. intros [Hc Hs]%andb_true_iff. apply negb_true_iff in Hc.
  specialize (IH Hs). cbn [String.append] in IH. cbn [split_once_str strip_prefix]. by rewrite Hc, IH.
Qed.

Lemma before_any_stop stop s t :
  str_all (λ c, negb (stop c)) s = true →
  match t with EmptyString => True | String c _ => stop c = true end →
  before_any stop (s ++ t)%string = s.
Proof.
  intros Hs Ht. induction s as [|c s IH]; cbn [String.append before_any].
  - destruct t as [|c t]; [done|]. cbn. by rewrite Ht.
  - cbn in Hs. apply andb_true_iff in Hs as [Hc%negb_true_iff Hs]. by rewrite Hc, IH.
Qed.

Lemma after_last_at_free s : free_of "@" s → after_last_at s = s.
Proof. intros Hs. unfold after_last_at. by rewrite split_free. Qed.

Lemma split_last c s t : free_of c t → last (split c (s ++ String c t)%string) = Some t.
Proof.
  intros Ht. induction s as [|d s IH]; cbn [String.append split].
  - rewrite Ascii.eqb_refl. by rewrite split_free.
  - destruct (Ascii.eqb c d).
    + rewrite last_cons, IH. done.
    + destruct (split c (s ++ String c t)%string) as [|w ws] eqn:E; [done|].
      rewrite last_cons in IH. rewrite last_cons. destruct (last ws) eqn:El; [done|].
      exfalso. destruct ws; [|by rewrite last_cons in El; destruct (last ws)].
      injection IH as ->. pose proof (split_join c (s ++ String c t)%string) as Hj. rewrite E in Hj. cbn in Hj.
      assert (Hf : free_of c (s ++ String c t)%string) by by rewrite <- Hj.
      unfold free_of in Hf. rewrite str_all_app in Hf. cbn in Hf. rewrite Ascii.eqb_refl in Hf. cbn in Hf.
      by rewrite andb_false_r in Hf.
Qed.

Lemma after_last_at_strip s t : free_of "@" t → after_last_at (s ++ String "@" t)%string = t.
Proof. intros Ht. unfold after_last_at. by rewrite split_last. Qed.

(** The parts of a URL: user information, host, port and the rest *)
Record UrlParts := { u_scheme : string; u_user : option string; u_host : string; u_port : option string; u_rest : string }.

Definition ends_authority (c : ascii) : bool := Ascii.eqb c "/" || Ascii.eqb c "?" || Ascii.eqb c "#".
Definition host_char (c : ascii) : bool :=
  negb (ends_authority c || Ascii.eqb "@" c || Ascii.eqb ":" c || Ascii.eqb "[" c).

Definition authority_of (u : UrlParts) : string :=
  (match u_user u with Some i => i ++ "@" | None => "" end ++ u_host u
   ++ match u_port u with Some p => ":" ++ p | None => "" end)%string.
Definition url_of (u : UrlParts) : string := (u_scheme u ++ "://" ++ authority_of u ++ u_rest u)%string.

Definition url_wf (u : UrlParts) : Prop :=
  free_of ":" (u_scheme u) ∧ str_all host_char (u_host u) = true ∧ u_host u ≠ EmptyString ∧
  (∀ i, u_user u = Some i → str_all (λ c, negb (ends_authority c)) i = true) ∧
  (∀ p, u_port u = Some p → str_all (λ c, negb (ends_authority c) && negb (Ascii.eqb "@" c)) p = true) ∧
  match u_rest u with EmptyString => True | String c _ => ends_authority c = true end.

Lemma str_all_impl (p q : ascii → bool) s : (∀ c, p c = true → q c = true) → str_all p s = true → str_all q s = true.
Proof. intros Hpq. induction s as [|c s IH]; [done|]. cbn. rewrite !andb_true_iff. naive_solver. Qed.

Lemma uri_host_of u : url_wf u → uri_host (url_of u) = Some (to_lower (u_host u)).
Proof.
  intros (Hs & Hh & Hne & Hi & Hp & Hr). unfold uri_host, url_of. rewrite split_once_str_scheme by done. cbv zeta.
  pose (tail := (u_host u ++ match u_port u with Some p => ":" ++ p | None => "" end)%string).
  assert (Hend : str_all (λ c, negb (ends_authority c)) tail = true).
  { unfold tail. rewrite str_all_app. apply andb_true_iff. split.
    - revert Hh. apply str_all_impl. intros c. unfold host_char. by destruct (ends_authority c).
    - destruct (u_port u) as [p|]; [|done]. cbn. specialize (Hp p eq_refl). revert Hp. apply str_all_impl.
      intros c. by destruct (ends_authority c). }
  assert (Hau : before_any ends_authority (authority_of u ++ u_rest u)%string = authority_of u).
  { apply before_any_stop; [|done]. unfold authority_of. fold tail. rewrite str_all_app, Hend, andb_true_r.
    destruct (u_user u) as [i|]; [|done]. by rewrite str_all_app, (Hi i eq_refl). }
  unfold ends_authority in Hau. rewrite Hau. clear Hau.
  assert (Hat : free_of "@" tail).
  { unfold tail. apply free_of_app.
    - unfold free_of. revert Hh. apply str_all_impl. intros c. unfold host_char.
      destruct (ends_authority c), (Ascii.eqb "@" c); done.
    - destruct (u_port u) as [p|]; [|done]. specialize (Hp p eq_refl).
      change (free_of "@" (String ":" p)). unfold free_of. cbn. revert Hp. apply str_all_impl.
      intros c. by destruct (ends_authority c). }
  assert (Ha : after_last_at (authority_of u) = tail).
  { unfold authority_of. fold tail. destruct (u_user u) as [i|]; [|by apply after_last_at_free].
    rewrite <- str_app_assoc. by apply after_last_at_strip. }
  rewrite Ha. unfold tail.
  destruct (u_host u) as [|c h] eqn:Eh; [done|]. cbn [str_all] in Hh. apply andb_true_iff in Hh as [Hc Hh].
  assert (Hb : Ascii.eqb "[" c = false).
  { unfold host_char in Hc. destruct (Ascii.eqb "[" c); [|done]. by rewrite !orb_true_r in Hc. }
  assert (Himp : ∀ x, host_char x = true → negb (Ascii.eqb ":" x) = true).
  { intros x. unfold host_char. destruct (ends_authority x), (Ascii.eqb "@" x), (Ascii.eqb ":" x); done. }
  assert (Hs' : str_all (λ x, negb (Ascii.eqb ":" x)) (String c h) = true).
  { cbn [str_all]. rewrite (Himp _ Hc). cbn [andb]. revert Hh. by apply str_all_impl. }
  rewrite before_any_stop; [|done|by destruct (u_port u)].
  cbn [String.append strip_prefix]. by rewrite Hb.
Qed.

(** The upstream is Intel's exactly when the host of its URL is
    trustedservices.intel.com or a subdomain of it, in any letter case: nothing
    in the user information, the port, the path or the query of a URL makes
    another host pass for it. *)
Theorem intel_upstream_host cfg u :
  url_wf u → c_uri cfg = url_of u →
  is_intel_upstream cfg = true ↔
    to_lower (u_host u) = "trustedservices.intel.com" ∨
    ∃ sub, to_lower (u_host u) = (sub ++ ".trustedservices.intel.com")%string.
Proof.
  intros Hw Hu. unfold is_intel_upstream. rewrite Hu, uri_host_of by done.
  rewrite orb_true_iff, String.eqb_eq. unfold ends_with.
  destruct (strip_suffix ".trustedservices.intel.com" (to_lower (u_host u))) as [r|] eqn:E.
  - apply strip_suffix_spec in E. split; [|by right]. intros _. right. by exists r.
  - split; [intros [?|?]; [by left|done]|]. intros [?|[sub Hsub]]; [by left|].
    apply strip_suffix_spec in Hsub. by rewrite Hsub in E.
Qed.

(** ** Starting a service *)

(** The configuration file in force: the one named by the arguments, else the
    implicit one where it exists, else none *)
Inductive chosen_file (load : string → option TomlConfig) (is_file : string → bool) (empty : TomlConfig)
    (c : ServeArgs) (implicit_config : option string) : TomlConfig → Prop :=
| named p file :
    a_config c = Some p → load p = Some file → chosen_file load is_file empty c implicit_config file
| implied p file :
    a_config c = None → implicit_config = Some p → is_file p = true → load p = Some file →
    chosen_file load is_file empty c implicit_config file
| no_file :
    a_config c = None → (∀ p, implicit_config = Some p → is_file p = false) →
    chosen_file load is_file empty c implicit_config empty.

Lemma from_serve_args_inv load is_file empty c implicit_config cfg :
  from_serve_args load is_file empty c implicit_config = Some cfg →
  ∃ file, chosen_file load is_file empty c implicit_config file ∧
          cfg = apply_cli (apply_toml default_config file) c.
Proof.
  unfold from_serve_args. intros H. apply bind_Some in H as (file & Hf & [= <-]). exists file. split; [|done].
  destruct (a_config c) as [p|] eqn:Ec; [by eapply named|].
  destruct implicit_config as [p|] eqn:Ei; cbn in Hf.
  - destruct (is_file p) eqn:Ep; [by eapply implied|]. injection Hf as <-. apply no_file; [done|naive_solver].
  - injection Hf as <-. by apply no_file.
Qed.

(** *** The token guards *)

Section guards.
Context `{!Sha2, !Sha2Laws}.

Lemma token_matches_wellformed hash t : token_matches hash t → is_sha512_hex hash = true.
Proof.
  intros [_ E]. apply parse_expected_hash_spec in E; [|apply sha512_length|apply sha512_bytes].
  unfold parse_expected_hash in E. unfold is_sha512_hex.
  by destruct (String.length hash =? 128)%nat, (str_all is_hexdigit hash).
Qed.

(** The hash in force for a guard: what the arguments give, else the file;
    with [--dev-tokens] the built-in one where that leaves none *)
Inductive hash_in_force (cli file : option string) (dev : bool) (built_in : string) : string → Prop :=
| from_cli hash : cli = Some hash → hash ≠ EmptyString → hash_in_force cli file dev built_in hash
| from_file hash : cli = None → file = Some hash → hash ≠ EmptyString → hash_in_force cli file dev built_in hash
| from_dev :
    dev = true → cli = Some EmptyString ∨ cli = None ∧ (file = None ∨ file = Some EmptyString) →
    hash_in_force cli file dev built_in built_in.

Definition opens (cli file : option string) (dev : bool) (built_in : string) (token : option string) : Prop :=
  ∃ t hash, token = Some t ∧ hash_in_force cli file dev built_in hash ∧ is_sha512_hex hash = true ∧ token_matches hash t.

Lemma empty_hash_never t : ¬ token_matches "" t.
Proof. by intros Hm%token_matches_wellformed. Qed.

Lemma guard_hash cli file dev built_in t :
  let hash := over cli (over (nonempty file) EmptyString) in
  token_matches (if dev && is_empty hash then built_in else hash) t ↔ opens cli file dev built_in (Some t).
Proof.
  intros hash. split.
  - intros Hm. exists t, (if dev && is_empty hash then built_in else hash).
    split; [done|]. split; [|by split; [eapply token_matches_wellformed|]].
    destruct (is_empty hash) eqn:Ee.
    + destruct dev; [|destruct hash; [by apply empty_hash_never in Hm|done]].
      apply from_dev; [done|]. destruct cli as [[|??]|]; cbn in *; [by left|done|right; split; [done|]].
      destruct file as [[|??]|]; [by right|done|by left].
    + rewrite andb_false_r. destruct cli as [h|]; cbn in *.
      * apply from_cli; [done|]. intros E. unfold hash in Ee. by rewrite E in Ee.
      * destruct file as [[|d s]|]; cbn in *; [done| |done]. by apply from_file.
  - intros (t' & h & [= <-] & Hf & _ & Hm). destruct Hf as [h -> Hh | h -> -> Hh | -> Hn].
    + cbn in hash. subst hash. destruct h; [done|]. by rewrite andb_false_r.
    + subst hash. destruct h; [done|]. cbn. by rewrite andb_false_r.
    + subst hash. destruct Hn as [-> | [-> [-> | ->]]]; done.
Qed.

Lemma verify_token_opens cli file dev built_in token :
  let hash := over cli (over (nonempty file) EmptyString) in
  verify_token token (if dev && is_empty hash then built_in else hash) = Ok () ↔ opens cli file dev built_in token.
Proof.
  intros hash. destruct token as [t|].
  - rewrite verify_token_some, <- guard_hash. fold hash. by case_bool_decide.
  - rewrite verify_token_none. split; [done|]. by intros (? & ? & ? & _).
Qed.

(** C26: In a service started from given arguments and a configuration file, a
    guarded request passes exactly when its token's digest is a well-formed
    hash the arguments or, failing them, the file give; the built-in
    development tokens pass only when they were asked for and no hash was
    given.  So a service nobody configured tokens for refuses every guarded
    request. *)
Theorem guards_fail_closed {V} load is_file empty c implicit_config cfg :
  from_serve_args load is_file empty c implicit_config = Some cfg →
  ∃ file, chosen_file load is_file empty c implicit_config file ∧ ∀ req : HttpIn V,
    (authorize (Config.settings cfg) User req = Ok () ↔
       opens (a_user_token_hash c) (t_user_token_hash file) (a_dev_tokens c) DEFAULT_USER_TOKEN_HASH
         (in_header req "user-token")) ∧
    (authorize (Config.settings cfg) Admin req = Ok () ↔
       opens (a_admin_token_hash c) (t_admin_token_hash file) (a_dev_tokens c) DEFAULT_ADMIN_TOKEN_HASH
         (in_header req "admin-token")).
Proof.
  intros (file & Hfile & ->)%from_serve_args_inv. exists file. split; [done|]. intros req.
  split; apply verify_token_opens.
Qed.
End guards.

(** *** Bounds *)

Definition config_wf (cfg : Config) : Prop :=
  c_http cfg = negb (c_https cfg) ∧ 1 <= c_max_body_size cfg <= u64_max ∧
  c_collateral_cache_max_age_secs cfg ≠ Some 0.

Lemma dec_acc_nonneg s : ∀ acc n, 0 <= acc → dec_acc acc s = Some n → 0 <= n.
Proof.
  induction s as [|c s IH]; intros acc n Ha; cbn [dec_acc]; [by intros [= <-]|].
  destruct (is_digit c) eqn:Ed; [|done]. apply IH. unfold is_digit, in_range in Ed.
  apply andb_true_iff in Ed as [E1%Z.leb_le E2%Z.leb_le]. lia.
Qed.

Lemma parse_uint_range max s n : parse_uint max s = Some n → 0 <= n <= max.
Proof.
  unfold parse_uint. destruct (is_empty _); [done|]. intros H. apply bind_Some in H as (m & Hd & Hm).
  destruct (m <=? max) eqn:E; [|done]. injection Hm as <-. apply Z.leb_le in E.
  split; [|done]. by eapply (dec_acc_nonneg _ 0).
Qed.

Lemma try_parse_body_size_range s n : try_parse_body_size s = Some n → 1 <= n <= u64_max.
Proof.
  unfold try_parse_body_size. destruct (match strip_suffix _ _ with Some _ => _ | None => _ end) as [num mul].
  intros H. apply bind_Some in H as (k & Hk & H). apply bind_Some in H as (v & Hv & H).
  destruct (0 <? v) eqn:E; [|done]. injection H as <-. apply Z.ltb_lt in E.
  unfold checked_mul in Hv. destruct (k * mul <=? u64_max) eqn:El; [|done]. injection Hv as <-.
  apply Z.leb_le in El. lia.
Qed.

Lemma body_size_reporting_range s w : 1 <= (parse_body_size_reporting s w).1 <= u64_max.
Proof.
  unfold parse_body_size_reporting. destruct (try_parse_body_size s) as [n|] eqn:E; [|done].
  by apply try_parse_body_size_range in E.
Qed.

Lemma max_age_nonzero n w : (set_collateral_cache_max_age n w).1 ≠ Some 0.
Proof. unfold set_collateral_cache_max_age. destruct (n =? 0) eqn:E; [done|]. apply Z.eqb_neq in E. cbn. congruence. Qed.

Lemma apply_toml_wf cfg file : config_wf cfg → config_wf (apply_toml cfg file).
Proof.
  intros (Hh & Hb & Ha). unfold config_wf, apply_toml. cbn -[u64_max]. split; [|split].
  - by destruct (t_https file) as [[]|].
  - destruct (t_max_request_body_size file); [apply body_size_reporting_range|done].
  - destruct (t_collateral_cache_max_age_seconds file); [apply max_age_nonzero|done].
Qed.

Lemma apply_cli_wf cfg c : config_wf cfg → config_wf (apply_cli cfg c).
Proof.
  intros (Hh & Hb & Ha). unfold config_wf, apply_cli. cbn -[u64_max]. split; [|split].
  - by destruct (a_https c), (a_http c).
  - destruct (a_max_body_size c); [apply body_size_reporting_range|done].
  - destruct (a_collateral_cache_max_age c); [apply max_age_nonzero|done].
Qed.

(** C28: Every effective configuration is well formed: exactly one of http and
    https, a body limit between one byte and the largest usize, and a
    Cache-Control age that is unset or positive; a bad size or a zero age is
    replaced, never fatal. *)
Theorem from_serve_args_wf load is_file empty c implicit_config cfg :
  from_serve_args load is_file empty c implicit_config = Some cfg → config_wf cfg.
Proof.
  intros (file & _ & ->)%from_serve_args_inv. by apply apply_cli_wf, apply_toml_wf.
Qed.

(** ** Converting a Node configuration *)

(** What each key of the TOML document is set to *)
Definition json_items (src : JsonConfig) : list (string * option Item) :=
  [("upstream_pool_idle_seconds"%string, TInteger <$> (as_i64 <$> j_upstream_pool_idle_seconds src));
   ("upstream_max_attempts"%string, TInteger <$> (as_i64 <$> j_upstream_max_attempts src));
   ("upstream_max_concurrent"%string, TInteger <$> (as_i64 <$> j_upstream_max_concurrent src));
   ("keepalive_timeout_seconds"%string, TInteger <$> (as_i64 <$> j_keepalive_timeout_seconds src));
   ("headers_timeout_seconds"%string, TInteger <$> (as_i64 <$> j_headers_timeout_seconds src));
   ("request_timeout_seconds"%string, TInteger <$> (as_i64 <$> j_request_timeout_seconds src));
   ("rocksdb_max_open_files"%string, TInteger <$> (j_max_open_files src));
   ("rocksdb_max_write_buffers"%string, TInteger <$> (j_max_write_buffers src));
   ("rocksdb_write_buffer_mb"%string, TInteger <$> (as_i64 <$> j_write_buffer_mb src));
   ("rocksdb_block_cache_mb"%string, TInteger <$> (as_i64 <$> j_block_cache_mb src));
   ("max_request_body_size"%string, TString <$> (j_max_request_body_size src));
   ("db_path"%string, TString <$> (j_db_path src));
   ("log_level"%string, TString <$> (j_log_level src));
   ("cache_mode"%string, TString <$> (fill_mode <$> j_caching_fill_mode src));
   ("admin_token_hash"%string, TString <$> (j_admin_token_hash src));
   ("user_token_hash"%string, TString <$> (j_user_token_hash src));
   ("refresh_schedule"%string, TString <$> (j_refresh_schedule src));
   ("proxy"%string, TString <$> (j_proxy src));
   ("api_key"%string, TString <$> (j_api_key src));
   ("uri"%string, TString <$> (j_uri src));
   ("port"%string, TInteger <$> (j_https_port src));
   ("host"%string, TString <$> (j_hosts src))].

Fixpoint set_over (l : list (string * option Item)) (k : string) (old : option Item) : option Item :=
  match l with
  | [] => old
  | (key, o) :: l => match (if String.eqb key k then o else None) with Some i => Some i | None => set_over l k old end
  end.

Lemma lookup_put {A} key k (item : A → Item) o doc :
  put key item o doc !! k = match (if String.eqb key k then item <$> o else None) with Some i => Some i | None => doc !! k end.
Proof.
  destruct (String.eqb_spec key k) as [->|Hne]; destruct o as [v|]; cbn; try done.
  - by rewrite lookup_insert_eq.
  - by rewrite lookup_insert_ne.
Qed.

Lemma json_lookup doc src k : apply_json_to_toml doc src !! k = set_over (json_items src) k (doc !! k).
Proof. unfold apply_json_to_toml. rewrite !lookup_put. reflexivity. Qed.

(** A JSON value within the width of its field in [JsonConfig] *)
Definition within (lo hi : Z) (o : option Z) : Prop := ∀ n, o = Some n → lo <= n <= hi.

Definition json_typed (j : JsonConfig) : Prop :=
  within 0 u16_max (j_https_port j) ∧ within 0 u64_max (j_block_cache_mb j) ∧
  within 0 u64_max (j_write_buffer_mb j) ∧ within i32_min i32_max (j_max_write_buffers j) ∧
  within i32_min i32_max (j_max_open_files j) ∧ within 0 u64_max (j_request_timeout_seconds j) ∧
  within 0 u64_max (j_headers_timeout_seconds j) ∧ within 0 u64_max (j_keepalive_timeout_seconds j) ∧
  within 0 u64_max (j_upstream_max_concurrent j) ∧ within 0 u32_max (j_upstream_max_attempts j) ∧
  within 0 u64_max (j_upstream_pool_idle_seconds j).

(** The 64-bit values that an [i64] holds too *)
Definition fits (o : option Z) : bool := match o with Some n => n <=? i64_max | None => true end.
Definition representable (j : JsonConfig) : bool :=
  forallb fits [j_block_cache_mb j; j_write_buffer_mb j; j_request_timeout_seconds j; j_headers_timeout_seconds j;
                j_keepalive_timeout_seconds j; j_upstream_max_concurrent j; j_upstream_pool_idle_seconds j].

(** The settings of [t] with those of the JSON configuration over them *)
Definition overlay (j : JsonConfig) (t : TomlConfig) : TomlConfig := {|
  t_host := over_opt (j_hosts j) (t_host t);
  t_port := over_opt (j_https_port j) (t_port t);
  t_metrics_listen := t_metrics_listen t;
  t_server_timing := t_server_timing t;
  t_https := t_https t;
  t_cert := t_cert t;
  t_key := t_key t;
  t_cache_mode := over_opt (fill_mode <$> j_caching_fill_mode j) (t_cache_mode t);
  t_user_token_hash := over_opt (j_user_token_hash j) (t_user_token_hash t);
  t_admin_token_hash := over_opt (j_admin_token_hash j) (t_admin_token_hash t);
  t_uri := over_opt (j_uri j) (t_uri t);
  t_api_key := over_opt (j_api_key j) (t_api_key t);
  t_amd_kds_uri := t_amd_kds_uri t;
  t_amd_kds_cache_ttl_seconds := t_amd_kds_cache_ttl_seconds t;
  t_nvidia_rim_uri := t_nvidia_rim_uri t;
  t_nvidia_rim_cache_ttl_seconds := t_nvidia_rim_cache_ttl_seconds t;
  t_nvidia_nras_uri := t_nvidia_nras_uri t;
  t_nvidia_ocsp_uri := t_nvidia_ocsp_uri t;
  t_nvidia_ocsp_max_ttl_seconds := t_nvidia_ocsp_max_ttl_seconds t;
  t_nvidia_ocsp_default_ttl_seconds := t_nvidia_ocsp_default_ttl_seconds t;
  t_readthrough_max_entries_per_kind := t_readthrough_max_entries_per_kind t;
  t_proxy := over_opt (j_proxy j) (t_proxy t);
  t_refresh_schedule := over_opt (j_refresh_schedule j) (t_refresh_schedule t);
  t_db_path := over_opt (j_db_path j) (t_db_path t);
  t_log_level := over_opt (j_log_level j) (t_log_level t);
  t_max_request_body_size := over_opt (j_max_request_body_size j) (t_max_request_body_size t);
  t_rocksdb_block_cache_mb := over_opt (j_block_cache_mb j) (t_rocksdb_block_cache_mb t);
  t_rocksdb_write_buffer_mb := over_opt (j_write_buffer_mb j) (t_rocksdb_write_buffer_mb t);
  t_rocksdb_max_write_buffers := over_opt (j_max_write_buffers j) (t_rocksdb_max_write_buffers t);
  t_rocksdb_max_open_files := over_opt (j_max_open_files j) (t_rocksdb_max_open_files t);
  t_request_timeout_seconds := over_opt (j_request_timeout_seconds j) (t_request_timeout_seconds t);
  t_headers_timeout_seconds := over_opt (j_headers_timeout_seconds j) (t_headers_timeout_seconds t);
  t_keepalive_timeout_seconds := over_opt (j_keepalive_timeout_seconds j) (t_keepalive_timeout_seconds t);
  t_collateral_cache_max_age_seconds := t_collateral_cache_max_age_seconds t;
  t_upstream_max_concurrent := over_opt (j_upstream_max_concurrent j) (t_upstream_max_concurrent t);
  t_upstream_max_attempts := over_opt (j_upstream_max_attempts j) (t_upstream_max_attempts t);
  t_upstream_pool_idle_seconds := over_opt (j_upstream_pool_idle_seconds j) (t_upstream_pool_idle_seconds t);
  t_pool_refetch_on_new_tcb := t_pool_refetch_on_new_tcb t;
  t_pool_refetch_interval_seconds := t_pool_refetch_interval_seconds t;
  t_scheduled_pool_refresh := t_scheduled_pool_refresh t
|}.

Lemma as_i64_small n : 0 <= n <= i64_max → as_i64 n = n.
Proof.
  intros Hn. unfold as_i64. rewrite Z.mod_small by (unfold i64_max in Hn; lia).
  by rewrite (proj2 (Z.leb_le n i64_max)) by lia.
Qed.

Lemma as_i64_large n : i64_max < n <= u64_max → as_i64 n < 0.
Proof.
  unfold i64_max, u64_max. intros Hn. unfold as_i64. rewrite Z.mod_small by lia.
  unfold i64_max. rewrite (proj2 (Z.leb_gt n (2 ^ 63 - 1))) by lia. lia.
Qed.

(** What reading one key gives after the conversion *)
Section fields.
Context (socket_addr : string → bool) (doc : Document).

Lemma text_field_put doc' key o x :
  doc' !! key = match TString <$> o with Some i => Some i | None => doc !! key end →
  text_field doc key = Some x → text_field doc' key = Some (over_opt o x).
Proof. unfold text_field, field. intros ->. by destruct o. Qed.

Lemma int_field_put doc' lo hi key o x :
  doc' !! key = match TInteger <$> o with Some i => Some i | None => doc !! key end →
  within lo hi o → int_field doc lo hi key = Some x → int_field doc' lo hi key = Some (over_opt o x).
Proof.
  unfold int_field, field. intros -> Hw. destruct o as [n|]; [|done]. intros _. cbn.
  destruct (Hw n eq_refl) as [H1%Z.leb_le H2%Z.leb_le]. by rewrite H1, H2.
Qed.

Lemma int_field_wide_put doc' key o x :
  doc' !! key = match TInteger <$> (as_i64 <$> o) with Some i => Some i | None => doc !! key end →
  within 0 u64_max o → fits o = true →
  int_field doc 0 u64_max key = Some x → int_field doc' 0 u64_max key = Some (over_opt o x).
Proof.
  intros Hl Hw Hf. apply int_field_put; [|done]. rewrite Hl. destruct o as [n|]; [|done]. cbn.
  destruct (Hw n eq_refl). rewrite as_i64_small; [done|]. apply Z.leb_le in Hf. lia.
Qed.

Lemma int_field_wide_bad doc' key o x :
  doc' !! key = match TInteger <$> (as_i64 <$> o) with Some i => Some i | None => doc !! key end →
  within 0 u64_max o → int_field doc' 0 u64_max key = Some x → fits o = true.
Proof.
  intros Hl Hw. unfold int_field, field. rewrite Hl. destruct o as [n|]; [|done]. cbn.
  destruct (0 <=? as_i64 n) eqn:E; [|done]. intros _. apply Z.leb_le in E. apply Z.leb_le.
  destruct (decide (n <= i64_max)) as [|Hn]; [done|]. pose proof (as_i64_large n). destruct (Hw n eq_refl). lia.
Qed.

Lemma same_field {A} doc' (of_item : Item → option A) key :
  doc' !! key = doc !! key → field doc' of_item key = field doc of_item key.
Proof. unfold field. by intros ->. Qed.
End fields.

(** The item of one key after the conversion *)
Ltac json_key := etransitivity; [apply json_lookup|reflexivity].

(** The fields a successful read goes through, and its result *)
Ltac toml_inv H :=
  unfold toml_config in H;
  do 40 (let x := fresh "x" in let Hx := fresh "Hx" in apply bind_Some in H as (x & Hx & H));
  injection H as <-.

Ltac typed := match goal with H : within _ _ ?o |- within _ _ ?o => exact H | H : fits ?o = true |- fits ?o = true => exact H end.

Ltac put_field :=
  first
    [ etransitivity; [apply same_field; json_key|eassumption]
    | eapply text_field_put; [json_key|eassumption]
    | eapply int_field_put; [json_key|typed|eassumption]
    | eapply int_field_wide_put; [json_key|typed|typed|eassumption] ].

Lemma bind_step {A B} (m : option A) (f : A → option B) a r : m = Some a → f a = r → m ≫= f = r.
Proof. by intros ->. Qed.

Lemma upstream_attempts_put doc doc' key o x :
  doc' !! key = match TInteger <$> (as_i64 <$> o) with Some i => Some i | None => doc !! key end →
  within 0 u32_max o → int_field doc 0 u32_max key = Some x → int_field doc' 0 u32_max key = Some (over_opt o x).
Proof.
  intros Hl Hw. apply int_field_put; [|done]. rewrite Hl. destruct o as [n|]; [|done]. cbn.
  pose proof (Hw n eq_refl) as Hr. unfold u32_max in Hr. rewrite as_i64_small; [done|]. unfold i64_max. lia.
Qed.

Lemma json_overlay socket_addr doc j t :
  json_typed j → representable j = true → toml_config socket_addr doc = Some t →
  toml_config socket_addr (apply_json_to_toml doc j) = Some (overlay j t).
Proof.
  intros Hj Hr H. destruct Hj as (? & ? & ? & ? & ? & ? & ? & ? & ? & ? & ?).
  unfold representable in Hr. cbn [forallb] in Hr. rewrite !andb_true_iff in Hr. destruct_and! Hr.
  toml_inv H. unfold toml_config.
  do 40 (eapply bind_step; [first [put_field | eapply upstream_attempts_put; [json_key|typed|eassumption]]|]).
  reflexivity.
Qed.

Lemma json_unrepresentable socket_addr doc j t :
  json_typed j → toml_config socket_addr (apply_json_to_toml doc j) = Some t → representable j = true.
Proof.
  intros Hj H. destruct Hj as (? & ? & ? & ? & ? & ? & ? & ? & ? & ? & ?). toml_inv H.
  unfold representable. cbn [forallb]. rewrite !andb_true_iff.
  split_and!; [..|done];
    match goal with
    | Hx : int_field _ 0 u64_max ?key = Some _ |- _ => eapply (int_field_wide_bad doc _ key); [json_key|typed|exact Hx]
    end.
Qed.

Lemma parse_fill_mode v : parse (fill_mode v) = parse v.
Proof.
  unfold fill_mode. destruct (parse v) as [[]|] eqn:E; [reflexivity..|].
  revert E. unfold parse. by rewrite upper_lower.
Qed.

(** C27: Converting a Node configuration keeps every key the JSON file does not
    mention, and the converted file loads to the settings of the old file, or
    of the packaged template, with those of the JSON file over them; the fill
    mode keeps its meaning.  A 64-bit JSON value that no i64 holds is written
    as a negative number, and then the converted file does not load. *)
Theorem import_json_overlays socket_addr template to_ base j t :
  default (Ok template) to_ = Ok base → json_typed j → toml_config socket_addr base = Some t →
  ∃ out, import_pccs_json template (Ok j) to_ = Ok out ∧
    (∀ k, k ∉ (json_items j).*1 → out !! k = base !! k) ∧
    toml_config socket_addr out = (if representable j then Some (overlay j t) else None) ∧
    (∀ v, parse (fill_mode v) = parse v).
Proof.
  intros Hb Hj Ht. exists (apply_json_to_toml base j). split; [|split; [|split]].
  - unfold import_pccs_json. cbn. by rewrite Hb.
  - intros k Hk. rewrite json_lookup. induction (json_items j) as [|[key o] l IH]; [done|].
    cbn in *. apply not_elem_of_cons in Hk as [Hne Hk].
    rewrite (proj2 (String.eqb_neq key k)) by congruence. by apply IH.
  - destruct (representable j) eqn:Er; [by apply json_overlay|].
    destruct (toml_config socket_addr (apply_json_to_toml base j)) as [t'|] eqn:E; [|done].
    apply json_unrepresentable in E; [congruence|done].
  - apply parse_fill_mode.
Qed.

(** ** Witnesses *)

Module ConfigSample.

Definition no_args : ServeArgs := {|
  a_config := None; a_host := None; a_port := None; a_metrics_listen := None; a_server_timing := None;
  a_http := false; a_https := false; a_cert := None; a_key := None; a_cache_mode := None;
  a_user_token_hash := None; a_admin_token_hash := None; a_uri := None; a_api_key := None;
  a_amd_kds_uri := None; a_amd_kds_cache_ttl_seconds := None; a_nvidia_rim_uri := None;
  a_nvidia_rim_cache_ttl_seconds := None; a_nvidia_nras_uri := None; a_nvidia_ocsp_uri := None;
  a_nvidia_ocsp_max_ttl_seconds := None; a_nvidia_ocsp_default_ttl_seconds := None;
  a_readthrough_max_entries_per_kind := None; a_proxy := None; a_refresh_schedule := None; a_db_path := None;
  a_log_level := None; a_max_body_size := None; a_seed := None; a_no_seed := false; a_block_cache_mb := None;
  a_write_buffer_mb := None; a_max_write_buffers := None; a_max_open_files := None;
  a_request_timeout_seconds := None; a_headers_timeout_seconds := None; a_keepalive_timeout_seconds := None;
  a_collateral_cache_max_age := None; a_upstream_max_concurrent := None; a_upstream_max_attempts := None;
  a_upstream_pool_idle_seconds := None; a_dev_tokens := false |}.

Definition no_toml : TomlConfig := {|
  t_host := None; t_port := None; t_metrics_listen := None; t_server_timing := None; t_https := None;
  t_cert := None; t_key := None; t_cache_mode := None; t_user_token_hash := None; t_admin_token_hash := None;
  t_uri := None; t_api_key := None; t_amd_kds_uri := None; t_amd_kds_cache_ttl_seconds := None;
  t_nvidia_rim_uri := None; t_nvidia_rim_cache_ttl_seconds := None; t_nvidia_nras_uri := None;
  t_nvidia_ocsp_uri := None; t_nvidia_ocsp_max_ttl_seconds := None;
  t_nvidia_ocsp_default_ttl_seconds := None; t_readthrough_max_entries_per_kind := None; t_proxy := None;
  t_refresh_schedule := None; t_db_path := None; t_log_level := None; t_max_request_body_size := None;
  t_rocksdb_block_cache_mb := None; t_rocksdb_write_buffer_mb := None; t_rocksdb_max_write_buffers := None;
  t_rocksdb_max_open_files := None; t_request_timeout_seconds := None; t_headers_timeout_seconds := None;
  t_keepalive_timeout_seconds := None; t_collateral_cache_max_age_seconds := None;
  t_upstream_max_concurrent := None; t_upstream_max_attempts := None; t_upstream_pool_idle_seconds := None;
  t_pool_refetch_on_new_tcb := None; t_pool_refetch_interval_seconds := None;
  t_scheduled_pool_refresh := None |}.

Definition node_config : JsonConfig := {|
  j_https_port := Some 443; j_hosts := Some "0.0.0.0"%string; j_uri := None; j_api_key := None;
  j_proxy := None; j_refresh_schedule := None; j_user_token_hash := None; j_admin_token_hash := None;
  j_caching_fill_mode := Some "Req"%string; j_log_level := None; j_db_path := None;
  j_max_request_body_size := None; j_block_cache_mb := Some 16; j_write_buffer_mb := None;
  j_max_write_buffers := None; j_max_open_files := None; j_request_timeout_seconds := None;
  j_headers_timeout_seconds := None; j_keepalive_timeout_seconds := None; j_upstream_max_concurrent := None;
  j_upstream_max_attempts := Some 3; j_upstream_pool_idle_seconds := None |}.

Definition template : Document :=
  {["host" := TString "127.0.0.1"; "port" := TInteger 8081; "https" := TBoolean false]}%string.

Definition template_toml : TomlConfig := default no_toml (toml_config (λ _, true) template).

Definition tricky : UrlParts := {|
  u_scheme := "https"; u_user := Some "api.trustedservices.intel.com:x"%string; u_host := "evil.example";
  u_port := Some "443"%string; u_rest := "/api.trustedservices.intel.com"
|}.

Definition started : Config := apply_cli (apply_toml default_config no_toml) no_args.

(** Nothing but the host decides *)
Example tricky_is_not_intel :
  uri_host (url_of tricky) = Some "evil.example"%string ∧
  uri_host "HTTPS://API.TrustedServices.Intel.com:443/sgx" = Some "api.trustedservices.intel.com"%string ∧
  uri_host "[::1]:8081/x" = Some "::1"%string ∧ uri_host "https://" = None.
Proof. split_and!; vm_compute; reflexivity. Qed.

Example body_sizes :
  try_parse_body_size "2MB" = Some 2097152 ∧ try_parse_body_size " 512 kb " = Some 524288 ∧
  try_parse_body_size "1048576B" = Some 1048576 ∧ try_parse_body_size "+7" = Some 7 ∧
  try_parse_body_size "0" = None ∧ try_parse_body_size "lots" = None ∧
  try_parse_body_size "18014398509481984MB" = None.
Proof. split_and!; vm_compute; reflexivity. Qed.

End ConfigSample.
Import Concrete ConfigSample.

Lemma intel_upstream_host_witness :
  is_intel_upstream (apply_cli default_config no_args) = true ∧
  (url_wf tricky ∧ to_lower (u_host tricky) ≠ "trustedservices.intel.com"%string).
Proof.
  assert (Hw : url_wf {| u_scheme := "https"; u_user := None; u_host := "api.trustedservices.intel.com";
                         u_port := None; u_rest := "/sgx/certification/v4/" |}).
  { split_and!; [reflexivity|reflexivity|discriminate|discriminate|discriminate|reflexivity]. }
  split; [|split].
  - apply (intel_upstream_host (apply_cli default_config no_args) _ Hw); [reflexivity|].
    right. exists "api"%string. reflexivity.
  - split_and!; [reflexivity|reflexivity|discriminate|by intros i [= <-]|by intros p [= <-]|reflexivity].
  - discriminate.
Defined.

Lemma guards_fail_closed_witness :
  ∃ file, chosen_file (λ _, None) (λ _, false) no_toml no_args None file ∧ ∀ req : HttpIn string,
    (authorize (Config.settings started) User req = Ok () ↔
       opens None (t_user_token_hash file) false DEFAULT_USER_TOKEN_HASH (in_header req "user-token")) ∧
    (authorize (Config.settings started) Admin req = Ok () ↔
       opens None (t_admin_token_hash file) false DEFAULT_ADMIN_TOKEN_HASH (in_header req "admin-token")).
Proof. apply (guards_fail_closed (λ _, None) (λ _, false) no_toml no_args None started). reflexivity. Defined.

Lemma from_serve_args_wf_witness : config_wf started.
Proof. apply (from_serve_args_wf (λ _, None) (λ _, false) no_toml no_args None started). reflexivity. Defined.

Lemma import_json_overlays_witness :
  ∃ out, import_pccs_json template (Ok node_config) None = Ok out ∧
    (∀ k, k ∉ (json_items node_config).*1 → out !! k = template !! k) ∧
    toml_config (λ _, true) out =
      (if representable node_config then Some (overlay node_config template_toml) else None) ∧
    (∀ v, parse (fill_mode v) = parse v).
Proof.
  apply (import_json_overlays (λ _, true) template None template node_config template_toml); [reflexivity| |].
  - unfold json_typed, within, u16_max, u32_max, u64_max. cbn. split_and!; intros n; inversion 1; lia.
  - vm_compute. reflexivity.
Defined.
