(* ===== verification/Metrics.v ===== *)
(** * Metrics: counters, histograms and their exposition (src/src/metrics.rs)

    The registry is fixed storage indexed by small enumerations and by route
    templates: recording is a few atomic increments, each of which is a step
    of its own in the code and commutes with the others, so a record of the
    counters' values is its state.  An index out of range, which panics, is
    [None].  Durations are nanoseconds; printing a float is an interface. *)

From Stdlib Require Import ZArith Lia.
From stdpp Require Import base list strings option gmap.
From S2P Require Import Prelude Text.

Local Open Scope Z_scope.
#[local] Set Default Proof Using "Type*".

(** Printing [f64] values: [n as f64 / 1e9] and an [f64] given by its bits, by
    [Display]; [d.as_secs_f64() * 1000.0] with three decimals;
    [d.as_secs_f64().to_bits()] *)
Class FloatText := {
  seconds_text : Z → string;
  bits_text : Z → string;
  millis_text : Z → string;
  secs_bits : Z → Z
}.

(** ** Labels *)

Inductive Kind :=
| Pckcert | Pckcrl | SgxTcb | TdxTcb | QeIdentity | QveIdentity | TdqeIdentity
| Rootcacrl | Crl | AmdKds | NvidiaRim | NvidiaOcsp.
Inductive CacheResult := Hit | Miss | Expired | RecentFailure | RecentNon200 | LocalSelect.
Inductive Upstream := IntelPcs | IntelCerts | UpAmdKds | UpNvidiaRim | UpNvidiaOcsp | NvidiaNras | Pccs.
Inductive UpstreamStatus := S200 | S404 | S429 | S503 | Other4xx | Other5xx | Timeout | Error | Other.

#[export] Instance Kind_eq_dec : EqDecision Kind.
Proof. solve_decision. Defined.
#[export] Instance CacheResult_eq_dec : EqDecision CacheResult.
Proof. solve_decision. Defined.
#[export] Instance Upstream_eq_dec : EqDecision Upstream.
Proof. solve_decision. Defined.
#[export] Instance UpstreamStatus_eq_dec : EqDecision UpstreamStatus.
Proof. solve_decision. Defined.

(** What the macro [labels!] gives an enumeration: [ALL], [as_str] and the
    index of a variant, which is its place in [ALL]. *)
Class Labels (A : Type) := { ALL : list A; label : A → string; index : A → nat }.

#[export] Instance Kind_labels : Labels Kind := {|
  ALL := [Pckcert; Pckcrl; SgxTcb; TdxTcb; QeIdentity; QveIdentity; TdqeIdentity; Rootcacrl; Crl; AmdKds;
          NvidiaRim; NvidiaOcsp];
  label k := match k with
    | Pckcert => "pckcert" | Pckcrl => "pckcrl" | SgxTcb => "sgx_tcb" | TdxTcb => "tdx_tcb"
    | QeIdentity => "qe_identity" | QveIdentity => "qve_identity" | TdqeIdentity => "tdqe_identity"
    | Rootcacrl => "rootcacrl" | Crl => "crl" | AmdKds => "amd_kds"
    | NvidiaRim => "nvidia_rim" | NvidiaOcsp => "nvidia_ocsp"
    end%string;
  index k := match k with
    | Pckcert => 0 | Pckcrl => 1 | SgxTcb => 2 | TdxTcb => 3 | QeIdentity => 4 | QveIdentity => 5
    | TdqeIdentity => 6 | Rootcacrl => 7 | Crl => 8 | AmdKds => 9 | NvidiaRim => 10 | NvidiaOcsp => 11
    end%nat
|}.

#[export] Instance CacheResult_labels : Labels CacheResult := {|
  ALL := [Hit; Miss; Expired; RecentFailure; RecentNon200; LocalSelect];
  label r := match r with
    | Hit => "hit" | Miss => "miss" | Expired => "expired" | RecentFailure => "recent_failure"
    | RecentNon200 => "recent_non200" | LocalSelect => "local_select"
    end%string;
  index r := match r with
    | Hit => 0 | Miss => 1 | Expired => 2 | RecentFailure => 3 | RecentNon200 => 4 | LocalSelect => 5
    end%nat
|}.

#[export] Instance Upstream_labels : Labels Upstream := {|
  ALL := [IntelPcs; IntelCerts; UpAmdKds; UpNvidiaRim; UpNvidiaOcsp; NvidiaNras; Pccs];
  label u := match u with
    | IntelPcs => "intel_pcs" | IntelCerts => "intel_certs" | UpAmdKds => "amd_kds"
    | UpNvidiaRim => "nvidia_rim" | UpNvidiaOcsp => "nvidia_ocsp" | NvidiaNras => "nvidia_nras" | Pccs => "pccs"
    end%string;
  index u := match u with
    | IntelPcs => 0 | IntelCerts => 1 | UpAmdKds => 2 | UpNvidiaRim => 3 | UpNvidiaOcsp => 4
    | NvidiaNras => 5 | Pccs => 6
    end%nat
|}.

#[export] Instance UpstreamStatus_labels : Labels UpstreamStatus := {|
  ALL := [S200; S404; S429; S503; Other4xx; Other5xx; Timeout; Error; Other];
  label s := match s with
    | S200 => "200" | S404 => "404" | S429 => "429" | S503 => "503" | Other4xx => "other_4xx"
    | Other5xx => "other_5xx" | Timeout => "timeout" | Error => "error" | Other => "other"
    end%string;
  index s := match s with
    | S200 => 0 | S404 => 1 | S429 => 2 | S503 => 3 | Other4xx => 4 | Other5xx => 5 | Timeout => 6
    | Error => 7 | Other => 8
    end%nat
|}.

(** [UpstreamStatus::from_status] *)
Definition from_status (status : Z) : UpstreamStatus :=
  if status =? 200 then S200
  else if status =? 404 then S404
  else if status =? 429 then S429
  else if status =? 503 then S503
  else if (400 <=? status) && (status <=? 499) then Other4xx
  else if (500 <=? status) && (status <=? 599) then Other5xx
  else Other.

(** [tcb_kind], [identity_kind] (store.rs) *)
Definition tcb_kind (prod_type : Z) : Kind := if prod_type =? 1 then TdxTcb else SgxTcb.
Definition identity_kind (enclave_id : Z) : Kind :=
  if enclave_id =? 2 then QveIdentity else if enclave_id =? 3 then TdqeIdentity else QeIdentity.

Definition ROUTES : list string :=
  ["/sgx/certification/v3/platforms"; "/sgx/certification/v3/platformcollateral";
   "/sgx/certification/v3/refresh"; "/sgx/certification/v3/appraisalpolicy";
   "/sgx/certification/v3/pckcert"; "/sgx/certification/v3/pckcrl"; "/sgx/certification/v3/tcb";
   "/sgx/certification/v3/qe/identity"; "/sgx/certification/v3/qve/identity";
   "/sgx/certification/v3/rootcacrl"; "/sgx/certification/v3/crl";
   "/sgx/certification/v4/platforms"; "/sgx/certification/v4/platformcollateral";
   "/sgx/certification/v4/refresh"; "/sgx/certification/v4/appraisalpolicy";
   "/sgx/certification/v4/pckcert"; "/sgx/certification/v4/pckcrl"; "/sgx/certification/v4/tcb";
   "/sgx/certification/v4/qe/identity"; "/sgx/certification/v4/qve/identity";
   "/sgx/certification/v4/rootcacrl"; "/sgx/certification/v4/crl";
   "/tdx/certification/v4/tcb"; "/tdx/certification/v4/qe/identity";
   "/healthz/live"; "/healthz/ready"; "/healthz/startup"; "/vcek/{*rest}"; "/vlek/{*rest}";
   "/v1/rim/{*rest}"; "/ocsp"; "/nvidia/nras/attest/gpu"; "/metrics"; "unmatched"]%string.

Definition STATUS_CLASSES : list string := ["2xx"; "3xx"; "4xx"; "5xx"; "other"]%string.

Definition BUCKET_NANOS : list Z :=
  [50_000; 100_000; 250_000; 500_000; 1_000_000; 2_500_000; 5_000_000; 10_000_000; 50_000_000; 100_000_000;
   500_000_000; 1_000_000_000; 5_000_000_000; 30_000_000_000; 60_000_000_000].

Definition BUCKET_LABELS : list string :=
  ["0.00005"; "0.0001"; "0.00025"; "0.0005"; "0.001"; "0.0025"; "0.005"; "0.01"; "0.05"; "0.1"; "0.5"; "1";
   "5"; "30"; "60"; "+Inf"]%string.

(** [route_index]: the last place is for everything else. *)
Definition route_index (route : string) : nat :=
  match list_find (λ template, template = route) ROUTES with
  | Some (i, _) => i
  | None => length ROUTES - 1
  end.

(** ** Counters and histograms *)

(** [fetch_add(n)] of an [AtomicU64] *)
Definition fetch_add (counter n : Z) : Z := wrap 64 (counter + n).

(** [counters[i].fetch_add(1)] *)
Definition bump (counters : list Z) (i : nat) : option (list Z) :=
  n ← counters !! i; Some (<[i := fetch_add n 1]> counters).

Record Histogram := { buckets : list Z; sum_nanos : Z; count : Z }.
Definition empty_histogram : Histogram := {| buckets := replicate 16 0; sum_nanos := 0; count := 0 |}.

(** [partition_point]: the bounds are ascending, so it counts the leading
    bounds below the duration. *)
Fixpoint partition_point (p : Z → bool) (l : list Z) : nat :=
  match l with
  | b :: l' => if p b then S (partition_point p l') else O
  | [] => O
  end.

(** [Histogram::observe] *)
Definition observe (h : Histogram) (duration : Z) : option Histogram :=
  buckets' ← bump (buckets h) (partition_point (λ bound, bound <? duration) BUCKET_NANOS);
  Some {| buckets := buckets'; sum_nanos := fetch_add (sum_nanos h) (Z.min duration u64_max);
          count := fetch_add (count h) 1 |}.

(** [histograms[i].observe(duration)] *)
Definition observe_at (histograms : list Histogram) (i : nat) (duration : Z) : option (list Histogram) :=
  h ← histograms !! i; h' ← observe h duration; Some (<[i := h']> histograms).

(** ** Text *)

Definition quote : string := String (chr 34) EmptyString.
Definition newline : string := String (chr 10) EmptyString.

Fixpoint escape (value : string) : string :=
  match value with
  | EmptyString => EmptyString
  | String c s =>
      if Ascii.eqb c (chr 92) then String (chr 92) (String (chr 92) (escape s))
      else if Ascii.eqb c (chr 34) then String (chr 92) (String (chr 34) (escape s))
      else if Ascii.eqb c (chr 10) then String (chr 92) (String "n" (escape s))
      else String c (escape s)
  end.

Definition pair_text (kv : string * string) : string := (kv.1 ++ "=" ++ quote ++ escape kv.2 ++ quote)%string.

(** [render_labels], on the labels and the extra one together *)
Definition render_labels (labels : list (string * string)) : string :=
  match labels with
  | [] => EmptyString
  | _ => ("{" ++ str_join "," (map pair_text labels) ++ "}")%string
  end.

Definition sample (name : string) (labels : list (string * string)) (value : Z) : string :=
  (name ++ render_labels labels ++ " " ++ to_dec value ++ newline)%string.

Definition family (name ty help : string) : string :=
  ("# HELP " ++ name ++ " " ++ help ++ newline ++ "# TYPE " ++ name ++ " " ++ ty ++ newline)%string.

(** The cumulative counts of a histogram, saturating *)
Fixpoint cumulative (acc : Z) (l : list Z) : list Z :=
  match l with
  | b :: l' => sat_add acc b :: cumulative (sat_add acc b) l'
  | [] => []
  end.

(** [Timing] and its task-local; [None] outside an opted-in request.  A
    [Duration] saturates at 2^64 seconds less a nanosecond. *)
Record Timing := { tm_store : Z; tm_lock : Z; tm_upstream : Z; tm_cache : option CacheResult }.
Definition no_timing : Timing := {| tm_store := 0; tm_lock := 0; tm_upstream := 0; tm_cache := None |}.

Inductive TimingStage := StoreStage | LockStage | UpstreamStage.

Definition duration_max : Z := 2 ^ 64 * 1_000_000_000 - 1.
Definition dur_add (a b : Z) : Z := Z.min (a + b) duration_max.
Definition dur_sub (a b : Z) : Z := Z.max (a - b) 0.

Definition timing_add (stage : TimingStage) (duration : Z) (timing : option Timing) : option Timing :=
  t ← timing;
  Some match stage with
       | StoreStage => {| tm_store := dur_add (tm_store t) duration; tm_lock := tm_lock t;
                          tm_upstream := tm_upstream t; tm_cache := tm_cache t |}
       | LockStage => {| tm_store := tm_store t; tm_lock := dur_add (tm_lock t) duration;
                         tm_upstream := tm_upstream t; tm_cache := tm_cache t |}
       | UpstreamStage => {| tm_store := tm_store t; tm_lock := tm_lock t;
                             tm_upstream := dur_add (tm_upstream t) duration; tm_cache := tm_cache t |}
       end.

Definition timing_cache (result : CacheResult) (timing : option Timing) : option Timing :=
  t ← timing;
  Some {| tm_store := tm_store t; tm_lock := tm_lock t; tm_upstream := tm_upstream t; tm_cache := Some result |}.

(** ** The registry *)

Record Metrics := {
  process_start : Z;
  cache : list Z;
  store : list Histogram;
  singleflight : list Histogram;
  upstream : list Z;
  upstream_duration : list Histogram;
  throttled : list Z;
  permit : Histogram;
  inflight : Z;
  refresh_runs : list Z;
  refresh_items : list Z;
  refresh_last_success : Z;
  refresh_last_duration : Z;
  http : list Z;
  http_duration : list Histogram
}.

Definition n_kinds : nat := length (ALL : list Kind).
Definition n_results : nat := length (ALL : list CacheResult).
Definition n_upstreams : nat := length (ALL : list Upstream).
Definition n_statuses : nat := length (ALL : list UpstreamStatus).

(** [Metrics::default] *)
Definition new_metrics (now_secs : Z) : Metrics := {|
  process_start := now_secs;
  cache := replicate (n_kinds * n_results) 0;
  store := replicate n_kinds empty_histogram;
  singleflight := replicate n_kinds empty_histogram;
  upstream := replicate (n_upstreams * n_statuses) 0;
  upstream_duration := replicate n_upstreams empty_histogram;
  throttled := replicate n_upstreams 0;
  permit := empty_histogram;
  inflight := 0;
  refresh_runs := replicate 2 0;
  refresh_items := replicate (n_kinds * 2) 0;
  refresh_last_success := 0;
  refresh_last_duration := 0;
  http := replicate (length ROUTES * length STATUS_CLASSES) 0;
  http_duration := replicate (length ROUTES) empty_histogram
|}.

Section fields.
Context (m : Metrics).

Definition with_cache l := {| process_start := process_start m; cache := l; store := store m;
  singleflight := singleflight m; upstream := upstream m; upstream_duration := upstream_duration m;
  throttled := throttled m; permit := permit m; inflight := inflight m; refresh_runs := refresh_runs m;
  refresh_items := refresh_items m; refresh_last_success := refresh_last_success m;
  refresh_last_duration := refresh_last_duration m; http := http m; http_duration := http_duration m |}.
Definition with_store l := {| process_start := process_start m; cache := cache m; store := l;
  singleflight := singleflight m; upstream := upstream m; upstream_duration := upstream_duration m;
  throttled := throttled m; permit := permit m; inflight := inflight m; refresh_runs := refresh_runs m;
  refresh_items := refresh_items m; refresh_last_success := refresh_last_success m;
  refresh_last_duration := refresh_last_duration m; http := http m; http_duration := http_duration m |}.
Definition with_singleflight l := {| process_start := process_start m; cache := cache m; store := store m;
  singleflight := l; upstream := upstream m; upstream_duration := upstream_duration m;
  throttled := throttled m; permit := permit m; inflight := inflight m; refresh_runs := refresh_runs m;
  refresh_items := refresh_items m; refresh_last_success := refresh_last_success m;
  refresh_last_duration := refresh_last_duration m; http := http m; http_duration := http_duration m |}.
Definition with_upstream l d := {| process_start := process_start m; cache := cache m; store := store m;
  singleflight := singleflight m; upstream := l; upstream_duration := d;
  throttled := throttled m; permit := permit m; inflight := inflight m; refresh_runs := refresh_runs m;
  refresh_items := refresh_items m; refresh_last_success := refresh_last_success m;
  refresh_last_duration := refresh_last_duration m; http := http m; http_duration := http_duration m |}.
Definition with_throttled l := {| process_start := process_start m; cache := cache m; store := store m;
  singleflight := singleflight m; upstream := upstream m; upstream_duration := upstream_duration m;
  throttled := l; permit := permit m; inflight := inflight m; refresh_runs := refresh_runs m;
  refresh_items := refresh_items m; refresh_last_success := refresh_last_success m;
  refresh_last_duration := refresh_last_duration m; http := http m; http_duration := http_duration m |}.
Definition with_permit h := {| process_start := process_start m; cache := cache m; store := store m;
  singleflight := singleflight m; upstream := upstream m; upstream_duration := upstream_duration m;
  throttled := throttled m; permit := h; inflight := inflight m; refresh_runs := refresh_runs m;
  refresh_items := refresh_items m; refresh_last_success := refresh_last_success m;
  refresh_last_duration := refresh_last_duration m; http := http m; http_duration := http_duration m |}.
Definition with_inflight n := {| process_start := process_start m; cache := cache m; store := store m;
  singleflight := singleflight m; upstream := upstream m; upstream_duration := upstream_duration m;
  throttled := throttled m; permit := permit m; inflight := n; refresh_runs := refresh_runs m;
  refresh_items := refresh_items m; refresh_last_success := refresh_last_success m;
  refresh_last_duration := refresh_last_duration m; http := http m; http_duration := http_duration m |}.
Definition with_refresh_run l ok dur := {| process_start := process_start m; cache := cache m; store := store m;
  singleflight := singleflight m; upstream := upstream m; upstream_duration := upstream_duration m;
  throttled := throttled m; permit := permit m; inflight := inflight m; refresh_runs := l;
  refresh_items := refresh_items m; refresh_last_success := ok;
  refresh_last_duration := dur; http := http m; http_duration := http_duration m |}.
Definition with_refresh_items l := {| process_start := process_start m; cache := cache m; store := store m;
  singleflight := singleflight m; upstream := upstream m; upstream_duration := upstream_duration m;
  throttled := throttled m; permit := permit m; inflight := inflight m; refresh_runs := refresh_runs m;
  refresh_items := l; refresh_last_success := refresh_last_success m;
  refresh_last_duration := refresh_last_duration m; http := http m; http_duration := http_duration m |}.
Definition with_http l d := {| process_start := process_start m; cache := cache m; store := store m;
  singleflight := singleflight m; upstream := upstream m; upstream_duration := upstream_duration m;
  throttled := throttled m; permit := permit m; inflight := inflight m; refresh_runs := refresh_runs m;
  refresh_items := refresh_items m; refresh_last_success := refresh_last_success m;
  refresh_last_duration := refresh_last_duration m; http := l; http_duration := d |}.
End fields.

(** ** Recording

    Each method with the request's timing, which some of them also add to;
    [None] where an index would be out of range. *)

Abbreviation Recorder := (Metrics → option Timing → option (Metrics * option Timing)).

Definition cache_lookup (kind : Kind) (result : CacheResult) : Recorder := λ m tm,
  c ← bump (cache m) (index kind * n_results + index result);
  Some (with_cache m c, timing_cache result tm).

Definition store_read (kind : Kind) (duration : Z) : Recorder := λ m tm,
  h ← observe_at (store m) (index kind) duration;
  Some (with_store m h, timing_add StoreStage duration tm).

Definition singleflight_wait (kind : Kind) (duration : Z) : Recorder := λ m tm,
  h ← observe_at (singleflight m) (index kind) duration;
  Some (with_singleflight m h, timing_add LockStage duration tm).

Definition upstream_attempt (up : Upstream) (status : UpstreamStatus) (duration : Z) : Recorder := λ m tm,
  c ← bump (upstream m) (index up * n_statuses + index status);
  h ← observe_at (upstream_duration m) (index up) duration;
  Some (with_upstream m c h, timing_add UpstreamStage duration tm).

Definition upstream_throttled (up : Upstream) : Recorder := λ m tm,
  c ← bump (throttled m) (index up); Some (with_throttled m c, tm).

Definition permit_wait (duration : Z) : Recorder := λ m tm,
  h ← observe (permit m) duration; Some (with_permit m h, timing_add UpstreamStage duration tm).

Definition inflight_add : Recorder := λ m tm, Some (with_inflight m (fetch_add (inflight m) 1), tm).
Definition inflight_sub : Recorder := λ m tm, Some (with_inflight m (sat_sub (inflight m) 1), tm).

Definition of_bool (b : bool) : nat := if b then 1 else 0.

Definition refresh_run `{FloatText} (now_secs : Z) (success : bool) (duration : Z) : Recorder := λ m tm,
  c ← bump (refresh_runs m) (of_bool success);
  Some (with_refresh_run m c (if success then now_secs else refresh_last_success m) (secs_bits duration), tm).

Definition refresh_item (kind : Kind) (success : bool) : Recorder := λ m tm,
  c ← bump (refresh_items m) (index kind * 2 + of_bool success); Some (with_refresh_items m c, tm).

Definition status_class (status : Z) : nat :=
  if (200 <=? status) && (status <=? 299) then 0
  else if (300 <=? status) && (status <=? 399) then 1
  else if (400 <=? status) && (status <=? 499) then 2
  else if (500 <=? status) && (status <=? 599) then 3
  else 4.

Definition http_request (route : string) (status duration : Z) : Recorder := λ m tm,
  let route := route_index route in
  c ← bump (http m) (route * length STATUS_CLASSES + status_class status);
  h ← observe_at (http_duration m) route duration;
  Some (with_http m c h, tm).

(** ** Exposition *)

Section render.
Context `{FloatText}.

(** [Histogram::render] *)
Definition render_histogram (name : string) (labels : list (string * string)) (h : Histogram) : list string :=
  if count h =? 0 then []
  else
    let cumulated := cumulative 0 (buckets h) in
    zip_with (λ n le, sample (name ++ "_bucket") (labels ++ [("le", le)]) n)%string cumulated BUCKET_LABELS
    ++ [(name ++ "_sum" ++ render_labels labels ++ " " ++ seconds_text (sum_nanos h) ++ newline)%string;
        sample (name ++ "_count") labels (default 0 (last cumulated))].

Definition CARGO_PKG_VERSION : string := "0.4.5".

Definition at_ {A} (zero : A) (l : list A) (i : nat) : A := default zero (l !! i).

(** The pairs of an enumeration with the value it indexes *)
Definition each {A B} `{Labels A} (f : A → list B) : list B := flat_map f ALL.

Definition success_labels : list (nat * string) := [(0%nat, "error"); (1%nat, "success")]%string.

Definition render_cache (m : Metrics) : list string :=
  family "pccs_cache_lookups_total" "counter" "Cache lookup outcomes: hit, miss and expired are mutually exclusive; hit rate is hit/(hit+miss+expired). recent_failure, recent_non200 and local_select are follow-up events after miss, excluded from that denominator."
  :: each (λ kind : Kind, each (λ result : CacheResult,
       [sample "pccs_cache_lookups_total" [("kind", label kind); ("result", label result)]%string
          (at_ 0 (cache m) (index kind * n_results + index result))])).

Definition render_by_kind (name help : string) (l : list Histogram) : list string :=
  family name "histogram" help
  :: each (λ kind : Kind, render_histogram name [("kind", label kind)]%string (at_ empty_histogram l (index kind))).

Definition render_upstream (m : Metrics) : list string :=
  (family "pccs_upstream_requests_total" "counter" "Upstream attempt outcomes."
   :: each (λ up : Upstream, each (λ status : UpstreamStatus,
        [sample "pccs_upstream_requests_total" [("upstream", label up); ("status", label status)]%string
           (at_ 0 (upstream m) (index up * n_statuses + index status))])))
  ++ (family "pccs_upstream_attempt_duration_seconds" "histogram" "Upstream attempt latency in seconds."
   :: each (λ up : Upstream,
        render_histogram "pccs_upstream_attempt_duration_seconds" [("upstream", label up)]%string
          (at_ empty_histogram (upstream_duration m) (index up))))
  ++ (family "pccs_upstream_throttled_total" "counter" "Retries after upstream 429 or 503 responses."
   :: each (λ up : Upstream,
        [sample "pccs_upstream_throttled_total" [("upstream", label up)]%string (at_ 0 (throttled m) (index up))]))
  ++ (family "pccs_upstream_permit_wait_seconds" "histogram" "Upstream semaphore wait in seconds."
   :: render_histogram "pccs_upstream_permit_wait_seconds" [] (permit m))
  ++ [family "pccs_upstream_inflight" "gauge" "Currently active upstream attempts.";
      sample "pccs_upstream_inflight" [] (inflight m)].

Definition render_refresh (m : Metrics) : list string :=
  (family "pccs_refresh_runs_total" "counter" "Completed refresh runs."
   :: map (λ '(i, result), sample "pccs_refresh_runs_total" [("result", result)]%string (at_ 0 (refresh_runs m) i))
        success_labels)
  ++ (family "pccs_refresh_items_total" "counter" "Refresh item outcomes."
   :: each (λ kind : Kind, map (λ '(i, result),
        sample "pccs_refresh_items_total" [("kind", label kind); ("result", result)]%string
          (at_ 0 (refresh_items m) (index kind * 2 + i))) success_labels))
  ++ [family "pccs_refresh_last_success_timestamp_seconds" "gauge" "Unix timestamp of the last successful refresh.";
      sample "pccs_refresh_last_success_timestamp_seconds" [] (refresh_last_success m);
      family "pccs_refresh_last_duration_seconds" "gauge" "Duration of the last completed refresh in seconds.";
      ("pccs_refresh_last_duration_seconds " ++ bits_text (refresh_last_duration m) ++ newline)%string].

Definition render_http (m : Metrics) : list string :=
  (family "pccs_http_requests_total" "counter" "HTTP responses by bounded route and status class."
   :: mjoin (imap (λ route template, imap (λ class name,
        sample "pccs_http_requests_total" [("route", template); ("status_class", name)]%string
          (at_ 0 (http m) (route * length STATUS_CLASSES + class))) STATUS_CLASSES) ROUTES))
  ++ (family "pccs_http_request_duration_seconds" "histogram" "HTTP handler latency in seconds."
   :: mjoin (imap (λ route template,
        render_histogram "pccs_http_request_duration_seconds" [("route", template)]%string
          (at_ empty_histogram (http_duration m) route)) ROUTES)).

(** [Metrics::render], by what each step writes *)
Definition render_parts (m : Metrics) : list string :=
  [family "process_start_time_seconds" "gauge" "Unix timestamp when this metrics registry started.";
   sample "process_start_time_seconds" [] (process_start m);
   family "pccs_build_info" "gauge" "Build version information.";
   sample "pccs_build_info" [("version", CARGO_PKG_VERSION)]%string 1]
  ++ render_cache m
  ++ render_by_kind "pccs_store_read_duration_seconds" "RocksDB get latency in seconds, excluding deserialization (counted in Server-Timing app)." (store m)
  ++ render_by_kind "pccs_cache_singleflight_wait_seconds" "Singleflight lock wait in seconds." (singleflight m)
  ++ render_upstream m ++ render_refresh m ++ render_http m.

Definition render (m : Metrics) : string := str_join EmptyString (render_parts m).

(** ** The request middleware *)

(** The value of the Server-Timing header *)
Definition server_timing (t : Timing) (elapsed : Z) : string :=
  let app := dur_sub elapsed (dur_add (dur_add (tm_store t) (tm_lock t)) (tm_upstream t)) in
  ("cache;desc=" ++ match tm_cache t with Some r => label r | None => "none" end
   ++ ", store;dur=" ++ millis_text (tm_store t) ++ ", lock;dur=" ++ millis_text (tm_lock t)
   ++ ", upstream;dur=" ++ millis_text (tm_upstream t) ++ ", app;dur=" ++ millis_text app)%string.

(** [http_middleware] around a request of the given matched path: [next]
    records and answers; [header_ok] is [HeaderValue::from_str], [set] and
    [status] the response's header insertion and status; the time since the
    start is read for the header and again at the end. *)
Definition http_middleware {R} (header_ok : string → bool) (set : string → string → R → R) (status : R → Z)
    (matched : option string) (timing : bool) (elapsed finished : Z)
    (next : Metrics → option Timing → option (R * (Metrics * option Timing))) (m : Metrics) : option (R * Metrics) :=
  let route := match matched with Some path => route_index path | None => (length ROUTES - 1)%nat end in
  '(response, (m, tm)) ← next m (if timing then Some no_timing else None);
  let response :=
    match tm with
    | Some t =>
        let value := server_timing t elapsed in
        if timing && header_ok value then set "server-timing"%string value response else response
    | None => response
    end in
  template ← ROUTES !! route;
  '(m, _) ← http_request template (status response) finished m None;
  Some (response, m).
End render.
