(* ===== verification/MetricsSpec.v ===== *)
(** * MetricsSpec: what a scrape shows is what was recorded

    The registry refines the multiset of recorded events: every counter sample
    of the exposition is the number of its events, every histogram the counts
    of the durations within its bounds, in whatever order and by whatever
    request they were recorded.  Every routed path has a label of its own. *)

From Stdlib Require Import ZArith Lia.
From stdpp Require Import base list strings option gmap.
From S2P Require Import Prelude Text Errors Validate Env PckCert Selection Database Urls Prog Cache Pcs Routes Metrics.

Local Open Scope Z_scope.
#[local] Set Default Proof Using "Type*".

(** ** Events *)

Inductive Event :=
| EvLookup (k : Kind) (r : CacheResult)
| EvStore (k : Kind) (d : Z)
| EvWait (k : Kind) (d : Z)
| EvAttempt (u : Upstream) (s : UpstreamStatus) (d : Z)
| EvThrottled (u : Upstream)
| EvPermit (d : Z)
| EvInflight (enter : bool)
| EvRun (now : Z) (success : bool) (d : Z)
| EvItem (k : Kind) (success : bool)
| EvHttp (route : string) (status d : Z).

Section events.
Context `{FloatText}.

Definition record (e : Event) : Recorder :=
  match e with
  | EvLookup k r => cache_lookup k r
  | EvStore k d => store_read k d
  | EvWait k d => singleflight_wait k d
  | EvAttempt u s d => upstream_attempt u s d
  | EvThrottled u => upstream_throttled u
  | EvPermit d => permit_wait d
  | EvInflight true => inflight_add
  | EvInflight false => inflight_sub
  | EvRun now ok d => refresh_run now ok d
  | EvItem k ok => refresh_item k ok
  | EvHttp route status d => http_request route status d
  end.

(** Events of any requests, in the order they happen; each with the timing of
    its own request *)
Fixpoint record_all (evs : list (Event * option Timing)) (m : Metrics) : option Metrics :=
  match evs with
  | [] => Some m
  | (e, tm) :: evs => '(m, _) ← record e m tm; record_all evs m
  end.

(** The label a route is recorded under *)
Definition route_label (route : string) : string :=
  if bool_decide (route ∈ ROUTES) then route else "unmatched"%string.

Definition class_label (status : Z) : string :=
  if (200 <=? status) && (status <? 300) then "2xx"
  else if (300 <=? status) && (status <? 400) then "3xx"
  else if (400 <=? status) && (status <? 500) then "4xx"
  else if (500 <=? status) && (status <? 600) then "5xx"
  else "other"%string.

(** *** Counter series *)
Inductive Series :=
| Lookups (k : Kind) (r : CacheResult)
| Attempts (u : Upstream) (s : UpstreamStatus)
| Throttled (u : Upstream)
| Runs (success : bool)
| Items (k : Kind) (success : bool)
| Requests (template class : string).

#[export] Instance Series_eq_dec : EqDecision Series.
Proof. solve_decision. Defined.

Definition well_named (s : Series) : Prop :=
  match s with Requests template class => template ∈ ROUTES ∧ class ∈ STATUS_CLASSES | _ => True end.

Definition success_label (b : bool) : string := if b then "success" else "error".

(** The sample line of a series *)
Definition line (s : Series) (n : Z) : string :=
  match s with
  | Lookups k r => sample "pccs_cache_lookups_total" [("kind", label k); ("result", label r)] n
  | Attempts u st => sample "pccs_upstream_requests_total" [("upstream", label u); ("status", label st)] n
  | Throttled u => sample "pccs_upstream_throttled_total" [("upstream", label u)] n
  | Runs b => sample "pccs_refresh_runs_total" [("result", success_label b)] n
  | Items k b => sample "pccs_refresh_items_total" [("kind", label k); ("result", success_label b)] n
  | Requests t c => sample "pccs_http_requests_total" [("route", t); ("status_class", c)] n
  end%string.

(** The series that counts an event *)
Definition series_of (e : Event) : option Series :=
  match e with
  | EvLookup k r => Some (Lookups k r)
  | EvAttempt u st _ => Some (Attempts u st)
  | EvThrottled u => Some (Throttled u)
  | EvRun _ b _ => Some (Runs b)
  | EvItem k b => Some (Items k b)
  | EvHttp route status _ => Some (Requests (route_label route) (class_label status))
  | EvStore _ _ | EvWait _ _ | EvPermit _ | EvInflight _ => None
  end.
Definition counts (s : Series) (e : Event) : bool := bool_decide (series_of e = Some s).

Definition total (s : Series) (evs : list (Event * option Timing)) : Z :=
  Z.of_nat (length (List.filter (λ e, counts s e.1) evs)).

(** *** Histogram series *)
Inductive HSeries :=
| StoreReads (k : Kind)
| Waits (k : Kind)
| AttemptTimes (u : Upstream)
| PermitWaits
| RequestTimes (template : string).

#[export] Instance HSeries_eq_dec : EqDecision HSeries.
Proof. solve_decision. Defined.

Definition h_well_named (s : HSeries) : Prop :=
  match s with RequestTimes template => template ∈ ROUTES | _ => True end.

(** The series that observes an event, and the duration *)
Definition timed_by (e : Event) : option (HSeries * Z) :=
  match e with
  | EvStore k d => Some (StoreReads k, d)
  | EvWait k d => Some (Waits k, d)
  | EvAttempt u _ d => Some (AttemptTimes u, d)
  | EvPermit d => Some (PermitWaits, d)
  | EvHttp route _ d => Some (RequestTimes (route_label route), d)
  | EvLookup _ _ | EvThrottled _ | EvInflight _ | EvRun _ _ _ | EvItem _ _ => None
  end.
Definition observed (s : HSeries) (e : Event) : option Z :=
  '(s', d) ← timed_by e; if bool_decide (s = s') then Some d else None.

Definition durations (s : HSeries) (evs : list (Event * option Timing)) : list Z :=
  omap (λ e, observed s e.1) evs.

Definition h_name (s : HSeries) : string :=
  match s with
  | StoreReads _ => "pccs_store_read_duration_seconds"
  | Waits _ => "pccs_cache_singleflight_wait_seconds"
  | AttemptTimes _ => "pccs_upstream_attempt_duration_seconds"
  | PermitWaits => "pccs_upstream_permit_wait_seconds"
  | RequestTimes _ => "pccs_http_request_duration_seconds"
  end.
Definition h_labels (s : HSeries) : list (string * string) :=
  match s with
  | StoreReads k | Waits k => [("kind", label k)]
  | AttemptTimes u => [("upstream", label u)]
  | PermitWaits => []
  | RequestTimes t => [("route", t)]
  end%string.

(** The exposition of a list of durations *)
Definition at_most (bound : Z) (ds : list Z) : Z := Z.of_nat (length (List.filter (λ d, d <=? bound) ds)).

Definition h_lines (s : HSeries) (ds : list Z) : list string :=
  zip_with (λ bound le, sample (h_name s ++ "_bucket") (h_labels s ++ [("le", le)]) (at_most bound ds))%string
    BUCKET_NANOS BUCKET_LABELS
  ++ [sample (h_name s ++ "_bucket") (h_labels s ++ [("le", "+Inf")]) (Z.of_nat (length ds));
      (h_name s ++ "_sum" ++ render_labels (h_labels s) ++ " "
        ++ seconds_text (wrap 64 (foldr (λ d acc, Z.min d u64_max + acc) 0 ds)) ++ newline);
      sample (h_name s ++ "_count") (h_labels s) (Z.of_nat (length ds))]%string.
End events.

(** ** Indices *)

(** An enumeration's index is its place in [ALL]. *)
Class LabelsLaws (A : Type) `{Labels A} := all_index : ∀ a : A, ALL !! index a = Some a.

#[export] Instance Kind_laws : LabelsLaws Kind.
Proof. by intros []. Qed.
#[export] Instance CacheResult_laws : LabelsLaws CacheResult.
Proof. by intros []. Qed.
#[export] Instance Upstream_laws : LabelsLaws Upstream.
Proof. by intros []. Qed.
#[export] Instance UpstreamStatus_laws : LabelsLaws UpstreamStatus.
Proof. by intros []. Qed.

Section labels.
Context {A} `{LabelsLaws A}.

Lemma index_inj (a b : A) : index a = index b → a = b.
Proof. intros E. pose proof (all_index a) as Ha. rewrite E, all_index in Ha. congruence. Qed.

Lemma index_lt (a : A) : (index a < length ALL)%nat.
Proof. apply lookup_lt_is_Some. rewrite all_index. eauto. Qed.

Lemma elem_of_each {B} (f : A → list B) a x : x ∈ f a → x ∈ each f.
Proof.
  intros Hx. apply list_elem_of_In, in_flat_map. exists a. split; apply list_elem_of_In; [|done].
  eapply list_elem_of_lookup_2, all_index.
Qed.
End labels.

(** Row-major indices *)
Lemma row_major_inj n a b a' b' :
  (b < n)%nat → (b' < n)%nat → (a * n + b = a' * n + b')%nat → a = a' ∧ b = b'.
Proof. intros Hb Hb' E. assert (a = a') by nia. subst. lia. Qed.

Lemma row_major_lt n rows a b : (a < rows)%nat → (b < n)%nat → (a * n + b < rows * n)%nat.
Proof. nia. Qed.

Lemma lookup_nodup_list_find (l : list string) i x :
  NoDup l → l !! i = Some x → list_find (λ y, y = x) l = Some (i, x).
Proof.
  intros Hn Hi. apply list_find_Some. split_and!; [done|done|].
  intros j y Hj Hlt ->. assert (i = j) by (by eapply NoDup_lookup). lia.
Qed.

Lemma ROUTES_nodup : NoDup ROUTES.
Proof. apply (bool_decide_unpack (NoDup ROUTES)). vm_compute. exact I. Qed.

Lemma route_index_spec route : ROUTES !! route_index route = Some (route_label route).
Proof.
  unfold route_index, route_label. destruct (list_find (λ t, t = route) ROUTES) as [[i t]|] eqn:E.
  - apply list_find_Some in E as (Hi & -> & _). rewrite bool_decide_true; [done|]. by eapply list_elem_of_lookup_2.
  - apply list_find_None in E. rewrite bool_decide_false; [done|].
    intros Hin. rewrite Forall_forall in E. by apply (E route).
Qed.

Lemma route_index_lt route : (route_index route < length ROUTES)%nat.
Proof. apply lookup_lt_is_Some. rewrite route_index_spec. eauto. Qed.

Lemma route_index_eq template route :
  template ∈ ROUTES → route_index template = route_index route ↔ template = route_label route.
Proof.
  intros Ht. assert (Hl : route_label template = template) by (unfold route_label; by rewrite bool_decide_true).
  split; intros E.
  - pose proof (route_index_spec template) as H1. rewrite E, route_index_spec, Hl in H1. congruence.
  - eapply NoDup_lookup; [apply ROUTES_nodup| |apply route_index_spec].
    rewrite <- E, <- Hl at 1. rewrite Hl. rewrite <- Hl at 2. apply route_index_spec.
Qed.

Definition class_index (class : string) : nat :=
  match list_find (λ c, c = class) STATUS_CLASSES with Some (i, _) => i | None => 0 end.

Lemma status_class_spec status : status_class status = class_index (class_label status).
Proof.
  unfold status_class, class_label.
  replace (status <=? 299) with (status <? 300) by (destruct (Z.leb_spec status 299), (Z.ltb_spec status 300); lia).
  replace (status <=? 399) with (status <? 400) by (destruct (Z.leb_spec status 399), (Z.ltb_spec status 400); lia).
  replace (status <=? 499) with (status <? 500) by (destruct (Z.leb_spec status 499), (Z.ltb_spec status 500); lia).
  replace (status <=? 599) with (status <? 600) by (destruct (Z.leb_spec status 599), (Z.ltb_spec status 600); lia).
  by repeat (destruct (_ && _)).
Qed.

Lemma class_label_in status : class_label status ∈ STATUS_CLASSES.
Proof. unfold class_label, STATUS_CLASSES. repeat (destruct (_ && _)); set_solver. Qed.

Lemma class_index_lookup class : class ∈ STATUS_CLASSES → STATUS_CLASSES !! class_index class = Some class.
Proof.
  unfold class_index, STATUS_CLASSES. rewrite !elem_of_cons, elem_of_nil.
  by intros [->|[->|[->|[->|[->|[]]]]]].
Qed.

Lemma class_index_inj c c' :
  c ∈ STATUS_CLASSES → c' ∈ STATUS_CLASSES → class_index c = class_index c' → c = c'.
Proof. intros H1%class_index_lookup H2%class_index_lookup E. rewrite E in H1. congruence. Qed.

Lemma class_index_lt c : c ∈ STATUS_CLASSES → (class_index c < length STATUS_CLASSES)%nat.
Proof. intros Hc%class_index_lookup. by eapply lookup_lt_Some. Qed.

(** ** The simulation *)

Section simulation.
Context `{FloatText}.

Definition counters (s : Series) (m : Metrics) : list Z :=
  match s with
  | Lookups _ _ => Metrics.cache m
  | Attempts _ _ => Metrics.upstream m
  | Throttled _ => throttled m
  | Runs _ => refresh_runs m
  | Items _ _ => refresh_items m
  | Requests _ _ => http m
  end.

Definition slot (s : Series) : nat :=
  match s with
  | Lookups k r => index k * n_results + index r
  | Attempts u st => index u * n_statuses + index st
  | Throttled u => index u
  | Runs b => of_bool b
  | Items k b => index k * 2 + of_bool b
  | Requests t c => route_index t * length STATUS_CLASSES + class_index c
  end.

Definition histograms (s : HSeries) (m : Metrics) : list Histogram :=
  match s with
  | StoreReads _ => Metrics.store m
  | Waits _ => singleflight m
  | AttemptTimes _ => upstream_duration m
  | PermitWaits => [permit m]
  | RequestTimes _ => http_duration m
  end.

Definition h_slot (s : HSeries) : nat :=
  match s with
  | StoreReads k | Waits k => index k
  | AttemptTimes u => index u
  | PermitWaits => 0
  | RequestTimes t => route_index t
  end.

(** The bucket of a duration *)
Definition bucket_of (d : Z) : nat := partition_point (λ bound, bound <? d) BUCKET_NANOS.

Definition in_bucket (i : nat) (ds : list Z) : Z :=
  Z.of_nat (length (List.filter (λ d, bool_decide (bucket_of d = i)) ds)).

Definition summarises (h : Histogram) (ds : list Z) : Prop :=
  length (buckets h) = 16%nat ∧
  (∀ i, (i < 16)%nat → buckets h !! i = Some (wrap 64 (in_bucket i ds))) ∧
  sum_nanos h = wrap 64 (foldr (λ d acc, Z.min d u64_max + acc) 0 ds) ∧
  count h = wrap 64 (Z.of_nat (length ds)).

Record refines (evs : list (Event * option Timing)) (m : Metrics) : Prop := {
  refines_counters s : well_named s → counters s m !! slot s = Some (wrap 64 (total s evs));
  refines_histograms h : h_well_named h → ∃ hist, histograms h m !! h_slot h = Some hist ∧ summarises hist (durations h evs)
}.

Lemma wrap_add_l w a b : wrap w (wrap w a + b) = wrap w (a + b).
Proof. unfold wrap. by rewrite Zplus_mod_idemp_l. Qed.

Lemma bump_spec l i n :
  l !! i = Some n → bump l i = Some (<[i := fetch_add n 1]> l).
Proof. intros Hi. unfold bump. by rewrite Hi. Qed.

Lemma bucket_of_lt d : (bucket_of d < 16)%nat.
Proof. unfold bucket_of, BUCKET_NANOS. cbn [partition_point]. repeat (destruct (_ <? d)); lia. Qed.

Lemma in_bucket_snoc i ds d :
  in_bucket i (ds ++ [d]) = in_bucket i ds + if decide (bucket_of d = i) then 1 else 0.
Proof.
  unfold in_bucket. rewrite List.filter_app, length_app. cbn. case_decide as E.
  - rewrite bool_decide_true by done. cbn. lia.
  - rewrite bool_decide_false by done. cbn. lia.
Qed.

Lemma sum_snoc ds d :
  foldr (λ d acc, Z.min d u64_max + acc) 0 (ds ++ [d]) =
  foldr (λ d acc, Z.min d u64_max + acc) 0 ds + Z.min d u64_max.
Proof. induction ds as [|e ds IH]; simpl in *; lia. Qed.

Lemma observe_summarises h ds d :
  summarises h ds → ∃ h', observe h d = Some h' ∧ summarises h' (ds ++ [d]).
Proof.
  intros (Hl & Hb & Hs & Hc). unfold observe. fold (bucket_of d).
  pose proof (bucket_of_lt d) as Hd. rewrite (bump_spec _ _ _ (Hb _ Hd)). eexists. split; [reflexivity|].
  unfold summarises. cbn [buckets sum_nanos count]. split_and!.
  - by rewrite length_insert.
  - intros i Hi. rewrite in_bucket_snoc. case_decide as E.
    + subst i. rewrite list_lookup_insert_eq by (rewrite Hl; done). unfold fetch_add. by rewrite wrap_add_l.
    + rewrite list_lookup_insert_ne by done. rewrite Hb by done. by rewrite Z.add_0_r.
  - rewrite Hs, sum_snoc. unfold fetch_add. by rewrite wrap_add_l.
  - rewrite Hc, length_app. unfold fetch_add. rewrite wrap_add_l. cbn [length]. f_equal. lia.
Qed.

Lemma empty_summarises : summarises empty_histogram [].
Proof.
  split_and!; [done| |done|done]. intros i Hi. unfold empty_histogram, in_bucket. cbn -[replicate wrap].
  by rewrite lookup_replicate_2.
Qed.

Lemma new_refines now : refines [] (new_metrics now).
Proof.
  split.
  - intros s Hs. unfold total. cbn [List.filter length]. change (wrap 64 (Z.of_nat 0)) with 0.
    destruct s as [k r|u st|u|b|k b|t c]; apply lookup_replicate_2; cbn [slot].
    + apply row_major_lt; apply index_lt.
    + apply row_major_lt; apply index_lt.
    + apply index_lt.
    + destruct b; cbn; lia.
    + apply row_major_lt; [apply index_lt|destruct b; cbn; lia].
    + destruct Hs as [_ Hc]. apply row_major_lt; [apply route_index_lt|by apply class_index_lt].
  - intros h Hh. exists empty_histogram. split; [|apply empty_summarises].
    destruct h as [k|k|u| |t]; [..|done|]; try (apply lookup_replicate_2, index_lt).
    apply lookup_replicate_2, route_index_lt.
Qed.

Lemma total_snoc s evs e tm : total s (evs ++ [(e, tm)]) = total s evs + if counts s e then 1 else 0.
Proof.
  unfold total. rewrite List.filter_app, length_app. cbn [List.filter fst]. destruct (counts s e); cbn [length]; lia.
Qed.

Lemma durations_snoc h evs e tm :
  durations h (evs ++ [(e, tm)]) = durations h evs ++ match observed h e with Some d => [d] | None => [] end.
Proof. unfold durations. rewrite omap_app. cbn. by destruct (observed h e). Qed.

Lemma label_in route : route_label route ∈ ROUTES.
Proof. eapply list_elem_of_lookup_2, route_index_spec. Qed.

Lemma route_index_label route : route_index (route_label route) = route_index route.
Proof. by apply route_index_eq; [apply label_in|]. Qed.

Lemma route_index_inj t t' : t ∈ ROUTES → t' ∈ ROUTES → route_index t = route_index t' → t = t'.
Proof. intros Ht Ht' E%route_index_eq; [|done]. rewrite E. unfold route_label. by rewrite bool_decide_true. Qed.

Lemma of_bool_inj a b : of_bool a = of_bool b → a = b.
Proof. by destruct a, b. Qed.

(** Two series of one family have different slots. *)
Definition family_of (s : Series) : nat :=
  match s with
  | Lookups _ _ => 0 | Attempts _ _ => 1 | Throttled _ => 2 | Runs _ => 3 | Items _ _ => 4 | Requests _ _ => 5
  end.
Definition h_family_of (s : HSeries) : nat :=
  match s with StoreReads _ => 0 | Waits _ => 1 | AttemptTimes _ => 2 | PermitWaits => 3 | RequestTimes _ => 4 end.

Lemma slot_inj s s0 :
  well_named s → well_named s0 → family_of s = family_of s0 → slot s = slot s0 → s = s0.
Proof.
  intros Hs Hs0 Hf. destruct s, s0; try done; cbn [slot].
  - by intros [->%index_inj ->%index_inj]%row_major_inj; [|apply index_lt..].
  - by intros [->%index_inj ->%index_inj]%row_major_inj; [|apply index_lt..].
  - by intros ->%index_inj.
  - by intros ->%of_bool_inj.
  - by intros [->%index_inj ->%of_bool_inj]%row_major_inj; [|destruct success; cbn; lia|destruct success0; cbn; lia].
  - destruct Hs as [Ht Hc], Hs0 as [Ht0 Hc0].
    by intros [->%route_index_inj ->%class_index_inj]%row_major_inj; [|done..|by apply class_index_lt|by apply class_index_lt].
Qed.

Lemma h_slot_inj s s0 :
  h_well_named s → h_well_named s0 → h_family_of s = h_family_of s0 → h_slot s = h_slot s0 → s = s0.
Proof.
  intros Hs Hs0 Hf. destruct s, s0; try done; cbn [h_slot].
  - by intros ->%index_inj.
  - by intros ->%index_inj.
  - by intros ->%index_inj.
  - by intros ->%route_index_inj.
Qed.

(** The effect of an event on the counters and on the histograms *)
Definition bumps (e : Event) (m m' : Metrics) : Prop :=
  match series_of e with
  | Some s0 => ∀ s, counters s m' =
      if decide (family_of s = family_of s0)
      then <[slot s0 := fetch_add (default 0 (counters s0 m !! slot s0)) 1]> (counters s m) else counters s m
  | None => ∀ s, counters s m' = counters s m
  end.

Definition observes (e : Event) (m m' : Metrics) : Prop :=
  match timed_by e with
  | Some (s0, d) => ∃ h h', histograms s0 m !! h_slot s0 = Some h ∧ observe h d = Some h' ∧ ∀ s, histograms s m' =
      if decide (h_family_of s = h_family_of s0) then <[h_slot s0 := h']> (histograms s m) else histograms s m
  | None => ∀ s, histograms s m' = histograms s m
  end.

Lemma series_of_named e s : series_of e = Some s → well_named s.
Proof. destruct e; intros [= <-]; try done. split; [apply label_in|apply class_label_in]. Qed.

Lemma timed_by_named e s d : timed_by e = Some (s, d) → h_well_named s.
Proof. destruct e; intros [= <- <-]; try done. apply label_in. Qed.

Lemma same_family_counters s s0 m : family_of s = family_of s0 → counters s m = counters s0 m.
Proof. by destruct s, s0. Qed.
Lemma same_family_histograms s s0 m : h_family_of s = h_family_of s0 → histograms s m = histograms s0 m.
Proof. by destruct s, s0. Qed.

Lemma bumps_refines evs e tm m m' s :
  refines evs m → bumps e m m' → well_named s →
  counters s m' !! slot s = Some (wrap 64 (total s (evs ++ [(e, tm)]))).
Proof.
  intros [Hc _] Hb Hs. rewrite total_snoc. unfold bumps in Hb. unfold counts.
  destruct (series_of e) as [s0|] eqn:Es; [|by rewrite Hb, Z.add_0_r, Hc].
  pose proof (series_of_named _ _ Es) as Hs0. rewrite Hb. case_decide as Hf.
  - destruct (decide (s = s0)) as [->|Hne].
    + rewrite bool_decide_true by done. rewrite (Hc _ Hs). unfold default, id; cbn [from_option].
      rewrite list_lookup_insert_eq by (eapply lookup_lt_Some, Hc, Hs).
      unfold fetch_add. by rewrite wrap_add_l.
    + rewrite bool_decide_false by congruence.
      rewrite list_lookup_insert_ne by (intros E; by apply Hne, slot_inj). by rewrite Z.add_0_r, Hc.
  - rewrite bool_decide_false by (intros [= ->]; done). by rewrite Z.add_0_r, Hc.
Qed.

Lemma observes_refines evs e tm m m' h :
  refines evs m → observes e m m' → h_well_named h →
  ∃ hist, histograms h m' !! h_slot h = Some hist ∧ summarises hist (durations h (evs ++ [(e, tm)])).
Proof.
  intros [_ Hh] Ho Hw. rewrite durations_snoc. unfold observes in Ho. unfold observed.
  destruct (timed_by e) as [[h0 d]|] eqn:Et; cbn; [|rewrite Ho, app_nil_r; by apply Hh].
  pose proof (timed_by_named _ _ _ Et) as Hw0. destruct Ho as (x & x' & Hx & Hob & Ho). rewrite Ho.
  case_decide as Hf.
  - destruct (decide (h = h0)) as [->|Hne].
    + rewrite bool_decide_true by done. destruct (Hh _ Hw0) as (y & Hy & Hsum).
      assert (x = y) as <- by congruence.
      destruct (observe_summarises _ _ d Hsum) as (z & Hz & Hsz). assert (x' = z) as <- by congruence.
      exists x'. by rewrite list_lookup_insert_eq by (by eapply lookup_lt_Some).
    + rewrite bool_decide_false by done. rewrite app_nil_r.
      rewrite list_lookup_insert_ne by (intros E; by apply Hne, h_slot_inj). by apply Hh.
  - rewrite bool_decide_false by congruence. rewrite app_nil_r. by apply Hh.
Qed.

(** Every event is recorded, and recording keeps the refinement. *)
Lemma record_total evs m e tm :
  refines evs m → ∃ m' tm', record e m tm = Some (m', tm') ∧ bumps e m m' ∧ observes e m m'.
Proof.
  intros [Hc Hh].
  assert (Hb : ∀ s, series_of e = Some s →
    bump (counters s m) (slot s) = Some (<[slot s := fetch_add (default 0 (counters s m !! slot s)) 1]> (counters s m))).
  { intros s Hs. specialize (Hc _ (series_of_named _ _ Hs)). rewrite Hc. by apply bump_spec. }
  assert (Ho : ∀ s d, timed_by e = Some (s, d) → ∃ h h', histograms s m !! h_slot s = Some h ∧ observe h d = Some h' ∧
    observe_at (histograms s m) (h_slot s) d = Some (<[h_slot s := h']> (histograms s m))).
  { intros s d Hs. destruct (Hh _ (timed_by_named _ _ _ Hs)) as (h & Hl & Hsum).
    destruct (observe_summarises _ _ d Hsum) as (h' & Hobs & _). exists h, h'. split_and!; [done..|].
    unfold observe_at. rewrite Hl. cbn. by rewrite Hobs. }
  clear Hc Hh. destruct e as [| | | | | |[]| | |]; unfold bumps, observes;
    cbn [series_of timed_by record counters histograms slot h_slot] in *.
  all: try specialize (Hb _ eq_refl); try (specialize (Ho _ _ eq_refl) as (x & x' & Hl & Hob & Ho));
    cbn [counters histograms slot h_slot] in *.
  - unfold cache_lookup. rewrite Hb. do 2 eexists. split; [reflexivity|]. split; by intros [].
  - unfold store_read. rewrite Ho. do 2 eexists. split; [reflexivity|]. split; [by intros []|].
    exists x, x'. split_and!; [done..|by intros []].
  - unfold singleflight_wait. rewrite Ho. do 2 eexists. split; [reflexivity|]. split; [by intros []|].
    exists x, x'. split_and!; [done..|by intros []].
  - unfold upstream_attempt. rewrite Hb, Ho. do 2 eexists. split; [reflexivity|]. split; [by intros []|].
    exists x, x'. split_and!; [done..|by intros []].
  - unfold upstream_throttled. rewrite Hb. do 2 eexists. split; [reflexivity|]. split; by intros [].
  - injection Hl as <-. unfold permit_wait. rewrite Hob. do 2 eexists. split; [reflexivity|].
    split; [by intros []|]. exists (permit m), x'. split_and!; [done..|by intros []].
  - do 2 eexists. split; [reflexivity|]. split; by intros [].
  - do 2 eexists. split; [reflexivity|]. split; by intros [].
  - unfold refresh_run. rewrite Hb. do 2 eexists. split; [reflexivity|]. split; by intros [].
  - unfold refresh_item. rewrite Hb. do 2 eexists. split; [reflexivity|]. split; by intros [].
  - rewrite route_index_label, <- status_class_spec in Hb. rewrite route_index_label in Ho, Hl.
    unfold http_request. cbv zeta. rewrite Hb, Ho. do 2 eexists. split; [reflexivity|].
    rewrite route_index_label, <- status_class_spec. split; [by intros []|].
    exists x, x'. split_and!; [done..|by intros []].
Qed.

Lemma record_all_refines evs evs0 m :
  refines evs0 m → ∃ m', record_all evs m = Some m' ∧ refines (evs0 ++ evs) m'.
Proof.
  revert evs0 m. induction evs as [|[e tm] evs IH]; intros evs0 m Hr.
  - exists m. by rewrite app_nil_r.
  - destruct (record_total _ _ e tm Hr) as (m1 & tm' & He & Hb & Ho). cbn [record_all]. rewrite He. cbn.
    destruct (IH (evs0 ++ [(e, tm)]) m1) as (m' & Hm & Hr').
    { split; intros; [by eapply bumps_refines|by eapply observes_refines]. }
    exists m'. split; [done|]. by rewrite <- app_assoc in Hr'.
Qed.

(** ** The exposition *)

Lemma counter_line s n m :
  well_named s → counters s m !! slot s = Some n → line s n ∈ render_parts m.
Proof.
  intros Hs Hn. unfold render_parts. rewrite !elem_of_app. destruct s as [k r|u st|u|b|k b|t c]; cbn [line counters slot] in *.
  - right; left. apply list_elem_of_further, (elem_of_each _ k), (elem_of_each _ r).
    unfold at_. rewrite Hn. apply list_elem_of_here.
  - do 4 right; left. unfold render_upstream. rewrite !elem_of_app. left.
    apply list_elem_of_further, (elem_of_each _ u), (elem_of_each _ st). unfold at_. rewrite Hn. apply list_elem_of_here.
  - do 4 right; left. unfold render_upstream. rewrite !elem_of_app. do 2 right; left.
    apply list_elem_of_further, (elem_of_each _ u). unfold at_. rewrite Hn. apply list_elem_of_here.
  - do 5 right; left. unfold render_refresh. rewrite !elem_of_app. left. apply list_elem_of_further.
    apply list_elem_of_fmap. exists (of_bool b, success_label b). unfold at_. rewrite Hn.
    split; [done|]. destruct b; set_solver.
  - do 5 right; left. unfold render_refresh. rewrite !elem_of_app. right; left.
    apply list_elem_of_further, (elem_of_each _ k), list_elem_of_fmap. exists (of_bool b, success_label b).
    unfold at_. rewrite Hn. split; [done|]. destruct b; set_solver.
  - do 6 right. unfold render_http. rewrite !elem_of_app. left. apply list_elem_of_further.
    destruct Hs as [Ht Hc%class_index_lookup]. pose proof (route_index_spec t) as Hi.
    unfold route_label in Hi. rewrite bool_decide_true in Hi by done.
    apply list_elem_of_join. eexists. split.
    2:{ apply list_elem_of_lookup_2 with (route_index t). rewrite list_lookup_imap, Hi. reflexivity. }
    apply list_elem_of_lookup_2 with (class_index c). rewrite list_lookup_imap, Hc. cbn [fmap option_fmap option_map].
    unfold at_. by rewrite Hn.
Qed.

Definition below (k : nat) (ds : list Z) : Z :=
  Z.of_nat (length (List.filter (λ d, bool_decide (bucket_of d < k)%nat) ds)).

Lemma below_succ k ds : below (S k) ds = below k ds + in_bucket k ds.
Proof.
  unfold below, in_bucket. induction ds as [|d ds IH]; [done|]. cbn [List.filter].
  destruct (decide (bucket_of d = k)) as [E|E].
  - rewrite (bool_decide_true (bucket_of d < S k)%nat), (bool_decide_false (bucket_of d < k)%nat),
      (bool_decide_true (bucket_of d = k)) by lia. cbn [length]. lia.
  - rewrite (bool_decide_false (bucket_of d = k)) by done.
    destruct (decide (bucket_of d < k)%nat).
    + rewrite !bool_decide_true by lia. cbn [length]. lia.
    + rewrite !bool_decide_false by lia. lia.
Qed.

Lemma below_le k ds : 0 <= below k ds <= Z.of_nat (length ds).
Proof. unfold below. pose proof (List.filter_length_le (λ d, bool_decide (bucket_of d < k)%nat) ds). lia. Qed.

Lemma cumulative_below ds n : Z.of_nat (length ds) <= u64_max → ∀ k,
  cumulative (below k ds) (map (λ i, in_bucket i ds) (seq k n)) = map (λ i, below (S i) ds) (seq k n).
Proof.
  intros Hl. induction n as [|n IH]; intros k; [done|]. cbn [seq map cumulative].
  assert (E : sat_add (below k ds) (in_bucket k ds) = below (S k) ds).
  { unfold sat_add. rewrite <- below_succ. pose proof (below_le (S k) ds). lia. }
  by rewrite E, IH.
Qed.

Lemma bucket_bound i bound d :
  BUCKET_NANOS !! i = Some bound → bool_decide (bucket_of d < S i)%nat = (d <=? bound).
Proof.
  intros Hi. assert (Hlt := lookup_lt_Some _ _ _ Hi). apply eq_true_iff_eq. rewrite bool_decide_eq_true, Z.leb_le.
  unfold bucket_of, BUCKET_NANOS in *. cbn [length] in Hlt. cbn [partition_point].
  repeat match goal with |- context [?b <? d] => destruct (Z.ltb_spec b d) end;
    do 15 (destruct i as [|i]; [injection Hi as <-; lia|]); cbn in Hlt; lia.
Qed.

Lemma below_at_most i bound ds : BUCKET_NANOS !! i = Some bound → below (S i) ds = at_most bound ds.
Proof.
  intros Hi. unfold below, at_most. do 2 f_equal. apply List.filter_ext. intros d. by apply bucket_bound.
Qed.

Lemma below_all ds : below 16 ds = Z.of_nat (length ds).
Proof.
  unfold below. f_equal. f_equal. rewrite List.forallb_filter_id; [done|]. apply forallb_forall. intros d _.
  apply bool_decide_eq_true, bucket_of_lt.
Qed.

Lemma cumulated h ds :
  summarises h ds → Z.of_nat (length ds) <= u64_max →
  cumulative 0 (buckets h) = map (λ bound, at_most bound ds) BUCKET_NANOS ++ [Z.of_nat (length ds)].
Proof.
  intros (Hlen & Hb & _) Hl.
  assert (E : buckets h = map (λ i, in_bucket i ds) (seq 0 16)).
  { apply list_eq. intros i. rewrite list_lookup_fmap. destruct (decide (i < 16)%nat) as [Hi|Hi].
    - rewrite Hb, lookup_seq_lt by done. cbn [fmap option_fmap option_map]. f_equal.
      apply wrap_small. unfold in_width, in_bucket. unfold u64_max in Hl.
      pose proof (List.filter_length_le (λ d, bool_decide (bucket_of d = i)) ds). cbn [Nat.add]. lia.
    - rewrite !lookup_ge_None_2; [done|rewrite length_seq; lia|lia]. }
  assert (E0 : below 0 ds = 0) by (unfold below; clear; induction ds as [|d ds IH]; [done|]; cbn [List.filter]; by rewrite bool_decide_false by lia).
  rewrite E, <- E0 at 1.
  rewrite cumulative_below by done. change (seq 0 16) with (seq 0 15 ++ [15%nat]). rewrite map_app. f_equal.
  - apply list_eq. intros i. rewrite !list_lookup_fmap. destruct (BUCKET_NANOS !! i) as [bound|] eqn:Hi.
    + pose proof (lookup_lt_Some _ _ _ Hi) as Hlt. rewrite lookup_seq_lt by done.
      cbn [fmap option_fmap option_map Nat.add]. f_equal. by apply below_at_most.
    + apply lookup_ge_None in Hi. by rewrite lookup_ge_None_2 by (rewrite length_seq; done).
  - cbn [map]. by rewrite below_all.
Qed.

Lemma render_summary h s ds :
  summarises h ds → Z.of_nat (length ds) <= u64_max →
  render_histogram (h_name s) (h_labels s) h = if decide (ds = []) then [] else h_lines s ds.
Proof.
  intros Hs Hl. pose proof (cumulated _ _ Hs Hl) as Hc. destruct Hs as (_ & _ & Hsum & Hcount).
  unfold render_histogram. rewrite Hc, Hsum, Hcount.
  rewrite wrap_small by (unfold in_width; unfold u64_max in Hl; lia).
  destruct ds as [|d ds]; [done|]. rewrite (proj2 (Z.eqb_neq _ 0)) by (cbn [length]; lia).
  rewrite decide_False by done. rewrite last_snoc. reflexivity.
Qed.

Lemma histogram_lines s h m :
  h_well_named s → histograms s m !! h_slot s = Some h →
  ∀ l, l ∈ render_histogram (h_name s) (h_labels s) h → l ∈ render_parts m.
Proof.
  intros Hs Hh l Hl. unfold render_parts. rewrite !elem_of_app.
  destruct s as [k|k|u| |t]; cbn [histograms h_slot h_name h_labels] in *.
  - do 2 right; left. apply list_elem_of_further, (elem_of_each _ k). unfold at_. by rewrite Hh.
  - do 3 right; left. apply list_elem_of_further, (elem_of_each _ k). unfold at_. by rewrite Hh.
  - do 4 right; left. unfold render_upstream. rewrite !elem_of_app. right; left.
    apply list_elem_of_further, (elem_of_each _ u). unfold at_. by rewrite Hh.
  - do 4 right; left. unfold render_upstream. rewrite !elem_of_app. do 3 right; left.
    apply list_elem_of_further. by injection Hh as ->.
  - do 6 right. unfold render_http. rewrite !elem_of_app. right. apply list_elem_of_further.
    pose proof (route_index_spec t) as Hi. unfold route_label in Hi. rewrite bool_decide_true in Hi by done.
    apply list_elem_of_join. exists (render_histogram "pccs_http_request_duration_seconds" [("route"%string, t)] h).
    split; [done|]. apply list_elem_of_lookup_2 with (route_index t). rewrite list_lookup_imap, Hi.
    cbn [fmap option_fmap option_map]. unfold at_. by rewrite Hh.
Qed.

(** C25: Whatever requests and refreshes recorded, and in whatever order,
    recording never indexes out of range, and a scrape shows for every counter
    series the number of its events and for every histogram series with an
    observation the number of durations within each bound, their number under
    +Inf and as the count, and their sum (modulo 2^64 nanoseconds). *)
Theorem scrape_exact (evs : list (Event * option Timing)) (now : Z) :
  Z.of_nat (length evs) <= u64_max →
  ∃ m, record_all evs (new_metrics now) = Some m ∧
    (∀ s, well_named s → line s (total s evs) ∈ render_parts m) ∧
    (∀ s, h_well_named s → durations s evs ≠ [] → ∀ l, l ∈ h_lines s (durations s evs) → l ∈ render_parts m).
Proof.
  intros Hl. destruct (record_all_refines evs [] _ (new_refines now)) as (m & Hm & [Hc Hh]).
  change ([] ++ evs) with evs in Hc, Hh. exists m. split; [done|]. split.
  - intros s Hs. specialize (Hc s Hs). rewrite wrap_small in Hc; [by apply counter_line|].
    unfold in_width, total. pose proof (List.filter_length_le (λ e, counts s e.1) evs).
    unfold u64_max in Hl. lia.
  - intros s Hs Hne l Hin. destruct (Hh s Hs) as (h & Hlk & Hsum).
    apply (histogram_lines s h m Hs Hlk). rewrite (render_summary _ _ _ Hsum); [by rewrite decide_False|].
    enough (length (durations s evs) <= length evs)%nat by lia. clear. unfold durations.
    induction evs as [|e evs IH]; [done|]. cbn. destruct (observed s e.1); cbn; lia.
Qed.

(** *** The middleware *)

(** A request is recorded once, under the label of its matched path and with
    the status of the response that is sent; without timing the response is
    what the handlers answered. *)
Lemma middleware_records {R} header_ok set (status : R → Z) matched (timing : bool) elapsed finished next m r m1 tm1 evs :
  next m (if timing then Some no_timing else None) = Some (r, (m1, tm1)) → refines evs m1 →
  ∃ r' m', http_middleware header_ok set status matched timing elapsed finished next m = Some (r', m') ∧
    refines (evs ++ [(EvHttp (default "unmatched"%string matched) (status r') finished, None)]) m' ∧
    (timing = false → r' = r).
Proof.
  intros Hn Hr. unfold http_middleware. rewrite Hn. cbn [mbind option_bind].
  set (r' := match tm1 with Some _ => _ | None => _ end).
  assert (Hroute : ROUTES !! match matched with Some path => route_index path | None => (length ROUTES - 1)%nat end
                   = Some (route_label (default "unmatched"%string matched))).
  { destruct matched as [path|]; [apply route_index_spec|reflexivity]. }
  rewrite Hroute. cbn [mbind option_bind].
  destruct (record_total _ _ (EvHttp (route_label (default "unmatched"%string matched)) (status r') finished) None Hr)
    as (m' & tm' & He & Hb & Ho). cbn [record] in He. rewrite He. cbn [mbind option_bind].
  assert (Hidem : ∀ x, route_label (route_label x) = route_label x).
  { intros x. unfold route_label at 1. by rewrite bool_decide_true by apply label_in. }
  exists r', m'. split; [done|]. split.
  - split; intros s Hs.
    + eapply bumps_refines; [done| |done]. unfold bumps in *. cbn [series_of] in *. by rewrite Hidem in Hb.
    + eapply observes_refines; [done| |done]. unfold observes in *. cbn [timed_by] in *. by rewrite Hidem in Ho.
  - intros ->. subst r'. by destruct tm1.
Qed.
End simulation.

(** ** Route labels *)

Lemma lookup_route_in l leaf t : lookup_route l leaf = Some t → leaf ∈ map fst l.
Proof.
  induction l as [|[p u] l IH]; [done|]. cbn [lookup_route map fst].
  destruct (String.eqb_spec p leaf) as [->|]; [intros _; apply list_elem_of_here|].
  intros Ht. apply list_elem_of_further. by apply IH.
Qed.

Lemma nest_some prefix l path matched t :
  nest prefix l path = Some (matched, t) → ∃ leaf, leaf ∈ map fst l ∧ matched = (prefix ++ leaf)%string.
Proof.
  unfold nest. intros H. apply bind_Some in H as (leaf & Hl & H). apply bind_Some in H as (u & Hu & [= <- <-]).
  exists leaf. split; [by eapply lookup_route_in|]. by apply strip_prefix_spec.
Qed.

Lemma wildcard_labelled prefix l path matched t : wildcard prefix l path = Some (matched, t) → matched = (prefix ++ "{*rest}")%string.
Proof.
  unfold wildcard. intros H. apply bind_Some in H as (rest & Hl & H). destruct (is_empty rest); [done|]. by injection H as <- _.
Qed.

Lemma exact_labelled p u path matched t : exact p u path = Some (matched, t) → matched = p.
Proof. unfold exact. destruct (String.eqb_spec p path) as [->|]; [|done]. by intros [= <- _]. Qed.

Lemma first_of_some {A} (l : list (option A)) a : first_of l = Some a → Some a ∈ l.
Proof.
  induction l as [|[b|] l IH]; [done|..]; cbn; [intros [= ->]; apply list_elem_of_here|].
  intros Ha. apply list_elem_of_further. by apply IH.
Qed.

Definition service_templates : list string :=
  List.filter (λ t, negb (String.eqb t "/metrics") && negb (String.eqb t "unmatched")) ROUTES.

Lemma nest_labelled prefix l path matched t :
  forallb (λ leaf, bool_decide ((prefix ++ leaf)%string ∈ service_templates)) (map fst l) = true →
  nest prefix l path = Some (matched, t) → matched ∈ service_templates.
Proof.
  intros Hall (leaf & Hl & ->)%nest_some. rewrite forallb_forall in Hall.
  apply list_elem_of_In, Hall, bool_decide_eq_true in Hl. done.
Qed.

(** A path that is matched under its own template *)
Definition sample_path (template : string) : string :=
  match strip_suffix "{*rest}" template with Some p => (p ++ "x")%string | None => template end.

(** The route labels are exactly the matched paths of the routing tables,
    besides the label of the scrape listener and the one for unmatched
    requests: no routed request is counted as unmatched, and no label is dead. *)
Theorem route_labels_exact (template : string) :
  (∃ pcs_ver path t, find_route pcs_ver path = Some (template, t)) ↔
    template ∈ ROUTES ∧ template ≠ "/metrics"%string ∧ template ≠ "unmatched"%string.
Proof.
  assert (Hs : template ∈ service_templates ↔
    template ∈ ROUTES ∧ template ≠ "/metrics"%string ∧ template ≠ "unmatched"%string).
  { unfold service_templates. rewrite list_elem_of_In, List.filter_In, <- list_elem_of_In, andb_true_iff, !negb_true_iff.
    by rewrite !String.eqb_neq. }
  rewrite <- Hs. split.
  - intros (ver & path & t & H%first_of_some). rewrite !elem_of_cons, elem_of_nil in H.
    destruct H as [H|[H|[H|[H|[H|[H|[H|[H|[H|[]]]]]]]]]]; symmetry in H.
    all: try (destruct (ver =? 4); [|done]).
    all: try (by eapply nest_labelled; [|exact H]; vm_compute; reflexivity).
    all: first [apply wildcard_labelled in H as ->|apply exact_labelled in H as ->];
      apply (bool_decide_unpack (_ ∈ service_templates)); vm_compute; exact I.
  - intros Ht. exists 4, (sample_path template).
    assert (Hall : forallb (λ tp, bool_decide (is_Some (snd <$> find_route 4 (sample_path tp)) ∧
              fst <$> find_route 4 (sample_path tp) = Some tp)) service_templates = true)
      by (vm_compute; reflexivity).
    rewrite forallb_forall in Hall. apply list_elem_of_In, Hall, bool_decide_eq_true in Ht as [_ Ht].
    destruct (find_route 4 (sample_path template)) as [[tp u]|]; [|done]. injection Ht as ->. by exists u.
Qed.

(** ** Witnesses *)

Module MetricsSample.

#[export] Instance float_text : FloatText :=
  {| seconds_text := to_dec; bits_text := to_dec; millis_text := to_dec; secs_bits := id |}.

Definition evs : list (Event * option Timing) :=
  [(EvLookup Pckcert Hit, Some no_timing); (EvStore Pckcert 75_000, None);
   (EvHttp "/vcek/{*rest}" 404 1_500_000, None); (EvLookup Pckcert Hit, None);
   (EvHttp "/nowhere" 404 70_000_000_000, None)]%string.

(** The scrape as text: a counter, an observation between two bounds, and a
    request to no route *)
Example scraped :
  line (Lookups Pckcert Hit) 2 =
    ("pccs_cache_lookups_total{kind=" ++ quote ++ "pckcert" ++ quote ++ ",result=" ++ quote ++ "hit" ++ quote
     ++ "} 2" ++ newline)%string ∧
  total (Requests "unmatched" "4xx") evs = 1 ∧ durations (StoreReads Pckcert) evs = [75_000] ∧
  at_most 50_000 [75_000] = 0 ∧ at_most 100_000 [75_000] = 1 ∧
  bool_decide (is_Some (record_all evs (new_metrics 0))) = true.
Proof. split_and!; vm_compute; reflexivity. Qed.

End MetricsSample.
Import MetricsSample.

Lemma scrape_exact_witness :
  Z.of_nat (length evs) <= u64_max ∧
  ∃ m, record_all evs (new_metrics 0) = Some m ∧
    (∀ s, well_named s → line s (total s evs) ∈ render_parts m) ∧
    (∀ s, h_well_named s → durations s evs ≠ [] → ∀ l, l ∈ h_lines s (durations s evs) → l ∈ render_parts m).
Proof.
  assert (Hl : Z.of_nat (length evs) <= u64_max) by (vm_compute; discriminate).
  split; [exact Hl|]. apply (scrape_exact evs 0 Hl).
Defined.
