(* ===== verification/Permits.v ===== *)
(** * Permits: the bound on concurrent upstream requests (src/src/pcs.rs,
    [acquire_permit], [measured_attempt], the guards, and the loop of [send])

    Each request upstream waits for one of [upstream_max_concurrent] permits
    for every attempt it makes, holds it for that attempt only, and keeps the
    metrics through guards that also run when its future is dropped.  A request
    is a state machine here, its suspension points are its stages; a step is
    what happens between two of them, but the release of a permit and the
    count of requests in flight are separate steps, as they are separate
    atomic operations.  [Pcs.send_loop] is the same loop seen by one request
    that waits for nothing; [after] is what both decide on.  Times are in
    nanoseconds. *)

From Stdlib Require Import ZArith Lia.
From stdpp Require Import base list strings option relations.
From S2P Require Import Prelude Text Errors Env Cache Pcs Metrics MetricsSpec PcsSpec.

Local Open Scope Z_scope.
#[local] Set Default Proof Using "Type*".

(** [Semaphore::new] refuses more than [usize::MAX >> 3] permits. *)
Definition MAX_PERMITS : Z := Z.shiftr u64_max 3.
Definition new_permits (upstream_max_concurrent : Z) : option Z :=
  let n := Z.max upstream_max_concurrent 1 in
  if MAX_PERMITS <? n then None else Some n.

(** ** What an attempt decides *)

(** The variables of the loop of [send]: [tk_left] attempts remain, the
    current one included *)
Record Loop := { tk_left : nat; tk_attempt : Z; tk_throttled : Z; tk_delay : option Z }.

Definition begin (max_attempts : nat) : Loop :=
  {| tk_left := max_attempts; tk_attempt := 0; tk_throttled := 0; tk_delay := None |}.

Inductive After := Finish (r : res HttpResponse) | Retry (l : Loop) (throttled_retry : bool).

Definition after (l : Loop) (x : exchange_result) : After :=
  match outcome x with
  | Err e =>
      if (tk_left l <=? 1)%nat then Finish (Err e)
      else Retry {| tk_left := tk_left l - 1; tk_attempt := tk_attempt l + 1; tk_throttled := tk_throttled l;
                    tk_delay := None |} false
  | Ok r =>
      if throttling (hr_status r) && (tk_throttled l + 1 <? MAX_THROTTLED_ATTEMPTS) && negb (tk_left l <=? 1)%nat then
        Retry {| tk_left := tk_left l - 1; tk_attempt := tk_attempt l + 1; tk_throttled := tk_throttled l + 1;
                 tk_delay := retry_after r |} true
      else Finish (Ok r)
  end.

(** How long the loop sleeps before an attempt that is not the first *)
Definition backoff (l : Loop) : Z := default (Z.shiftl 50 (Z.min (tk_attempt l) 5)) (tk_delay l) * 1_000_000.

(** The status an attempt is recorded with *)
Definition attempt_status (x : exchange_result) : UpstreamStatus :=
  match x with
  | TimedOut => Timeout
  | TransportError => Error
  | Answered r => match read_response r with Ok r => from_status (hr_status r) | Err _ => Error end
  end.

(** ** The requests *)

Inductive Stage :=
| Sleeping (since : Z)  (** behind its [BackoffTimer] *)
| Queueing (since : Z)  (** behind its [PermitWaitGuard] *)
| Attempting (since : Z)  (** with a permit, an [InflightGuard] and an [AttemptGuard] *)
| Releasing (next : option After)  (** its permit is back; [None] when it is being dropped *)
| Ended (r : res HttpResponse)
| Dropped.

Record Request := { rq_upstream : Upstream; rq_loop : Loop; rq_retry : bool; rq_stage : Stage }.

Record PState := {
  p_now : Z;
  available : Z;
  requests : list Request;
  (** the calls of the metrics, in their order *)
  p_log : list Event
}.

Definition idle (permits : Z) : PState := {| p_now := 0; available := permits; requests := []; p_log := [] |}.

Inductive pevent :=
| Tick (d : Z)
| Begin (up : Upstream) (max_attempts : nat)
| Wake (i : nat)
| Grant (i : nat)
| Answer (i : nat) (x : exchange_result)
| Release (i : nat)
| Abandon (i : nat).

Definition at_stage (r : Request) (st : Stage) : Request :=
  {| rq_upstream := rq_upstream r; rq_loop := rq_loop r; rq_retry := rq_retry r; rq_stage := st |}.

Definition resume (now : Z) (r : Request) (a : option After) : Request :=
  match a with
  | None => at_stage r Dropped
  | Some (Finish x) => at_stage r (Ended x)
  | Some (Retry l throttled) =>
      {| rq_upstream := rq_upstream r; rq_loop := l; rq_retry := throttled; rq_stage := Sleeping now |}
  end.

(** Request [i] becomes [r], with [d] permits more and some metrics recorded. *)
Definition put (i : nat) (r : Request) (d : Z) (evs : list Event) (s : PState) : PState :=
  {| p_now := p_now s; available := available s + d; requests := <[i := r]> (requests s); p_log := p_log s ++ evs |}.

Definition pstep (e : pevent) (s : PState) : option PState :=
  match e with
  | Tick d =>
      if d <? 0 then None
      else Some {| p_now := p_now s + d; available := available s; requests := requests s; p_log := p_log s |}
  | Begin up max_attempts =>
      if (max_attempts =? 0)%nat then None
      else Some {| p_now := p_now s; available := available s;
                   requests := requests s ++ [{| rq_upstream := up; rq_loop := begin max_attempts; rq_retry := false;
                                                 rq_stage := Queueing (p_now s) |}];
                   p_log := p_log s |}
  | Wake i =>
      r ← requests s !! i;
      match rq_stage r with
      | Sleeping since =>
          if since + backoff (rq_loop r) <=? p_now s then Some (put i (at_stage r (Queueing (p_now s))) 0 [] s) else None
      | _ => None
      end
  | Grant i =>
      r ← requests s !! i;
      match rq_stage r with
      | Queueing since =>
          if 0 <? available s then
            Some (put i {| rq_upstream := rq_upstream r; rq_loop := rq_loop r; rq_retry := false;
                           rq_stage := Attempting (p_now s) |} (-1)
                    ([EvPermit (p_now s - since); EvInflight true] ++
                     (if rq_retry r then [EvThrottled (rq_upstream r)] else [])) s)
          else None
      | _ => None
      end
  | Answer i x =>
      r ← requests s !! i;
      match rq_stage r with
      | Attempting since =>
          Some (put i (at_stage r (Releasing (Some (after (rq_loop r) x)))) 1
                  [EvAttempt (rq_upstream r) (attempt_status x) (p_now s - since)] s)
      | _ => None
      end
  | Release i =>
      r ← requests s !! i;
      match rq_stage r with
      | Releasing a => Some (put i (resume (p_now s) r a) 0 [EvInflight false] s)
      | _ => None
      end
  | Abandon i =>
      r ← requests s !! i;
      match rq_stage r with
      | Sleeping _ => Some (put i (at_stage r Dropped) 0 [] s)
      | Queueing since => Some (put i (at_stage r Dropped) 0 [EvPermit (p_now s - since)] s)
      | Attempting since =>
          Some (put i (at_stage r (Releasing None)) 1 [EvAttempt (rq_upstream r) Error (p_now s - since)] s)
      | Releasing _ | Ended _ | Dropped => None
      end
  end.

Fixpoint pexec (evs : list pevent) (s : PState) : option PState :=
  match evs with
  | [] => Some s
  | e :: evs => s' ← pstep e s; pexec evs s'
  end.

(** Two requests and one permit: the second is granted it while the first
    sleeps before its second attempt. *)
Example backing_off_yields :
  (λ s, (map rq_stage (requests s), available s)) <$>
    pexec [Begin IntelPcs 2; Begin IntelPcs 2; Grant 0; Answer 0 TransportError; Release 0; Grant 1] (idle 1)
  = Some ([Sleeping 0; Attempting 0], 0).
Proof. reflexivity. Qed.

Example one_permit :
  pexec [Begin IntelPcs 2; Begin IntelPcs 2; Grant 0; Grant 1] (idle 1) = None.
Proof. reflexivity. Qed.
