(* ===== verification/PermitsSpec.v ===== *)
(** * PermitsSpec: what the bound on upstream requests promises

    However requests begin, wait, are answered, back off and are dropped, no
    permit is lost or made up, and what the guards record agrees with what
    happened. *)

From Stdlib Require Import ZArith Lia.
From stdpp Require Import base list strings option relations.
From S2P Require Import Prelude Text Errors Env Prog Cache Pcs Metrics MetricsSpec PcsSpec Permits.

Local Open Scope Z_scope.
#[local] Set Default Proof Using "Type*".

(** ** Counting *)

Definition b2z (b : bool) : Z := if b then 1 else 0.

Definition count {A} (p : A → bool) (l : list A) : Z := Z.of_nat (length (List.filter p l)).

Lemma count_nil {A} (p : A → bool) : count p [] = 0.
Proof. done. Qed.

Lemma count_cons {A} (p : A → bool) x l : count p (x :: l) = b2z (p x) + count p l.
Proof. unfold count. cbn. destruct (p x); cbn [length b2z]; lia. Qed.

Lemma count_app {A} (p : A → bool) l l' : count p (l ++ l') = count p l + count p l'.
Proof. unfold count. rewrite List.filter_app, length_app. lia. Qed.

Lemma count_nonneg {A} (p : A → bool) l : 0 <= count p l.
Proof. unfold count. lia. Qed.

Lemma count_le {A} (p : A → bool) l : count p l <= Z.of_nat (length l).
Proof. unfold count. pose proof (List.filter_length_le p l). lia. Qed.

(** Replacing one element *)
Lemma count_insert {A} (p : A → bool) l i x y :
  l !! i = Some x → count p (<[i := y]> l) = count p l - b2z (p x) + b2z (p y).
Proof.
  revert i. induction l as [|z l IH]; intros [|i] Hi; cbn in Hi; try done.
  - injection Hi as ->. change (<[0%nat := y]> (x :: l)) with (y :: l). rewrite !count_cons. lia.
  - change (<[S i := y]> (z :: l)) with (z :: <[i := y]> l). rewrite !count_cons, (IH i Hi). lia.
Qed.

Lemma count_none {A} (p : A → bool) l : Forall (λ x, p x = false) l → count p l = 0.
Proof. induction 1 as [|x l Hx _ IH]; [done|]. rewrite count_cons, Hx, IH. done. Qed.

(** ** Requests by stage *)

Definition attempting (r : Request) : bool := match rq_stage r with Attempting _ => true | _ => false end.
Definition queueing (r : Request) : bool := match rq_stage r with Queueing _ => true | _ => false end.
(** Counted in flight: with a permit, or just without it *)
Definition busy (r : Request) : bool := match rq_stage r with Attempting _ | Releasing _ => true | _ => false end.

(** ** What is recorded *)

Definition is_attempt (e : Event) : bool := match e with EvAttempt _ _ _ => true | _ => false end.
Definition is_wait (e : Event) : bool := match e with EvPermit _ => true | _ => false end.

(** The in-flight gauge after some events *)
Definition gauge_step (g : Z) (e : Event) : Z :=
  match e with
  | EvInflight true => fetch_add g 1
  | EvInflight false => sat_sub g 1
  | _ => g
  end.
Definition gauge (evs : list Event) : Z := fold_left gauge_step evs 0.

Lemma gauge_app evs evs' : gauge (evs ++ evs') = fold_left gauge_step evs' (gauge evs).
Proof. unfold gauge. apply fold_left_app. Qed.

(** It is the sample that a scrape shows. *)
Lemma record_inflight `{FloatText} e m tm m' tm' :
  record e m tm = Some (m', tm') → inflight m' = gauge_step (inflight m) e.
Proof.
  destruct e as [k r|k d|k d|u s d|u|d|[]|now ok d|k ok|rt st d]; cbn;
    unfold cache_lookup, store_read, singleflight_wait, upstream_attempt, upstream_throttled, permit_wait,
      inflight_add, inflight_sub, refresh_run, refresh_item, http_request; intros Hr;
    repeat (apply bind_Some in Hr as (? & _ & Hr)); try (by injection Hr as <- <-).
  all: repeat case_match; by simplify_eq.
Qed.

(** ** The invariant *)

(** Attempts granted, and entries into the queue, in a list of events *)
Definition is_grant (e : pevent) : bool := match e with Grant _ => true | _ => false end.
Definition is_entry (e : pevent) : bool := match e with Begin _ _ | Wake _ => true | _ => false end.

Record permits_inv (permits : Z) (evs : list pevent) (s : PState) : Prop := {
  pi_permits : available s + count attempting (requests s) = permits;
  pi_available : 0 <= available s;
  pi_gauge : Z.of_nat (length (requests s)) <= u64_max →
    gauge (p_log s) = count busy (requests s);
  pi_attempts : count is_attempt (p_log s) + count attempting (requests s) = count is_grant evs;
  pi_waits : count is_wait (p_log s) + count queueing (requests s) = count is_entry evs
}.

Lemma permits_inv_idle permits : 0 <= permits → permits_inv permits [] (idle permits).
Proof. intros Hp. split; cbn; rewrite ?count_nil; try done; lia. Qed.

(** Replacing request [i]: what the step adds to the log and to the permits
    has to agree with the change of its stage. *)
Lemma permits_inv_put permits evs s e i r r' d log :
  permits_inv permits evs s → requests s !! i = Some r → 0 <= available s + d →
  d + b2z (attempting r') = b2z (attempting r) →
  count is_attempt log + b2z (attempting r') = b2z (attempting r) + b2z (is_grant e) →
  count is_wait log + b2z (queueing r') = b2z (queueing r) + b2z (is_entry e) →
  (∀ g, 0 <= g - b2z (busy r) → g - b2z (busy r) + 1 <= u64_max →
    fold_left gauge_step log g = g - b2z (busy r) + b2z (busy r')) →
  permits_inv permits (evs ++ [e]) (put i r' d log s).
Proof.
  intros [I1 I2 I3 I4 I5] Hi Ha Hp Hat Hw Hg.
  split; cbn [put available requests p_log]; rewrite ?length_insert, ?count_app, ?count_cons, ?count_nil,
    ?(count_insert _ _ _ _ _ Hi); try lia.
  intros Hl. rewrite gauge_app, (I3 Hl), Hg; [lia|..].
  - pose proof (count_insert busy _ _ _ (at_stage r Dropped) Hi) as E.
    pose proof (count_nonneg busy (<[i := at_stage r Dropped]> (requests s))). cbn [b2z busy at_stage rq_stage] in E. lia.
  - pose proof (count_insert busy _ _ _ (at_stage r (Attempting 0)) Hi) as E.
    pose proof (count_le busy (<[i := at_stage r (Attempting 0)]> (requests s))) as Hle.
    rewrite length_insert in Hle. cbn [b2z busy at_stage rq_stage] in E. lia.
Qed.

Lemma resume_stage now r a :
  attempting (resume now r a) = false ∧ busy (resume now r a) = false ∧ queueing (resume now r a) = false.
Proof. by destruct a as [[x|l throttled]|]. Qed.

(** The accounts of one step, given the stage it leaves *)
Ltac account Er :=
  unfold attempting, queueing, busy, at_stage; cbn [rq_stage app];
  rewrite ?Er, ?count_app, ?count_cons, ?count_nil; cbn; try lia.

Lemma permits_inv_step permits evs s e s' :
  permits_inv permits evs s → pstep e s = Some s' → permits_inv permits (evs ++ [e]) s'.
Proof.
  intros Hinv Hs. pose proof Hinv as [I1 I2 I3 I4 I5].
  destruct e as [d|up n|i|i|i x|i|i]; cbn [pstep] in Hs.
  - destruct (d <? 0); [done|]. injection Hs as <-.
    split; cbn; rewrite ?count_app, ?count_cons, ?count_nil; cbn; try done; lia.
  - destruct (n =? 0)%nat; [done|]. injection Hs as <-.
    split; cbn [available requests p_log]; rewrite ?count_app, ?count_cons, ?count_nil; cbn; try lia.
    rewrite length_app. cbn. intros Hl. rewrite I3; lia.
  - apply bind_Some in Hs as (r & Hi & Hs). destruct (rq_stage r) as [since| | | | |] eqn:Er; try done.
    destruct (_ <=? _); [|done]. injection Hs as <-.
    eapply permits_inv_put; [done|exact Hi|..]; account Er.
  - apply bind_Some in Hs as (r & Hi & Hs). destruct (rq_stage r) as [|since| | | |] eqn:Er; try done.
    destruct (0 <? available s) eqn:Eav; [|done]. injection Hs as <-. bool_to_prop.
    eapply permits_inv_put; [done|exact Hi|..]; try (destruct (rq_retry r); account Er).
    all: intros g Hg0 Hg; unfold fetch_add; rewrite wrap_small by (unfold in_width, u64_max in *; lia); lia.
  - apply bind_Some in Hs as (r & Hi & Hs). destruct (rq_stage r) as [| |since| | |] eqn:Er; try done. injection Hs as <-.
    eapply permits_inv_put; [done|exact Hi|..]; account Er.
  - apply bind_Some in Hs as (r & Hi & Hs). destruct (rq_stage r) as [| | |a| |] eqn:Er; try done. injection Hs as <-.
    destruct (resume_stage (p_now s) r a) as (R1 & R2 & R3).
    eapply permits_inv_put; [done|exact Hi|..]; rewrite ?R1, ?R2, ?R3; account Er.
    intros g. unfold sat_sub. lia.
  - apply bind_Some in Hs as (r & Hi & Hs). destruct (rq_stage r) as [since|since|since| | |] eqn:Er; try done; injection Hs as <-;
      (eapply permits_inv_put; [done|exact Hi|..]; account Er).
Qed.

Lemma permits_inv_exec permits evs done_ s s' :
  permits_inv permits done_ s → pexec evs s = Some s' → permits_inv permits (done_ ++ evs) s'.
Proof.
  revert done_ s. induction evs as [|e evs IH]; intros done_ s Hi Hr; cbn in Hr.
  - injection Hr as <-. by rewrite app_nil_r.
  - apply bind_Some in Hr as (s1 & Hs & Hr). change (e :: evs) with ([e] ++ evs). rewrite app_assoc. eapply IH; [|done]. by eapply permits_inv_step.
Qed.

(** ** Permits *)

Definition over (r : Request) : bool := match rq_stage r with Ended _ | Dropped => true | _ => false end.

(** C19: The bound on upstream requests holds under cancellation.  Whatever
    requests begin, wait, are answered, back off and are dropped, and in
    whatever order: at most [upstream_max_concurrent] attempts are under way,
    the free permits are exactly the others, a request that backs off or
    waits holds none; every attempt that was begun and is over is recorded
    once and so is every wait, with a result or cut short; the in-flight
    gauge is the number of attempts whose guard is still there, so that it is
    zero and every permit is free once every request is over; and a request
    that waits can go on unless that many attempts are under way. *)
Theorem permits_exact cfg_max permits evs s :
  new_permits cfg_max = Some permits → pexec evs (idle permits) = Some s → Z.of_nat (length (requests s)) <= u64_max →
  permits = Z.max cfg_max 1 ∧
  0 <= available s ∧ available s = permits - count attempting (requests s) ∧
  gauge (p_log s) = count busy (requests s) ∧
  count is_attempt (p_log s) = count is_grant evs - count attempting (requests s) ∧
  count is_wait (p_log s) = count is_entry evs - count queueing (requests s) ∧
  (Forall (λ r, over r = true) (requests s) → available s = permits ∧ gauge (p_log s) = 0) ∧
  (∀ i r, requests s !! i = Some r → queueing r = true →
    is_Some (pstep (Grant i) s) ∨ count attempting (requests s) = permits).
Proof.
  intros Hn Hr Hl. unfold new_permits in Hn. destruct (_ <? _); [done|]. injection Hn as <-.
  pose proof (permits_inv_exec _ _ [] _ _ (permits_inv_idle (Z.max cfg_max 1) ltac:(lia)) Hr) as [I1 I2 I3 I4 I5].
  cbn [app] in *. specialize (I3 Hl). split_and!; [done|done|lia|done|lia|lia| |].
  - intros Hall. rewrite I3.
    rewrite !count_none in * by (eapply list.Forall_impl; [exact Hall|];
      intros r; unfold over, attempting, busy; by destruct (rq_stage r)). lia.
  - intros i r Hi Hq. cbn [pstep]. rewrite Hi. cbn. unfold queueing in Hq. destruct (rq_stage r); try done.
    destruct (0 <? available s) eqn:E; [left; eauto|right]. bool_to_prop. lia.
Qed.

(** ** The loop of [send] *)

(** The program ends in [r] when its exchanges are answered by [xs]. *)
Inductive yields {St A} : prog St http_call A → list exchange_result → A → Prop :=
| yields_ret r : yields (Ret r) [] r
| yields_sleep ms k xs r : yields (k tt) xs r → yields (Prog.Upstream (sleep ms) k) xs r
| yields_exchange rq k x xs r : yields (k x) xs r → yields (Prog.Upstream (exchange rq) k) (x :: xs) r.

(** The answers to request [i], and what each request began with *)
Definition answers_of (i : nat) (evs : list pevent) : list exchange_result :=
  omap (λ e, match e with Answer j x => if decide (j = i) then Some x else None | _ => None end) evs.
Definition begun (evs : list pevent) : list nat :=
  omap (λ e, match e with Begin _ max => Some max | _ => None end) evs.

Section loop.
Context {St : Type} `{HttpSyntax} (url : string) (request : HttpRequest) (Hurl : uri_parses url = true).

Definition loop_of (l : Loop) (last : PccsError) : @NetM St HttpResponse :=
  send_loop url request (tk_left l) (tk_attempt l) (tk_throttled l) (tk_delay l) last.

(** What a request does with an answer is what [send_loop] does. *)
Lemma yields_after l last x xs r :
  tk_left l ≠ 0%nat →
  match after l x with
  | Finish r' => xs = [] ∧ r = r'
  | Retry l' _ => ∃ last', yields (loop_of l' last') xs r
  end → yields (loop_of l last) (x :: xs) r.
Proof.
  intros Hl Hx. unfold loop_of. destruct (tk_left l) as [|left] eqn:El; [done|]. rewrite send_loop_step by done.
  assert (Hgo : yields (attempt_once (St := St) url request left (tk_attempt l) (tk_throttled l)) (x :: xs) r).
  { unfold attempt_once. cbn. constructor. fold (outcome x). unfold after in Hx. rewrite El in Hx.
    destruct (outcome x) as [h|e]; cbn.
    - destruct (throttling (hr_status h)); cbn in Hx |- *; [|destruct Hx as [-> ->]; constructor].
      destruct (_ <? MAX_THROTTLED_ATTEMPTS); cbn in Hx |- *; [|destruct Hx as [-> ->]; constructor].
      destruct left as [|left]; cbn in Hx |- *; [destruct Hx as [-> ->]; constructor|].
      destruct Hx as [last' Hx]. exact Hx.
    - destruct left as [|left]; cbn in Hx |- *; [destruct Hx as [-> ->]; constructor|].
      destruct Hx as [last' Hx]. exact Hx. }
  destruct (0 <? tk_attempt l); [by constructor|done].
Qed.

Lemma after_left l x l' b : after l x = Retry l' b → tk_left l' ≠ 0%nat.
Proof.
  unfold after. destruct (outcome x) as [h|e].
  - destruct (_ && _ && _) eqn:E; [|done]. intros [= <- _]. cbn. bool_to_prop. lia.
  - destruct (tk_left l <=? 1)%nat eqn:E; [done|]. intros [= <- _]. cbn. bool_to_prop. lia.
Qed.

(** What remains of a request in each stage *)
Definition on_course (max : nat) (xs : list exchange_result) (r : Request) : Prop :=
  let continues l := tk_left l ≠ 0%nat ∧ ∀ last ys res, yields (loop_of l last) ys res →
    yields (loop_of (begin max) PCS_ACCESS_FAILURE) (xs ++ ys) res in
  match rq_stage r with
  | Sleeping _ | Queueing _ | Attempting _ => continues (rq_loop r)
  | Releasing (Some (Retry l _)) => continues l
  | Releasing (Some (Finish res)) | Ended res => yields (loop_of (begin max) PCS_ACCESS_FAILURE) xs res
  | Releasing None | Dropped => True
  end.

Record course_inv (evs : list pevent) (s : PState) : Prop := {
  ci_begun : length (begun evs) = length (requests s);
  ci_none i : requests s !! i = None → answers_of i evs = [];
  ci_course i r max : requests s !! i = Some r → begun evs !! i = Some max → on_course max (answers_of i evs) r
}.

Lemma begun_snoc evs e : begun (evs ++ [e]) = begun evs ++ match e with Begin _ max => [max] | _ => [] end.
Proof. unfold begun. rewrite omap_app. by destruct e. Qed.

Lemma answers_snoc i evs e :
  answers_of i (evs ++ [e]) =
  answers_of i evs ++ match e with Answer j x => if decide (j = i) then [x] else [] | _ => [] end.
Proof. unfold answers_of. rewrite omap_app. destruct e; cbn; try done. by destruct (decide _). Qed.

(** A step of request [i] *)
Lemma course_inv_put evs s e i r r' d log :
  course_inv evs s → requests s !! i = Some r → match e with Begin _ _ => False | Answer j _ => j = i | _ => True end →
  (∀ max, on_course max (answers_of i evs) r → on_course max (answers_of i (evs ++ [e])) r') →
  course_inv (evs ++ [e]) (put i r' d log s).
Proof.
  intros [C1 C2 C3] Hi He Hr.
  assert (Hb : begun (evs ++ [e]) = begun evs) by (rewrite begun_snoc; destruct e; try done; apply app_nil_r).
  assert (Ha : ∀ j, j ≠ i → answers_of j (evs ++ [e]) = answers_of j evs).
  { intros j Hj. rewrite answers_snoc. destruct e; try apply app_nil_r. subst. rewrite decide_False by done. apply app_nil_r. }
  split; cbn [put requests]; rewrite ?Hb, ?length_insert; [done|..].
  - intros j Hj. destruct (decide (j = i)) as [->|Hne].
    + apply lookup_ge_None in Hj. rewrite length_insert in Hj. apply lookup_lt_Some in Hi. lia.
    + rewrite list_lookup_insert_ne in Hj by done. by rewrite Ha, C2.
  - intros j q max Hj Hm. destruct (decide (j = i)) as [->|Hne].
    + rewrite list_lookup_insert_eq in Hj by (by eapply lookup_lt_Some). injection Hj as <-. eauto.
    + rewrite list_lookup_insert_ne in Hj by done. rewrite Ha by done. eauto.
Qed.

Lemma course_inv_step evs s e s' : course_inv evs s → pstep e s = Some s' → course_inv (evs ++ [e]) s'.
Proof.
  intros Hinv Hs. pose proof Hinv as [C1 C2 C3].
  destruct e as [d|up n|i|i|i x|i|i]; cbn [pstep] in Hs;
    try (apply bind_Some in Hs as (r & Hi & Hs)).
  - destruct (d <? 0); [done|]. injection Hs as <-. split; cbn [requests].
    + by rewrite begun_snoc, app_nil_r.
    + intros i Hi. by rewrite answers_snoc, app_nil_r, C2.
    + intros i r max Hi. rewrite begun_snoc, answers_snoc, !app_nil_r. by apply C3.
  - destruct (Nat.eqb_spec n 0) as [|Hn]; [done|]. injection Hs as <-. split; cbn [requests].
    + rewrite begun_snoc, !length_app. cbn. lia.
    + intros i Hi. rewrite answers_snoc, app_nil_r. apply C2. apply lookup_ge_None in Hi. apply lookup_ge_None. rewrite length_app in Hi. lia.
    + intros i r max Hi Hm. rewrite begun_snoc in Hm. rewrite answers_snoc, app_nil_r.
      apply lookup_app_Some in Hi as [Hi|[Hge Hi]].
      * apply (C3 i r max Hi). rewrite lookup_app_l in Hm; [done|]. rewrite C1. by eapply lookup_lt_Some.
      * apply list_lookup_singleton_Some in Hi as [Hi <-].
        rewrite lookup_app_r in Hm by lia. rewrite C1, Hi in Hm. injection Hm as ->.
        assert (Hnone : answers_of i evs = []) by (apply C2, lookup_ge_None; lia).
        rewrite Hnone. split; [done|]. intros last ys res Hy. cbn [app].
        unfold loop_of, begin in *. cbn in *. by destruct max.
  - destruct (rq_stage r) eqn:Er; try done. destruct (_ <=? _); [|done]. injection Hs as <-.
    eapply course_inv_put; [done|exact Hi|done|]. intros max. rewrite answers_snoc, app_nil_r.
    unfold on_course. by rewrite Er.
  - destruct (rq_stage r) eqn:Er; try done. destruct (_ <? _); [|done]. injection Hs as <-.
    eapply course_inv_put; [done|exact Hi|done|]. intros max. rewrite answers_snoc, app_nil_r.
    unfold on_course. by rewrite Er.
  - destruct (rq_stage r) eqn:Er; try done. injection Hs as <-.
    eapply course_inv_put; [done|exact Hi|done|]. intros max. rewrite answers_snoc, decide_True by done.
    unfold on_course. rewrite Er. cbn [at_stage rq_stage]. intros [Hl Hc].
    destruct (after (rq_loop r) x) as [res|l' b] eqn:Ea.
    + apply (Hc PCS_ACCESS_FAILURE). apply yields_after; [done|]. by rewrite Ea.
    + split; [by eapply after_left|]. intros last ys res Hy. rewrite <- (app_assoc _ [x]). apply (Hc PCS_ACCESS_FAILURE).
      apply yields_after; [done|]. rewrite Ea. eauto.
  - destruct (rq_stage r) eqn:Er; try done. injection Hs as <-.
    eapply course_inv_put; [done|exact Hi|done|]. intros max. rewrite answers_snoc, app_nil_r.
    unfold on_course. rewrite Er. by destruct next as [[|]|].
  - destruct (rq_stage r) eqn:Er; try done; injection Hs as <-;
      (eapply course_inv_put; [done|exact Hi|done|]); done.
Qed.

(** C20: Waiting for permits is invisible.  A request upstream that is not
    dropped ends with exactly what the retry loop alone makes of the answers
    it got, in their order, however many other requests it shared the permits
    with, however long it waited, and whichever of them were dropped. *)
Theorem permits_transparent permits evs s i r max res :
  pexec evs (idle permits) = Some s → requests s !! i = Some r → rq_stage r = Ended res →
  begun evs !! i = Some max →
  yields (send_loop (St := St) url request max 0 0 None PCS_ACCESS_FAILURE) (answers_of i evs) res.
Proof.
  intros Hr Hi He Hm.
  assert (Hc : course_inv evs s).
  { assert (Hgen : ∀ done_ s0, course_inv done_ s0 → pexec evs s0 = Some s → course_inv (done_ ++ evs) s).
    { clear -Hurl. induction evs as [|e evs IH]; intros done_ s0 Hc Hr; cbn in Hr.
      - injection Hr as <-. by rewrite app_nil_r.
      - apply bind_Some in Hr as (s1 & Hs & Hr). change (e :: evs) with ([e] ++ evs). rewrite app_assoc.
        eapply IH; [|done]. by eapply course_inv_step. }
    apply (Hgen [] (idle permits)); [|done]. split; [done..|]. by intros []. }
  pose proof (ci_course _ _ Hc i r max Hi Hm) as Ho. unfold on_course in Ho. by rewrite He in Ho.
Qed.
End loop.

(** ** Three requests and one permit *)

Module PermitsSample.

Definition found : HttpResponse := {| hr_status := 200; hr_header _ := None; hr_body := [123; 125] |}.

(** The first fails once and succeeds on its second attempt; the second is
    dropped in the middle of its attempt, the third while it waits. *)
Definition story : list pevent :=
  [Begin IntelPcs 6; Begin UpAmdKds 6; Begin UpNvidiaRim 6; Grant 0; Answer 0 TransportError; Release 0;
   Grant 1; Tick 100_000_000; Wake 0; Abandon 1; Release 1; Abandon 2; Grant 0; Answer 0 (Answered found); Release 0].

Definition syntax : HttpSyntax := {| uri_parses _ := true; header_value_ok _ := true |}.
Definition ask : HttpRequest :=
  {| rq_method := GET; rq_url := "https://pccs.example/"; rq_content_type := None; rq_key := None; rq_body := [] |}.
End PermitsSample.

Import PermitsSample.

Lemma permits_exact_witness :
  ∃ s, pexec story (idle 1) = Some s ∧ map rq_stage (requests s) = [Ended (Ok found); Dropped; Dropped] ∧
    available s = 1 ∧ gauge (p_log s) = 0 ∧ count is_attempt (p_log s) = 3 ∧ count is_wait (p_log s) = 4.
Proof.
  destruct (pexec story (idle 1)) as [s|] eqn:E; [|vm_compute in E; discriminate E]. exists s.
  assert (Hst : map rq_stage (requests s) = [Ended (Ok found); Dropped; Dropped] ∧ Z.of_nat (length (requests s)) = 3).
  { vm_compute in E. injection E as <-. by split. }
  destruct Hst as [Hst Hlen].
  destruct (permits_exact 1 1 story s) as (_ & _ & _ & _ & Ha & Hw & Hover & _); [reflexivity|done|by rewrite Hlen|].
  assert (Hall : Forall (λ r, over r = true) (requests s)).
  { clear -Hst. destruct (requests s) as [|r1 [|r2 [|r3 [|]]]]; try done. injection Hst as E1 E2 E3.
    unfold over. repeat constructor; by rewrite ?E1, ?E2, ?E3. }
  destruct (Hover Hall) as [Hav Hg].
  rewrite (count_none attempting) in Ha by (eapply list.Forall_impl; [exact Hall|];
    intros r; unfold over, attempting; by destruct (rq_stage r)).
  rewrite (count_none queueing) in Hw by (eapply list.Forall_impl; [exact Hall|];
    intros r; unfold over, queueing; by destruct (rq_stage r)).
  split; [done|]. split; [done|]. split; [done|]. split; [done|]. split; [exact Ha|exact Hw].
Defined.

Lemma permits_transparent_witness :
  yields (St := unit) (send_loop (H1 := syntax) "https://pccs.example/" ask 6 0 0 None PCS_ACCESS_FAILURE)
    [TransportError; Answered found] (Ok found).
Proof.
  destruct (pexec story (idle 1)) as [s|] eqn:E; [|vm_compute in E; discriminate E].
  assert (Hr : ∃ r, requests s !! 0%nat = Some r ∧ rq_stage r = Ended (Ok found)).
  { vm_compute in E. injection E as <-. by eexists. }
  destruct Hr as (r & Hr & Hst).
  exact (permits_transparent (St := unit) (H := syntax) "https://pccs.example/" ask eq_refl 1 story s 0 r 6 (Ok found) E Hr Hst eq_refl).
Defined.
