(* ===== verification/IntelImport.v ===== *)
(** * IntelImport: restoring a snapshot of Intel's PCCS
    (src/src/intel_import.rs)

    [import_intel] reads a SQLite snapshot of the reference PCCS, converts
    every row to the record the service keeps for it, writes the records to a
    staging directory, reads them back and publishes the directory with one
    rename.  SQLite, the X.509 parser and the file system are parameters: a
    connection is what its queries return, an operating-system call is its
    outcome.  Conversion is total on what SQLite can return; an index or
    [unwrap] that would panic is the error [Panicked]. *)

From Stdlib Require Import ZArith Lia.
From stdpp Require Import base list strings option gmap sorting pretty.
From S2P Require Import Prelude Text Errors Validate Env PckCert Selection Keys Database Fifo FifoSpec Records Platforms Registry.

Local Open Scope Z_scope.
Local Open Scope rust_scope.
#[local] Set Default Proof Using "Type*".

(** ** Errors and rows *)

(** [Result<T, String>], or a panic *)
Inductive failure :=
| Failed (message : string)
| Panic.
Definition R (A : Type) : Type := result failure A.

#[export] Instance R_bind : MBind R := λ A B f c, match c with Ok a => f a | Err e => Err e end.

Definition failed {A} (message : string) : R A := Err (Failed message).
(** An expression that panics when there is no value *)
Definition expect {A} (o : option A) : R A := ok_or o Panic.
Definition require {A} (o : option A) (message : string) : R A := ok_or o (Failed message).

Definition TABLES : list string :=
  ["pcs_version"; "platforms"; "pck_cert"; "platform_tcbs"; "pcs_certificates"; "pck_certchain";
   "fmspc_tcbs"; "enclave_identities"; "pck_crl"; "crl_cache"; "platforms_registered";
   "appraisal_policies"]%string.

Inductive SqlValue :=
| SqlNull
| SqlInteger (i : Z)
| SqlReal (bits : Z)
| SqlText (s : string)
| SqlBlob (b : list Z).

Record ImportReport := {
  source_sha256 : string; db_version : Z; api_version : Z;
  source_rows : gmap string nat; destination_records : nat
}.

Record Row := { row_table : string; row_fields : gmap string SqlValue }.

Section row.
Context (row : Row).

Definition where_ (column : string) : string := (row_table row ++ "." ++ column)%string.

Definition value (column : string) : R SqlValue :=
  require (row_fields row !! column) (where_ column ++ ": missing column").

Definition text (column : string) : R string :=
  v ← value column;
  match v with
  | SqlText s => Ok s
  | SqlBlob b => if utf8_valid b then Ok (of_bytes b) else failed (where_ column ++ ": invalid UTF-8")
  | _ => failed (where_ column ++ ": expected text/UTF-8 BLOB")
  end.

Definition nullable_text (column : string) : R string :=
  v ← value column;
  match v with SqlNull => Ok ""%string | _ => text column end.

Definition blob (column : string) : R (list Z) :=
  v ← value column;
  match v with
  | SqlNull => Ok []
  | SqlBlob b => Ok b
  | SqlText s => if is_empty s then Ok [] else failed (where_ column ++ ": expected binary BLOB or NULL")
  | _ => failed (where_ column ++ ": expected binary BLOB or NULL")
  end.

Definition int (column : string) : R Z :=
  v ← value column;
  match v with SqlInteger i => Ok i | _ => failed (where_ column ++ ": expected integer") end.

(** ** Fields *)

Definition hex_field (field : string) (length : nat) : R string :=
  text ← text field;
  if negb (String.length text =? length)%nat || negb (str_all is_hexdigit text) then
    failed (where_ field ++ ": invalid hex identifier")
  else Ok (to_upper text).

Definition version : R Z :=
  n ← int "version";
  if (n =? 3) || (n =? 4) then Ok n else failed (row_table row ++ ": unsupported API version").

Definition update : R string :=
  u ← text "update_type";
  if String.eqb u "STANDARD" then Ok "STANDARD"%string
  else if String.eqb u "EARLY" then Ok "EARLY"%string
  else failed (row_table row ++ ": unsupported update_type").

Definition qeid : R string :=
  id ← text "qe_id";
  if is_empty id || (260 <? String.length id)%nat || negb (str_all is_hexdigit id) then
    failed (row_table row ++ ".qe_id: invalid hex identifier")
  else Ok (to_upper id).

Definition platform_key : R (string * string) :=
  q ← qeid; p ← hex_field "pce_id" 4; Ok (q, p).

Definition ca : R string :=
  t ← text "ca";
  let ca := to_upper t in
  if negb (String.eqb ca "PLATFORM") && negb (String.eqb ca "PROCESSOR") then
    failed (row_table row ++ ".ca: unsupported CA")
  else Ok ca.

Definition credentials : R (string * string) :=
  ppid ← blob "enc_ppid";
  if negb (length ppid =? 0)%nat && negb (length ppid =? 384)%nat then
    failed (row_table row ++ ".enc_ppid: expected 384-byte encrypted PPID")
  else
    manifest ← blob "platform_manifest";
    Ok (hex_encode_upper ppid, hex_encode_upper manifest).

(** The issuer chain of a row: the signing certificate its pointer must name,
    then the root *)
Definition chain (certificates : gmap Z string) (issuer : string) : R string :=
  root_id ← int "root_cert_id";
  if negb (root_id =? 1) then failed (row_table row ++ ".root_cert_id: expected Intel root id=1")
  else
    expected_issuer ←
      (if String.eqb issuer "signing_cert_id" then Ok 3
       else c ← ca; if String.eqb c "PROCESSOR" then Ok 2 else Ok 4);
    issuer_id ← int issuer;
    if negb (issuer_id =? expected_issuer) then failed (where_ issuer ++ ": inconsistent issuer pointer")
    else
      root ← require (certificates !! root_id) (row_table row ++ ": missing root certificate join");
      signing ← require (certificates !! issuer_id) (row_table row ++ ": missing issuer certificate join");
      Ok (signing ++ root)%string.
End row.

Definition required_columns (table : string) : list string :=
  (if String.eqb table "pcs_version" then ["id"; "api_version"; "db_version"; "server_addr"]
   else if String.eqb table "platforms" then ["qe_id"; "pce_id"; "platform_manifest"; "enc_ppid"; "fmspc"; "ca"]
   else if String.eqb table "pck_cert" then ["qe_id"; "pce_id"; "tcbm"; "pck_cert"]
   else if String.eqb table "platform_tcbs" then ["qe_id"; "pce_id"; "cpu_svn"; "pce_svn"; "tcbm"]
   else if String.eqb table "pcs_certificates" then ["id"; "cert"; "crl"]
   else if String.eqb table "pck_certchain" then ["ca"; "root_cert_id"; "intmd_cert_id"]
   else if String.eqb table "fmspc_tcbs" then
     ["fmspc"; "type"; "version"; "update_type"; "tcbinfo"; "root_cert_id"; "signing_cert_id"]
   else if String.eqb table "enclave_identities" then
     ["id"; "version"; "update_type"; "identity"; "root_cert_id"; "signing_cert_id"]
   else if String.eqb table "pck_crl" then ["ca"; "pck_crl"; "root_cert_id"; "intmd_cert_id"]
   else if String.eqb table "crl_cache" then ["cdp_url"; "crl"]
   else if String.eqb table "platforms_registered" then
     ["qe_id"; "pce_id"; "cpu_svn"; "pce_svn"; "enc_ppid"; "platform_manifest"; "state"]
   else if String.eqb table "appraisal_policies" then ["id"; "type"; "policy"; "is_default"; "fmspc"]
   else [])%string.

(** ** Reading the snapshot *)

(** What a statement ends in: it cannot be prepared, it cannot be started, or
    each row is read or fails *)
Inductive query_result (A : Type) :=
| PrepareFailed (e : string)
| QueryFailed (e : string)
| Rows (rows : list (result string A)).
Arguments PrepareFailed {A} e.
Arguments QueryFailed {A} e.
Arguments Rows {A} rows.

(** A read-only connection in a transaction *)
Record Connection := {
  (** [SELECT name FROM sqlite_master WHERE type='table'] *)
  table_names : query_result string;
  (** the columns and rows of [SELECT * FROM table] *)
  column_names : string → list string;
  select_all : string → query_result (list SqlValue)
}.

Record Snapshot := {
  sn_rows : gmap string (list Row);
  sn_entries : gmap string string
}.

Definition in_list (s : string) (l : list string) : bool := existsb (String.eqb s) l.

(** [collect::<Result<Vec<_>, _>>] *)
Definition collect {A} (prefix : string) (rows : list (result string A)) : R (list A) :=
  try_map (λ r, map_err r (λ e, Failed (prefix ++ e))) rows.

Definition read_table (conn : Connection) (table : string) : R (list Row) :=
  match select_all conn table with
  | PrepareFailed e => failed ("read table " ++ table ++ ": " ++ e)
  | result =>
      let columns := column_names conn table in
      _ ← try_each (λ required, if in_list required columns then Ok ()
                                else failed (table ++ "." ++ required ++ ": missing required column"))
            (required_columns table);
      _ ← (if in_list table TABLES then
             try_each (λ column,
               if negb (in_list column (required_columns table))
                  && negb (String.eqb column "created_time" || String.eqb column "updated_time")
               then failed (table ++ "." ++ column ++ ": unsupported column") else Ok ()) columns
           else Ok ());
      match result with
      | PrepareFailed e => failed e
      | QueryFailed e => failed ("query " ++ table ++ ": " ++ e)
      | Rows rows =>
          values ← collect ("rows " ++ table ++ ": ") rows;
          let records := map (λ vs, {| row_table := table; row_fields := list_to_map (reverse (zip columns vs)) |}) values in
          if negb (in_list table TABLES) && negb (String.eqb table "umzug") && negb (length records =? 0)%nat
          then failed ("unsupported nonempty table: " ++ table)
          else Ok records
      end
  end.

Definition read_snapshot (conn : Connection) (source_hash : string) : R (Snapshot * ImportReport) :=
  tables ← match table_names conn with
           | PrepareFailed e => failed ("read schema: " ++ e)
           | QueryFailed e => failed ("read tables: " ++ e)
           | Rows rows => collect "read table names: " rows
           end;
  _ ← try_each (λ table, if in_list table tables then Ok ()
                         else failed ("missing required db_version=5 table: " ++ table)) TABLES;
  rows ← try_fold (λ rows table, records ← read_table conn table; Ok (<[table := records]> rows)) ∅ tables;
  versions ← expect (rows !! "pcs_version"%string);
  match versions with
  | [v] =>
      id ← int v "id";
      if negb (id =? 1) then failed "pcs_version must contain exactly the id=1 row"
      else
        db_version ← int v "db_version";
        api_version ← int v "api_version";
        if negb (db_version =? 5) || negb (api_version =? 4) then
          failed "only Intel db_version=5/api_version=4 snapshots are supported"
        else Ok ({| sn_rows := rows; sn_entries := ∅ |},
                 {| source_sha256 := source_hash; db_version := db_version; api_version := api_version;
                    source_rows := length <$> rows; destination_records := 0 |})
  | _ => failed "pcs_version must contain exactly the id=1 row"
  end.

(** ** Conversion

    The conversion threads the snapshot: it takes each table out of [sn_rows]
    and adds records to [sn_entries]. *)

Definition Import (A : Type) : Type := Snapshot → R (A * Snapshot).

#[export] Instance Import_bind : MBind Import := λ A B f c sn,
  match c sn with Ok (a, sn') => f a sn' | Err e => Err e end.

Definition give {A} (r : R A) : Import A := λ sn, match r with Ok a => Ok (a, sn) | Err e => Err e end.

(** [snapshot.rows[table]] *)
Definition table_rows (table : string) : Import (list Row) := λ sn,
  rows ← expect (sn_rows sn !! table); Ok (rows, sn).

(** [snapshot.rows.remove(table).unwrap()] *)
Definition remove_table (table : string) : Import (list Row) := λ sn,
  rows ← expect (sn_rows sn !! table);
  Ok (rows, {| sn_rows := delete table (sn_rows sn); sn_entries := sn_entries sn |}).

(** [entries.insert(key, bytes)], which must not replace *)
Definition insert_new (key bytes message : string) : Import unit := λ sn,
  match sn_entries sn !! key with
  | Some _ => failed message
  | None => Ok ((), {| sn_rows := sn_rows sn; sn_entries := <[key := bytes]> (sn_entries sn) |})
  end.

(** The cause of a failed serialization is not modelled. *)
Definition add_bytes (key : string) (bytes : option string) : Import unit :=
  bytes ← give (require bytes "serialize record: ");
  insert_new key bytes ("duplicate canonical destination key: " ++ key).

Definition add {A} `{Serde A} (key : string) (record : A) : Import unit := add_bytes key (to_vec record).

(** [for x in l { f(x)?; }] *)
Fixpoint for_each {A} (l : list A) (f : A → Import unit) : Import unit :=
  match l with
  | [] => give (Ok ())
  | x :: l' => _ ← f x; for_each l' f
  end.

(** The iteration order of a [BTreeMap] *)
Definition pair_key_le (x y : string * string * PlatformPool) : Prop :=
  (if String.eqb x.1.1 y.1.1 then key_le x.1.2 y.1.2 else key_le x.1.1 y.1.1) = true.
#[export] Instance pair_key_le_dec : RelDecision pair_key_le.
Proof. intros x y. unfold pair_key_le. apply _. Defined.

Definition list_key_le (x y : string * list AppraisalPolicy) : Prop := key_le x.1 y.1 = true.
#[export] Instance list_key_le_dec : RelDecision list_key_le.
Proof. intros x y. unfold list_key_le. apply _. Defined.

(** A byte range of a string; out of range it panics. *)
Definition slice_to (n : nat) (s : string) : option string :=
  if (n <=? String.length s)%nat then Some (String.substring 0 n s) else None.
Definition slice_from (n : nat) (s : string) : option string :=
  if (n <=? String.length s)%nat then Some (String.substring n (String.length s - n) s) else None.

(** Third-party formats: a DER [CertificateList], the bytes of
    [json!({policies})], the pretty JSON of the report *)
Class Formats := {
  crl_from_der : list Z → bool;
  policies_to_vec : list AppraisalPolicy → option string;
  report_to_vec_pretty : ImportReport → result string string
}.

Section convert.
Context {V : Type} `{Json V} `{Base64} `{Sha2} `{Formats}.
Context `{Serde PckCertRecord} `{Serde PlatformPool} `{Serde (TcbRecord V)} `{Serde (IdentityRecord V)}
  `{Serde PckCrlRecord} `{Serde (list Z)} `{Serde CrlRecord} `{Serde RegisteredPlatform}.

Definition signed_document (raw_body field : string) : R V :=
  document ← require (json_parse raw_body) (field ++ ": invalid JSON");
  match get_str document "signature" with
  | Some s => if is_empty s then failed (field ++ ": missing signature") else Ok document
  | None => failed (field ++ ": missing signature")
  end.

Definition der_crl (bytes : list Z) (table : string) : R (list Z) :=
  if crl_from_der bytes then Ok bytes else failed (table ++ ": invalid DER CRL").

(** *** [convert]: certificates and TCB infos *)

Definition read_certificate (certificates : gmap Z string) (row : Row) : R (gmap Z string) :=
  id ← int row "id";
  if negb ((1 <=? id) && (id <=? 4)) then failed "unsupported pcs_certificates id"
  else
    cert ← text row "cert";
    if is_empty cert || contains_char "013" cert || contains_char "010" cert
       || negb (starts_with "-----BEGIN%20CERTIFICATE-----" cert)
       || negb (contains "-----END%20CERTIFICATE-----" cert)
    then failed "pcs_certificates.cert: expected URL-encoded PEM"
    else match certificates !! id with
         | Some _ => failed "pcs_certificates: duplicate id"
         | None => Ok (<[id := cert]> certificates)
         end.

Definition tcb_record (certificates : gmap Z string) (row : Row) : R (TcbRecord V) :=
  raw_body ← text row "tcbinfo";
  tcbinfo ← signed_document raw_body "fmspc_tcbs.tcbinfo";
  type ← int row "type";
  prod_type ← (if type =? 0 then Ok 0 else if type =? 1 then Ok 1 else failed "fmspc_tcbs: unsupported type");
  fmspc ← hex_field row "fmspc" 12;
  version ← version row;
  info ← require (jget tcbinfo "tcbInfo") "fmspc_tcbs: missing tcbInfo";
  let expected_id := if prod_type =? 0 then "SGX"%string else "TDX"%string in
  let valid_id := bool_decide (get_str info "id" = Some expected_id)
    || (version =? 3) && (prod_type =? 0) && bool_decide (jget info "id" = None) in
  if negb (bool_decide (to_upper <$> get_str info "fmspc" = Some fmspc)) || negb valid_id then
    failed "fmspc_tcbs: document identity does not match row"
  else
    update_type ← update row;
    issuer_chain ← chain row certificates "signing_cert_id";
    Ok {| tr_prod_type := prod_type; tr_fmspc := fmspc; tr_version := version; tr_update_type := update_type;
          tr_tcbinfo := tcbinfo; tr_raw_body := raw_body; tr_issuer_chain := issuer_chain |}.

(** *** [convert_platforms] *)

Definition read_chain (certificates : gmap Z string) (chains : gmap string string) (row : Row) :
    R (gmap string string) :=
  c ← ca row;
  s ← chain row certificates "intmd_cert_id";
  match chains !! c with
  | Some _ => failed "pck_certchain: duplicate canonical CA"
  | None => Ok (<[c := s]> chains)
  end.

Abbreviation Pools := (gmap (string * string) PlatformPool).

Definition read_platform (chains : gmap string string) (pools : Pools) (row : Row) : R Pools :=
  key ← platform_key row;
  creds ← credentials row;
  f ← nullable_text row "fmspc";
  let fmspc := to_upper f in
  if negb (is_empty fmspc) && (negb (String.length fmspc =? 12)%nat || negb (str_all is_hexdigit fmspc)) then
    failed "platforms.fmspc: invalid hex identifier"
  else
    c ← nullable_text row "ca";
    ca ← (if is_empty c then Ok ""%string else ca row);
    let pool := {| pp_qe_id := key.1; pp_pce_id := key.2; pp_enc_ppid := creds.1;
                   pp_platform_manifest := creds.2; pp_fmspc := fmspc; pp_ca := ca;
                   pp_issuer_chain := default ""%string (chains !! ca); pp_certs := []; pp_raw_tcbs := [] |} in
    match pools !! key with
    | Some _ => failed "platforms: duplicate canonical platform"
    | None => Ok (<[key := pool]> pools)
    end.

Definition push_cert (pool : PlatformPool) (c : PlatformCert) : PlatformPool :=
  {| pp_qe_id := pp_qe_id pool; pp_pce_id := pp_pce_id pool; pp_enc_ppid := pp_enc_ppid pool;
     pp_platform_manifest := pp_platform_manifest pool; pp_fmspc := pp_fmspc pool; pp_ca := pp_ca pool;
     pp_issuer_chain := pp_issuer_chain pool; pp_certs := pp_certs pool ++ [c]; pp_raw_tcbs := pp_raw_tcbs pool |}.

Definition metadata_error : R unit := failed "pck_cert: certificate metadata/TCBm does not match platform row".

(** The chain of [||]: each test runs only if the ones before it passed. *)
Definition check_metadata (parsed : PckCertInfo) (pool : PlatformPool) (tcbm : string) : R unit :=
  if negb (PckCert.version parsed =? 3) || negb (String.eqb (PckCert.pce_id parsed) (pp_pce_id pool))
     || negb (String.eqb (PckCert.fmspc parsed) (pp_fmspc pool)) || negb (String.eqb (PckCert.ca parsed) (pp_ca pool))
  then metadata_error
  else
    cpusvn ← expect (slice_to 32 tcbm);
    if negb (String.eqb (PckCert.cpusvn parsed) cpusvn) then metadata_error
    else
      low ← expect (slice_from 32 tcbm);
      pcesvn ← require (little_endian_hex_to_int low) "pck_cert: invalid TCBm";
      if negb (PckCert.pcesvn parsed =? pcesvn) then metadata_error else Ok ().

Definition read_pck_cert (st : Pools * gmap (string * string) string) (row : Row) :
    R (Pools * gmap (string * string) string) :=
  let '(pools, ppids) := st in
  key ← platform_key row;
  pool ← require (pools !! key) "pck_cert: missing platform join";
  tcbm ← hex_field row "tcbm" 36;
  cert ← text row "pck_cert";
  parsed ← map_err (parse_pck_cert cert) (λ _, Failed "pck_cert: invalid SGX PCK certificate");
  _ ← check_metadata parsed pool tcbm;
  if is_empty (pp_issuer_chain pool) then failed "pck_cert: missing issuer chain join"
  else if match ppids !! key with
          | Some previous => negb (String.eqb previous (PckCert.ppid parsed))
          | None => false
          end then
    failed "pck_cert: mixed PPIDs in a platform pool"
  else if existsb (λ c, String.eqb (plc_tcbm c) tcbm) (pp_certs pool) then
    failed "pck_cert: duplicate canonical TCBm"
  else
    let c := {| plc_tcbm := tcbm; plc_cert := cert |} in
    Ok (<[key := push_cert pool c]> pools, <[key := PckCert.ppid parsed]> ppids).

(** The GET record of a level of a platform *)
Definition level_record (pool : PlatformPool) (cpu_svn pce_svn tcbm cert : string) : PckCertRecord :=
  {| pc_qeid := pp_qe_id pool; pc_pceid := pp_pce_id pool; pc_cpusvn := cpu_svn; pc_pcesvn := pce_svn;
     pc_cert := cert; pc_tcbm := tcbm; pc_fmspc := pp_fmspc pool; pc_ca := pp_ca pool;
     pc_issuer_chain := pp_issuer_chain pool;
     pc_encrypted_ppid := if is_empty (pp_enc_ppid pool) then None else Some (pp_enc_ppid pool);
     pc_platform_manifest := pp_platform_manifest pool |}.

Definition push_raw_tcb (pool : PlatformPool) (r : RawTcb) : PlatformPool :=
  with_raw_tcbs pool (pp_raw_tcbs pool ++ [r]).

Definition read_platform_tcb (pools : Pools) (row : Row) : Import Pools :=
  key ← give (platform_key row);
  pool ← give (require (pools !! key) "platform_tcbs: missing platform join");
  cpu_svn ← give (hex_field row "cpu_svn" 32);
  pce_svn ← give (hex_field row "pce_svn" 4);
  tcbm ← give (hex_field row "tcbm" 36);
  cert ← give (require (List.find (λ c, String.eqb (plc_tcbm c) tcbm) (pp_certs pool))
                 "platform_tcbs: missing PCK certificate join");
  if existsb (λ r, String.eqb (rt_cpu_svn r) cpu_svn && String.eqb (rt_pce_svn r) pce_svn) (pp_raw_tcbs pool) then
    give (failed "platform_tcbs: duplicate canonical raw TCB")
  else
    let rec := level_record pool cpu_svn pce_svn tcbm (plc_cert cert) in
    _ ← add (rec_key rec) rec;
    give (Ok (<[key := push_raw_tcb pool {| rt_cpu_svn := cpu_svn; rt_pce_svn := pce_svn; rt_tcbm := tcbm |}]> pools)).

Fixpoint fold_import {A B} (f : B → A → Import B) (acc : B) (l : list A) : Import B :=
  match l with
  | [] => give (Ok acc)
  | x :: l' => acc' ← f acc x; fold_import f acc' l'
  end.

Definition into_pools (pools : Pools) : list PlatformPool :=
  map snd (merge_sort pair_key_le (map_to_list pools)).

Definition convert_platforms (certificates : gmap Z string) : Import unit :=
  chain_rows ← remove_table "pck_certchain";
  chains ← give (try_fold (read_chain certificates) ∅ chain_rows);
  platform_rows ← remove_table "platforms";
  pools ← give (try_fold (read_platform chains) ∅ platform_rows);
  cert_rows ← remove_table "pck_cert";
  filled ← give (try_fold read_pck_cert (pools, ∅) cert_rows);
  tcb_rows ← remove_table "platform_tcbs";
  pools ← fold_import read_platform_tcb (fst filled) tcb_rows;
  for_each (into_pools pools) (λ pool, add (platform (pp_qe_id pool) (pp_pce_id pool)) pool).

(** *** [convert_collateral] *)

Definition identity_record (certificates : gmap Z string) (row : Row) : R (IdentityRecord V) :=
  id ← int row "id";
  enclave_id ← (if (1 <=? id) && (id <=? 3) then Ok id else failed "enclave_identities: unsupported id");
  raw_body ← text row "identity";
  identity ← signed_document raw_body "enclave_identities.identity";
  let expected := if enclave_id =? 1 then "QE"%string else if enclave_id =? 2 then "QVE"%string else "TD_QE"%string in
  if negb (bool_decide (pointer2 identity "enclaveIdentity" "id" ≫= as_str = Some expected)) then
    failed "enclave_identities: document identity does not match row"
  else
    version ← version row;
    update_type ← update row;
    issuer_chain ← chain row certificates "signing_cert_id";
    Ok {| ir_enclave_id := enclave_id; ir_version := version; ir_update_type := update_type;
          ir_identity := identity; ir_raw_body := raw_body; ir_issuer_chain := issuer_chain |}.

Definition add_root_crl (row : Row) : Import unit :=
  crl ← give (blob row "crl");
  if (length crl =? 0)%nat then give (Ok ())
  else
    id ← give (int row "id");
    if negb (id =? 1) then give (failed "pcs_certificates: unsupported non-root CRL")
    else
      crl ← give (der_crl crl "pcs_certificates.crl");
      bytes ← give (require (to_vec crl) "");
      insert_new rootcacrl bytes "duplicate root CA CRL".

Definition pckcrl_record (certificates : gmap Z string) (row : Row) : R PckCrlRecord :=
  ca ← ca row;
  b ← blob row "pck_crl";
  crl ← der_crl b "pck_crl";
  issuer_chain ← chain row certificates "intmd_cert_id";
  Ok {| cr_ca := ca; cr_pckcrl := crl; cr_issuer_chain := issuer_chain |}.

Definition crl_record (row : Row) : R CrlRecord :=
  uri ← text row "cdp_url";
  if negb (is_valid_crl_uri uri) then failed "crl_cache: unsupported CDP URI"
  else
    b ← blob row "crl";
    crl ← der_crl b "crl_cache";
    Ok {| crl_uri := uri; crl_crl := crl |}.

Definition convert_collateral (certificates : gmap Z string) : Import unit :=
  identities ← remove_table "enclave_identities";
  _ ← for_each identities (λ row,
        rec ← give (identity_record certificates row);
        add (identity (identity_name (ir_enclave_id rec)) (ir_version rec) (ir_update_type rec)) rec);
  certs ← table_rows "pcs_certificates";
  _ ← for_each certs add_root_crl;
  pck_crls ← remove_table "pck_crl";
  _ ← for_each pck_crls (λ row,
        rec ← give (pckcrl_record certificates row); add (pckcrl (cr_ca rec)) rec);
  crls ← remove_table "crl_cache";
  for_each crls (λ row, rec ← give (crl_record row); add (crl (crl_uri rec)) rec).

(** *** [convert_queue_and_policies] *)

Definition registered (row : Row) : R RegisteredPlatform :=
  key ← platform_key row;
  creds ← credentials row;
  n ← int row "state";
  state ← (if (n =? 0) || (n =? 1) || (n =? 9) then Ok n else failed "platforms_registered: unsupported state");
  c ← text row "cpu_svn";
  let cpu_svn := to_upper c in
  p ← text row "pce_svn";
  let pce_svn := to_upper p in
  if negb (is_empty cpu_svn) && (negb (String.length cpu_svn =? 32)%nat || negb (str_all is_hexdigit cpu_svn)) then
    failed "platforms_registered.cpu_svn: invalid raw SVN"
  else
    let hex_svn := (String.length pce_svn =? 4)%nat && str_all is_hexdigit pce_svn in
    let decimal_svn := ((state =? 1) || (state =? 9)) && str_all is_digit pce_svn
                       && bool_decide (is_Some (parse_uint u16_max pce_svn)) in
    if negb (is_empty pce_svn || hex_svn || decimal_svn) then
      failed "platforms_registered.pce_svn: invalid raw SVN"
    else Ok {| rp_qe_id := key.1; rp_pce_id := key.2; rp_cpu_svn := cpu_svn; rp_pce_svn := pce_svn;
               rp_enc_ppid := creds.1; rp_platform_manifest := creds.2; rp_state := state |}.

Definition policy_row (row : Row) : R AppraisalPolicy :=
  policy ← text row "policy";
  i ← hex_field row "id" 96;
  let id := to_lower i in
  if is_empty policy || negb (String.eqb id (sha384_hex policy)) then
    failed "appraisal_policies: policy hash mismatch"
  else
    t ← int row "type";
    policy_type ← (if (0 <=? t) && (t <=? 2) then Ok t else failed "appraisal_policies: unsupported type");
    d ← int row "is_default";
    is_default ← (if d =? 0 then Ok false else if d =? 1 then Ok true
                  else failed "appraisal_policies: unsupported is_default");
    fmspc ← hex_field row "fmspc" 12;
    Ok {| pol_id := id; pol_fmspc := fmspc; pol_is_default := is_default; pol_policy := policy;
          pol_type := policy_type |}.

Definition read_policy (policies : gmap string (list AppraisalPolicy)) (row : Row) :
    R (gmap string (list AppraisalPolicy)) :=
  p ← policy_row row;
  let entries := default [] (policies !! pol_fmspc p) in
  if existsb (λ q, String.eqb (pol_id q) (pol_id p)) entries then
    failed "appraisal_policies: duplicate canonical policy"
  else Ok (<[pol_fmspc p := entries ++ [p]]> policies).

Definition convert_queue_and_policies : Import unit :=
  queue ← remove_table "platforms_registered";
  _ ← for_each queue (λ row, rec ← give (registered row); add (reg_key rec) rec);
  rows ← remove_table "appraisal_policies";
  policies ← give (try_fold read_policy ∅ rows);
  for_each (merge_sort list_key_le (map_to_list policies))
    (λ x, add_bytes (appraisal x.1) (policies_to_vec x.2)).

Definition convert : Import unit :=
  certs ← table_rows "pcs_certificates";
  certificates ← give (try_fold read_certificate ∅ certs);
  tcbs ← remove_table "fmspc_tcbs";
  _ ← for_each tcbs (λ row, rec ← give (tcb_record certificates row); add (tcb_rec_key rec) rec);
  _ ← convert_platforms certificates;
  _ ← convert_collateral certificates;
  convert_queue_and_policies.
End convert.

(** ** Publication

    A path holds a directory with a database and a report in it, or something
    else.  Every operating-system call may fail; [Outcomes] says how each one
    ends.  What the write leaves in the database is not trusted: [o_written]
    is any database, and the read-back looks at it. *)

Inductive node (D : Type) :=
| Directory (database : option D) (report : option string)
| Foreign (id : Z).
Arguments Directory {D} database report.
Arguments Foreign {D} id.

Record Outcomes (D : Type) := {
  o_create : option string;
  o_open : option string;
  (** the database after a write batch that returned *)
  o_written : result string D;
  o_flush : option string;
  o_reopen : option string;
  o_report : option string;
  o_sync_report : option string;
  o_sync_staging : option string;
  o_rename : option string;
  o_sync_parent : option string;
  (** what the clean-up leaves behind *)
  o_left : option (node D)
}.
Arguments o_create {D} _. Arguments o_open {D} _. Arguments o_written {D} _. Arguments o_flush {D} _.
Arguments o_reopen {D} _. Arguments o_report {D} _. Arguments o_sync_report {D} _.
Arguments o_sync_staging {D} _. Arguments o_rename {D} _. Arguments o_sync_parent {D} _. Arguments o_left {D} _.

Section publish.
Context {D : Type} `{Database D} `{Formats}.

#[local] Abbreviation Fs := (gmap string (node D)).

(** Programs on the file system; a failure keeps what was done. *)
Definition IO (A : Type) : Type := Fs → Fs * R A.
#[local] Instance IO_bind : MBind IO := λ A B f c fs,
  match c fs with (fs', Ok a) => f a fs' | (fs', Err e) => (fs', Err e) end.
Definition done_ {A} (a : A) : IO A := λ fs, (fs, Ok a).
Definition stop {A} (message : string) : IO A := λ fs, (fs, failed message).
Definition lift_io {A} (r : R A) : IO A := λ fs, (fs, r).

Definition effect (f : Fs → Fs) : IO unit := λ fs, (f fs, Ok ()).
(** Clean-up on an error *)
Definition on_error {A} (f : Fs → Fs) (c : IO A) : IO A := λ fs,
  match c fs with (fs', Err e) => (f fs', Err e) | r => r end.

(** An operation that fails or has an effect *)
Definition attempt (outcome : option string) (prefix : string) (effect : Fs → Fs) : IO unit := λ fs,
  match outcome with Some e => (fs, failed (prefix ++ e)) | None => (effect fs, Ok ()) end.

Definition private_directory (o : Outcomes D) (path : string) : IO unit := λ fs,
  match fs !! path with
  | Some _ => (fs, failed "create private destination: exists")
  | None => attempt (o_create o) "create private destination: " (λ fs, <[path := Directory None None]> fs) fs
  end.

(** [renameat_with(.., NOREPLACE)] *)
Definition publish_directory (o : Outcomes D) (staging destination : string) : IO unit := λ fs,
  match o_rename o, fs !! staging, fs !! destination with
  | None, Some n, None => (<[destination := n]> (delete staging fs), Ok ())
  | _, _, _ => (fs, failed "publish destination: ")
  end.

Fixpoint verify (entries : gmap string string) (items : list (result unit (string * string))) : R nat :=
  match items with
  | [] => Ok O
  | Err _ :: _ => failed "readback staging: "
  | Ok (key, value) :: items' =>
      if negb (utf8_valid (bytes key)) then failed "invalid staging key"
      else if negb (bool_decide (entries !! key = Some value)) then
        failed "staging record failed byte-exact verification"
      else count ← verify entries items'; Ok (S count)
  end.

(** The database in a directory *)
Definition database_in (fs : Fs) (path : string) : option D :=
  match fs !! path with Some (Directory d _) => d | _ => None end.

Definition set_database (path : string) (d : D) (fs : Fs) : Fs := <[path := Directory (Some d) None]> fs.

Definition set_report (path report : string) (fs : Fs) : Fs :=
  <[path := Directory (database_in fs path) (Some report)]> fs.

Definition staged (entries : gmap string string) (report : ImportReport) (o : Outcomes D)
    (before_rename : Fs → Fs) (staging destination : string) : IO unit :=
  _ ← attempt (o_open o) "open staging RocksDB: " id;
  d ← lift_io (map_err (o_written o) (λ e, Failed ("write staging RocksDB: " ++ e)));
  _ ← effect (set_database staging d);
  _ ← attempt (o_flush o) "flush staging RocksDB: " id;
  _ ← attempt (o_reopen o) "reopen staging: " id;
  count ← lift_io (verify entries (db_iter d ""%string));
  if negb (count =? size entries)%nat then stop "staging record count mismatch"
  else
    bytes ← lift_io (map_err (report_to_vec_pretty report) (λ e, Failed ("report: " ++ e)));
    _ ← attempt (o_report o) "write report: " (set_report staging bytes);
    _ ← attempt (o_sync_report o) "sync report: " id;
    _ ← attempt (o_sync_staging o) "sync staging directory: " id;
    _ ← effect before_rename;
    _ ← publish_directory o staging destination;
    attempt (o_sync_parent o)
      "destination published but parent directory sync failed; inspect before retry: " id.

Definition remove_dir_all (o : Outcomes D) (path : string) (fs : Fs) : Fs :=
  match fs !! path with Some _ => partial_alter (λ _, o_left o) path fs | None => fs end.

(** [before_rename] is what other processes do in between. *)
Definition publish_with (entries : gmap string string) (report : ImportReport) (o : Outcomes D)
    (before_rename : Fs → Fs) (staging destination : string) : IO unit :=
  _ ← private_directory o staging;
  on_error (remove_dir_all o staging) (staged entries report o before_rename staging destination).

(** What the source file and its SQLite connection answer, in order *)
Record Source := {
  is_regular_file : result string bool;
  has_sidecar : string → bool;
  hash_before : result string string;
  open_read_only : option string;
  begin_transaction : option string;
  integrity_check : result string string;
  connection : Connection;
  hash_after : result string string
}.

Context {V : Type} `{Json V} `{Base64} `{Sha2}.
Context `{Serde PckCertRecord} `{Serde PlatformPool} `{Serde (TcbRecord V)} `{Serde (IdentityRecord V)}
  `{Serde PckCrlRecord} `{Serde (list Z)} `{Serde CrlRecord} `{Serde RegisteredPlatform}.

(** The part of [import_intel] that only reads *)
Definition convert_source (source : Source) : R (gmap string string * ImportReport) :=
  regular ← map_err (is_regular_file source) (λ e, Failed ("source metadata: " ++ e));
  if negb regular then failed "source must be a regular standalone SQLite snapshot"
  else if existsb (has_sidecar source) ["-wal"; "-shm"; "-journal"]%string then
    failed "source has SQLite sidecars; use VACUUM INTO, not a live database"
  else
    source_hash ← map_err (hash_before source) (λ e, Failed ("hash source: " ++ e));
    _ ← match open_read_only source with Some e => failed ("open read-only SQLite: " ++ e) | None => Ok () end;
    _ ← match begin_transaction source with Some e => failed ("read transaction: " ++ e) | None => Ok () end;
    integrity ← map_err (integrity_check source) (λ e, Failed ("SQLite integrity check: " ++ e));
    if negb (String.eqb integrity "ok") then failed "SQLite integrity check failed"
    else
      snapshot ← read_snapshot (connection source) source_hash;
      let '(sn, report) := snapshot in
      converted ← convert (V := V) sn;
      hash ← map_err (hash_after source) (λ e, Failed ("hash source: " ++ e));
      if negb (String.eqb hash (source_sha256 report)) then
        failed "source changed during import; obtain a stable snapshot"
      else
        let entries := sn_entries (snd converted) in
        Ok (entries, {| source_sha256 := source_sha256 report; db_version := db_version report;
                        api_version := api_version report; source_rows := source_rows report;
                        destination_records := size entries |}).

Definition import_intel (source : Source) (o : Outcomes D) (before_rename : Fs → Fs)
    (staging destination : string) : IO ImportReport := λ fs,
  match fs !! destination with
  | Some _ => (fs, failed "destination already exists; use a fresh directory")
  | None =>
      match convert_source source with
      | Err e => (fs, Err e)
      | Ok (entries, report) =>
          match publish_with entries report o before_rename staging destination fs with
          | (fs', Ok _) => (fs', Ok report)
          | (fs', Err e) => (fs', Err e)
          end
      end
  end.
End publish.
