(* ===== verification/ImportSpec.v ===== *)
(** * ImportSpec: an imported snapshot is complete, coherent and atomic

    Publication either leaves the destination alone or puts the whole verified
    database there in one step; the conversion loses no row, keeps the signed
    documents byte for byte and establishes the invariant between platform
    pools and GET records that the service maintains; and no snapshot makes it
    panic. *)

From Stdlib Require Import ZArith Lia.
From stdpp Require Import base list strings option gmap sorting.
From S2P Require Import Prelude Text Errors Validate Env PckCert Selection Keys Database Fifo FifoSpec Records Platforms Registry Collateral IntelImport.

Local Open Scope Z_scope.
#[local] Set Default Proof Using "Type*".

(** ** Publication *)

Lemma map_ok_inj {E A} (l l' : list A) : map (@Ok E A) l = map Ok l' → l = l'.
Proof. revert l'. induction l as [|x l IH]; intros [|y l'] [=]; [done|]. f_equal; auto. Qed.

Section publication.
Context {D : Type} `{DatabaseLaws D} `{Formats}.

Lemma verify_ok entries items n :
  verify entries items = Ok n →
  ∃ l, items = map Ok l ∧ length l = n ∧ ∀ k v, (k, v) ∈ l → entries !! k = Some v.
Proof.
  revert n. induction items as [|[[k v]|e] items IH]; intros n; cbn [verify]; [|  |done].
  { intros [= <-]. exists []. split_and!; [done..|]. by intros k v ?%not_elem_of_nil. }
  destruct (utf8_valid _); cbn [negb]; [|done].
  destruct (bool_decide _) eqn:Ee; cbn [negb]; [|done]. apply bool_decide_eq_true in Ee.
  destruct (verify entries items) as [m|e] eqn:Ev; [|done]. intros [= <-].
  destruct (IH m eq_refl) as (l & -> & Hl & Hin). exists ((k, v) :: l). split_and!; [done|cbn; lia|].
  intros k' v' [[= -> ->]|Hkv]%elem_of_cons; [done|by apply Hin].
Qed.

(** A database read back entry by entry, as many times as there are entries,
    holds those entries and no others. *)
Lemma verified_content entries (d : D) :
  verify entries (db_iter d "") = Ok (size entries) → content d = entries.
Proof.
  intros (l & Ei & Hl & Hin)%verify_ok.
  destruct (db_iter_ok d "") as (full & [Hsort Hfull] & [Eit|(l1 & more & e & rest & _ & Eit)]).
  2: { exfalso. rewrite Ei in Eit. assert (Hx : Err e ∈ map Ok l) by (rewrite Eit; apply elem_of_app; right; left).
       by apply list_elem_of_fmap in Hx as (x & [=] & _). }
  rewrite Ei in Eit. apply map_ok_inj in Eit as <-.
  assert (HN : NoDup l.*1).
  { clear -Hsort. induction Hsort as [|x l Hs IH HF]; [constructor|]. apply NoDup_cons. split; [|done].
    intros (y & E & Hy)%list_elem_of_fmap. rewrite list.Forall_forall in HF. by apply (HF y Hy). }
  assert (Hc : ∀ k v, content d !! k = Some v → entries !! k = Some v).
  { intros k v Hk. apply Hin, Hfull. done. }
  assert (Hs : content d = list_to_map l).
  { apply map_eq. intros k. apply option_eq. intros v. rewrite <- elem_of_list_to_map by done.
    rewrite Hfull. split; [done|by intros [? _]]. }
  apply map_subseteq_size_eq; [by apply map_subseteq_spec|].
  rewrite Hs, map_size_list_to_map by done. lia.
Qed.

Definition published (entries : gmap string string) (n : option (node D)) : Prop :=
  ∃ d report, n = Some (Directory (Some d) (Some report)) ∧ content d = entries.

(** Running the steps one by one *)
Lemma staged_run entries report (o : Outcomes D) hook staging destination fs fs' r :
  fs !! staging = Some (Directory None None) →
  staged entries report o hook staging destination fs = (fs', r) →
  (∃ e n, r = Err e ∧ fs' = <[staging := n]> fs) ∨
  ∃ d bytes, content d = entries ∧
    let seen := hook (<[staging := Directory (Some d) (Some bytes)]> fs) in
    (∃ e, r = Err e ∧ fs' = seen) ∨
    (∃ n, seen !! staging = Some n ∧ seen !! destination = None ∧
       fs' = <[destination := n]> (delete staging seen) ∧ (r = Ok () ∨ o_sync_parent o ≠ None)).
Proof.
  intros Hs. unfold staged, mbind, IO_bind, attempt, effect, lift_io, stop.
  assert (Hid : fs = <[staging := Directory None None]> fs) by (by rewrite insert_id).
  destruct (o_open o); [intros [= <- <-]; left; by eauto|].
  destruct (o_written o) as [d|]; cbn; [|intros [= <- <-]; left; by eauto].
  destruct (o_flush o); [intros [= <- <-]; left; unfold set_database; by eauto|].
  destruct (o_reopen o); [intros [= <- <-]; left; unfold set_database; by eauto|].
  destruct (verify _ _) as [n|] eqn:Ev; cbn; [|intros [= <- <-]; left; unfold set_database; by eauto].
  destruct (n =? size entries)%nat eqn:En; cbn; [|intros [= <- <-]; left; unfold set_database; by eauto].
  apply Nat.eqb_eq in En as ->. apply verified_content in Ev.
  destruct (report_to_vec_pretty report) as [bytes|]; cbn; [|intros [= <- <-]; left; unfold set_database; by eauto].
  destruct (o_report o); [intros [= <- <-]; left; unfold set_database; by eauto|].
  assert (Er : set_report staging bytes (set_database staging d fs) = <[staging := Directory (Some d) (Some bytes)]> fs).
  { unfold set_report, set_database, database_in. by rewrite lookup_insert_eq, insert_insert_eq. }
  unfold id. rewrite Er.
  destruct (o_sync_report o); [intros [= <- <-]; left; by eauto|].
  destruct (o_sync_staging o); [intros [= <- <-]; left; by eauto|].
  intros Hp. right. exists d, bytes. split; [done|]. cbv zeta. revert Hp.
  unfold publish_directory. set (seen := hook _).
  destruct (o_rename o); [intros [= <- <-]; left; by eauto|].
  destruct (seen !! staging) as [n|] eqn:En; [|intros [= <- <-]; left; by eauto].
  destruct (seen !! destination) eqn:Ed; [intros [= <- <-]; left; by eauto|].
  destruct (o_sync_parent o); intros [= <- <-]; right; exists n; auto.
Qed.

Lemma publish_atomic entries report (o : Outcomes D) hook staging destination fs fs' r :
  staging ≠ destination → fs !! staging = None → (∀ g, hook g !! staging = g !! staging) →
  publish_with entries report o hook staging destination fs = (fs', r) →
  (o_left o = None → fs' !! staging = None) ∧
  ∃ seen, (seen = fs ∨ ∃ d bytes, seen = hook (<[staging := Directory (Some d) (Some bytes)]> fs)) ∧
    ((∃ e, r = Err e ∧ ∀ p, p ≠ staging → fs' !! p = seen !! p) ∨
     (seen !! destination = None ∧ published entries (fs' !! destination) ∧ fs' !! staging = None ∧
      (∀ p, p ≠ staging → p ≠ destination → fs' !! p = seen !! p) ∧ (r = Ok () ∨ o_sync_parent o ≠ None))).
Proof.
  intros Hsd Hnone Hhook. unfold publish_with, private_directory, attempt, mbind, IO_bind, on_error.
  rewrite Hnone. destruct (o_create o).
  { intros [= <- <-]. split; [done|]. exists fs. split; [by left|]. left. by eauto. }
  destruct (staged _ _ _ _ _ _ _) as [fs1 r1] eqn:Es. apply staged_run in Es; [|by rewrite lookup_insert_eq].
  assert (Hrm : ∀ g, (o_left o = None → remove_dir_all o staging g !! staging = None) ∧
                     ∀ p, p ≠ staging → remove_dir_all o staging g !! p = g !! p).
  { intros g. unfold remove_dir_all. destruct (g !! staging) eqn:E; [|done]. split.
    - intros ->. by rewrite lookup_partial_alter_eq.
    - intros p Hp. by rewrite lookup_partial_alter_ne. }
  destruct Es as [(e & n & -> & ->)|(d & bytes & Hd & [(e & -> & ->)|(n & Hn & Hdest & -> & Hr)])];
    rewrite ?insert_insert_eq in *.
  - intros [= <- <-]. split; [apply Hrm|]. exists fs. split; [by left|]. left. exists e. split; [done|].
    intros p Hp. rewrite (proj2 (Hrm _)) by done. by rewrite lookup_insert_ne.
  - intros [= <- <-]. split; [apply Hrm|]. eexists. split; [right; by eauto|]. left. exists e. split; [done|].
    intros p Hp. by rewrite (proj2 (Hrm _)).
  - rewrite Hhook, lookup_insert_eq in Hn. injection Hn as <-.
    set (seen := hook _) in *. set (fs2 := <[destination := _]> _) in *.
    assert (H2 : fs2 !! staging = None) by (unfold fs2; rewrite lookup_insert_ne by done; apply lookup_delete_eq).
    assert (Hrm2 : remove_dir_all o staging fs2 = fs2) by (unfold remove_dir_all; by rewrite H2).
    intros Hrun. assert (fs' = fs2 ∧ r = r1) as [-> ->] by (destruct r1; injection Hrun as <- <-; by rewrite ?Hrm2).
    split; [done|]. exists seen. split; [right; by eauto|]. right. split_and!; [done| |done| |done].
    + unfold fs2. rewrite lookup_insert_eq. by exists d, bytes.
    + intros p Hp Hpd. unfold fs2. by rewrite lookup_insert_ne, lookup_delete_ne.
Qed.

Section import.
Context {V : Type} `{Json V} `{Base64} `{Sha2}.
Context `{Serde PckCertRecord} `{Serde PlatformPool} `{Serde (TcbRecord V)} `{Serde (IdentityRecord V)}
  `{Serde PckCrlRecord} `{Serde (list Z)} `{Serde CrlRecord} `{Serde RegisteredPlatform}.

(** C22: The import is atomic.  Whatever the calls of the operating system end in,
    and whatever other processes do in between (short of touching the private
    staging directory), an import either changes no path but the staging
    directory, or puts at the destination, where nothing was, a directory
    whose database holds exactly the converted entries and that carries the
    report.  It reports success only in the second case, and failure in the
    second case only when syncing the parent directory failed; the staging
    directory is gone unless the clean-up itself fails. *)
Theorem import_atomic (source : Source) (o : Outcomes D) hook staging destination fs fs' r :
  staging ≠ destination → fs !! staging = None → (∀ g, hook g !! staging = g !! staging) →
  import_intel (V := V) source o hook staging destination fs = (fs', r) →
  (o_left o = None → fs' !! staging = None) ∧
  ∃ seen, (seen = fs ∨ ∃ d bytes, seen = hook (<[staging := Directory (Some d) (Some bytes)]> fs)) ∧
    ((∃ e, r = Err e ∧ ∀ p, p ≠ staging → fs' !! p = seen !! p) ∨
     (∃ entries report, convert_source (V := V) source = Ok (entries, report) ∧
        seen !! destination = None ∧ published entries (fs' !! destination) ∧ fs' !! staging = None ∧
        (∀ p, p ≠ staging → p ≠ destination → fs' !! p = seen !! p) ∧
        (r = Ok report ∨ o_sync_parent o ≠ None))).
Proof.
  intros Hsd Hnone Hhook. unfold import_intel.
  destruct (fs !! destination) eqn:Ed.
  { intros [= <- <-]. split; [done|]. exists fs. split; [by left|]. left. by eauto. }
  destruct (convert_source source) as [[entries report]|e].
  2: { intros [= <- <-]. split; [done|]. exists fs. split; [by left|]. left. by eauto. }
  destruct (publish_with _ _ _ _ _ _ _) as [fs1 r1] eqn:Ep.
  destruct (publish_atomic _ _ _ _ _ _ _ _ _ Hsd Hnone Hhook Ep) as (Hleft & seen & Hseen & Hout).
  assert (Hr : ∀ x, (match r1 with Ok _ => (fs1, Ok report) | Err e => (fs1, Err e) end) = x →
    x = (fs1, match r1 with Ok _ => Ok report | Err e => Err e end)) by (intros x <-; by destruct r1).
  intros Hrun%Hr. injection Hrun as -> ->. split; [done|]. exists seen. split; [done|].
  destruct Hout as [(e & -> & Hp)|(Hd & Hpub & Hst & Hp & Hok)]; [left; by eauto|right].
  exists entries, report. split_and!; try done. destruct Hok as [->|?]; [by left|by right].
Qed.
End import.
End publication.

(** ** What a conversion adds *)

(** [sn'] is [sn] with the rows [l], under new and distinct keys. *)
Record added (sn sn' : Snapshot) (l : list (string * string)) : Prop := {
  ad_new : NoDup l.*1;
  ad_fresh k : k ∈ l.*1 → sn_entries sn !! k = None;
  ad_entries : sn_entries sn' = list_to_map l ∪ sn_entries sn
}.

Lemma added_nil sn : added sn sn [].
Proof. split; [constructor|by intros k ?%not_elem_of_nil|]. cbn. by rewrite map_empty_union. Qed.

Lemma fresh_disjoint (l : list (string * string)) (m : gmap string string) :
  (∀ k, k ∈ l.*1 → m !! k = None) → list_to_map l ##ₘ m.
Proof.
  intros F. apply map_disjoint_spec. intros k v w H1 H2. apply elem_of_list_to_map_2 in H1.
  rewrite F in H2; [done|]. by eapply list_elem_of_fmap_2'.
Qed.

Lemma added_app sn sn1 sn2 l1 l2 : added sn sn1 l1 → added sn1 sn2 l2 → added sn sn2 (l1 ++ l2).
Proof.
  intros [N1 F1 E1] [N2 F2 E2].
  assert (Hd : ∀ k, k ∈ l2.*1 → k ∉ l1.*1 ∧ sn_entries sn !! k = None).
  { intros k Hk%F2. rewrite E1 in Hk. apply lookup_union_None in Hk as [Hk ?]. split; [|done].
    by apply not_elem_of_list_to_map. }
  split.
  - rewrite fmap_app. apply NoDup_app. split_and!; [done| |done]. intros k H1 H2. by apply (Hd k H2).
  - intros k. rewrite fmap_app. intros [Hk|Hk]%elem_of_app; [by apply F1|by apply Hd].
  - rewrite E2, E1, list_to_map_app, (map_union_comm (list_to_map l1) (list_to_map l2)); [by rewrite map_union_assoc|].
    apply fresh_disjoint. intros k Hk. apply not_elem_of_list_to_map_1. intros Hk2. by destruct (Hd k Hk2).
Qed.

Lemma added_size sn sn' l : added sn sn' l → size (sn_entries sn') = (length l + size (sn_entries sn))%nat.
Proof.
  intros [N F ->]. rewrite map_size_disj_union by (by apply fresh_disjoint). by rewrite map_size_list_to_map.
Qed.

Lemma added_lookup sn sn' l k v : added sn sn' l → (k, v) ∈ l → sn_entries sn' !! k = Some v.
Proof. intros [N _ ->] Hk. apply lookup_union_Some_l. by apply elem_of_list_to_map. Qed.

Lemma added_keep sn sn' l k v : added sn sn' l → sn_entries sn !! k = Some v → sn_entries sn' !! k = Some v.
Proof.
  intros [N F ->] Hk. rewrite lookup_union_r; [done|]. apply not_elem_of_list_to_map. intros Hin.
  rewrite F in Hk by done. done.
Qed.

(** Records and the rows they are stored in *)
Definition stored {A} `{Serde A} (key : A → string) (recs : list A) (l : list (string * string)) : Prop :=
  Forall2 (λ rec kv, kv.1 = key rec ∧ to_vec rec = Some kv.2) recs l.

Lemma stored_app {A} `{Serde A} (key : A → string) recs1 recs2 l1 l2 :
  stored key recs1 l1 → stored key recs2 l2 → stored key (recs1 ++ recs2) (l1 ++ l2).
Proof. apply Forall2_app. Qed.

Lemma stored_elem {A} `{Serde A} (key : A → string) recs l rec :
  stored key recs l → rec ∈ recs → ∃ v, (key rec, v) ∈ l ∧ to_vec rec = Some v.
Proof.
  intros Hs Hr. induction Hs as [|r [k v] recs l [Hk Hv] _ IH]; [by apply not_elem_of_nil in Hr|].
  cbn in Hk, Hv. subst k. apply elem_of_cons in Hr as [->|Hr]; [exists v; split; [left|done]|].
  destruct (IH Hr) as (v' & Hin & Hv'). exists v'. split; [by right|done].
Qed.

(** ** Programs of the conversion, run *)

Lemma import_bind {A B} (c : Import A) (f : A → Import B) sn b sn' :
  (c ≫= f) sn = Ok (b, sn') ↔ ∃ a sn1, c sn = Ok (a, sn1) ∧ f a sn1 = Ok (b, sn').
Proof.
  unfold mbind, Import_bind. destruct (c sn) as [[a sn1]|e]; [|by split; [|intros (? & ? & ? & _)]].
  split; [by eauto|]. by intros (? & ? & [= -> ->] & ?).
Qed.

Lemma give_ok {A} (r : R A) sn a sn' : give r sn = Ok (a, sn') ↔ r = Ok a ∧ sn' = sn.
Proof. unfold give. destruct r; split; [by intros [= -> ->]|by intros [[= ->] ->]|done|by intros [? _]]. Qed.

Lemma remove_table_ok t sn rows sn' :
  remove_table t sn = Ok (rows, sn') →
  sn_rows sn !! t = Some rows ∧ sn_rows sn' = delete t (sn_rows sn) ∧ added sn sn' [].
Proof.
  unfold remove_table. destruct (sn_rows sn !! t) as [r|]; [|done]. intros [= -> <-]. split_and!; [done..|].
  split; [constructor|by intros k ?%not_elem_of_nil|]. cbn. by rewrite map_empty_union.
Qed.

Lemma table_rows_ok t sn rows sn' :
  table_rows t sn = Ok (rows, sn') → sn_rows sn !! t = Some rows ∧ sn' = sn.
Proof. unfold table_rows. destruct (sn_rows sn !! t); [|done]. by intros [= -> ->]. Qed.

Lemma insert_new_ok key bytes m sn sn' :
  insert_new key bytes m sn = Ok ((), sn') → sn_rows sn' = sn_rows sn ∧ added sn sn' [(key, bytes)].
Proof.
  unfold insert_new. destruct (sn_entries sn !! key) eqn:E; [done|]. intros [= <-]. split; [done|]. split.
  - apply NoDup_singleton.
  - by intros k ->%list_elem_of_singleton.
  - cbn. by rewrite insert_union_singleton_l.
Qed.

Lemma add_bytes_ok key b sn sn' :
  add_bytes key b sn = Ok ((), sn') →
  ∃ bytes, b = Some bytes ∧ sn_rows sn' = sn_rows sn ∧ added sn sn' [(key, bytes)].
Proof.
  unfold add_bytes. intros (bytes & sn1 & [Hb ->]%give_ok & Hi%insert_new_ok)%import_bind.
  exists bytes. split; [|done]. destruct b; [|done]. by injection Hb as ->.
Qed.

(** A loop that stores one record per element *)
Lemma for_each_stored {A B} `{Serde B} (f : A → R B) (key : B → string) xs sn sn' :
  for_each xs (λ x, rec ← give (f x); add (key rec) rec) sn = Ok ((), sn') →
  ∃ recs l, Forall2 (λ x rec, f x = Ok rec) xs recs ∧ stored key recs l ∧
    sn_rows sn' = sn_rows sn ∧ added sn sn' l.
Proof.
  revert sn. induction xs as [|x xs IH]; intros sn; cbn [for_each].
  - intros [_ ->]%give_ok. exists [], []. split_and!; [constructor|constructor|done|apply added_nil].
  - intros ([] & sn1 & (rec & sn2 & [Hf ->]%give_ok & Ha)%import_bind & Hr)%import_bind.
    apply add_bytes_ok in Ha as (v & Hv & Hrows & Ha).
    destruct (IH _ Hr) as (recs & l & HF & Hs & Hrows' & Had).
    exists (rec :: recs), ((key rec, v) :: l). split_and!; [by constructor|by constructor|congruence|].
    by apply (added_app _ sn1 _ [_] l).
Qed.

Lemma for_each_add {B} `{Serde B} (key : B → string) recs sn sn' :
  for_each recs (λ rec, add (key rec) rec) sn = Ok ((), sn') →
  ∃ l, stored key recs l ∧ sn_rows sn' = sn_rows sn ∧ added sn sn' l.
Proof.
  revert sn. induction recs as [|rec recs IH]; intros sn; cbn [for_each].
  - intros [_ ->]%give_ok. exists []. split_and!; [constructor|done|apply added_nil].
  - intros ([] & sn1 & (v & Hv & Hrows & Ha)%add_bytes_ok & Hr)%import_bind.
    destruct (IH _ Hr) as (l & Hs & Hrows' & Had). exists ((key rec, v) :: l).
    split_and!; [by constructor|congruence|]. by apply (added_app _ sn1 _ [_] l).
Qed.

Lemma R_bind_ok {A B} (c : R A) (f : A → R B) b : (c ≫= f) = Ok b ↔ ∃ a, c = Ok a ∧ f a = Ok b.
Proof.
  unfold mbind, R_bind. destruct c; [|by split; [|intros (? & ? & _)]]. split; [by eauto|]. by intros (? & [= ->] & ?).
Qed.

Lemma require_ok {A} (o : option A) m a : require o m = Ok a ↔ o = Some a.
Proof. unfold require, ok_or. destruct o; split; congruence. Qed.

Lemma expect_ok {A} (o : option A) a : expect o = Ok a ↔ o = Some a.
Proof. unfold expect, ok_or. destruct o; split; congruence. Qed.

Lemma map_err_ok {E F A} (c : result E A) (f : E → F) a : map_err c f = Ok a ↔ c = Ok a.
Proof. destruct c; cbn; split; congruence. Qed.

(** Opening a successful conversion of a row, step by step *)
Ltac row_ok H :=
  repeat match type of H with
  | (_ ≫= _) = Ok _ => let a := fresh "a" in let E := fresh "E" in apply R_bind_ok in H as (a & E & H)
  | (if ?b then _ else _) = Ok _ => let E := fresh "E" in destruct b eqn:E; try discriminate H
  | (match ?x with _ => _ end) = Ok _ => let E := fresh "E" in destruct x eqn:E; try discriminate H
  | failed _ = Ok _ => discriminate H
  end.

Section pools.
Context `{Base64}.

(** *** Platform pools *)

(** The certificate is the one its platform and TCBm say. *)
Definition describes (pce fmspc ca tcbm cert : string) : Prop :=
  ∃ info, parse_pck_cert cert = Ok info ∧ PckCert.version info = 3 ∧ PckCert.pce_id info = pce ∧
    PckCert.fmspc info = fmspc ∧ PckCert.ca info = ca ∧
    slice_to 32 tcbm = Some (PckCert.cpusvn info) ∧
    slice_from 32 tcbm ≫= little_endian_hex_to_int = Some (PckCert.pcesvn info).

Definition pool_cert (pool : PlatformPool) (c : PlatformCert) : Prop :=
  describes (pp_pce_id pool) (pp_fmspc pool) (pp_ca pool) (plc_tcbm c) (plc_cert c).

Lemma check_metadata_ok info pool tcbm cert :
  parse_pck_cert cert = Ok info → check_metadata info pool tcbm = Ok () →
  describes (pp_pce_id pool) (pp_fmspc pool) (pp_ca pool) tcbm cert.
Proof.
  intros Hp Hc. unfold check_metadata, metadata_error in Hc. row_ok Hc. bool_to_prop.
  apply expect_ok in E0, E2. apply require_ok in E3. exists info. split_and!; try done; [by rewrite E0; f_equal|].
  rewrite E2. cbn. rewrite E3. by f_equal.
Qed.

(** A pool under its key, before any level is tracked *)
Record pool_named (key : string * string) (pool : PlatformPool) : Prop := {
  pn_qe : pp_qe_id pool = key.1;
  pn_pce : pp_pce_id pool = key.2;
  pn_certs c : c ∈ pp_certs pool → pool_cert pool c
}.

Definition pools_named (pools : gmap (string * string) PlatformPool) : Prop := ∀ key pool, pools !! key = Some pool → pool_named key pool.

Lemma read_platform_ok chains pools row pools' :
  read_platform chains pools row = Ok pools' → pools_named pools → (∀ k p, pools !! k = Some p → pp_raw_tcbs p = []) →
  pools_named pools' ∧ (∀ k p, pools' !! k = Some p → pp_raw_tcbs p = []) ∧
  ∃ key pool, platform_key row = Ok key ∧ pools !! key = None ∧ pools' = <[key := pool]> pools.
Proof.
  intros Hr Hn Hraw. unfold read_platform in Hr. row_ok Hr. injection Hr as <-.
  split_and!; [| |by eexists _, _].
  - intros k p. destruct (decide (a = k)) as [<-|Hne]; [|rewrite lookup_insert_ne by done; apply Hn].
    rewrite lookup_insert_eq. intros [= <-]. split; [done..|]. by intros c ?%not_elem_of_nil.
  - intros k p. destruct (decide (a = k)) as [<-|Hne]; [|rewrite lookup_insert_ne by done; apply Hraw].
    rewrite lookup_insert_eq. by intros [= <-].
Qed.

Lemma read_pck_cert_ok pools ppids row pools' ppids' :
  read_pck_cert (pools, ppids) row = Ok (pools', ppids') →
  pools_named pools → (∀ k p, pools !! k = Some p → pp_raw_tcbs p = []) →
  pools_named pools' ∧ (∀ k p, pools' !! k = Some p → pp_raw_tcbs p = []) ∧ dom pools' = dom pools.
Proof.
  intros Hr Hn Hraw. unfold read_pck_cert in Hr. row_ok Hr. injection Hr as <- <-.
  apply require_ok in E0. apply map_err_ok in E3. destruct a4. apply (check_metadata_ok _ _ _ a2) in E4; [|done].
  split_and!.
  - intros k p. destruct (decide (a = k)) as [<-|Hne]; [|rewrite lookup_insert_ne by done; apply Hn].
    rewrite lookup_insert_eq. intros [= <-]. destruct (Hn _ _ E0) as [N1 N2 N3]. split; [done..|].
    intros c [Hc| ->%list_elem_of_singleton]%elem_of_app; [by apply N3|done].
  - intros k p. destruct (decide (a = k)) as [<-|Hne]; [|rewrite lookup_insert_ne by done; apply Hraw].
    rewrite lookup_insert_eq. intros [= <-]. by apply Hraw in E0.
  - rewrite dom_insert_lookup_L; [done|by eexists].
Qed.

Lemma platforms_ok chains rows pools pools' :
  try_fold (read_platform chains) pools rows = Ok pools' →
  pools_named pools → (∀ k p, pools !! k = Some p → pp_raw_tcbs p = []) →
  pools_named pools' ∧ (∀ k p, pools' !! k = Some p → pp_raw_tcbs p = []) ∧
  size pools' = (length rows + size pools)%nat ∧ dom pools ⊆ dom pools' ∧
  ∀ row, row ∈ rows → ∃ key, platform_key row = Ok key ∧ key ∈ dom pools'.
Proof.
  revert pools. induction rows as [|row rows IH]; intros pools; cbn [try_fold].
  - intros [= ->] Hn Hr. split_and!; [done..|]. by intros row ?%not_elem_of_nil.
  - destruct (read_platform chains pools row) as [pools1|] eqn:E; [|done]. cbn. intros Hf Hn Hr.
    destruct (read_platform_ok _ _ _ _ E Hn Hr) as (Hn1 & Hr1 & key & pool & Hk & Hnone & ->).
    destruct (IH _ Hf Hn1 Hr1) as (Hn' & Hr' & Hsz & Hdom & Hall). split_and!; [done..| | |].
    + rewrite Hsz, map_size_insert_None by done. cbn. lia.
    + set_solver.
    + intros r [->|Hin]%elem_of_cons; [|by apply Hall]. exists key. split; [done|]. apply Hdom. set_solver.
Qed.

Lemma pck_certs_ok rows pools ppids pools' ppids' :
  try_fold read_pck_cert (pools, ppids) rows = Ok (pools', ppids') →
  pools_named pools → (∀ k p, pools !! k = Some p → pp_raw_tcbs p = []) →
  pools_named pools' ∧ (∀ k p, pools' !! k = Some p → pp_raw_tcbs p = []) ∧ dom pools' = dom pools.
Proof.
  revert pools ppids. induction rows as [|row rows IH]; intros pools ppids; cbn [try_fold].
  - by intros [= -> ->].
  - destruct (read_pck_cert (pools, ppids) row) as [[pools1 ppids1]|] eqn:E; [|done]. cbn. intros Hf Hn Hr.
    destruct (read_pck_cert_ok _ _ _ _ _ E Hn Hr) as (Hn1 & Hr1 & Hd1).
    destruct (IH _ _ Hf Hn1 Hr1) as (Hn' & Hr' & Hd'). split_and!; [done..|congruence].
Qed.
(** A level's row and the GET record made of it *)
Record level_row (row : Row) (rec : PckCertRecord) : Prop := {
  lr_key : platform_key row = Ok (pc_qeid rec, pc_pceid rec);
  lr_cpu : hex_field row "cpu_svn" 32 = Ok (pc_cpusvn rec);
  lr_pce : hex_field row "pce_svn" 4 = Ok (pc_pcesvn rec);
  lr_tcbm : hex_field row "tcbm" 36 = Ok (pc_tcbm rec);
  lr_cert : describes (pc_pceid rec) (pc_fmspc rec) (pc_ca rec) (pc_tcbm rec) (pc_cert rec)
}.

End pools.

Section levels.
Context `{Base64} `{SerdeLaws PckCertRecord}.

(** Every tracked level has its record. *)
Definition tracked (recs : list PckCertRecord) (pools : gmap (string * string) PlatformPool) : Prop :=
  ∀ key pool raw, pools !! key = Some pool → raw ∈ pp_raw_tcbs pool →
  ∃ rec, rec ∈ recs ∧ answers (pp_qe_id pool) (pp_pce_id pool) raw rec ∧ pc_tcbm rec = rt_tcbm raw.

Lemma read_platform_tcb_ok pools row sn pools' sn' :
  read_platform_tcb pools row sn = Ok (pools', sn') → pools_named pools →
  ∃ pool rec v,
    pools !! (pc_qeid rec, pc_pceid rec) = Some pool ∧ level_row row rec ∧ to_vec rec = Some v ∧
    sn_rows sn' = sn_rows sn ∧ added sn sn' [(rec_key rec, v)] ∧
    pools' = <[(pc_qeid rec, pc_pceid rec) := push_raw_tcb pool
      {| rt_cpu_svn := pc_cpusvn rec; rt_pce_svn := pc_pcesvn rec; rt_tcbm := pc_tcbm rec |}]> pools.
Proof.
  intros Hr Hn. unfold read_platform_tcb in Hr.
  apply import_bind in Hr as (key & ? & [Hk ->]%give_ok & Hr).
  apply import_bind in Hr as (pool & ? & [Hp ->]%give_ok & Hr). apply require_ok in Hp.
  apply import_bind in Hr as (cpu & ? & [Hc ->]%give_ok & Hr).
  apply import_bind in Hr as (pce & ? & [He ->]%give_ok & Hr).
  apply import_bind in Hr as (tcbm & ? & [Ht ->]%give_ok & Hr).
  apply import_bind in Hr as (cert & ? & [Hf ->]%give_ok & Hr). apply require_ok in Hf.
  destruct (existsb _ _); [by apply give_ok in Hr as [? _]|].
  apply import_bind in Hr as ([] & sn1 & (v & Hv & Hrows & Ha)%add_bytes_ok & [[= <-] ->]%give_ok).
  destruct (Hn _ _ Hp) as [N1 N2 N3]. apply List.find_some in Hf as [Hin Heq]. apply String.eqb_eq in Heq.
  destruct key as [q p]. cbn in N1, N2. subst q p.
  exists pool, (level_record pool cpu pce tcbm (plc_cert cert)), v. split_and!; try done. split; [done..|].
  unfold level_record. cbn. rewrite <- Heq. apply N3. by apply list_elem_of_In.
Qed.

Lemma pools_named_track pools key pool raw :
  pools_named pools → pools !! key = Some pool → pools_named (<[key := push_raw_tcb pool raw]> pools).
Proof.
  intros Hn Hp k p. destruct (decide (key = k)) as [<-|Hne]; [|rewrite lookup_insert_ne by done; apply Hn].
  rewrite lookup_insert_eq. intros [= <-]. by destruct (Hn _ _ Hp).
Qed.

Lemma tracked_track recs pools pool rec :
  pools_named pools → pools !! (pc_qeid rec, pc_pceid rec) = Some pool → tracked recs pools →
  tracked (recs ++ [rec]) (<[(pc_qeid rec, pc_pceid rec) := push_raw_tcb pool
    {| rt_cpu_svn := pc_cpusvn rec; rt_pce_svn := pc_pcesvn rec; rt_tcbm := pc_tcbm rec |}]> pools).
Proof.
  intros Hn Hp Ht k p raw. destruct (Hn _ _ Hp) as [N1 N2 _].
  destruct (decide ((pc_qeid rec, pc_pceid rec) = k)) as [<-|Hne].
  - rewrite lookup_insert_eq. intros [= <-]. cbn. intros [Hin| ->%list_elem_of_singleton]%elem_of_app.
    + destruct (Ht _ _ _ Hp Hin) as (r & Hr & Ha). exists r. split; [apply elem_of_app; by left|done].
    + exists rec. rewrite N1, N2. split_and!; [apply elem_of_app; right; left|done|done].
  - rewrite lookup_insert_ne by done. intros Hl Hin. destruct (Ht _ _ _ Hl Hin) as (r & Hr & Ha).
    exists r. split; [apply elem_of_app; by left|done].
Qed.

Lemma levels_ok rows pools sn pools' sn' recs0 :
  fold_import read_platform_tcb pools rows sn = Ok (pools', sn') → pools_named pools → tracked recs0 pools →
  ∃ recs l, Forall2 level_row rows recs ∧ stored rec_key recs l ∧ sn_rows sn' = sn_rows sn ∧ added sn sn' l ∧
    pools_named pools' ∧ tracked (recs0 ++ recs) pools' ∧ dom pools' = dom pools.
Proof.
  revert pools sn recs0. induction rows as [|row rows IH]; intros pools sn recs0; cbn [fold_import].
  - intros [[= ->] ->]%give_ok Hn Ht. exists [], []. rewrite app_nil_r.
    split_and!; [constructor|constructor|done|apply added_nil|done..].
  - intros (pools1 & sn1 & Hr & Hf)%import_bind Hn Ht.
    destruct (read_platform_tcb_ok _ _ _ _ _ Hr Hn) as (pool & rec & v & Hp & Hrow & Hv & Hrows & Ha & ->).
    destruct (IH _ _ (recs0 ++ [rec]) Hf) as (recs & l & HF & Hs & Hrows' & Had & Hn' & Ht' & Hdom);
      [by apply pools_named_track|by apply tracked_track|].
    exists (rec :: recs), ((rec_key rec, v) :: l).
    split_and!; [by constructor|by constructor|congruence|by apply (added_app _ sn1 _ [_] l)|done| |].
    + by rewrite <- app_assoc in Ht'.
    + rewrite Hdom. by rewrite dom_insert_lookup_L.
Qed.


End levels.

(** *** Records made of rows *)

Lemma update_ok row u : update row = Ok u → ∃ t, u = UpdateType_as_str t.
Proof. unfold update. intros Hr. row_ok Hr; injection Hr as <-; [by exists Standard|by exists Early]. Qed.

Section records.
Context {V : Type} `{Json V}.

Lemma signed_document_ok body f (v : V) : signed_document body f = Ok v → json_parse body = Some v.
Proof. unfold signed_document. intros Hr. row_ok Hr. injection Hr as <-. by apply require_ok in E. Qed.

(** A TCB info carries the signed document of its row, byte for byte. *)
Record tcb_row (row : Row) (rec : TcbRecord V) : Prop := {
  tb_type : int row "type" = Ok (tr_prod_type rec);
  tb_fmspc : hex_field row "fmspc" 12 = Ok (tr_fmspc rec);
  tb_version : version row = Ok (tr_version rec);
  tb_update : update row = Ok (tr_update_type rec);
  tb_body : text row "tcbinfo" = Ok (tr_raw_body rec);
  tb_json : json_parse (tr_raw_body rec) = Some (tr_tcbinfo rec);
  tb_chain : ∃ signing root, tr_issuer_chain rec = (signing ++ root)%string
}.

Lemma chain_ok row certs issuer c : chain row certs issuer = Ok c → ∃ signing root, c = (signing ++ root)%string.
Proof. unfold chain. intros Hr. row_ok Hr; injection Hr as <-; by eexists _, _. Qed.

Lemma tcb_record_ok certs row rec : tcb_record certs row = Ok rec → tcb_row row rec.
Proof.
  unfold tcb_record. intros Hr.
  apply R_bind_ok in Hr as (body & E1 & Hr). apply R_bind_ok in Hr as (doc & E2%signed_document_ok & Hr).
  apply R_bind_ok in Hr as (ty & E3 & Hr). apply R_bind_ok in Hr as (prod & E4 & Hr).
  apply R_bind_ok in Hr as (f & E5 & Hr). apply R_bind_ok in Hr as (v & E6 & Hr).
  apply R_bind_ok in Hr as (info & _ & Hr). destruct (_ || _); [done|].
  apply R_bind_ok in Hr as (u & E7 & Hr). apply R_bind_ok in Hr as (c & E8 & Hr). injection Hr as <-.
  assert (ty = prod) as ->.
  { destruct (ty =? 0) eqn:T0; [|destruct (ty =? 1) eqn:T1; [|done]]; bool_to_prop; by injection E4 as <-. }
  split; try done. by eapply chain_ok.
Qed.

Record identity_row (row : Row) (rec : IdentityRecord V) : Prop := {
  id_id : int row "id" = Ok (ir_enclave_id rec);
  id_version : version row = Ok (ir_version rec);
  id_update : update row = Ok (ir_update_type rec);
  id_body : text row "identity" = Ok (ir_raw_body rec);
  id_json : json_parse (ir_raw_body rec) = Some (ir_identity rec)
}.

Lemma identity_record_ok certs row rec : identity_record certs row = Ok rec → identity_row row rec.
Proof.
  unfold identity_record. intros Hr.
  apply R_bind_ok in Hr as (i & E1 & Hr). apply R_bind_ok in Hr as (e & E2 & Hr).
  apply R_bind_ok in Hr as (body & E3 & Hr). apply R_bind_ok in Hr as (doc & E4%signed_document_ok & Hr).
  destruct (negb _); [done|].
  apply R_bind_ok in Hr as (v & E5 & Hr). apply R_bind_ok in Hr as (u & E6 & Hr).
  apply R_bind_ok in Hr as (c & _ & Hr). injection Hr as <-.
  assert (i = e) as -> by (destruct (_ && _); [by injection E2|done]). by split.
Qed.
End records.

Lemma der_crl_ok `{Formats} b t c : der_crl b t = Ok c → c = b.
Proof. unfold der_crl. destruct (crl_from_der b); [by intros [= ->]|done]. Qed.

Lemma pckcrl_record_ok `{Formats} certs row rec :
  pckcrl_record certs row = Ok rec → ca row = Ok (cr_ca rec) ∧ blob row "pck_crl" = Ok (cr_pckcrl rec).
Proof.
  unfold pckcrl_record. intros Hr. apply R_bind_ok in Hr as (c & E1 & Hr). apply R_bind_ok in Hr as (b & E2 & Hr).
  apply R_bind_ok in Hr as (d & ->%der_crl_ok & Hr). apply R_bind_ok in Hr as (i & _ & Hr). by injection Hr as <-.
Qed.

Lemma crl_record_ok `{Formats} row rec :
  crl_record row = Ok rec → text row "cdp_url" = Ok (crl_uri rec) ∧ blob row "crl" = Ok (crl_crl rec).
Proof.
  unfold crl_record. intros Hr. apply R_bind_ok in Hr as (u & E1 & Hr). destruct (negb _); [done|].
  apply R_bind_ok in Hr as (b & E2 & Hr). apply R_bind_ok in Hr as (d & ->%der_crl_ok & Hr). by injection Hr as <-.
Qed.

(** ** The phases of the conversion *)

(** *** Policies *)

Section policies.
Context `{Sha2}.

(** The policies are grouped by FMSPC, in the order of their rows. *)
Definition grouped (ps : list AppraisalPolicy) (m : gmap string (list AppraisalPolicy)) : Prop :=
  dom m = list_to_set (map pol_fmspc ps) ∧
  ∀ f l, m !! f = Some l → l = List.filter (λ p, String.eqb (pol_fmspc p) f) ps.

Lemma grouped_snoc ps m p :
  grouped ps m → grouped (ps ++ [p]) (<[pol_fmspc p := default [] (m !! pol_fmspc p) ++ [p]]> m).
Proof.
  intros [Hd Hm]. split.
  - rewrite dom_insert_L, Hd, map_app, list_to_set_app_L. cbn. set_solver.
  - intros f l. rewrite List.filter_app. cbn. destruct (decide (pol_fmspc p = f)) as [<-|Hne].
    + rewrite lookup_insert_eq, String.eqb_refl. intros [= <-]. f_equal.
      destruct (m !! pol_fmspc p) as [l|] eqn:E; cbn; [by apply Hm|].
      apply not_elem_of_dom in E. rewrite Hd in E. symmetry.
      clear -E. induction ps as [|q ps IH]; [done|]. cbn in *. rewrite (proj2 (String.eqb_neq _ _)) by set_solver.
      apply IH. set_solver.
    + rewrite lookup_insert_ne by done. intros Hl%Hm. by rewrite (proj2 (String.eqb_neq _ _)), app_nil_r by done.
Qed.

Lemma policies_grouped rows m ps0 m' :
  try_fold read_policy m rows = Ok m' → grouped ps0 m →
  ∃ ps, Forall2 (λ row p, policy_row row = Ok p) rows ps ∧ grouped (ps0 ++ ps) m'.
Proof.
  revert m ps0. induction rows as [|row rows IH]; intros m ps0; cbn [try_fold].
  - intros [= ->] Hg. exists []. rewrite app_nil_r. split; [constructor|done].
  - destruct (read_policy m row) as [m1|] eqn:E; [|done]. cbn. intros Hf Hg.
    unfold read_policy in E. row_ok E. injection E as <-.
    destruct (IH _ (ps0 ++ [a]) Hf) as (ps & HF & Hg'); [by apply grouped_snoc|].
    exists (a :: ps). rewrite <- app_assoc in Hg'. split; [by constructor|done].
Qed.

End policies.

Lemma policy_lists_ok `{Formats} (ps : list (string * list AppraisalPolicy)) sn sn' :
  for_each ps (λ x, add_bytes (appraisal x.1) (policies_to_vec x.2)) sn = Ok ((), sn') →
  ∃ l, Forall2 (λ x kv, kv.1 = appraisal x.1 ∧ policies_to_vec x.2 = Some kv.2) ps l ∧ added sn sn' l.
Proof.
  revert sn. induction ps as [|x ps IH]; intros sn; cbn [for_each].
  - intros [_ ->]%give_ok. exists []. split; [constructor|apply added_nil].
  - intros ([] & sn1 & (v & Hv & Hrows & Ha)%add_bytes_ok & Hr)%import_bind.
    destruct (IH _ Hr) as (l & HF & Had). exists ((appraisal x.1, v) :: l).
    split; [by constructor|]. by apply (added_app _ sn1 _ [_] l).
Qed.

(** The row of a certificate that carries a CRL *)
Definition has_crl (row : Row) : bool := match blob row "crl" with Ok (_ :: _) => true | _ => false end.

Section phases.
Context {V : Type} `{Json V} `{Base64} `{Sha2} `{Formats}.
Context `{SerdeLaws PckCertRecord} `{SerdeLaws PlatformPool} `{SerdeLaws (TcbRecord V)} `{SerdeLaws (IdentityRecord V)}
  `{SerdeLaws PckCrlRecord} `{SerdeLaws (list Z)} `{SerdeLaws CrlRecord} `{SerdeLaws RegisteredPlatform}.

(** What each phase takes from the tables [T] and adds *)
Abbreviation Tables := (string → option (list Row)).

Record platforms_added (T : Tables) (prow trow : list Row) (recs : list PckCertRecord)
    (pools : gmap (string * string) PlatformPool) (ll lp : list (string * string)) : Prop := {
  pa_platforms : T "platforms"%string = Some prow;
  pa_levels : T "platform_tcbs"%string = Some trow;
  pa_recs : Forall2 level_row trow recs;
  pa_ll : stored rec_key recs ll;
  pa_lp : stored pool_key (into_pools pools) lp;
  pa_named : pools_named pools;
  pa_tracked : tracked recs pools;
  pa_size : size pools = length prow;
  pa_each row : row ∈ prow → ∃ key, platform_key row = Ok key ∧ key ∈ dom pools
}.

Record collateral_added (T : Tables) (certificates : gmap Z string) (idrow certrow krow crow : list Row)
    (ids : list (IdentityRecord V)) (kcrls : list PckCrlRecord) (crls : list CrlRecord)
    (li lr lk lc : list (string * string)) : Prop := {
  ca_ids : T "enclave_identities"%string = Some idrow;
  ca_idrecs : Forall2 (λ row rec, identity_record certificates row = Ok rec) idrow ids;
  ca_li : stored (λ rec, identity (identity_name (ir_enclave_id rec)) (ir_version rec) (ir_update_type rec)) ids li;
  ca_certs : T "pcs_certificates"%string = Some certrow;
  ca_roots : length lr = length (List.filter has_crl certrow);
  ca_root row b : row ∈ certrow → blob row "crl" = Ok b → b ≠ [] → ∃ v, (rootcacrl, v) ∈ lr ∧ to_vec b = Some v;
  ca_pckcrls : T "pck_crl"%string = Some krow;
  ca_krecs : Forall2 (λ row rec, pckcrl_record certificates row = Ok rec) krow kcrls;
  ca_lk : stored (λ rec, pckcrl (cr_ca rec)) kcrls lk;
  ca_crls : T "crl_cache"%string = Some crow;
  ca_crecs : Forall2 (λ row rec, crl_record row = Ok rec) crow crls;
  ca_lc : stored (λ rec, crl (crl_uri rec)) crls lc
}.

Record queue_added (T : Tables) (qrow polrow : list Row) (regs : list RegisteredPlatform)
    (ps : list AppraisalPolicy) (m : gmap string (list AppraisalPolicy)) (lq la : list (string * string)) : Prop := {
  qa_queue : T "platforms_registered"%string = Some qrow;
  qa_regs : Forall2 (λ row rec, registered row = Ok rec) qrow regs;
  qa_lq : stored reg_key regs lq;
  qa_policies : T "appraisal_policies"%string = Some polrow;
  qa_ps : Forall2 (λ row p, policy_row row = Ok p) polrow ps;
  qa_grouped : grouped ps m;
  qa_la : Forall2 (λ x kv, kv.1 = appraisal x.1 ∧ policies_to_vec x.2 = Some kv.2)
            (merge_sort list_key_le (map_to_list m)) la
}.

Record tcbs_added (T : Tables) (certificates : gmap Z string) (trow : list Row)
    (tcbs : list (TcbRecord V)) (lt : list (string * string)) : Prop := {
  ta_tcbs : T "fmspc_tcbs"%string = Some trow;
  ta_recs : Forall2 (λ row rec, tcb_record certificates row = Ok rec) trow tcbs;
  ta_lt : stored tcb_rec_key tcbs lt
}.

Lemma convert_platforms_ok certs sn sn' :
  convert_platforms certs sn = Ok ((), sn') → ∃ prow trow recs pools ll lp,
    platforms_added (λ t, sn_rows sn !! t) prow trow recs pools ll lp ∧ added sn sn' (ll ++ lp) ∧
    sn_rows sn' = delete "platform_tcbs" (delete "pck_cert" (delete "platforms"
      (delete "pck_certchain" (sn_rows sn))))%string.
Proof.
  unfold convert_platforms.
  intros (chrow & s1 & (T1 & R1 & A1)%remove_table_ok & Hc)%import_bind.
  apply import_bind in Hc as (chains & ? & [Hchains ->]%give_ok & Hc).
  apply import_bind in Hc as (prow & s2 & (T2 & R2 & A2)%remove_table_ok & Hc).
  apply import_bind in Hc as (pools0 & ? & [Hpools ->]%give_ok & Hc).
  apply import_bind in Hc as (crow & s3 & (T3 & R3 & A3)%remove_table_ok & Hc).
  apply import_bind in Hc as ([pools1 ppids] & ? & [Hcerts ->]%give_ok & Hc).
  apply import_bind in Hc as (trow & s4 & (T4 & R4 & A4)%remove_table_ok & Hc).
  apply import_bind in Hc as (pools & s5 & Hlev & Hc). cbn [fst] in Hlev.
  destruct (platforms_ok _ _ _ _ Hpools) as (N0 & W0 & S0 & _ & E0); [done..|].
  destruct (pck_certs_ok _ _ _ _ _ Hcerts N0 W0) as (N1 & W1 & D1).
  destruct (levels_ok _ _ _ _ _ [] Hlev N1) as (recs & ll & HF & Hs & R5 & A5 & N5 & T5 & D5).
  { intros k p raw Hp. rewrite (W1 _ _ Hp). by intros ?%not_elem_of_nil. }
  apply (for_each_add pool_key) in Hc as (lp & Hlp & R6 & A6).
  exists prow, trow, recs, pools, ll, lp. split_and!; [split; try done| |congruence].
  - by rewrite R1, lookup_delete_ne in T2.
  - by rewrite R3, R2, R1, !lookup_delete_ne in T4.
  - rewrite <- size_dom, D5, D1, size_dom, S0, map_size_empty. lia.
  - intros row Hrow. rewrite D5, D1. by apply E0.
  - apply (added_app _ s5); [|done]. apply (added_app _ s4 _ [] ll); [|done]. apply (added_app _ s3 _ [] []); [|done].
    apply (added_app _ s2 _ [] []); [|done]. by apply (added_app _ s1 _ [] []).
Qed.

Lemma root_crls_ok rows sn sn' :
  for_each rows add_root_crl sn = Ok ((), sn') →
  ∃ l, length l = length (List.filter has_crl rows) ∧ sn_rows sn' = sn_rows sn ∧ added sn sn' l ∧
    (∀ row b, row ∈ rows → blob row "crl" = Ok b → b ≠ [] →
       ∃ v, (rootcacrl, v) ∈ l ∧ to_vec b = Some v).
Proof.
  revert sn. induction rows as [|row rows IH]; intros sn; cbn [for_each].
  - intros [_ ->]%give_ok. exists []. split_and!; [done..|apply added_nil|]. by intros row b ?%not_elem_of_nil.
  - intros ([] & sn1 & Ha & Hr)%import_bind. destruct (IH _ Hr) as (l & Hl & Hrows & Had & Hb). clear IH Hr.
    apply import_bind in Ha as (b & ? & [Eb ->]%give_ok & Ha). unfold has_crl in *. cbn [List.filter].
    rewrite Eb. destruct b as [|x b].
    + apply give_ok in Ha as [_ ->]. exists l. split_and!; [done..|].
      intros r b [->|Hin]%elem_of_cons; [rewrite Eb; by intros [= <-]|by apply Hb].
    + cbn [length Nat.eqb] in Ha. apply import_bind in Ha as (i & ? & [Ei ->]%give_ok & Ha).
      destruct (negb _); [by apply give_ok in Ha as [? _]|].
      apply import_bind in Ha as (c & ? & [Ec ->]%give_ok & Ha).
      assert (c = x :: b) as ->. { unfold der_crl in Ec. destruct (crl_from_der _); [by injection Ec|done]. }
      apply import_bind in Ha as (v & ? & [Ev ->]%give_ok & [R1 A1]%insert_new_ok). apply require_ok in Ev.
      exists ((rootcacrl, v) :: l). split_and!; [cbn; by rewrite Hl|congruence|by apply (added_app _ sn1 _ [_] l)|].
      intros r b' [->|Hin]%elem_of_cons Er Hne.
      * rewrite Eb in Er. injection Er as <-. exists v. split; [left|done].
      * destruct (Hb _ _ Hin Er Hne) as (v' & ? & ?). exists v'. split; [by right|done].
Qed.


Lemma convert_collateral_ok certs sn sn' :
  convert_collateral certs sn = Ok ((), sn') → ∃ idrow certrow krow crow ids kcrls crls li lr lk lc,
    collateral_added (λ t, sn_rows sn !! t) certs idrow certrow krow crow ids kcrls crls li lr lk lc ∧
    added sn sn' (li ++ lr ++ lk ++ lc) ∧
    sn_rows sn' = delete "crl_cache" (delete "pck_crl" (delete "enclave_identities" (sn_rows sn)))%string.
Proof.
  unfold convert_collateral.
  intros (idrow & s1 & (T1 & R1 & A1)%remove_table_ok & Hc)%import_bind.
  apply import_bind in Hc as ([] & s2 & Hids & Hc).
  apply (for_each_stored (identity_record certs)
    (λ rec, identity (identity_name (ir_enclave_id rec)) (ir_version rec) (ir_update_type rec)))
    in Hids as (ids & li & F2 & L2 & R2 & A2).
  apply import_bind in Hc as (certrow & ? & [T3 ->]%table_rows_ok & Hc).
  apply import_bind in Hc as ([] & s4 & (lr & N4 & R4 & A4 & B4)%root_crls_ok & Hc).
  apply import_bind in Hc as (krow & s5 & (T5 & R5 & A5)%remove_table_ok & Hc).
  apply import_bind in Hc as ([] & s6 & Hk & Hc).
  apply (for_each_stored (pckcrl_record certs) (λ rec, pckcrl (cr_ca rec))) in Hk as (kcrls & lk & F6 & L6 & R6 & A6).
  apply import_bind in Hc as (crow & s7 & (T7 & R7 & A7)%remove_table_ok & Hc).
  apply (for_each_stored crl_record (λ rec, crl (crl_uri rec))) in Hc as (crls & lc & F8 & L8 & R8 & A8).
  exists idrow, certrow, krow, crow, ids, kcrls, crls, li, lr, lk, lc.
  split_and!; [split; try done| |congruence].
  - by rewrite R2, R1, lookup_delete_ne in T3.
  - by rewrite R4, R2, R1, lookup_delete_ne in T5.
  - by rewrite R6, R5, R4, R2, R1, !lookup_delete_ne in T7.
  - apply (added_app _ s2 _ li); [by apply (added_app _ s1 _ [] li)|].
    apply (added_app _ s4 _ lr); [done|]. apply (added_app _ s6 _ lk); [by apply (added_app _ s5 _ [] lk)|].
    by apply (added_app _ s7 _ [] lc).
Qed.

Lemma convert_queue_ok sn sn' :
  convert_queue_and_policies sn = Ok ((), sn') → ∃ qrow polrow regs ps m lq la,
    queue_added (λ t, sn_rows sn !! t) qrow polrow regs ps m lq la ∧ added sn sn' (lq ++ la).
Proof.
  unfold convert_queue_and_policies.
  intros (qrow & s1 & (T1 & R1 & A1)%remove_table_ok & Hc)%import_bind.
  apply import_bind in Hc as ([] & s2 & Hq & Hc).
  apply (for_each_stored registered reg_key) in Hq as (regs & lq & F2 & L2 & R2 & A2).
  apply import_bind in Hc as (polrow & s3 & (T3 & R3 & A3)%remove_table_ok & Hc).
  apply import_bind in Hc as (m & ? & [Hm ->]%give_ok & Hc).
  destruct (policies_grouped _ _ [] _ Hm) as (ps & F4 & G4); [done|].
  apply policy_lists_ok in Hc as (la & F5 & A5).
  exists qrow, polrow, regs, ps, m, lq, la. split; [split; try done|].
  - by rewrite R2, R1, lookup_delete_ne in T3.
  - apply (added_app _ s2 _ lq); [by apply (added_app _ s1 _ [] lq)|]. by apply (added_app _ s3 _ [] la).
Qed.

(** A whole conversion: every table, and the rows it became *)
Lemma convert_ok sn sn' :
  convert (V := V) sn = Ok ((), sn') → let T t := sn_rows sn !! t in
  ∃ certificates trow tcbs lt prow lrow recs pools ll lp idrow certrow krow crow ids kcrls crls li lr lk lc
    qrow polrow regs ps m lq la,
    tcbs_added T certificates trow tcbs lt ∧ platforms_added T prow lrow recs pools ll lp ∧
    collateral_added T certificates idrow certrow krow crow ids kcrls crls li lr lk lc ∧
    queue_added T qrow polrow regs ps m lq la ∧
    added sn sn' (lt ++ (ll ++ lp) ++ (li ++ lr ++ lk ++ lc) ++ (lq ++ la)).
Proof.
  intros Hc T. unfold convert in Hc.
  apply import_bind in Hc as (certs & ? & [_ ->]%table_rows_ok & Hc).
  apply import_bind in Hc as (certificates & ? & [_ ->]%give_ok & Hc).
  apply import_bind in Hc as (trow & s1 & (T1 & R1 & A1)%remove_table_ok & Hc).
  apply import_bind in Hc as ([] & s2 & Ht & Hc).
  apply (for_each_stored (tcb_record certificates) tcb_rec_key) in Ht as (tcbs & lt & F2 & L2 & R2 & A2).
  apply import_bind in Hc as ([] & s3 & (prow & lrow & recs & pools & ll & lp & P3 & A3 & R3)%convert_platforms_ok & Hc).
  apply import_bind in Hc as ([] & s4 &
    (idrow & certrow & krow & crow & ids & kcrls & crls & li & lr & lk & lc & P4 & A4 & R4)%convert_collateral_ok & Hc).
  apply convert_queue_ok in Hc as (qrow & polrow & regs & ps & m & lq & la & P5 & A5).
  rewrite R1 in R2. rewrite R2 in R3. rewrite R3 in R4.
  exists certificates, trow, tcbs, lt, prow, lrow, recs, pools, ll, lp, idrow, certrow, krow, crow, ids, kcrls, crls,
    li, lr, lk, lc, qrow, polrow, regs, ps, m, lq, la.
  split_and!; [done| | | |].
  - destruct P3 as [Q1 Q2 ? ? ? ? ? ? ?]. rewrite R2, lookup_delete_ne in Q1, Q2 by done. done.
  - destruct P4 as [Q1 ? ? Q2 ? ? Q3 ? ? Q4 ? ?]. rewrite R3, !lookup_delete_ne in Q1, Q2, Q3, Q4 by done. done.
  - destruct P5 as [Q1 ? ? Q2 ? ? ?]. rewrite R4, !lookup_delete_ne in Q1, Q2 by done. done.
  - apply (added_app _ s2 _ lt); [by apply (added_app _ s1 _ [] lt)|].
    apply (added_app _ s3); [done|]. by apply (added_app _ s4).
Qed.

(** ** The properties of an import *)

Definition rows_of (sn : Snapshot) (table : string) : list Row := default [] (sn_rows sn !! table).

Lemma rows_of_some sn table rows : sn_rows sn !! table = Some rows → rows_of sn table = rows.
Proof. unfold rows_of. by intros ->. Qed.


(** *** Serving an imported store *)

Section served.
Context {D : Type} `{DatabaseLaws D} (s : Store D) (sn sn' : Snapshot).
Context (Hhealthy : healthy (db s)) (Hcontent : content (db s) = sn_entries sn').

Lemma read_imported {A} `{SerdeLaws A} k v (rec : A) :
  sn_entries sn' !! k = Some v → to_vec rec = Some v → read_json s k = Some rec.
Proof.
  intros Hk Hv. unfold read_json, get_json. rewrite healthy_get_raw, Hcontent, Hk by done. cbn.
  by apply serde_roundtrip.
Qed.

Lemma read_stored {A} `{SerdeLaws A} l (key : A → string) recs ls rec :
  added sn sn' l → stored key recs ls → (∀ kv, kv ∈ ls → kv ∈ l) → rec ∈ recs → read_json s (key rec) = Some rec.
Proof.
  intros Ha Hs Hl Hr. destruct (stored_elem _ _ _ _ Hs Hr) as (v & Hin & Hv).
  eapply read_imported; [|done]. eapply added_lookup; [done|]. by apply Hl.
Qed.

Lemma into_pools_elem (pools : gmap (string * string) PlatformPool) key pool :
  pools !! key = Some pool → pool ∈ into_pools pools.
Proof.
  intros Hp. unfold into_pools. apply (list_elem_of_fmap_2 snd _ (key, pool)).
  rewrite merge_sort_Permutation. by apply elem_of_map_to_list.
Qed.

(** C23: The imported platforms are coherent: each row of [platforms] is a pool
    that the store finds and whose tracked levels all have their GET record;
    each row of [platform_tcbs] is a hit of the GET it stands for, with a
    certificate that parses to the platform's PCE, FMSPC and CA and to the
    TCB the level's TCBm spells. *)
Theorem imported_platforms_coherent :
  sn_entries sn = ∅ → convert (V := V) sn = Ok ((), sn') →
  (∀ row, row ∈ rows_of sn "platforms" → ∃ key pool,
     platform_key row = Ok key ∧ get_platform_pool s key.1 key.2 = Some pool ∧ coherent (content (db s)) pool) ∧
  (∀ row, row ∈ rows_of sn "platform_tcbs" → ∃ rec,
     level_row row rec ∧ get_pckcert s (pc_qeid rec) (pc_cpusvn rec) (pc_pcesvn rec) (pc_pceid rec) = Some rec).
Proof.
  intros He (certificates & trow & tcbs & lt & prow & lrow & recs & pools & ll & lp & idrow & certrow & krow & crow &
    ids & kcrls & crls & li & lr & lk & lc & qrow & polrow & regs & ps & m & lq & la & _ & P2 & _ & _ & Ha)%convert_ok.
  destruct P2 as [T2 T3 F2 L2 L3 N Ht S3 E3].
  rewrite (rows_of_some _ _ _ T2), (rows_of_some _ _ _ T3).
  assert (Hll : ∀ kv, kv ∈ ll → kv ∈ lt ++ (ll ++ lp) ++ (li ++ lr ++ lk ++ lc) ++ (lq ++ la)) by set_solver.
  assert (Hlp : ∀ kv, kv ∈ lp → kv ∈ lt ++ (ll ++ lp) ++ (li ++ lr ++ lk ++ lc) ++ (lq ++ la)) by set_solver.
  split.
  - intros row (key & Hk & [pool Hp]%elem_of_dom)%E3. destruct (N _ _ Hp) as [N1 N2 _]. exists key, pool.
    split_and!; [done| |].
    + unfold get_platform_pool. rewrite <- N1, <- N2. fold (pool_key pool).
      rewrite (read_stored _ _ _ _ pool Ha L3 Hlp) by (by eapply into_pools_elem). cbn.
      by rewrite !eq_ic_refl.
    + intros raw Hraw. destruct (Ht _ _ _ Hp Hraw) as (rec & Hrec & Hans & Htcbm).
      destruct (stored_elem _ _ _ _ L2 Hrec) as (v & Hin & Hv). exists v, rec.
      rewrite <- (answers_key _ _ _ _ Hans), Hcontent.
      split_and!; [by eapply added_lookup; [|apply Hll]|by apply serde_roundtrip|done|by rewrite Htcbm].
  - intros row Hrow. apply list_elem_of_lookup_1 in Hrow as [i Hi].
    destruct (Forall2_lookup_l _ _ _ _ _ F2 Hi) as (rec & Hrec & Hlr). exists rec. split; [done|].
    unfold get_pckcert. fold (rec_key rec).
    rewrite (read_stored _ _ _ _ rec Ha L2 Hll) by (by eapply list_elem_of_lookup_2). cbn. by rewrite !eq_ic_refl.
Qed.

Lemma rows_served {A} (P : Row → A → Prop) rows recs row :
  Forall2 P rows recs → row ∈ rows → ∃ rec, rec ∈ recs ∧ P row rec.
Proof.
  intros HF [i Hi]%list_elem_of_lookup_1. destruct (Forall2_lookup_l _ _ _ _ _ HF Hi) as (rec & Hrec & HP).
  exists rec. split; [by eapply list_elem_of_lookup_2|done].
Qed.

(** The imported collateral is served verbatim: each TCB info and each
    identity under its own product, version and update channel with the signed
    document of its row byte for byte, each PCK CRL under its CA, the root CRL,
    and each cached CRL under its URI. *)
Theorem imported_collateral_served :
  sn_entries sn = ∅ → convert (V := V) sn = Ok ((), sn') →
  (∀ row, row ∈ rows_of sn "fmspc_tcbs" → ∃ rec u, tcb_row row rec ∧ tr_update_type rec = UpdateType_as_str u ∧
     get_tcb s (tr_prod_type rec) (tr_fmspc rec) (tr_version rec) u = Some rec) ∧
  (∀ row, row ∈ rows_of sn "enclave_identities" → ∃ rec u, identity_row row rec ∧
     ir_update_type rec = UpdateType_as_str u ∧
     get_identity s (ir_enclave_id rec) (ir_version rec) u = Some rec) ∧
  (∀ row, row ∈ rows_of sn "pck_crl" → ∃ rec, ca row = Ok (cr_ca rec) ∧
     blob row "pck_crl" = Ok (cr_pckcrl rec) ∧ get_pckcrl s (cr_ca rec) = Some rec) ∧
  (∀ row b, row ∈ rows_of sn "pcs_certificates" → blob row "crl" = Ok b → b ≠ [] → get_rootcacrl s = Some b) ∧
  (∀ row, row ∈ rows_of sn "crl_cache" → ∃ uri b, text row "cdp_url" = Ok uri ∧
     blob row "crl" = Ok b ∧ get_crl s uri = Some b).
Proof.
  intros He (certificates & trow & tcbs & lt & prow & lrow & recs & pools & ll & lp & idrow & certrow & krow & crow &
    ids & kcrls & crls & li & lr & lk & lc & qrow & polrow & regs & ps & m & lq & la & P1 & _ & P3 & _ & Ha)%convert_ok.
  destruct P1 as [T1 F1 L1], P3 as [T4 F4 L4 T5 _ B5 T6 F6 L6 T7 F7 L7].
  rewrite (rows_of_some _ _ _ T1), (rows_of_some _ _ _ T4), (rows_of_some _ _ _ T5), (rows_of_some _ _ _ T6),
    (rows_of_some _ _ _ T7).
  set (l := lt ++ _) in Ha.
  split_and!.
  - intros row Hrow. destruct (rows_served _ _ _ _ F1 Hrow) as (rec & Hin & Hr%tcb_record_ok).
    destruct (update_ok _ _ (tb_update _ _ Hr)) as [u Hu]. exists rec, u. split_and!; [done..|].
    unfold get_tcb. rewrite <- Hu. fold (tcb_rec_key rec).
    rewrite (read_stored l _ _ _ rec Ha L1) by (done || set_solver). cbn. by rewrite !Z.eqb_refl, !eq_ic_refl.
  - intros row Hrow. destruct (rows_served _ _ _ _ F4 Hrow) as (rec & Hin & Hr%identity_record_ok).
    destruct (update_ok _ _ (id_update _ _ Hr)) as [u Hu]. exists rec, u. split_and!; [done..|].
    unfold get_identity. rewrite <- Hu.
    rewrite (read_stored l _ _ _ rec Ha L4) by (done || set_solver). cbn. by rewrite !Z.eqb_refl, !eq_ic_refl.
  - intros row Hrow. destruct (rows_served _ _ _ _ F6 Hrow) as (rec & Hin & [Hc Hb]%pckcrl_record_ok).
    exists rec. split_and!; [done..|]. unfold get_pckcrl.
    rewrite (read_stored l (λ rec, pckcrl (cr_ca rec)) _ _ rec Ha L6) by (done || set_solver). cbn. by rewrite eq_ic_refl.
  - intros row b Hrow Hb Hne. destruct (B5 _ _ Hrow Hb Hne) as (v & Hin & Hv). unfold get_rootcacrl.
    eapply read_imported; [|done]. eapply added_lookup; [done|]. set_solver.
  - intros row Hrow. destruct (rows_served _ _ _ _ F7 Hrow) as (rec & Hin & [Hu Hb]%crl_record_ok).
    exists (crl_uri rec), (crl_crl rec). split_and!; [done..|]. unfold get_crl.
    by rewrite (read_stored l (λ rec, crl (crl_uri rec)) _ _ rec Ha L7) by (done || set_solver).
Qed.
End served.
End phases.

(** ** No panic *)

Definition fine {A} (r : R A) : Prop := r ≠ Err Panic.

Lemma fine_bind {A B} (c : R A) (f : A → R B) : fine c → (∀ a, c = Ok a → fine (f a)) → fine (c ≫= f).
Proof. unfold fine, mbind, R_bind. destruct c as [a|[]]; naive_solver. Qed.

Lemma fine_ok {A} (a : A) : fine (Ok a).
Proof. done. Qed.
Lemma fine_failed {A} m : fine (failed (A := A) m).
Proof. done. Qed.
Lemma fine_require {A} (o : option A) m : fine (require o m).
Proof. by destruct o. Qed.
Lemma fine_map_err {E A} (c : result E A) f : fine (map_err c (λ e, Failed (f e))).
Proof. by destruct c. Qed.
Lemma fine_expect {A} (o : option A) : is_Some o → fine (expect o).
Proof. by intros [a ->]. Qed.

Lemma fine_fold {A B} (f : B → A → R B) acc l : (∀ acc x, fine (f acc x)) → fine (try_fold f acc l).
Proof.
  intros Hf. revert acc. induction l as [|x l IH]; intros acc; [done|]. cbn [try_fold]. specialize (Hf acc x).
  destruct (f acc x) as [a|e]; [apply IH|]. cbn. intros [= ->]. by destruct Hf.
Qed.

Lemma fine_each {A} (f : A → R unit) l : (∀ x, fine (f x)) → fine (try_each f l).
Proof.
  intros Hf. induction l as [|x l IH]; [done|]. cbn [try_each]. specialize (Hf x).
  destruct (f x) as [a|e]; [apply IH|]. cbn. intros [= ->]. by destruct Hf.
Qed.

Lemma fine_collect {A} p (rows : list (result string A)) : fine (collect p rows).
Proof.
  unfold collect. induction rows as [|[a|e] rows IH]; [done|..]; cbn; [|done].
  destruct (try_map _ rows) as [l|[]]; by try done.
Qed.

Create HintDb fine.
#[local] Hint Resolve fine_ok fine_failed fine_require fine_map_err fine_collect : fine.

(** Follow a conversion through its binds and tests. *)
Ltac fine_walk :=
  repeat match goal with
  | |- fine (let _ := _ in _) => cbv zeta
  | |- fine (_ ≫= _) => apply fine_bind; [|intros ? ?]
  | |- fine (if ?b then _ else _) => destruct b eqn:?
  | |- fine (match ?x with _ => _ end) => destruct x eqn:?
  end; auto with fine.

Lemma fine_text row c : fine (text row c).
Proof. unfold text, value. fine_walk. Qed.
Lemma fine_nullable row c : fine (nullable_text row c).
Proof. unfold nullable_text, text, value. fine_walk. Qed.
Lemma fine_blob row c : fine (blob row c).
Proof. unfold blob, value. fine_walk. Qed.
Lemma fine_int row c : fine (int row c).
Proof. unfold int, value. fine_walk. Qed.
#[local] Hint Resolve fine_text fine_nullable fine_blob fine_int : fine.
Lemma fine_hex row f n : fine (hex_field row f n).
Proof. unfold hex_field. fine_walk. Qed.
Lemma fine_version row : fine (version row).
Proof. unfold version. fine_walk. Qed.
Lemma fine_update row : fine (update row).
Proof. unfold update. fine_walk. Qed.
Lemma fine_ca row : fine (ca row).
Proof. unfold ca. fine_walk. Qed.
#[local] Hint Resolve fine_hex fine_version fine_update fine_ca : fine.
Lemma fine_platform_key row : fine (platform_key row).
Proof. unfold platform_key, qeid. fine_walk. Qed.
Lemma fine_credentials row : fine (credentials row).
Proof. unfold credentials. fine_walk. Qed.
Lemma fine_chain row certs issuer : fine (chain row certs issuer).
Proof. unfold chain. fine_walk. Qed.
#[local] Hint Resolve fine_platform_key fine_credentials fine_chain : fine.

Section fine_rows.
Context {V : Type} `{Json V} `{Base64} `{Sha2} `{Formats}.

Lemma fine_signed body f : fine (signed_document (V := V) body f).
Proof. unfold signed_document. fine_walk. Qed.
Lemma fine_der b t : fine (der_crl b t).
Proof. unfold der_crl. fine_walk. Qed.
#[local] Hint Resolve fine_signed fine_der : fine.
Lemma fine_certificate certs row : fine (read_certificate certs row).
Proof. unfold read_certificate. fine_walk. Qed.
Lemma fine_tcb certs row : fine (tcb_record (V := V) certs row).
Proof. unfold tcb_record. fine_walk. Qed.
Lemma fine_identity certs row : fine (identity_record (V := V) certs row).
Proof. unfold identity_record. fine_walk. Qed.
Lemma fine_pckcrl certs row : fine (pckcrl_record certs row).
Proof. unfold pckcrl_record. fine_walk. Qed.
Lemma fine_crl row : fine (crl_record row).
Proof. unfold crl_record. fine_walk. Qed.
Lemma fine_registered row : fine (registered row).
Proof. unfold registered. fine_walk. Qed.
Lemma fine_policy m row : fine (read_policy m row).
Proof. unfold read_policy, policy_row. fine_walk. Qed.
Lemma fine_read_chain certs chains row : fine (read_chain certs chains row).
Proof. unfold read_chain. fine_walk. Qed.
Lemma fine_platform chains pools row : fine (read_platform chains pools row).
Proof. unfold read_platform. fine_walk. Qed.

(** The slices of a TCBm are in range: the field has 36 hexadecimal digits. *)
Lemma hex_field_length row f n t : hex_field row f n = Ok t → String.length t = n.
Proof.
  unfold hex_field. intros Hr. row_ok Hr. injection Hr as <-. apply orb_false_iff in E0 as [E0 _].
  bool_to_prop. by rewrite to_upper_length.
Qed.

Lemma fine_metadata info pool tcbm : String.length tcbm = 36%nat → fine (check_metadata info pool tcbm).
Proof.
  intros Hl. unfold check_metadata, metadata_error. fine_walk; apply fine_expect;
    unfold slice_to, slice_from; rewrite Hl; by eexists.
Qed.

Lemma fine_pck_cert st row : fine (read_pck_cert st row).
Proof.
  unfold read_pck_cert. fine_walk. apply fine_metadata. by eapply hex_field_length.
Qed.
End fine_rows.

(** A conversion step that finds the tables [need], and removes [gone] *)
Definition calm {A} (need gone : gset string) (c : Import A) : Prop :=
  ∀ sn, need ⊆ dom (sn_rows sn) → fine (c sn) ∧
    ∀ a sn', c sn = Ok (a, sn') → dom (sn_rows sn) ∖ gone ⊆ dom (sn_rows sn').

Lemma calm_bind {A B} n1 g1 n2 g2 (c : Import A) (f : A → Import B) :
  calm n1 g1 c → (∀ a, calm n2 g2 (f a)) → n2 ## g1 → calm (n1 ∪ n2) (g1 ∪ g2) (c ≫= f).
Proof.
  intros Hc Hf Hd sn Hn. destruct (Hc sn) as [Hfine Hdom]; [set_solver|].
  unfold mbind, Import_bind. destruct (c sn) as [[a sn1]|e] eqn:E.
  2: { split; [|done]. intros [= ->]. by apply Hfine. }
  specialize (Hdom _ _ eq_refl). destruct (Hf a sn1) as [Hfine2 Hdom2]; [set_solver|]. split; [done|].
  intros b sn2 Hb. specialize (Hdom2 _ _ Hb). set_solver.
Qed.

Lemma calm_weaken {A} n g n' g' (c : Import A) : calm n g c → n ⊆ n' → g ⊆ g' → calm n' g' c.
Proof.
  intros Hc Hn Hg sn Hs. destruct (Hc sn) as [Hf Hd]; [set_solver|]. split; [done|]. intros a sn' E.
  specialize (Hd _ _ E). set_solver.
Qed.

Lemma calm_give {A} (r : R A) : fine r → calm ∅ ∅ (give r).
Proof.
  intros Hr sn _. unfold give. destruct r as [a|e]; split.
  - done.
  - intros b sn' [= _ <-]. set_solver.
  - intros [= ->]. by apply Hr.
  - done.
Qed.

Lemma calm_rows t : calm {[t]} ∅ (table_rows t).
Proof.
  intros sn Hn. unfold table_rows. assert (t ∈ dom (sn_rows sn)) as [rows E]%elem_of_dom by set_solver. rewrite E.
  split; [done|]. intros a sn' [= _ <-]. set_solver.
Qed.

Lemma calm_remove t : calm {[t]} {[t]} (remove_table t).
Proof.
  intros sn Hn. unfold remove_table. assert (t ∈ dom (sn_rows sn)) as [rows E]%elem_of_dom by set_solver. rewrite E.
  split; [done|]. intros a sn' [= _ <-]. cbn. rewrite dom_delete_L. set_solver.
Qed.

Lemma calm_insert k v m : calm ∅ ∅ (insert_new k v m).
Proof.
  intros sn _. unfold insert_new. destruct (sn_entries sn !! k); split; try done. intros a sn' [= _ <-]. set_solver.
Qed.

(** Steps that need no table *)
Lemma calm_bind0 {A B} (c : Import A) (f : A → Import B) : calm ∅ ∅ c → (∀ a, calm ∅ ∅ (f a)) → calm ∅ ∅ (c ≫= f).
Proof.
  intros Hc Hf. eapply calm_weaken; [apply (calm_bind ∅ ∅ ∅ ∅); [done|done|set_solver]|set_solver..].
Qed.

Lemma calm_add {A} `{Serde A} k (rec : A) : calm ∅ ∅ (add k rec).
Proof. apply calm_bind0; [apply calm_give, fine_require|]. intros v. apply calm_insert. Qed.

Lemma calm_each {A} (l : list A) f : (∀ x, calm ∅ ∅ (f x)) → calm ∅ ∅ (for_each l f).
Proof.
  intros Hf. induction l as [|x l IH]; [by apply calm_give|]. cbn [for_each]. by apply calm_bind0.
Qed.

Lemma calm_fold {A B} (f : B → A → Import B) acc l : (∀ acc x, calm ∅ ∅ (f acc x)) → calm ∅ ∅ (fold_import f acc l).
Proof.
  intros Hf. revert acc. induction l as [|x l IH]; intros acc; [by apply calm_give|]. cbn [fold_import].
  by apply calm_bind0.
Qed.

(** A table taken first *)
Lemma calm_take {A} t n g (f : list Row → Import A) :
  (∀ rows, calm n g (f rows)) → t ∉ n → calm ({[t]} ∪ n) ({[t]} ∪ g) (remove_table t ≫= f).
Proof. intros Hf Ht. apply calm_bind; [apply calm_remove|done|set_solver]. Qed.

Lemma calm_then {A B} n g (c : Import A) (f : A → Import B) :
  calm ∅ ∅ c → (∀ a, calm n g (f a)) → calm n g (c ≫= f).
Proof.
  intros Hc Hf. eapply calm_weaken; [apply (calm_bind ∅ ∅ n g); [done|done|set_solver]|set_solver..].
Qed.

Section calm_phases.
Context {V : Type} `{Json V} `{Base64} `{Sha2} `{Formats}.
Context `{Serde PckCertRecord} `{Serde PlatformPool} `{Serde (TcbRecord V)} `{Serde (IdentityRecord V)}
  `{Serde PckCrlRecord} `{Serde (list Z)} `{Serde CrlRecord} `{Serde RegisteredPlatform}.

Lemma calm_stored {B} `{Serde B} (f : Row → R B) (key : B → string) rows :
  (∀ row, fine (f row)) → calm ∅ ∅ (for_each rows (λ row, rec ← give (f row); add (key rec) rec)).
Proof. intros Hf. apply calm_each. intros row. apply calm_bind0; [by apply calm_give|]. intros rec. apply calm_add. Qed.

Lemma calm_level pools row : calm ∅ ∅ (read_platform_tcb pools row).
Proof.
  unfold read_platform_tcb.
  repeat (apply calm_bind0; [apply calm_give; auto using fine_platform_key, fine_hex, fine_require|intros ?]).
  destruct (existsb _ _); [by apply calm_give|]. apply calm_bind0; [apply calm_add|]. intros _. by apply calm_give.
Qed.

Lemma calm_root_crl row : calm ∅ ∅ (add_root_crl row).
Proof.
  unfold add_root_crl. apply calm_bind0; [apply calm_give, fine_blob|]. intros b.
  destruct (_ =? _)%nat; [by apply calm_give|]. apply calm_bind0; [apply calm_give, fine_int|]. intros i.
  destruct (negb _); [by apply calm_give|]. apply calm_bind0; [apply calm_give, fine_der|]. intros c.
  apply calm_bind0; [apply calm_give, fine_require|]. intros v. apply calm_insert.
Qed.

Definition PLATFORM_TABLES : gset string := list_to_set ["pck_certchain"; "platforms"; "pck_cert"; "platform_tcbs"]%string.

Lemma calm_platforms certs : calm PLATFORM_TABLES PLATFORM_TABLES (convert_platforms certs).
Proof.
  unfold convert_platforms, PLATFORM_TABLES.
  apply calm_take; [intros chrow|set_solver]. apply calm_then; [apply calm_give, fine_fold, fine_read_chain|intros chains].
  apply calm_take; [intros prow|set_solver]. apply calm_then; [apply calm_give, fine_fold, fine_platform|intros pools].
  apply calm_take; [intros crow|set_solver]. apply calm_then; [apply calm_give, fine_fold, fine_pck_cert|intros filled].
  apply calm_take; [intros trow|set_solver]. apply calm_then; [apply calm_fold, calm_level|intros pools'].
  apply calm_each. intros pool. apply calm_add.
Qed.

Lemma calm_collateral certs :
  calm (list_to_set ["enclave_identities"; "pcs_certificates"; "pck_crl"; "crl_cache"]%string)
    (list_to_set ["enclave_identities"; "pck_crl"; "crl_cache"]%string) (convert_collateral certs).
Proof.
  unfold convert_collateral. eapply calm_weaken.
  - apply calm_take; [intros idrow|].
    + apply calm_then; [apply calm_stored, fine_identity|intros _].
      apply (calm_bind {["pcs_certificates"%string]} ∅ {["pck_crl"; "crl_cache"]}%string {["pck_crl"; "crl_cache"]}%string);
        [apply calm_rows|intros certrow|set_solver].
      apply calm_then; [apply calm_each, calm_root_crl|intros _].
      eapply calm_weaken; [apply (calm_take _ {["crl_cache"]}%string {["crl_cache"]}%string); [intros krow|set_solver]|set_solver..].
      apply calm_then; [apply calm_stored, fine_pckcrl|intros _].
      eapply calm_weaken; [apply (calm_take _ ∅ ∅); [intros crow; apply calm_stored, fine_crl|set_solver]|set_solver..].
    + set_solver.
  - set_solver.
  - set_solver.
Qed.

Lemma calm_queue :
  calm (list_to_set ["platforms_registered"; "appraisal_policies"]%string)
    (list_to_set ["platforms_registered"; "appraisal_policies"]%string) convert_queue_and_policies.
Proof.
  unfold convert_queue_and_policies. eapply calm_weaken.
  - apply calm_take; [intros qrow|].
    + apply calm_then; [apply calm_stored, fine_registered|intros _].
      apply (calm_take _ ∅ ∅); [intros polrow|set_solver].
      apply calm_then; [apply calm_give, fine_fold, fine_policy|intros m].
      apply calm_each. intros x. apply calm_bind0; [apply calm_give, fine_require|]. intros v. apply calm_insert.
    + set_solver.
  - set_solver.
  - set_solver.
Qed.

Lemma calm_convert : ∃ g, calm (list_to_set TABLES) g (convert (V := V)).
Proof.
  eexists. unfold convert. eapply calm_weaken.
  - apply (calm_bind {["pcs_certificates"%string]} ∅ (list_to_set TABLES) (list_to_set TABLES));
      [apply calm_rows|intros certrow|set_solver].
    apply calm_then; [apply calm_give, fine_fold, fine_certificate|intros certs].
    eapply calm_weaken; [apply (calm_take _ (list_to_set TABLES ∖ {["fmspc_tcbs"%string]}) (list_to_set TABLES));
      [intros tcbrow|set_solver]|vm_compute; set_solver|set_solver].
    apply calm_then; [apply calm_stored, fine_tcb|intros _].
    eapply calm_weaken; [apply calm_bind; [apply calm_platforms|intros _|]| |].
    + apply calm_bind; [apply calm_collateral|intros _; apply calm_queue|]. set_solver.
    + unfold PLATFORM_TABLES. set_solver.
    + unfold PLATFORM_TABLES, TABLES. set_solver.
    + unfold PLATFORM_TABLES, TABLES. set_solver.
  - unfold TABLES. set_solver.
  - reflexivity.
Qed.

Lemma fine_read_table conn table : fine (read_table conn table).
Proof.
  unfold read_table. destruct (select_all conn table) as [e|e|rows]; [apply fine_failed|..]; cbv zeta;
    (apply fine_bind; [apply fine_each; intros c; by destruct (in_list _ _)|intros _ _]);
    (apply fine_bind; [destruct (in_list _ _); [apply fine_each; intros c; by destruct (_ && _)|done]|intros _ _]);
    [apply fine_failed|]. apply fine_bind; [apply fine_collect|intros values _]. by destruct (_ && _).
Qed.

(** The tables read are the tables there are. *)
Lemma read_tables_dom conn tables (rows rows' : gmap string (list Row)) :
  try_fold (λ rows table, records ← read_table conn table; Ok (<[table := records]> rows)) rows tables = Ok rows' →
  dom rows' =@{gset string} dom rows ∪ list_to_set tables.
Proof.
  revert rows. induction tables as [|t tables IH]; intros rows; cbn [try_fold]; [intros [= ->]; set_solver|].
  unfold mbind at 2, R_bind. destruct (read_table conn t) as [r|]; [|done]. cbn. intros Hf%IH. set_solver.
Qed.

Lemma read_snapshot_fine conn h :
  fine (read_snapshot conn h) ∧
  ∀ sn report, read_snapshot conn h = Ok (sn, report) → (list_to_set TABLES : gset string) ⊆ dom (sn_rows sn) ∧ sn_entries sn = ∅.
Proof.
  assert (Htab : ∀ tables, try_each (λ table, if in_list table tables then Ok ()
      else failed ("missing required db_version=5 table: " ++ table)) TABLES = Ok () →
    ∀ t, t ∈ TABLES → t ∈ tables).
  { intros tables Ht t Hin. apply (proj1 (try_each_ok _ _) Ht) in Hin. destruct (in_list t tables) eqn:E; [|done].
    unfold in_list in E. apply existsb_exists in E as (x & Hx & ->%String.eqb_eq). by apply list_elem_of_In. }
  unfold read_snapshot. split.
  - apply fine_bind; [destruct (table_names conn); auto using fine_failed, fine_collect|intros tables _].
    apply fine_bind; [apply fine_each; intros t; by destruct (in_list _ _)|intros [] Ht].
    apply fine_bind; [apply fine_fold; intros acc t; apply fine_bind; [apply fine_read_table|done]|intros rows Hr].
    apply read_tables_dom in Hr.
    apply fine_bind; [apply fine_expect, elem_of_dom; rewrite Hr; apply elem_of_union_r, elem_of_list_to_set;
      apply Htab; [done|left]|intros vs _].
    destruct vs as [|v [|]]; [apply fine_failed| |apply fine_failed]. fine_walk.
  - intros sn report Hr. apply R_bind_ok in Hr as (tables & _ & Hr). apply R_bind_ok in Hr as ([] & Ht & Hr).
    apply R_bind_ok in Hr as (rows & Hrows & Hr). apply read_tables_dom in Hrows.
    apply R_bind_ok in Hr as (vs & _ & Hr). destruct vs as [|v [|]]; [done| |done].
    row_ok Hr. injection Hr as <- _. cbn [sn_rows sn_entries]. split; [|done]. rewrite Hrows. apply elem_of_subseteq.
    intros t Ht'%elem_of_list_to_set. by apply elem_of_union_r, elem_of_list_to_set, Htab.
Qed.

(** No snapshot makes the import panic: whatever the tables of the database
    hold, every index, [unwrap] and byte range of the conversion is in range,
    and a bad row is an error that names it. *)
Theorem import_never_panics (source : Source) : convert_source (V := V) source ≠ Err Panic.
Proof.
  change (fine (convert_source (V := V) source)). unfold convert_source. fine_walk.
  - by apply read_snapshot_fine.
  - destruct calm_convert as [g Hc]. destruct (read_snapshot_fine (connection source) a0) as [_ Hs].
    match goal with E : read_snapshot _ _ = Ok _ |- _ => destruct (Hs _ _ E) as [Hdom _] end. by destruct (Hc _ Hdom).
Qed.
End calm_phases.

(** ** A sample snapshot *)

Import MapDb Codec Concrete CollateralSample.

Module ImportSample.

(** JSON on the wire of the sample stores *)
#[export] Instance sample_json : Json jvalue := {|
  jnull := jnull; jget := jget; as_str := as_str; as_i64 := as_i64; as_u64 := as_u64; as_bool := as_bool;
  as_array := as_array; is_object := is_object; is_null := is_null;
  json_parse s := match dec_j (String.length s) s with Some (v, EmptyString) => Some v | _ => None end;
  json_print := enc_j; json_string := json_string; json_object := json_object
|}.

#[export] Instance sample_formats : Formats := {|
  crl_from_der b := negb (length b =? 0)%nat;
  policies_to_vec l := to_vec {| policies := l |};
  report_to_vec_pretty _ := Ok "report"%string
|}.

Definition cert_row (id : Z) (crl : SqlValue) : Row := {|
  row_table := "pcs_certificates";
  row_fields := list_to_map [("id", SqlInteger id);
    ("cert", SqlText "-----BEGIN%20CERTIFICATE-----x-----END%20CERTIFICATE-----"); ("crl", crl)]%string |}.

Definition ids_fields : list (string * SqlValue) := [("qe_id", SqlText "ab"); ("pce_id", SqlText "4444")]%string.

Definition row (table : string) (fields : list (string * SqlValue)) : Row :=
  {| row_table := table; row_fields := list_to_map fields |}.

Definition tcb_body : string :=
  enc_j (JObj [("tcbInfo", JObj [("id", JStr "SGX"); ("fmspc", JStr "1234567890ab")]); ("signature", JStr "aa")])%string.
Definition identity_body : string :=
  enc_j (JObj [("enclaveIdentity", JObj [("id", JStr "QE")]); ("signature", JStr "aa")])%string.

Definition tcbm : string := "222222222222222222222222222222223333".

Definition sample : Snapshot := {|
  sn_entries := ∅;
  sn_rows := list_to_map [
    ("pcs_version", [row "pcs_version" [("id", SqlInteger 1); ("api_version", SqlInteger 4);
       ("db_version", SqlInteger 5); ("server_addr", SqlText "")]]);
    ("pcs_certificates", [cert_row 1 (SqlBlob [48]); cert_row 2 SqlNull; cert_row 3 SqlNull; cert_row 4 SqlNull]);
    ("fmspc_tcbs", [row "fmspc_tcbs" [("tcbinfo", SqlText tcb_body); ("type", SqlInteger 0);
       ("fmspc", SqlText "1234567890AB"); ("version", SqlInteger 4); ("update_type", SqlText "STANDARD");
       ("root_cert_id", SqlInteger 1); ("signing_cert_id", SqlInteger 3)]]);
    ("pck_certchain", [row "pck_certchain" [("ca", SqlText "PLATFORM"); ("root_cert_id", SqlInteger 1);
       ("intmd_cert_id", SqlInteger 4)]]);
    ("platforms", [row "platforms" (ids_fields ++ [("platform_manifest", SqlNull); ("enc_ppid", SqlNull);
       ("fmspc", SqlText "1234567890AB"); ("ca", SqlText "platform")])]);
    ("pck_cert", [row "pck_cert" (ids_fields ++ [("tcbm", SqlText tcbm); ("pck_cert", SqlText synthetic_pem)])]);
    ("platform_tcbs", [row "platform_tcbs" (ids_fields ++
       [("cpu_svn", SqlText "22222222222222222222222222222233"); ("pce_svn", SqlText "3434"); ("tcbm", SqlText tcbm)])]);
    ("enclave_identities", [row "enclave_identities" [("id", SqlInteger 1); ("identity", SqlText identity_body);
       ("version", SqlInteger 4); ("update_type", SqlText "EARLY"); ("root_cert_id", SqlInteger 1);
       ("signing_cert_id", SqlInteger 3)]]);
    ("pck_crl", [row "pck_crl" [("ca", SqlText "PROCESSOR"); ("pck_crl", SqlBlob [48; 1]);
       ("root_cert_id", SqlInteger 1); ("intmd_cert_id", SqlInteger 2)]]);
    ("crl_cache", [row "crl_cache" [("cdp_url", SqlText "https://certificates.trustedservices.intel.com/IntelSGXRootCA.der");
       ("crl", SqlBlob [48; 2])]]);
    ("platforms_registered", [row "platforms_registered" (ids_fields ++ [("enc_ppid", SqlNull);
       ("platform_manifest", SqlNull); ("state", SqlInteger 1); ("cpu_svn", SqlText ""); ("pce_svn", SqlText "65535")])]);
    ("appraisal_policies", [row "appraisal_policies" [("policy", SqlText "h.YQ.s");
       ("id", SqlText (to_upper (sha384_hex "h.YQ.s"))); ("type", SqlInteger 2); ("is_default", SqlInteger 1);
       ("fmspc", SqlText "1234567890AB")]])]%string |}.

Definition imported : Snapshot := match convert (V := jvalue) sample with Ok (_, sn) => sn | Err _ => sample end.

Definition imported_store : Store (gmap string string) := mkStore (sn_entries imported) 0 10.

Lemma imported_ok : convert (V := jvalue) sample = Ok ((), imported).
Proof.
  assert (Hok : is_ok (convert (V := jvalue) sample) = true) by (vm_compute; reflexivity).
  unfold imported. destruct (convert sample) as [[[] sn]|]; done.
Qed.

(** The same snapshot behind a connection *)
Definition sample_connection : Connection := {|
  table_names := Rows (map Ok TABLES);
  column_names := required_columns;
  select_all t := Rows (map (λ row, Ok (map (λ c, default SqlNull (row_fields row !! c)) (required_columns t)))
                          (rows_of sample t))
|}.

Definition sample_source : Source := {|
  is_regular_file := Ok true; has_sidecar _ := false; hash_before := Ok "hash"%string;
  open_read_only := None; begin_transaction := None; integrity_check := Ok "ok"%string;
  connection := sample_connection; hash_after := Ok "hash"%string
|}.

Definition calls (entries : gmap string string) : Outcomes (gmap string string) := {|
  o_create := None; o_open := None; o_written := Ok entries; o_flush := None; o_reopen := None; o_report := None;
  o_sync_report := None; o_sync_staging := None; o_rename := None; o_sync_parent := None; o_left := None
|}.

Definition run_import (entries : gmap string string) :=
  import_intel (V := jvalue) sample_source (calls entries) id "staging" "rocks" ∅.

(** A faithful write is published; one that lost a record is not. *)
Example import_runs :
  is_ok (snd (run_import (sn_entries imported))) = true ∧
  bool_decide (database_in (fst (run_import (sn_entries imported))) "rocks" = Some (sn_entries imported)) = true ∧
  snd (run_import (delete rootcacrl (sn_entries imported))) = Err (Failed "staging record count mismatch").
Proof. split_and!; vm_compute; reflexivity. Qed.

Lemma imported_healthy : healthy (db imported_store).
Proof. split_and!; intros; by eexists. Qed.

Lemma imported_content : content (db imported_store) = sn_entries imported.
Proof. reflexivity. Qed.

End ImportSample.
Import ImportSample.


Lemma imported_platforms_coherent_witness :
  ∃ rec, get_pckcert imported_store (pc_qeid rec) (pc_cpusvn rec) (pc_pcesvn rec) (pc_pceid rec) = Some rec ∧
    hex_field (row "platform_tcbs" (ids_fields ++ [("cpu_svn", SqlText "22222222222222222222222222222233");
      ("pce_svn", SqlText "3434"); ("tcbm", SqlText tcbm)]))%string "tcbm" 36 = Ok (pc_tcbm rec).
Proof.
  destruct (imported_platforms_coherent (V := jvalue) imported_store sample imported imported_healthy
    imported_content eq_refl imported_ok) as [_ Hl].
  edestruct Hl as (rec & Hr & Hg); [left|]. exists rec. split; [exact Hg|]. by destruct Hr.
Defined.

Lemma imported_collateral_served_witness :
  get_rootcacrl imported_store = Some [48].
Proof.
  destruct (imported_collateral_served (V := jvalue) imported_store sample imported imported_healthy
    imported_content eq_refl imported_ok) as (_ & _ & _ & Hr & _).
  apply (Hr (cert_row 1 (SqlBlob [48]))); [left|reflexivity|done].
Defined.

Lemma import_atomic_witness :
  fst (run_import (sn_entries imported)) !! "staging"%string = None.
Proof.
  destruct (import_atomic (V := jvalue) sample_source (calls (sn_entries imported)) id "staging" "rocks" ∅
    (fst (run_import (sn_entries imported))) (snd (run_import (sn_entries imported)))) as [Hs _];
    [done|done|done|by destruct (run_import _) as [fs r] eqn:E|]. by apply Hs.
Defined.
