(* ===== verification/Boot.v ===== *)
(** * Boot: opening the store, starting the service, the cron loop
    (src/src/main.rs, and [build_cache], [Store::open], [load_seed_file],
    [app_state], [StartupState])

    The outcomes of the host (files, sockets, name resolution, RocksDB's open)
    are the fields of [Host].  [run] is the sequence of observable effects of
    a start, which ends with an exit code, a panic, or the return of the
    server; the server itself is in Server.  The scheduler is a function of
    the times at which its loop looked at the clock and woke up. *)

From Stdlib Require Import ZArith Lia.
From stdpp Require Import base list strings option gmap.
From S2P Require Import Prelude Text Errors Validate Env PckCert Selection Ocsp Keys Database Fifo Records Platforms Registry Urls Prog Cache Pcs Collateral Routes Config.

Local Open Scope Z_scope.
#[local] Set Default Proof Using "Type*".

(** ** Addresses *)

Record SocketAddr := { ip : string; port : Z }.

(** [str::parse::<SocketAddr>] and the host's name resolution *)
Class Resolver := {
  parse_socket_addr : string → option SocketAddr;
  lookup_host : string → Z → option (list SocketAddr)
}.
(** Every socket address has a port after a colon. *)
Class ResolverLaws `{Resolver} := {
  socket_addr_colon s a : parse_socket_addr s = Some a → contains_char ":" s = true
}.

(** [str::rsplit_once] *)
Fixpoint rsplit_once (c : ascii) (s : string) : option (string * string) :=
  match s with
  | EmptyString => None
  | String d s' =>
      match rsplit_once c s' with
      | Some (l, r) => Some (String d l, r)
      | None => if Ascii.eqb c d then Some (EmptyString, s') else None
      end
  end.

(** [<str as ToSocketAddrs>::to_socket_addrs]: a socket address, or
    [host:port] to resolve; anything else is an error. *)
Definition to_socket_addrs `{Resolver} (s : string) : option (list SocketAddr) :=
  match parse_socket_addr s with
  | Some a => Some [a]
  | None =>
      '(host, port_str) ← rsplit_once ":" s;
      p ← parse_uint 65535 port_str;
      lookup_host host p
  end.

(** ** Opening the store *)

(** The RocksDB options that [Store::open] sets *)
Record Options := {
  create_if_missing : bool;
  zstd : bool;
  write_buffer_size : Z;
  max_write_buffer_number : Z;
  max_open_files : Z;
  block_cache_size : Z
}.

Definition apply_rocksdb_opts (create : bool) (r : RocksDbOpts) : Options :=
  {| create_if_missing := create; zstd := true; write_buffer_size := write_buffer_bytes r;
     max_write_buffer_number := r_max_write_buffers r; max_open_files := r_max_open_files r;
     block_cache_size := block_cache_bytes r |}.

(** Why [build_cache] fails *)
Inductive BootError :=
| CreateDbPath | RocksdbOpen | IndexEntries | ReadSeed | ParseSeed | ProxyUnsupported | NativeRoots.

(** What the host answers *)
Record Host (D : Type) := {
  create_dir_all : string → bool;
  db_open : Options → string → option D;
  read_to_string : string → option string;
  native_roots : bool;
  bind_metrics : SocketAddr → option SocketAddr;
  bind_server : SocketAddr → option SocketAddr;
  from_pem_file : string → string → bool;
  is_loopback : string → bool
}.
Arguments create_dir_all {D} _. Arguments db_open {D} _. Arguments read_to_string {D} _.
Arguments native_roots {D} _. Arguments bind_metrics {D} _. Arguments bind_server {D} _.
Arguments from_pem_file {D} _. Arguments is_loopback {D} _.

Section cache.
Context {D V : Type} `{Database D} `{Json V} `{Base64} `{Sha2} `{Chrono}.
Context `{Serde PckCertRecord} `{Serde PlatformPool} `{Serde (TcbRecord V)} `{Serde (IdentityRecord V)}
  `{Serde PckCrlRecord} `{Serde (list Z)} `{Serde CrlRecord} `{Serde AppraisalList} `{Serde Stamp}.
Context (host : Host D) (cfg : Config).

(** [Store::open] *)
Definition open (path : string) (rocks : RocksDbOpts) : result BootError (Store D) :=
  d ← ok_or (db_open host (apply_rocksdb_opts true rocks) path) RocksdbOpen;
  match index_unindexed_entries (mkStore d 0 DEFAULT_READTHROUGH_MAX_ENTRIES_PER_KIND) with
  | (s, Ok _) => Ok s
  | (_, Err _) => Err IndexEntries
  end.

(** [find_seed_path] *)
Definition find_seed_path (explicit : option string) : option string := explicit.

(** [Store::load_seed_file]: what the document says is stored as far as it
    can be; only an unreadable file is an error. *)
Definition load_seed_file (path : string) (s : Store D) : result BootError (Store D) :=
  data ← ok_or (read_to_string host path) ReadSeed;
  v ← ok_or (json_parse data : option V) ParseSeed;
  Ok (load_seed_value v s).1.

(** The connector of [PcsClient::new] needs the native TLS roots. *)
Definition needs_tls : bool :=
  let uris := map trim [c_uri cfg; c_amd_kds_uri cfg; c_nvidia_rim_uri cfg; c_nvidia_nras_uri cfg; c_nvidia_ocsp_uri cfg] in
  existsb (starts_with "https://") uris || forallb is_empty uris.

Definition new_client : result BootError Client :=
  c ← ok_or (upstream_client cfg) ProxyUnsupported;
  if needs_tls && negb (native_roots host) then Err NativeRoots else Ok c.

(** [build_cache] and [Cache::new] *)
Definition build_cache : result BootError (Shared D * Cache.Config * Client) :=
  _ ← (if create_dir_all host (c_db_path cfg) then Ok () else Err CreateDbPath);
  s ← open (c_db_path cfg) (rocksdb_opts cfg);
  s ← (if c_no_seed cfg then Ok s
       else match find_seed_path (c_seed cfg) with Some p => load_seed_file p s | None => Ok s end);
  pcs ← new_client;
  Ok (mkShared (set_readthrough_max_entries s (c_readthrough_max_entries_per_kind cfg)) ∅ ∅,
      cache_config cfg pcs, pcs).
End cache.

(** ** Warnings *)

Section warnings.
Context `{Resolver} (cfg : Config).

Inductive notice :=
| ConfigWarning (w : warning)
| TokenDisabled (name : string)
| DevTokens
| SelfUpstream (label : string)
| MetricsNotLoopback.

(** [Config::validate_token_hashes] *)
Definition validate_token_hashes : list notice :=
  map (λ nh, TokenDisabled nh.1)
    (filter (λ nh : string * string, is_sha512_hex nh.2 = false)
      [("UserTokenHash"%string, c_user_token_hash cfg); ("AdminTokenHash"%string, c_admin_token_hash cfg)]).

Definition warn_on_dev_tokens : list notice :=
  if String.eqb (c_user_token_hash cfg) DEFAULT_USER_TOKEN_HASH ||
     String.eqb (c_admin_token_hash cfg) DEFAULT_ADMIN_TOKEN_HASH then [DevTokens] else [].

Definition warn_if_uri_is_self (addr : SocketAddr) (uri label : string) : list notice :=
  match uri_host uri with
  | None => []
  | Some host =>
      let same_host := String.eqb host (to_lower (c_host cfg)) ||
                       match to_socket_addrs host with
                       | Some l => existsb (λ a, String.eqb (ip a) (ip addr)) l
                       | None => false
                       end in
      if same_host then [SelfUpstream label] else []
  end.

Definition warn_on_self_upstream (addr : SocketAddr) : list notice :=
  warn_if_uri_is_self addr (c_uri cfg) "upstream uri host" ++
  warn_if_uri_is_self addr (c_amd_kds_uri cfg) "amd_kds_uri host" ++
  warn_if_uri_is_self addr (c_nvidia_rim_uri cfg) "nvidia_rim_uri host" ++
  warn_if_uri_is_self addr (c_nvidia_ocsp_uri cfg) "nvidia_ocsp_uri host".
End warnings.

(** ** A start *)

Inductive effect :=
| Logged (n : notice)
| CacheBuilt
| MetricsBound (a : SocketAddr)
| SchedulerSpawned
| TlsLoaded
| ListenerBound (a : SocketAddr)
| MarkedStarted  (** [StartupState::mark_started] *)
| Served
| SchedulerAborted
| MetricsStopped
| StateDropped.

Inductive Exit := ExitCode (n : Z) | Panicked.

(** The effects so far, and how the process ended where it did *)
Definition Run (A : Type) : Type := list effect * result Exit A.
#[export] Instance Run_ret : MRet Run := λ A a, ([], Ok a).
#[export] Instance Run_bind : MBind Run := λ A B f c,
  match c with
  | (l, Ok a) => let '(l', r) := f a in (l ++ l', r)
  | (l, Err e) => (l, Err e)
  end.
Definition emit (l : list effect) : Run unit := (l, Ok ()).
Definition exit {A} (n : Z) : Run A := ([], Err (ExitCode n)).
Definition or_exit {A} (o : option A) : Run A := match o with Some a => mret a | None => exit 1 end.

Section run.
Context {D V : Type} `{Database D} `{Json V} `{Base64} `{Sha2} `{Chrono} `{Resolver}.
Context `{Serde PckCertRecord} `{Serde PlatformPool} `{Serde (TcbRecord V)} `{Serde (IdentityRecord V)}
  `{Serde PckCrlRecord} `{Serde (list Z)} `{Serde CrlRecord} `{Serde AppraisalList} `{Serde Stamp}.
Context (host : Host D).

Definition resolve_bind_addr (bind : string) : Run SocketAddr := or_exit (to_socket_addrs bind ≫= head).

(** [start_metrics_listener] *)
Definition start_metrics_listener (addr : option SocketAddr) : Run (option SocketAddr) :=
  match addr with
  | None => mret None
  | Some addr =>
      _ ← emit (if is_loopback host (ip addr) then [] else [Logged MetricsNotLoopback]);
      a ← or_exit (bind_metrics host addr);
      _ ← emit [MetricsBound a];
      mret (Some a)
  end.

(** [app_state] *)
Definition app_state (cfg : Config) : Run (Shared D * Cache.Config * Client) :=
  match build_cache (V := V) host cfg with
  | Ok state => _ ← emit [CacheBuilt]; mret state
  | Err _ => ([], Err Panicked)
  end.

(** From [create_app] to the return of the server.  Over HTTPS the address
    is only bound inside [server.serve], whose errors are logged. *)
Definition serve (cfg : Config) (addr : SocketAddr) : Run unit :=
  if c_https cfg then
    _ ← or_exit (if from_pem_file host (c_cert cfg) (c_key cfg) then Some () else None);
    _ ← emit [TlsLoaded; MarkedStarted];
    match bind_server host addr with
    | Some a => emit [ListenerBound a; Served]
    | None => mret ()
    end
  else
    a ← or_exit (bind_server host addr);
    emit [ListenerBound a; MarkedStarted; Served].

(** [run]; [metrics_listen] parsed when the configuration was read *)
Definition run (cfg : Config) : Run unit :=
  addr ← resolve_bind_addr (bind_addr cfg);
  _ ← emit (map Logged (validate_token_hashes cfg ++ warn_on_dev_tokens cfg ++ warn_on_self_upstream cfg addr));
  _ ← app_state cfg;
  metrics ← start_metrics_listener (c_metrics_listen cfg ≫= parse_socket_addr);
  _ ← emit [SchedulerSpawned];
  _ ← serve cfg addr;
  emit (SchedulerAborted :: match metrics with Some _ => [MetricsStopped] | None => [] end ++ [StateDropped]).

(** [serve_main]: what reading the configuration had to say is logged first. *)
Definition serve_main (cfg : Config) : Run unit :=
  _ ← emit (map (λ w, Logged (ConfigWarning w)) (c_warnings cfg));
  run cfg.
End run.

(** [main], for the command [serve]: [Config::from(args)], then [serve_main].
    The process ends with code 0 when [main] returns. *)
Definition exit_of {A} (r : Run A) : Exit := match r.2 with Ok _ => ExitCode 0 | Err e => e end.

(** ** The cron loop *)

Section scheduler.
(** Times are in nanoseconds.  [upcoming] is the schedule's next run. *)
Context (upcoming : Z → option Z).

(** [(next - now).to_std().unwrap_or(60 s)] *)
Definition wait (now next : Z) : Z := if now <=? next then next - now else 60 * 1_000_000_000.

(** One turn of the loop: when it looked at the clock, and when the sleep was
    over *)
Record turn := { looked : Z; woke : Z }.

(** The run each turn was scheduled for; a schedule without a future run ends
    the loop. *)
Fixpoint scheduler (turns : list turn) : list (Z * turn) :=
  match turns with
  | [] => []
  | t :: turns' =>
      match upcoming (looked t) with
      | None => []
      | Some next => (next, t) :: scheduler turns'
      end
  end.
End scheduler.

(** The schedule in force: an invalid [RefreshSchedule] means daily at 01:00. *)
Definition schedule_or_default {S} (from_str : string → option S) (schedule : string) : option S :=
  match from_str schedule with Some s => Some s | None => from_str DEFAULT_REFRESH end.
