(* ===== verification/Server.v ===== *)
(** * Server: the plain-HTTP accept loop (src/src/server.rs)

    [serve_http] accepts connections, waits in a task of its own for the
    first byte of each, hands those that spoke to hyper, and on a shutdown
    signal gives what is in flight [SHUTDOWN_GRACE] to finish.  A connection
    that ends is read for another [DRAIN_GRACE].  Sockets, hyper and tokio's
    timers are the events of the step function: an event is possible only
    where the source could observe it.  Times are in milliseconds. *)

From Stdlib Require Import ZArith Lia.
From stdpp Require Import base list option.
From S2P Require Import Prelude Config.

Local Open Scope Z_scope.
#[local] Set Default Proof Using "Type*".

Definition SHUTDOWN_GRACE : Z := 10_000.
Definition TCP_KEEPALIVE : Z := 60_000.
Definition DRAIN_GRACE : Z := 3_000.

(** [configure_http]: what it sets on hyper's builder *)
Record HttpBuilder := { keep_alive : bool; pipeline_flush : bool; header_read_timeout : Z }.

Definition configure_http (cfg : Config) : HttpBuilder :=
  let keep_alive := 0 <? c_keepalive_timeout_secs cfg in
  let idle := if keep_alive then c_keepalive_timeout_secs cfg else Z.max (c_headers_timeout_secs cfg) 1 in
  {| keep_alive := keep_alive; pipeline_flush := true; header_read_timeout := idle * 1000 |}.

(** What [timeout(d, stream.peek(..))] ends in *)
Inductive Peek := Elapsed | PeekError | Peeked (n : Z).

(** [await_first_byte] *)
Definition await_first_byte (timeout : Z) (outcome : Peek) : bool :=
  if timeout =? 0 then true
  else match outcome with
       | Peeked n => negb (n =? 0)
       | PeekError | Elapsed => false
       end.

(** ** Connections and the loop *)

Inductive Conn :=
| Silent (since : Z)  (** in the task that waits for its first byte *)
| Ready  (** in the channel back to the loop *)
| Serving  (** hyper has it, behind [DrainGraceIo] *)
| Draining (since : Z)  (** in [drain_and_close] *)
| Closed.

(** Dropping a [DrainGraceIo]: the write half is shut and the drain spawned. *)
Definition drop_io (now : Z) : Conn := Draining now.

(** [drain_and_close] ends with the request, with an error, or with its grace. *)
Definition drain_ends (peer_done : bool) (since now : Z) : bool := peer_done || (since + DRAIN_GRACE <=? now).

Inductive Phase := Accepting | Stopping (since : Z) | Returned.

Record Server := { now : Z; phase : Phase; conns : list Conn; ready : list nat }.

Definition start : Server := {| now := 0; phase := Accepting; conns := []; ready := [] |}.

Definition set_conn (i : nat) (c : Conn) (s : Server) : Server :=
  {| now := now s; phase := phase s; conns := <[i := c]> (conns s); ready := ready s |}.
Definition set_ready (l : list nat) (s : Server) : Server :=
  {| now := now s; phase := phase s; conns := conns s; ready := l |}.
Definition set_phase (p : Phase) (s : Server) : Server :=
  {| now := now s; phase := p; conns := conns s; ready := ready s |}.

Inductive event :=
| Tick (d : Z)
| AcceptFailed
| Accepted
| FirstByte (i : nat) (outcome : Peek)  (** the wait for the first byte ends *)
| Received  (** the loop takes a connection from the channel *)
| Ended (i : nat)  (** hyper's future for the connection completes *)
| PeerDone (i : nat)  (** the drain reads the end of the request, or fails *)
| DrainElapsed (i : nat)
| Signal
| AllDone  (** [graceful.shutdown()] completes *)
| GraceElapsed.

Definition is_serving (c : Conn) : bool := match c with Serving => true | _ => false end.

(** What is still in the channel is dropped with its receiver. *)
Definition returned (s : Server) : Server :=
  {| now := now s; phase := Returned; conns := foldl (λ l i, <[i := Closed]> l) (conns s) (ready s); ready := [] |}.

(** The end of the task that waited: the stream goes back to the loop, if it
    spoke and the loop is still there to take it. *)
Definition first_byte_done (i : nat) (spoke : bool) (s : Server) : Server :=
  if spoke then
    match phase s with
    | Returned => set_conn i Closed s
    | _ => set_ready (ready s ++ [i]) (set_conn i Ready s)
    end
  else set_conn i Closed s.

Section serve.
(** [first_byte], from [headers_timeout_secs] *)
Context (first_byte : Z).

Definition serve_step (e : event) (s : Server) : option Server :=
  match e with
  | Tick d =>
      if 0 <=? d then Some {| now := now s + d; phase := phase s; conns := conns s; ready := ready s |} else None
  | AcceptFailed => match phase s with Accepting => Some s | _ => None end
  | Accepted =>
      match phase s with
      | Accepting =>
          Some {| now := now s; phase := phase s; conns := conns s ++ [Silent (now s)]; ready := ready s |}
      | _ => None
      end
  | FirstByte i outcome =>
      match conns s !! i with
      | Some (Silent since) =>
          match outcome with
          | Elapsed => if since + first_byte <=? now s
                       then Some (first_byte_done i (await_first_byte first_byte Elapsed) s) else None
          | _ => Some (first_byte_done i (await_first_byte first_byte outcome) s)
          end
      | _ => None
      end
  | Received =>
      match phase s, ready s with
      | Accepting, i :: rest => Some (set_ready rest (set_conn i Serving s))
      | _, _ => None
      end
  | Ended i =>
      match conns s !! i with Some Serving => Some (set_conn i (drop_io (now s)) s) | _ => None end
  | PeerDone i =>
      match conns s !! i with
      | Some (Draining since) => if drain_ends true since (now s) then Some (set_conn i Closed s) else None
      | _ => None
      end
  | DrainElapsed i =>
      match conns s !! i with
      | Some (Draining since) => if drain_ends false since (now s) then Some (set_conn i Closed s) else None
      | _ => None
      end
  | Signal => match phase s with Accepting => Some (set_phase (Stopping (now s)) s) | _ => None end
  | AllDone =>
      match phase s with
      | Stopping _ => if existsb is_serving (conns s) then None else Some (returned s)
      | _ => None
      end
  | GraceElapsed =>
      match phase s with
      | Stopping since => if since + SHUTDOWN_GRACE <=? now s then Some (returned s) else None
      | _ => None
      end
  end.

Fixpoint serve_all (evs : list event) (s : Server) : option Server :=
  match evs with
  | [] => Some s
  | e :: evs => s' ← serve_step e s; serve_all evs s'
  end.
End serve.

(** [serve_http] on a configuration *)
Definition serve_http (cfg : Config) (evs : list event) : option Server :=
  serve_all (c_headers_timeout_secs cfg * 1000) evs start.

(** A silent connection does not hold up a later one, and is closed at its
    deadline. *)
Example silent_first :
  (λ s, (conns s, ready s)) <$>
    serve_all 30_000 [Accepted; Tick 5; Accepted; FirstByte 1 (Peeked 1); Received; Tick 30_000;
                      FirstByte 0 Elapsed; Ended 1] start
  = Some ([Closed; Draining 30_005], []).
Proof. reflexivity. Qed.
