(* ===== verification/ServerSpec.v ===== *)
(** * ServerSpec: what the accept loop promises

    Connections that stay silent hold nothing up and are never served, those
    that spoke are served in the order in which they spoke, and a shutdown
    takes no new connection and ends when nothing is in flight or its grace
    is over. *)

From Stdlib Require Import ZArith Lia.
From stdpp Require Import base list option sets.
From S2P Require Import Prelude Config Server.

Local Open Scope Z_scope.
#[local] Set Default Proof Using "Type*".

(** ** What a list of events says *)

(** A connection speaks when a byte came, or when no wait is configured. *)
Definition spoke (fb : Z) (o : Peek) : bool :=
  bool_decide (fb = 0) || match o with Peeked n => bool_decide (n ≠ 0) | _ => false end.

Definition speaks (fb : Z) (e : event) : option nat :=
  match e with FirstByte i o => if spoke fb o then Some i else None | _ => None end.

Lemma await_spoke fb o : await_first_byte fb o = spoke fb o.
Proof.
  unfold await_first_byte, spoke. destruct (Z.eqb_spec fb 0) as [->|Hne]; [done|]. rewrite bool_decide_eq_false_2 by done.
  destruct o as [| |n]; try done. cbn. destruct (Z.eqb_spec n 0) as [->|Hn]; [done|]. by rewrite bool_decide_eq_true_2.
Qed.

(** The connections that spoke, in that order *)
Definition spoken (fb : Z) (evs : list event) : list nat := omap (speaks fb) evs.

Definition is_received (e : event) : bool := match e with Received => true | _ => false end.
Definition receptions (evs : list event) : nat := length (List.filter is_received evs).

(** A connection that hyper got *)
Definition was_served (c : Conn) : Prop :=
  match c with Serving | Draining _ | Closed => True | _ => False end.

Section loop.
Context (fb : Z).

(** The invariant: [served] are the connections taken from the channel. *)
Record loop_inv (evs : list event) (served : list nat) (s : Server) : Prop := {
  li_spoken : phase s ≠ Returned → spoken fb evs = served ++ ready s;
  li_prefix : served `prefix_of` spoken fb evs;
  li_received : length served = receptions evs;
  li_nodup : NoDup (ready s);
  li_ready i : i ∈ ready s ↔ conns s !! i = Some Ready;
  li_served i : i ∈ served → ∃ c, conns s !! i = Some c ∧ was_served c;
  li_got i c : conns s !! i = Some c → c = Serving ∨ (∃ t, c = Draining t) → i ∈ served;
  li_done : phase s = Returned → ready s = []
}.

Lemma loop_inv_start : loop_inv [] [] start.
Proof. split; cbn; try done; [constructor|set_solver..]. Qed.

Lemma spoken_snoc evs e : spoken fb (evs ++ [e]) = spoken fb evs ++ match speaks fb e with Some i => [i] | None => [] end.
Proof. unfold spoken. rewrite omap_app. cbn. by destruct (speaks fb e). Qed.

Lemma receptions_snoc evs e : receptions (evs ++ [e]) = (receptions evs + if is_received e then 1 else 0)%nat.
Proof. unfold receptions. rewrite List.filter_app, length_app. cbn. by destruct (is_received e). Qed.

(** The end of one connection's stage that moves nothing else *)
Lemma loop_inv_move evs e served s i c c' :
  loop_inv evs served s → speaks fb e = None → is_received e = false →
  conns s !! i = Some c → c ≠ Ready → c' ≠ Ready →
  (i ∈ served → was_served c') → (c' = Serving ∨ (∃ t, c' = Draining t) → i ∈ served) →
  loop_inv (evs ++ [e]) served (set_conn i c' s).
Proof.
  intros [H1 H2 H3 H4 H5 H6 H7 H8] Es Er Hi Hc Hc' Hw Hg.
  pose proof (lookup_lt_Some _ _ _ Hi) as Hlt.
  split; cbn; rewrite ?spoken_snoc, ?receptions_snoc, ?Es, ?Er, ?app_nil_r; [done|done|lia|done| | | |done].
  - intros j. rewrite H5. destruct (decide (i = j)) as [<-|Hne].
    + rewrite list_lookup_insert_eq, Hi by done. split; congruence.
    + by rewrite list_lookup_insert_ne.
  - intros j Hj. destruct (decide (i = j)) as [<-|Hne].
    + rewrite list_lookup_insert_eq by done. eauto.
    + rewrite list_lookup_insert_ne by done. auto.
  - intros j d Hj Hd. apply list_lookup_insert_Some in Hj as [(-> & <- & _)|[_ Hj]]; [by apply Hg|by eapply H7].
Qed.

(** A step that changes neither a connection nor the channel *)
Lemma loop_inv_idle evs e served s s' :
  loop_inv evs served s → speaks fb e = None → is_received e = false →
  conns s' = conns s → ready s' = ready s → (phase s' = Returned ↔ phase s = Returned) →
  loop_inv (evs ++ [e]) served s'.
Proof.
  intros [H1 H2 H3 H4 H5 H6 H7 H8] Es Er Ec Ey Ep.
  split; rewrite ?Ec, ?Ey, ?spoken_snoc, ?receptions_snoc, ?Es, ?Er, ?app_nil_r; try done; [tauto|lia|tauto].
Qed.

Lemma loop_inv_first_byte evs served s i o t :
  loop_inv evs served s → conns s !! i = Some (Silent t) →
  loop_inv (evs ++ [FirstByte i o]) served (first_byte_done i (await_first_byte fb o) s).
Proof.
  intros Hinv Hi. pose proof (lookup_lt_Some _ _ _ Hi) as Hlt. rewrite await_spoke.
  destruct (spoke fb o) eqn:Ea; unfold first_byte_done.
  2:{ eapply loop_inv_move; try done; cbn; [by rewrite Ea|naive_solver]. }
  assert (Es : speaks fb (FirstByte i o) = Some i) by (cbn; by rewrite Ea).
  assert (phase s = Returned ∨ phase s ≠ Returned) as [Ep|Ep] by (destruct (phase s); auto).
  - rewrite Ep. destruct Hinv as [H1 H2 H3 H4 H5 H6 H7 H8].
    split; cbn; rewrite ?spoken_snoc, ?receptions_snoc, ?Es; [done|by apply prefix_app_r|cbn; lia|done| | | |done].
    + intros j. rewrite H5. destruct (decide (i = j)) as [<-|Hne]; [|by rewrite list_lookup_insert_ne].
      rewrite list_lookup_insert_eq, Hi by done. split; congruence.
    + intros j Hj. destruct (decide (i = j)) as [<-|Hne]; [rewrite list_lookup_insert_eq by done; by eexists|].
      rewrite list_lookup_insert_ne by done. auto.
    + intros j d [(-> & <- & _)|[_ Hj]]%list_lookup_insert_Some Hd; [naive_solver|by eapply H7].
  - destruct Hinv as [H1 H2 H3 H4 H5 H6 H7 H8].
    assert (Hnew : i ∉ ready s) by (rewrite H5, Hi; congruence).
    assert (Hns : i ∉ served) by (intros (c & Hc & Hw)%H6; rewrite Hi in Hc; by injection Hc as <-).
    replace (match phase s with Returned => _ | _ => _ end)
      with (set_ready (ready s ++ [i]) (set_conn i Ready s)) by (by destruct (phase s)).
    split; cbn; rewrite ?spoken_snoc, ?receptions_snoc, ?Es; [|by apply prefix_app_r|cbn; lia| | | | |done].
    + intros _. by rewrite H1, <- app_assoc.
    + apply NoDup_app. split_and!; [done|set_solver|apply NoDup_singleton].
    + intros j. rewrite elem_of_app, list_elem_of_singleton, H5.
      destruct (decide (i = j)) as [<-|Hne].
      * rewrite list_lookup_insert_eq by done. tauto.
      * rewrite list_lookup_insert_ne by done. naive_solver.
    + intros j Hj. rewrite list_lookup_insert_ne by (by intros ->). auto.
    + intros j d [(-> & <- & _)|[_ Hj]]%list_lookup_insert_Some Hd; [naive_solver|by eapply H7].
Qed.

Lemma loop_inv_received evs served s i rest :
  loop_inv evs served s → phase s = Accepting → ready s = i :: rest →
  loop_inv (evs ++ [Received]) (served ++ [i]) (set_ready rest (set_conn i Serving s)).
Proof.
  intros [H1 H2 H3 H4 H5 H6 H7 H8] Ep Er.
  assert (Hi : conns s !! i = Some Ready) by (apply H5; rewrite Er; set_solver).
  pose proof (lookup_lt_Some _ _ _ Hi) as Hlt. rewrite Er in H4. apply NoDup_cons in H4 as [Hni Hnd].
  assert (Hsp : spoken fb evs = (served ++ [i]) ++ rest)
    by (rewrite H1, Er, <- app_assoc by (by rewrite Ep); done).
  split; cbn; rewrite ?spoken_snoc, ?receptions_snoc, ?app_nil_r; cbn; [done| | |done| | | |by rewrite Ep].
  - rewrite Hsp. by eexists.
  - rewrite length_app, H3. done.
  - intros j. destruct (decide (i = j)) as [<-|Hne].
    + rewrite list_lookup_insert_eq by done. split; [done|congruence].
    + rewrite list_lookup_insert_ne by done. rewrite <- H5, Er. set_solver.
  - intros j [Hj|Hj%list_elem_of_singleton]%elem_of_app.
    + destruct (decide (i = j)) as [<-|Hne]; [rewrite list_lookup_insert_eq by done; by eexists|].
      rewrite list_lookup_insert_ne by done. auto.
    + subst j. rewrite list_lookup_insert_eq by done. by eexists.
  - intros j d [(-> & <- & _)|[_ Hj]]%list_lookup_insert_Some Hd; [set_solver|].
    apply elem_of_app. left. by eapply H7.
Qed.

Lemma close_all_lookup l (cs : list Conn) j :
  (∀ i, i ∈ l → (i < length cs)%nat) →
  foldl (λ l i, <[i := Closed]> l) cs l !! j = if decide (j ∈ l) then Some Closed else cs !! j.
Proof.
  revert cs. induction l as [|i l IH]; intros cs Hl; cbn; [done|].
  rewrite IH by (intros k Hk; rewrite length_insert; apply Hl; set_solver).
  destruct (decide (j ∈ l)) as [Hj|Hj]; [by rewrite decide_True by set_solver|].
  destruct (decide (i = j)) as [<-|Hne].
  - rewrite decide_True by set_solver. apply list_lookup_insert_eq, Hl. set_solver.
  - rewrite decide_False by set_solver. by rewrite list_lookup_insert_ne.
Qed.

Lemma loop_inv_returned evs e served s t :
  loop_inv evs served s → speaks fb e = None → is_received e = false → phase s = Stopping t →
  loop_inv (evs ++ [e]) served (returned s).
Proof.
  intros [H1 H2 H3 H4 H5 H6 H7 H8] Es Er Ep.
  assert (Hl : ∀ i, i ∈ ready s → (i < length (conns s))%nat)
    by (intros i Hi%H5; by eapply lookup_lt_Some).
  split; cbn; rewrite ?spoken_snoc, ?receptions_snoc, ?Es, ?Er, ?app_nil_r; [done|done|lia|constructor| | | |done].
  - intros j. rewrite close_all_lookup by done. split; [set_solver|].
    destruct (decide (j ∈ ready s)) as [Hj|Hj]; [done|]. by rewrite <- H5.
  - intros j Hj. rewrite close_all_lookup by done. destruct (decide (j ∈ ready s)); [by eexists|auto].
  - intros j d. rewrite close_all_lookup by done. destruct (decide (j ∈ ready s)); [|by apply H7].
    intros [= <-] Hd. naive_solver.
Qed.

Lemma loop_inv_step evs e served s s' :
  loop_inv evs served s → serve_step fb e s = Some s' →
  ∃ served', loop_inv (evs ++ [e]) served' s' ∧ served `prefix_of` served'.
Proof.
  intros Hinv Hs. destruct e as [d| | |i o| |i|i|i| | |]; cbn in Hs.
  - destruct (0 <=? d); [|done]. injection Hs as <-. exists served. split; [|done]. by eapply loop_inv_idle.
  - destruct (phase s) eqn:Ep; [|done..]. injection Hs as <-. exists served. split; [|done]. by eapply loop_inv_idle.
  - destruct (phase s) eqn:Ep; [|done..]. injection Hs as <-. exists served. split; [|done].
    destruct Hinv as [H1 H2 H3 H4 H5 H6 H7 H8].
    assert (Hlk : ∀ j c, (conns s ++ [Silent (now s)]) !! j = Some c ↔
      conns s !! j = Some c ∨ (j = length (conns s) ∧ c = Silent (now s))).
    { intros j c. rewrite lookup_app_Some, list_lookup_singleton_Some. split; [naive_solver lia|].
      intros [?|[-> ->]]; [by left|right; split; [lia|split; [lia|done]]]. }
    split; cbn; rewrite ?spoken_snoc, ?receptions_snoc; cbn; rewrite ?app_nil_r;
      [|done|lia|done| | | |done].
    + intros _. apply H1. by rewrite Ep.
    + intros j. rewrite Hlk, H5. naive_solver.
    + intros j (c & Hc & Hw)%H6. exists c. rewrite Hlk. auto.
    + intros j c [Hc|[_ ->]]%Hlk Hd; [by eapply H7|naive_solver].
  - destruct (conns s !! i) as [[t| | |t|]|] eqn:Ei; try done. exists served. split; [|done].
    destruct o as [| |n]; [destruct (_ <=? _); [|done]|..]; injection Hs as <-; by eapply loop_inv_first_byte.
  - destruct (phase s) eqn:Ep; [|done..]. destruct (ready s) as [|i rest] eqn:Er; [done|]. injection Hs as <-.
    exists (served ++ [i]). split; [by apply loop_inv_received|by eexists].
  - destruct (conns s !! i) as [[t| | |t|]|] eqn:Ei; try done. injection Hs as <-. exists served. split; [|done].
    eapply loop_inv_move; try done. intros _. by eapply (li_got _ _ _ Hinv); [|left].
  - destruct (conns s !! i) as [[t| | |t|]|] eqn:Ei; try done. injection Hs as <-. exists served. split; [|done].
    eapply loop_inv_move; try done. naive_solver.
  - destruct (conns s !! i) as [[t| | |t|]|] eqn:Ei; try done. destruct (_ <=? _); [|done]. injection Hs as <-.
    exists served. split; [|done]. eapply loop_inv_move; try done. naive_solver.
  - destruct (phase s) eqn:Ep; [|done..]. injection Hs as <-. exists served. split; [|done].
    eapply loop_inv_idle; try done. cbn. by rewrite Ep.
  - destruct (phase s) eqn:Ep; [done| |done]. destruct (existsb _ _); [done|]. injection Hs as <-.
    exists served. split; [|done]. by eapply loop_inv_returned.
  - destruct (phase s) eqn:Ep; [done| |done]. destruct (_ <=? _); [|done]. injection Hs as <-.
    exists served. split; [|done]. by eapply loop_inv_returned.
Qed.

Lemma serve_all_snoc evs e s s' :
  serve_all fb (evs ++ [e]) s = Some s' ↔ ∃ s1, serve_all fb evs s = Some s1 ∧ serve_step fb e s1 = Some s'.
Proof.
  revert s. induction evs as [|x evs IH]; intros s; cbn.
  - rewrite bind_Some. split; [intros (? & ? & [= <-])|intros (? & [= <-] & ?)]; eauto.
  - rewrite bind_Some. split.
    + intros (s1 & Hx & (s2 & H1 & H2)%IH). exists s2. split; [|done]. by rewrite Hx.
    + intros (s2 & (s1 & Hx & H1)%bind_Some & H2). exists s1. split; [done|]. apply IH. eauto.
Qed.

Lemma serve_all_app evs more s s' :
  serve_all fb (evs ++ more) s = Some s' ↔ ∃ s1, serve_all fb evs s = Some s1 ∧ serve_all fb more s1 = Some s'.
Proof.
  revert s. induction evs as [|x evs IH]; intros s; cbn.
  - split; [eauto|]. by intros (? & [= <-] & ?).
  - rewrite bind_Some. setoid_rewrite IH. setoid_rewrite bind_Some. naive_solver.
Qed.

Lemma reachable_inv evs s : serve_all fb evs start = Some s → ∃ served, loop_inv evs served s.
Proof.
  revert s. induction evs as [|e evs IH] using rev_ind; intros s Hs.
  - injection Hs as <-. exists []. apply loop_inv_start.
  - apply serve_all_snoc in Hs as (s1 & (served & Hinv)%IH & Hs). destruct (loop_inv_step _ _ _ _ _ Hinv Hs) as (? & ? & _).
    eauto.
Qed.
End loop.

(** ** Shutdown *)

Section shutdown.
Context (fb since : Z).

Definition idle (s : Server) : Prop := ∀ i, conns s !! i ≠ Some Serving.

(** What holds from the signal on, of [s] where the signal came *)
Record stopping_inv (s s' : Server) : Prop := {
  si_none_new i : conns s' !! i = Some Serving → conns s !! i = Some Serving;
  si_phase : phase s' = Stopping since ∨
             phase s' = Returned ∧ (since + SHUTDOWN_GRACE <= now s' ∨ idle s')
}.

Lemma not_serving cs : existsb is_serving cs = false ↔ ∀ i : nat, cs !! i ≠ Some Serving.
Proof.
  split.
  - intros He i Hi. enough (existsb is_serving cs = true) by congruence.
    apply existsb_exists. exists Serving. split; [|done]. apply list_elem_of_In. by eapply list_elem_of_lookup_2.
  - intros Hn. destruct (existsb is_serving cs) eqn:E; [|done].
    apply existsb_exists in E as (c & [i Hi]%list_elem_of_In%list_elem_of_lookup_1 & Hc).
    destruct c; try done. by destruct (Hn i).
Qed.

Lemma closes_only l (cs : list Conn) j c :
  foldl (λ l i, <[i := Closed]> l) cs l !! j = Some c → c ≠ Closed → cs !! j = Some c.
Proof.
  revert cs. induction l as [|i l IH]; intros cs; cbn; [done|]. intros H Hc. apply IH in H; [|done].
  apply list_lookup_insert_Some in H as [(_ & <- & _)|[_ H]]; done.
Qed.

(** No step but a reception makes a connection one that is being served. *)
Lemma serving_before e s s' i :
  serve_step fb e s = Some s' → e ≠ Received → conns s' !! i = Some Serving → conns s !! i = Some Serving.
Proof.
  intros Hs He. destruct e as [d| | |j o| |j|j|j| | |]; cbn in Hs; try done.
  all: repeat (case_match; try done); simplify_eq; cbn; try done.
  all: unfold first_byte_done; repeat (case_match; try done); cbn.
  all: try (intros [(_ & ? & _)|[_ ?]]%list_lookup_insert_Some; done).
  all: try (intros Hc; by eapply closes_only in Hc).
  intros [?|[_ [_ ?]%list_lookup_singleton_Some]]%lookup_app_Some; done.
Qed.

Lemma stopping_step e s s1 s2 :
  stopping_inv s s1 → serve_step fb e s1 = Some s2 → stopping_inv s s2.
Proof.
  intros [Hn Hp] Hs.
  assert (Hr : e ≠ Received) by (intros ->; cbn in Hs; destruct Hp as [Hp|[Hp _]]; rewrite Hp in Hs; done).
  assert (Hb : ∀ i, conns s2 !! i = Some Serving → conns s1 !! i = Some Serving)
    by (intros i; by eapply serving_before).
  split; [by auto|]. destruct Hp as [Hp|[Hp Hd]].
  - destruct e as [d| | |j o| |j|j|j| | |]; cbn in Hs; rewrite ?Hp in Hs; try done.
    all: repeat (case_match; try done); simplify_eq; cbn; auto.
    + left. unfold first_byte_done. repeat case_match; cbn; congruence.
    + left. unfold first_byte_done. repeat case_match; cbn; congruence.
    + left. unfold first_byte_done. repeat case_match; cbn; congruence.
    + right. split; [done|]. right. intros i Hi%Hb. by eapply not_serving.
    + right. split; [done|]. left. by apply Z.leb_le.
  - right. assert (Hp2 : phase s2 = Returned ∧ now s1 <= now s2).
    { destruct e as [d| | |j o| |j|j|j| | |]; cbn in Hs; rewrite ?Hp in Hs; try done.
      all: repeat (case_match; try done); simplify_eq; cbn; try (split; [done|]); try lia.
      all: unfold first_byte_done; repeat case_match; cbn; split; try done; lia. }
    destruct Hp2 as [-> Hnow]. split; [done|]. destruct Hd as [Hd|Hd]; [left; lia|right]. intros i Hi%Hb. by eapply Hd.
Qed.
End shutdown.

(** *** How much is left to happen once the loop has stopped *)

Definition weight (c : Conn) : nat :=
  match c with Serving => 2 | Silent _ | Draining _ => 1 | Ready | Closed => 0 end.
Definition left_over (s : Server) : nat :=
  sum_list_with weight (conns s) + match phase s with Returned => 0 | _ => 1 end.
Definition is_tick (e : event) : bool := match e with Tick _ => true | _ => false end.
Definition happened (evs : list event) : nat := length (List.filter (λ e, negb (is_tick e)) evs).

Lemma weight_insert (cs : list Conn) i c c' :
  cs !! i = Some c → (sum_list_with weight (<[i := c']> cs) + weight c = sum_list_with weight cs + weight c')%nat.
Proof.
  revert i. induction cs as [|d cs IH]; intros [|i]; cbn; try done.
  - intros [= ->]. lia.
  - intros Hi%IH. rewrite <- !Nat.add_assoc. f_equal. exact Hi.
Qed.

Lemma weight_close l (cs : list Conn) :
  (sum_list_with weight (foldl (λ l i, <[i := Closed]> l) cs l) ≤ sum_list_with weight cs)%nat.
Proof.
  revert cs. induction l as [|i l IH]; intros cs; cbn; [done|]. etrans; [apply IH|].
  destruct (cs !! i) as [c|] eqn:Ei; [pose proof (weight_insert _ _ _ Closed Ei); cbn in *; lia|].
  by rewrite list_insert_ge by (by apply lookup_ge_None).
Qed.

Lemma weight_all cs : (sum_list_with weight cs ≤ 2 * length cs)%nat.
Proof. induction cs as [|c cs IH]; cbn; [done|]. destruct c; cbn; lia. Qed.

Lemma left_over_step fb e s s' :
  serve_step fb e s = Some s' → phase s ≠ Accepting →
  (left_over s' + (if is_tick e then 0 else 1) ≤ left_over s)%nat ∧ phase s' ≠ Accepting.
Proof.
  intros Hs Hp. unfold left_over.
  destruct e as [d| | |j o| |j|j|j| | |]; cbn in Hs; unfold drop_io in *;
    repeat (case_match; try done); simplify_eq; cbn -[weight];
    unfold first_byte_done; repeat (case_match; try done); cbn -[weight];
    repeat match goal with
    | H : conns _ !! j = Some ?c |- context [<[j := ?d]> _] => pose proof (weight_insert _ _ c d H); clear H
    end;
    try pose proof (weight_close (ready s) (conns s)); cbn [weight] in *; split; try congruence; try done; try lia.
  all: exfalso; unfold first_byte_done in *; cbn in *; repeat case_match; cbn in *; congruence.
Qed.

Section shutdown_claims.
Context (fb : Z).

Lemma stopping_run since s more s1 s' :
  stopping_inv since s s1 → serve_all fb more s1 = Some s' →
  stopping_inv since s s' ∧ (left_over s' + happened more ≤ left_over s1)%nat.
Proof.
  revert s1. induction more as [|e more IH]; intros s1 Hinv Hs; cbn in Hs.
  - injection Hs as <-. split; [done|]. cbn. lia.
  - apply bind_Some in Hs as (s2 & Hs & Hm).
    destruct (left_over_step _ _ _ _ Hs) as [Hl _].
    { destruct (si_phase _ _ _ Hinv) as [Hp|[Hp _]]; by rewrite Hp. }
    destruct (IH s2) as [Hi Hb]; [by eapply stopping_step|done|]. split; [done|].
    unfold happened in *. cbn. destruct (is_tick e); cbn in *; lia.
Qed.

(** C11: The accept loop.  However connections behave: those handed to hyper
    are the first of those that spoke, in that order, one per reception, and
    the others that spoke are next in line; a connection that hyper has or
    had is one that spoke within its wait; while the service runs, the loop
    can always accept, and can always take the first in line; and a
    connection silent for the configured time is closed. *)
Theorem accept_loop_fair evs s :
  serve_all fb evs start = Some s →
  ∃ served,
    served `prefix_of` spoken fb evs ∧ length served = receptions evs ∧
    (phase s ≠ Returned → spoken fb evs = served ++ ready s) ∧
    (∀ i c, conns s !! i = Some c → c = Serving ∨ (∃ t, c = Draining t) → i ∈ served) ∧
    (phase s = Accepting →
       is_Some (serve_step fb Accepted s) ∧
       ∀ i rest, ready s = i :: rest →
         ∃ s', serve_step fb Received s = Some s' ∧ conns s' !! i = Some Serving ∧ ready s' = rest) ∧
    (∀ i t, conns s !! i = Some (Silent t) → 0 < fb → t + fb <= now s →
       ∃ s', serve_step fb (FirstByte i Elapsed) s = Some s' ∧ conns s' !! i = Some Closed).
Proof.
  intros Hs. destruct (reachable_inv _ _ _ Hs) as [served [H1 H2 H3 H4 H5 H6 H7 H8]].
  exists served. split_and!; [done..| |].
  - intros Hp. split; [cbn; by rewrite Hp|]. intros i rest Hr. eexists. cbn. rewrite Hp, Hr.
    split; [done|]. cbn. split; [|done]. apply list_lookup_insert_eq.
    eapply lookup_lt_Some, H5. rewrite Hr. apply list_elem_of_here.
  - intros i t Hi Hfb Ht. cbn. rewrite Hi, (proj2 (Z.leb_le _ _) Ht). eexists. split; [done|].
    unfold await_first_byte. rewrite (proj2 (Z.eqb_neq _ _)) by lia. cbn.
    apply list_lookup_insert_eq. by eapply lookup_lt_Some.
Qed.

(** C12: A shutdown.  From the signal on no connection starts being served,
    at most two events per connection and one more can happen besides the
    passing of time, the server returns only when nothing is being served or
    [SHUTDOWN_GRACE] is over, and it can return as soon as either holds. *)
Theorem shutdown_bounded evs s since more s' :
  serve_all fb evs start = Some s → phase s = Stopping since → serve_all fb more s = Some s' →
  (∀ i, conns s' !! i = Some Serving → conns s !! i = Some Serving) ∧
  (happened more ≤ 2 * length (conns s) + 1)%nat ∧
  (phase s' = Stopping since ∨ phase s' = Returned) ∧
  (phase s' = Returned → since + SHUTDOWN_GRACE <= now s' ∨ idle s') ∧
  (phase s' = Stopping since → since + SHUTDOWN_GRACE <= now s' ∨ idle s' →
     ∃ e s'', serve_step fb e s' = Some s'' ∧ phase s'' = Returned).
Proof.
  intros _ Hp Hm. destruct (stopping_run since s more s s') as [[Hn Hph] Hl]; [|done|].
  { split; [done|by left]. }
  split; [done|]. split.
  { unfold left_over in Hl. rewrite Hp in Hl. pose proof (weight_all (conns s)). lia. }
  split; [destruct Hph as [?|[? _]]; auto|]. split.
  { intros Hr. destruct Hph as [Hph|[_ ?]]; [congruence|done]. }
  intros Hst [Hg|Hi].
  - exists GraceElapsed. eexists. cbn. rewrite Hst, (proj2 (Z.leb_le _ _) Hg). done.
  - exists AllDone. eexists. cbn. rewrite Hst. apply not_serving in Hi. by rewrite Hi.
Qed.
End shutdown_claims.

(** ** Concrete runs *)

Module ServerSample.
(** The first connection is silent, the second is served and ends, and the
    third is being served when the signal comes. *)
Definition opening : list event :=
  [Accepted; Tick 5; Accepted; FirstByte 1 (Peeked 1); Received; Accepted; FirstByte 2 (Peeked 1); Received;
   Tick 30_000; FirstByte 0 Elapsed; Ended 1; Signal].
Definition closing : list event := [Tick 3_000; DrainElapsed 1; Ended 2; AllDone].

Definition after_opening : Server :=
  {| now := 30_005; phase := Stopping 30_005; conns := [Closed; Draining 30_005; Serving]; ready := [] |}.
Definition after_closing : Server :=
  {| now := 33_005; phase := Returned; conns := [Closed; Closed; Draining 33_005]; ready := [] |}.

Example opened : serve_all 30_000 opening start = Some after_opening.
Proof. reflexivity. Qed.
Example closed : serve_all 30_000 closing after_opening = Some after_closing.
Proof. reflexivity. Qed.
End ServerSample.
Import ServerSample.

Lemma accept_loop_fair_witness :
  ∃ served, served `prefix_of` [1; 2]%nat ∧ length served = 2%nat ∧ [1; 2]%nat = served ++ [].
Proof.
  destruct (accept_loop_fair 30_000 opening after_opening eq_refl) as (served & Hp & Hl & He & _).
  exists served. split; [exact Hp|]. split; [exact Hl|]. apply He. discriminate.
Defined.

Lemma shutdown_bounded_witness :
  (happened closing ≤ 7)%nat ∧ (phase after_closing = Returned → 30_005 + SHUTDOWN_GRACE <= 33_005 ∨ idle after_closing).
Proof.
  destruct (shutdown_bounded 30_000 opening after_opening 30_005 closing after_closing eq_refl eq_refl eq_refl)
    as (_ & Hb & _ & Hr & _).
  split; [exact Hb|exact Hr].
Defined.
