(* ===== verification/BootSpec.v ===== *)
(** * BootSpec: what a start establishes

    Opening a store gives every bounded kind an exact index, whether the kind
    had one or predates it; the order in which a start does its work and how
    it can end; which upstream the self-reference warning catches; and which
    runs of the schedule the cron loop performs. *)

From Stdlib Require Import ZArith Lia Sorting.Sorted.
From stdpp Require Import base list strings option gmap sorting.
From S2P Require Import Prelude Text Errors Validate Env PckCert Selection Ocsp Keys Database Fifo FifoSpec Records Platforms Registry Urls Prog Cache Pcs Collateral Routes Config ConfigSpec Boot.

Local Open Scope Z_scope.
#[local] Set Default Proof Using "Type*".

(** ** The rows that the indexing writes *)

Section index_rows.
Context (kind : string).
Implicit Types (P : list (string * Z)).

(** The rows of a list of entries with their write times *)
Definition rows_of (P : list (string * Z)) : batch :=
  mjoin (map (λ kt, [BPut (fifo_order_key kind kt.2 kt.1) EmptyString; BPut (fifo_pos_key kt.1) (be64 kt.2)]) P).

Lemma rows_of_cons k t P :
  rows_of ((k, t) :: P) = BPut (fifo_order_key kind t k) EmptyString :: BPut (fifo_pos_key k) (be64 t) :: rows_of P.
Proof. reflexivity. Qed.

Lemma order_class_not_pos q k : in_class kind COrder q → fifo_pos_key k ≠ q.
Proof.
  intros Hq E. destruct fifo_in_all as (HO & HP & _). enough (FIFO_ORDER = FIFO_POS) by done.
  assert (Hp : starts_with FIFO_POS q = true) by (rewrite <- E; apply starts_with_app).
  exact (kind_disjoint _ _ _ HO HP Hq Hp).
Qed.

Lemma rows_of_pos P k :
  NoDup P.*1 →
  batch_lookup (rows_of P) (fifo_pos_key k) = (λ t, Some (be64 t)) <$> (list_to_map P : gmap string Z) !! k.
Proof.
  induction P as [|[k' t] P IH]; [done|]. cbn [fmap list_fmap fst]. intros [Hn HN]%NoDup_cons.
  rewrite rows_of_cons. cbn [batch_lookup]. rewrite IH by done.
  cbn [list_to_map foldr uncurry]. destruct (decide (k' = k)) as [->|Hne].
  - rewrite (proj1 (not_elem_of_list_to_map _ _)) by done. cbn. rewrite lookup_insert_eq. by rewrite decide_True.
  - rewrite lookup_insert_ne by done. destruct (list_to_map P !! k) eqn:E; cbn; [done|].
    rewrite decide_False by (by intros ?%pos_key_inj). rewrite decide_False; [done|].
    intros E'. by apply (order_class_not_pos _ k (class_order kind t k')).
Qed.

Lemma rows_of_order P q :
  in_class kind COrder q →
  batch_lookup (rows_of P) q = if decide (q ∈ map (order_row kind) P) then Some (Some EmptyString) else None.
Proof.
  intros Hq. induction P as [|[k t] P IH]; [done|].
  rewrite rows_of_cons. cbn [batch_lookup]. rewrite IH. clear IH.
  destruct (decide (q ∈ map (order_row kind) P)) as [Hin|Hni].
  { rewrite decide_True; [done|]. by right. }
  rewrite (decide_False (P := fifo_pos_key k = q)) by by apply order_class_not_pos.
  destruct (decide (fifo_order_key kind t k = q)) as [<-|Hne].
  - rewrite decide_True; [done|]. left.
  - rewrite decide_False; [done|]. by intros [->|?]%elem_of_cons.
Qed.

Lemma rows_of_other P q :
  starts_with FIFO_ORDER q = false → starts_with FIFO_POS q = false → batch_lookup (rows_of P) q = None.
Proof.
  intros Ho Hp. induction P as [|[k t] P IH]; [done|].
  rewrite rows_of_cons. cbn [batch_lookup]. rewrite IH.
  rewrite decide_False by (intros <-; by rewrite starts_with_app in Hp).
  rewrite decide_False; [done|]. intros <-.
  by rewrite (class_order kind t k : starts_with FIFO_ORDER _ = true) in Ho.
Qed.
End index_rows.

(** ** Indexing one kind *)

(** A kind as a version without the index left it: records, no index rows *)
Record unindexed (kind : string) (m : gmap string string) : Prop := {
  un_count : m !! fifo_count_key kind = None;
  un_pos k : starts_with kind k = true → m !! fifo_pos_key k = None;
  un_order r : starts_with (fifo_order_prefix kind) r = true → m !! r = None;
  un_text k : starts_with kind k = true → is_Some (m !! k) → of_bytes (utf8_lossy (bytes k)) = k
}.

(** [fetched_at] is a [u64]. *)
Class StampLaws `{Serde Stamp} := stamp_range v st : from_slice v = Some st → 0 <= stamp_fetched_at st <= u64_max.

Section index_kind.
Context {D : Type} `{DatabaseLaws D} `{Serde Stamp} `{!StampLaws}.

(** [fetched_at] of a stored record *)
Definition fetched_at (v : string) : Z :=
  match from_slice v with Some st => stamp_fetched_at st | None => 0 end.

(** An index orders the records of a kind by the time they were fetched. *)
Definition oldest_first (kind : string) (m : gmap string string) (A : gmap string Z) : Prop :=
  ∀ k k' v v' t t', m !! k = Some v → m !! k' = Some v' → A !! k = Some t → A !! k' = Some t' →
    fetched_at v < fetched_at v' → t < t' ∨ t' = u64_max.

Definition times (entries : list (Z * string)) : list (string * Z) :=
  imap (λ i e, (e.2, sat_add (sat_mul e.1 1000000) (Z.of_nat i))) entries.

Lemma index_rows_times kind entries : index_rows kind entries = rows_of kind (times entries).
Proof.
  unfold index_rows, rows_of, times. f_equal. symmetry.
  exact (fmap_imap (λ i e, (e.2, sat_add (sat_mul e.1 1000000) (Z.of_nat i)))
    (λ kt, [BPut (fifo_order_key kind kt.2 kt.1) EmptyString; BPut (fifo_pos_key kt.1) (be64 kt.2)]) entries).
Qed.

Lemma times_keys entries : (times entries).*1 = entries.*2.
Proof. unfold times. rewrite fmap_imap. by rewrite <- (imap_const snd). Qed.

Lemma times_lookup entries k t :
  (k, t) ∈ times entries ↔ ∃ i f, entries !! i = Some (f, k) ∧ t = sat_add (sat_mul f 1000000) (Z.of_nat i).
Proof.
  unfold times. split.
  - intros [i Hi]%list_elem_of_lookup_1. rewrite list_lookup_imap in Hi.
    destruct (entries !! i) as [[f k']|] eqn:E; [|done]. injection Hi as -> <-. eauto.
  - intros (i & f & Hi & ->). apply list_elem_of_lookup_2 with i. by rewrite list_lookup_imap, Hi.
Qed.

Lemma stamp_le_trans : Transitive stamp_le.
Proof.
  intros x y z [Hx|[Hx Hx']] [Hy|[Hy Hy']]; [left; lia..|right].
  split; [lia|by eapply key_le_trans].
Qed.
Lemma stamp_le_total : Total stamp_le.
Proof.
  intros x y. destruct (Z.lt_trichotomy x.1 y.1) as [?|[E|?]]; [by left; left| |by right; left].
  destruct (key_le_total x.2 y.2); [left|right]; right; auto.
Qed.

(** A scan of the kind, on a database whose operations succeed *)
Lemma scan_kind_rows p rows rest :
  Forall (λ kv, starts_with p kv.1 = true ∧ of_bytes (utf8_lossy (bytes kv.1)) = kv.1) rows →
  Forall (λ kv, starts_with p kv.1 = false) rest →
  scan_items p (map Ok (rows ++ rest)) = rows.
Proof.
  intros Hr Ht. induction Hr as [|[k v] rows [Hk Hu] _ IH]; cbn [Datatypes.app List.map scan_items].
  - destruct Ht as [|[k v] rest Hk _]; [done|]. cbn [fst] in Hk. cbn [Datatypes.app List.map scan_items]. by rewrite Hk.
  - cbn [fst] in Hk, Hu. by rewrite Hk, Hu, IH.
Qed.

(** The index of a scan *)
Section indexed.
Context (kind : string) (m : gmap string string) (rows : list (string * string)).
Context (Hkind : kind ∈ BOUNDED_KINDS) (Hun : unindexed kind m).
Context (HN : NoDup rows.*1)
  (Hrows : Forall (λ kv, starts_with kind kv.1 = true ∧ m !! kv.1 = Some kv.2) rows)
  (Hall : ∀ k v, starts_with kind k = true → m !! k = Some v → (k, v) ∈ rows).

Definition sorted_rows : list (Z * string) :=
  merge_sort stamp_le (map (λ kv, (fetched_at kv.2, kv.1)) rows).
Definition built : gmap string Z := list_to_map (times sorted_rows).
Definition built_content : gmap string string :=
  apply_batch (index_rows kind sorted_rows ++ [BPut (fifo_count_key kind) (be64 (Z.of_nat (length sorted_rows)))]) m.

Lemma row_in k v : (k, v) ∈ rows → starts_with kind k = true ∧ m !! k = Some v.
Proof. intros Hin. pose proof Hrows as Hr. rewrite list.Forall_forall in Hr. by apply (Hr (k, v)). Qed.

Lemma sorted_rows_elem f k : (f, k) ∈ sorted_rows ↔ ∃ v, (k, v) ∈ rows ∧ f = fetched_at v.
Proof.
  unfold sorted_rows. rewrite merge_sort_Permutation, list_elem_of_fmap. split.
  - intros ([k' v] & [= -> ->] & ?). eauto.
  - intros (v & ? & ->). by exists (k, v).
Qed.

Lemma times_NoDup : NoDup (times sorted_rows).*1.
Proof.
  rewrite times_keys. unfold sorted_rows. rewrite merge_sort_Permutation.
  change (NoDup (snd <$> ((λ kv, (fetched_at kv.2, kv.1)) <$> rows))). by rewrite <- list_fmap_compose.
Qed.

Lemma built_lookup k t :
  built !! k = Some t ↔ ∃ i f, sorted_rows !! i = Some (f, k) ∧ t = sat_add (sat_mul f 1000000) (Z.of_nat i).
Proof. unfold built. rewrite <- times_lookup. symmetry. apply elem_of_list_to_map, times_NoDup. Qed.

Lemma built_dom k : is_Some (built !! k) ↔ starts_with kind k = true ∧ is_Some (m !! k).
Proof.
  split.
  - intros [t (i & f & Hi & _)%built_lookup]. apply list_elem_of_lookup_2, sorted_rows_elem in Hi as (v & Hv & _).
    apply row_in in Hv as [? ->]. auto.
  - intros [Hk [v Hv]]. pose proof (Hall _ _ Hk Hv) as Hin.
    destruct (list_elem_of_lookup_1 sorted_rows (fetched_at v, k)) as [i Hi]; [apply sorted_rows_elem; eauto|].
    eexists. apply built_lookup. eauto.
Qed.

Lemma fetched_at_range v : 0 <= fetched_at v <= u64_max.
Proof. unfold fetched_at. destruct (from_slice v) eqn:E; [by eapply stamp_range|]. unfold u64_max. lia. Qed.

Lemma built_range k t : built !! k = Some t → 0 <= t <= u64_max.
Proof.
  intros (i & f & Hi & ->)%built_lookup.
  apply list_elem_of_lookup_2, sorted_rows_elem in Hi as (v & _ & ->).
  pose proof (fetched_at_range v). unfold sat_add, sat_mul, u64_max in *. lia.
Qed.

Lemma built_rows q :
  ¬ starts_with FIFO_ORDER q = true → ¬ starts_with FIFO_POS q = true → q ≠ fifo_count_key kind →
  built_content !! q = m !! q.
Proof.
  intros Ho%not_true_is_false Hp%not_true_is_false Hc. unfold built_content.
  rewrite apply_batch_lookup, batch_lookup_app, index_rows_times, rows_of_other by done.
  cbn. by rewrite decide_False by done.
Qed.

Lemma built_index q :
  q ≠ fifo_count_key kind →
  built_content !! q = match batch_lookup (rows_of kind (times sorted_rows)) q with Some r => r | None => m !! q end.
Proof.
  intros Hc. unfold built_content. rewrite apply_batch_lookup, batch_lookup_app, index_rows_times.
  cbn. by rewrite decide_False by done.
Qed.

Lemma class_not c c' q : c ≠ c' → in_class kind c q → ¬ in_class kind c' q.
Proof. intros Hne Hc Hc'. by apply Hne, (class_unique kind c c' q). Qed.

Lemma built_entry k : starts_with kind k = true → built_content !! k = m !! k.
Proof.
  intros Hk. assert (Hc : in_class kind CEntry k) by done. apply built_rows.
  - by apply (class_not CEntry COrder).
  - by apply (class_not CEntry CPos).
  - intros ->. eapply (class_not CEntry CCount); [done|exact Hc|apply class_count].
Qed.

Lemma built_inv : fifo_inv kind built_content built.
Proof.
  split.
  - intros k t Hk. split; [|by eapply built_range]. apply built_dom. by eexists.
  - intros k Hk. rewrite built_entry by done. rewrite built_dom. tauto.
  - intros k Hk. rewrite built_index.
    2:{ intros E. apply (class_not CPos CCount (fifo_pos_key k)); [done|apply class_pos|]. rewrite E. apply class_count. }
    rewrite rows_of_pos by apply times_NoDup. fold built. destruct (built !! k); cbn; [done|]. by apply (un_pos _ _ Hun).
  - intros r Hr. pose proof (class_order_prefix _ _ Hr) as Hc. rewrite built_index.
    2:{ intros ->. eapply (class_not COrder CCount); [done|exact Hc|apply class_count]. }
    rewrite rows_of_order by done. destruct (decide (r ∈ map (order_row kind) (times sorted_rows))) as [Hin|Hni].
    + split; [intros _|by eexists]. apply list_elem_of_fmap in Hin as ([k t] & -> & Hkt).
      exists k, t. split; [|done]. by apply built_lookup, times_lookup.
    + rewrite (un_order _ _ Hun) by done. split; [by intros []|]. intros (k & t & Hk & ->). destruct Hni.
      apply list_elem_of_fmap. exists (k, t). split; [done|]. by apply times_lookup, built_lookup.
  - left. unfold built_content. rewrite apply_batch_lookup, batch_lookup_app. cbn. rewrite decide_True by done.
    unfold built. rewrite map_size_list_to_map by apply times_NoDup. unfold times. by rewrite length_imap.
Qed.

Lemma built_oldest : oldest_first kind m built.
Proof.
  intros k k' v v' t t' Hv Hv' (i & f & Hi & ->)%built_lookup (j & f' & Hj & ->)%built_lookup Hlt.
  assert (Hf : ∀ n g q w, sorted_rows !! n = Some (g, q) → m !! q = Some w → g = fetched_at w).
  { intros n g q w Hn Hw. apply list_elem_of_lookup_2, sorted_rows_elem in Hn as (w' & Hin & ->).
    apply row_in in Hin as [_ E]. congruence. }
  apply (Hf i f k v) in Hi as Ef; [|done]. apply (Hf j f' k' v') in Hj as Ef'; [|done].
  assert (HS : StronglySorted stamp_le sorted_rows)
    by (apply StronglySorted_merge_sort; [apply stamp_le_trans|apply stamp_le_total]).
  assert (Hij : (i < j)%nat).
  { destruct (Nat.lt_trichotomy i j) as [?|[->|Hji]]; [done| |].
    - rewrite Hi in Hj. injection Hj as -> _. lia.
    - pose proof (sorted_lookup _ _ _ _ _ _ HS Hji Hj Hi) as [Hs|[Hs _]]; cbn in Hs; lia. }
  pose proof (fetched_at_range v). pose proof (fetched_at_range v'). subst f f'.
  unfold sat_add, sat_mul, u64_max in *. lia.
Qed.
End indexed.
End index_kind.

(** ** Opening a store *)

Section open_store.
Context {D : Type} `{DatabaseLaws D} `{Serde Stamp} `{!StampLaws}.

(** A kind whose index is exact, or that has none yet *)
Definition sound_kind (kind : string) (m : gmap string string) : Prop :=
  (∃ A, fifo_inv kind m A) ∨ unindexed kind m.

(** What the indexing of [kind] leaves, of a database with content [m] *)
Record indexed (kind : string) (m m' : gmap string string) : Prop := {
  ix_inv : ∃ A', fifo_inv kind m' A' ∧ (unindexed kind m → oldest_first kind m A');
  ix_kept A : fifo_inv kind m A → fifo_inv kind m' A;
  ix_records k : starts_with kind k = true → m' !! k = m !! k
}.

Lemma fifo_inv_fresh kind m A :
  fifo_inv kind m A → m !! fifo_count_key kind = None → A = ∅ ∧ unindexed kind m.
Proof.
  intros [H1' H2' H3' H4' H5'] Hc. destruct H5' as [H5'|[_ ->]]; [congruence|]. split; [done|].
  assert (Hno : ∀ k, starts_with kind k = true → ¬ is_Some (m !! k)).
  { intros k Hk Hs. apply H2' in Hs as [t Ht]; [|done]. by rewrite lookup_empty in Ht. }
  split; [done| | |].
  - intros k Hk. rewrite H3' by done. by rewrite lookup_empty.
  - intros r Hr. destruct (m !! r) as [v|] eqn:E; [|done].
    destruct (proj1 (H4' r Hr)) as (k & t & Hk & _); [by eexists|]. by rewrite lookup_empty in Hk.
  - intros k Hk Hs. by apply Hno in Hs.
Qed.

Lemma indexed_same kind m : kind ∈ BOUNDED_KINDS → (∃ A, fifo_inv kind m A) → m !! fifo_count_key kind ≠ None →
  indexed kind m m.
Proof.
  intros Hk [A HA] Hc. split; [|done|done]. exists A. split; [done|]. intros Hu. by destruct (un_count _ _ Hu).
Qed.

Lemma scan_healthy (s : Store D) kind :
  healthy (db s) → unindexed kind (content (db s)) →
  ∃ rows, scan_prefix s kind = rows ∧ NoDup rows.*1 ∧
    Forall (λ kv, starts_with kind kv.1 = true ∧ content (db s) !! kv.1 = Some kv.2) rows ∧
    (∀ k v, starts_with kind k = true → content (db s) !! k = Some v → (k, v) ∈ rows).
Proof.
  intros Hh Hu. destruct (healthy_entries (db s) kind Hh) as (full & Ef & Hent).
  destruct (prefix_rows _ _ _ Hent) as (rows & rest & -> & HN & Hr & Ht & Hall).
  exists rows. split_and!; [|done..]. unfold scan_prefix. rewrite Ef. apply scan_kind_rows; [|done].
  eapply Forall_impl; [exact Hr|]. intros [k v] [Hk Hv]. cbn in *. split; [done|].
  apply (un_text _ _ Hu); [done|by eexists].
Qed.

Lemma built_frame kind m rows q :
  kind ∈ BOUNDED_KINDS → unindexed kind m →
  Forall (λ kv, starts_with kind kv.1 = true ∧ m !! kv.1 = Some kv.2) rows → NoDup rows.*1 →
  (∀ k v, starts_with kind k = true → m !! k = Some v → (k, v) ∈ rows) →
  ¬ kind_row kind q → built_content kind m rows !! q = m !! q.
Proof.
  intros Hk Hu Hr HN Hall Hq.
  assert (Hc : q ≠ fifo_count_key kind) by (intros ->; apply Hq; by repeat right).
  rewrite built_index by done.
  destruct (decide (starts_with FIFO_ORDER q = true)) as [Ho|Ho].
  - rewrite rows_of_order by done. rewrite decide_False; [done|].
    intros (kt & -> & _)%list_elem_of_fmap. apply Hq. right. right. left. apply order_row_prefix.
  - destruct (batch_lookup (rows_of kind (times (sorted_rows rows))) q) as [r|] eqn:E; [|done].
    destruct (decide (starts_with FIFO_POS q = true)) as [Hp|Hp].
    + apply starts_with_spec in Hp as [k ->]. change (FIFO_POS ++ k)%string with (fifo_pos_key k) in *.
      rewrite rows_of_pos in E by (by eapply times_NoDup). apply fmap_Some in E as (t & Ht & _).
      exfalso. apply Hq. right. left. exists k. split; [|done].
      assert (Hb : is_Some (built rows !! k)) by (by eexists). by eapply built_dom in Hb as [? _].
    + rewrite rows_of_other in E by (by apply not_true_is_false). done.
Qed.

Lemma unindexed_empty kind m :
  unindexed kind m → (∀ k v, starts_with kind k = true → m !! k = Some v → False) → fifo_inv kind m ∅.
Proof.
  intros [U1 U2 U3 _] Hno. split.
  - intros k t Ht. by rewrite lookup_empty in Ht.
  - intros k Hk. rewrite lookup_empty. split; [intros [v Hv]; exfalso; by eapply Hno|by intros []].
  - intros k Hk. by rewrite U2, lookup_empty.
  - intros r Hr. rewrite U3 by done. split; [by intros []|]. intros (k & t & Hk & _). by rewrite lookup_empty in Hk.
  - by right.
Qed.

Lemma index_kind_correct kind (s : Store D) :
  healthy (db s) → kind ∈ BOUNDED_KINDS → sound_kind kind (content (db s)) →
  ∃ d', index_kind kind s = (set_db s d', Ok ()) ∧
    indexed kind (content (db s)) (content d') ∧
    (∀ q, ¬ kind_row kind q → content d' !! q = content (db s) !! q).
Proof.
  intros Hh Hk Hs. unfold index_kind. pose proof Hh as (Hg & Hw & _). destruct (Hg (fifo_count_key kind)) as [v Ev].
  rewrite Ev. apply db_get_ok in Ev. destruct v as [v|].
  - exists (db s). split; [by destruct s|]. split; [|done]. apply indexed_same; [done| |by rewrite <- Ev].
    destruct Hs as [?|Hu]; [done|]. pose proof (un_count _ _ Hu). congruence.
  - assert (Hu : unindexed kind (content (db s)))
      by (destruct Hs as [[A HA]|?]; [by eapply fifo_inv_fresh|done]).
    destruct (scan_healthy s kind Hh Hu) as (rows & -> & HN & Hr & Hall).
    destruct rows as [|row rows].
    + exists (db s). split; [by destruct s|]. split; [|done]. split; [|done..].
      exists ∅. split; [by apply unindexed_empty; [..|intros k v Hp Hv%Hall; [by apply elem_of_nil in Hv|]]|].
      by intros _ k k' v v' t t' _ _ Ht%lookup_empty_Some.
    + destruct (Hw (index_rows kind (sorted_rows (row :: rows)) ++
        [BPut (fifo_count_key kind) (be64 (Z.of_nat (length (sorted_rows (row :: rows)))))])) as [d' Ed].
      exists d'. split.
      { match type of Ed with db_write _ ?b = _ =>
          cbn [List.map]; match goal with |- context [db_write (db s) ?c] => change c with b end
        end. by rewrite Ed. }
      apply db_write_ok in Ed. change (content d' = built_content kind (content (db s)) (row :: rows)) in Ed.
      rewrite Ed. split; [|intros q; by apply built_frame]. split.
      * exists (built (row :: rows)). split; [by apply built_inv|]. intros _. by eapply built_oldest.
      * intros A HA. destruct (fifo_inv_fresh _ _ _ HA (eq_sym Ev)) as [-> _]. exfalso.
        destruct row as [k v]. destruct (proj1 (list.Forall_cons _ _ _) Hr) as [[Hp Hv] _]. cbn in Hp, Hv.
        destruct (proj1 (fi_entry _ _ _ HA k Hp)) as [t Ht]; [by eexists|]. by rewrite lookup_empty in Ht.
      * intros k Hp. by eapply built_entry.
Qed.

(** *** The kinds one after the other *)

Definition agree (kind : string) (m m' : gmap string string) : Prop := ∀ q, kind_row kind q → m' !! q = m !! q.

Lemma agree_sym kind m m' : agree kind m m' → agree kind m' m.
Proof. intros Ha q Hq. symmetry. by apply Ha. Qed.

Lemma agree_entry kind m m' k : agree kind m m' → starts_with kind k = true → m' !! k = m !! k.
Proof. intros Ha Hk. apply Ha. by left. Qed.

Lemma fifo_inv_agree kind m m' A : agree kind m m' → fifo_inv kind m A → fifo_inv kind m' A.
Proof.
  intros Ha [I1 I2 I3 I4 I5]. split; [done|..].
  - intros k Hk. rewrite (agree_entry _ _ _ _ Ha Hk). by apply I2.
  - intros k Hk. rewrite Ha by (right; left; by exists k). by apply I3.
  - intros r Hr. rewrite Ha by (right; right; by left). by apply I4.
  - by rewrite Ha by (by repeat right).
Qed.

Lemma unindexed_agree kind m m' : agree kind m m' → unindexed kind m → unindexed kind m'.
Proof.
  intros Ha [U1 U2 U3 U4]. split.
  - by rewrite Ha by (by repeat right).
  - intros k Hk. rewrite Ha by (right; left; by exists k). by apply U2.
  - intros r Hr. rewrite Ha by (right; right; by left). by apply U3.
  - intros k Hk. rewrite (agree_entry _ _ _ _ Ha Hk). by apply U4.
Qed.

Lemma sound_kind_agree kind m m' : agree kind m m' → sound_kind kind m → sound_kind kind m'.
Proof.
  intros Ha [[A HA]|Hu]; [left; exists A; by eapply fifo_inv_agree|right; by eapply unindexed_agree].
Qed.

Lemma indexed_agree_l kind m m1 m2 : agree kind m m1 → indexed kind m1 m2 → indexed kind m m2.
Proof.
  intros Ha [(A & HA & Ho) Hk Hr]. split.
  - exists A. split; [done|]. intros Hu. specialize (Ho (unindexed_agree _ _ _ Ha Hu)).
    intros k k' v v' t t' Hv Hv' Ht Ht'.
    destruct (fi_keys _ _ _ HA _ _ Ht) as [Hp _], (fi_keys _ _ _ HA _ _ Ht') as [Hp' _].
    eapply Ho; [rewrite (agree_entry _ _ _ _ Ha Hp); exact Hv|rewrite (agree_entry _ _ _ _ Ha Hp'); exact Hv'|done..].
  - intros B HB. by apply Hk, (fifo_inv_agree kind m m1).
  - intros k Hp. rewrite Hr by done. by apply (agree_entry kind).
Qed.

Lemma indexed_agree_r kind m m1 m2 : indexed kind m m1 → agree kind m1 m2 → indexed kind m m2.
Proof.
  intros [(A & HA & Ho) Hk Hr] Ha. split.
  - exists A. split; [by eapply fifo_inv_agree|done].
  - intros B HB. eapply fifo_inv_agree; [done|by apply Hk].
  - intros k Hp. rewrite (agree_entry _ _ _ _ Ha Hp). by apply Hr.
Qed.

Lemma frame_agree kind kind' (m m' : gmap string string) :
  kind ∈ BOUNDED_KINDS → kind' ∈ BOUNDED_KINDS → kind ≠ kind' →
  (∀ q, ¬ kind_row kind q → m' !! q = m !! q) → agree kind' m m'.
Proof. intros Hk Hk' Hne Hf q Hq. apply Hf. intros Hq'. by apply Hne, (kind_rows_disjoint kind kind' q). Qed.

Lemma index_kinds_correct kinds (s : Store D) :
  (∀ d : D, healthy d) → NoDup kinds →
  (∀ kind, kind ∈ kinds → kind ∈ BOUNDED_KINDS ∧ sound_kind kind (content (db s))) →
  ∃ d', index_kinds kinds s = (set_db s d', Ok ()) ∧
    (∀ kind, kind ∈ kinds → indexed kind (content (db s)) (content d')) ∧
    (∀ q, (∀ kind, kind ∈ kinds → ¬ kind_row kind q) → content d' !! q = content (db s) !! q).
Proof.
  intros Hh HN. revert s. induction HN as [|kind kinds Hni HN IH]; intros s Hs.
  { exists (db s). split; [by destruct s|]. split; [|done]. by intros kind ?%elem_of_nil. }
  destruct (Hs kind (list_elem_of_here _ _)) as [Hk Hsk].
  destruct (index_kind_correct kind s (Hh _) Hk Hsk) as (d1 & E1 & Hi1 & Hf1).
  assert (Ha : ∀ kind', kind' ∈ kinds → kind' ∈ BOUNDED_KINDS → agree kind' (content (db s)) (content d1)).
  { intros kind' Hin Hk'. eapply (frame_agree kind); [done..| |done]. by intros ->. }
  destruct (IH (set_db s d1)) as (d2 & E2 & Hi2 & Hf2).
  { intros kind' Hin. destruct (Hs kind' (list_elem_of_further _ _ _ Hin)) as [Hk' Hsk'].
    split; [done|]. eapply sound_kind_agree; [|done]. by apply Ha. }
  cbn [index_kinds]. rewrite E1, E2. exists d2. split; [done|]. split.
  - intros kind' [->|Hin]%elem_of_cons.
    + eapply indexed_agree_r; [exact Hi1|]. intros q Hq. apply Hf2. intros kind'' Hin'' Hq''.
      destruct (Hs kind'' (list_elem_of_further _ _ _ Hin'')) as [Hk'' _].
      apply Hni. by rewrite (kind_rows_disjoint kind kind'' q).
    + destruct (Hs kind' (list_elem_of_further _ _ _ Hin)) as [Hk' _].
      eapply indexed_agree_l; [by apply Ha|]. by apply Hi2.
  - intros q Hq. rewrite Hf2 by (intros kind' Hin; apply Hq; by right). apply Hf1, Hq. left.
Qed.
End open_store.

(** ** The claims about opening *)

Section open_claims.
Context {D : Type} `{DatabaseLaws D} `{Serde Stamp} `{!StampLaws}.
Context (host : Host D).

(** C10: Opening a store, on a database whose operations succeed: whether the
    bounded kinds have an exact index or were written by a version without
    one, every kind has an exact index afterwards; an index that was there
    is kept; a new one orders the records by the time they were fetched, so
    that the first to be evicted is the oldest; and no record changes, nor
    any row that is not part of an index. *)
Theorem open_indexes_store path rocks d :
  (∀ d : D, healthy d) → db_open host (apply_rocksdb_opts true rocks) path = Some d →
  (∀ kind, kind ∈ BOUNDED_KINDS → sound_kind kind (content d)) →
  ∃ s, open host path rocks = Ok s ∧
    (∀ kind, kind ∈ BOUNDED_KINDS →
       (∃ A', fifo_inv kind (content (db s)) A' ∧
              (unindexed kind (content d) → oldest_first kind (content d) A')) ∧
       (∀ A, fifo_inv kind (content d) A → fifo_inv kind (content (db s)) A) ∧
       (∀ k, starts_with kind k = true → content (db s) !! k = content d !! k)) ∧
    (∀ q, (∀ kind, kind ∈ BOUNDED_KINDS → ¬ kind_row kind q) → content (db s) !! q = content d !! q).
Proof.
  intros Hh Ho Hs. unfold open. rewrite Ho. cbn [ok_or mbind result_bind]. unfold index_unindexed_entries.
  destruct (index_kinds_correct BOUNDED_KINDS (mkStore d 0 DEFAULT_READTHROUGH_MAX_ENTRIES_PER_KIND) Hh)
    as (d' & E & Hi & Hf).
  - apply (bool_decide_unpack (NoDup BOUNDED_KINDS)). vm_compute. exact I.
  - intros kind Hk. split; [done|]. by apply Hs.
  - rewrite E. eexists. split; [done|]. split; [|exact Hf]. intros kind Hk.
    by destruct (Hi kind Hk) as [Hinv Hkept Hrec].
Qed.
End open_claims.

(** ** The order of a start *)

(** Before any [e] of the list there is an effect with [P]. *)
Definition precedes (P : effect → Prop) (e : effect) (l : list effect) : Prop :=
  ∀ pre post, l = pre ++ e :: post → ∃ e', e' ∈ pre ∧ P e'.

Lemma precedes_cons (P : effect → Prop) e x l : x ≠ e → P x ∨ precedes P e l → precedes P e (x :: l).
Proof.
  intros Hne HP [|y pre] post; cbn; intros [= -> ->]; [done|]. destruct HP as [HP|HP].
  - exists y. split; [left|done].
  - destruct (HP pre post eq_refl) as (e' & ? & ?). exists e'. split; [by right|done].
Qed.

Lemma precedes_quiet P e l1 l2 : e ∉ l1 → precedes P e l2 → precedes P e (l1 ++ l2).
Proof.
  induction l1 as [|x l1 IH]; [done|]. intros [Hne Hn]%not_elem_of_cons HP. cbn.
  apply precedes_cons; [done|]. right. by apply IH.
Qed.

Lemma precedes_nil P e : precedes P e [].
Proof. by intros [|??] ?. Qed.

Section order.
Context {D V : Type} `{Database D} `{Json V} `{Base64} `{Sha2} `{Chrono} `{Resolver}.
Context `{Serde PckCertRecord} `{Serde PlatformPool} `{Serde (TcbRecord V)} `{Serde (IdentityRecord V)}
  `{Serde PckCrlRecord} `{Serde (list Z)} `{Serde CrlRecord} `{Serde AppraisalList} `{Serde Stamp}.
Context (host : Host D) (cfg : Config).

Lemma logged_only l e : (∀ n, e ≠ Logged n) → e ∉ map Logged l.
Proof. intros Hn (n & -> & _)%list_elem_of_fmap. by apply (Hn n). Qed.

(** What a start does: [Some l] is the list of its effects after the
    warnings, where there is one to listen for. *)
Lemma run_unfold :
  run (V := V) host cfg =
  match to_socket_addrs (bind_addr cfg) ≫= head with
  | None => ([], Err (ExitCode 1))
  | Some addr =>
      let '(l, r) := (_ ← app_state (V := V) host cfg;
                      metrics ← start_metrics_listener host (c_metrics_listen cfg ≫= parse_socket_addr);
                      _ ← emit [SchedulerSpawned];
                      _ ← serve host cfg addr;
                      emit (SchedulerAborted :: match metrics with Some _ => [MetricsStopped] | None => [] end ++
                            [StateDropped])) in
      (map Logged (validate_token_hashes cfg ++ warn_on_dev_tokens cfg ++ warn_on_self_upstream cfg addr) ++ l, r)
  end.
Proof.
  unfold run, resolve_bind_addr, or_exit. destruct (to_socket_addrs (bind_addr cfg) ≫= head) as [addr|]; [|done].
  cbn [mbind mret Run_bind Run_ret emit Datatypes.app].
  by match goal with |- context [app_state host cfg ≫= ?f] => destruct (app_state host cfg ≫= f) end.
Qed.

(** [find_effect] finds the effect that comes first. *)
Ltac find_effect :=
  match goal with
  | |- is_Some _ → _ => first [by intros []|intros _; find_effect]
  | |- precedes _ _ (_ ++ _) => apply precedes_quiet; [auto|find_effect]
  | |- precedes _ _ [] => apply precedes_nil
  | |- precedes _ _ (_ :: _) =>
      apply precedes_cons; [done|]; first [left; solve [reflexivity|eexists; reflexivity]|right; find_effect]
  | |- _ ∉ [] => apply not_elem_of_nil
  | |- _ ∉ _ =>
      apply not_elem_of_app; split; [auto|]; rewrite ?not_elem_of_cons;
      split_and?; try done; apply not_elem_of_nil
  | |- _ ∈ _ => apply elem_of_app; right; rewrite ?elem_of_cons; tauto
  | |- _ ∨ _ => auto
  end.

(** The order of a start.  The service is marked as started only after
    the store was opened, after the metrics listener was bound if one is
    configured, and after the TLS key was loaded or, without TLS, the address
    bound.  A start that fails before that point ends with code 1 or a panic
    and never serves; one that ends normally aborts the scheduler before it
    drops the store. *)
Theorem boot_order effects r :
  run (V := V) host cfg = (effects, r) →
  precedes (eq CacheBuilt) MarkedStarted effects ∧
  (is_Some (c_metrics_listen cfg ≫= parse_socket_addr) → precedes (λ e, ∃ a, e = MetricsBound a) MarkedStarted effects) ∧
  (if c_https cfg then precedes (eq TlsLoaded) MarkedStarted effects
   else precedes (λ e, ∃ a, e = ListenerBound a) MarkedStarted effects) ∧
  precedes (eq SchedulerAborted) StateDropped effects ∧
  precedes (eq MarkedStarted) Served effects ∧
  match r with
  | Ok _ => MarkedStarted ∈ effects
  | Err e => MarkedStarted ∉ effects ∧ (e = ExitCode 1 ∨ e = Panicked)
  end.
Proof.
  rewrite run_unfold. destruct (to_socket_addrs (bind_addr cfg) ≫= head) as [addr|].
  2:{ intros [= <- <-]. split_and!; try destruct (c_https cfg); find_effect. }
  set (W := map Logged _).
  assert (HW : ∀ e, (∀ n, e ≠ Logged n) → e ∉ W) by (intros e; apply logged_only).
  clearbody W. generalize (c_metrics_listen cfg ≫= parse_socket_addr). intros metrics.
  unfold app_state, start_metrics_listener, serve, or_exit, exit, emit, mbind, mret, Run_bind, Run_ret.
  destruct (build_cache host cfg) as [st|]; cbn.
  - destruct metrics as [ma|]; cbn.
    + destruct (is_loopback host (ip ma)); destruct (bind_metrics host ma); cbn;
        destruct (c_https cfg); try destruct (from_pem_file host (c_cert cfg) (c_key cfg)); cbn;
        destruct (bind_server host addr); cbn; intros [= <- <-]; cbn; split_and!; find_effect.
    + destruct (c_https cfg); try destruct (from_pem_file host (c_cert cfg) (c_key cfg)); cbn;
        destruct (bind_server host addr); cbn; intros [= <- <-]; cbn; split_and!; find_effect.
  - intros [= <- <-]. cbn. split_and!; try destruct (c_https cfg); find_effect.
Qed.

(** Over TLS an address that cannot be bound ends the process with code 0,
    after the service was marked as started. *)
Lemma https_bind_failure addr st :
  c_https cfg = true → to_socket_addrs (bind_addr cfg) ≫= head = Some addr → build_cache (V := V) host cfg = Ok st →
  c_metrics_listen cfg = None → from_pem_file host (c_cert cfg) (c_key cfg) = true → bind_server host addr = None →
  exit_of (run (V := V) host cfg) = ExitCode 0 ∧ MarkedStarted ∈ (run (V := V) host cfg).1 ∧
  Served ∉ (run (V := V) host cfg).1.
Proof.
  intros Hh Ha Hb Hm Hp Hs. rewrite run_unfold, Ha, Hm. set (W := map Logged _).
  assert (HW : ∀ e, (∀ n, e ≠ Logged n) → e ∉ W) by (intros e; apply logged_only).
  unfold app_state, start_metrics_listener, serve. rewrite Hb, Hh, Hp, Hs. cbn.
  split_and!; [done|find_effect..].
Qed.
End order.

(** ** Which upstream looks like the service itself *)

Section self_upstream.
Context `{ResolverLaws}.

Lemma rsplit_once_free c s : free_of c s → rsplit_once c s = None.
Proof.
  unfold free_of. induction s as [|d s IH]; [done|]. cbn. intros [Hd Hs]%andb_true_iff.
  rewrite IH by done. apply negb_true_iff in Hd. by rewrite Hd.
Qed.

Lemma bare_host_unresolved s : free_of ":" s → to_socket_addrs s = None.
Proof.
  intros Hs. unfold to_socket_addrs. destruct (parse_socket_addr s) as [a|] eqn:E.
  - apply socket_addr_colon in E. unfold contains_char in E. unfold free_of in Hs. by rewrite Hs in E.
  - by rewrite rsplit_once_free.
Qed.

Lemma lower_free_colon s : free_of ":" s → free_of ":" (to_lower s).
Proof.
  unfold free_of, to_lower. rewrite str_all_map. apply str_all_impl. intros c.
  destruct (Ascii.eqb_spec ":" c) as [->|Hne]; [done|]. intros _. apply negb_true_iff, Ascii.eqb_neq.
  intros E. apply Hne. revert E. clear. destruct c as [[] [] [] [] [] [] [] []]; vm_compute; congruence.
Qed.

(** The warning about an upstream that is the service itself compares
    names only: for a URL whose host is not a bracketed address, it is given
    exactly when the host equals the configured one in lower case.  The
    address the service is bound to is never compared, because a host
    without a port does not resolve. *)
Theorem self_upstream_by_name cfg addr u label :
  url_wf u →
  warn_if_uri_is_self cfg addr (url_of u) label =
    if decide (to_lower (u_host u) = to_lower (c_host cfg)) then [SelfUpstream label] else [].
Proof.
  intros Hu. unfold warn_if_uri_is_self. rewrite uri_host_of by done.
  rewrite bare_host_unresolved, orb_false_r.
  - destruct (decide _) as [->|Hne]; [by rewrite String.eqb_refl|]. by rewrite (proj2 (String.eqb_neq _ _) Hne).
  - apply lower_free_colon. destruct Hu as (_ & Hh & _). unfold free_of. revert Hh. apply str_all_impl.
    intros c. unfold host_char. by destruct (ends_authority c), (Ascii.eqb "@" c), (Ascii.eqb ":" c).
Qed.
End self_upstream.

(** ** The cron loop *)

(** [cron::Schedule::upcoming]: the first time of the schedule after now *)
Class Cron (slot : Z → Prop) (upcoming : Z → option Z) := {
  upcoming_some t n : upcoming t = Some n → t < n ∧ slot n ∧ ∀ m, t < m < n → ¬ slot m;
  upcoming_none t m : upcoming t = None → t < m → ¬ slot m
}.

Section cron.
Context (slot : Z → Prop) (upcoming : Z → option Z) `{!Cron slot upcoming}.

(** The clock of the loop: a sleep lasts at least as long as asked, and the
    next look comes after the run. *)
Fixpoint well_timed (turns : list turn) : Prop :=
  match turns with
  | [] => True
  | t :: turns' =>
      (∀ n, upcoming (looked t) = Some n → looked t + wait (looked t) n <= woke t) ∧
      match turns' with [] => True | t' :: _ => woke t <= looked t' end ∧
      well_timed turns'
  end.

Lemma scheduler_lookup turns i n t :
  scheduler upcoming turns !! i = Some (n, t) → turns !! i = Some t ∧ upcoming (looked t) = Some n.
Proof.
  revert i. induction turns as [|t' turns IH]; intros i; [done|]. cbn.
  destruct (upcoming (looked t')) as [n'|] eqn:E; [|done]. destruct i as [|i]; cbn; [|by apply IH].
  by intros [= <- <-].
Qed.

Lemma scheduler_stops turns :
  (length (scheduler upcoming turns) < length turns)%nat →
  ∃ t, turns !! length (scheduler upcoming turns) = Some t ∧ upcoming (looked t) = None.
Proof.
  induction turns as [|t turns IH]; cbn; [lia|]. destruct (upcoming (looked t)) as [n|] eqn:E; cbn.
  - intros Hl. apply IH. lia.
  - intros _. by exists t.
Qed.

Lemma well_timed_wake turns i t n :
  well_timed turns → turns !! i = Some t → upcoming (looked t) = Some n → n <= woke t.
Proof.
  revert i. induction turns as [|t' turns IH]; intros i; [done|]. cbn. intros (Hw & _ & Ht). destruct i as [|i]; cbn.
  - intros [= <-] Hn. specialize (Hw n Hn). destruct (upcoming_some _ _ Hn) as [Hlt _]. unfold wait in Hw.
    rewrite (proj2 (Z.leb_le _ _)) in Hw by lia. lia.
  - by apply IH.
Qed.

Lemma well_timed_next turns i t t' :
  well_timed turns → turns !! i = Some t → turns !! S i = Some t' → woke t <= looked t'.
Proof.
  revert i. induction turns as [|x turns IH]; intros i; [done|]. cbn. intros (_ & Hn & Ht). destruct i as [|i]; cbn.
  - intros [= <-] Ht'. destruct turns as [|y turns]; [done|]. cbn in Ht'. by injection Ht' as ->.
  - by apply IH.
Qed.

End cron.

(** ** Concrete runs *)

Module BootSample.
Import MapDb.

(** Daily at 01:00 *)
Definition day : Z := 86_400_000_000_000.
Definition one_oclock : Z := 3_600_000_000_000.
Definition daily (t : Z) : Prop := (t - one_oclock) mod day = 0.
Definition next_daily (t : Z) : option Z := Some (t + (day - (t - one_oclock) mod day)).

#[export] Instance daily_cron : Cron daily next_daily.
Proof.
  split; [|done]. intros t n [= <-]. unfold daily.
  assert (Hd : 0 < day) by done. pose proof (Z.mod_pos_bound (t - one_oclock) day Hd) as Hr.
  pose proof (Z.div_mod (t - one_oclock) day ltac:(done)) as Ht.
  set (q := (t - one_oclock) / day) in *. set (r := (t - one_oclock) mod day) in *.
  split_and!; [lia| |].
  - replace (t + (day - r) - one_oclock) with ((q + 1) * day) by lia. by apply Z_mod_mult.
  - intros m Hm Hs. pose proof (Z.div_mod (m - one_oclock) day ltac:(done)) as Hk. rewrite Hs in Hk.
    set (k := (m - one_oclock) / day) in *. clearbody k q r. unfold day, one_oclock in *. lia.
Qed.

(** Two runs; the first takes two days. *)
Definition two_turns : list turn :=
  [{| looked := 0; woke := 3_600_000_000_001 |}; {| looked := 176_400_000_000_001; woke := 262_800_000_000_000 |}].

(** Addresses are digits and dots. *)
#[export] Instance digits_resolver : Resolver := {|
  parse_socket_addr s :=
    '(h, p) ← rsplit_once ":" s;
    if str_all (λ c, is_digit c || Ascii.eqb "." c) h then n ← parse_uint 65535 p; Some {| ip := h; port := n |} else None;
  lookup_host _ _ := None
|}.
#[export] Instance digits_resolver_laws : ResolverLaws.
Proof.
  split. intros s a Hs. unfold contains_char. destruct (str_all (λ d, negb (Ascii.eqb ":" d)) s) eqn:E; [|done].
  exfalso. cbn in Hs. rewrite rsplit_once_free in Hs by done. done.
Qed.

(** A record is its [fetched_at]. *)
#[export] Instance stamp_serde : Serde Stamp := {|
  to_vec st := Some (to_dec (stamp_fetched_at st));
  from_slice v := n ← parse_uint u64_max v; Some {| stamp_fetched_at := n |}
|}.
#[export] Instance stamp_laws : StampLaws.
Proof. intros v st Hv. cbn in Hv. apply bind_Some in Hv as (n & Hn & [= <-]). by eapply parse_uint_range. Qed.

(** A database written by a version without the index *)
Definition old_map : gmap string string := {[ "amd-kds/a"%string := "7"%string; "amd-kds/b"%string := "3"%string ]}.

Definition sample_host : Host (gmap string string) := {|
  create_dir_all _ := true; db_open _ _ := Some old_map; read_to_string _ := None; native_roots := true;
  bind_metrics a := Some a; bind_server a := Some a; from_pem_file _ _ := true; is_loopback _ := true
|}.
End BootSample.
Import MapDb Codec Concrete CollateralSample BootSample.


Definition local_url : UrlParts :=
  {| u_scheme := "http"; u_user := None; u_host := "LOCALHOST"; u_port := Some "8081"%string; u_rest := "/" |}.

(** The service listens on 127.0.0.1, its upstream is localhost: no warning. *)
Lemma self_upstream_by_name_witness :
  warn_if_uri_is_self default_config {| ip := "127.0.0.1"; port := 8081 |} (url_of local_url) "upstream uri host" = [].
Proof.
  rewrite (self_upstream_by_name default_config {| ip := "127.0.0.1"; port := 8081 |} local_url).
  - vm_compute. reflexivity.
  - split_and!; [reflexivity|reflexivity|discriminate|discriminate| |reflexivity].
    intros p [= <-]. reflexivity.
Defined.

Definition sample_start : list effect :=
  [Logged (TokenDisabled "UserTokenHash"); Logged (TokenDisabled "AdminTokenHash");
   CacheBuilt; SchedulerSpawned; ListenerBound {| ip := "127.0.0.1"; port := 8081 |}; MarkedStarted; Served;
   SchedulerAborted; StateDropped].

Lemma boot_order_witness :
  precedes (eq CacheBuilt) MarkedStarted sample_start ∧ precedes (eq SchedulerAborted) StateDropped sample_start.
Proof.
  destruct (boot_order (V := jvalue) sample_host default_config sample_start (Ok ())) as (Hc & _ & _ & Hs & _).
  - vm_compute. reflexivity.
  - split; [exact Hc|exact Hs].
Defined.

Lemma old_map_other q : q ≠ "amd-kds/a"%string → q ≠ "amd-kds/b"%string → old_map !! q = None.
Proof. intros Ha Hb. unfold old_map. by rewrite lookup_insert_ne, lookup_singleton_ne by done. Qed.

Lemma old_map_unindexed kind : kind ∈ BOUNDED_KINDS → unindexed kind old_map.
Proof.
  intros _. split.
  - by apply old_map_other.
  - intros k _. by apply old_map_other.
  - intros r [k ->]%starts_with_spec. by apply old_map_other.
  - intros k _ Hk. destruct (decide (k = "amd-kds/a"%string)) as [->|Ha]; [reflexivity|].
    destruct (decide (k = "amd-kds/b"%string)) as [->|Hb]; [reflexivity|].
    rewrite old_map_other in Hk by done. by destruct Hk.
Qed.

(** The record fetched first is the first in the new index. *)
Lemma open_indexes_store_witness :
  ∃ s A, open sample_host "db" rocks = Ok s ∧ fifo_inv AMD_KDS (content (db s)) A ∧
    content (db s) !! "amd-kds/a"%string = Some "7"%string ∧ oldest_first AMD_KDS old_map A.
Proof.
  destruct (open_indexes_store sample_host "db" rocks old_map) as (s & Ho & Hk & _).
  - exact FifoSpec.Sample.map_healthy.
  - reflexivity.
  - intros kind Hin. right. apply old_map_unindexed. exact Hin.
  - destruct (Hk AMD_KDS (list_elem_of_here _ _)) as ((A & HA & Hf) & _ & Hr).
    exists s, A. split; [exact Ho|]. split; [exact HA|]. split.
    + rewrite (Hr "amd-kds/a"%string eq_refl). reflexivity.
    + apply Hf, old_map_unindexed, list_elem_of_here.
Defined.
