(* ===== verification/Loadgen.v ===== *)
(** * Loadgen: the benchmark client (src/src/bin/loadgen.rs)

    Each worker asks for the paths of every [concurrency]-th index, one
    request at a time, until it is told to stop.  What the server answers and
    how long it takes are the events; [f64] arithmetic is the Standard
    Library's binary64.  Scheduling the stop after [duration] seconds and
    printing the results are not modelled. *)

From Stdlib Require Import ZArith Lia SpecFloat.
From stdpp Require Import base list strings option sorting.
From S2P Require Import Prelude Text.

Local Open Scope Z_scope.
#[local] Set Default Proof Using "Type*".

Record Args := {
  url : string; duration : Z; concurrency : nat; insecure : bool; warmup : Z;
  qeid : string; cpusvn : string; pcesvn : string; pceid : string; fmspc : string
}.

Definition default_args : Args := {|
  url := "http://127.0.0.1:8081"; duration := 5; concurrency := 32; insecure := false; warmup := 0;
  qeid := "AAAAAAAAAAAAAAAAAAAAAAAAAAAAAAAA"; cpusvn := "BBBBBBBBBBBBBBBBBBBBBBBBBBBBBBBB";
  pcesvn := "CCCC"; pceid := "DDDD"; fmspc := "ABCDABCDABCD"
|}%string.

Definition pick_path (args : Args) (i : Z) : string :=
  let r := i mod 10 in
  if r <? 7 then
    ("/sgx/certification/v4/pckcert?qeid=" ++ qeid args ++ "&cpusvn=" ++ cpusvn args ++
     "&pcesvn=" ++ pcesvn args ++ "&pceid=" ++ pceid args)%string
  else if r <? 9 then ("/sgx/certification/v4/tcb?fmspc=" ++ fmspc args)%string
  else "/sgx/certification/v4/qe/identity"%string.

(** Which certificates the client accepts: [NoVerifier] accepts all. *)
Inductive Verifier := NoVerifier.
Inductive AnyClient := HttpClient | HttpsClient (v : Verifier).

Definition build_client (https _insecure : bool) : AnyClient :=
  if https then HttpsClient NoVerifier else HttpClient.

Record Counters := { ok : Z; err : Z; lat_us : list Z }.

Definition new_counters : Counters := {| ok := 0; err := 0; lat_us := [] |}.
(** [Counters::reset] *)
Definition reset (c : Counters) : Counters := {| ok := 0; err := 0; lat_us := [] |}.

(** What a request ends in: a response whose body was read, after so many
    microseconds, or no response *)
Inductive Outcome := Responded (status us : Z) | NoResponse.

Definition is_success (status : Z) : bool := (200 <=? status) && (status <? 300).

(** [AtomicU64::fetch_add] wraps around. *)
Definition tally (c : Counters) (o : Outcome) : Counters :=
  match o with
  | Responded status us =>
      if is_success status then
        {| ok := wrap 64 (ok c + 1); err := err c; lat_us := lat_us c ++ [us] |}
      else {| ok := ok c; err := wrap 64 (err c + 1); lat_us := lat_us c |}
  | NoResponse => {| ok := ok c; err := wrap 64 (err c + 1); lat_us := lat_us c |}
  end.

(** A worker between two polls of its loop *)
Inductive Worker :=
| Idle (n : Z)  (** about to look at the stop flag *)
| Asking (n : Z) (uri : string)  (** [n] is already the next index *)
| Ended.

Record Bench := { stop : bool; workers : list Worker; counters : Counters; asked : list string }.

Inductive bevent := Poll (w : nat) | Answer (w : nat) (o : Outcome) | Stop.

(** The spawning loop of [run_workers] *)
Definition run_workers (args : Args) (c : Counters) : Bench :=
  {| stop := false; workers := map (λ w, Idle (Z.of_nat w)) (seq 0 (concurrency args)); counters := c; asked := [] |}.

Definition bstep (args : Args) (base : string) (e : bevent) (s : Bench) : option Bench :=
  match e with
  | Poll w =>
      match workers s !! w with
      | Some (Idle n) =>
          if stop s then Some {| stop := true; workers := <[w := Ended]> (workers s); counters := counters s; asked := asked s |}
          else let uri := (base ++ pick_path args n)%string in
               Some {| stop := false;
                       workers := <[w := Asking (wrap 64 (n + Z.of_nat (concurrency args))) uri]> (workers s);
                       counters := counters s; asked := asked s ++ [uri] |}
      | _ => None
      end
  | Answer w o =>
      match workers s !! w with
      | Some (Asking n _) =>
          Some {| stop := stop s; workers := <[w := Idle n]> (workers s); counters := tally (counters s) o; asked := asked s |}
      | _ => None
      end
  | Stop => Some {| stop := true; workers := workers s; counters := counters s; asked := asked s |}
  end.

Fixpoint bexec (args : Args) (base : string) (evs : list bevent) (s : Bench) : option Bench :=
  match evs with
  | [] => Some s
  | e :: evs => s' ← bstep args base e s; bexec args base evs s'
  end.

Definition joined (s : Bench) : bool := forallb (λ w, match w with Ended => true | _ => false end) (workers s).

(** [main] up to the measured counters: the warm-up, when there is one, whose
    counters are reset, and the measured run. *)
Definition base_of (args : Args) : string := trim_end_matches "/" (url args).
Definition is_https (base : string) : bool := starts_with "https://" base.

Definition main (args : Args) (warm measured : list bevent) : option Counters :=
  let base := base_of args in
  c ← (if 0 <? warmup args then
         s ← bexec args base warm (run_workers args new_counters);
         if joined s then Some (reset (counters s)) else None
       else Some new_counters);
  s ← bexec args base measured (run_workers args c);
  if joined s then Some (counters s) else None.

(** ** Percentiles, in binary64 *)

Definition f64_of (z : Z) : spec_float := binary_normalize 53 1024 z 0 false.
Definition p50 : spec_float := S754_finite false 4503599627370496 (-53).
Definition p99 : spec_float := S754_finite false 8917127262193582 (-53).

(** [f64::round], half away from zero, and the saturating [as usize] *)
Definition round_to_usize (f : spec_float) : Z :=
  match f with
  | S754_finite false m e =>
      Z.min (if 0 <=? e then Z.pos m * 2 ^ e else (Z.pos m + 2 ^ (- e - 1)) / 2 ^ (- e)) u64_max
  | S754_infinity false => u64_max
  | _ => 0
  end.

(** [None] is an index out of bounds. *)
Definition percentile_ms (sorted_us : list Z) (p : spec_float) : option spec_float :=
  match sorted_us with
  | [] => Some (S754_zero false)
  | _ =>
      let idx := round_to_usize (SFmul 53 1024 (SFsub 53 1024 (f64_of (Z.of_nat (length sorted_us))) (f64_of 1)) p) in
      us ← sorted_us !! Z.to_nat idx;
      Some (SFdiv 53 1024 (f64_of us) (f64_of 1000))
  end.

Definition sort_unstable : list Z → list Z := merge_sort Z.le.

(** The figures printed at the end *)
Definition summary (c : Counters) : option (Z * spec_float * spec_float) :=
  let samples := sort_unstable (lat_us c) in
  a ← percentile_ms samples p50;
  b ← percentile_ms samples p99;
  Some (wrap 64 (ok c + err c), a, b).

Example percentile_edges :
  percentile_ms [] p50 = Some (S754_zero false) ∧ percentile_ms [1000] p99 = Some (f64_of 1) ∧
  let samples := map (λ i, Z.of_nat i * 1000) (seq 1 100) in
  percentile_ms samples p50 = Some (f64_of 51) ∧ percentile_ms samples p99 = Some (f64_of 99).
Proof. vm_compute. done. Qed.

(** ** What it does *)

(** The flag that is documented to switch the verification off makes no
    difference: certificates are never verified. *)
Lemma insecure_ignored https b : build_client https b = build_client https false.
Proof. done. Qed.

Lemma pick_path_residue args i j : i mod 10 = j mod 10 → pick_path args i = pick_path args j.
Proof. intros E. unfold pick_path. by rewrite E. Qed.

(** How many of the indices below [m] fall into a residue class of 10 *)
Definition below (p : Z → bool) (m : nat) : nat := length (List.filter p (map Z.of_nat (seq 0 m))).
Definition kind (lo hi : Z) (i : Z) : bool := (lo <=? i mod 10) && (i mod 10 <? hi).

Lemma filter_shift (p : Z → bool) k m :
  (∀ i, p (i + 10) = p i) →
  length (List.filter p (map Z.of_nat (seq (k + 10) m))) = length (List.filter p (map Z.of_nat (seq k m))).
Proof.
  intros Hp. revert k. induction m as [|m IH]; intros k; [done|]. cbn [seq map List.filter].
  rewrite Nat2Z.inj_add, Hp. specialize (IH (S k)). cbn [Nat.add] in IH.
  destruct (p (Z.of_nat k)); cbn [length]; by rewrite IH.
Qed.

(** Ten consecutive requests are seven for /pckcert, two for /tcb and one for
    /qe/identity, and so are any ten times as many. *)
Lemma mix_exact k :
  below (kind 0 7) (10 * k) = (7 * k)%nat ∧ below (kind 7 9) (10 * k) = (2 * k)%nat ∧
  below (kind 9 10) (10 * k) = k.
Proof.
  assert (Hk : ∀ lo hi n, below (kind lo hi) 10 = n → below (kind lo hi) (10 * k) = (n * k)%nat).
  { intros lo hi n Hn. unfold below in *. induction k as [|k' IH]; [by rewrite !Nat.mul_0_r|].
    replace (10 * S k')%nat with (10 + 10 * k')%nat by lia.
    rewrite seq_app, map_app, List.filter_app, length_app, Hn.
    change (seq 10 (10 * k')) with (seq (0 + 10) (10 * k')). rewrite filter_shift, IH; [lia|].
    intros i. unfold kind. by rewrite <- Z.add_mod_idemp_r, (Z_mod_same_full 10), Z.add_0_r by lia. }
  split_and!; [apply (Hk 0 7 7%nat)|apply (Hk 7 9 2%nat)|rewrite (Hk 9 10 1%nat) by done; lia]; done.
Qed.

(** The mix of one worker: with a concurrency that is a multiple of 10 it
    asks for one path only, so that the mix of all requests is that of the
    documentation only as far as all workers advance at one pace. *)
Lemma worker_single_path args w k :
  (Z.of_nat (concurrency args)) mod 10 = 0 →
  pick_path args (Z.of_nat w + Z.of_nat k * Z.of_nat (concurrency args)) = pick_path args (Z.of_nat w).
Proof.
  intros Hc. apply pick_path_residue.
  rewrite <- Z.add_mod_idemp_r, <- Z.mul_mod_idemp_r, Hc, Z.mul_0_r, Z.add_0_r by lia. done.
Qed.

(** Every answer is counted once, a latency for each success. *)
Lemma counters_exact args base evs c s :
  bexec args base evs (run_workers args c) = Some s →
  let outcomes := omap (λ e, match e with Answer _ o => Some o | _ => None end) evs in
  counters s = fold_left tally outcomes c.
Proof.
  cbv zeta. change c with (counters (run_workers args c)) at 2. generalize (run_workers args c) as s0. clear c.
  induction evs as [|e evs IH]; intros s0; cbn; [by intros [= ->]|].
  intros (s1 & Hs & Hr)%bind_Some. rewrite (IH _ Hr).
  destruct e as [w|w o|]; cbn in Hs |- *; repeat (case_match; try done); by simplify_eq/=.
Qed.
